(* ===== verification/_CoqProject ===== *)
-Q . S2P
Prelude.v
Reporter.v
Chroutine.v
Load.v
Thread.v
World.v
ThreadInv.v
Sched.v
Run.v
Safety.v
Interleave.v
FatherSon.v
Liveness.v
Migrate.v
Loop.v
Chutex.v
Channel.v
Fifo.v
Hold.v
Rendezvous.v
Selecter.v
Timer.v
Engine.v
Selectable.v
EngineInit.v
EngineProps.v
Socket.v
Poller.v
Tcp.v
Curl.v
Rpc.v
Dict.v
DictProps.v
DictIter.v
Sds.v
SdsProps.v
Numbers.v
SdsFmt.v
SdsText.v
SdsTextProps.v
SdsArgs.v
Read.v
Reply.v
Resp.v
ReplyTree.v
ReadRefine.v
ReadRun.v
ReadProps.v
Command.v
FormatCommand.v
Context.v
ContextProps.v
Net.v
NetProps.v
Async.v
AsyncProps.v
AsyncRun.v
PubSub.v
