(* ===== verification/Prelude.v ===== *)
(** * Verification of chroutine

    chroutine is a C++ library of stackful coroutines with its own scheduler,
    channels, timers, a poller with TCP, HTTP and gRPC on top, and a vendored
    Redis client (hiredis).  This development models the code in Rocq and proves
    what it does, and in some places what it does wrongly.

    ** The program

    An engine (engin/engine) starts worker threads.  A thread
    (engin/chroutine) keeps its coroutines in a map and a list, and its loop
    [schedule] alternates between picking one coroutine to run and polling the
    selectable objects registered with it.  Coroutines suspend themselves
    ([yield], [wait], waiting for a son, HOLD) and are woken by time, by the end
    of a son or by [awake_chroutine].  Channels (engin/channel), guarded by spin
    locks (util/chutex), pass values between coroutines and call
    [awake_chroutine]; timers (util/timer), the poller (net/epoll), the HTTP stub
    (net/http_client) and the gRPC client and server (net/rpc) are selectable
    objects.  The Redis client (vendors/hiredis) has its own layers: dynamic
    strings, numbers, an incremental parser, reply objects, commands, sockets,
    connections that block, connections of an event loop with callbacks and
    subscriptions, and a hash table.

    ** The files

    - Prelude: machine integers, tactics, lists, transition systems.
    - Reporter, Chroutine, Load: the small classes of engin/.  Thread: class
      [chroutine_thread_t], one definition per member function over a heap of
      objects.  World: several threads over one heap.
    - ThreadInv: the well-formedness of a thread's containers, and that every
      function keeps it.  Sched: one pass of the picking loop as a list
      function.  Run: one OS thread with arbitrary user code as a transition
      system, a function of the thread a transition.  Safety, FatherSon,
      Liveness: its reachable configurations, fathers and sons, fairness.
      Interleave: the functions taken apart at [m_chroutine_lock], and their
      regions interleaved with those of the calls other OS threads make on the
      thread.  Migrate, Loop: moving coroutines between threads, the main loop.
    - Chutex, Channel, Fifo, Hold, Rendezvous, Selecter, Timer: util/chutex,
      engin/channel, the macro HOLD, the coroutines of one thread and their
      channels (Run and Channel composed), engin/chan_selecter (against the interface class
      [ChannelIt], discharged by the channels and by the timer's), util/timer.
    - Engine, Selectable, EngineInit, EngineProps: engin/engine and
      engin/selectable_obj; starting up with the workers' reports interleaved.
    - Socket, Poller, Tcp: net/epoll: writing, the poller's table and the life
      of sockets, the servers' and clients' data paths and connecting.
    - Curl: net/http_client.  Rpc: net/rpc.
    - Dict, DictProps, DictIter: vendors/hiredis/dict.c, refined to finite maps
      under the interface class [dict_laws] of the table's callbacks.
    - Sds, SdsProps, SdsFmt, SdsText, SdsTextProps, SdsArgs:
      vendors/hiredis/sds.c.  Numbers: its numbers, those of read.c and
      hiredis.c.
    - Read: vendors/hiredis/read.c.  Reply: the reply objects and
      [redisFormatCommandArgv] of hiredis.c.  Resp: the abstract parser, with
      the protocol's properties.  ReplyTree: how replies lie on the heap.
      ReadRefine, ReadRun: the reader implements the parser.  ReadProps: its
      properties.  Command: commands on the wire.  FormatCommand: commands
      made from a format.  Context, ContextProps: a connection.
    - Net, NetProps: vendors/hiredis/net.c and the functions of hiredis.c that
      make, remake and free a connection's socket.
    - Async: vendors/hiredis/async.c.  AsyncProps: its callbacks.  AsyncRun: the
      machine it implements, and its faults.  PubSub: subscriptions, against the
      maps its tables implement.

    A definition has the name of the function, method or type it models (a
    leading double underscore is dropped); the comment in front of it gives its C
    or C++ signature where the name alone does not tell.

    ** How code is modelled

    Objects that are shared live in heaps indexed by addresses, and an access to
    an object that is not there, a failed assertion (the code is built with
    assertions), an access outside of a block and the use of a null pointer are
    [None].  Integers are Z with the conversions [to_int], [to_uint],
    [to_size_t] and [to_int64] where the width matters.  The boundaries to code the
    repository does not contain are arguments: [swapcontext] (operations that
    suspend return a flag, and the effect of the resumed coroutine is an
    argument of the pass), the clock, the results of [epoll_wait], [::read],
    [::write], [getsockopt] and the other calls on sockets, what [vsnprintf]
    prints, what a user's callback calls, the results of libcurl, of gRPC's completion queues, of the
    allocator.  A list of results is consumed in order; a function that needs
    more of them than there are has not returned, and is [None].  In the
    transition systems code between two suspensions is one transition; of the
    scheduler this is an abstraction, since its functions release their lock in
    between, and Interleave.v has the system in which a region under the lock, an
    unlocked access, or a step of another thread is one transition, with the
    coarse one as a part of it ([run_is_interleaving]).

    ** What is proved

    - Scheduler: in all interleavings with other threads the containers of a
      thread agree, what the thread itself points to is alive, and the running
      coroutine is the one the thread says; the saved iterator is valid unless a
      certain race has happened, which does happen (Interleave, for a thread
      whose coroutines are not moved; Safety for the coarse steps).  Ready
      coroutines are picked within a bound when nothing is created or removed
      (Liveness), fathers are woken by sons and timeouts (FatherSon), moving keeps
      every coroutine (Migrate), [stop] ends the loop after the iteration it is
      called in (Loop).
    - Channels: they refine bounded queues and are first-in-first-out (Fifo);
      when the coroutines of one thread, none of them a father or a son, wait for
      each other only by channels, no wake-up is lost and a value reaches the
      reader that waits (Rendezvous), while the end of a son or a wake-up from
      another thread can go wrong (Rendezvous, Hold); mutual exclusion of the lock
      (Chutex); the selecter calls one callback (Selecter); timers (Timer).
    - Engine and network: starting (EngineInit), dispatching, watching and the
      handing over of the coroutines of a stuck thread (EngineProps), the poller's
      table (Poller), byte streams (Socket, Tcp), requests (Curl), one waiting
      round for every service (Rpc).
    - hiredis: the hash table is a finite map; dynamic strings are lists of
      bytes; printing and parsing of numbers are inverse; quoting and splitting
      of arguments are inverse; the reader does what the parser does for all
      cuts of the bytes, replies come back whole and in order, errors free what
      was made and are final; commands are laid out in the size computed before;
      a well formed format makes the arguments it shows; over a connection every
      command gets its reply, whatever the kernel does short of failing.  With
      descriptor 0 in use and a timeout that does not overflow, the ways to connect
      in which the library makes the socket end with one open descriptor and a
      usable connection or with an error, and leak nothing.  An asynchronous
      context calls every callback once and in order, with the replies of the
      parser, for all interleavings of commands with one reply each (no
      subscriptions, no MONITOR); subscriptions are operations on finite maps, with
      the counts as they should be when no unknown name is behind a known one.
    - Errors: theorems that show what goes wrong where the code has a fault
      (read of a channel with a waiting writer, wake-ups before HOLD, an iterator
      left dangling, moved coroutines, resent prefixes, and others).

    ** Fuel

    Loops without a structural measure take fuel, always computed from the
    state: a list's length plus one (picking, moving), the number of bytes
    left plus two (items of a reply: every item takes a byte), ten (the nine
    tasks of a reader's stack), the number of objects plus two (freeing a
    reply), twenty (digits of a 64 bit number), the length of the kernel's
    script, the bytes of a format plus one, the ten retries of a connection, the
    bytes in the reader's buffer plus two (replies to callbacks), the length of
    a queue or table plus one (freeing an asynchronous context), the bytes of a
    command plus one (its names).  The theorems state that the result is [Some], so the fuel is
    enough.

    ** Not modelled

    The switching of stacks (ucontext), the generated protocol code, the
    examples, the set-up of the logger and the clock (pure I/O), the empty class
    [redis_client_t], spdlog, and the tests, adapters and examples of hiredis.
    A user's callback can send commands, disconnect and free its context, but
    not call the handlers of the event loop.  Failing allocations are modelled
    for strings, readers and replies, not for the hash table and the C++ code.
    Undefined behaviour of signed overflow is the two's complement result, and
    is listed as a finding where it can happen.  Moving coroutines is not
    interleaved with the steps of the two threads: Migrate.v has the whole of
    [move_chroutines_to_thread] as one step, and the other transition systems
    leave it out. *)

From stdpp Require Export base tactics numbers list gmap relations.
From Stdlib Require Export Sorted.

(** ** Machine integers *)

Definition INT_MIN : Z := (- 2 ^ 31)%Z.
Definition INT_MAX : Z := (2 ^ 31 - 1)%Z.
Definition in_int (z : Z) : Prop := (INT_MIN <= z <= INT_MAX)%Z.
Definition int64_max : Z := (2 ^ 63 - 1)%Z.
Definition in_int64 (z : Z) : Prop := (- 2 ^ 63 <= z <= int64_max)%Z.

(** Conversion to a 64-bit [size_t]. *)
Definition to_size_t (z : Z) : Z := (z mod 2 ^ 64)%Z.

(** Conversions to [unsigned int], [int] and [long long]. *)
Definition to_uint (z : Z) : Z := (z mod 2 ^ 32)%Z.
Definition to_int (z : Z) : Z := ((z + 2 ^ 31) mod 2 ^ 32 - 2 ^ 31)%Z.
Definition to_int64 (z : Z) : Z := ((z + 2 ^ 63) mod 2 ^ 64 - 2 ^ 63)%Z.

Lemma to_size_t_id z : (0 <= z < 2 ^ 64)%Z → to_size_t z = z.
Proof. apply Z.mod_small. Qed.
Lemma to_uint_id z : (0 <= z < 2 ^ 32)%Z → to_uint z = z.
Proof. apply Z.mod_small. Qed.
Lemma to_int_id z : in_int z → to_int z = z.
Proof. unfold in_int, INT_MIN, INT_MAX, to_int. intros Hz. rewrite Z.mod_small by lia. lia. Qed.
Lemma to_int64_id z : in_int64 z → to_int64 z = z.
Proof. unfold in_int64, int64_max, to_int64. intros Hz. rewrite Z.mod_small by lia. lia. Qed.

(** ** Tactics *)

(** Turn boolean comparisons of the context into propositions. *)
Ltac bool_to_prop :=
  repeat match goal with
  | H : _ && _ = true |- _ => apply andb_true_iff in H; destruct H
  | H : _ || _ = false |- _ => apply orb_false_iff in H; destruct H
  | H : negb _ = true |- _ => apply negb_true_iff in H
  | H : negb _ = false |- _ => apply negb_false_iff in H
  | H : (_ =? _)%Z = true |- _ => apply Z.eqb_eq in H
  | H : (_ =? _)%Z = false |- _ => apply Z.eqb_neq in H
  | H : (_ <? _)%Z = true |- _ => apply Z.ltb_lt in H
  | H : (_ <? _)%Z = false |- _ => apply Z.ltb_ge in H
  | H : (_ <=? _)%Z = true |- _ => apply Z.leb_le in H
  | H : (_ <=? _)%Z = false |- _ => apply Z.leb_gt in H
  | H : (_ >? _)%Z = true |- _ => rewrite Z.gtb_ltb in H
  | H : (_ >? _)%Z = false |- _ => rewrite Z.gtb_ltb in H
  | H : bool_decide _ = true |- _ => apply bool_decide_eq_true in H
  | H : bool_decide _ = false |- _ => apply bool_decide_eq_false in H
  end.

(** Case analysis on the scrutinee of a conditional or a match of the goal. *)
Ltac case_if :=
  match goal with
  | |- context [if ?b then _ else _] =>
      let E := fresh "E" in destruct b eqn:E
  end.

Ltac case_if_in H :=
  match type of H with
  | context [if ?b then _ else _] =>
      let E := fresh "E" in destruct b eqn:E
  end.

(** Decide a closed decidable proposition by evaluation. *)
Ltac by_compute :=
  lazymatch goal with
  | |- ¬ ?P => apply (bool_decide_eq_false_1 P); vm_compute; reflexivity
  | |- ?P => apply (bool_decide_eq_true_1 P); vm_compute; reflexivity
  end.

(** Membership in explicit lists. *)
Ltac mem :=
  repeat match goal with
  | H : context [_ ∈ _ ++ _] |- _ => setoid_rewrite elem_of_app in H
  | H : context [_ ∈ _ :: _] |- _ => setoid_rewrite elem_of_cons in H
  end;
  rewrite ?elem_of_app, ?elem_of_cons, ?elem_of_nil;
  solve [intuition (subst; auto; try congruence)].

Create HintDb chr.
Create Rewrite HintDb chr.

(** ** Invariants of transition systems *)

Lemma rtc_invariant {A} (R : relation A) (P : A → Prop) :
  (∀ x y, P x → R x y → P y) →
  ∀ x y, rtc R x y → P x → P y.
Proof. intros Hstep x y Hrtc. induction Hrtc; eauto. Qed.

(** ** Lists *)

Section lists.
Context {A : Type}.
Implicit Types (l k : list A) (x y : A).

Lemma NoDup_app_cons_ne l k x y :
  NoDup (l ++ x :: k) → y ∈ l ++ k → y ≠ x.
Proof.
  intros Hnd Hy ->. apply NoDup_app in Hnd as (_ & Hd & Hnd).
  apply NoDup_cons in Hnd as [Hx _].
  apply elem_of_app in Hy as [Hy|Hy]; [|done].
  apply (Hd x Hy). apply elem_of_cons. by left.
Qed.

Lemma NoDup_app_remove l k x : NoDup (l ++ x :: k) → NoDup (l ++ k).
Proof.
  rewrite !NoDup_app, NoDup_cons. intros (? & Hd & ? & ?).
  split_and!; try done. intros y Hy Hk. apply (Hd y Hy). apply elem_of_cons. by right.
Qed.

Lemma NoDup_snoc l x : NoDup l → x ∉ l → NoDup (l ++ [x]).
Proof.
  intros Hl Hx. apply NoDup_app. split_and!; [done| |apply NoDup_singleton].
  intros y Hy ->%list_elem_of_singleton. done.
Qed.

Lemma filter_keeps_all (P : A → Prop) `{∀ x, Decision (P x)} l :
  (∀ x, x ∈ l → P x) → filter P l = l.
Proof.
  induction l as [|y l IH]; intros Hl; [done|]. rewrite filter_cons.
  rewrite decide_True by (apply Hl; mem). f_equal. apply IH. intros x Hx. apply Hl. mem.
Qed.

Lemma StronglySorted_filter (R : relation A) (P : A → Prop) `{∀ x, Decision (P x)} l :
  StronglySorted R l → StronglySorted R (filter P l).
Proof.
  induction l as [|y l IH]; intros Hl; [constructor|].
  apply StronglySorted_inv in Hl as [Hl Hy]. rewrite filter_cons. case_decide; [|by apply IH].
  constructor; [by apply IH|]. apply Forall_forall. intros x [_ Hx]%list_elem_of_filter.
  by apply (proj1 (Forall_forall _ _) Hy).
Qed.
End lists.
