(* ===== verification/Reporter.v ===== *)
(** * engin/reporter.hpp: the result object shared by a father and its son *)

From S2P Require Import Prelude.
Local Open Scope Z_scope.

(** [son_result_t] *)
Inductive son_result_t :=
  | result_ready
  | result_done
  | result_error
  | result_timeout.

#[export] Instance son_result_t_eq_dec : EqDecision son_result_t.
Proof. solve_decision. Defined.

(** [reporter_t<T>]: the payload [data], here the value of the template
    argument [T], and the result code. *)
Record reporter_t (T : Type) := mk_reporter {
  data : T;
  errcode : son_result_t
}.
Arguments mk_reporter {T} _ _.
Arguments data {T} _.
Arguments errcode {T} _.

Section reporter.
Context {T : Type}.

(** [create]: [data] is default-initialised by the language. *)
Definition create (d : T) : reporter_t T := mk_reporter d result_ready.
Definition set_result (result : son_result_t) (r : reporter_t T) : reporter_t T :=
  mk_reporter (data r) result.
Definition set_data (d : T) (r : reporter_t T) : reporter_t T :=
  mk_reporter d (errcode r).
Definition get_data (r : reporter_t T) : T := data r.
Definition get_result (r : reporter_t T) : son_result_t := errcode r.

Lemma get_set_result res r : get_result (set_result res r) = res.
Proof. done. Qed.
Lemma get_data_set_result res r : get_data (set_result res r) = get_data r.
Proof. done. Qed.
End reporter.

#[export] Hint Rewrite @get_set_result @get_data_set_result : chr.
