(* ===== verification/Chroutine.v ===== *)
(** * engin/chroutine.hpp, engin/chroutine.cpp: class [chroutine_t]

    One coroutine: its saved context, its function, its yield and wait
    fields and its links to father and son.  Objects live in the heap of
    Thread.v; the methods here act on the fields of one object and, where
    the code reaches through [reporter], on the store of reporters. *)

From S2P Require Import Prelude Reporter.
Local Open Scope Z_scope.

Definition STACK_SIZE : Z := 1024 * 128.
Definition INVALID_ID : Z := -1.

(** [func_t] is a [std::function] over a [void] pointer: [None] is the empty function,
    [Some k] the closure with code [k]. *)
Definition func_t : Type := option Z.

Inductive chroutine_state_t :=
  | chroutine_state_ready
  | chroutine_state_running
  | chroutine_state_suspend.

#[export] Instance chroutine_state_t_eq_dec : EqDecision chroutine_state_t.
Proof. solve_decision. Defined.

(** The part of a [ucontext_t] the program sets: the stack size, the context
    [uc_link] (the main context of a thread object, named by that object),
    the argument [makecontext] passes to [entry] (a thread object), and, once
    [entry] has started on this stack, its local variable [p_c]. *)
Record ucontext_t := mk_ucontext {
  ss_size : Z;
  uc_link : nat;
  mc_arg : nat;
  entry_pc : option nat
}.

Record chroutine_t := mk_chroutine {
  ctx : option ucontext_t;
  func : func_t;
  arg : Z;
  state : chroutine_state_t;
  stack : option Z;
  yield_wait : Z;
  yield_to : Z;
  me : Z;
  father : Z;
  son : Z;
  reporter : option nat;
  stop_son_when_yield_over : bool;
  moved : bool
}.

(** ** Field assignments *)

Definition set_ctx v (c : chroutine_t) := mk_chroutine v (func c) (arg c) (state c) (stack c)
  (yield_wait c) (yield_to c) (me c) (father c) (son c) (reporter c) (stop_son_when_yield_over c) (moved c).
Definition set_state v (c : chroutine_t) := mk_chroutine (ctx c) (func c) (arg c) v (stack c)
  (yield_wait c) (yield_to c) (me c) (father c) (son c) (reporter c) (stop_son_when_yield_over c) (moved c).
Definition set_yield_wait v (c : chroutine_t) := mk_chroutine (ctx c) (func c) (arg c) (state c) (stack c)
  v (yield_to c) (me c) (father c) (son c) (reporter c) (stop_son_when_yield_over c) (moved c).
Definition set_yield_to v (c : chroutine_t) := mk_chroutine (ctx c) (func c) (arg c) (state c) (stack c)
  (yield_wait c) v (me c) (father c) (son c) (reporter c) (stop_son_when_yield_over c) (moved c).
Definition set_father v (c : chroutine_t) := mk_chroutine (ctx c) (func c) (arg c) (state c) (stack c)
  (yield_wait c) (yield_to c) (me c) v (son c) (reporter c) (stop_son_when_yield_over c) (moved c).
Definition set_son v (c : chroutine_t) := mk_chroutine (ctx c) (func c) (arg c) (state c) (stack c)
  (yield_wait c) (yield_to c) (me c) (father c) v (reporter c) (stop_son_when_yield_over c) (moved c).
Definition set_reporter v (c : chroutine_t) := mk_chroutine (ctx c) (func c) (arg c) (state c) (stack c)
  (yield_wait c) (yield_to c) (me c) (father c) (son c) v (stop_son_when_yield_over c) (moved c).
Definition set_stop_son v (c : chroutine_t) := mk_chroutine (ctx c) (func c) (arg c) (state c) (stack c)
  (yield_wait c) (yield_to c) (me c) (father c) (son c) (reporter c) v (moved c).
(** [set_moved()] *)
Definition set_moved (c : chroutine_t) := mk_chroutine (ctx c) (func c) (arg c) (state c) (stack c)
  (yield_wait c) (yield_to c) (me c) (father c) (son c) (reporter c) (stop_son_when_yield_over c) true.
Definition has_moved (c : chroutine_t) : bool := moved c.

(** ** Constructors *)

(** [chroutine_t(chroutine_id_t id)]: a fresh stack and an uninitialised
    context ([create_chroutine] fills it at once, so it is [None] here). *)
Definition new_chroutine (id : Z) : chroutine_t := {|
  ctx := None; func := None; arg := 0; state := chroutine_state_suspend;
  stack := Some STACK_SIZE; yield_wait := 0; yield_to := 0; me := id;
  father := INVALID_ID; son := INVALID_ID; reporter := None;
  stop_son_when_yield_over := false; moved := false |}.

(** [chroutine_t(chroutine_t &&other)]: the new object, and what is left of
    the old one.  The swapped members of the new object start as [nullptr]. *)
Definition move_chroutine (other : chroutine_t) : chroutine_t * chroutine_t :=
  ({| ctx := ctx other; func := func other; arg := arg other; state := state other;
      stack := stack other; yield_wait := yield_wait other; yield_to := yield_to other;
      me := me other; father := father other; son := son other;
      reporter := reporter other;
      stop_son_when_yield_over := stop_son_when_yield_over other; moved := false |},
   {| ctx := None; func := None; arg := arg other; state := state other;
      stack := None; yield_wait := yield_wait other; yield_to := yield_to other;
      me := me other; father := father other; son := son other;
      reporter := reporter other;
      stop_son_when_yield_over := stop_son_when_yield_over other; moved := moved other |}).

(** ** Methods *)

(** [int wait(std::time_t now)]: the post-decrement returns the old count. *)
Definition wait (now : Z) (c : chroutine_t) : Z * chroutine_t :=
  if yield_wait c >? 0 then (yield_wait c, set_yield_wait (yield_wait c - 1) c)
  else if negb (yield_to c =? 0) && (yield_to c >? now) then (1, c)
  else (0, c).

(** The store of reporters ([reporter_t<T>] objects on the C++ heap). *)
Abbreviation reporters := (gmap nat (reporter_t Z)).

(** [reporter.get()->set_result(result)] when the pointer is set. *)
Definition report (result : son_result_t) (c : chroutine_t) (rs : reporters) : reporters :=
  match reporter c with
  | Some r => alter (set_result result) r rs
  | None => rs
  end.

(** [chroutine_id_t yield_over(son_result_t result)] *)
Definition yield_over (result : son_result_t) (c : chroutine_t) (rs : reporters)
  : Z * chroutine_t * reporters :=
  if negb (yield_to c =? 0) && stop_son_when_yield_over c
  then (son c,
        set_yield_to 0 (set_stop_son false (set_son INVALID_ID c)),
        report result c rs)
  else (INVALID_ID, set_yield_to 0 c, rs).

(** [void son_finished()] *)
Definition son_finished (c : chroutine_t) (rs : reporters) : chroutine_t * reporters :=
  (set_yield_to 0 c, report result_done c rs).

(** ** When a coroutine may run *)

(** The test of the scheduler, [!has_moved() && wait(now) <= 0]. *)
Definition ready (now : Z) (c : chroutine_t) : bool :=
  negb (has_moved c) && negb (fst (wait now c) >? 0).

Lemma wait_ready now c : yield_wait c <= 0 → (yield_to c = 0 ∨ yield_to c <= now) → wait now c = (0, c).
Proof.
  intros Hw Ht. unfold wait. rewrite Z.gtb_ltb. destruct (Z.ltb_spec 0 (yield_wait c)); [lia|].
  destruct (Z.eqb_spec (yield_to c) 0); simpl; [done|].
  rewrite Z.gtb_ltb. destruct (Z.ltb_spec now (yield_to c)); [lia|done].
Qed.

Lemma ready_spec now c :
  ready now c = true ↔
  moved c = false ∧ yield_wait c <= 0 ∧ (yield_to c = 0 ∨ yield_to c <= now).
Proof.
  unfold ready, has_moved, wait. rewrite !Z.gtb_ltb.
  destruct (moved c); simpl; [split; [done|intros (?&_); done]|].
  destruct (Z.ltb_spec 0 (yield_wait c)); simpl.
  { destruct (Z.ltb_spec 0 (yield_wait c)); simpl; [|lia]. split; [done|lia]. }
  destruct (Z.eqb_spec (yield_to c) 0); simpl; [split; [auto|done]|].
  destruct (Z.ltb_spec now (yield_to c)); simpl; split; auto; try done; lia.
Qed.

Lemma not_ready_wait now c : moved c = false → ready now c = false → fst (wait now c) > 0.
Proof.
  unfold ready, has_moved. intros -> ?. simpl in *. rewrite Z.gtb_ltb in *.
  destruct (Z.ltb_spec 0 (fst (wait now c))); [lia|done].
Qed.

Lemma wait_id now c : me (snd (wait now c)) = me c.
Proof. unfold wait. repeat case_match; done. Qed.

(** [wait] only touches [yield_wait]. *)
Lemma wait_frame now c : ∃ n, snd (wait now c) = set_yield_wait n c ∧ n <= yield_wait c ∧ (0 <= yield_wait c → 0 <= n).
Proof.
  unfold wait. repeat case_match; bool_to_prop; simpl.
  - eexists; split; [done|lia].
  - exists (yield_wait c). split; [by destruct c|lia].
  - exists (yield_wait c). split; [by destruct c|lia].
Qed.

Lemma yield_over_id res c rs : me (snd (fst (yield_over res c rs))) = me c.
Proof. unfold yield_over. by case_match. Qed.
