(* ===== verification/Load.v ===== *)
(** * engin/chroutine.hpp: struct [load_t], the load counter of a thread

    The window holds [COUNT_CIRCAL] units; a round of the scheduler that did
    something costs one unit, an idle round (followed by a 10 ms sleep) costs
    one hundred. *)

From S2P Require Import Prelude.
From Stdlib Require Import QArith.
Local Open Scope Z_scope.

Definition COUNT_CIRCAL : Z := 1000.

Record load_t := mk_load { last : Z; working : Z; counting_left : Z }.

Definition load_init : load_t := mk_load (-1) 0 COUNT_CIRCAL.

(** [void update(int32_t worked)] *)
Definition update (worked : Z) (l : load_t) : load_t :=
  let w := working l + worked in
  let left := if worked =? 0 then counting_left l - 100 else counting_left l - 1 in
  if left <? 1 then mk_load w 0 COUNT_CIRCAL else mk_load (last l) w left.

(** [float load()]: the exact quotient the float approximates. *)
Definition load (l : load_t) : Q :=
  if last l <? 0 then 0%Q else (last l # 1000)%Q.

(** ** The window *)

Section window.
(** [m] bounds the work one round may report. *)
Context (m : Z) (Hm : 0 <= m).

(** Between two updates the remaining window is in [1, COUNT_CIRCAL], and
    the work counted so far is bounded by the part of the window consumed. *)
Definition load_wf (l : load_t) : Prop :=
  1 <= counting_left l <= COUNT_CIRCAL ∧
  0 <= working l <= m * (COUNT_CIRCAL - counting_left l) ∧
  -1 <= last l <= m * COUNT_CIRCAL.

Lemma load_init_wf : load_wf load_init.
Proof. unfold load_wf, load_init, COUNT_CIRCAL; simpl. nia. Qed.

Lemma update_wf worked l : 0 <= worked <= m → load_wf l → load_wf (update worked l).
Proof.
  unfold load_wf, update, COUNT_CIRCAL. intros Hw (Hc & Hk & Hl).
  destruct (Z.eqb_spec worked 0) as [->|Hne];
    (case_if; bool_to_prop; cbn [last working counting_left]); split_and!; try nia.
Qed.

(** The total of a window that is closed is within [int32_t]. *)
Lemma update_no_overflow worked l :
  m * COUNT_CIRCAL <= INT_MAX → 0 <= worked <= m → load_wf l →
  in_int (working l + worked) ∧ in_int (last (update worked l)).
Proof.
  intros Hb Hw Hl. destruct (update_wf worked l Hw Hl) as (_ & _ & Hlast).
  destruct Hl as (Hc & Hk & _).
  assert (working l + worked <= m * COUNT_CIRCAL) by (unfold COUNT_CIRCAL in *; nia).
  unfold in_int, INT_MIN. lia.
Qed.
End window.

#[export] Hint Resolve load_init_wf update_wf : chr.
