(* ===== verification/Thread.v ===== *)
(** * engin/chroutine.hpp, engin/chroutine.cpp: class [chroutine_thread_t]

    The data of a thread object and of the heap it shares with the other
    threads, and one definition per member function.  [swapcontext] is the
    boundary to code the program does not contain: operations that suspend the
    caller return a flag saying that they switched to the main context, and
    [pick_run_chroutine] takes the effect of the resumed coroutine as the
    argument [resume].  Each function is what the thread does when no other
    thread comes between; Interleave.v takes the functions apart at their locks
    and the unlocked accesses between them. *)

From S2P Require Import Prelude Reporter Chroutine Load.
Local Open Scope Z_scope.

(** ** Data *)

(** The C++ heap: coroutine objects, reporters, the allocator, and the static
    counter [ms_chroutine_id]. *)
Record heap := mk_heap {
  chs : gmap nat chroutine_t;
  rps : reporters;
  next_ptr : nat;
  ms_chroutine_id : Z
}.

(** [schedule_t].  [chroutines_map] may hold null pointers ([operator[]]
    inserts them).  An iterator of the list is named by the element it points
    to, [None] being [end()]: the elements of the list are distinct objects. *)
Record schedule_t := mk_schedule {
  running_id : Z;
  chroutines_map : gmap Z (option nat);
  chroutines_sched : list nat;
  chroutines_to_free : list (option nat);
  sched_iter : option nat
}.

Inductive thread_state_t :=
  | thread_state_t_init
  | thread_state_t_running
  | thread_state_t_shifting
  | thread_state_t_blocking
  | thread_state_t_finished.

#[export] Instance thread_state_t_eq_dec : EqDecision thread_state_t.
Proof. solve_decision. Defined.

(** The numeric values of the enumeration, for the code's [>]. *)
Definition thread_state_code (x : thread_state_t) : Z :=
  match x with
  | thread_state_t_init => 0
  | thread_state_t_running => 1
  | thread_state_t_shifting => 2
  | thread_state_t_blocking => 3
  | thread_state_t_finished => 4
  end.

Inductive thread_type_t := worker | main | epoll.

#[export] Instance thread_type_t_eq_dec : EqDecision thread_type_t.
Proof. solve_decision. Defined.

(** [this] names the thread object; [m_selector_list] is a [std::map] keyed by
    the address of the selectable object, so its sorted list of keys;
    [m_std_thread_id] is [None] for the null thread id. *)
Record chroutine_thread_t := mk_thread {
  this : nat;
  m_schedule : schedule_t;
  m_is_running : bool;
  m_need_stop : bool;
  m_creating_index : Z;
  m_selector_list : list nat;
  m_entry_time : Z;
  m_state : thread_state_t;
  m_load : load_t;
  m_type : thread_type_t;
  m_std_thread_id : option Z
}.

Definition schedule_init : schedule_t := mk_schedule INVALID_ID ∅ [] [] None.

(** [chroutine_thread_t::new_thread], [chroutine_thread_t::chroutine_thread_t] *)
Definition new_thread (self : nat) : chroutine_thread_t := {|
  this := self; m_schedule := schedule_init; m_is_running := false;
  m_need_stop := false; m_creating_index := 0; m_selector_list := [];
  m_entry_time := 0; m_state := thread_state_t_init; m_load := load_init;
  m_type := worker; m_std_thread_id := None |}.

Definition heap_init : heap := mk_heap ∅ ∅ 1 0.

(** ** Field assignments *)

Definition set_running_id v s := mk_schedule v (chroutines_map s) (chroutines_sched s) (chroutines_to_free s) (sched_iter s).
Definition set_chroutines_map v s := mk_schedule (running_id s) v (chroutines_sched s) (chroutines_to_free s) (sched_iter s).
Definition set_chroutines_sched v s := mk_schedule (running_id s) (chroutines_map s) v (chroutines_to_free s) (sched_iter s).
Definition set_to_free v s := mk_schedule (running_id s) (chroutines_map s) (chroutines_sched s) v (sched_iter s).
Definition set_sched_iter v s := mk_schedule (running_id s) (chroutines_map s) (chroutines_sched s) (chroutines_to_free s) v.

Definition set_chs v h := mk_heap v (rps h) (next_ptr h) (ms_chroutine_id h).
Definition set_rps v h := mk_heap (chs h) v (next_ptr h) (ms_chroutine_id h).

Definition set_schedule v t := mk_thread (this t) v (m_is_running t) (m_need_stop t) (m_creating_index t)
  (m_selector_list t) (m_entry_time t) (m_state t) (m_load t) (m_type t) (m_std_thread_id t).
Definition set_is_running v t := mk_thread (this t) (m_schedule t) v (m_need_stop t) (m_creating_index t)
  (m_selector_list t) (m_entry_time t) (m_state t) (m_load t) (m_type t) (m_std_thread_id t).
Definition set_need_stop v t := mk_thread (this t) (m_schedule t) (m_is_running t) v (m_creating_index t)
  (m_selector_list t) (m_entry_time t) (m_state t) (m_load t) (m_type t) (m_std_thread_id t).
Definition set_creating_index v t := mk_thread (this t) (m_schedule t) (m_is_running t) (m_need_stop t) v
  (m_selector_list t) (m_entry_time t) (m_state t) (m_load t) (m_type t) (m_std_thread_id t).
Definition set_selector_list v t := mk_thread (this t) (m_schedule t) (m_is_running t) (m_need_stop t) (m_creating_index t)
  v (m_entry_time t) (m_state t) (m_load t) (m_type t) (m_std_thread_id t).
Definition store_entry_time v t := mk_thread (this t) (m_schedule t) (m_is_running t) (m_need_stop t) (m_creating_index t)
  (m_selector_list t) v (m_state t) (m_load t) (m_type t) (m_std_thread_id t).
(** [void set_state(thread_state_t state)] *)
Definition set_thread_state v t := mk_thread (this t) (m_schedule t) (m_is_running t) (m_need_stop t) (m_creating_index t)
  (m_selector_list t) (m_entry_time t) v (m_load t) (m_type t) (m_std_thread_id t).
Definition set_load v t := mk_thread (this t) (m_schedule t) (m_is_running t) (m_need_stop t) (m_creating_index t)
  (m_selector_list t) (m_entry_time t) (m_state t) v (m_type t) (m_std_thread_id t).
(** [void set_type(thread_type_t type)] *)
Definition set_type v t := mk_thread (this t) (m_schedule t) (m_is_running t) (m_need_stop t) (m_creating_index t)
  (m_selector_list t) (m_entry_time t) (m_state t) (m_load t) v (m_std_thread_id t).
(** [void update_thread_id()]; [tid] is [std::this_thread::get_id()]. *)
Definition update_thread_id tid t := mk_thread (this t) (m_schedule t) (m_is_running t) (m_need_stop t) (m_creating_index t)
  (m_selector_list t) (m_entry_time t) (m_state t) (m_load t) (m_type t) (Some tid).

(** A thread object together with the heap. *)
Record cell := mk_cell { hp : heap; th : chroutine_thread_t }.

Abbreviation sch s := (m_schedule (th s)).

Definition upd_sch (f : schedule_t → schedule_t) (s : cell) : cell :=
  mk_cell (hp s) (set_schedule (f (sch s)) (th s)).
Definition upd_th (f : chroutine_thread_t → chroutine_thread_t) (s : cell) : cell :=
  mk_cell (hp s) (f (th s)).
Definition upd_chs (f : gmap nat chroutine_t → gmap nat chroutine_t) (s : cell) : cell :=
  mk_cell (set_chs (f (chs (hp s))) (hp s)) (th s).
Definition upd_rps (f : reporters → reporters) (s : cell) : cell :=
  mk_cell (set_rps (f (rps (hp s))) (hp s)) (th s).

(** The object a pointer of the heap refers to. *)
Definition obj (p : nat) (s : cell) : option chroutine_t := chs (hp s) !! p.

(** ** Member functions *)

(** [chroutine_t * get_chroutine(chroutine_id_t id)]; [None] is [nullptr]. *)
Definition get_chroutine (id : Z) (s : cell) : option nat :=
  match chroutines_map (sch s) !! id with
  | Some p => p
  | None => None
  end.

(** The loop of [remove_chroutine]: the list without the first element whose
    id is [id], and the iterator [erase] returns. *)
Fixpoint erase_id (h : gmap nat chroutine_t) (id : Z) (l : list nat) : option (list nat * option nat) :=
  match l with
  | [] => None
  | p :: r =>
    match h !! p with
    | Some c =>
      if me c =? id then Some (r, head r)
      else match erase_id h id r with
           | Some (r', it) => Some (p :: r', it)
           | None => None
           end
    | None =>
      match erase_id h id r with
      | Some (r', it) => Some (p :: r', it)
      | None => None
      end
    end
  end.

(** [void remove_chroutine(chroutine_id_t id)] *)
Definition remove_chroutine (id : Z) (s : cell) : cell :=
  match chroutines_map (sch s) !! id with
  | None => s
  | Some p =>
    let s1 := upd_sch (λ x, set_chroutines_map (delete id (chroutines_map x))
                              (set_to_free (chroutines_to_free x ++ [p]) x)) s in
    match erase_id (chs (hp s)) id (chroutines_sched (sch s1)) with
    | Some (l, it) => upd_sch (λ x, set_sched_iter it (set_chroutines_sched l x)) s1
    | None => s1
    end
  end.

(** A [shared_ptr] dies with its last owner: the objects of [ps] that neither
    the map nor the list of the thread still owns. *)
Definition owned (x : schedule_t) (p : nat) : bool :=
  bool_decide (p ∈ chroutines_sched x)
  || bool_decide (Some p ∈ (map_to_list (chroutines_map x)).*2).

Definition unowned (x : schedule_t) (ps : list (option nat)) : list nat :=
  List.filter (λ p, negb (owned x p)) (omap id ps).

Definition destroy (ps : list nat) (h : gmap nat chroutine_t) : gmap nat chroutine_t :=
  foldr delete h ps.

(** [m_schedule.chroutines_to_free.clear()] *)
Definition clear_to_free (s : cell) : cell :=
  upd_sch (set_to_free [])
    (upd_chs (destroy (unowned (sch s) (chroutines_to_free (sch s)))) s).

(** [void clear_all_chroutine()]: the three containers are emptied, so every
    object the thread owned is destroyed. *)
Definition clear_all_chroutine (s : cell) : cell :=
  upd_sch (λ x, mk_schedule (running_id x) ∅ [] [] (sched_iter x))
    (upd_chs (destroy (omap id ((map_to_list (chroutines_map (sch s))).*2)
                       ++ omap id (chroutines_to_free (sch s))
                       ++ chroutines_sched (sch s))) s).

(** [reporter_base_t * get_current_reporter()] *)
Definition get_current_reporter (s : cell) : option nat :=
  match get_chroutine (running_id (sch s)) s with
  | None => None
  | Some p => match obj p s with Some c => reporter c | None => None end
  end.

(** [p_c->yield_over(result)] through a pointer. *)
Definition yield_over_at (p : nat) (result : son_result_t) (s : cell) : Z * cell :=
  match obj p s with
  | None => (INVALID_ID, s)
  | Some c =>
    let '(t, c', rs) := yield_over result c (rps (hp s)) in
    (t, upd_rps (λ _, rs) (upd_chs <[p := c']> s))
  end.

(** [p->son_finished()] through a pointer. *)
Definition son_finished_at (p : nat) (s : cell) : cell :=
  match obj p s with
  | None => s
  | Some c =>
    let '(c', rs) := son_finished c (rps (hp s)) in
    upd_rps (λ _, rs) (upd_chs <[p := c']> s)
  end.

(** [static void entry(void *arg)], up to the call of the function: [None]
    when it returns at once, else the object [p_c]. *)
Definition entry_start (s : cell) : option nat * cell :=
  match get_chroutine (running_id (sch s)) s with
  | None => (None, s)
  | Some p => (Some p, upd_chs (alter (set_state chroutine_state_running) p) s)
  end.

(** [entry], after [p_c->func(p_c->arg)] has returned. *)
Definition entry_finish (p : nat) (s : cell) : cell :=
  match obj p s with
  | None => s
  | Some c =>
    let s2 := upd_sch (set_running_id INVALID_ID) (remove_chroutine (me c) s) in
    if father c =? INVALID_ID then s2
    else match get_chroutine (father c) s2 with
         | Some f => son_finished_at f s2
         | None => s2
         end
  end.

(** [entry] as a whole; [call] is the effect of [p_c->func(p_c->arg)]. *)
Definition entry (call : nat → cell → cell) (s : cell) : cell :=
  match entry_start s with
  | (None, s1) => s1
  | (Some p, s1) => entry_finish p (call p s1)
  end.

(** The object [create_chroutine] builds: constructor, [getcontext], the
    assignments and [makecontext(.., entry, 1, this)]. *)
Definition built_chroutine (self : nat) (id : Z) (f : func_t) (a : Z) : chroutine_t :=
  let c := new_chroutine id in
  {| ctx := Some {| ss_size := STACK_SIZE; uc_link := self; mc_arg := self; entry_pc := None |};
     func := f; arg := a; state := chroutine_state_ready; stack := stack c;
     yield_wait := yield_wait c; yield_to := yield_to c; me := me c;
     father := father c; son := son c; reporter := reporter c;
     stop_son_when_yield_over := stop_son_when_yield_over c; moved := moved c |}.

(** Allocation of a coroutine object. *)
Definition alloc (c : chroutine_t) (h : heap) : heap :=
  mk_heap (<[next_ptr h := c]> (chs h)) (rps h) (S (next_ptr h)) (ms_chroutine_id h).

(** [gen_chroutine_id()] *)
Definition gen_chroutine_id (h : heap) : Z * heap :=
  let id := ms_chroutine_id h + 1 in
  (id, mk_heap (chs h) (rps h) (next_ptr h) id).

(** The guarded insertion of [create_chroutine] and [resettle]. *)
Definition insert_chroutine (id : Z) (p : nat) (x : schedule_t) : schedule_t :=
  set_chroutines_sched (chroutines_sched x ++ [p])
    (set_chroutines_map (<[id := Some p]> (chroutines_map x)) x).

(** [chroutine_id_t create_chroutine(func_t & func, void *arg)] *)
Definition create_chroutine (f : func_t) (a : Z) (s : cell) : Z * cell :=
  if thread_state_code (m_state (th s)) >? thread_state_code thread_state_t_running
  then (INVALID_ID, s)
  else match f with
  | None => (INVALID_ID, s)
  | Some _ =>
    let '(id, h1) := gen_chroutine_id (hp s) in
    let p := next_ptr h1 in
    let h2 := alloc (built_chroutine (this (th s)) id f a) h1 in
    (id, upd_sch (insert_chroutine id p) (mk_cell h2 (th s)))
  end.

(** [m_schedule.chroutines_map[id].get()]: [operator[]] inserts a null pointer
    when the key is absent. *)
Definition map_at (id : Z) (s : cell) : option nat * cell :=
  match chroutines_map (sch s) !! id with
  | Some p => (p, s)
  | None => (None, upd_sch (λ x, set_chroutines_map (<[id := None]> (chroutines_map x)) x) s)
  end.

(** [chroutine_id_t create_son_chroutine(func_t & func, const reporter_sptr_t & reporter)];
    the argument of the son is the address of the reporter's data. *)
Definition create_son_chroutine (f : func_t) (rep : nat) (s : cell) : Z * cell :=
  if thread_state_code (m_state (th s)) >? thread_state_code thread_state_t_running
  then (INVALID_ID, s)
  else match get_chroutine (running_id (sch s)) s with
  | None => (INVALID_ID, s)
  | Some pfather =>
    let s1 := upd_chs (alter (set_reporter (Some rep)) pfather) s in
    let '(sid, s2) := create_chroutine f (Z.of_nat rep) s1 in
    if sid =? INVALID_ID then (INVALID_ID, s2)
    else
      let '(pson, s3) := map_at sid s2 in
      match pson with
      | None => (INVALID_ID, s3)
      | Some ps =>
        (sid, upd_chs (λ h, alter (set_son sid) pfather
                              (alter (set_father (running_id (sch s3))) ps h)) s3)
      end
  end.

(** The test [co == nullptr || co->state != chroutine_state_running]. *)
Definition running_at (co : option nat) (s : cell) : option (nat * chroutine_t) :=
  match co with
  | None => None
  | Some p =>
    match obj p s with
    | Some c => if bool_decide (state c = chroutine_state_running) then Some (p, c) else None
    | None => None
    end
  end.

(** [void yield_current(int tick)]; the flag says that it reached
    [swapcontext] to the main context. *)
Definition yield_current (tick : Z) (s : cell) : cell * bool :=
  if tick <=? 0 then (s, false)
  else if running_id (sch s) =? INVALID_ID then (s, false)
  else
    let '(co, s1) := map_at (running_id (sch s)) s in
    match running_at co s1 with
    | None => (s1, false)
    | Some (p, c) =>
      (upd_sch (set_running_id INVALID_ID)
         (upd_chs <[p := set_yield_wait (yield_wait c + tick) (set_state chroutine_state_suspend c)]> s1),
       true)
    end.

(** [void wait_current(std::time_t wait_time_ms, bool stop_son_after_wait)];
    [now] is the value of [get_time_stamp()]. *)
Definition wait_current (now wait_time_ms : Z) (stop_son_after_wait : bool) (s : cell) : cell * bool :=
  if wait_time_ms <=? 0 then (s, false)
  else if running_id (sch s) =? INVALID_ID then (s, false)
  else
    let '(co, s1) := map_at (running_id (sch s)) s in
    match running_at co s1 with
    | None => (s1, false)
    | Some (p, c) =>
      (upd_sch (set_running_id INVALID_ID)
         (upd_chs <[p := set_stop_son stop_son_after_wait
                           (set_yield_to (now + wait_time_ms) (set_state chroutine_state_suspend c))]> s1),
       true)
    end.

(** [void yield(int tick)], [void wait(..)], [void sleep(..)] *)
Definition thread_yield (tick : Z) (s : cell) : cell * bool := yield_current tick s.
Definition thread_wait (now ms : Z) (s : cell) : cell * bool := wait_current now ms true s.
Definition thread_sleep (now ms : Z) (s : cell) : cell * bool := wait_current now ms false s.

(** [bool done()] *)
Definition done (s : cell) : bool := bool_decide (chroutines_map (sch s) = ∅).

(** [void resume_to(chroutine_id_t id)]: the object whose context it swaps in. *)
Definition resume_to (id : Z) (s : cell) : option nat :=
  match get_chroutine id s with
  | None => None
  | Some p =>
    match obj p s with
    | Some c => if bool_decide (state c = chroutine_state_suspend) then Some p else None
    | None => None
    end
  end.

(** ** The scheduler *)

(** The elements from an iterator to [end()]. *)
Fixpoint from_iter (it : option nat) (l : list nat) : list nat :=
  match it with
  | None => []
  | Some p =>
    match l with
    | [] => []
    | q :: r => if (q =? p)%nat then l else from_iter it r
    end
  end.

(** The loop of [pick_run_chroutine]: the heap after the calls of [wait], and
    the locals [p_c], [sched_iter] and [pick_count]. *)
Fixpoint pick_loop (now : Z) (l : list nat) (h : gmap nat chroutine_t)
    (p_c : option nat) (it : option nat) (pick_count : Z)
  : gmap nat chroutine_t * option nat * option nat * Z :=
  match l with
  | [] => (h, p_c, it, pick_count)
  | p :: r =>
    match h !! p with
    | None => pick_loop now r h p_c it pick_count
    | Some c =>
      if has_moved c then pick_loop now r h p_c it pick_count
      else
        let '(w, c') := wait now c in
        let h' := <[p := c']> h in
        if w >? 0 then pick_loop now r h' p_c it pick_count
        else match p_c with
             | None => pick_loop now r h' (Some p) (head r) (pick_count + 1)
             | Some _ => pick_loop now r h' p_c it pick_count
             end
    end
  end.

Definition set_entry_time (now : Z) (s : cell) : cell := upd_th (store_entry_time now) s.
Definition clear_entry_time (s : cell) : cell := upd_th (store_entry_time 0) s.

(** The iterator the loop starts from: [end()] wraps to [begin()]. *)
Definition start_iter (x : schedule_t) : option nat :=
  match sched_iter x with
  | None => head (chroutines_sched x)
  | it => it
  end.

(** [int pick_run_chroutine()] up to [swapcontext]: the coroutine to resume
    and [pick_count].  [now] and [now'] are the two time stamps it reads.  In one
    go: Interleave.v has its locked scan, the unlocked assignment of the
    iterator, [yield_over], [remove_chroutine] and the resumption one by one. *)
Definition pick_run_begin (now now' : Z) (s : cell) : cell * option nat * Z :=
  if negb (running_id (sch s) =? INVALID_ID) then (s, None, 1)
  else
    let s1 := clear_to_free s in
    match chroutines_sched (sch s1) with
    | [] => (s1, None, 0)
    | (_ :: _) as l =>
      let '(h, p_c, it, n) :=
        pick_loop now (from_iter (start_iter (sch s1)) l) (chs (hp s1)) None None 0 in
      let s2 := upd_sch (set_sched_iter it) (upd_chs (λ _, h) s1) in
      match p_c with
      | None => (s2, None, n)
      | Some p =>
        let '(tmo, s3) := yield_over_at p result_timeout s2 in
        let s4 := remove_chroutine tmo s3 in
        let s5 := upd_chs (alter (set_state chroutine_state_running) p) s4 in
        let s6 := match obj p s5 with
                  | Some c => upd_sch (set_running_id (me c)) s5
                  | None => s5
                  end in
        (set_entry_time now' s6, Some p, n)
      end
    end.

(** [int pick_run_chroutine()] *)
Definition pick_run_chroutine (resume : nat → cell → cell) (now now' : Z) (s : cell) : Z * cell :=
  match pick_run_begin now now' s with
  | (s1, None, n) => (n, s1)
  | (s1, Some p, n) => (n, clear_entry_time (resume p s1))
  end.

(** ** Selectable objects *)

(** Insertion in the key order of the [std::map]. *)
Fixpoint insert_key (k : nat) (l : list nat) : list nat :=
  match l with
  | [] => [k]
  | x :: r => if (k <? x)%nat then k :: l else x :: insert_key k r
  end.

(** [void register_selector(const selectable_object_sptr_t & select_obj)] *)
Definition register_selector (select_obj : option nat) (s : cell) : cell :=
  match select_obj with
  | None => s
  | Some k =>
    if bool_decide (k ∈ m_selector_list (th s)) then s
    else upd_th (λ t, set_selector_list (insert_key k (m_selector_list t)) t) s
  end.

(** [void unregister_selector(selectable_object_it *p_obj)] *)
Definition unregister_selector (k : nat) (s : cell) : cell :=
  if bool_decide (k ∈ m_selector_list (th s))
  then upd_th (λ t, set_selector_list (filter (λ x, x ≠ k) (m_selector_list t)) t) s
  else s.

Inductive select_result :=
  | select_done (processed : Z) (s : cell)
  | select_dangling      (* [iter++] on an erased element *)
  | select_out_of_fuel.

(** [iter++] on the element [k]: the least larger key. *)
Definition next_key (k : nat) (l : list nat) : option nat :=
  head (filter (λ x, (k < x)%nat) l).

Section select_all.
(** The virtual method [p_obj->select(0)]. *)
Context (select : nat → cell → Z * cell).

Fixpoint select_loop (fuel : nat) (iter : option nat) (processed : Z) (s : cell) : select_result :=
  match iter with
  | None => select_done processed s
  | Some k =>
    match fuel with
    | O => select_out_of_fuel
    | S fuel' =>
      let '(n, s') := select k s in
      if bool_decide (k ∈ m_selector_list (th s'))
      then select_loop fuel' (next_key k (m_selector_list (th s'))) (processed + n) s'
      else select_dangling
    end
  end.

(** [int select_all()] *)
Definition select_all (fuel : nat) (s : cell) : select_result :=
  select_loop fuel (head (m_selector_list (th s))) 0 s.
End select_all.

(** ** The thread's main loop *)

(** [int schedule()] before the loop; the second component is the call
    [engine_t::on_thread_ready(m_creating_index, m_std_thread_id)]. *)
Definition schedule_begin (tid : Z) (s : cell) : cell * option (Z * Z) :=
  let s1 := upd_th (λ t, set_is_running true (set_thread_state thread_state_t_running (update_thread_id tid t))) s in
  (s1, if bool_decide (m_type (th s1) = worker) then Some (m_creating_index (th s1), tid) else None).

(** [schedule] after the loop. *)
Definition schedule_end (s : cell) : cell :=
  clear_all_chroutine
    (upd_th (λ t, set_thread_state thread_state_t_finished (set_is_running false t)) s).

(** What one iteration of the loop meets: the two time stamps, what the
    selectable objects do when they are polled, what the resumed coroutine does,
    and what other threads do until the loop tests [m_need_stop] again. *)
Record iteration := mk_iteration {
  i_now : Z;
  i_now' : Z;
  i_select : nat → cell → Z * cell;
  i_fuel : nat;
  i_resume : nat → cell → cell;
  i_others : cell → cell
}.

(** One iteration: the state after it and whether the thread then sleeps for
    10 ms. *)
Definition schedule_step (i : iteration) (s : cell) : option (bool * cell) :=
  match select_all (i_select i) (i_fuel i) s with
  | select_done n1 s1 =>
    let '(n2, s2) := pick_run_chroutine (i_resume i) (i_now i) (i_now' i) s1 in
    let processed := n1 + n2 in
    Some (processed =? 0, i_others i (upd_th (λ t, set_load (update processed (m_load t)) t) s2))
  | _ => None
  end.

(** The loop [while (!m_need_stop)]: it has not returned when there are no more
    iterations. *)
Fixpoint schedule_loop (its : list iteration) (s : cell) : option cell :=
  if m_need_stop (th s) then Some s
  else match its with
  | [] => None
  | i :: its' =>
    match schedule_step i s with
    | Some (_, s') => schedule_loop its' s'
    | None => None
    end
  end.

(** [int schedule()], without the engine's part of [on_thread_ready]. *)
Definition schedule (tid : Z) (its : list iteration) (s : cell) : option cell :=
  match schedule_loop its (fst (schedule_begin tid s)) with
  | Some s' => Some (schedule_end s')
  | None => None
  end.

(** [void start(size_t creating_index)]: the flag says that an OS thread is
    started on [schedule]. *)
Definition start (creating_index : Z) (s : cell) : cell * bool :=
  if m_is_running (th s) then (s, false)
  else (upd_th (set_creating_index creating_index) s, true).

(** [void stop()] *)
Definition stop (s : cell) : cell := upd_th (set_need_stop true) s.

(** [int awake_chroutine(chroutine_id_t id)], in one go (Interleave.v has its
    three regions). *)
Definition awake_chroutine (id : Z) (s : cell) : Z * cell :=
  match get_chroutine id s with
  | None => (-1, s)
  | Some p =>
    let '(t, s1) := yield_over_at p result_done s in
    (0, remove_chroutine t s1)
  end.

(** ** Moving coroutines to another thread *)

(** [chroutine_id_t resettle(chroutine_t &chroutine)], called on the thread
    [other] with the object at [p]. *)
Definition resettle (p : nat) (h : heap) (other : chroutine_thread_t) : Z * heap * chroutine_thread_t :=
  match chs h !! p with
  | None => (INVALID_ID, h, other)
  | Some old =>
    let '(c, old') := move_chroutine old in
    let c' := match ctx c with
              | Some u => set_ctx (Some (mk_ucontext (ss_size u) (this other) (mc_arg u) (entry_pc u))) c
              | None => c
              end in
    let q := next_ptr h in
    let h1 := alloc c' (set_chs (<[p := old']> (chs h)) h) in
    (me c', h1, set_schedule (insert_chroutine (me c') q (m_schedule other)) other)
  end.

(** The loop of [move_chroutines_to_thread] over the list, with [ids_to_move]. *)
Fixpoint move_loop (running : Z) (l : list nat) (h : heap) (other : chroutine_thread_t)
  : heap * chroutine_thread_t * list Z :=
  match l with
  | [] => (h, other, [])
  | p :: r =>
    match chs h !! p with
    | None => move_loop running r h other
    | Some c =>
      if me c =? running then move_loop running r h other
      else
        let '(rid, h1, other1) := resettle p h other in
        if me c =? rid
        then
          let h2 := set_chs (alter set_moved p (chs h1)) h1 in
          let '(h3, other2, ids) := move_loop running r h2 other1 in
          (h3, other2, me c :: ids)
        else move_loop running r h1 other1
    end
  end.

(** [void move_chroutines_to_thread(const std::shared_ptr<chroutine_thread_t> & other_thread)] *)
Definition move_chroutines_to_thread (s : cell) (other : chroutine_thread_t) : cell * chroutine_thread_t :=
  if (this other =? this (th s))%nat then (s, other)
  else
    let s1 := upd_th (set_thread_state thread_state_t_shifting) s in
    let '(h, other', ids) :=
      move_loop (running_id (sch s1)) (chroutines_sched (sch s1)) (hp s1) other in
    let s2 := foldl (λ x i, remove_chroutine i x) (mk_cell h (th s1)) ids in
    (upd_th (set_thread_state thread_state_t_blocking) s2, other').
