(* ===== verification/World.v ===== *)
(** * The threads of the program over their shared heap *)

From S2P Require Import Prelude Reporter Chroutine Load Thread.

(** The threads of the program over the shared heap, by thread object. *)
Record world := mk_world { w_heap : heap; w_threads : gmap nat chroutine_thread_t }.

Definition on_thread {A} (t : nat) (f : cell → A * cell) (w : world) : option (A * world) :=
  match w_threads w !! t with
  | None => None
  | Some x =>
    let '(a, s) := f (mk_cell (w_heap w) x) in
    Some (a, mk_world (hp s) (<[t := th s]> (w_threads w)))
  end.

(** An operation of a thread without a result. *)
Definition on_thread_ (t : nat) (f : cell → cell) (w : world) : option world :=
  match on_thread t (λ s, (tt, f s)) w with
  | Some (_, w') => Some w'
  | None => None
  end.

(** [m_std_thread_id] of a thread object. *)
Definition thread_id_of (t : nat) (w : world) : option Z :=
  match w_threads w !! t with
  | Some x => m_std_thread_id x
  | None => None
  end.

Lemma on_thread_frame {A} t (f : cell → A * cell) w a w' t' :
  on_thread t f w = Some (a, w') → t' ≠ t → w_threads w' !! t' = w_threads w !! t'.
Proof.
  unfold on_thread. intros H Hne. destruct (w_threads w !! t); [|done].
  destruct (f _) as [b s]. simplify_eq/=. by rewrite lookup_insert_ne.
Qed.

Lemma on_thread_at {A} t (f : cell → A * cell) w x :
  w_threads w !! t = Some x →
  on_thread t f w =
    Some (fst (f (mk_cell (w_heap w) x)),
          mk_world (hp (snd (f (mk_cell (w_heap w) x)))) (<[t := th (snd (f (mk_cell (w_heap w) x)))]> (w_threads w))).
Proof. intros Hx. unfold on_thread. rewrite Hx. by destruct (f _). Qed.
