(* ===== verification/ThreadInv.v ===== *)
(** * Well-formedness of a thread's containers

    The map, the list, the free list and the saved iterator of a thread refer
    to live objects and agree with each other; every member function keeps
    them so.  The invariant looks at coroutine objects only through their ids,
    so it is stated up to [same_ids], the equivalence of heaps that hold the
    same ids at the same addresses. *)

From S2P Require Import Prelude Reporter Chroutine Load Thread.
Local Open Scope Z_scope.

(** Unfold the update combinators and compute with the records. *)
Ltac simpl_cell := unfold upd_sch, upd_th, upd_chs, upd_rps, obj in *; simpl in *.

(** ** Heaps with the same ids *)

Definition same_ids (h h' : gmap nat chroutine_t) : Prop :=
  ∀ p, me <$> h !! p = me <$> h' !! p.

#[export] Instance same_ids_equiv : Equivalence same_ids.
Proof.
  split; [intros h p; done|intros h h' H p; by rewrite H|].
  intros h1 h2 h3 H1 H2 p. by rewrite H1, H2.
Qed.

Lemma same_ids_insert h p c c' : h !! p = Some c → me c' = me c → same_ids h (<[p := c']> h).
Proof.
  intros Hp Hme q. destruct (decide (q = p)) as [->|Hne].
  - rewrite lookup_insert_eq, Hp. simpl. by rewrite Hme.
  - by rewrite lookup_insert_ne.
Qed.

Lemma same_ids_alter h p f : (∀ c, me (f c) = me c) → same_ids h (alter f p h).
Proof.
  intros Hf q. destruct (decide (p = q)) as [<-|Hne].
  - rewrite lookup_alter_eq. destruct (h !! p); simpl; by rewrite ?Hf.
  - by rewrite lookup_alter_ne.
Qed.

Lemma same_ids_some h h' p c : same_ids h h' → h !! p = Some c → ∃ c', h' !! p = Some c' ∧ me c' = me c.
Proof.
  intros H Hp. specialize (H p). rewrite Hp in H. simpl in H.
  destruct (h' !! p) as [c'|]; simplify_eq/=. by exists c'.
Qed.

#[export] Hint Resolve same_ids_insert same_ids_alter : chr.

(** ** The invariant *)

Record wf (h : gmap nat chroutine_t) (nxt : nat) (ms : Z) (x : schedule_t) : Prop := {
  wf_fresh : ∀ p, is_Some (h !! p) → (p < nxt)%nat;
  wf_id_range : ∀ p c, h !! p = Some c → 0 < me c <= ms;
  wf_sched : ∀ p, p ∈ chroutines_sched x → ∃ c, h !! p = Some c ∧ chroutines_map x !! me c = Some (Some p);
  wf_nodup : NoDup (chroutines_sched x);
  wf_map : ∀ i p, chroutines_map x !! i = Some (Some p) →
             p ∈ chroutines_sched x ∧ ∃ c, h !! p = Some c ∧ me c = i;
  wf_key : ∀ i o, chroutines_map x !! i = Some o → 0 < i <= ms;
  wf_iter : ∀ p, sched_iter x = Some p → p ∈ chroutines_sched x;
  wf_free : ∀ p, Some p ∈ chroutines_to_free x → (p ∉ chroutines_sched x) ∧ is_Some (h !! p)
}.

Definition wf_cell (s : cell) : Prop :=
  wf (chs (hp s)) (next_ptr (hp s)) (ms_chroutine_id (hp s)) (sch s) ∧ 0 <= ms_chroutine_id (hp s).

Lemma wf_same_ids h h' nxt ms x : same_ids h h' → wf h nxt ms x → wf h' nxt ms x.
Proof.
  intros Hs [Hf Hr Hsc Hnd Hm Hk Hi Hfr].
  assert (Hs' : same_ids h' h) by by symmetry.
  split; try done.
  - intros p [c' Hc']. destruct (same_ids_some _ _ _ _ Hs' Hc') as (c & Hc & _). eauto.
  - intros p c' Hc'. destruct (same_ids_some _ _ _ _ Hs' Hc') as (c & Hc & <-). eauto.
  - intros p Hp. destruct (Hsc p Hp) as (c & Hc & Hmap).
    destruct (same_ids_some _ _ _ _ Hs Hc) as (c' & Hc' & Hme). exists c'. by rewrite Hme.
  - intros i p Hip. destruct (Hm i p Hip) as (Hp & c & Hc & <-). split; [done|].
    destruct (same_ids_some _ _ _ _ Hs Hc) as (c' & Hc' & Hme). by exists c'.
  - intros p Hp. destruct (Hfr p Hp) as (? & c & Hc). split; [done|].
    destruct (same_ids_some _ _ _ _ Hs Hc) as (c' & Hc' & _). by exists c'.
Qed.

#[export] Instance wf_proper : Proper (same_ids ==> eq ==> eq ==> eq ==> iff) wf.
Proof.
  intros h h' Hs ? ? -> ? ? -> ? ? ->. split; apply wf_same_ids; [done|by symmetry].
Qed.

(** ** Ids identify the elements of the list *)

Section ids.
Context {h : gmap nat chroutine_t} {nxt : nat} {ms : Z} {x : schedule_t} (Hwf : wf h nxt ms x).

Lemma wf_id_inj p q c d :
  p ∈ chroutines_sched x → q ∈ chroutines_sched x →
  h !! p = Some c → h !! q = Some d → me c = me d → p = q.
Proof.
  intros Hp Hq Hc Hd Hcd. destruct (wf_sched _ _ _ _ Hwf p Hp) as (c' & Hc' & Hmc).
  destruct (wf_sched _ _ _ _ Hwf q Hq) as (d' & Hd' & Hmd). simplify_eq.
  rewrite Hcd in Hmc. by simplify_eq.
Qed.
End ids.

Lemma erase_id_none h i l :
  (∀ p c, p ∈ l → h !! p = Some c → me c ≠ i) → erase_id h i l = None.
Proof.
  induction l as [|p l IH]; intros Hne; [done|]. simpl.
  rewrite IH by (intros q c ?; apply Hne; by apply elem_of_cons; right).
  destruct (h !! p) as [c|] eqn:Hp; [|done].
  destruct (Z.eqb_spec (me c) i) as [Heq|]; [|done].
  exfalso. apply (Hne p c); [apply elem_of_cons; by left|done..].
Qed.

Lemma erase_id_some h i l1 p c l2 :
  (∀ q d, q ∈ l1 → h !! q = Some d → me d ≠ i) → h !! p = Some c → me c = i →
  erase_id h i (l1 ++ p :: l2) = Some (l1 ++ l2, head l2).
Proof.
  induction l1 as [|q l1 IH]; intros Hne Hp Hi; simpl.
  - rewrite Hp, Hi. by rewrite Z.eqb_refl.
  - rewrite IH; [|intros r d ?; apply Hne; by apply elem_of_cons; right|done..].
    destruct (h !! q) as [d|] eqn:Hq; [|done].
    destruct (Z.eqb_spec (me d) i) as [Heq|]; [|done].
    exfalso. apply (Hne q d); [apply elem_of_cons; by left|done..].
Qed.

(** ** [remove_chroutine] *)

(** The three cases of [remove_chroutine] on a well-formed thread. *)
Lemma remove_chroutine_cases i s :
  wf_cell s →
  (chroutines_map (sch s) !! i = None ∧ remove_chroutine i s = s) ∨
  (chroutines_map (sch s) !! i = Some None ∧
   remove_chroutine i s = upd_sch (λ x, set_chroutines_map (delete i (chroutines_map x))
                                          (set_to_free (chroutines_to_free x ++ [None]) x)) s) ∨
  (∃ p c l1 l2, chroutines_map (sch s) !! i = Some (Some p) ∧ obj p s = Some c ∧ me c = i ∧
   chroutines_sched (sch s) = l1 ++ p :: l2 ∧
   remove_chroutine i s =
     mk_cell (hp s) (set_schedule (mk_schedule (running_id (sch s)) (delete i (chroutines_map (sch s)))
       (l1 ++ l2) (chroutines_to_free (sch s) ++ [Some p]) (head l2)) (th s))).
Proof.
  intros [Hwf _]. unfold remove_chroutine.
  destruct (chroutines_map (sch s) !! i) as [[p|]|] eqn:Hm; [right; right|right; left|by left].
  - destruct (wf_map _ _ _ _ Hwf i p Hm) as (Hp & c & Hc & Hme).
    destruct (list_elem_of_split _ _ Hp) as (l1 & l2 & Hl).
    exists p, c, l1, l2. split_and!; try done. simpl. rewrite Hl.
    rewrite (erase_id_some _ _ _ _ c); [done| |done|done].
    intros q d Hq Hd Hdi. assert (q ∈ chroutines_sched (sch s)) by (rewrite Hl; mem).
    assert (q = p) as -> by (apply (wf_id_inj Hwf q p d c); [done..|congruence]).
    pose proof (wf_nodup _ _ _ _ Hwf) as Hnd. rewrite Hl in Hnd.
    apply NoDup_app in Hnd as (_ & Hnd & _). apply (Hnd p); mem.
  - split; [done|]. simpl. rewrite erase_id_none; [done|].
    intros p c Hp Hc Hi. destruct (wf_sched _ _ _ _ Hwf p Hp) as (c' & Hc' & Hmap).
    congruence.
Qed.

Lemma remove_chroutine_hp i s : hp (remove_chroutine i s) = hp s.
Proof. unfold remove_chroutine. by repeat (case_match; simpl_cell). Qed.

Lemma remove_chroutine_running i s : running_id (sch (remove_chroutine i s)) = running_id (sch s).
Proof. unfold remove_chroutine. by repeat (case_match; simpl_cell). Qed.

Lemma remove_chroutine_map i s :
  chroutines_map (sch (remove_chroutine i s)) = delete i (chroutines_map (sch s)).
Proof.
  unfold remove_chroutine. destruct (chroutines_map (sch s) !! i) eqn:E.
  - by repeat (case_match; simpl_cell).
  - by rewrite delete_id.
Qed.

Lemma remove_chroutine_wf i s : wf_cell s → wf_cell (remove_chroutine i s).
Proof.
  intros Hs. destruct (remove_chroutine_cases i s Hs) as [[_ ->]|[[Hm ->]|(p & c & l1 & l2 & Hm & Hc & Hme & Hl & ->)]];
    [done|..]; destruct Hs as [[Hf Hr Hsc Hnd Hmp Hk Hi Hfr] Hms]; split; try done; simpl_cell.
  - split; simpl; try done.
    + intros p Hp. destruct (Hsc p Hp) as (c & Hc & Hmc). exists c. split; [done|].
      rewrite lookup_delete_ne; [done|]. intros ->. congruence.
    + intros j p Hj. apply lookup_delete_Some in Hj as [_ Hj]. by apply Hmp.
    + intros j o Hj. apply lookup_delete_Some in Hj as [_ Hj]. by eapply Hk.
    + intros p [?|Hp%list_elem_of_singleton]%elem_of_app; [by apply Hfr|done].
  - assert (Hin : ∀ q, q ∈ l1 ++ l2 → q ∈ chroutines_sched (sch s) ∧ q ≠ p).
    { intros q Hq. split; [rewrite Hl; clear -Hq; mem|].
      rewrite Hl in Hnd. by apply (NoDup_app_cons_ne _ _ _ _ Hnd). }
    split; simpl; try done.
    + intros q Hq. destruct (Hin q Hq) as [Hq' Hqp]. destruct (Hsc q Hq') as (d & Hd & Hmd).
      exists d. split; [done|]. rewrite lookup_delete_ne; [done|]. intros ->. congruence.
    + rewrite Hl in Hnd. by eapply NoDup_app_remove.
    + intros j q Hj. apply lookup_delete_Some in Hj as [Hij Hj]. destruct (Hmp j q Hj) as (Hq & d & Hd & Hmd).
      split; [|by exists d]. rewrite Hl in Hq. assert (q ≠ p) by (intros ->; congruence). clear -Hq H; mem.
    + intros j o Hj. apply lookup_delete_Some in Hj as [_ Hj]. by eapply Hk.
    + intros q Hq. destruct l2 as [|q' l2]; simplify_eq/=. clear; mem.
    + intros q [Hq|Hq%list_elem_of_singleton]%elem_of_app; simplify_eq.
      * destruct (Hfr q Hq) as [Hns ?]. split; [|done]. intros Hq'. apply Hns. by apply Hin.
      * split; [|done]. intros Hq'. by apply Hin in Hq' as [_ ?].
Qed.

(** No coroutine has the id of nobody. *)
Lemma remove_invalid s : wf_cell s → remove_chroutine INVALID_ID s = s.
Proof.
  intros Hs. destruct (remove_chroutine_cases INVALID_ID s Hs) as [[_ ->]|[[Hm _]|(p & c & l1 & l2 & Hm & _)]]; [done|..];
    apply (wf_key _ _ _ _ (proj1 Hs)) in Hm; unfold INVALID_ID in Hm; lia.
Qed.

(** The coroutines that stay: the list loses exactly the object of the id. *)
Lemma remove_chroutine_sched i s q d :
  wf_cell s → obj q s = Some d →
  q ∈ chroutines_sched (sch (remove_chroutine i s)) ↔ q ∈ chroutines_sched (sch s) ∧ me d ≠ i.
Proof.
  intros Hs Hd. destruct (remove_chroutine_cases i s Hs) as [[Hm ->]|[[Hm ->]|(p & c & l1 & l2 & Hm & Hc & Hme & Hl & ->)]]; simpl_cell.
  - split; [|tauto]. intros Hq. split; [done|]. intros <-.
    destruct (wf_sched _ _ _ _ (proj1 Hs) q Hq) as (d' & ? & ?). congruence.
  - split; [|tauto]. intros Hq. split; [done|]. intros <-.
    destruct (wf_sched _ _ _ _ (proj1 Hs) q Hq) as (d' & ? & ?). congruence.
  - pose proof (wf_nodup _ _ _ _ (proj1 Hs)) as Hnd. rewrite Hl in Hnd |- *. split.
    + intros Hq. split; [clear -Hq; mem|]. intros Heq.
      assert (q = p) as ->.
      { apply (wf_id_inj (proj1 Hs) q p d c); [rewrite Hl; clear -Hq; mem..|done|done|congruence]. }
      by apply (NoDup_app_cons_ne _ _ _ _ Hnd Hq).
    + intros [Hq Hne]. assert (q ≠ p) by (intros ->; congruence). clear -Hq H; mem.
Qed.

(** ** Heap updates that keep the ids *)

Lemma upd_chs_wf f s : same_ids (chs (hp s)) (f (chs (hp s))) → wf_cell s → wf_cell (upd_chs f s).
Proof. intros Hf [Hwf ?]. split; [|done]. simpl_cell. by rewrite <- Hf. Qed.

Lemma upd_rps_wf f s : wf_cell s → wf_cell (upd_rps f s).
Proof. done. Qed.

Lemma upd_th_wf f s : m_schedule (f (th s)) = m_schedule (th s) → wf_cell s → wf_cell (upd_th f s).
Proof. unfold wf_cell. simpl_cell. by intros ->. Qed.

Lemma set_running_id_wf i s : wf_cell s → wf_cell (upd_sch (set_running_id i) s).
Proof. intros [[] ?]. split; [|done]. by split. Qed.

#[export] Hint Resolve remove_chroutine_wf upd_chs_wf upd_rps_wf upd_th_wf set_running_id_wf : chr.

Lemma yield_over_at_same_ids p res s :
  same_ids (chs (hp s)) (chs (hp (snd (yield_over_at p res s)))).
Proof.
  unfold yield_over_at. destruct (obj p s) as [c|] eqn:Hc; [|done].
  pose proof (yield_over_id res c (rps (hp s))) as Hid.
  destruct (yield_over res c (rps (hp s))) as [[t c'] rs]. simpl in *.
  apply (same_ids_insert _ _ c c'); done.
Qed.

Lemma yield_over_at_sch p res s : sch (snd (yield_over_at p res s)) = sch s.
Proof. unfold yield_over_at. destruct (obj p s); [|done]. by destruct (yield_over _ _ _) as [[??]?]. Qed.

Lemma yield_over_at_th p res s : th (snd (yield_over_at p res s)) = th s.
Proof. unfold yield_over_at. destruct (obj p s); [|done]. destruct (yield_over _ _ _) as [[??]?]. by destruct s as [? []]. Qed.

Lemma yield_over_at_alloc p res s :
  next_ptr (hp (snd (yield_over_at p res s))) = next_ptr (hp s) ∧
  ms_chroutine_id (hp (snd (yield_over_at p res s))) = ms_chroutine_id (hp s).
Proof. unfold yield_over_at. destruct (obj p s); [|done]. by destruct (yield_over _ _ _) as [[??]?]. Qed.

Lemma yield_over_at_wf p res s : wf_cell s → wf_cell (snd (yield_over_at p res s)).
Proof.
  intros [Hwf Hms]. destruct (yield_over_at_alloc p res s) as [Hn Hm]. unfold wf_cell.
  by rewrite yield_over_at_sch, Hn, Hm, <- (yield_over_at_same_ids p res s).
Qed.

Lemma son_finished_at_wf p s : wf_cell s → wf_cell (son_finished_at p s).
Proof.
  intros Hs. unfold son_finished_at. destruct (obj p s) as [c|] eqn:Hc; [|done]. simpl.
  apply upd_rps_wf, upd_chs_wf; [|done]. by apply (same_ids_insert _ _ c).
Qed.

#[export] Hint Resolve yield_over_at_wf son_finished_at_wf : chr.

(** ** Destruction of finished coroutines *)

Lemma destroy_lookup ps h p : destroy ps h !! p = if bool_decide (p ∈ ps) then None else h !! p.
Proof.
  induction ps as [|q ps IH]; simpl; [done|].
  destruct (decide (p = q)) as [->|Hne].
  - rewrite lookup_delete_eq, bool_decide_eq_true_2 by mem. done.
  - rewrite lookup_delete_ne, IH by done.
    destruct (decide (p ∈ ps)) as [Hp|Hp].
    + by rewrite !bool_decide_eq_true_2 by mem.
    + by rewrite !bool_decide_eq_false_2 by mem.
Qed.

Lemma destroy_Some ps h p c : destroy ps h !! p = Some c → h !! p = Some c.
Proof. rewrite destroy_lookup. by case_bool_decide. Qed.

Lemma destroy_wf ps h nxt ms x :
  wf h nxt ms x → chroutines_to_free x = [] → (∀ p, p ∈ ps → p ∉ chroutines_sched x) →
  wf (destroy ps h) nxt ms x.
Proof.
  intros [Hf Hr Hsc Hnd Hm Hk Hi Hfr] Hemp Hps.
  assert (Hkeep : ∀ p, p ∈ chroutines_sched x → destroy ps h !! p = h !! p).
  { intros p Hp. rewrite destroy_lookup. case_bool_decide as Hb; [|done]. by destruct (Hps p Hb). }
  split; try done.
  - intros p [c Hc%destroy_Some]. eauto.
  - intros p c Hc%destroy_Some. eauto.
  - intros p Hp. rewrite Hkeep by done. auto.
  - intros i p Hip. destruct (Hm i p Hip) as (Hp & Hc). rewrite Hkeep by done. auto.
  - rewrite Hemp. intros p Hp. by apply elem_of_nil in Hp.
Qed.

Lemma unowned_spec x ps p : p ∈ unowned x ps ↔ Some p ∈ ps ∧ owned x p = false.
Proof.
  unfold unowned. rewrite list_elem_of_In, filter_In, <- list_elem_of_In, list_elem_of_omap, negb_true_iff.
  split; [intros [(o & Ho & Heq) ?]|intros [? ?]; split; [by eexists|done]].
  simpl in Heq. by subst o.
Qed.

Lemma owned_sched x p : p ∈ chroutines_sched x → owned x p = true.
Proof. intros Hp. unfold owned. by rewrite bool_decide_eq_true_2. Qed.

Lemma clear_to_free_wf s : wf_cell s → wf_cell (clear_to_free s).
Proof.
  intros [Hwf Hms]. unfold clear_to_free. split; [|done]. simpl_cell. apply destroy_wf; [|done|].
  - destruct Hwf. split; try done. simpl. intros p Hp. by apply elem_of_nil in Hp.
  - simpl. intros p [_ Hp]%unowned_spec Hs. by rewrite owned_sched in Hp.
Qed.

(** The sweep frees the finished coroutines and nothing else. *)
Lemma clear_to_free_obj p s :
  wf_cell s →
  obj p (clear_to_free s) = if bool_decide (Some p ∈ chroutines_to_free (sch s)) then None else obj p s.
Proof.
  intros [Hwf _]. unfold clear_to_free. simpl_cell. rewrite destroy_lookup.
  apply (f_equal (λ b : bool, if b then _ else _)), bool_decide_ext. rewrite unowned_spec.
  split; [tauto|]. intros Hp. split; [done|]. destruct (wf_free _ _ _ _ Hwf p Hp) as [Hns _].
  unfold owned. rewrite bool_decide_eq_false_2 by done. simpl. apply bool_decide_eq_false_2.
  intros ([i o] & Ho & Hj)%list_elem_of_fmap. simpl in Ho. subst.
  apply elem_of_map_to_list in Hj. by apply (wf_map _ _ _ _ Hwf) in Hj as [? _].
Qed.

(** ** Creation *)

Lemma wf_next_fresh s : wf_cell s → chs (hp s) !! next_ptr (hp s) = None.
Proof.
  intros [Hwf _]. apply eq_None_not_Some. intros H%(wf_fresh _ _ _ _ Hwf). lia.
Qed.

Lemma wf_sched_fresh s : wf_cell s → next_ptr (hp s) ∉ chroutines_sched (sch s).
Proof.
  intros Hs Hp. destruct (wf_sched _ _ _ _ (proj1 Hs) _ Hp) as (c & Hc & _).
  rewrite wf_next_fresh in Hc by done. done.
Qed.

(** Adding a fresh object under an id the map does not hold. *)
Lemma insert_wf h nxt ms ms' x i c :
  wf h nxt ms x → me c = i → chroutines_map x !! i = None → 0 < i <= ms' → ms <= ms' →
  wf (<[nxt := c]> h) (S nxt) ms' (insert_chroutine i nxt x).
Proof.
  intros Hwf Hi Hmi Hpos Hms. assert (Hno : h !! nxt = None).
  { apply eq_None_not_Some. intros H%(wf_fresh _ _ _ _ Hwf). lia. }
  destruct Hwf as [Hf Hr Hsc Hnd Hm Hk Hit Hfr].
  assert (Hns : nxt ∉ chroutines_sched x).
  { intros Hp. destruct (Hsc _ Hp) as (d & Hd & _). congruence. }
  split; simpl.
  - intros p [d Hd]. apply lookup_insert_Some in Hd as [[<- _]|[_ Hd]]; [lia|].
    assert (p < nxt)%nat by eauto. lia.
  - intros p d [[<- <-]|[_ Hd]]%lookup_insert_Some; [lia|]. apply Hr in Hd. lia.
  - intros p [Hp|Hp%list_elem_of_singleton]%elem_of_app; subst.
    + destruct (Hsc p Hp) as (d & Hd & Hmd). exists d.
      assert (nxt ≠ p) by (intros ->; congruence). assert (me c ≠ me d) by congruence.
      by rewrite !lookup_insert_ne.
    + exists c. by rewrite !lookup_insert_eq.
  - by apply NoDup_snoc.
  - intros j p [[<- [= <-]]|[Hij Hj]]%lookup_insert_Some.
    + split; [mem|]. exists c. by rewrite lookup_insert_eq.
    + destruct (Hm j p Hj) as (Hp & d & Hd & Hmd). split; [mem|]. exists d.
      assert (nxt ≠ p) by (intros ->; congruence). by rewrite lookup_insert_ne.
  - intros j o [[<- _]|[_ Hj]]%lookup_insert_Some; [done|]. apply Hk in Hj. lia.
  - intros p Hp%Hit. mem.
  - intros p Hp. destruct (Hfr p Hp) as [Hps [d Hd]]. assert (nxt ≠ p) by (intros ->; congruence).
    split; [|exists d; by rewrite lookup_insert_ne]. mem.
Qed.

(** [create_chroutine] either refuses, or appends a new object. *)
Definition created (f : func_t) (a : Z) (s : cell) : cell :=
  let id := ms_chroutine_id (hp s) + 1 in
  let p := next_ptr (hp s) in
  mk_cell (mk_heap (<[p := built_chroutine (this (th s)) id f a]> (chs (hp s))) (rps (hp s)) (S p) id)
          (set_schedule (insert_chroutine id p (sch s)) (th s)).

Lemma create_chroutine_cases f a s :
  create_chroutine f a s = (INVALID_ID, s) ∨
  (is_Some f ∧ create_chroutine f a s = (ms_chroutine_id (hp s) + 1, created f a s)).
Proof.
  unfold create_chroutine. case_if; [by left|]. destruct f; [|by left]. right. split; [by eexists|done].
Qed.

Lemma create_chroutine_wf f a s : wf_cell s → wf_cell (snd (create_chroutine f a s)).
Proof.
  intros [Hwf Hms]. destruct (create_chroutine_cases f a s) as [->|[_ ->]]; [done|].
  split; [|simpl; lia]. apply (insert_wf _ _ (ms_chroutine_id (hp s))); simpl; [done|done| |lia|lia].
  apply eq_None_not_Some. intros [o Ho%(wf_key _ _ _ _ Hwf)]. lia.
Qed.

(** [operator[]] on the running id *)
Lemma map_at_wf i s : 0 < i <= ms_chroutine_id (hp s) → wf_cell s → wf_cell (snd (map_at i s)).
Proof.
  intros Hi [Hwf Hms]. unfold map_at. destruct (chroutines_map (sch s) !! i) eqn:E; [done|].
  split; [|done]. simpl_cell. destruct Hwf as [Hf Hr Hsc Hnd Hm Hk Hit Hfr]. split; simpl; try done.
  - intros p Hp. destruct (Hsc p Hp) as (c & Hc & Hmc). exists c. split; [done|].
    rewrite lookup_insert_ne; [done|]. intros ->. congruence.
  - intros j p [[_ [=]]|[_ Hj]]%lookup_insert_Some. by apply Hm.
  - intros j o [[<- _]|[_ Hj]]%lookup_insert_Some; [done|]. by eapply Hk.
Qed.

Lemma map_at_hp i s : hp (snd (map_at i s)) = hp s.
Proof. unfold map_at. by destruct (chroutines_map (sch s) !! i). Qed.

Lemma map_at_fst i s : fst (map_at i s) = get_chroutine i s.
Proof. unfold map_at, get_chroutine. by destruct (chroutines_map (sch s) !! i). Qed.

#[export] Hint Resolve clear_to_free_wf create_chroutine_wf map_at_wf : chr.

(** ** The remaining operations *)

Lemma get_chroutine_obj i p s :
  wf_cell s → get_chroutine i s = Some p →
  p ∈ chroutines_sched (sch s) ∧ ∃ c, obj p s = Some c ∧ me c = i.
Proof.
  intros [Hwf _] Hg. unfold get_chroutine in Hg.
  destruct (chroutines_map (sch s) !! i) eqn:Hm; [|done]. subst. by apply (wf_map _ _ _ _ Hwf).
Qed.

Lemma get_chroutine_sched p c s :
  wf_cell s → p ∈ chroutines_sched (sch s) → obj p s = Some c → get_chroutine (me c) s = Some p.
Proof.
  intros [Hwf _] Hp Hc. destruct (wf_sched _ _ _ _ Hwf p Hp) as (d & Hd & Hm).
  unfold obj in Hc. simplify_eq. unfold get_chroutine. by rewrite Hm.
Qed.

Lemma create_son_chroutine_wf f r s :
  wf_cell s → wf_cell (snd (create_son_chroutine f r s)).
Proof.
  intros Hs. unfold create_son_chroutine. case_if; [done|].
  destruct (get_chroutine _ s) as [pf|] eqn:Hpf; [|done].
  set (s1 := upd_chs _ s). assert (Hs1 : wf_cell s1) by (subst s1; auto with chr).
  pose proof (create_chroutine_wf f (Z.of_nat r) s1 Hs1) as Hs2.
  destruct (create_chroutine f (Z.of_nat r) s1) as [sid s2] eqn:Hcr. simpl in Hs2.
  destruct (Z.eqb_spec sid INVALID_ID) as [|Hne]; [done|].
  assert (Hid : 0 < sid <= ms_chroutine_id (hp s2)).
  { pose proof (proj2 Hs1). destruct (create_chroutine_cases f (Z.of_nat r) s1) as [Hc|[_ Hc]];
      rewrite Hcr in Hc; simplify_eq/=. lia. }
  pose proof (map_at_wf sid s2 Hid Hs2) as Hs3.
  destruct (map_at sid s2) as [[ps|] s3]; simpl in *; [|done].
  apply upd_chs_wf; [|done]. transitivity (alter (set_father (running_id (sch s3))) ps (chs (hp s3))); auto with chr.
Qed.

Definition running_ok (s : cell) : Prop :=
  running_id (sch s) = INVALID_ID ∨ 0 < running_id (sch s) <= ms_chroutine_id (hp s).

Lemma running_at_Some co s p c :
  running_at co s = Some (p, c) → co = Some p ∧ obj p s = Some c ∧ state c = chroutine_state_running.
Proof.
  unfold running_at. intros H. destruct co; [|done]. destruct (obj n s) eqn:Ho; [|done].
  case_bool_decide; [|done]. by simplify_eq.
Qed.

(** [yield_current] and [wait_current] share their shape: guards, the look-up
    with [operator[]], and an update of the running object. *)
Definition suspend_current (f : chroutine_t → chroutine_t) (s : cell) : cell * bool :=
  if running_id (sch s) =? INVALID_ID then (s, false)
  else
    let '(co, s1) := map_at (running_id (sch s)) s in
    match running_at co s1 with
    | None => (s1, false)
    | Some (p, c) => (upd_sch (set_running_id INVALID_ID) (upd_chs <[p := f c]> s1), true)
    end.

Lemma yield_current_eq tick s :
  yield_current tick s =
  if tick <=? 0 then (s, false)
  else suspend_current (λ c, set_yield_wait (yield_wait c + tick) (set_state chroutine_state_suspend c)) s.
Proof. done. Qed.

Lemma wait_current_eq now ms stop s :
  wait_current now ms stop s =
  if ms <=? 0 then (s, false)
  else suspend_current (λ c, set_stop_son stop (set_yield_to (now + ms) (set_state chroutine_state_suspend c))) s.
Proof. done. Qed.

Lemma suspend_current_wf f s :
  (∀ c, me (f c) = me c) → running_ok s → wf_cell s → wf_cell (fst (suspend_current f s)).
Proof.
  intros Hf Hr Hs. unfold suspend_current. destruct (Z.eqb_spec (running_id (sch s)) INVALID_ID) as [|Hne]; [done|].
  destruct Hr as [|Hr]; [done|]. pose proof (map_at_wf _ s Hr Hs) as Hs1.
  destruct (map_at _ s) as [co s1]. simpl in *. destruct (running_at co s1) as [[p c]|] eqn:Hra; [|done].
  apply running_at_Some in Hra as (_ & Hc & _). simpl. apply set_running_id_wf, upd_chs_wf; [|done].
  by apply (same_ids_insert _ _ c).
Qed.

Lemma yield_current_wf tick s : running_ok s → wf_cell s → wf_cell (fst (yield_current tick s)).
Proof. intros. rewrite yield_current_eq. case_if; [done|]. by apply suspend_current_wf. Qed.

Lemma wait_current_wf now ms stop s : running_ok s → wf_cell s → wf_cell (fst (wait_current now ms stop s)).
Proof. intros. rewrite wait_current_eq. case_if; [done|]. by apply suspend_current_wf. Qed.

Lemma awake_chroutine_wf i s : wf_cell s → wf_cell (snd (awake_chroutine i s)).
Proof.
  intros Hs. unfold awake_chroutine. destruct (get_chroutine i s) as [p|]; [|done].
  pose proof (yield_over_at_wf p result_done s Hs) as Hs1.
  destruct (yield_over_at p result_done s). simpl in *. auto with chr.
Qed.

Lemma entry_finish_wf p s : wf_cell s → wf_cell (entry_finish p s).
Proof.
  intros Hs. unfold entry_finish. destruct (obj p s) as [c|]; [|done].
  assert (wf_cell (upd_sch (set_running_id INVALID_ID) (remove_chroutine (me c) s))) by auto with chr.
  case_if; [done|]. destruct (get_chroutine _ _); auto with chr.
Qed.

Lemma entry_start_wf s : wf_cell s → wf_cell (snd (entry_start s)).
Proof. intros Hs. unfold entry_start. destruct (get_chroutine _ s); simpl; auto with chr. Qed.

(** ** The picking loop *)

Lemma pick_loop_same_ids now l h pc it n :
  same_ids h (fst (fst (fst (pick_loop now l h pc it n)))).
Proof.
  revert h pc it n. induction l as [|p l IH]; intros h pc it n; simpl; [done|].
  destruct (h !! p) as [c|] eqn:Hc; [|apply IH]. case_if; [apply IH|].
  pose proof (wait_id now c) as Hid. destruct (wait now c) as [w c']. simpl in Hid.
  assert (Hs : same_ids h (<[p:=c']> h)) by (by apply (same_ids_insert _ _ c)).
  case_if; [etransitivity; [exact Hs|apply IH]|].
  destruct pc; (etransitivity; [exact Hs|apply IH]).
Qed.
