(* ===== verification/Sched.v ===== *)
(** * The scheduler: what one pass of [pick_run_chroutine] does

    The functional specification of the picking loop: every coroutine from the
    saved iterator to the end of the list is aged by one [wait], and the first
    ready one is picked. *)

From S2P Require Import Prelude Reporter Chroutine Load Thread ThreadInv.
Local Open Scope Z_scope.

(** What one visit of the loop does to a coroutine. *)
Definition aged (now : Z) (c : chroutine_t) : chroutine_t :=
  if has_moved c then c else snd (wait now c).

Lemma aged_id now c : me (aged now c) = me c.
Proof. unfold aged. case_if; [done|apply wait_id]. Qed.

Lemma aged_frame now c :
  ∃ n, aged now c = set_yield_wait n c ∧ n <= yield_wait c ∧ (0 <= yield_wait c → 0 <= n).
Proof.
  unfold aged. case_if; [|apply wait_frame]. exists (yield_wait c). split; [by destruct c|lia].
Qed.

Lemma aged_ready now c : ready now c = true → aged now c = c.
Proof.
  intros Hr. apply ready_spec in Hr as (Hm & Hw & Ht). unfold aged, has_moved. rewrite Hm.
  by rewrite wait_ready.
Qed.

(** Once [p_c] is set the loop only ages. *)
Lemma pick_loop_picked now l h p it n :
  ∃ h', pick_loop now l h (Some p) it n = (h', Some p, it, n).
Proof.
  revert h. induction l as [|q l IH]; intros h; simpl; [by eexists|].
  destruct (h !! q) as [c|]; [|apply IH]. destruct (has_moved c); [apply IH|].
  destruct (wait now c) as [w c']. destruct (w >? 0); apply IH.
Qed.

Lemma pick_loop_heap now l h pc it n q :
  NoDup l →
  fst (fst (fst (pick_loop now l h pc it n))) !! q =
  if bool_decide (q ∈ l) then aged now <$> h !! q else h !! q.
Proof.
  revert h pc it n. induction l as [|p l IH]; intros h pc it n Hnd; simpl; [done|].
  apply NoDup_cons in Hnd as [Hp Hnd].
  assert (Hgo : ∀ (h' : gmap nat chroutine_t) pc' it' n', (∀ q', q' ≠ p → h' !! q' = h !! q') → h' !! p = aged now <$> h !! p →
    fst (fst (fst (pick_loop now l h' pc' it' n'))) !! q =
    if bool_decide (q ∈ p :: l) then aged now <$> h !! q else h !! q).
  { intros h' pc' it' n' Hne Heq. rewrite IH by done. destruct (decide (q = p)) as [->|Hqp].
    - rewrite bool_decide_eq_false_2, bool_decide_eq_true_2 by mem. done.
    - rewrite Hne by done. apply (f_equal (λ b : bool, if b then _ else _)), bool_decide_ext.
      split; mem. }
  destruct (h !! p) as [c|] eqn:Hc; [|apply Hgo; by rewrite ?Hc].
  destruct (has_moved c) eqn:Hm; [apply Hgo; [done|]; rewrite Hc; simpl; unfold aged; by rewrite Hm|].
  destruct (wait now c) as [w c'] eqn:Hw.
  assert (Hag : aged now c = c') by (unfold aged; by rewrite Hm, Hw).
  assert (Hne : ∀ q', q' ≠ p → <[p:=c']> h !! q' = h !! q') by (intros; by rewrite lookup_insert_ne).
  assert (Heq : <[p:=c']> h !! p = aged now <$> Some c) by (rewrite lookup_insert_eq; simpl; congruence).
  destruct (w >? 0); [|destruct pc]; by apply Hgo.
Qed.

(** The element the loop picks is the first ready one. *)
Lemma pick_loop_pick now l h :
  NoDup l →
  match pick_loop now l h None None 0 with
  | (_, None, it, n) =>
    it = None ∧ n = 0 ∧ ∀ q c, q ∈ l → h !! q = Some c → ready now c = false
  | (_, Some p, it, n) =>
    n = 1 ∧ ∃ l1 l2 c, l = l1 ++ p :: l2 ∧ h !! p = Some c ∧ ready now c = true ∧ it = head l2 ∧
      ∀ q d, q ∈ l1 → h !! q = Some d → ready now d = false
  end.
Proof.
  assert (Hgen : ∀ l (h : gmap nat chroutine_t), NoDup l → ∀ h0 : gmap nat chroutine_t, (∀ q, q ∈ l → h !! q = h0 !! q) →
    match pick_loop now l h None None 0 with
    | (_, None, it, n) => it = None ∧ n = 0 ∧ ∀ q c, q ∈ l → h0 !! q = Some c → ready now c = false
    | (_, Some p, it, n) =>
      n = 1 ∧ ∃ l1 l2 c, l = l1 ++ p :: l2 ∧ h0 !! p = Some c ∧ ready now c = true ∧ it = head l2 ∧
        ∀ q d, q ∈ l1 → h0 !! q = Some d → ready now d = false
    end).
  2: { intros Hnd. by apply Hgen. }
  clear l h. induction l as [|p l IH]; intros h Hnd h0 Hh; simpl.
  { split_and!; try done. intros q c Hq. by apply elem_of_nil in Hq. }
  apply NoDup_cons in Hnd as [Hp Hnd].
  assert (Hskip : ∀ h' : gmap nat chroutine_t, (∀ q, q ∈ l → h' !! q = h0 !! q) → (∀ c, h0 !! p = Some c → ready now c = false) →
    match pick_loop now l h' None None 0 with
    | (_, None, it, n) => it = None ∧ n = 0 ∧ ∀ q c, q ∈ p :: l → h0 !! q = Some c → ready now c = false
    | (_, Some p', it, n) =>
      n = 1 ∧ ∃ l1 l2 c, p :: l = l1 ++ p' :: l2 ∧ h0 !! p' = Some c ∧ ready now c = true ∧ it = head l2 ∧
        ∀ q d, q ∈ l1 → h0 !! q = Some d → ready now d = false
    end).
  { intros h' Hh' Hnr. specialize (IH h' Hnd h0 Hh').
    destruct (pick_loop now l h' None None 0) as [[[h'' [p'|]] it] n].
    - destruct IH as (-> & l1 & l2 & c & -> & Hc & Hr & -> & Hb). split; [done|].
      exists (p :: l1), l2, c. split_and!; try done.
      intros q d [->|Hq]%elem_of_cons; [apply Hnr|by apply Hb].
    - destruct IH as (-> & -> & Hb). split_and!; try done.
      intros q d [->|Hq]%elem_of_cons; [apply Hnr|by apply Hb]. }
  assert (Hl : ∀ q, q ∈ l → h !! q = h0 !! q) by (intros; apply Hh; mem).
  assert (Hp0 : h !! p = h0 !! p) by (apply Hh; mem).
  destruct (h !! p) as [c|] eqn:Hc; [|apply Hskip; [done|]; by rewrite <- Hp0].
  destruct (has_moved c) eqn:Hm.
  { apply Hskip; [done|]. rewrite <- Hp0. intros ? [= <-]. unfold ready. by rewrite Hm. }
  destruct (wait now c) as [w c'] eqn:Hw.
  assert (Hl' : ∀ q, q ∈ l → <[p:=c']> h !! q = h0 !! q).
  { intros q Hq. rewrite lookup_insert_ne by congruence. by apply Hl. }
  destruct (w >? 0) eqn:Hw0.
  { apply Hskip; [done|]. rewrite <- Hp0. intros ? [= <-]. unfold ready. rewrite Hm, Hw; simpl; by rewrite Hw0. }
  change (0 + 1) with 1.
  destruct (pick_loop_picked now l (<[p:=c']> h) p (head l) 1) as [h' ->].
  split; [done|]. exists [], l, c. split_and!; try done.
  - unfold ready. rewrite Hm, Hw; simpl; by rewrite Hw0.
  - intros q d Hq. by apply elem_of_nil in Hq.
Qed.

(** ** Iterators *)

Lemma from_iter_none l : from_iter None l = [].
Proof. by destruct l. Qed.

Lemma from_iter_split it l : ∃ l0, l = l0 ++ from_iter it l.
Proof.
  destruct it as [p|]; [|exists l; by rewrite from_iter_none, app_nil_r].
  induction l as [|q l IH]; simpl; [by exists []|].
  destruct (q =? p)%nat; [by exists []|]. destruct IH as [l0 IH].
  exists (q :: l0). simpl. by f_equal.
Qed.

Lemma from_iter_NoDup it l : NoDup l → NoDup (from_iter it l).
Proof.
  destruct (from_iter_split it l) as [l0 Hl]. rewrite Hl at 1. intros H. by apply NoDup_app in H as (_ & _ & ?).
Qed.

Lemma from_iter_elem it l p : p ∈ from_iter it l → p ∈ l.
Proof. destruct (from_iter_split it l) as [l0 Hl]. intros Hp. rewrite Hl. mem. Qed.

Lemma from_iter_at l1 p l2 : p ∉ l1 → from_iter (Some p) (l1 ++ p :: l2) = p :: l2.
Proof.
  induction l1 as [|q l1 IH]; intros Hp; simpl.
  - by rewrite Nat.eqb_refl.
  - destruct (Nat.eqb_spec q p) as [->|]; [exfalso; apply Hp; mem|]. apply IH. mem.
Qed.

Lemma from_iter_head l : from_iter (head l) l = l.
Proof. destruct l; simpl; [done|]. by rewrite Nat.eqb_refl. Qed.

(** ** One pass *)

(** The state between the loop and the resumption: the finished coroutines
    are freed, the coroutines from the iterator on are aged. *)
Definition after_loop (now : Z) (it : option nat) (s : cell) : cell :=
  let s1 := clear_to_free s in
  upd_sch (set_sched_iter it)
    (upd_chs (λ h, fst (fst (fst (pick_loop now (from_iter (start_iter (sch s1)) (chroutines_sched (sch s1))) h None None 0)))) s1).

(** The picked object when its context is swapped in. *)
Definition resumed (c : chroutine_t) : chroutine_t :=
  set_state chroutine_state_running (snd (fst (yield_over result_timeout c ∅))).

Lemma yield_over_obj res c rs rs' :
  fst (yield_over res c rs) = fst (yield_over res c rs').
Proof. unfold yield_over. by case_if. Qed.

Lemma start_iter_in x p : (∀ q, sched_iter x = Some q → q ∈ chroutines_sched x) →
  start_iter x = Some p → p ∈ chroutines_sched x.
Proof.
  intros Hi. unfold start_iter. destruct (sched_iter x) as [q|]; [intros; simplify_eq; by apply Hi|].
  destruct (chroutines_sched x); intros; simplify_eq/=. mem.
Qed.

Lemma set_sched_iter_wf it s : (∀ p, it = Some p → p ∈ chroutines_sched (sch s)) → wf_cell s → wf_cell (upd_sch (set_sched_iter it) s).
Proof. intros Hit [[] ?]. split; [|done]. by split. Qed.

Lemma after_loop_wf now it s :
  (∀ p, it = Some p → p ∈ chroutines_sched (sch s)) → wf_cell s → wf_cell (after_loop now it s).
Proof.
  intros Hit Hs. unfold after_loop. apply set_sched_iter_wf; [done|]. apply upd_chs_wf; [|auto with chr].
  apply pick_loop_same_ids.
Qed.

Lemma after_loop_obj now it s q d' :
  wf_cell s → obj q (after_loop now it s) = Some d' →
  ∃ d, obj q s = Some d ∧ (d' = d ∨ d' = aged now d).
Proof.
  intros Hs Hq. unfold after_loop, obj, upd_sch, upd_chs in Hq. cbn [hp chs set_chs] in Hq.
  rewrite pick_loop_heap in Hq by (apply from_iter_NoDup; exact (wf_nodup _ _ _ _ (proj1 Hs))).
  fold (obj q (clear_to_free s)) in Hq. rewrite clear_to_free_obj in Hq by done.
  destruct (obj q s) as [d|]; [|by repeat case_bool_decide].
  exists d. split; [done|]. repeat case_bool_decide; simplify_eq/=; auto.
Qed.

(** The finished coroutines are gone. *)
Lemma after_loop_freed now it s q :
  wf_cell s → Some q ∈ chroutines_to_free (sch s) → obj q (after_loop now it s) = None.
Proof.
  intros Hs Hq. unfold after_loop, obj, upd_sch, upd_chs. cbn [hp chs set_chs].
  rewrite pick_loop_heap by (apply from_iter_NoDup; exact (wf_nodup _ _ _ _ (proj1 Hs))).
  fold (obj q (clear_to_free s)). rewrite clear_to_free_obj by done.
  rewrite (bool_decide_eq_true_2 (Some q ∈ _)) by done. by case_bool_decide.
Qed.

Lemma after_loop_obj_ready now it s p c :
  wf_cell s → p ∈ chroutines_sched (sch s) → obj p s = Some c → ready now c = true →
  obj p (after_loop now it s) = Some c.
Proof.
  intros Hs Hp Hc Hr. unfold after_loop, obj, upd_sch, upd_chs. cbn [hp chs set_chs].
  rewrite pick_loop_heap by (apply from_iter_NoDup; exact (wf_nodup _ _ _ _ (proj1 Hs))).
  fold (obj p (clear_to_free s)). rewrite clear_to_free_obj by done.
  rewrite (bool_decide_eq_false_2 (Some p ∈ _)), Hc; [|intros Hf; by apply (wf_free _ _ _ _ (proj1 Hs)) in Hf as [? _]].
  simpl. rewrite aged_ready by done. by case_bool_decide.
Qed.

(** The state in which the coroutine at [p] is resumed. *)
Definition picked (now now' : Z) (p : nat) (c : chroutine_t) (it : option nat) (s : cell) : cell :=
  let '(tmo, s3) := yield_over_at p result_timeout (after_loop now it s) in
  set_entry_time now'
    (upd_sch (set_running_id (me c))
       (upd_chs (alter (set_state chroutine_state_running) p) (remove_chroutine tmo s3))).

(** [pick_run_begin] has four outcomes: a coroutine is already running, there
    is none, none is ready, or the first ready one from the iterator on is
    picked. *)
Inductive pick_outcome (now now' : Z) (s : cell) : cell * option nat * Z → Prop :=
  | pick_busy : running_id (sch s) ≠ INVALID_ID → pick_outcome now now' s (s, None, 1)
  | pick_empty : running_id (sch s) = INVALID_ID → chroutines_sched (sch s) = [] →
      pick_outcome now now' s (clear_to_free s, None, 0)
  | pick_none : running_id (sch s) = INVALID_ID →
      (∀ q c, q ∈ from_iter (start_iter (sch s)) (chroutines_sched (sch s)) → obj q s = Some c → ready now c = false) →
      pick_outcome now now' s (after_loop now None s, None, 0)
  | pick_some p l1 l2 c : running_id (sch s) = INVALID_ID →
      from_iter (start_iter (sch s)) (chroutines_sched (sch s)) = l1 ++ p :: l2 →
      obj p s = Some c → ready now c = true →
      (∀ q d, q ∈ l1 → obj q s = Some d → ready now d = false) →
      pick_outcome now now' s (picked now now' p c (head l2) s, Some p, 1).

Lemma clear_to_free_obj_sched s q :
  wf_cell s → q ∈ chroutines_sched (sch s) → obj q (clear_to_free s) = obj q s.
Proof.
  intros Hs Hq. rewrite clear_to_free_obj, bool_decide_eq_false_2; [done| |done].
  intros Hf. by apply (wf_free _ _ _ _ (proj1 Hs)) in Hf as [? _].
Qed.

Lemma yield_over_at_obj p res s c :
  obj p s = Some c → obj p (snd (yield_over_at p res s)) = Some (snd (fst (yield_over res c ∅))).
Proof.
  intros Hc. unfold yield_over_at. rewrite Hc, (yield_over_obj res c ∅ (rps (hp s))).
  destruct (yield_over res c (rps (hp s))) as [[t c'] rs]. simpl_cell. by rewrite lookup_insert_eq.
Qed.

Lemma pick_run_begin_outcome now now' s :
  wf_cell s → pick_outcome now now' s (pick_run_begin now now' s).
Proof.
  intros Hs. unfold pick_run_begin. destruct (Z.eqb_spec (running_id (sch s)) INVALID_ID) as [Hi|]; [|by apply pick_busy].
  simpl negb. cbv iota. destruct (chroutines_sched (sch (clear_to_free s))) as [|p0 l0] eqn:Hl; [by apply pick_empty|].
  rewrite <- Hl. cbv zeta.
  set (l := from_iter (start_iter (sch (clear_to_free s))) (chroutines_sched (sch (clear_to_free s)))).
  assert (Hnd : NoDup l) by (apply from_iter_NoDup; exact (wf_nodup _ _ _ _ (proj1 Hs))).
  pose proof (pick_loop_pick now l (chs (hp (clear_to_free s))) Hnd) as Hpick.
  assert (Hin : ∀ q, q ∈ l → q ∈ chroutines_sched (sch s)) by apply from_iter_elem.
  assert (Hobj : ∀ q, q ∈ l → chs (hp (clear_to_free s)) !! q = obj q s).
  { intros q Hq. by apply clear_to_free_obj_sched, Hin. }
  destruct (pick_loop now l (chs (hp (clear_to_free s))) None None 0) as [[[h [p|]] it] n] eqn:Hloop.
  - destruct Hpick as (-> & l1 & l2 & c & Hsplit & Hc & Hr & -> & Hb). rewrite Hobj in Hc by (rewrite Hsplit; mem).
    assert (Hal : upd_sch (set_sched_iter (head l2)) (upd_chs (λ _, h) (clear_to_free s)) = after_loop now (head l2) s).
    { unfold after_loop, upd_chs. cbv zeta beta. fold l. by rewrite Hloop. }
    rewrite Hal. assert (Hp : obj p (after_loop now (head l2) s) = Some c).
    { apply after_loop_obj_ready; [done|apply Hin; rewrite Hsplit; mem|done..]. }
    assert (Heq : (let '(tmo, s3) := yield_over_at p result_timeout (after_loop now (head l2) s) in
       (set_entry_time now' (let s5 := upd_chs (alter (set_state chroutine_state_running) p) (remove_chroutine tmo s3) in
          match obj p s5 with Some c0 => upd_sch (set_running_id (me c0)) s5 | None => s5 end), Some p, 1))
      = (picked now now' p c (head l2) s, Some p, 1)).
    { unfold picked. pose proof (yield_over_at_obj p result_timeout _ c Hp) as Hy.
      pose proof (yield_over_id result_timeout c ∅) as Hid.
      destruct (yield_over_at p result_timeout (after_loop now (head l2) s)) as [tmo s3]. simpl in Hy.
      assert (obj p (upd_chs (alter (set_state chroutine_state_running) p) (remove_chroutine tmo s3))
        = Some (resumed c)) as ->.
      { unfold obj, upd_chs. cbn [hp chs set_chs]. rewrite lookup_alter_eq, remove_chroutine_hp.
        fold (obj p s3). by rewrite Hy. }
      unfold resumed. cbn [me set_state]. by rewrite Hid. }
    cbv zeta in Heq |- *. rewrite Heq. apply (pick_some _ _ _ p l1 l2 c); try done.
    intros q d Hq Hd. apply (Hb q d Hq). rewrite Hobj; [done|]. rewrite Hsplit. mem.
  - destruct Hpick as (-> & -> & Hb).
    assert (Hal : upd_sch (set_sched_iter None) (upd_chs (λ _, h) (clear_to_free s)) = after_loop now None s).
    { unfold after_loop, upd_chs. cbv zeta beta. fold l. by rewrite Hloop. }
    cbv zeta. rewrite Hal. apply pick_none; [done|]. intros q c Hq Hc. apply (Hb q c Hq). by rewrite Hobj.
Qed.

Section picked.
Context (now now' : Z) (s : cell) (p : nat) (c : chroutine_t) (it : option nat).
Context (Hs : wf_cell s) (Hp : p ∈ chroutines_sched (sch s)) (Hc : obj p s = Some c)
        (Hr : ready now c = true) (Hit : ∀ q, it = Some q → q ∈ chroutines_sched (sch s)).

Let tmo := fst (yield_over_at p result_timeout (after_loop now it s)).
Let s3 := snd (yield_over_at p result_timeout (after_loop now it s)).

Lemma picked_eq :
  picked now now' p c it s =
  set_entry_time now' (upd_sch (set_running_id (me c))
    (upd_chs (alter (set_state chroutine_state_running) p) (remove_chroutine tmo s3))).
Proof. unfold picked, tmo, s3. by destruct (yield_over_at _ _ _). Qed.

Lemma after_loop_p : obj p (after_loop now it s) = Some c.
Proof. by apply after_loop_obj_ready. Qed.

Lemma picked_s3_wf : wf_cell s3.
Proof. apply yield_over_at_wf, after_loop_wf; done. Qed.

Lemma picked_tmo : tmo = fst (fst (yield_over result_timeout c ∅)).
Proof.
  unfold tmo, yield_over_at. rewrite after_loop_p, (yield_over_obj _ c ∅ (rps (hp (after_loop now it s)))).
  by destruct (yield_over _ _ _) as [[? ?] ?].
Qed.

Lemma picked_wf : wf_cell (picked now now' p c it s).
Proof.
  rewrite picked_eq. apply upd_th_wf; [done|]. apply set_running_id_wf, upd_chs_wf; auto with chr.
  apply remove_chroutine_wf, picked_s3_wf.
Qed.

Lemma picked_running : running_id (sch (picked now now' p c it s)) = me c.
Proof. by rewrite picked_eq. Qed.

Lemma picked_obj : obj p (picked now now' p c it s) = Some (resumed c).
Proof.
  rewrite picked_eq. unfold obj, set_entry_time, upd_th, upd_sch, upd_chs. cbn [hp chs set_chs].
  rewrite lookup_alter_eq, remove_chroutine_hp. fold (obj p s3). unfold s3.
  by rewrite (yield_over_at_obj _ _ _ c after_loop_p).
Qed.

Lemma picked_sched q d :
  obj q s3 = Some d →
  q ∈ chroutines_sched (sch (picked now now' p c it s)) ↔ q ∈ chroutines_sched (sch s) ∧ me d ≠ tmo.
Proof.
  intros Hd. rewrite picked_eq. cbn [set_entry_time upd_th upd_sch upd_chs th m_schedule set_schedule
    store_entry_time set_running_id chroutines_sched].
  rewrite (remove_chroutine_sched tmo s3 q d picked_s3_wf Hd). unfold s3 at 1. by rewrite yield_over_at_sch.
Qed.

Lemma picked_in : (son c = INVALID_ID ∨ me c < son c) → p ∈ chroutines_sched (sch (picked now now' p c it s)).
Proof.
  intros Hson. apply (picked_sched p (snd (fst (yield_over result_timeout c ∅)))).
  { unfold s3. apply yield_over_at_obj, after_loop_p. }
  split; [done|]. rewrite yield_over_id, picked_tmo.
  pose proof (wf_id_range _ _ _ _ (proj1 Hs) p c Hc). unfold INVALID_ID in *.
  unfold yield_over. case_if; simpl; unfold INVALID_ID; lia.
Qed.

Lemma picked_after q : q ≠ p → obj q (picked now now' p c it s) = obj q (after_loop now it s).
Proof.
  intros Hq. rewrite picked_eq. unfold obj, set_entry_time, upd_th, upd_sch, upd_chs. cbn [hp chs set_chs].
  rewrite lookup_alter_ne, remove_chroutine_hp by done. unfold s3, yield_over_at. rewrite after_loop_p.
  destruct (yield_over _ _ _) as [[t c'] rs]. unfold upd_rps, upd_chs. cbn [snd hp chs set_chs set_rps].
  by rewrite lookup_insert_ne.
Qed.

(** The other coroutines are at most aged, and none joins the list. *)
Lemma picked_other q d' :
  q ≠ p → obj q (picked now now' p c it s) = Some d' →
  ∃ d, obj q s = Some d ∧ (d' = d ∨ d' = aged now d) ∧
       (q ∈ chroutines_sched (sch (picked now now' p c it s)) → q ∈ chroutines_sched (sch s)).
Proof.
  intros Hq Hd'. rewrite picked_after in Hd' by done.
  destruct (after_loop_obj now it s q d' Hs Hd') as (d & Hd & Hor). exists d. split_and!; [done..|].
  intros Hin. apply (picked_sched q d') in Hin as [? _]; [done|].
  unfold s3, yield_over_at. rewrite after_loop_p. destruct (yield_over _ _ _) as [[t c'] rs].
  unfold obj, upd_rps, upd_chs. cbn [snd hp chs set_chs set_rps]. by rewrite lookup_insert_ne.
Qed.
End picked.
