(* ===== verification/Run.v ===== *)
(** * One OS thread running its coroutines: a transition system

    A configuration is a thread with its heap and the object whose stack the
    OS thread is executing on ([None]: the main context, inside [schedule]).
    User code is arbitrary: at any moment it may issue any call of the API, or
    return.  Selectable objects call the same functions from the main context,
    and other OS threads may create and awake coroutines at any time.  Here a pass,
    a call and a call of another thread are one transition each; Interleave.v
    has their locked regions and shows that these transitions are among its
    runs.  Coroutines are not moved to or from the thread (Migrate.v). *)

From S2P Require Import Prelude Reporter Chroutine Load Thread ThreadInv Sched.
Local Open Scope Z_scope.

(** ** Calls of user code *)

Inductive call :=
  | call_yield (tick : Z)
  | call_wait (now ms : Z)
  | call_sleep (now ms : Z)
  | call_create (f : func_t) (a : Z)
  | call_create_son (f : func_t) (rep : nat)
  | call_awake (id : Z)
  | call_new_reporter (d : Z).

(** [reporter_t<T>::create()] *)
Definition new_reporter (d : Z) (s : cell) : cell :=
  mk_cell (mk_heap (chs (hp s)) (<[next_ptr (hp s) := create d]> (rps (hp s)))
             (S (next_ptr (hp s))) (ms_chroutine_id (hp s))) (th s).

(** The effect of a call, and whether it swapped to the main context. *)
Definition do_call (c : call) (s : cell) : cell * bool :=
  match c with
  | call_yield tick => thread_yield tick s
  | call_wait now ms => thread_wait now ms s
  | call_sleep now ms => thread_sleep now ms s
  | call_create f a => (snd (create_chroutine f a s), false)
  | call_create_son f rep => (snd (create_son_chroutine f rep s), false)
  | call_awake id => (snd (awake_chroutine id s), false)
  | call_new_reporter d => (new_reporter d s, false)
  end.

(** Calls another OS thread may make on this thread. *)
Definition external (c : call) : bool :=
  match c with
  | call_create _ _ | call_awake _ | call_new_reporter _ => true
  | _ => false
  end.

Definition config : Type := cell * option nat.

Inductive step : config → config → Prop :=
  (** [pick_run_chroutine], up to the swap *)
  | step_pick now now' s s' r n :
      pick_run_begin now now' s = (s', r, n) → step (s, None) (s', r)
  (** a call of the running coroutine; a swap ends in [clear_entry_time()] *)
  | step_call c s p s' sw :
      do_call c s = (s', sw) →
      step (s, Some p) (if sw then (clear_entry_time s', None) else (s', Some p))
  (** the function returns: [entry] finishes and [uc_link] is taken *)
  | step_return s p :
      step (s, Some p) (clear_entry_time (entry_finish p s), None)
  (** a call from the main context, inside [select_all] *)
  | step_main c s :
      step (s, None) (fst (do_call c s), None)
  (** a call from another OS thread *)
  | step_external c s r :
      external c = true → step (s, r) (fst (do_call c s), r).

Definition init (self : nat) : config := (mk_cell heap_init (new_thread self), None).

Definition reachable (self : nat) (x : config) : Prop := rtc step (init self) x.

(** ** The invariant *)

(** Per object: a son is younger than its father, and the yield count is a
    count. *)
Definition obj_ok (c : chroutine_t) : Prop :=
  (son c = INVALID_ID ∨ me c < son c) ∧ 0 <= yield_wait c.

(** The object on whose stack we run is alive, even when it was removed from
    the thread, and it is neither waiting nor yielding. *)
Definition run_ok (s : cell) (p : nat) : Prop :=
  ∃ c, obj p s = Some c ∧ running_id (sch s) = me c ∧ state c = chroutine_state_running ∧
    yield_wait c = 0 ∧ yield_to c = 0 ∧
    (p ∈ chroutines_sched (sch s) ∨
     Some p ∈ chroutines_to_free (sch s) ∧ get_chroutine (me c) s = None).

Record cfg_ok (x : config) : Prop := {
  ok_wf : wf_cell (fst x);
  ok_obj : ∀ p c, obj p (fst x) = Some c → obj_ok c;
  ok_susp : ∀ p c, p ∈ chroutines_sched (sch (fst x)) → obj p (fst x) = Some c →
              snd x ≠ Some p → state c ≠ chroutine_state_running;
  ok_run : match snd x with
           | None => running_id (sch (fst x)) = INVALID_ID
           | Some p => run_ok (fst x) p
           end
}.

Lemma init_ok self : cfg_ok (init self).
Proof.
  split; simpl; try done.
  - split; [|simpl; lia]. split; simpl; try done.
    + intros p [c Hc]. by rewrite lookup_empty in Hc.
    + intros p Hp. by apply elem_of_nil in Hp.
    + constructor.
    + intros p Hp. by apply elem_of_nil in Hp.
Qed.

(** ** Preservation *)

Lemma obj_ok_aged now c : obj_ok c → obj_ok (aged now c).
Proof.
  intros [Hson Hw]. destruct (aged_frame now c) as (n & -> & _ & Hn). split; [done|]. simpl. auto.
Qed.

Lemma aged_state now c : state (aged now c) = state c.
Proof. by destruct (aged_frame now c) as (n & -> & _). Qed.

Lemma resumed_ok c : obj_ok c → obj_ok (resumed c).
Proof. unfold resumed, yield_over, obj_ok. case_if; simpl; intuition. Qed.

Lemma clear_to_free_ok s : cfg_ok (s, None) → cfg_ok (clear_to_free s, None).
Proof.
  intros [Hwf Hobj Hsusp Hrun]; simpl in *.
  assert (Hsub : ∀ p c, obj p (clear_to_free s) = Some c → obj p s = Some c).
  { intros p c. rewrite clear_to_free_obj by done. by case_bool_decide. }
  split; simpl; [auto with chr| | |done].
  - eauto.
  - intros p c Hp Hc _. by apply (Hsusp p c); [|apply Hsub|].
Qed.

Lemma pick_ok now now' s s' r n :
  cfg_ok (s, None) → pick_run_begin now now' s = (s', r, n) → cfg_ok (s', r).
Proof.
  intros Hok Hpick. pose proof (ok_wf _ Hok) as Hwf. simpl in Hwf.
  pose proof (pick_run_begin_outcome now now' s Hwf) as Ho. rewrite Hpick in Ho.
  inversion Ho as [Hi|Hi Hl|Hi Hn|p l1 l2 c Hi Hl Hc Hr Hb]; subst; clear Ho.
  - done.
  - by apply clear_to_free_ok.
  - destruct Hok as [_ Hobj Hsusp Hrun]; simpl in *.
    split; simpl; [by apply after_loop_wf| | |done].
    + intros p c Hc. apply (after_loop_obj _ _ _ _ _ Hwf) in Hc as (d & Hd & [->| ->]); [|apply obj_ok_aged]; eauto.
    + intros p c Hp Hc _. apply (after_loop_obj _ _ _ _ _ Hwf) in Hc as (d & Hd & [->| ->]); rewrite ?aged_state; by apply (Hsusp p).
  - destruct Hok as [_ Hobj Hsusp Hrun]; simpl in *.
    assert (Hp : p ∈ chroutines_sched (sch s)).
    { apply (from_iter_elem (start_iter (sch s))). rewrite Hl. mem. }
    assert (Hit : ∀ q, head l2 = Some q → q ∈ chroutines_sched (sch s)).
    { intros q Hq. apply (from_iter_elem (start_iter (sch s))). rewrite Hl. destruct l2; simplify_eq/=. mem. }
    pose proof (picked_other now now' s p c (head l2) Hwf Hp Hc Hr Hit) as Hother.
    split; simpl.
    + by apply picked_wf.
    + intros q d' Hd'. destruct (decide (q = p)) as [->|Hqp].
      * rewrite picked_obj in Hd' by done. simplify_eq. apply resumed_ok. eauto.
      * apply Hother in Hd' as (d & Hd & [->| ->] & _); [|apply obj_ok_aged|done]; eauto.
    + intros q d' Hq Hd' Hne. assert (Hqp : q ≠ p) by congruence.
      apply Hother in Hd' as (d & Hd & Hor & Hin); [|done].
      destruct Hor as [->| ->]; rewrite ?aged_state; apply (Hsusp q); auto.
    + exists (resumed c). apply ready_spec in Hr as Hr'. destruct Hr' as (_ & Hw & _).
      pose proof (Hobj p c Hc) as [Hson Hw0].
      assert (Hres : me (resumed c) = me c ∧ state (resumed c) = chroutine_state_running ∧
                yield_wait (resumed c) = yield_wait c ∧ yield_to (resumed c) = 0).
      { unfold resumed, yield_over. by case_if. }
      destruct Hres as (-> & -> & -> & ->).
      split_and!; try done; [by apply picked_obj|apply picked_running|lia|left; by apply picked_in].
Qed.

(** What a call that does not suspend may do to an object. *)
Definition kept (c d : chroutine_t) : Prop :=
  me d = me c ∧ state d = state c ∧ yield_wait d = yield_wait c ∧
  (yield_to c = 0 → yield_to d = 0) ∧ (obj_ok c → obj_ok d).

#[export] Instance kept_preorder : PreOrder kept.
Proof.
  split; [intros c; unfold kept; intuition|].
  intros c d e (H1 & H2 & H3 & H4 & H5) (I1 & I2 & I3 & I4 & I5). unfold kept.
  split_and!; [congruence..|tauto|tauto].
Qed.

(** ... and to the thread. *)
Record evolves (s s' : cell) : Prop := {
  ev_wf : wf_cell s';
  ev_obj : ∀ q d', obj q s' = Some d' →
    match obj q s with
    | Some d => kept d d'
    | None => obj_ok d' ∧ state d' ≠ chroutine_state_running
    end;
  ev_alive : ∀ q, is_Some (obj q s) → is_Some (obj q s');
  ev_run : running_id (sch s') = running_id (sch s);
  ev_sched : ∀ q, is_Some (obj q s) → q ∈ chroutines_sched (sch s') → q ∈ chroutines_sched (sch s);
  ev_get : ∀ i, i <= ms_chroutine_id (hp s) → get_chroutine i s = None → get_chroutine i s' = None;
  ev_ms : ms_chroutine_id (hp s) <= ms_chroutine_id (hp s');
  ev_free : ∀ q, Some q ∈ chroutines_to_free (sch s) → Some q ∈ chroutines_to_free (sch s');
  ev_own : ∀ q d, obj q s = Some d → q ∈ chroutines_sched (sch s) →
             q ∈ chroutines_sched (sch s') ∨
             Some q ∈ chroutines_to_free (sch s') ∧ get_chroutine (me d) s' = None
}.

Lemma evolves_refl s : wf_cell s → evolves s s.
Proof. intros Hs. split; auto; [|lia]. intros q d' ->. reflexivity. Qed.

Lemma evolves_trans s1 s2 s3 : evolves s1 s2 → evolves s2 s3 → evolves s1 s3.
Proof.
  intros [W1 O1 A1 R1 S1 G1 M1 F1 N1] [W2 O2 A2 R2 S2 G2 M2 F2 N2]. split; auto.
  - intros q d3 H3. specialize (O2 q d3 H3). destruct (obj q s2) as [d2|] eqn:H2.
    + specialize (O1 q d2 H2). destruct (obj q s1) as [d1|]; [by transitivity d2|].
      destruct O1 as [Hok Hst]. destruct O2 as (_ & Hs & _ & _ & Hk). rewrite Hs. auto.
    + destruct (obj q s1) eqn:H1; [|done]. destruct (A1 q) as [d2 Hd2]; [by rewrite H1|]. congruence.
  - by rewrite R2.
  - intros i Hi Hg. apply G2; [lia|auto].
  - lia.
  - intros q d Hd Hq. destruct (N1 q d Hd Hq) as [Hq2|[Hf Hg]].
    + destruct (A1 q) as [d2 Hd2]; [by rewrite Hd|]. specialize (O1 q d2 Hd2). rewrite Hd in O1.
      destruct O1 as [<- _]. auto.
    + right. split; [auto|]. apply G2; [|done]. pose proof (wf_id_range _ _ _ _ (proj1 W1)) as Hr.
      destruct (A1 q) as [d2 Hd2]; [by rewrite Hd|]. specialize (O1 q d2 Hd2). rewrite Hd in O1.
      destruct O1 as [<- _]. eapply Hr, Hd2.
Qed.

Lemma evolves_ok s s' r : cfg_ok (s, r) → evolves s s' → cfg_ok (s', r).
Proof.
  intros [Hwf Hobj Hsusp Hrun] [W O A R S G M F N]; simpl in *. split; simpl; [done| | |].
  - intros q d' Hd'. specialize (O q d' Hd'). destruct (obj q s) eqn:Hq; [|tauto].
    destruct O as (_ & _ & _ & _ & Hk). eauto.
  - intros q d' Hq Hd' Hne. specialize (O q d' Hd'). destruct (obj q s) as [d|] eqn:Hd; [|tauto].
    destruct O as (_ & -> & _). apply (Hsusp q d); [|done..]. apply S; [by rewrite Hd|done].
  - destruct r as [p|]; [|by rewrite R]. destruct Hrun as (c & Hc & Hi & Hst & Hw & Ht & Hown).
    destruct (A p) as [d Hd]; [by rewrite Hc|]. specialize (O p d Hd). rewrite Hc in O.
    destruct O as (Hme & Hs & Hyw & Hyt & _). exists d. rewrite R, Hme, Hs, Hyw. split_and!; auto.
    destruct Hown as [Hown|[Hf Hg]]; [by apply N|]. right. split; [auto|]. apply G; [|done].
    by apply (wf_id_range _ _ _ _ (proj1 Hwf) p).
Qed.

Lemma evolves_upd_rps f s : wf_cell s → evolves s (upd_rps f s).
Proof. intros Hs. split; auto; [|simpl; lia]. intros q d' Hq. unfold obj, upd_rps in *. simpl in Hq. rewrite Hq. reflexivity. Qed.

Lemma evolves_insert p c c' s : wf_cell s → obj p s = Some c → kept c c' → evolves s (upd_chs <[p := c']> s).
Proof.
  intros Hs Hc Hk. split; auto; try (simpl; lia).
  - apply upd_chs_wf; [|done]. apply (same_ids_insert _ _ c); [done|apply Hk].
  - intros q d'. unfold obj, upd_chs in *. cbn [hp chs set_chs]. destruct (decide (q = p)) as [->|Hne].
    + rewrite lookup_insert_eq, Hc. by intros [= <-].
    + rewrite lookup_insert_ne by done. intros ->. reflexivity.
  - intros q [d Hd]. unfold obj, upd_chs in *. cbn [hp chs set_chs]. destruct (decide (q = p)) as [->|Hne].
    + rewrite lookup_insert_eq. by eexists.
    + rewrite lookup_insert_ne by done. by eexists.
Qed.

Lemma alter_insert (f : chroutine_t → chroutine_t) p c s :
  obj p s = Some c → upd_chs (alter f p) s = upd_chs <[p := f c]> s.
Proof.
  intros Hc. unfold upd_chs. f_equal. f_equal. apply map_eq. intros q. unfold obj in Hc.
  destruct (decide (q = p)) as [->|Hne].
  - by rewrite lookup_alter_eq, lookup_insert_eq, Hc.
  - by rewrite lookup_alter_ne, lookup_insert_ne by done.
Qed.

Lemma evolves_remove i s : wf_cell s → evolves s (remove_chroutine i s).
Proof.
  intros Hs. assert (Hobj : ∀ q, obj q (remove_chroutine i s) = obj q s) by (intros q; unfold obj; by rewrite remove_chroutine_hp).
  split; [auto with chr| | |apply remove_chroutine_running| | |by rewrite remove_chroutine_hp| |].
  - intros q d'. rewrite Hobj. intros ->. reflexivity.
  - intros q. by rewrite Hobj.
  - intros q [d Hd] Hq. by apply (remove_chroutine_sched i s q d Hs Hd) in Hq as [? _].
  - intros j _. unfold get_chroutine. rewrite remove_chroutine_map. destruct (decide (i = j)) as [->|Hne].
    + by rewrite lookup_delete_eq.
    + by rewrite lookup_delete_ne.
  - intros q Hq. destruct (remove_chroutine_cases i s Hs) as [[_ ->]|[[_ ->]|(p & c & l1 & l2 & _ & _ & _ & _ & ->)]]; simpl_cell; [done|mem..].
  - intros q d Hd Hq. destruct (decide (me d = i)) as [<-|Hne]; [|left; by apply (remove_chroutine_sched i s q d)].
    right. unfold get_chroutine. rewrite remove_chroutine_map, lookup_delete_eq. split; [|done].
    destruct (wf_sched _ _ _ _ (proj1 Hs) q Hq) as (d' & Hd' & Hm). unfold obj in Hd. simplify_eq.
    destruct (remove_chroutine_cases (me d) s Hs) as [[? _]|[[? _]|(p & c & l1 & l2 & Hm' & _ & _ & _ & ->)]]; [congruence..|].
    simpl. assert (p = q) as -> by congruence. mem.
Qed.

Lemma evolves_create f a s : wf_cell s → evolves s (snd (create_chroutine f a s)).
Proof.
  intros Hs. pose proof (create_chroutine_wf f a s Hs) as Hs'.
  destruct (create_chroutine_cases f a s) as [E|[_ E]]; rewrite E in *; [by apply evolves_refl|].
  cbn [snd] in *. pose proof (wf_next_fresh s Hs) as Hfresh. split; auto.
  - intros q d'. unfold obj, created. cbn [hp chs]. destruct (decide (q = next_ptr (hp s))) as [->|Hne].
    + rewrite lookup_insert_eq, Hfresh. intros [= <-]. split; [|done]. split; [by left|done].
    + rewrite lookup_insert_ne by done. intros ->. reflexivity.
  - intros q [d Hd]. unfold obj, created in *. cbn [hp chs]. destruct (decide (q = next_ptr (hp s))) as [->|Hne].
    + rewrite lookup_insert_eq. by eexists.
    + rewrite lookup_insert_ne by done. by eexists.
  - intros q [d Hd]. unfold created. cbn [th set_schedule m_schedule insert_chroutine set_chroutines_sched chroutines_sched].
    intros [Hq|Hq%list_elem_of_singleton]%elem_of_app; [done|]. unfold obj in Hd. congruence.
  - intros i Hi. unfold get_chroutine, created. simpl. by rewrite lookup_insert_ne by lia.
  - simpl. lia.
  - intros q d Hd Hq. left. unfold created. simpl. mem.
Qed.

Lemma evolves_map_at i s : 0 < i <= ms_chroutine_id (hp s) → wf_cell s → evolves s (snd (map_at i s)).
Proof.
  intros Hi Hs. pose proof (map_at_wf i s Hi Hs) as Hs'. unfold map_at in *.
  destruct (chroutines_map (sch s) !! i) eqn:Hi'; [by apply evolves_refl|]. split; auto; [| |simpl; lia].
  - intros q d'. unfold obj. simpl_cell. intros ->. reflexivity.
  - intros j _. unfold get_chroutine. simpl. destruct (decide (i = j)) as [->|Hne].
    + by rewrite lookup_insert_eq.
    + by rewrite lookup_insert_ne.
Qed.

Lemma evolves_yield_over p res s : wf_cell s → evolves s (snd (yield_over_at p res s)).
Proof.
  intros Hs. unfold yield_over_at. destruct (obj p s) as [c|] eqn:Hc; [|by apply evolves_refl].
  assert (Hk : kept c (snd (fst (yield_over res c (rps (hp s)))))).
  { unfold yield_over, kept, obj_ok. case_if; simpl; intuition. }
  destruct (yield_over res c (rps (hp s))) as [[t c'] rs]. simpl in *.
  eapply evolves_trans; [by apply (evolves_insert p c c')|]. apply evolves_upd_rps.
  apply upd_chs_wf; [|done]. apply (same_ids_insert _ _ c); [done|apply Hk].
Qed.

Lemma evolves_son_finished p s : wf_cell s → evolves s (son_finished_at p s).
Proof.
  intros Hs. unfold son_finished_at. destruct (obj p s) as [c|] eqn:Hc; [|by apply evolves_refl]. simpl.
  eapply evolves_trans; [apply (evolves_insert p c); [done..|]|apply evolves_upd_rps].
  - unfold kept, obj_ok. simpl. tauto.
  - apply upd_chs_wf; [|done]. by apply (same_ids_insert _ _ c).
Qed.

Lemma evolves_awake i s : wf_cell s → evolves s (snd (awake_chroutine i s)).
Proof.
  intros Hs. unfold awake_chroutine. destruct (get_chroutine i s) as [p|]; [|by apply evolves_refl].
  pose proof (evolves_yield_over p result_done s Hs) as He.
  destruct (yield_over_at p result_done s) as [t s1]. simpl in *.
  eapply evolves_trans; [exact He|]. apply evolves_remove, (ev_wf _ _ He).
Qed.

Lemma evolves_create_son f r s :
  wf_cell s → (∀ q c, obj q s = Some c → obj_ok c) → evolves s (snd (create_son_chroutine f r s)).
Proof.
  intros Hs Hobj. unfold create_son_chroutine. case_if; [by apply evolves_refl|].
  destruct (get_chroutine _ s) as [pf|] eqn:Hpf; [|by apply evolves_refl].
  destruct (get_chroutine_obj _ _ _ Hs Hpf) as (_ & cf & Hcf & _).
  rewrite (alter_insert _ _ cf) by done. set (s1 := upd_chs _ s).
  assert (He1 : evolves s s1).
  { apply (evolves_insert pf cf); [done..|]. unfold kept, obj_ok. simpl. tauto. }
  pose proof (evolves_create f (Z.of_nat r) s1 (ev_wf _ _ He1)) as He2.
  assert (Hcf1 : obj pf s1 = Some (set_reporter (Some r) cf)).
  { unfold obj, s1, upd_chs. simpl. by rewrite lookup_insert_eq. }
  destruct (create_chroutine_cases f (Z.of_nat r) s1) as [Hcr|[_ Hcr]]; rewrite Hcr in *; clear Hcr; cbn [snd] in *; cbv iota beta.
  { rewrite Z.eqb_refl. by eapply evolves_trans. }
  destruct (Z.eqb_spec (ms_chroutine_id (hp s1) + 1) INVALID_ID) as [|Hne]; [by eapply evolves_trans|].
  set (sid := ms_chroutine_id (hp s1) + 1) in *. set (s2 := created f (Z.of_nat r) s1) in *.
  assert (He12 : evolves s s2) by (by eapply evolves_trans).
  assert (Hps : map_at sid s2 = (Some (next_ptr (hp s1)), s2)).
  { unfold map_at, s2, created. simpl. by rewrite lookup_insert_eq. }
  rewrite Hps. cbn [snd].
  pose proof (wf_next_fresh s1 (ev_wf _ _ He1)) as Hfresh.
  assert (Hnp : pf ≠ next_ptr (hp s1)) by (intros Hpn; unfold obj in Hcf1; rewrite Hpn in Hcf1; congruence).
  set (cs := built_chroutine (this (th s1)) sid f (Z.of_nat r)).
  assert (Hcs : obj (next_ptr (hp s1)) s2 = Some cs).
  { unfold obj, s2, created. cbn [hp chs]. by rewrite lookup_insert_eq. }
  set (s3 := upd_chs <[next_ptr (hp s1) := set_father (running_id (sch s2)) cs]> s2).
  assert (He3 : evolves s2 s3).
  { apply (evolves_insert _ cs); [exact (ev_wf _ _ He2)|exact Hcs|]. unfold kept, obj_ok. simpl. tauto. }
  assert (Hcf3 : obj pf s3 = Some (set_reporter (Some r) cf)).
  { unfold obj, s3, s2, upd_chs, created. cbn [hp chs set_chs].
    rewrite !lookup_insert_ne by congruence. exact Hcf1. }
  assert (Heq : upd_chs (λ h, alter (set_son sid) pf (alter (set_father (running_id (sch s2))) (next_ptr (hp s1)) h)) s2
    = upd_chs <[pf := set_son sid (set_reporter (Some r) cf)]> s3).
  { rewrite <- (alter_insert _ _ _ _ Hcf3). unfold s3. by rewrite <- (alter_insert _ _ _ _ Hcs). }
  rewrite Heq. eapply evolves_trans; [exact He12|]. eapply evolves_trans; [exact He3|].
  apply (evolves_insert _ (set_reporter (Some r) cf)); [exact (ev_wf _ _ He3)|done|].
  pose proof (wf_id_range _ _ _ _ (proj1 Hs) pf cf Hcf) as Hrange.
  assert (Hms : ms_chroutine_id (hp s1) = ms_chroutine_id (hp s)) by done.
  unfold kept, obj_ok. simpl. unfold sid. intuition lia.
Qed.

Lemma evolves_new_reporter d s : wf_cell s → evolves s (new_reporter d s).
Proof.
  intros Hs. split; auto; try (simpl; lia).
  - destruct Hs as [[Hf Hr Hsc Hnd Hm Hk Hi Hfr] Hms]. split; [|done]. split; simpl; try done.
    intros p Hp%Hf. lia.
  - intros q d' Hq. change (obj q s = Some d') in Hq. rewrite Hq. reflexivity.
Qed.

(** ** Suspending and returning *)

Lemma upd_th_ok f s r : m_schedule (f (th s)) = m_schedule (th s) → cfg_ok (s, r) → cfg_ok (upd_th f s, r).
Proof.
  intros Hf [Hwf Hobj Hsusp Hrun]; simpl in *. split; simpl; [by apply upd_th_wf|done| |].
  - intros p c. simpl. rewrite Hf. apply Hsusp.
  - rewrite Hf. destruct r; [|done]. unfold run_ok, get_chroutine in *. simpl in *. by rewrite Hf.
Qed.

Lemma run_id_range s p : cfg_ok (s, Some p) → 0 < running_id (sch s) <= ms_chroutine_id (hp s).
Proof.
  intros [Hwf _ _ (c & Hc & Hi & _)]; simpl in *. rewrite Hi. by apply (wf_id_range _ _ _ _ (proj1 Hwf) p).
Qed.

(** The running object is the one its id looks up, unless it was removed. *)
Lemma running_get s p q :
  cfg_ok (s, Some p) → get_chroutine (running_id (sch s)) s = Some q → q = p.
Proof.
  intros [Hwf _ _ (c & Hc & Hi & _ & _ & _ & Hown)] Hg; simpl in *.
  destruct (get_chroutine_obj _ _ _ Hwf Hg) as (Hq & d & Hd & Hme).
  destruct Hown as [Hp|[_ Hno]]; [|congruence].
  apply (wf_id_inj (proj1 Hwf) q p d c); [done..|congruence].
Qed.

(** The two outcomes of a yield, wait or sleep of the running coroutine: it is
    suspended, or, when it had been removed, the call returns at once. *)
Lemma suspend_current_cases f s p c :
  cfg_ok (s, Some p) → obj p s = Some c →
  (p ∈ chroutines_sched (sch s) ∧
   suspend_current f s = (upd_sch (set_running_id INVALID_ID) (upd_chs <[p := f c]> s), true)) ∨
  ((p ∉ chroutines_sched (sch s)) ∧ suspend_current f s = (snd (map_at (running_id (sch s)) s), false)).
Proof.
  intros Hok Hc. pose proof (run_id_range s p Hok) as Hrg. pose proof (ok_run _ Hok) as (d & Hd & Hi & Hst & _ & _ & Hown).
  simpl in *. simplify_eq. unfold suspend_current.
  destruct (Z.eqb_spec (running_id (sch s)) INVALID_ID) as [E|_]; [unfold INVALID_ID in E; lia|].
  destruct Hown as [Hp|[Hf Hg]].
  - left. split; [done|]. assert (Hm : map_at (running_id (sch s)) s = (Some p, s)).
    { rewrite Hi. pose proof (get_chroutine_sched p c s (ok_wf _ Hok) Hp Hc) as Hg.
      unfold map_at, get_chroutine in *. destruct (chroutines_map (sch s) !! me c); [by subst|done]. }
    rewrite Hm. unfold running_at. by rewrite Hc, bool_decide_eq_true_2.
  - right. destruct (wf_free _ _ _ _ (proj1 (ok_wf _ Hok)) p Hf) as [Hns _]. split; [done|].
    rewrite Hi, <- (map_at_fst (me c) s) in *. destruct (map_at (me c) s) as [co s1]. simpl in *. by subst.
Qed.

Lemma suspend_current_ok f s p s' sw :
  (∀ c, me (f c) = me c ∧ son (f c) = son c ∧ state (f c) = chroutine_state_suspend ∧
        (0 <= yield_wait c → 0 <= yield_wait (f c))) →
  cfg_ok (s, Some p) → suspend_current f s = (s', sw) →
  cfg_ok (s', if sw then None else Some p).
Proof.
  intros Hf Hok Hs. pose proof (ok_run _ Hok) as (c & Hc & Hi & Hst & _). simpl in *.
  destruct (suspend_current_cases f s p c Hok Hc) as [[Hp E]|[Hp E]]; rewrite E in Hs; simplify_eq.
  - destruct (Hf c) as (Hme & Hson & Hst' & Hyw). destruct Hok as [Hwf Hobj Hsusp Hrun]; simpl in *.
    assert (Ho : ∀ q d, obj q (upd_sch (set_running_id INVALID_ID) (upd_chs <[p:=f c]> s)) = Some d →
                 q = p ∧ d = f c ∨ q ≠ p ∧ obj q s = Some d).
    { intros q d. unfold obj, upd_sch, upd_chs. cbn [hp chs set_chs].
      intros [[<- <-]|[? ?]]%lookup_insert_Some; auto. }
    split; simpl; [| | |done].
    + apply set_running_id_wf, upd_chs_wf; [|done]. by apply (same_ids_insert _ _ c).
    + intros q d [[_ ->]|[_ Hd]]%Ho; [|eauto]. destruct (Hobj p c Hc) as [? ?]. unfold obj_ok. rewrite Hson, Hme. auto.
    + intros q d Hq [[_ ->]|[Hne Hd]]%Ho _; [by rewrite Hst'|]. apply (Hsusp q d Hq Hd). congruence.
  - apply (evolves_ok s); [done|]. apply evolves_map_at; [by apply (run_id_range s p)|apply Hok].
Qed.

Lemma do_call_ok c s p s' sw :
  cfg_ok (s, Some p) → do_call c s = (s', sw) → cfg_ok (s', if sw then None else Some p).
Proof.
  intros Hok Hc. pose proof (ok_wf _ Hok) as Hwf. pose proof (ok_obj _ Hok) as Hobj. simpl in *.
  destruct c as [tick|now ms|now ms|f a|f rep|id|d]; simpl in Hc.
  - unfold thread_yield in Hc. rewrite yield_current_eq in Hc. case_if_in Hc; simplify_eq; [done|]. bool_to_prop.
    refine (suspend_current_ok _ _ _ _ _ _ Hok Hc). intros c. simpl. split_and!; [done..|lia].
  - unfold thread_wait in Hc. rewrite wait_current_eq in Hc. case_if_in Hc; simplify_eq; [done|].
    refine (suspend_current_ok _ _ _ _ _ _ Hok Hc). intros c. simpl. split_and!; [done..|lia].
  - unfold thread_sleep in Hc. rewrite wait_current_eq in Hc. case_if_in Hc; simplify_eq; [done|].
    refine (suspend_current_ok _ _ _ _ _ _ Hok Hc). intros c. simpl. split_and!; [done..|lia].
  - simplify_eq. apply (evolves_ok s); [done|]. by apply evolves_create.
  - simplify_eq. apply (evolves_ok s); [done|]. by apply evolves_create_son.
  - simplify_eq. apply (evolves_ok s); [done|]. by apply evolves_awake.
  - simplify_eq. apply (evolves_ok s); [done|]. by apply evolves_new_reporter.
Qed.

(** From the main context [running_id] is invalid and no call suspends. *)
Lemma main_call_ok c s : cfg_ok (s, None) → cfg_ok (fst (do_call c s), None).
Proof.
  intros Hok. pose proof (ok_wf _ Hok) as Hwf. pose proof (ok_obj _ Hok) as Hobj.
  pose proof (ok_run _ Hok) as Hi. simpl in *.
  assert (Hs : ∀ f, suspend_current f s = (s, false)) by (intros f; unfold suspend_current; by rewrite Hi).
  destruct c as [tick|now ms|now ms|f a|f rep|id|d]; simpl.
  - unfold thread_yield. rewrite yield_current_eq, Hs. by case_if.
  - unfold thread_wait. rewrite wait_current_eq, Hs. by case_if.
  - unfold thread_sleep. rewrite wait_current_eq, Hs. by case_if.
  - apply (evolves_ok s); [done|]. by apply evolves_create.
  - apply (evolves_ok s); [done|]. by apply evolves_create_son.
  - apply (evolves_ok s); [done|]. by apply evolves_awake.
  - apply (evolves_ok s); [done|]. by apply evolves_new_reporter.
Qed.

Lemma external_ok c s r : external c = true → cfg_ok (s, r) → cfg_ok (fst (do_call c s), r).
Proof.
  intros Hc Hok. pose proof (ok_wf _ Hok) as Hwf. simpl in *. destruct c; try done; simpl;
    (apply (evolves_ok s); [done|]); auto using evolves_create, evolves_awake, evolves_new_reporter.
Qed.

Lemma entry_finish_ok s p : cfg_ok (s, Some p) → cfg_ok (entry_finish p s, None).
Proof.
  intros Hok. pose proof (ok_run _ Hok) as (c & Hc & Hi & _ & _ & _ & Hown). simpl in *.
  unfold entry_finish. rewrite Hc.
  assert (H2 : cfg_ok (upd_sch (set_running_id INVALID_ID) (remove_chroutine (me c) s), None)).
  { destruct Hok as [Hwf Hobj Hsusp Hrun]; simpl in *. split; simpl; [auto with chr| | |done].
    - intros q d. unfold obj, upd_sch. simpl. rewrite remove_chroutine_hp. apply Hobj.
    - intros q d Hq Hd _. unfold obj, upd_sch in Hd. simpl in Hd. rewrite remove_chroutine_hp in Hd.
      apply (remove_chroutine_sched _ _ _ d Hwf Hd) in Hq as [Hq Hne].
      apply (Hsusp q d Hq Hd). intros [= <-]. unfold obj in Hc. congruence. }
  cbv zeta. case_if; [exact H2|]. destruct (get_chroutine (father c) _) as [f|]; [|exact H2].
  eapply evolves_ok; [exact H2|]. apply evolves_son_finished, H2.
Qed.

Lemma step_ok x y : cfg_ok x → step x y → cfg_ok y.
Proof.
  intros Hok Hstep. destruct Hstep as [now now' s s' r n H|c s p s' sw H|s p|c s|c s r H].
  - by eapply pick_ok.
  - pose proof (do_call_ok c s p s' sw Hok H). destruct sw; [by apply upd_th_ok|done].
  - by apply upd_th_ok, entry_finish_ok.
  - by apply main_call_ok.
  - by apply external_ok.
Qed.

Lemma reachable_ok self x : reachable self x → cfg_ok x.
Proof. intros H. eapply rtc_invariant; [apply step_ok|exact H|apply init_ok]. Qed.
