(* ===== verification/Safety.v ===== *)
(** * Safety of a thread: what holds in every reachable configuration *)

From S2P Require Import Prelude Reporter Chroutine Load Thread ThreadInv Sched Run.
Local Open Scope Z_scope.

(** A finite script of the system, for concrete runs: the events of [step]. *)
Inductive event :=
  | ev_pick (now now' : Z)
  | ev_call (c : call)
  | ev_return
  | ev_external (c : call).

Definition run_event (e : event) (x : config) : option config :=
  match e, x with
  | ev_pick now now', (s, None) => let '(s', r, _) := pick_run_begin now now' s in Some (s', r)
  | ev_call c, (s, Some p) =>
      let '(s', sw) := do_call c s in Some (if sw : bool then (clear_entry_time s', None) else (s', Some p))
  | ev_call c, (s, None) => Some (fst (do_call c s), None)
  | ev_return, (s, Some p) => Some (clear_entry_time (entry_finish p s), None)
  | ev_external c, (s, r) => if external c then Some (fst (do_call c s), r) else None
  | _, _ => None
  end.

Fixpoint run_script (es : list event) (x : config) : option config :=
  match es with
  | [] => Some x
  | e :: es' => match run_event e x with Some y => run_script es' y | None => None end
  end.

Lemma run_event_step e x y : run_event e x = Some y → step x y.
Proof.
  destruct x as [s [p|]]; destruct e as [now now'|c| |c]; cbn [run_event]; intros H; simplify_eq.
  - destruct (do_call c s) as [s' sw] eqn:E. simplify_eq. by apply step_call with (c := c).
  - apply step_return.
  - destruct (external c) eqn:E; simplify_eq. by apply step_external.
  - destruct (pick_run_begin now now' s) as [[s' r] n] eqn:E. simplify_eq. by apply (step_pick now now' s s' r n).
  - apply step_main.
  - destruct (external c) eqn:E; simplify_eq. by apply step_external.
Qed.

Lemma run_script_steps es x y : run_script es x = Some y → rtc step x y.
Proof.
  revert x. induction es as [|e es IH]; intros x H; simpl in H; simplify_eq; [done|].
  destruct (run_event e x) as [z|] eqn:E; [|done]. eapply rtc_l; [by eapply run_event_step|auto].
Qed.

(** The configuration a script ends in. *)
Definition end_of (es : list event) : config := default (init 0) (run_script es (init 0)).

Definition runs (es : list event) : bool :=
  match run_script es (init 0) with Some _ => true | None => false end.

Lemma end_of_reachable es : runs es = true → reachable 0 (end_of es).
Proof.
  unfold runs, end_of. destruct (run_script es (init 0)) as [y|] eqn:E; [|done]. intros _.
  by eapply run_script_steps.
Qed.

Lemma end_of_running es r :
  runs es = true → bool_decide (snd (end_of es) = r) = true → reachable 0 (fst (end_of es), r).
Proof.
  intros H Hr. apply bool_decide_eq_true in Hr. rewrite <- Hr, <- surjective_pairing. by apply end_of_reachable.
Qed.

Lemma end_of_wf es : runs es = true → wf_cell (fst (end_of es)).
Proof. intros H. exact (ok_wf _ (reachable_ok _ _ (end_of_reachable es H))). Qed.

(** A father creates a son and waits 100 ms for it; the son runs. *)
Definition father_son : list event :=
  [ev_external (call_create (Some 1) 0); ev_pick 10 10; ev_call (call_new_reporter 5);
   ev_call (call_create_son (Some 2) 2%nat); ev_call (call_wait 20 100); ev_pick 30 30].

(** ** The containers *)

(** In every configuration of Run, where calls of other threads fall between the
    transitions of the thread and no coroutines are moved to or from it, the
    map, the list, the free list and the saved iterator of a thread refer to
    live objects and agree.  Interleave.v has this for the regions between the
    locks, where the iterator can dangle. *)
Theorem reachable_wf self s r : reachable self (s, r) → wf_cell s.
Proof. intros H. apply (reachable_ok self (s, r) H). Qed.

Lemma reachable_wf_witness :
  reachable 0 (fst (end_of father_son), snd (end_of father_son)) ∧ wf_cell (fst (end_of father_son)).
Proof.
  assert (H : reachable 0 (fst (end_of father_son), snd (end_of father_son))).
  { rewrite <- surjective_pairing. by apply end_of_reachable; vm_compute. }
  split; [exact H|]. exact (reachable_wf 0 _ _ H).
Defined.

(** In every configuration of Run in which user code runs on the stack of an
    object, that object and its stack have not been freed (even if another
    coroutine removed it from the thread meanwhile), [running_id] is its id, it
    is in state running with no yield or wait pending, and no other listed
    coroutine is in state running. *)
Theorem reachable_running self s p :
  reachable self (s, Some p) →
  ∃ c, obj p s = Some c ∧ running_id (sch s) = me c ∧ state c = chroutine_state_running ∧
       yield_wait c = 0 ∧ yield_to c = 0 ∧
       ∀ q d, q ∈ chroutines_sched (sch s) → obj q s = Some d → state d = chroutine_state_running → q = p.
Proof.
  intros H%reachable_ok. pose proof (ok_run _ H) as (c & Hc & Hi & Hst & Hw & Ht & _). simpl in *.
  exists c. split_and!; try done. intros q d Hq Hd Hs.
  destruct (decide (q = p)) as [|Hne]; [done|]. exfalso.
  apply (ok_susp _ H q d Hq Hd); [simpl; congruence|done].
Qed.

Lemma reachable_running_witness :
  snd (end_of father_son) = Some 3%nat ∧
  ∃ c, obj 3 (fst (end_of father_son)) = Some c ∧ running_id (sch (fst (end_of father_son))) = me c.
Proof.
  assert (Hr : snd (end_of father_son) = Some 3%nat) by (vm_compute; reflexivity).
  split; [exact Hr|].
  assert (H : reachable 0 (fst (end_of father_son), Some 3%nat)) by (by apply end_of_running; vm_compute).
  destruct (reachable_running 0 _ 3 H) as (c & Hc & Hi & _). by exists c.
Defined.

(** ** Lifetime of a finished coroutine *)

Lemma entry_finish_sched s p :
  cfg_ok (s, Some p) →
  is_Some (obj p (entry_finish p s)) ∧ (p ∉ chroutines_sched (sch (entry_finish p s))) ∧
  Some p ∈ chroutines_to_free (sch (entry_finish p s)).
Proof.
  intros Hok. pose proof (ok_run _ Hok) as (c & Hc & _ & _ & _ & _ & Hown). pose proof (ok_wf _ Hok) as Hwf. simpl in *.
  unfold entry_finish. rewrite Hc. set (s2 := upd_sch _ _).
  assert (H2 : is_Some (obj p s2) ∧ (p ∉ chroutines_sched (sch s2)) ∧ Some p ∈ chroutines_to_free (sch s2) ∧ wf_cell s2).
  { split_and!.
    - unfold obj, s2, upd_sch. simpl. rewrite remove_chroutine_hp. by eexists.
    - intros Hp. by apply (remove_chroutine_sched (me c) s p c Hwf Hc) in Hp as [_ ?].
    - pose proof (evolves_remove (me c) s Hwf) as He. destruct Hown as [Hp|[Hf _]]; [|by apply (ev_free _ _ He)].
      destruct (ev_own _ _ He p c Hc Hp) as [Hp'|[? _]]; [|done].
      by apply (remove_chroutine_sched (me c) s p c Hwf Hc) in Hp' as [_ ?].
    - subst s2; auto with chr. }
  clearbody s2. destruct H2 as (Ho & Hs & Hf & Hwf2). cbv zeta. case_if; [done|].
  destruct (get_chroutine (father c) s2) as [f|]; [|done].
  pose proof (evolves_son_finished f s2 Hwf2) as He. split_and!.
  - by apply (ev_alive _ _ He).
  - intros Hp. by apply (ev_sched _ _ He) in Hp.
  - by apply (ev_free _ _ He).
Qed.

(** The destructor of a finished coroutine runs in the sweep of the next
    pass and not before: returning from its function unlists the object but
    leaves it alive (the rest of [entry] still reads it), and the sweep of the
    next pass frees it. *)
Theorem finished_freed_by_next_pass self s p now now' :
  reachable self (s, Some p) →
  is_Some (obj p (entry_finish p s)) ∧
  (p ∉ chroutines_sched (sch (entry_finish p s))) ∧
  obj p (fst (fst (pick_run_begin now now' (clear_entry_time (entry_finish p s))))) = None.
Proof.
  intros H%reachable_ok. destruct (entry_finish_sched s p H) as (Ho & Hs & Hf).
  split_and!; [done..|]. pose proof (entry_finish_ok s p H) as Hok.
  set (t := clear_entry_time (entry_finish p s)) in *.
  assert (Hwf : wf_cell t) by (subst t; apply upd_th_wf; [done|apply Hok]).
  assert (Hf' : Some p ∈ chroutines_to_free (sch t)) by exact Hf.
  destruct (pick_run_begin_outcome now now' t Hwf) as [Hi|_ _|_ _|q l1 l2 c _ Hl Hc Hr _]; simpl.
  - by destruct Hi; apply (ok_run _ Hok).
  - by rewrite clear_to_free_obj, bool_decide_eq_true_2.
  - by apply after_loop_freed.
  - assert (Hq : q ∈ chroutines_sched (sch t)).
    { apply (from_iter_elem (start_iter (sch t))). rewrite Hl. mem. }
    assert (p ≠ q) by (intros ->; by apply (wf_free _ _ _ _ (proj1 Hwf)) in Hf' as [? _]).
    rewrite picked_after; [by apply after_loop_freed|done..].
Qed.

Lemma finished_freed_by_next_pass_witness :
  reachable 0 (fst (end_of father_son), Some 3%nat) ∧
  is_Some (obj 3 (entry_finish 3 (fst (end_of father_son)))).
Proof.
  assert (H : reachable 0 (fst (end_of father_son), Some 3%nat)) by (by apply end_of_running; vm_compute).
  split; [exact H|]. apply (finished_freed_by_next_pass 0 _ 3 0 0 H).
Defined.

(** ** Yields *)

(** A yield, wait or sleep of a running coroutine that is still part of
    the thread always suspends it, and the yield counter it stores is exactly
    the requested number of ticks, so it is in the range of [int] whenever the
    argument is. *)
Theorem suspends_and_counts self s p tick :
  reachable self (s, Some p) → p ∈ chroutines_sched (sch s) → 0 < tick → in_int tick →
  ∃ s' c, yield_current tick s = (s', true) ∧ obj p s' = Some c ∧
    state c = chroutine_state_suspend ∧ yield_wait c = tick ∧ in_int (yield_wait c) ∧
    running_id (sch s') = INVALID_ID ∧ chroutines_sched (sch s') = chroutines_sched (sch s).
Proof.
  intros H%reachable_ok Hp Ht Hint. pose proof (ok_run _ H) as (c & Hc & _ & _ & Hw & _). simpl in *.
  rewrite yield_current_eq. destruct (Z.leb_spec tick 0); [lia|].
  destruct (suspend_current_cases (λ c, set_yield_wait (yield_wait c + tick) (set_state chroutine_state_suspend c)) s p c H Hc)
    as [[_ ->]|[Hn _]]; [|done].
  eexists _, _. split; [done|]. unfold obj. simpl. rewrite lookup_insert_eq. split_and!; try done; simpl.
  - lia.
  - by rewrite Hw.
Qed.

Lemma suspends_and_counts_witness :
  ∃ s' c, yield_current 3 (fst (end_of father_son)) = (s', true) ∧ obj 3 s' = Some c ∧ yield_wait c = 3.
Proof.
  assert (H : reachable 0 (fst (end_of father_son), Some 3%nat)) by (by apply end_of_running; vm_compute).
  destruct (suspends_and_counts 0 _ 3 3 H) as (s' & c & ? & ? & _ & ? & _); [|lia|unfold in_int, INT_MIN, INT_MAX; lia|by exists s', c].
  by_compute.
Defined.

(** A son that awakes its own father while the father waits for it: the wake-up
    takes the son out of the thread although it is the one running. *)
Definition son_awakes_father : list event := father_son ++ [ev_call (call_awake 1)].

(** A coroutine that was removed from the thread while it was running (its
    father's wait was ended by [awake_chroutine]) can never give up the
    processor again by yielding or waiting: each such call returns at once, in
    the same context. *)
Theorem removed_running_never_suspends self s p tick now ms stop :
  reachable self (s, Some p) → (p ∉ chroutines_sched (sch s)) →
  snd (yield_current tick s) = false ∧ snd (wait_current now ms stop s) = false.
Proof.
  intros H%reachable_ok Hp. pose proof (ok_run _ H) as (c & Hc & _). simpl in *.
  assert (Hs : ∀ f, snd (suspend_current f s) = false).
  { intros f. destruct (suspend_current_cases f s p c H Hc) as [[Hq _]|[_ ->]]; done. }
  rewrite yield_current_eq, wait_current_eq. split; case_if; [done|apply Hs|done|apply Hs].
Qed.

(** The configuration is reachable: the son of [son_awakes_father] asks for a
    sleep of 10 s and keeps running. *)
Lemma removed_running_never_suspends_witness :
  reachable 0 (fst (end_of son_awakes_father), Some 3%nat) ∧
  snd (wait_current 40 10000 false (fst (end_of son_awakes_father))) = false.
Proof.
  assert (H : reachable 0 (fst (end_of son_awakes_father), Some 3%nat)) by (by apply end_of_running; vm_compute).
  split; [exact H|]. apply (removed_running_never_suspends 0 _ 3 1 40 10000 false H).
  by_compute.
Defined.
