(* ===== verification/Interleave.v ===== *)
(** * The thread at the granularity of its locks

    Run.v makes a pass of the scheduler, an [awake_chroutine] and the other
    calls one transition each.  In engin/chroutine.cpp they are sequences of
    regions under [m_chroutine_lock] with unlocked code between them, and other
    OS threads run in the gaps.  Here a transition is one such region, one
    unlocked access, or one call on a single object: a configuration has the
    point the owning OS thread has reached with its local variables ([pc_t])
    and the calls of [awake_chroutine] other threads have under way, and any of
    them may go on at any moment.

    Results: [run_is_interleaving] (the transitions of Run.v are runs of this
    system without interference), [containers_agree] and [running_alive] (what
    holds in all interleavings), [iterator_dangles], [entry_gives_up] and
    [awake_uses_freed] (what does not).

    Scope: one thread, to and from which no coroutines are moved (Migrate.v is
    about moving), before [schedule] returns (Loop.v).  Drawing an id and
    building the object of a new coroutine, which no other thread can see,
    belong to the locked insertion that follows. *)

From S2P Require Import Prelude Reporter Chroutine Load Thread ThreadInv Sched Run.
Local Open Scope Z_scope.

(** ** Configurations *)

(** Where the owning OS thread is, with its locals.  A context [k] is [None]
    for the main context and [Some p] for the stack of [p]. *)
Inductive pc_t :=
  | in_main                                     (* the loop of [schedule], [select_all] *)
  | in_user (p : nat)                           (* user code on the stack of [p] *)
  (* [pick_run_chroutine] *)
  | pick_scanned (p_c it : option nat)          (* lock released, locals [p_c] and [sched_iter] *)
  | pick_stored (p : nat)                       (* [m_schedule.sched_iter] assigned *)
  | pick_yielded (p : nat) (tmo : Z)            (* [yield_over] has returned [tmo] *)
  | pick_removed (p : nat)                      (* [remove_chroutine] has returned *)
  | pick_marked (p : nat)                       (* [p_c->state] assigned *)
  | pick_swapped (p : nat)                      (* [running_id] and the entry time set, context swapped *)
  (* [yield_current], [wait_current] *)
  | suspend_found (co : nat) (f : chroutine_t → chroutine_t)  (* lock released *)
  | suspend_written (co : nat)                  (* fields of [co] assigned *)
  (* [entry], after the function *)
  | entry_removed (p : nat)
  | entry_unset (p : nat)                       (* [running_id] assigned *)
  | entry_father (p father : nat)               (* father looked up *)
  (* [awake_chroutine] *)
  | awake_found (k : option nat) (q : nat)
  | awake_yielded (k : option nat) (t : Z)
  (* [create_son_chroutine] *)
  | son_found (k : option nat) (pfather : nat) (f : func_t) (rep : nat)
  | son_reported (k : option nat) (pfather : nat) (f : func_t) (rep : nat)
  | son_created (k : option nat) (pfather : nat) (son : Z).

(** An [awake_chroutine] another OS thread has under way. *)
Inductive awaking :=
  | away_found (q : nat)                        (* [get_chroutine] has returned [q] *)
  | away_yielded (t : Z).                       (* [yield_over] has returned [t] *)

(** [raced] is not part of the program: it records that another thread removed
    the very coroutine the local iterator of a pass pointed to between the
    release of the lock and the assignment to [m_schedule.sched_iter]. *)
Record fconfig := mk_fconfig {
  f_cell : cell;
  f_pc : pc_t;
  f_away : list awaking;
  raced : bool
}.

Definition finit (self : nat) : fconfig :=
  mk_fconfig (mk_cell heap_init (new_thread self)) in_main [] false.

(** ** The owning thread *)

Definition back_to (k : option nat) : pc_t :=
  match k with None => in_main | Some p => in_user p end.

(** The locked region of [pick_run_chroutine] when no coroutine is running:
    [None] when it returns early, else the locals [p_c] and [sched_iter].  The
    loop leaves [m_schedule.sched_iter] at [end()]. *)
Definition pick_scan (now : Z) (s : cell) : cell * option (option nat * option nat) :=
  let s1 := clear_to_free s in
  match chroutines_sched (sch s1) with
  | [] => (s1, None)
  | (_ :: _) as l =>
    let '(h, p_c, it, _) :=
      pick_loop now (from_iter (start_iter (sch s1)) l) (chs (hp s1)) None None 0 in
    (upd_sch (set_sched_iter None) (upd_chs (λ _, h) s1), Some (p_c, it))
  end.

(** The saved iterator is [end()] or points into the list. *)
Definition iter_valid (s : cell) : bool :=
  match sched_iter (sch s) with
  | None => true
  | Some p => bool_decide (p ∈ chroutines_sched (sch s))
  end.

(** A pass begins; scanning from an iterator whose element is gone is
    undefined. *)
Definition begin_pick (now : Z) (s : cell) : option (cell * pc_t) :=
  if negb (running_id (sch s) =? INVALID_ID) then Some (s, in_main)
  else if iter_valid s then
    match pick_scan now s with
    | (s', None) => Some (s', in_main)
    | (s', Some (p_c, it)) => Some (s', pick_scanned p_c it)
    end
  else None.

(** The guards and the locked region of [yield_current] and [wait_current]. *)
Definition begin_suspend (here : pc_t) (f : chroutine_t → chroutine_t) (s : cell) : cell * pc_t :=
  if running_id (sch s) =? INVALID_ID then (s, here)
  else
    let '(co, s1) := map_at (running_id (sch s)) s in
    match running_at co s1 with
    | None => (s1, here)
    | Some (p, _) => (s1, suspend_found p f)
    end.

(** What they assign to the object. *)
Definition yields (tick : Z) (c : chroutine_t) : chroutine_t :=
  set_yield_wait (yield_wait c + tick) (set_state chroutine_state_suspend c).
Definition waits (until : Z) (stop_son : bool) (c : chroutine_t) : chroutine_t :=
  set_stop_son stop_son (set_yield_to until (set_state chroutine_state_suspend c)).

(** A call of the API in the context [k], up to its first gap. *)
Definition begin_call (k : option nat) (c : call) (s : cell) : cell * pc_t :=
  match c with
  | call_yield tick =>
    if tick <=? 0 then (s, back_to k) else begin_suspend (back_to k) (yields tick) s
  | call_wait now ms =>
    if ms <=? 0 then (s, back_to k) else begin_suspend (back_to k) (waits (now + ms) true) s
  | call_sleep now ms =>
    if ms <=? 0 then (s, back_to k) else begin_suspend (back_to k) (waits (now + ms) false) s
  | call_create f a => (snd (create_chroutine f a s), back_to k)
  | call_create_son f rep =>
    if thread_state_code (m_state (th s)) >? thread_state_code thread_state_t_running
    then (s, back_to k)
    else match get_chroutine (running_id (sch s)) s with
         | None => (s, back_to k)
         | Some pfather => (s, son_found k pfather f rep)
         end
  | call_awake id =>
    match get_chroutine id s with
    | None => (s, back_to k)
    | Some q => (s, awake_found k q)
    end
  | call_new_reporter d => (new_reporter d s, back_to k)
  end.

(** The last region of [create_son_chroutine]. *)
Definition link_son (pfather : nat) (sid : Z) (s : cell) : cell :=
  let '(pson, s3) := map_at sid s in
  match pson with
  | None => s3
  | Some ps =>
    upd_chs (λ h, alter (set_son sid) pfather
                    (alter (set_father (running_id (sch s3))) ps h)) s3
  end.

(** The next transition of the owning thread inside of a call; [now] is what
    [set_entry_time] reads. *)
Definition own_step (now : Z) (s : cell) (pc : pc_t) : option (cell * pc_t) :=
  match pc with
  | in_main | in_user _ => None
  | pick_scanned p_c it =>
    Some (upd_sch (set_sched_iter it) s, match p_c with None => in_main | Some p => pick_stored p end)
  | pick_stored p => let '(tmo, s') := yield_over_at p result_timeout s in Some (s', pick_yielded p tmo)
  | pick_yielded p tmo => Some (remove_chroutine tmo s, pick_removed p)
  | pick_removed p => Some (upd_chs (alter (set_state chroutine_state_running) p) s, pick_marked p)
  | pick_marked p =>
    match obj p s with
    | None => None
    | Some c => Some (set_entry_time now (upd_sch (set_running_id (me c)) s), pick_swapped p)
    end
  | pick_swapped p => Some (s, in_user p)
  | suspend_found co f => Some (upd_chs (alter f co) s, suspend_written co)
  | suspend_written _ => Some (clear_entry_time (upd_sch (set_running_id INVALID_ID) s), in_main)
  | entry_removed p => Some (upd_sch (set_running_id INVALID_ID) s, entry_unset p)
  | entry_unset p =>
    match obj p s with
    | None => None
    | Some c =>
      if father c =? INVALID_ID then Some (clear_entry_time s, in_main)
      else match get_chroutine (father c) s with
           | None => Some (clear_entry_time s, in_main)
           | Some f => Some (s, entry_father p f)
           end
    end
  | entry_father _ f => Some (clear_entry_time (son_finished_at f s), in_main)
  | awake_found k q => let '(t, s') := yield_over_at q result_done s in Some (s', awake_yielded k t)
  | awake_yielded k t => Some (remove_chroutine t s, back_to k)
  | son_found k pf f rep => Some (upd_chs (alter (set_reporter (Some rep)) pf) s, son_reported k pf f rep)
  | son_reported k pf f rep =>
    let '(sid, s') := create_chroutine f (Z.of_nat rep) s in
    Some (s', if sid =? INVALID_ID then back_to k else son_created k pf sid)
  | son_created k pf sid => Some (link_son pf sid s, back_to k)
  end.

(** A coroutine that is resumed for the first time starts in [entry], which
    returns at once, to the main context, when [running_id] is not in the map. *)
Definition first_entry (s : cell) : cell * pc_t :=
  match entry_start s with
  | (None, s') => (clear_entry_time s', in_main)
  | (Some q, s') => (s', in_user q)
  end.

(** The function returns; [entry] goes on with its local [p_c]. *)
Definition begin_return (p : nat) (s : cell) : option (cell * pc_t) :=
  match obj p s with
  | None => None
  | Some c => Some (remove_chroutine (me c) s, entry_removed p)
  end.

(** ** The system *)

Inductive flabel :=
  | l_pick (now : Z)              (* the main loop begins a pass *)
  | l_call (c : call)             (* the code of the thread begins a call *)
  | l_return                      (* the function of the coroutine returns *)
  | l_go (now : Z)                (* the thread goes on *)
  | l_entry                       (* the picked coroutine runs for the first time *)
  | l_away (c : call)             (* another OS thread creates, or begins to awake *)
  | l_away_go (i : nat).          (* the [i]-th awake under way goes on *)

(** The element [it] is listed before and not after. *)
Definition erased (it : option nat) (s s' : cell) : bool :=
  match it with
  | None => false
  | Some q => bool_decide (q ∈ chroutines_sched (sch s)) && negb (bool_decide (q ∈ chroutines_sched (sch s')))
  end.

(** Does the removal leading from [s] to [s'] hit the local iterator? *)
Definition hits (pc : pc_t) (s s' : cell) : bool :=
  match pc with
  | pick_scanned _ it => erased it s s'
  | _ => false
  end.

(** What another thread's call does at once, and what it leaves to do. *)
Definition begin_away (c : call) (s : cell) : option (cell * list awaking) :=
  match c with
  | call_create _ _ | call_new_reporter _ => Some (fst (do_call c s), [])
  | call_awake id =>
    match get_chroutine id s with
    | None => Some (s, [])
    | Some q => Some (s, [away_found q])
    end
  | _ => None
  end.

(** An awake of another thread goes on; following a pointer to an object that
    has been freed meanwhile is undefined. *)
Definition away_step (a : awaking) (s : cell) : option (cell * list awaking) :=
  match a with
  | away_found q =>
    match obj q s with
    | None => None
    | Some _ => let '(t, s') := yield_over_at q result_done s in Some (s', [away_yielded t])
    end
  | away_yielded t => Some (remove_chroutine t s, [])
  end.

Definition with_own (x : fconfig) (r : cell * pc_t) : fconfig :=
  mk_fconfig (fst r) (snd r) (f_away x) (raced x).

Definition fstep (l : flabel) (x : fconfig) : option fconfig :=
  match l, f_pc x with
  | l_pick now, in_main => with_own x <$> begin_pick now (f_cell x)
  | l_call c, in_main => Some (with_own x (begin_call None c (f_cell x)))
  | l_call c, in_user p => Some (with_own x (begin_call (Some p) c (f_cell x)))
  | l_return, in_user p => with_own x <$> begin_return p (f_cell x)
  | l_go now, pc => with_own x <$> own_step now (f_cell x) pc
  | l_entry, pick_swapped _ => Some (with_own x (first_entry (f_cell x)))
  | l_away c, pc =>
    match begin_away c (f_cell x) with
    | None => None
    | Some (s', more) => Some (mk_fconfig s' pc (f_away x ++ more) (raced x))
    end
  | l_away_go i, pc =>
    match f_away x !! i with
    | None => None
    | Some a =>
      match away_step a (f_cell x) with
      | None => None
      | Some (s', more) =>
        Some (mk_fconfig s' pc (take i (f_away x) ++ more ++ drop (S i) (f_away x))
                (raced x || hits pc (f_cell x) s'))
      end
    end
  | _, _ => None
  end.

Definition fstep_rel (x y : fconfig) : Prop := ∃ l, fstep l x = Some y.
Definition freachable (self : nat) (x : fconfig) : Prop := rtc fstep_rel (finit self) x.

(** Finite runs, for concrete interleavings. *)
Fixpoint frun (ls : list flabel) (x : fconfig) : option fconfig :=
  match ls with
  | [] => Some x
  | l :: ls' => match fstep l x with Some y => frun ls' y | None => None end
  end.

Lemma frun_steps ls x y : frun ls x = Some y → rtc fstep_rel x y.
Proof.
  revert x. induction ls as [|l ls IH]; intros x H; simpl in H; simplify_eq; [done|].
  destruct (fstep l x) as [z|] eqn:E; [|done]. eapply rtc_l; [by exists l|auto].
Qed.

Lemma frun_app ls ls' x y : frun ls x = Some y → frun (ls ++ ls') x = frun ls' y.
Proof.
  revert x. induction ls as [|l ls IH]; intros x H; simpl in *; simplify_eq; [done|].
  destruct (fstep l x) as [z|]; [auto|done].
Qed.

Definition fend_of (ls : list flabel) : fconfig := default (finit 0) (frun ls (finit 0)).
Definition fruns (ls : list flabel) : bool :=
  match frun ls (finit 0) with Some _ => true | None => false end.

Lemma fend_of_reachable ls : fruns ls = true → freachable 0 (fend_of ls).
Proof.
  unfold fruns, fend_of. destruct (frun ls (finit 0)) as [y|] eqn:E; [|done]. intros _.
  by eapply frun_steps.
Qed.

(** ** The invariant *)

(** The object a pass has picked: its wait is over, and it is owned by the
    thread, if only by the free list because it has been removed meanwhile. *)
Definition held (Q : chroutine_t → Prop) (s : cell) (p : nat) : Prop :=
  ∃ c, obj p s = Some c ∧ yield_wait c = 0 ∧ Q c ∧
    (p ∈ chroutines_sched (sch s) ∨
     Some p ∈ chroutines_to_free (sch s) ∧ get_chroutine (me c) s = None).

Definition unset (s : cell) : Prop := running_id (sch s) = INVALID_ID.

(** In the main context [running_id] is unset, or the id of a coroutine that
    was removed before it first ran. *)
Definition idle (s : cell) : Prop :=
  unset s ∨ (0 < running_id (sch s) <= ms_chroutine_id (hp s) ∧ get_chroutine (running_id (sch s)) s = None).

Definition ctx_ok (s : cell) (k : option nat) : Prop :=
  match k with None => idle s | Some p => run_ok s p end.

Definition suspends (f : chroutine_t → chroutine_t) : Prop :=
  ∀ c, me (f c) = me c ∧ son (f c) = son c ∧ state (f c) = chroutine_state_suspend ∧
       (0 <= yield_wait c → 0 <= yield_wait (f c)).

Definition pc_ok (s : cell) (pc : pc_t) : Prop :=
  match pc with
  | in_main => idle s
  | in_user p | pick_swapped p => run_ok s p
  | pick_scanned None _ => unset s
  | pick_scanned (Some p) _ | pick_stored p => unset s ∧ held (λ _, True) s p
  | pick_yielded p _ | pick_removed p => unset s ∧ held (λ c, yield_to c = 0) s p
  | pick_marked p => unset s ∧ held (λ c, yield_to c = 0 ∧ state c = chroutine_state_running) s p
  | suspend_found co f => run_ok s co ∧ suspends f
  | suspend_written co => is_Some (obj co s)
  | entry_removed p => run_ok s p ∧ p ∉ chroutines_sched (sch s)
  | entry_unset p => unset s ∧ is_Some (obj p s)
  | entry_father p f => unset s ∧ is_Some (obj p s) ∧ is_Some (obj f s)
  | awake_found k q => ctx_ok s k ∧ is_Some (obj q s)
  | awake_yielded k _ => ctx_ok s k
  | son_found k pf _ _ | son_reported k pf _ _ => ctx_ok s k ∧ is_Some (obj pf s)
  | son_created k pf sid => ctx_ok s k ∧ 0 < sid <= ms_chroutine_id (hp s) ∧ ∃ c, obj pf s = Some c ∧ me c < sid
  end.

(** The listed object that may be in state running. *)
Definition active (pc : pc_t) : option nat :=
  match pc with
  | in_user p | pick_swapped p | pick_marked p | suspend_found p _ => Some p
  | awake_found k _ | awake_yielded k _ | son_found k _ _ _ | son_reported k _ _ _ | son_created k _ _ => k
  | _ => None
  end.

Definition susp_ok (s : cell) (a : option nat) : Prop :=
  ∀ p c, p ∈ chroutines_sched (sch s) → obj p s = Some c → a ≠ Some p → state c ≠ chroutine_state_running.

Record inv (s : cell) (pc : pc_t) : Prop := {
  inv_wf : wf_cell s;
  inv_obj : ∀ p c, obj p s = Some c → obj_ok c;
  inv_susp : susp_ok s (active pc);
  inv_pc : pc_ok s pc
}.

(** What other threads, and calls that do not suspend, do keeps it. *)
Section evolves.
Context (s s' : cell) (He : evolves s s').

Lemma evolves_unset : unset s → unset s'.
Proof. unfold unset. by rewrite (ev_run _ _ He). Qed.

Lemma evolves_held (Q : chroutine_t → Prop) p :
  wf_cell s → (∀ c d, kept c d → Q c → Q d) → held Q s p → held Q s' p.
Proof.
  intros Hs HQ (c & Hc & Hw & Hq & Hown). destruct (ev_alive _ _ He p) as [d Hd]; [by rewrite Hc|].
  pose proof (ev_obj _ _ He p d Hd) as Hk. rewrite Hc in Hk. pose proof Hk as (Hme & _ & Hyw & _ & _).
  exists d. split_and!; [done|congruence|by apply (HQ c)|]. rewrite Hme.
  destruct Hown as [Hown|[Hf Hg]]; [by apply (ev_own _ _ He)|]. right.
  split; [by apply (ev_free _ _ He)|]. apply (ev_get _ _ He); [|done]. by apply (wf_id_range _ _ _ _ (proj1 Hs) p).
Qed.

Lemma evolves_run_ok p : wf_cell s → run_ok s p → run_ok s' p.
Proof.
  intros Hs (c & Hc & Hi & Hst & Hw & Ht & Hown).
  destruct (evolves_held (λ d, me d = running_id (sch s) ∧ state d = chroutine_state_running ∧ yield_to d = 0) p)
    as (d & Hd & Hdw & (Hdi & Hds & Hdt) & Hdo).
  - done.
  - intros c1 d1 (Hm & Hs1 & _ & Ht1 & _) (H1 & H2 & H3). rewrite Hm, Hs1. auto.
  - by exists c.
  - exists d. rewrite (ev_run _ _ He). by split_and!.
Qed.

Lemma evolves_idle : idle s → idle s'.
Proof.
  intros [H|[Hr Hg]]; [left; by apply evolves_unset|]. right. unfold idle in *. rewrite (ev_run _ _ He).
  pose proof (ev_ms _ _ He). split; [lia|]. apply (ev_get _ _ He); [lia|done].
Qed.

Lemma evolves_ctx_ok k : wf_cell s → ctx_ok s k → ctx_ok s' k.
Proof. destruct k; simpl; [apply evolves_run_ok|intros _; apply evolves_idle]. Qed.

Lemma evolves_obj_older (p : nat) (i : Z) :
  (∃ c, obj p s = Some c ∧ me c < i) → ∃ c, obj p s' = Some c ∧ me c < i.
Proof.
  intros (c & Hc & Hi). destruct (ev_alive _ _ He p) as [d Hd]; [by rewrite Hc|].
  pose proof (ev_obj _ _ He p d Hd) as Hk. rewrite Hc in Hk. destruct Hk as (Hme & _). exists d. by rewrite Hme.
Qed.

Lemma evolves_pc_ok pc : wf_cell s → pc_ok s pc → pc_ok s' pc.
Proof.
  intros Hs. pose proof (ev_alive _ _ He) as Ha. pose proof (ev_ms _ _ He) as Hms.
  assert (Hk : ∀ c d, kept c d → (yield_to c = 0 ∧ state c = chroutine_state_running) →
                yield_to d = 0 ∧ state d = chroutine_state_running).
  { intros c d (_ & Hst & _ & Ht & _) [? ?]. rewrite Hst. auto. }
  assert (Ht : ∀ c d, kept c d → yield_to c = 0 → yield_to d = 0) by (intros c d (_ & _ & _ & ? & _); auto).
  destruct pc as [| |[]| | | | | | | | | | | | | | |]; simpl;
    repeat match goal with
    | |- _ ∧ _ → _ => intros [? ?]
    | |- _ ∧ _ => split
    end; intuition eauto using evolves_unset, evolves_held, evolves_run_ok, evolves_idle, evolves_ctx_ok, evolves_obj_older.
  - destruct H as (c & Hc & _). apply (ev_sched _ _ He) in H1; [done|by rewrite Hc].
  - lia.
Qed.

Lemma evolves_susp_ok a : susp_ok s a → susp_ok s' a.
Proof.
  intros Hsusp q d' Hq Hd' Hne. pose proof (ev_obj _ _ He q d' Hd') as O.
  destruct (obj q s) as [d|] eqn:Hd; [|tauto]. destruct O as (_ & -> & _).
  apply (Hsusp q d); [|done..]. apply (ev_sched _ _ He); [by rewrite Hd|done].
Qed.

Lemma inv_evolves pc : inv s pc → inv s' pc.
Proof.
  intros [Hwf Hobj Hsusp Hpc]. split; [apply (ev_wf _ _ He)| |by apply evolves_susp_ok|by apply evolves_pc_ok].
  intros q d' Hd'. pose proof (ev_obj _ _ He q d' Hd') as O. destruct (obj q s) eqn:Hq; [|tauto].
  destruct O as (_ & _ & _ & _ & Hk). eauto.
Qed.
End evolves.

(** ** The transitions of the owning thread keep it *)

Lemma inv_at s pc pc' : inv s pc → susp_ok s (active pc') → pc_ok s pc' → inv s pc'.
Proof. intros [] ? ?. by split. Qed.

Lemma susp_ok_weaken s a : susp_ok s None → susp_ok s a.
Proof. intros H p c Hp Hc _. by apply (H p c). Qed.

Lemma inv_main_cfg s : inv s in_main → unset s → cfg_ok (s, None).
Proof. intros [Hwf Hobj Hsusp _] Hr. by split. Qed.

Lemma cfg_inv_main s : cfg_ok (s, None) → inv s in_main.
Proof. intros [Hwf Hobj Hsusp Hr]. split; try done. by left. Qed.

(** Storing an iterator, the entry time or the running id does not touch the
    containers. *)
Lemma inv_set_iter it s pc :
  (∀ q, it = Some q → q ∈ chroutines_sched (sch s)) → inv s pc → inv (upd_sch (set_sched_iter it) s) pc.
Proof.
  intros Hit [Hwf Hobj Hsusp Hpc]. split; [by apply set_sched_iter_wf|done..|].
  destruct pc; exact Hpc.
Qed.

Lemma inv_upd_th f s pc : m_schedule (f (th s)) = m_schedule (th s) → inv s pc → inv (upd_th f s) pc.
Proof.
  intros Hf [Hwf Hobj Hsusp Hpc]. split; [by apply upd_th_wf|done| |].
  - intros p c. cbn [upd_th th]. rewrite Hf. apply Hsusp.
  - destruct pc as [| |[]| | | | | | | | | | |[]|[]|[]|[]|[]]; cbn in Hpc |- *;
      unfold idle, unset, held, run_ok, get_chroutine, obj in *; cbn [upd_th th hp]; rewrite ?Hf; exact Hpc.
Qed.


(** A pass scans. *)
Lemma scan_after_loop now s :
  wf_cell s → chroutines_sched (sch s) ≠ [] →
  ∃ p_c it, pick_scan now s = (after_loop now None s, Some (p_c, it)) ∧
    match p_c with
    | None => it = None
    | Some p => ∃ c, p ∈ chroutines_sched (sch s) ∧ obj p s = Some c ∧ ready now c = true ∧
                 ∀ q, it = Some q → q ∈ chroutines_sched (sch s)
    end.
Proof.
  intros Hs Hne. unfold pick_scan. cbv zeta.
  set (l := from_iter (start_iter (sch (clear_to_free s))) (chroutines_sched (sch (clear_to_free s)))).
  assert (Hnd : NoDup l) by (apply from_iter_NoDup; exact (wf_nodup _ _ _ _ (proj1 Hs))).
  pose proof (pick_loop_pick now l (chs (hp (clear_to_free s))) Hnd) as Hpick.
  assert (Hin : ∀ q, q ∈ l → q ∈ chroutines_sched (sch s)) by apply from_iter_elem.
  destruct (chroutines_sched (sch (clear_to_free s))) as [|p0 l0] eqn:Hl; [done|].
  fold l. unfold after_loop. cbv zeta. rewrite Hl. fold l.
  destruct (pick_loop now l (chs (hp (clear_to_free s))) None None 0) as [[[h pc] it] n] eqn:Hloop.
  exists pc, it. split; [unfold upd_chs; cbv beta; by rewrite Hloop|]. destruct pc as [p|]; [|by destruct Hpick].
  destruct Hpick as (_ & l1 & l2 & c & Hsplit & Hc & Hr & -> & _).
  assert (Hp : p ∈ chroutines_sched (sch s)) by (apply Hin; rewrite Hsplit; mem).
  exists c. split_and!; [done| |done|].
  - rewrite <- Hc. symmetry. by apply (clear_to_free_obj_sched s p).
  - intros q Hq. apply Hin. rewrite Hsplit. destruct l2; simplify_eq/=. mem.
Qed.

Lemma after_loop_ok now s : cfg_ok (s, None) → cfg_ok (after_loop now None s, None).
Proof.
  intros [Hwf Hobj Hsusp Hrun]; simpl in *. split; simpl; [by apply after_loop_wf| | |done].
  - intros p c Hc. apply (after_loop_obj _ _ _ _ _ Hwf) in Hc as (d & Hd & [->| ->]); [|apply obj_ok_aged]; eauto.
  - intros p c Hp Hc _. apply (after_loop_obj _ _ _ _ _ Hwf) in Hc as (d & Hd & [->| ->]); rewrite ?aged_state; by apply (Hsusp p).
Qed.

Lemma pick_scan_inv now s s' r :
  inv s in_main → unset s → pick_scan now s = (s', r) →
  match r with
  | None => inv s' in_main
  | Some (p_c, it) => inv s' (pick_scanned p_c it) ∧ ∀ q, it = Some q → q ∈ chroutines_sched (sch s')
  end ∧ sched_iter (sch s') = None.
Proof.
  intros Hinv Hr Hscan. pose proof (inv_main_cfg s Hinv Hr) as Hcfg. pose proof (inv_wf _ _ Hinv) as Hs.
  destruct (decide (chroutines_sched (sch s) = [])) as [Hl|Hl].
  - unfold pick_scan in Hscan. cbv zeta in Hscan. rewrite (Hl : chroutines_sched (sch (clear_to_free s)) = []) in Hscan.
    simplify_eq. split; [by apply cfg_inv_main, clear_to_free_ok|].
    destruct (sched_iter (sch s)) as [p|] eqn:Hi; [|exact Hi].
    apply (wf_iter _ _ _ _ (proj1 Hs)) in Hi. rewrite Hl in Hi. by apply elem_of_nil in Hi.
  - destruct (scan_after_loop now s Hs Hl) as (pc & it & E & Hpc). rewrite E in Hscan. simplify_eq.
    split; [|done]. pose proof (after_loop_ok now s Hcfg) as Hok.
    assert (Hinv' : inv (after_loop now None s) in_main) by by apply cfg_inv_main.
    destruct pc as [p|]; [|subst it; split; [apply (inv_at _ in_main); [done|apply Hinv'|done]|done]].
    destruct Hpc as (c & Hp & Hc & Hrd & Hit). split; [|exact Hit].
    apply (inv_at _ in_main); [done|apply Hinv'|]. split; [done|].
    exists c. apply ready_spec in Hrd as Hrd'. destruct Hrd' as (_ & Hw & _). destruct (inv_obj _ _ Hinv p c Hc) as [_ ?].
    split_and!; [by apply after_loop_obj_ready|lia|done|by left].
Qed.

(** One object changes. *)
Lemma alter_obj f p c s q :
  obj p s = Some c → obj q (upd_chs (alter f p) s) = if decide (q = p) then Some (f c) else obj q s.
Proof.
  intros Hc. rewrite (alter_insert f p c s Hc). unfold obj, upd_chs. cbn [hp chs set_chs].
  destruct (decide (q = p)) as [->|Hne]; [by rewrite lookup_insert_eq|by rewrite lookup_insert_ne].
Qed.

Lemma inv_alter f p c s pc pc' :
  inv s pc → obj p s = Some c → (∀ d, me (f d) = me d) → obj_ok (f c) →
  (active pc' = Some p ∨ state (f c) ≠ chroutine_state_running) →
  (∀ q, q ≠ p → active pc' ≠ Some q → active pc ≠ Some q) →
  pc_ok (upd_chs (alter f p) s) pc' → inv (upd_chs (alter f p) s) pc'.
Proof.
  intros [Hwf Hobj Hsusp _] Hc Hf Hok Hst Ha Hpc.
  pose proof (λ q, alter_obj f p c s q Hc) as Ho.
  split; [apply upd_chs_wf; auto with chr| | |done].
  - intros q d. rewrite Ho. case_decide; [intros; by simplify_eq|apply Hobj].
  - intros q d Hq. rewrite Ho. case_decide; subst.
    + intros [= <-] ?. by destruct Hst.
    + intros Hd Hne. apply (Hsusp q d); auto.
Qed.

Lemma yield_over_inv s p tmo s' :
  inv s (pick_stored p) → yield_over_at p result_timeout s = (tmo, s') → inv s' (pick_yielded p tmo).
Proof.
  intros Hinv E. pose proof (evolves_yield_over p result_timeout s (inv_wf _ _ Hinv)) as He. rewrite E in He. cbn [snd] in He.
  pose proof (inv_evolves s s' He _ Hinv) as Hinv'.
  apply (inv_at _ (pick_stored p)); [done|apply Hinv'|].
  destruct (inv_pc _ _ Hinv') as [Hr (c & Hc & Hw & _ & Ho)]. split; [done|]. exists c. split_and!; try done.
  destruct (inv_pc _ _ Hinv) as [_ (d & Hd & _)]. pose proof (yield_over_at_obj p result_timeout s d Hd) as Hy.
  rewrite E in Hy. cbn [snd] in Hy. rewrite Hc in Hy. simplify_eq. unfold yield_over. by case_if.
Qed.

Lemma mark_inv s p :
  inv s (pick_removed p) → inv (upd_chs (alter (set_state chroutine_state_running) p) s) (pick_marked p).
Proof.
  intros Hinv. destruct (inv_pc _ _ Hinv) as [Hr (c & Hc & Hw & Ht & Ho)].
  apply (inv_alter _ p c s (pick_removed p)); try done; [exact (inv_obj _ _ Hinv p c Hc)|by left|].
  split; [done|]. exists (set_state chroutine_state_running c). rewrite (alter_obj _ p c) by done.
  by rewrite decide_True.
Qed.

Lemma start_inv now s p c :
  inv s (pick_marked p) → obj p s = Some c →
  inv (set_entry_time now (upd_sch (set_running_id (me c)) s)) (pick_swapped p).
Proof.
  intros Hinv Hc. unfold set_entry_time. apply inv_upd_th; [done|].
  destruct (inv_pc _ _ Hinv) as [_ (d & Hd & Hw & [Ht Hst] & Ho)]. simplify_eq. destruct Hinv as [Hwf Hobj Hsusp _].
  split; [by apply set_running_id_wf|done..|]. by exists c.
Qed.

Lemma suspend_inv s co f :
  inv s (suspend_found co f) → inv (upd_chs (alter f co) s) (suspend_written co).
Proof.
  intros Hinv. destruct (inv_pc _ _ Hinv) as [(c & Hc & _) Hf]. destruct (Hf c) as (Hm & Hson & Hst & Hyw).
  apply (inv_alter _ co c s (suspend_found co f)); try done.
  - intros d. apply Hf.
  - destruct (inv_obj _ _ Hinv co c Hc) as [? ?]. unfold obj_ok. rewrite Hm, Hson. auto.
  - right. by rewrite Hst.
  - intros q Hq _. cbn. congruence.
  - exists (f c). rewrite (alter_obj _ co c) by done. by rewrite decide_True.
Qed.

(** [running_id] is unset. *)
Lemma unset_inv s pc pc' :
  inv s pc → active pc = None → active pc' = None →
  pc_ok (upd_sch (set_running_id INVALID_ID) s) pc' → inv (upd_sch (set_running_id INVALID_ID) s) pc'.
Proof.
  intros [Hwf Hobj Hsusp _] Ha Ha' Hpc. split; [by apply set_running_id_wf|done| |done].
  rewrite Ha'. rewrite Ha in Hsusp. exact Hsusp.
Qed.

Lemma return_inv s p c :
  inv s (in_user p) → obj p s = Some c → inv (remove_chroutine (me c) s) (entry_removed p).
Proof.
  intros Hinv Hc. pose proof (evolves_remove (me c) s (inv_wf _ _ Hinv)) as He.
  pose proof (inv_evolves _ _ He _ Hinv) as Hinv'.
  assert (Hp : p ∉ chroutines_sched (sch (remove_chroutine (me c) s))).
  { intros Hp. by apply (remove_chroutine_sched (me c) s p c (inv_wf _ _ Hinv) Hc) in Hp as [_ ?]. }
  apply (inv_at _ (in_user p)); [done| |by split; [apply Hinv'|]].
  intros q d Hq Hd _. apply (inv_susp _ _ Hinv' q d Hq Hd). intros [= <-]. done.
Qed.

Lemma begin_suspend_inv k f s s' pc' :
  inv s (back_to k) → suspends f → begin_suspend (back_to k) f s = (s', pc') → inv s' pc'.
Proof.
  intros Hinv Hf. unfold begin_suspend. destruct (Z.eqb_spec (running_id (sch s)) INVALID_ID) as [|Hr]; [intros; by simplify_eq|].
  assert (Hrange : 0 < running_id (sch s) <= ms_chroutine_id (hp s)).
  { pose proof (inv_pc _ _ Hinv) as Hpc. destruct k as [p|]; simpl in Hpc.
    - destruct Hpc as (c & Hc & -> & _). by apply (wf_id_range _ _ _ _ (proj1 (inv_wf _ _ Hinv)) p).
    - by destruct Hpc as [?|[? _]]. }
  pose proof (evolves_map_at _ s Hrange (inv_wf _ _ Hinv)) as He. pose proof (map_at_fst (running_id (sch s)) s) as Hg.
  destruct (map_at (running_id (sch s)) s) as [co s1]. cbn [fst snd] in *.
  pose proof (inv_evolves _ _ He _ Hinv) as Hinv1.
  destruct (running_at co s1) as [[q c]|] eqn:Hra; [|intros; by simplify_eq].
  apply running_at_Some in Hra as (-> & Hc & Hst). intros [= <- <-]. symmetry in Hg.
  destruct (get_chroutine_obj _ _ _ (inv_wf _ _ Hinv) Hg) as (Hq & d & Hd & Hmd).
  destruct k as [p|]; simpl in *.
  - destruct (inv_pc _ _ Hinv) as (c0 & Hc0 & Hi & _ & _ & _ & Hown).
    assert (q = p) as ->.
    { destruct Hown as [Hp|[_ Hno]]; [|congruence].
      apply (wf_id_inj (proj1 (inv_wf _ _ Hinv)) q p d c0); [done..|congruence]. }
    apply (inv_at _ (in_user p)); [done|apply Hinv1|]. by split; [apply Hinv1|].
  - destruct (inv_pc _ _ Hinv) as [?|[_ Hno]]; [done|congruence].
Qed.

Lemma evolves_alter f p s :
  wf_cell s → (∀ c, obj p s = Some c → kept c (f c)) → evolves s (upd_chs (alter f p) s).
Proof.
  intros Hs Hf. destruct (obj p s) as [c|] eqn:Hc.
  - rewrite (alter_insert f p c s Hc). apply (evolves_insert p c); auto.
  - assert (upd_chs (alter f p) s = s) as ->; [|by apply evolves_refl].
    destruct s as [[h rp np ms] t]. unfold upd_chs, set_chs, obj in *. cbn in *. repeat f_equal.
    apply map_eq. intros q. destruct (decide (q = p)) as [->|]; [by rewrite lookup_alter_eq, Hc|by rewrite lookup_alter_ne].
Qed.

Lemma evolves_link_son pf sid s :
  wf_cell s → 0 < sid <= ms_chroutine_id (hp s) → (∃ c, obj pf s = Some c ∧ me c < sid) →
  evolves s (link_son pf sid s).
Proof.
  intros Hs Hsid (c & Hc & Hlt). unfold link_son. pose proof (evolves_map_at sid s Hsid Hs) as He.
  destruct (map_at sid s) as [[ps|] s3]; [|done]. cbn [snd] in He.
  eapply evolves_trans; [exact He|].
  set (s4 := upd_chs (alter (set_father (running_id (sch s3))) ps) s3).
  assert (He4 : evolves s3 s4).
  { apply evolves_alter; [apply He|]. intros d _. unfold kept, obj_ok. simpl. tauto. }
  eapply evolves_trans; [exact He4|]. apply (evolves_alter (set_son sid) pf s4); [apply He4|].
  intros d Hd. destruct (evolves_obj_older s s4 (evolves_trans _ _ _ He He4) pf sid) as (d' & Hd' & Hlt').
  { by exists c. }
  simplify_eq. unfold kept, obj_ok. simpl. tauto.
Qed.

Lemma back_to_pc k s : pc_ok s (back_to k) ↔ ctx_ok s k.
Proof. by destruct k. Qed.

Lemma back_to_active k : active (back_to k) = k.
Proof. by destruct k. Qed.

Lemma suspends_yields tick : 0 <= tick → suspends (yields tick).
Proof. intros Ht c. simpl. split_and!; [done..|lia]. Qed.

Lemma suspends_waits u b : suspends (waits u b).
Proof. intros c. simpl. by split_and!. Qed.

Lemma begin_call_inv k c s s' pc' :
  inv s (back_to k) → begin_call k c s = (s', pc') → inv s' pc'.
Proof.
  intros Hinv Hc. pose proof (inv_wf _ _ Hinv) as Hs. pose proof (inv_pc _ _ Hinv) as Hpc. rewrite back_to_pc in Hpc.
  pose proof (inv_susp _ _ Hinv) as Hsu. rewrite back_to_active in Hsu.
  destruct c as [tick|now ms|now ms|f a|f rep|id|d]; simpl in Hc.
  - case_if_in Hc; simplify_eq; [done|]. bool_to_prop. refine (begin_suspend_inv k _ _ _ _ Hinv _ Hc).
    apply suspends_yields. lia.
  - case_if_in Hc; simplify_eq; [done|]. refine (begin_suspend_inv k _ _ _ _ Hinv _ Hc). apply suspends_waits.
  - case_if_in Hc; simplify_eq; [done|]. refine (begin_suspend_inv k _ _ _ _ Hinv _ Hc). apply suspends_waits.
  - simplify_eq. eapply inv_evolves; [by apply evolves_create|done].
  - case_if_in Hc; simplify_eq; [done|]. destruct (get_chroutine (running_id (sch s)) s) as [pf|] eqn:Hg; simplify_eq; [|done].
    destruct (get_chroutine_obj _ _ _ Hs Hg) as (_ & cf & Hcf & _).
    apply (inv_at _ (back_to k)); [done..|]. split; [done|by exists cf].
  - destruct (get_chroutine id s) as [q|] eqn:Hg; simplify_eq; [|done].
    destruct (get_chroutine_obj _ _ _ Hs Hg) as (_ & c & Hc & _).
    apply (inv_at _ (back_to k)); [done..|]. split; [done|by exists c].
  - simplify_eq. eapply inv_evolves; [by apply evolves_new_reporter|done].
Qed.

(** [create_son_chroutine] between its regions. *)
Lemma son_step_inv k pf f rep s sid s' :
  inv s (son_reported k pf f rep) → create_chroutine f (Z.of_nat rep) s = (sid, s') →
  inv s' (if sid =? INVALID_ID then back_to k else son_created k pf sid).
Proof.
  intros Hinv E. pose proof (inv_wf _ _ Hinv) as Hs. destruct (inv_pc _ _ Hinv) as [_ [c Hc]].
  pose proof (evolves_create f (Z.of_nat rep) s Hs) as He. rewrite E in He. cbn [snd] in He.
  pose proof (inv_evolves _ _ He _ Hinv) as Hinv'. pose proof (inv_pc _ _ Hinv') as [Hk' [c' Hc']].
  destruct (Z.eqb_spec sid INVALID_ID) as [|Hne].
  - apply (inv_at _ (son_reported k pf f rep)); [done| |by rewrite back_to_pc].
    rewrite back_to_active. apply Hinv'.
  - apply (inv_at _ (son_reported k pf f rep)); [done|apply Hinv'|]. split; [done|].
    pose proof (ev_obj _ _ He pf c' Hc') as Hk. rewrite Hc in Hk. destruct Hk as (Hme & _).
    pose proof (wf_id_range _ _ _ _ (proj1 Hs) pf c Hc) as Hrange.
    destruct (create_chroutine_cases f (Z.of_nat rep) s) as [E'|[_ E']]; rewrite E in E'; simplify_eq.
    split; [simpl; lia|]. exists c'. split; [done|lia].
Qed.

(** Every transition of the owning thread inside of a call. *)
Lemma own_step_inv now s pc s' pc' :
  inv s pc → own_step now s pc = Some (s', pc') →
  (∀ p_c q, pc = pick_scanned p_c (Some q) → q ∈ chroutines_sched (sch s)) → inv s' pc'.
Proof.
  intros Hinv Hgo Hit. pose proof (inv_wf _ _ Hinv) as Hs. pose proof (inv_pc _ _ Hinv) as Hpc.
  destruct pc as [|p|p_c it|p|p tmo|p|p|p|co f|co|p|p|p f|k q|k t|k pf f rep|k pf f rep|k pf sid]; simpl in Hgo; simplify_eq.
  - apply inv_set_iter; [intros q ->; by apply (Hit p_c)|]. apply (inv_at _ (pick_scanned p_c it)); [done|by destruct p_c; apply Hinv|].
    destruct p_c; [done|by left].
  - destruct (yield_over_at p result_timeout s) as [tmo s1] eqn:E. simplify_eq. by apply (yield_over_inv s).
  - apply (inv_evolves s _ (evolves_remove tmo s Hs) (pick_removed p)).
    by apply (inv_at _ (pick_yielded p tmo)); [|apply Hinv|].
  - by apply mark_inv.
  - destruct (obj p s) as [c|] eqn:Hc; [|done]. simplify_eq. by apply start_inv.
  - by apply (inv_at _ (pick_swapped p)); [|apply Hinv|].
  - by apply suspend_inv.
  - unfold clear_entry_time. apply inv_upd_th; [done|]. apply (unset_inv s (suspend_written co)); try done. by left.
  - apply (unset_inv s (entry_removed p)); try done. destruct Hpc as [(c & Hc & _) _]. split; [done|by exists c].
  - assert (Hmain : inv (clear_entry_time s) in_main).
    { unfold clear_entry_time. apply inv_upd_th; [done|]. apply (inv_at _ (entry_unset p)); [done|apply Hinv|left; apply Hpc]. }
    destruct (obj p s) as [c|] eqn:Hc; [|done]. case_if_in Hgo; simplify_eq; [done|].
    destruct (get_chroutine (father c) s) as [f|] eqn:Hg; simplify_eq; [|done].
    apply (inv_at _ (entry_unset p)); [done|apply Hinv|]. split; [apply Hpc|]. split; [by exists c|].
    destruct (get_chroutine_obj _ _ _ Hs Hg) as (_ & d & Hd & _). by exists d.
  - unfold clear_entry_time. apply inv_upd_th; [done|].
    apply (inv_evolves s _ (evolves_son_finished f s Hs) in_main).
    apply (inv_at _ (entry_father p f)); [done|apply Hinv|left; apply Hpc].
  - pose proof (evolves_yield_over q result_done s Hs) as He. destruct (yield_over_at q result_done s) as [t s1]. simplify_eq.
    cbn [snd] in He. pose proof (inv_evolves _ _ He _ Hinv) as Hinv'.
    apply (inv_at _ (awake_found k q)); [done|apply Hinv'|]. by destruct (inv_pc _ _ Hinv').
  - pose proof (inv_evolves _ _ (evolves_remove t s Hs) _ Hinv) as Hinv'.
    apply (inv_at _ (awake_yielded k t)); [done|rewrite back_to_active; apply Hinv'|rewrite back_to_pc; apply Hinv'].
  - apply (inv_evolves s _) with (pc := son_reported k pf f rep).
    + apply evolves_alter; [done|]. intros d _. unfold kept, obj_ok. simpl. tauto.
    + by apply (inv_at _ (son_found k pf f rep)); [|apply Hinv|].
  - destruct (create_chroutine f (Z.of_nat rep) s) as [sid s1] eqn:E. simplify_eq. by apply (son_step_inv k pf f rep s).
  - destruct Hpc as (Hk & Hsid & Hold). pose proof (evolves_link_son pf sid s Hs Hsid Hold) as He.
    pose proof (inv_evolves _ _ He _ Hinv) as Hinv'. destruct (inv_pc _ _ Hinv') as [Hk' _].
    apply (inv_at _ (son_created k pf sid)); [done|rewrite back_to_active; apply Hinv'|by rewrite back_to_pc].
Qed.

(** The first entry: a coroutine that was removed before it ran gives up. *)
Lemma first_entry_inv p s s' pc' :
  inv s (pick_swapped p) → first_entry s = (s', pc') → inv s' pc'.
Proof.
  intros Hinv. pose proof (inv_wf _ _ Hinv) as Hs. destruct (inv_pc _ _ Hinv) as (c & Hc & Hi & Hst & Hw & Ht & Ho).
  unfold first_entry, entry_start. destruct (get_chroutine (running_id (sch s)) s) as [q|] eqn:Hg; intros ?; simplify_eq.
  - assert (q = p) as ->.
    { destruct (get_chroutine_obj _ _ _ Hs Hg) as (Hq & d & Hd & Hmd). destruct Ho as [Hp|[_ Hno]]; [|congruence].
      apply (wf_id_inj (proj1 Hs) q p d c); [done..|congruence]. }
    apply (inv_evolves s _) with (pc := in_user p).
    + apply evolves_alter; [done|]. intros d Hd. simplify_eq. unfold kept, obj_ok. simpl. by split_and!.
    + apply (inv_at _ (pick_swapped p)); [done|apply Hinv|exact (inv_pc _ _ Hinv)].
  - unfold clear_entry_time. apply inv_upd_th; [done|]. apply (inv_at _ (pick_swapped p)); [done| |].
    + intros q d Hq Hd _. apply (inv_susp _ _ Hinv q d Hq Hd). intros [= <-]. simplify_eq.
      rewrite Hi, (get_chroutine_sched p c s Hs Hq Hc) in Hg. done.
    + right. split; [|done]. rewrite Hi. by apply (wf_id_range _ _ _ _ (proj1 Hs) p).
Qed.

(** ** Without the saved iterator *)

(** Between two passes of the loop nothing reads the saved iterator, so a
    transition acts on the rest of the thread as if it were at [end()]. *)
Definition without_iter (s : cell) : cell := upd_sch (set_sched_iter None) s.

Lemma with_iter s : s = upd_sch (set_sched_iter (sched_iter (sch s))) (without_iter s).
Proof. by destruct s as [h [? [] ? ? ? ? ? ? ? ? ?]]. Qed.

Lemma inv_with_iter s pc : inv (without_iter s) pc → iter_valid s = true → inv s pc.
Proof.
  intros Hinv Hit. rewrite (with_iter s). apply inv_set_iter; [|done].
  unfold iter_valid in Hit. intros q Hq. rewrite Hq in Hit. by bool_to_prop.
Qed.

Lemma inv_without_iter s pc : inv s pc → inv (without_iter s) pc.
Proof. by apply inv_set_iter. Qed.

Lemma iter_valid_wf s : wf_cell s → iter_valid s = true.
Proof.
  intros Hs. unfold iter_valid. destruct (sched_iter (sch s)) as [p|] eqn:Hi; [|done].
  apply bool_decide_eq_true. by apply (wf_iter _ _ _ _ (proj1 Hs)).
Qed.

Ltac split_cell s :=
  destruct s as [[hchs hrps hnp hms] [? [sri smap ssched sfree sit] ? ? ? ? ? ? ? ? ?]].

Lemma remove_without_iter i s : without_iter (remove_chroutine i (without_iter s)) = without_iter (remove_chroutine i s).
Proof.
  split_cell s. unfold remove_chroutine, without_iter, upd_sch. cbn. destruct (smap !! i); [|done].
  by destruct (erase_id _ _ _) as [[]|].
Qed.

Lemma yield_over_without_iter p res s :
  yield_over_at p res (without_iter s) =
  (fst (yield_over_at p res s), without_iter (snd (yield_over_at p res s))).
Proof.
  split_cell s. unfold yield_over_at, without_iter, obj. cbn. destruct (hchs !! p); [|done].
  by destruct (yield_over _ _ _) as [[]?].
Qed.

Lemma create_without_iter f a s :
  create_chroutine f a (without_iter s) =
  (fst (create_chroutine f a s), without_iter (snd (create_chroutine f a s))).
Proof. split_cell s. unfold create_chroutine, without_iter. cbn. case_if; [done|]. by destruct f. Qed.

Lemma map_at_without_iter i s :
  map_at i (without_iter s) = (fst (map_at i s), without_iter (snd (map_at i s))).
Proof. split_cell s. unfold map_at, without_iter. cbn. by destruct (smap !! i). Qed.

Lemma son_finished_without_iter p s : son_finished_at p (without_iter s) = without_iter (son_finished_at p s).
Proof. split_cell s. unfold son_finished_at, without_iter, obj. cbn. by destruct (hchs !! p). Qed.

Lemma link_son_without_iter pf i s : link_son pf i (without_iter s) = without_iter (link_son pf i s).
Proof.
  unfold link_son. rewrite map_at_without_iter. destruct (map_at i s) as [[ps|] s']; [|done]. by split_cell s'.
Qed.

Lemma begin_call_without_iter k c s s' pc' :
  begin_call k c s = (s', pc') → begin_call k c (without_iter s) = (without_iter s', pc').
Proof.
  intros Hc.
  assert (Hsusp : ∀ f, begin_suspend (back_to k) f s = (s', pc') →
    begin_suspend (back_to k) f (without_iter s) = (without_iter s', pc')).
  { intros f. unfold begin_suspend. change (running_id (sch (without_iter s))) with (running_id (sch s)).
    case_if; [intros; by simplify_eq|]. rewrite map_at_without_iter.
    destruct (map_at (running_id (sch s)) s) as [co s1]. cbn [fst snd].
    change (running_at co (without_iter s1)) with (running_at co s1).
    destruct (running_at co s1) as [[]|]; intros; by simplify_eq. }
  destruct c as [tick|now ms|now ms|f a|f rep|id|d]; cbn [begin_call] in *.
  1-3: case_if; [by simplify_eq|auto].
  - simplify_eq. by rewrite create_without_iter.
  - change (m_state (th (without_iter s))) with (m_state (th s)). case_if; [by simplify_eq|].
    change (get_chroutine (running_id (sch (without_iter s))) (without_iter s)) with (get_chroutine (running_id (sch s)) s).
    destruct (get_chroutine _ s); by simplify_eq.
  - change (get_chroutine id (without_iter s)) with (get_chroutine id s). destruct (get_chroutine id s); by simplify_eq.
  - by simplify_eq.
Qed.

Lemma own_step_without_iter now s pc s' pc' :
  own_step now s pc = Some (s', pc') →
  ∃ t, own_step now (without_iter s) pc = Some (t, pc') ∧ without_iter t = without_iter s'.
Proof.
  destruct pc as [|p|p_c it|p|p tmo|p|p|p|co f|co|p|p|p f|k q|k t|k pf f rep|k pf f rep|k pf sid]; cbn [own_step]; intros H; simplify_eq; try by eexists.
  - rewrite yield_over_without_iter. destruct (yield_over_at _ _ _). simplify_eq. by eexists.
  - eexists. split; [done|apply remove_without_iter].
  - change (obj p (without_iter s)) with (obj p s). destruct (obj p s); simplify_eq. by eexists.
  - change (obj p (without_iter s)) with (obj p s). destruct (obj p s) as [c|]; [|done]. case_if; [simplify_eq; by eexists|].
    change (get_chroutine (father c) (without_iter s)) with (get_chroutine (father c) s).
    destruct (get_chroutine (father c) s); simplify_eq; by eexists.
  - rewrite son_finished_without_iter. by eexists.
  - rewrite yield_over_without_iter. destruct (yield_over_at _ _ _). simplify_eq. by eexists.
  - eexists. split; [done|apply remove_without_iter].
  - rewrite create_without_iter. destruct (create_chroutine _ _ s). simplify_eq. by eexists.
  - rewrite link_son_without_iter. by eexists.
Qed.

(** ** The invariant of the system *)

(** The local iterator of a pass between its lock and the assignment. *)
Definition local_iter_valid (s : cell) (pc : pc_t) : Prop :=
  ∀ p_c q, pc = pick_scanned p_c (Some q) → q ∈ chroutines_sched (sch s).

Record finv (x : fconfig) : Prop := {
  fi_inv : inv (without_iter (f_cell x)) (f_pc x);
  fi_iter : raced x = false → iter_valid (f_cell x) = true ∧ local_iter_valid (f_cell x) (f_pc x)
}.

Definition scanned (pc : pc_t) : bool := match pc with pick_scanned _ _ => true | _ => false end.

Lemma finv_intro s pc aw b s' pc' :
  (inv (without_iter s) pc → inv (without_iter s') pc') → (inv s pc → inv s' pc') → scanned pc' = false →
  finv (mk_fconfig s pc aw b) → finv (mk_fconfig s' pc' aw b).
Proof.
  intros Hw Hf Hsc [Hinv Hit]; cbn in *. split; cbn; [auto|]. intros Hb. destruct (Hit Hb) as [Hi _].
  split; [|by intros ? ? ->]. apply iter_valid_wf. by apply Hf, inv_with_iter.
Qed.

Lemma own_step_unscanned now s pc s' pc' : own_step now s pc = Some (s', pc') → scanned pc' = false.
Proof.
  destruct pc as [| |[]| | | | | | | | | | |[]|[]|[]|[]|[]]; simpl; intros; repeat case_match; by simplify_eq/=.
Qed.

Lemma begin_call_unscanned k c s s' pc' : begin_call k c s = (s', pc') → scanned pc' = false.
Proof.
  intros H. assert (scanned (back_to k) = false) by (by destruct k).
  destruct c; unfold begin_call, begin_suspend in H; repeat case_match; by simplify_eq/=.
Qed.

Lemma own_step_finv now x r : finv x → own_step now (f_cell x) (f_pc x) = Some r → finv (with_own x r).
Proof.
  destruct x as [s pc aw b], r as [s' pc']. intros Hx Hgo. cbn in Hgo. pose proof (own_step_unscanned _ _ _ _ _ Hgo) as Hu.
  unfold with_own. cbn. destruct (scanned pc) eqn:Hsc.
  - destruct pc as [| |p_c it| | | | | | | | | | | | | | |]; try done. destruct Hx as [Hinv Hit]; cbn in *. simplify_eq.
    split; cbn.
    + apply (inv_at _ (pick_scanned p_c it)); [exact Hinv|destruct p_c; apply Hinv|].
      pose proof (inv_pc _ _ Hinv) as Hp. destruct p_c; [exact Hp|by left].
    + intros Hb. destruct (Hit Hb) as [_ Hl]. split; [|destruct p_c; by intros ? ?].
      unfold iter_valid. cbn. destruct it as [q|]; [|done]. apply bool_decide_eq_true. by eapply Hl.
  - assert (Hno : ∀ t p_c q, pc = pick_scanned p_c (Some q) → q ∈ chroutines_sched (sch t)) by (by intros ? ? ? ->).
    apply (finv_intro s pc); [|intros Hinv; exact (own_step_inv now s pc s' pc' Hinv Hgo (Hno s))|done|done].
    intros Hinv. destruct (own_step_without_iter _ _ _ _ _ Hgo) as (t & Ht & <-).
    apply inv_without_iter. exact (own_step_inv now _ pc t pc' Hinv Ht (Hno _)).
Qed.

Lemma begin_call_finv k c x r :
  f_pc x = back_to k → finv x → begin_call k c (f_cell x) = r → finv (with_own x r).
Proof.
  destruct x as [s pc aw b], r as [s' pc']. cbn. intros -> Hx Hgo.
  apply (finv_intro s (back_to k)); [|intros Hinv; by apply (begin_call_inv k c s)|by apply (begin_call_unscanned k c s s')|done].
  intros Hinv. apply (begin_call_inv k c (without_iter s)); [done|]. by apply begin_call_without_iter.
Qed.

Lemma begin_pick_finv now x r :
  f_pc x = in_main → finv x → begin_pick now (f_cell x) = Some r → finv (with_own x r).
Proof.
  destruct x as [s pc aw b]. cbn. intros -> Hx. unfold begin_pick.
  destruct (Z.eqb_spec (running_id (sch s)) INVALID_ID) as [Hi|]; simpl; [|intros; by simplify_eq].
  destruct (iter_valid s) eqn:Hv; [|done]. pose proof (inv_with_iter _ _ (fi_inv _ Hx) Hv) as Hinv. cbn in Hinv.
  destruct (pick_scan now s) as [s' o] eqn:Hscan. pose proof (pick_scan_inv now s s' o Hinv Hi Hscan) as [Ho Hnone].
  assert (Hv' : iter_valid s' = true) by (unfold iter_valid; by rewrite Hnone).
  destruct o as [[p_c it]|]; intros ?; simplify_eq; unfold with_own; cbn.
  - destruct Ho as [Ho Hit]. split; cbn; [by apply inv_without_iter|]. intros _. split; [done|].
    intros p' q [= _ ->]. by apply Hit.
  - split; cbn; [by apply inv_without_iter|]. intros _. by split.
Qed.

Lemma begin_return_finv p x r :
  f_pc x = in_user p → finv x → begin_return p (f_cell x) = Some r → finv (with_own x r).
Proof.
  destruct x as [s pc aw b]. cbn. intros -> Hx. unfold begin_return.
  destruct (obj p s) as [c|] eqn:Hc; [|done]. intros ?; simplify_eq. unfold with_own. cbn [fst snd f_away raced].
  apply (finv_intro s (in_user p)); [|intros; by apply return_inv|done|done].
  intros Hinv. rewrite <- remove_without_iter. by apply inv_without_iter, return_inv.
Qed.

Lemma first_entry_finv p x : f_pc x = pick_swapped p → finv x → finv (with_own x (first_entry (f_cell x))).
Proof.
  destruct x as [s pc aw b]. cbn. intros -> Hx. destruct (first_entry s) as [s' pc'] eqn:E.
  assert (E' : first_entry (without_iter s) = (without_iter s', pc')).
  { unfold first_entry, entry_start in *. change (get_chroutine _ (without_iter s)) with (get_chroutine (running_id (sch s)) s).
    destruct (get_chroutine _ s); by simplify_eq. }
  apply (finv_intro s (pick_swapped p)); [intros; by apply (first_entry_inv p (without_iter s))|
    intros; by apply (first_entry_inv p s)| |done].
  unfold first_entry, entry_start in E. destruct (get_chroutine _ s); by simplify_eq.
Qed.

(** Other threads. *)
Lemma away_finv (o : cell → cell) s pc aw aw' b b' :
  (∀ t, wf_cell t → evolves t (o t)) → without_iter (o (without_iter s)) = without_iter (o s) →
  (b' = false → b = false ∧ ∀ p_c q, pc = pick_scanned p_c (Some q) →
    q ∈ chroutines_sched (sch s) → q ∈ chroutines_sched (sch (o s))) →
  finv (mk_fconfig s pc aw b) → finv (mk_fconfig (o s) pc aw' b').
Proof.
  intros He Hw Hb [Hinv Hit]; cbn in *. split; cbn.
  - rewrite <- Hw. apply inv_without_iter. eapply inv_evolves; [apply He, Hinv|done].
  - intros Hb'. destruct (Hb Hb') as [-> Hl]. destruct (Hit eq_refl) as [Hv Hp]. split.
    + apply iter_valid_wf. apply He. by apply (inv_wf _ pc), inv_with_iter.
    + intros p_c q Hq. apply (Hl p_c q Hq). by apply (Hp p_c).
Qed.

Lemma begin_away_finv c x s' more :
  finv x → begin_away c (f_cell x) = Some (s', more) →
  finv (mk_fconfig s' (f_pc x) (f_away x ++ more) (raced x)).
Proof.
  destruct x as [s pc aw b]. cbn. intros Hx. destruct c as [| | |f a| |id|d]; cbn [begin_away]; intros H; simplify_eq.
  - apply (away_finv (λ t, snd (create_chroutine f a t)) s pc aw _ b); [intros; by apply evolves_create|by rewrite create_without_iter| |done].
    intros ->. split; [done|]. intros _ q _ Hq. destruct (create_chroutine_cases f a s) as [->|[_ ->]]; [done|]. simpl. mem.
  - destruct (get_chroutine id s); simplify_eq;
      (apply (away_finv (λ t, t) _ pc aw _ b); [intros; by apply evolves_refl|done|by intros ->|done]).
  - apply (away_finv (new_reporter d) s pc aw _ b); [intros; by apply evolves_new_reporter|done|by intros ->|done].
Qed.

Lemma away_step_finv a x s' more aw :
  finv x → away_step a (f_cell x) = Some (s', more) →
  finv (mk_fconfig s' (f_pc x) aw (raced x || hits (f_pc x) (f_cell x) s')).
Proof.
  destruct x as [s pc aw0 b]. cbn. intros Hx. destruct a as [q|t]; simpl; intros H.
  - destruct (obj q s); [|done]. destruct (yield_over_at q result_done s) as [t s1] eqn:E. simplify_eq.
    assert (s' = snd (yield_over_at q result_done s)) as -> by (by rewrite E).
    apply (away_finv (λ t, snd (yield_over_at q result_done t)) s pc aw0 _ b); [intros; by apply evolves_yield_over|
      by rewrite yield_over_without_iter| |done].
    intros Hb%orb_false_iff. split; [tauto|]. intros _ r _. by rewrite yield_over_at_sch.
  - simplify_eq. apply (away_finv (remove_chroutine t) s pc aw0 _ b); [intros; by apply evolves_remove|
      apply remove_without_iter| |done].
    intros [Hb Hh]%orb_false_iff. split; [done|]. intros p_c q -> Hq. simpl in Hh.
    rewrite bool_decide_eq_true_2 in Hh by done. simpl in Hh. by bool_to_prop.
Qed.

Lemma fstep_finv l x y : finv x → fstep l x = Some y → finv y.
Proof.
  intros Hx Hl. assert (Hsome : ∀ o, with_own x <$> o = Some y → ∃ r, o = Some r ∧ y = with_own x r).
  { intros [r|] ?; simplify_eq/=. by exists r. }
  destruct l as [now|c| |now| |c|i]; cbn [fstep] in Hl.
  - destruct (f_pc x) eqn:Hpc; try done. destruct (Hsome _ Hl) as (r & Hr & ->). by apply (begin_pick_finv now).
  - destruct (f_pc x) eqn:Hpc; simplify_eq; [by apply (begin_call_finv None c)|by apply (begin_call_finv (Some p) c)].
  - destruct (f_pc x) eqn:Hpc; try done. destruct (Hsome _ Hl) as (r & Hr & ->). by apply (begin_return_finv p).
  - destruct (Hsome _ Hl) as (r & Hr & ->). by apply (own_step_finv now).
  - destruct (f_pc x) eqn:Hpc; simplify_eq. by apply (first_entry_finv p).
  - destruct (begin_away c (f_cell x)) as [[s' more]|] eqn:E; simplify_eq.
    by apply (begin_away_finv c x s' more).
  - destruct (f_away x !! i) as [a|]; [|done]. destruct (away_step a (f_cell x)) as [[s' more]|] eqn:E; simplify_eq.
    by apply (away_step_finv a x s' more).
Qed.

Lemma finit_finv self : finv (finit self).
Proof.
  split; cbn; [|by split]. apply inv_without_iter, cfg_inv_main, (init_ok self).
Qed.

Lemma freachable_finv self x : freachable self x → finv x.
Proof.
  intros H. eapply rtc_invariant; [|exact H|apply finit_finv]. intros y z Hy [l Hl]. by eapply fstep_finv.
Qed.

(** ** The transitions of Run.v *)

Definition at_rest (x : config) : fconfig := mk_fconfig (fst x) (back_to (snd x)) [] false.

Lemma suspend_simulated f s p c0 s' sw :
  begin_call (Some p) c0 s = begin_suspend (in_user p) f s → suspend_current f s = (s', sw) →
  rtc fstep_rel (mk_fconfig s (in_user p) [] false)
    (at_rest (if sw then (clear_entry_time s', None) else (s', Some p))).
Proof.
  intros Hb Hs. assert (H1 : fstep (l_call c0) (mk_fconfig s (in_user p) [] false)
    = Some (with_own (mk_fconfig s (in_user p) [] false) (begin_suspend (in_user p) f s))) by (cbn [fstep f_pc f_cell]; by rewrite Hb).
  eapply rtc_l; [by eexists|]. unfold suspend_current, begin_suspend in *. case_if; [by simplify_eq|].
  destruct (map_at (running_id (sch s)) s) as [co s1]. destruct (running_at co s1) as [[q c]|] eqn:Hra; [|by simplify_eq].
  apply running_at_Some in Hra as (_ & Hc & _). simplify_eq.
  apply (frun_steps [l_go 0; l_go 0]). unfold with_own, at_rest. cbn [frun fstep f_pc f_cell own_step fst snd fmap option_fmap option_map f_away raced with_own].
  by rewrite (alter_insert f q c s1 Hc).
Qed.

Lemma pick_simulated now now' s s' r n :
  cfg_ok (s, None) → pick_run_begin now now' s = (s', r, n) →
  rtc fstep_rel (at_rest (s, None)) (at_rest (s', r)).
Proof.
  intros Hok Hpick. pose proof (ok_run _ Hok) as Hr. simpl in Hr. pose proof (ok_wf _ Hok) as Hwf. simpl in Hwf.
  assert (H1 : fstep (l_pick now) (at_rest (s, None)) = with_own (at_rest (s, None)) <$>
    match pick_scan now s with (t, None) => Some (t, in_main) | (t, Some (p_c, it)) => Some (t, pick_scanned p_c it) end).
  { cbn [fstep at_rest f_pc back_to fst snd f_cell]. unfold begin_pick.
    rewrite Hr, iter_valid_wf by done. reflexivity. }
  pose proof (pick_ok _ _ _ _ _ _ Hok Hpick) as Hok'. unfold pick_run_begin in Hpick. rewrite Hr in Hpick. change (negb (INVALID_ID =? INVALID_ID)) with false in Hpick. unfold pick_scan in H1. cbv zeta in *.
  destruct (chroutines_sched (sch (clear_to_free s))) as [|p0 l0]; [simplify_eq; apply rtc_once; exists (l_pick now); exact H1|].
  destruct (pick_loop _ _ _ _ _ _) as [[[h [p|]] it] m]; cycle 1.
  { simplify_eq. eapply rtc_l; [by exists (l_pick now)|]. by apply (frun_steps [l_go 0]). }
  eapply rtc_l; [by exists (l_pick now)|]. cbn [fmap option_fmap option_map].
  set (s2 := upd_sch (set_sched_iter it) (upd_chs (λ _, h) (clear_to_free s))) in *.
  eapply rtc_l; [by exists (l_go 0)|]. unfold with_own at 1. cbn [fst snd f_away raced f_cell].
  change (upd_sch (set_sched_iter it) _) with s2.
  destruct (yield_over_at p result_timeout s2) as [tmo s3] eqn:Hy.
  eapply rtc_l; [exists (l_go 0); cbn [fstep f_pc f_cell own_step]; rewrite Hy; done|].
  eapply rtc_l; [by exists (l_go 0)|]. eapply rtc_l; [by exists (l_go 0)|].
  unfold with_own. cbn [fmap option_fmap option_map fst snd f_away raced f_cell].
  destruct (obj p (upd_chs (alter (set_state chroutine_state_running) p) (remove_chroutine tmo s3))) as [c|] eqn:Hc; cycle 1.
  { simplify_eq. destruct (ok_run _ Hok') as (c & Hc' & _). by pose proof (eq_trans (eq_sym Hc) Hc'). }
  simplify_eq. eapply rtc_l; [exists (l_go now'); cbn [fstep f_pc f_cell own_step]; by rewrite Hc|].
  by apply (frun_steps [l_go 0]).
Qed.

Lemma awake_simulated k id s :
  rtc fstep_rel (mk_fconfig s (back_to k) [] false) (mk_fconfig (snd (awake_chroutine id s)) (back_to k) [] false).
Proof.
  assert (Hl : fstep (l_call (call_awake id)) (mk_fconfig s (back_to k) [] false)
    = Some (with_own (mk_fconfig s (back_to k) [] false) (begin_call k (call_awake id) s))) by (by destruct k).
  eapply rtc_l; [by eexists|]. unfold awake_chroutine. cbn [begin_call].
  destruct (get_chroutine id s) as [q|]; [|done]. unfold with_own. cbn [fst snd f_away raced].
  destruct (yield_over_at q result_done s) as [t s1] eqn:Hy.
  eapply rtc_l; [exists (l_go 0); cbn [fstep f_pc f_cell own_step]; rewrite Hy; done|].
  by apply (frun_steps [l_go 0]).
Qed.

Lemma create_son_simulated k f rep s :
  rtc fstep_rel (mk_fconfig s (back_to k) [] false)
    (mk_fconfig (snd (create_son_chroutine f rep s)) (back_to k) [] false).
Proof.
  assert (Hl : fstep (l_call (call_create_son f rep)) (mk_fconfig s (back_to k) [] false)
    = Some (with_own (mk_fconfig s (back_to k) [] false) (begin_call k (call_create_son f rep) s))) by (by destruct k).
  eapply rtc_l; [by eexists|]. unfold create_son_chroutine. cbn [begin_call].
  case_if; [done|]. destruct (get_chroutine (running_id (sch s)) s) as [pf|]; [|done].
  unfold with_own. cbn [fst snd f_away raced]. eapply rtc_l; [by exists (l_go 0)|].
  unfold with_own. cbn [fst snd f_away raced f_cell]. set (s1 := upd_chs _ s).
  destruct (create_chroutine f (Z.of_nat rep) s1) as [sid s2] eqn:Hc.
  eapply rtc_l; [exists (l_go 0); cbn [fstep f_pc f_cell own_step]; rewrite Hc; done|].
  unfold with_own. cbn [fst snd f_away raced f_cell]. case_if; [done|].
  apply (frun_steps [l_go 0]). cbn [frun fstep f_pc f_cell own_step fmap option_fmap option_map]. unfold with_own, link_son.
  cbn [fst snd f_away raced f_cell]. by destruct (map_at sid s2) as [[ps|] s3].
Qed.

Lemma call_simulated c s p s' sw :
  do_call c s = (s', sw) →
  rtc fstep_rel (at_rest (s, Some p)) (at_rest (if sw then (clear_entry_time s', None) else (s', Some p))).
Proof.
  intros Hc. unfold at_rest at 1. cbn [fst snd back_to].
  assert (Hdone : ∀ c0, begin_call (Some p) c0 s = (s', in_user p) →
    rtc fstep_rel (mk_fconfig s (in_user p) [] false) (mk_fconfig s' (in_user p) [] false)).
  { intros c0 H. apply (frun_steps [l_call c0]). cbn [frun fstep f_pc f_cell]. by rewrite H. }
  destruct c as [tick|now ms|now ms|f a|f rep|id|d]; cbn [do_call] in Hc.
  - unfold thread_yield in Hc. rewrite yield_current_eq in Hc. destruct (tick <=? 0) eqn:E; simplify_eq.
    + apply (Hdone (call_yield tick)). cbn. by rewrite E.
    + apply (suspend_simulated (yields tick) _ _ (call_yield tick)); [cbn; by rewrite E|done].
  - unfold thread_wait in Hc. rewrite wait_current_eq in Hc. destruct (ms <=? 0) eqn:E; simplify_eq.
    + apply (Hdone (call_wait now ms)). cbn. by rewrite E.
    + apply (suspend_simulated (waits (now + ms) true) _ _ (call_wait now ms)); [cbn; by rewrite E|done].
  - unfold thread_sleep in Hc. rewrite wait_current_eq in Hc. destruct (ms <=? 0) eqn:E; simplify_eq.
    + apply (Hdone (call_sleep now ms)). cbn. by rewrite E.
    + apply (suspend_simulated (waits (now + ms) false) _ _ (call_sleep now ms)); [cbn; by rewrite E|done].
  - simplify_eq. by apply (Hdone (call_create f a)).
  - simplify_eq. apply (create_son_simulated (Some p)).
  - simplify_eq. apply (awake_simulated (Some p)).
  - simplify_eq. by apply (Hdone (call_new_reporter d)).
Qed.

(** In the main context nothing suspends. *)
Lemma main_call_simulated c s :
  cfg_ok (s, None) → rtc fstep_rel (at_rest (s, None)) (at_rest (fst (do_call c s), None)).
Proof.
  intros Hok. pose proof (ok_run _ Hok) as Hr. cbn in Hr. unfold at_rest. cbn [fst snd back_to].
  assert (Hdone : ∀ c0 s', begin_call None c0 s = (s', in_main) →
    rtc fstep_rel (mk_fconfig s in_main [] false) (mk_fconfig s' in_main [] false)).
  { intros c0 s' H. apply (frun_steps [l_call c0]). cbn [frun fstep f_pc f_cell]. by rewrite H. }
  assert (Hs : ∀ f, suspend_current f s = (s, false)) by (intros f; unfold suspend_current; by rewrite Hr).
  assert (Hb : ∀ f, begin_suspend in_main f s = (s, in_main)) by (intros f; unfold begin_suspend; by rewrite Hr).
  destruct c as [tick|now ms|now ms|f a|f rep|id|d]; cbn [do_call fst].
  - unfold thread_yield. rewrite yield_current_eq, Hs. by case_if.
  - unfold thread_wait. rewrite wait_current_eq, Hs. by case_if.
  - unfold thread_sleep. rewrite wait_current_eq, Hs. by case_if.
  - by apply (Hdone (call_create f a)).
  - apply (create_son_simulated None).
  - apply (awake_simulated None).
  - by apply (Hdone (call_new_reporter d)).
Qed.

Lemma return_simulated s p :
  cfg_ok (s, Some p) → rtc fstep_rel (at_rest (s, Some p)) (at_rest (clear_entry_time (entry_finish p s), None)).
Proof.
  intros Hok. destruct (ok_run _ Hok) as (c & Hc & _). cbn in Hc. unfold entry_finish. rewrite Hc. unfold at_rest. cbn [fst snd back_to].
  set (s1 := remove_chroutine (me c) s).
  assert (Hc1 : obj p (upd_sch (set_running_id INVALID_ID) s1) = Some c).
  { unfold obj, s1, upd_sch. cbn. by rewrite remove_chroutine_hp. }
  eapply rtc_l; [exists l_return; cbn [fstep f_pc f_cell]; unfold begin_return; rewrite Hc; done|].
  eapply rtc_l; [by exists (l_go 0)|]. unfold with_own. cbn [fst snd f_away raced f_cell]. fold s1.
  assert (Hgo : own_step 0 (upd_sch (set_running_id INVALID_ID) s1) (entry_unset p) =
    Some (if father c =? INVALID_ID then (clear_entry_time (upd_sch (set_running_id INVALID_ID) s1), in_main)
          else match get_chroutine (father c) (upd_sch (set_running_id INVALID_ID) s1) with
               | None => (clear_entry_time (upd_sch (set_running_id INVALID_ID) s1), in_main)
               | Some f => (upd_sch (set_running_id INVALID_ID) s1, entry_father p f)
               end)).
  { cbn [own_step]. rewrite Hc1. case_if; [done|]. by destruct (get_chroutine _ _). }
  eapply rtc_l; [exists (l_go 0); cbn [fstep f_pc f_cell]; rewrite Hgo; done|].
  unfold with_own. case_if; [done|]. destruct (get_chroutine (father c) _) as [f|]; [|done].
  by apply (frun_steps [l_go 0]).
Qed.

Lemma external_simulated c s r :
  cfg_ok (s, r) → external c = true → rtc fstep_rel (at_rest (s, r)) (at_rest (fst (do_call c s), r)).
Proof.
  intros Hok Hc. unfold at_rest. cbn [fst snd].
  destruct c as [| | |f a| |id|d]; try done; [by apply (frun_steps [l_away (call_create f a)])| |
    by apply (frun_steps [l_away (call_new_reporter d)])].
  cbn [do_call fst]. unfold awake_chroutine.
  assert (Hh : ∀ s1 s2, hits (back_to r) s1 s2 = false) by (by destruct r).
  destruct (get_chroutine id s) as [q|] eqn:Hg.
  2:{ apply (frun_steps [l_away (call_awake id)]). cbn [frun fstep f_cell f_pc begin_away]. by rewrite Hg. }
  eapply rtc_l; [exists (l_away (call_awake id)); cbn [fstep f_cell f_pc begin_away]; rewrite Hg; done|].
  cbn [f_away raced app].
  destruct (get_chroutine_obj _ _ _ (ok_wf _ Hok) Hg) as (_ & d & Hd & _). cbn [fst] in Hd.
  destruct (yield_over_at q result_done s) as [t s1] eqn:Hy.
  eapply rtc_l; [exists (l_away_go 0); cbn [fstep f_cell f_pc f_away lookup list_lookup away_step]; rewrite Hd, Hy; done|].
  cbn [take app drop f_away raced f_cell]. rewrite Hh. cbn [snd].
  eapply rtc_l; [exists (l_away_go 0); done|]. cbn [take app drop f_away raced f_cell f_pc]. by rewrite Hh.
Qed.

(** A transition of Run.v is a run of this system in which no other thread
    interferes. *)
Lemma step_simulated x y : cfg_ok x → step x y → rtc fstep_rel (at_rest x) (at_rest y).
Proof.
  intros Hok Hstep. destruct Hstep as [now now' s s' r n H|c s p s' sw H|s p|c s|c s r H].
  - by apply (pick_simulated now now' s s' r n).
  - by apply (call_simulated c s p).
  - by apply return_simulated.
  - by apply main_call_simulated.
  - by apply external_simulated.
Qed.

Lemma steps_simulated x y : cfg_ok x → rtc step x y → rtc fstep_rel (at_rest x) (at_rest y).
Proof.
  intros Hok H. induction H as [x|x y z Hs _ IH]; [done|].
  etransitivity; [by apply step_simulated|]. apply IH. by eapply step_ok.
Qed.

(** Every configuration Run.v reaches is reached here. *)
Lemma run_is_interleaving self x : reachable self x → freachable self (at_rest x).
Proof. apply (steps_simulated (init self)), init_ok. Qed.

(** ** What holds in every interleaving *)

(** The objects the owning thread uses: the one whose stack it runs on and the
    pointers in the locals of its calls. *)
Definition pointers (pc : pc_t) : list nat :=
  match pc with
  | in_main => []
  | pick_scanned p_c _ => option_list p_c
  | in_user p | pick_stored p | pick_yielded p _ | pick_removed p | pick_marked p | pick_swapped p
  | suspend_found p _ | suspend_written p | entry_removed p | entry_unset p => [p]
  | entry_father p f => [p; f]
  | awake_found k q => option_list k ++ [q]
  | awake_yielded k _ => option_list k
  | son_found k pf _ _ | son_reported k pf _ _ | son_created k pf _ => option_list k ++ [pf]
  end.

Lemma held_alive Q s p : held Q s p → is_Some (obj p s).
Proof. intros (c & Hc & _). by exists c. Qed.

Lemma run_alive s p : run_ok s p → is_Some (obj p s).
Proof. intros (c & Hc & _). by exists c. Qed.

Lemma ctx_alive s k q : ctx_ok s k → q ∈ option_list k → is_Some (obj q s).
Proof. destruct k as [p|]; simpl; [intros ? ->%list_elem_of_singleton; by apply run_alive|intros _ []%elem_of_nil]. Qed.

Lemma pointers_alive s pc q : pc_ok s pc → q ∈ pointers pc → is_Some (obj q s).
Proof.
  destruct pc as [| |[]| | | | | | | | | | | | | | |]; simpl; intros Hpc Hq;
    repeat first [apply elem_of_app in Hq as [Hq|Hq] | apply elem_of_cons in Hq as [->|Hq] | apply elem_of_nil in Hq as []];
    repeat match goal with H : _ ∧ _ |- _ => destruct H end;
    eauto using held_alive, run_alive, ctx_alive.
  destruct H1 as (c & Hc & _). by exists c.
Qed.

(** C1: however the regions of a thread's own calls and of the calls other
    threads make on it are interleaved, the map, the list and the free list of
    the thread refer to live objects and agree: every listed object is alive
    and is what its id looks up, no object is listed twice, every non-null
    entry of the map is listed, finished objects are not listed and not yet
    freed.  The saved iterator points into the list (or is [end()]) as well,
    unless another thread has removed the coroutine the local iterator of a
    pass pointed to before the pass stored it.  This is about a thread to and
    from which no coroutines are moved, until its [schedule] ends, and about a run
    as long as nothing undefined happens in it: it may scan from the iterator that
    race leaves dangling ([iterator_dangles]), and another thread may follow a
    pointer to an object that has been freed ([awake_uses_freed]). *)
Theorem containers_agree self x :
  freachable self x →
  wf_cell (without_iter (f_cell x)) ∧
  (raced x = false → wf_cell (f_cell x) ∧ local_iter_valid (f_cell x) (f_pc x)).
Proof.
  intros H%freachable_finv. destruct H as [Hinv Hit]. split; [apply Hinv|].
  intros Hr. destruct (Hit Hr) as [Hv Hl]. split; [|done]. by apply (inv_wf _ (f_pc x)), inv_with_iter.
Qed.

(** C2: in every interleaving the objects a thread itself uses, the one on
    whose stack it runs and those its calls have pointers to, have not been
    freed, even if another thread has removed them; and while user code runs on
    the stack of an object, [running_id] is its id, it is in state running with
    no yield or wait pending, and no other listed coroutine is in state
    running.  This is about a thread to and from which no coroutines are moved
    (a moved coroutine that returns overwrites [running_id] of the thread it came
    from), until its [schedule] ends, and, as above, about runs in which nothing
    undefined has happened yet; pointers other threads hold can dangle. *)
Theorem running_alive self x :
  freachable self x →
  (∀ q, q ∈ pointers (f_pc x) → is_Some (obj q (f_cell x))) ∧
  (∀ p, f_pc x = in_user p →
   ∃ c, obj p (f_cell x) = Some c ∧ running_id (sch (f_cell x)) = me c ∧
     state c = chroutine_state_running ∧ yield_wait c = 0 ∧ yield_to c = 0 ∧
     ∀ q d, q ∈ chroutines_sched (sch (f_cell x)) → obj q (f_cell x) = Some d →
       state d = chroutine_state_running → q = p).
Proof.
  intros H%freachable_finv. pose proof (fi_inv _ H) as Hinv. pose proof (inv_pc _ _ Hinv) as Hpc. split.
  - intros q. by apply (pointers_alive (without_iter (f_cell x))).
  - intros p Hp. rewrite Hp in *. destruct Hpc as (c & Hc & Hi & Hst & Hw & Ht & _).
    exists c. split_and!; try done. intros q d Hq Hd Hs. destruct (decide (q = p)) as [|Hne]; [done|].
    exfalso. by apply (inv_susp _ _ Hinv q d Hq Hd); [simpl; congruence|].
Qed.

(** ** Concrete interleavings *)

(** A father creates a son and waits 100 ms for it, from time 20 on. *)
Definition father_waits : list flabel :=
  [l_away (call_create (Some 1) 0); l_pick 10; l_go 10; l_go 10; l_go 10; l_go 10; l_go 10; l_entry;
   l_call (call_new_reporter 5); l_call (call_create_son (Some 2) 2%nat); l_go 15; l_go 15; l_go 15;
   l_call (call_wait 20 100); l_go 20; l_go 20].

(** Another thread awakes the father, in one go. *)
Definition awaken_father : list flabel := [l_away (call_awake 1); l_away_go 0; l_away_go 0].

(** The wait times out; the pass has picked the father and not yet stored its
    iterator when the father is awakened too, so that the son is removed. *)
Definition timeout_races_awake : list flabel :=
  father_waits ++ [l_pick 200] ++ awaken_father ++ [l_go 200].

Lemma containers_agree_witness :
  freachable 0 (fend_of timeout_races_awake) ∧ wf_cell (without_iter (f_cell (fend_of timeout_races_awake))) ∧
  freachable 0 (fend_of father_waits) ∧ wf_cell (f_cell (fend_of father_waits)).
Proof.
  assert (H : freachable 0 (fend_of timeout_races_awake)) by (apply fend_of_reachable; vm_compute; reflexivity).
  assert (H' : freachable 0 (fend_of father_waits)) by (apply fend_of_reachable; vm_compute; reflexivity).
  split; [exact H|]. split; [exact (proj1 (containers_agree 0 _ H))|]. split; [exact H'|].
  apply (proj2 (containers_agree 0 _ H')). vm_compute. reflexivity.
Defined.

(** The pass goes on and resumes the father. *)
Definition father_resumed : list flabel :=
  timeout_races_awake ++ [l_go 200; l_go 200; l_go 200; l_go 200; l_go 200].

Lemma running_alive_witness :
  f_pc (fend_of father_resumed) = in_user 1 ∧
  ∃ c, obj 1 (f_cell (fend_of father_resumed)) = Some c ∧
       state c = chroutine_state_running.
Proof.
  assert (Hp : f_pc (fend_of father_resumed) = in_user 1)
    by (vm_compute; reflexivity).
  split; [exact Hp|].
  assert (H : freachable 0 (fend_of father_resumed))
    by (apply fend_of_reachable; vm_compute; reflexivity).
  destruct (proj2 (running_alive 0 _ H) 1%nat Hp) as (c & Hc & _ & Hst & _). exists c. split; [exact Hc|exact Hst].
Defined.

(** The race leaves the saved iterator on an element that is gone: the pass
    after the next suspension of the father goes on from it, which is
    undefined. *)
Lemma iterator_dangles :
  let x := fend_of (father_resumed ++ [l_call (call_yield 1); l_go 210; l_go 210]) in
  freachable 0 x ∧ raced x = true ∧ f_pc x = in_main ∧
  sched_iter (sch (f_cell x)) = Some 3%nat ∧ chroutines_sched (sch (f_cell x)) = [1%nat] ∧
  fstep (l_pick 220) x = None.
Proof.
  split; [apply fend_of_reachable; vm_compute; reflexivity|]. by vm_compute.
Qed.

Lemma busy_pick now x :
  f_pc x = in_main → running_id (sch (f_cell x)) ≠ INVALID_ID → fstep (l_pick now) x = Some x.
Proof.
  destruct x as [s pc aw b]. cbn [f_pc f_cell]. intros -> Hr. cbn [fstep f_pc f_cell]. unfold begin_pick.
  by destruct (Z.eqb_spec (running_id (sch s)) INVALID_ID).
Qed.

(** A son is removed by the awakening of its father after it was picked and
    before its first run: [entry] does not find it and returns, [running_id]
    stays set, and no pass of the thread picks a coroutine again. *)
Lemma entry_gives_up :
  let x := fend_of (father_waits ++ [l_pick 30; l_go 30; l_go 30; l_go 30; l_go 30; l_go 30] ++
                    awaken_father ++ [l_entry]) in
  freachable 0 x ∧ f_pc x = in_main ∧ running_id (sch (f_cell x)) = 2 ∧
  chroutines_sched (sch (f_cell x)) = [1%nat] ∧ ∀ now, fstep (l_pick now) x = Some x.
Proof.
  intros x. split; [apply fend_of_reachable; vm_compute; reflexivity|].
  assert (Hx : f_pc x = in_main ∧ running_id (sch (f_cell x)) = 2 ∧ chroutines_sched (sch (f_cell x)) = [1%nat])
    by (by vm_compute).
  destruct Hx as (Hp & Hr & Hl). split_and!; [done..|]. intros now. apply busy_pick; [done|]. by rewrite Hr.
Qed.

(** Another thread has looked up the son to awake it when a second one awakes
    the father: the son is removed, the next pass frees it, and the first
    thread goes on with a pointer to a freed object. *)
Lemma awake_uses_freed :
  let x := fend_of (father_waits ++ [l_away (call_awake 2); l_away (call_awake 1); l_away_go 1; l_away_go 1; l_pick 30]) in
  freachable 0 x ∧ f_away x = [away_found 3%nat] ∧ obj 3 (f_cell x) = None ∧ fstep (l_away_go 0) x = None.
Proof.
  split; [apply fend_of_reachable; vm_compute; reflexivity|]. by vm_compute.
Qed.
