(* ===== verification/FatherSon.v ===== *)
(** * Fathers waiting for sons *)

From S2P Require Import Prelude Reporter Chroutine Load Thread ThreadInv Sched Run Safety.
Local Open Scope Z_scope.

(** The result code a reporter holds. *)
Definition result_of (r : nat) (s : cell) : option son_result_t :=
  get_result <$> rps (hp s) !! r.

(** C8: when the function of a son returns, its father is no longer waiting:
    its deadline is cleared, its reporter (if it exists) says [result_done],
    and as soon as its yield counter is zero the next visit finds it ready,
    whatever the clock says; the son has left the map and the list. *)
Theorem son_return_wakes_father self s p c f cf r :
  reachable self (s, Some p) → obj p s = Some c → p ∈ chroutines_sched (sch s) →
  get_chroutine (father c) s = Some f → f ≠ p → obj f s = Some cf → reporter cf = Some r →
  is_Some (rps (hp s) !! r) →
  let s' := entry_finish p s in
  (∃ cf', obj f s' = Some cf' ∧ yield_to cf' = 0 ∧ f ∈ chroutines_sched (sch s') ∧
     (moved cf = false → yield_wait cf = 0 → ∀ now, ready now cf' = true)) ∧
  result_of r s' = Some result_done ∧
  get_chroutine (me c) s' = None ∧ (p ∉ chroutines_sched (sch s')) ∧
  running_id (sch s') = INVALID_ID.
Proof.
  intros H%reachable_ok Hc Hp Hf Hfp Hcf Hr [rp Hrp] s'. pose proof (ok_wf _ H) as Hwf. simpl in *.
  destruct (get_chroutine_obj _ _ _ Hwf Hf) as (Hfs & cf0 & Hcf0 & Hme). simplify_eq.
  assert (Hne : me cf ≠ me c).
  { intros Heq. apply Hfp. apply (wf_id_inj (proj1 Hwf) f p cf c); done. }
  set (s2 := upd_sch (set_running_id INVALID_ID) (remove_chroutine (me c) s)).
  assert (Hg2 : get_chroutine (father c) s2 = Some f).
  { rewrite <- Hme. unfold get_chroutine, s2. simpl. rewrite remove_chroutine_map, lookup_delete_ne by done.
    unfold get_chroutine in Hf. by rewrite Hme. }
  assert (Hcf2 : obj f s2 = Some cf) by (unfold obj, s2, upd_sch; simpl; by rewrite remove_chroutine_hp).
  assert (Hfa : father c ≠ INVALID_ID).
  { rewrite <- Hme. pose proof (wf_id_range _ _ _ _ (proj1 Hwf) f cf Hcf). unfold INVALID_ID. lia. }
  assert (Hs' : s' = upd_rps (λ _, report result_done cf (rps (hp s2))) (upd_chs <[f := set_yield_to 0 cf]> s2)).
  { subst s'. unfold entry_finish. rewrite Hc. cbv zeta. apply Z.eqb_neq in Hfa. rewrite Hfa.
    fold s2. rewrite Hg2. unfold son_finished_at. by rewrite Hcf2. }
  rewrite Hs'. split_and!.
  - exists (set_yield_to 0 cf). unfold obj. simpl. rewrite lookup_insert_eq. split_and!; try done.
    + unfold s2. by apply (remove_chroutine_sched (me c) s f cf).
    + intros Hm Hw now. apply ready_spec. simpl. split_and!; [done|lia|by left].
  - unfold result_of. simpl. rewrite remove_chroutine_hp. unfold report. rewrite Hr, lookup_alter_eq, Hrp. done.
  - unfold get_chroutine, s2. simpl. by rewrite remove_chroutine_map, lookup_delete_eq.
  - simpl. intros Hin. by apply (remove_chroutine_sched (me c) s p c Hwf Hc) in Hin as [_ ?].
  - done.
Qed.

Lemma son_return_wakes_father_witness :
  let s := fst (end_of father_son) in
  result_of 2 (entry_finish 3 s) = Some result_done ∧ get_chroutine 2 (entry_finish 3 s) = None.
Proof.
  intros s. assert (H : reachable 0 (s, Some 3%nat)) by (by apply end_of_running; vm_compute).
  assert (Hc : option_map (λ c, (me c, father c)) (obj 3 s) = Some (2, 1)) by (vm_compute; reflexivity).
  destruct (obj 3 s) as [c|] eqn:Eo; [|discriminate]. injection Hc as Hme Hfa.
  assert (Hf : get_chroutine 1 s = Some 1%nat) by (vm_compute; reflexivity).
  assert (Hcf : option_map reporter (obj 1 s) = Some (Some 2%nat)) by (vm_compute; reflexivity).
  destruct (obj 1 s) as [cf|] eqn:Ef; [|discriminate]. injection Hcf as Hr.
  destruct (son_return_wakes_father 0 s 3 c 1 cf 2 H Eo) as (_ & Hres & Hget & _ & _).
  - by_compute.
  - by rewrite Hfa.
  - done.
  - done.
  - done.
  - by_compute.
  - rewrite Hme in Hget. done.
Defined.

(** A father whose wait for a son times out: when the pass after the
    deadline picks it, the son is removed from the map and the list of the
    thread before the father continues, the reporter says [result_timeout],
    and the father no longer points to the son. *)
Theorem timeout_removes_son now now' s s' p c q d r n :
  wf_cell s → pick_run_begin now now' s = (s', Some p, n) →
  obj p s = Some c → yield_to c ≠ 0 → stop_son_when_yield_over c = true →
  get_chroutine (son c) s = Some q → obj q s = Some d → (q ≠ p) →
  reporter c = Some r → is_Some (rps (hp s) !! r) →
  yield_to c <= now ∧
  get_chroutine (son c) s' = None ∧ (q ∉ chroutines_sched (sch s')) ∧
  result_of r s' = Some result_timeout ∧
  ∃ c', obj p s' = Some c' ∧ son c' = INVALID_ID ∧ yield_to c' = 0.
Proof.
  intros Hwf Hpick Hc Hyt Hst Hq Hd Hqp Hr [rp Hrp].
  pose proof (pick_run_begin_outcome now now' s Hwf) as Ho. rewrite Hpick in Ho.
  inversion Ho as [| | |p0 l1 l2 c0 Hi Hl Hc0 Hrd Hb]; subst; clear Ho. simplify_eq.
  assert (Hp : p ∈ chroutines_sched (sch s)).
  { apply (from_iter_elem (start_iter (sch s))). rewrite Hl. mem. }
  assert (Hit : ∀ x, head l2 = Some x → x ∈ chroutines_sched (sch s)).
  { intros x Hx. apply (from_iter_elem (start_iter (sch s))). rewrite Hl. destruct l2; simplify_eq/=. mem. }
  destruct (get_chroutine_obj _ _ _ Hwf Hq) as (Hqs & d0 & Hd0 & Hme). simplify_eq.
  set (t := after_loop now (head l2) s).
  assert (Hct : obj p t = Some c) by (by apply after_loop_obj_ready).
  assert (Hy : yield_over_at p result_timeout t =
     (son c, upd_rps (λ _, report result_timeout c (rps (hp t)))
        (upd_chs <[p := set_yield_to 0 (set_stop_son false (set_son INVALID_ID c))]> t))).
  { unfold yield_over_at, yield_over. rewrite Hct, Hst. apply Z.eqb_neq in Hyt. by rewrite Hyt. }
  split; [apply ready_spec in Hrd; lia|].
  assert (Hpq : picked now now' p c (head l2) s = set_entry_time now' (upd_sch (set_running_id (me c))
    (upd_chs (alter (set_state chroutine_state_running) p) (remove_chroutine (son c)
       (upd_rps (λ _, report result_timeout c (rps (hp t)))
        (upd_chs <[p := set_yield_to 0 (set_stop_son false (set_son INVALID_ID c))]> t)))))).
  { unfold picked. fold t. by rewrite Hy. }
  split_and!.
  - rewrite Hpq. unfold get_chroutine. simpl. by rewrite remove_chroutine_map, lookup_delete_eq.
  - intros Hin. assert (Hqt : ∃ d', obj q t = Some d' ∧ me d' = me d).
    { unfold t, after_loop, obj, upd_sch, upd_chs. cbn [hp chs set_chs].
      rewrite pick_loop_heap by (apply from_iter_NoDup; exact (wf_nodup _ _ _ _ (proj1 Hwf))).
      fold (obj q (clear_to_free s)). rewrite clear_to_free_obj_sched, Hd by done. simpl.
      case_bool_decide; eexists; (split; [done|]); rewrite ?aged_id; done. }
    destruct Hqt as (d' & Hd' & Hmd'). apply (picked_sched now now' s p c (head l2) Hwf Hit q d') in Hin.
    + destruct Hin as [_ Hne]. apply Hne. rewrite (picked_tmo now s p c (head l2)) by done. unfold yield_over. rewrite Hst.
      apply Z.eqb_neq in Hyt. rewrite Hyt. simpl. congruence.
    + fold t. rewrite Hy. unfold obj. simpl. by rewrite lookup_insert_ne.
  - rewrite Hpq. unfold result_of. simpl. rewrite remove_chroutine_hp. simpl. unfold report.
    rewrite Hr, lookup_alter_eq. change (rps (hp t)) with (rps (hp s)). by rewrite Hrp.
  - exists (resumed c). rewrite (picked_obj now now' s p c (head l2) Hwf Hp Hc Hrd). split; [done|].
    unfold resumed, yield_over. rewrite Hst. apply Z.eqb_neq in Hyt. by rewrite Hyt.
Qed.

(** The father's wait of [father_son] after the son has been sleeping past the
    deadline (the son runs from 30, sleeps 500 ms; the wait ends at 120). *)
Definition son_too_slow : list event := father_son ++ [ev_call (call_sleep 40 500)].

Lemma timeout_removes_son_witness :
  let s := fst (end_of son_too_slow) in
  let s' := fst (fst (pick_run_begin 130 130 s)) in
  get_chroutine 2 s = Some 3%nat ∧ get_chroutine 2 s' = None ∧ result_of 2 s' = Some result_timeout.
Proof.
  intros s s'.
  assert (Hwf : wf_cell s).
  { apply end_of_wf. by vm_compute. }
  assert (Hq : get_chroutine 2 s = Some 3%nat) by (vm_compute; reflexivity).
  assert (Hpk : snd (fst (pick_run_begin 130 130 s)) = Some 1%nat) by (vm_compute; reflexivity).
  destruct (pick_run_begin 130 130 s) as [[t r] n] eqn:Ep. cbn in Hpk. subst r.
  assert (Hc : option_map (λ c, (yield_to c, stop_son_when_yield_over c, son c, reporter c)) (obj 1 s)
    = Some (120, true, 2, Some 2%nat)) by (vm_compute; reflexivity).
  destruct (obj 1 s) as [c|] eqn:Eo; [|discriminate]. injection Hc as Hy Hst Hson Hr.
  assert (Hd : bool_decide (is_Some (obj 3 s)) = true) by (vm_compute; reflexivity).
  apply bool_decide_eq_true in Hd as [d Hd].
  destruct (timeout_removes_son 130 130 s t 1 c 3 d 2 n Hwf Ep Eo) as (_ & Hg & _ & Hres & _).
  - by rewrite Hy.
  - done.
  - by rewrite Hson.
  - done.
  - done.
  - done.
  - by_compute.
  - rewrite Hson in Hg. split_and!; done.
Defined.
