(* ===== verification/Liveness.v ===== *)
(** * Fairness of the scheduler

    A ready coroutine is picked after a bounded number of passes as long as no
    coroutine of the thread is created or removed meanwhile; with creation and
    removal it can be passed over for ever. *)

From S2P Require Import Prelude Reporter Chroutine Load Thread ThreadInv Sched Run Safety.
Local Open Scope Z_scope.

(** ** Bounded waiting *)

Fixpoint index_of (p : nat) (l : list nat) : nat :=
  match l with
  | [] => 0
  | q :: r => if (q =? p)%nat then 0 else S (index_of p r)
  end.

(** The part of the list the next pass scans. *)
Definition to_scan (x : schedule_t) : list nat := from_iter (start_iter x) (chroutines_sched x).

(** How many coroutines may be picked before [p]: those between the iterator
    and [p], or, when [p] lies before the iterator, the rest of the list and
    then those before [p]. *)
Definition rank (p : nat) (x : schedule_t) : nat :=
  if bool_decide (p ∈ to_scan x) then index_of p (to_scan x)
  else (length (to_scan x) + index_of p (chroutines_sched x))%nat.

(** A pass that picks a coroutine other than [p] (or none), during and after
    which the thread's list stays as it was: between the passes the coroutines
    run, yield, sleep and awake each other, but none is created or removed. *)
Definition quiet_pass (p : nat) (s s' : cell) : Prop :=
  ∃ now now' s1 r n c,
    pick_run_begin now now' s = (s1, r, n) ∧ r ≠ Some p ∧
    obj p s = Some c ∧ ready now c = true ∧
    running_id (sch s) = INVALID_ID ∧ wf_cell s ∧ p ∈ chroutines_sched (sch s) ∧
    chroutines_sched (sch s1) = chroutines_sched (sch s) ∧
    chroutines_sched (sch s') = chroutines_sched (sch s) ∧
    sched_iter (sch s') = sched_iter (sch s1).

Inductive quiet_passes (p : nat) : nat → cell → cell → Prop :=
  | quiet_zero s : quiet_passes p 0 s s
  | quiet_succ k s s' s'' : quiet_pass p s s' → quiet_passes p k s' s'' → quiet_passes p (S k) s s''.

Lemma index_of_app_r p l1 l2 : p ∉ l1 → index_of p (l1 ++ l2) = (length l1 + index_of p l2)%nat.
Proof.
  induction l1 as [|q l1 IH]; intros Hp; simpl; [done|].
  destruct (Nat.eqb_spec q p) as [->|]; [exfalso; apply Hp; mem|]. rewrite IH; [done|mem].
Qed.

Lemma index_of_lt p l : p ∈ l → (index_of p l < length l)%nat.
Proof.
  induction l as [|q l IH]; intros Hp; simpl; [by apply elem_of_nil in Hp|].
  destruct (Nat.eqb_spec q p) as [|Hne]; [lia|]. apply elem_of_cons in Hp as [->|Hp]; [done|].
  apply IH in Hp. lia.
Qed.

(** The scan that follows a pass which removed nothing. *)
Lemma to_scan_next x x' l0 l1 q l2 :
  NoDup (chroutines_sched x) → chroutines_sched x = l0 ++ l1 ++ q :: l2 →
  chroutines_sched x' = chroutines_sched x → sched_iter x' = head l2 →
  to_scan x' = match l2 with [] => chroutines_sched x | _ => l2 end.
Proof.
  intros Hnd Hl Hs Hi. unfold to_scan, start_iter. rewrite Hs, Hi. destruct l2 as [|q' l2]; simpl.
  - apply from_iter_head.
  - rewrite Hl in Hnd |- *.
    replace (l0 ++ l1 ++ q :: q' :: l2) with ((l0 ++ l1 ++ [q]) ++ q' :: l2) in *
      by (by rewrite <- !(assoc_L (++))).
    apply from_iter_at. intros Hin. apply NoDup_app in Hnd as (_ & Hd & _). apply (Hd q' Hin). mem.
Qed.

Lemma to_scan_wf s l :
  wf_cell s → chroutines_sched (sch s) = l → l ≠ [] → to_scan (sch s) ≠ [].
Proof.
  intros Hs <- Hne Hn. unfold to_scan in Hn.
  destruct (start_iter (sch s)) as [p|] eqn:Hst.
  - assert (Hp : p ∈ chroutines_sched (sch s)).
    { apply start_iter_in; [intros q; apply (wf_iter _ _ _ _ (proj1 Hs))|done]. }
    apply list_elem_of_split in Hp as (l1 & l2 & Hl).
    pose proof (wf_nodup _ _ _ _ (proj1 Hs)) as Hnd. rewrite Hl in Hnd, Hn.
    rewrite from_iter_at in Hn; [done|]. intros Hin. apply NoDup_app in Hnd as (_ & Hd & _). apply (Hd p Hin). mem.
  - unfold start_iter in Hst. destruct (sched_iter (sch s)); [done|]. by destruct (chroutines_sched (sch s)).
Qed.

(** A removal that leaves the list as it was leaves the iterator too. *)
Lemma remove_chroutine_iter_keep i s :
  wf_cell s → chroutines_sched (sch (remove_chroutine i s)) = chroutines_sched (sch s) →
  sched_iter (sch (remove_chroutine i s)) = sched_iter (sch s).
Proof.
  intros Hs. destruct (remove_chroutine_cases i s Hs) as [[_ ->]|[[_ ->]|(p & c & l1 & l2 & _ & _ & _ & Hl & ->)]]; [done..|].
  simpl. rewrite Hl. intros H%(f_equal length). rewrite !length_app in H. simpl in H. lia.
Qed.

Lemma quiet_pass_rank p s s' : quiet_pass p s s' → (rank p (sch s') < rank p (sch s))%nat.
Proof.
  intros (now & now' & s1 & r & n & c & Hpick & Hr & Hc & Hrd & Hi & Hwf & Hp & Hs1 & Hs' & Hit).
  pose proof (wf_nodup _ _ _ _ (proj1 Hwf)) as Hnd.
  pose proof (pick_run_begin_outcome now now' s Hwf) as Ho. rewrite Hpick in Ho.
  destruct (from_iter_split (start_iter (sch s)) (chroutines_sched (sch s))) as [l0 Hl0].
  assert (Hne : chroutines_sched (sch s) ≠ []) by (intros Hn; rewrite Hn in Hp; by apply elem_of_nil in Hp).
  pose proof (to_scan_wf s _ Hwf eq_refl Hne) as Hscan.
  inversion Ho as [Hb|_ Hemp|_ Hno|q l1 l2 d _ Hl Hd Hrq Hb]; subst; clear Ho; [done..| |].
  - (* nobody is ready: [p] lies before the iterator and the scan wraps *)
    assert (Hpn : p ∉ to_scan (sch s)) by (intros Hin; specialize (Hno p c Hin Hc); congruence).
    assert (Hnext : to_scan (sch s') = chroutines_sched (sch s)).
    { unfold to_scan, start_iter. rewrite Hs', Hit. apply from_iter_head. }
    unfold rank. rewrite Hnext, (bool_decide_eq_true_2 _ Hp), (bool_decide_eq_false_2 _ Hpn).
    destruct (to_scan (sch s)); [done|simpl; lia].
  - assert (Hqp : q ≠ p) by congruence.
    assert (Hp1 : p ∉ l1) by (intros Hin; specialize (Hb p c Hin Hc); congruence).
    assert (Hits1 : sched_iter (sch (picked now now' q d (head l2) s)) = head l2).
    { assert (Hq : q ∈ chroutines_sched (sch s)) by (rewrite Hl0, Hl; mem).
      assert (Hin2 : ∀ x, head l2 = Some x → x ∈ chroutines_sched (sch s)).
      { intros x Hx. rewrite Hl0, Hl. destruct l2; simplify_eq/=. mem. }
      pose proof (picked_s3_wf now s q (head l2) Hwf Hin2) as Hwf3.
      rewrite picked_eq in Hs1 |- *. simpl in Hs1 |- *. rewrite (remove_chroutine_iter_keep _ _ Hwf3).
      - by rewrite yield_over_at_sch.
      - rewrite Hs1. by rewrite yield_over_at_sch. }
    rewrite Hits1 in Hit.
    assert (Hnext : to_scan (sch s') = match l2 with [] => chroutines_sched (sch s) | _ => l2 end).
    { apply (to_scan_next (sch s) (sch s') l0 l1 q l2); [done|by rewrite Hl0 at 1; rewrite Hl|done..]. }
    unfold rank. rewrite Hnext, Hs'. unfold to_scan in *. rewrite Hl.
    destruct (decide (p ∈ l2)) as [Hp2|Hp2].
    + rewrite (bool_decide_eq_true_2 (p ∈ l1 ++ q :: l2)) by mem.
      destruct l2 as [|q' l2']; [by apply elem_of_nil in Hp2|].
      rewrite bool_decide_eq_true_2 by done. rewrite index_of_app_r by done.
      assert (index_of p (q :: q' :: l2') = S (index_of p (q' :: l2'))) as ->.
      { change (index_of p (q :: q' :: l2')) with (if (q =? p)%nat then 0%nat else S (index_of p (q' :: l2'))).
        by destruct (Nat.eqb_spec q p). }
      lia.
    + rewrite (bool_decide_eq_false_2 (p ∈ l1 ++ q :: l2)) by mem. rewrite length_app. simpl length.
      destruct l2 as [|q' l2']; [rewrite bool_decide_eq_true_2 by done; lia|].
      rewrite bool_decide_eq_false_2 by done. simpl length. lia.
Qed.

Lemma rank_bound p s :
  p ∈ chroutines_sched (sch s) → (rank p (sch s) < 2 * length (chroutines_sched (sch s)))%nat.
Proof.
  intros Hp. unfold rank, to_scan. destruct (from_iter_split (start_iter (sch s)) (chroutines_sched (sch s))) as [l0 Hl].
  assert (Hlen : (length (from_iter (start_iter (sch s)) (chroutines_sched (sch s))) <= length (chroutines_sched (sch s)))%nat).
  { rewrite Hl at 2. rewrite length_app. lia. }
  pose proof (index_of_lt _ _ Hp). case_bool_decide as Hin; [apply index_of_lt in Hin|]; lia.
Qed.

(** Every quiet pass uses up rank. *)
Lemma quiet_passes_rank p k s s' : quiet_passes p k s s' → (k <= rank p (sch s))%nat.
Proof. intros H. induction H as [|k s s' s'' Hq _ IH]; [lia|]. apply quiet_pass_rank in Hq. lia. Qed.


(** Three coroutines; the first is picked and yields. *)
Definition three : list event :=
  [ev_external (call_create (Some 1) 0); ev_external (call_create (Some 2) 0); ev_external (call_create (Some 3) 0)].
Definition three_next : list event := three ++ [ev_pick 10 10; ev_call (call_yield 5)].


(** ** Starvation *)

(** One pass in which the picked coroutine creates another one and returns. *)
Definition respawn (now : Z) (s : cell) : cell :=
  match pick_run_begin now now s with
  | (s1, Some p, _) => clear_entry_time (entry_finish p (snd (create_chroutine (Some 1) 0 s1)))
  | (s1, None, _) => s1
  end.

Lemma respawn_steps now s : rtc step (s, None) (respawn now s, None).
Proof.
  unfold respawn. destruct (pick_run_begin now now s) as [[s1 [p|]] n] eqn:E.
  - eapply rtc_l; [by apply (step_pick now now s s1 (Some p) n)|].
    eapply rtc_l; [by apply (step_call (call_create (Some 1) 0) s1 p (snd (create_chroutine (Some 1) 0 s1)) false)|].
    apply rtc_once, step_return.
  - apply rtc_once. by apply (step_pick now now s s1 None n).
Qed.

(** The thread holds [a], ready, and a coroutine [b] the iterator points to. *)
Definition chain (now : Z) (a : nat) (ca : chroutine_t) (s : cell) : Prop :=
  cfg_ok (s, None) ∧ obj a s = Some ca ∧ m_state (th s) = thread_state_t_running ∧
  ∃ b cb, chroutines_sched (sch s) = [a; b] ∧ sched_iter (sch s) = Some b ∧
    obj b s = Some cb ∧ ready now cb = true ∧ yield_to cb = 0 ∧ father cb = INVALID_ID.

(** A pass that picks a coroutine with no expired wait removes nobody. *)
Lemma picked_quiet now p c it s :
  wf_cell s → p ∈ chroutines_sched (sch s) → obj p s = Some c → ready now c = true →
  (∀ q, it = Some q → q ∈ chroutines_sched (sch s)) → yield_to c = 0 →
  picked now now p c it s =
  set_entry_time now (upd_sch (set_running_id (me c))
    (upd_chs (alter (set_state chroutine_state_running) p)
       (upd_rps (λ _, rps (hp s)) (upd_chs <[p := set_yield_to 0 c]> (after_loop now it s))))).
Proof.
  intros Hs Hp Hc Hr Hit Hy. rewrite picked_eq. unfold yield_over_at at 1.
  rewrite (after_loop_p now s p c it) by done. unfold yield_over. rewrite Hy. simpl fst.
  rewrite remove_invalid; [|by apply picked_s3_wf].
  unfold yield_over_at. rewrite (after_loop_p now s p c it) by done. unfold yield_over. by rewrite Hy.
Qed.

Lemma from_iter_second (a b : nat) : a ≠ b → from_iter (Some b) [a; b] = [b].
Proof. intros H. apply (from_iter_at [a] b []). mem. Qed.

(** A coroutine before the iterator is not visited. *)
Lemma after_loop_unscanned now it s q :
  wf_cell s → q ∈ chroutines_sched (sch s) → (q ∉ to_scan (sch s)) → obj q (after_loop now it s) = obj q s.
Proof.
  intros Hwf Hq Hns. unfold after_loop, obj, upd_sch, upd_chs. cbn [hp chs set_chs].
  rewrite pick_loop_heap by (apply from_iter_NoDup; exact (wf_nodup _ _ _ _ (proj1 Hwf))).
  change (from_iter (start_iter (sch (clear_to_free s))) (chroutines_sched (sch (clear_to_free s)))) with (to_scan (sch s)).
  rewrite bool_decide_eq_false_2 by done. by apply clear_to_free_obj_sched.
Qed.

(** The pass picks [b] and does not touch [a]. *)
Lemma chain_pick now a ca s :
  chain now a ca s → ∃ b cb s1,
    pick_run_begin now now s = (s1, Some b, 1) ∧ cfg_ok (s1, Some b) ∧ b ≠ a ∧
    chroutines_sched (sch s1) = [a; b] ∧ m_state (th s1) = thread_state_t_running ∧
    obj a s1 = Some ca ∧ obj b s1 = Some cb ∧ father cb = INVALID_ID.
Proof.
  intros (Hok & Ha & Hst & b & cb & Hl & Hit & Hb & Hrb & Hyb & Hfb).
  pose proof (ok_wf _ Hok) as Hwf. pose proof (wf_nodup _ _ _ _ (proj1 Hwf)) as Hnd. simpl in *.
  assert (Hab : a ≠ b) by (rewrite Hl in Hnd; apply NoDup_cons in Hnd as [Hn _]; intros ->; apply Hn; mem).
  assert (Has : a ∈ chroutines_sched (sch s)) by (rewrite Hl; mem).
  assert (Hbs : b ∈ chroutines_sched (sch s)) by (rewrite Hl; mem).
  assert (Hscan : to_scan (sch s) = [b]).
  { unfold to_scan, start_iter. rewrite Hit, Hl. by apply from_iter_second. }
  assert (Hno : ∀ q, @None nat = Some q → q ∈ chroutines_sched (sch s)) by done.
  assert (Hpk : pick_run_begin now now s = (picked now now b cb None s, Some b, 1)).
  { pose proof (pick_run_begin_outcome now now s Hwf) as Ho. unfold to_scan in Hscan.
    inversion Ho as [Hi|_ He|_ Hn|q l1 l2 c _ Hs Hc Hr Hbf]; clear Ho.
    - by destruct Hi; apply (ok_run _ Hok).
    - by rewrite Hl in He.
    - rewrite Hscan in Hn. exfalso. rewrite (Hn b cb) in Hrb; [done|mem|done].
    - rewrite Hscan in Hs. destruct l1 as [|x l1]; [|by destruct l1]. simplify_eq/=. done. }
  pose proof (picked_quiet now b cb None s Hwf Hbs Hb Hrb Hno Hyb) as Hq.
  exists b, (resumed cb), (picked now now b cb None s). split_and!; try done.
  - by eapply pick_ok.
  - by rewrite Hq.
  - by rewrite Hq.
  - rewrite picked_after by done. rewrite after_loop_unscanned; [done..|]. rewrite Hscan. mem.
  - by apply picked_obj.
  - unfold resumed, yield_over. case_if; exact Hfb.
Qed.

Lemma remove_chroutine_state i s : m_state (th (remove_chroutine i s)) = m_state (th s).
Proof. unfold remove_chroutine. by repeat (case_match; simpl_cell). Qed.

(** Removing the middle one of three moves the iterator to the last. *)
Lemma remove_middle a b n c s :
  wf_cell s → chroutines_sched (sch s) = [a; b; n] → obj b s = Some c →
  chroutines_sched (sch (remove_chroutine (me c) s)) = [a; n] ∧
  sched_iter (sch (remove_chroutine (me c) s)) = Some n.
Proof.
  intros Hwf Hl Hb. pose proof (wf_nodup _ _ _ _ (proj1 Hwf)) as Hnd. rewrite Hl in Hnd.
  assert (Hbs : b ∈ chroutines_sched (sch s)) by (rewrite Hl; mem).
  destruct (wf_sched _ _ _ _ (proj1 Hwf) b Hbs) as (d & Hd & Hm'). assert (d = c) as -> by (unfold obj in Hb; congruence).
  destruct (remove_chroutine_cases (me c) s Hwf) as [[Hm _]|[[Hm _]|(p & e & l1 & l2 & Hm & _ & _ & Hlp & ->)]]; [congruence..|].
  assert (p = b) as -> by congruence. rewrite Hl in Hlp. simpl.
  apply NoDup_cons in Hnd as [Hna Hnd]. apply NoDup_cons in Hnd as [Hnb _].
  destruct l1 as [|x [|y [|z l1]]]; simpl in Hlp; injection Hlp as ?; subst.
  - exfalso. apply Hna. mem.
  - done.
  - exfalso. apply Hnb. mem.
  - by destruct l1.
Qed.

(** The picked coroutine creates its successor and returns. *)
Lemma chain_return now a ca b cb s1 :
  cfg_ok (s1, Some b) → b ≠ a → chroutines_sched (sch s1) = [a; b] → m_state (th s1) = thread_state_t_running →
  obj a s1 = Some ca → obj b s1 = Some cb → father cb = INVALID_ID →
  chain now a ca (clear_entry_time (entry_finish b (snd (create_chroutine (Some 1) 0 s1)))).
Proof.
  intros Hok1 Hba Hl1 Hst1 Ha1 Hb1 Hfa. pose proof (ok_wf _ Hok1) as Hwf1. simpl in Hwf1.
  pose proof (evolves_create (Some 1) 0 s1 Hwf1) as He.
  assert (Hcr : create_chroutine (Some 1) 0 s1 = (ms_chroutine_id (hp s1) + 1, created (Some 1) 0 s1)).
  { unfold create_chroutine. by rewrite Hst1. }
  rewrite Hcr in *. cbn [snd] in *. pose proof (wf_next_fresh s1 Hwf1) as Hfresh.
  remember (next_ptr (hp s1)) as n eqn:Hn.
  assert (Hna : a ≠ n) by (intros Heq; unfold obj in Ha1; congruence).
  assert (Hnb : b ≠ n) by (intros Heq; unfold obj in Hb1; congruence).
  pose (cn := built_chroutine (this (th s1)) (ms_chroutine_id (hp s1) + 1) (Some 1) 0).
  assert (Hok2 : cfg_ok (created (Some 1) 0 s1, Some b)) by (by apply (evolves_ok s1)).
  assert (Ho2 : obj a (created (Some 1) 0 s1) = Some ca ∧ obj b (created (Some 1) 0 s1) = Some cb ∧
                obj n (created (Some 1) 0 s1) = Some cn).
  { unfold obj, created in *. cbn [hp chs]. rewrite <- Hn, lookup_insert_eq, !lookup_insert_ne by done. done. }
  assert (Hl2 : chroutines_sched (sch (created (Some 1) 0 s1)) = [a; b; n]).
  { unfold created. simpl. by rewrite Hl1, Hn. }
  assert (Hst2 : m_state (th (created (Some 1) 0 s1)) = thread_state_t_running) by exact Hst1.
  clear Hcr He. revert Hok2 Ho2 Hl2 Hst2. generalize (created (Some 1) 0 s1). intros s2 Hok2 (Ha2 & Hb2 & Hn2) Hl2 Hst2.
  pose proof (ok_wf _ Hok2) as Hwf2. simpl in Hwf2.
  assert (Hfin : entry_finish b s2 = upd_sch (set_running_id INVALID_ID) (remove_chroutine (me cb) s2)).
  { unfold entry_finish. rewrite Hb2, Hfa. cbv zeta. by rewrite Z.eqb_refl. }
  destruct (remove_middle a b n cb s2 Hwf2 Hl2 Hb2) as [Hrl Hri].
  split; [apply upd_th_ok; [done|]; by apply entry_finish_ok|]. rewrite Hfin. split_and!.
  - unfold obj. simpl. by rewrite remove_chroutine_hp.
  - simpl. by rewrite remove_chroutine_state.
  - exists n, cn. simpl. rewrite Hrl, Hri. split_and!; try done.
    unfold obj. simpl. by rewrite remove_chroutine_hp.
Qed.

Lemma chain_respawn now a ca s : chain now a ca s → chain now a ca (respawn now s).
Proof.
  intros Hc. destruct (chain_pick now a ca s Hc) as (b & cb & s1 & Hpk & Hok & Hne & Hl & Hst & Ha & Hb & Hf).
  unfold respawn. rewrite Hpk. by apply (chain_return now a ca b cb).
Qed.

(** The coroutine 1 has slept until 11; 2 is about to be visited. *)
Definition starving : list event :=
  [ev_external (call_create (Some 1) 0); ev_external (call_create (Some 2) 0);
   ev_pick 10 10; ev_call (call_sleep 10 1)].

(** The same on a thread that runs its main loop. *)
Definition starving_cfg : cell := upd_th (set_thread_state thread_state_t_running) (fst (end_of starving)).

Lemma starving_chain : ∃ ca, ready 20 ca = true ∧ chain 20 1 ca starving_cfg.
Proof.
  assert (Hok : cfg_ok (starving_cfg, None)).
  { apply upd_th_ok; [done|]. assert (H : reachable 0 (fst (end_of starving), None)) by (by apply end_of_running; vm_compute).
    by apply (reachable_ok 0). }
  assert (Ha : bool_decide (is_Some (obj 1 starving_cfg)) = true) by (vm_compute; reflexivity).
  apply bool_decide_eq_true in Ha as [ca Ha].
  assert (Hb : bool_decide (is_Some (obj 2 starving_cfg)) = true) by (vm_compute; reflexivity).
  apply bool_decide_eq_true in Hb as [cb Hb].
  assert (Hra : option_map (ready 20) (obj 1 starving_cfg) = Some true) by (vm_compute; reflexivity).
  assert (Hrb : option_map (λ c, (ready 20 c, yield_to c, father c)) (obj 2 starving_cfg) = Some (true, 0, -1))
    by (vm_compute; reflexivity).
  rewrite Ha in Hra. rewrite Hb in Hrb. injection Hra as Hra. injection Hrb as Hrb Hyb Hfb.
  exists ca. split; [done|]. split; [done|]. split; [done|]. split; [reflexivity|]. exists 2%nat, cb.
  split_and!; try done; by_compute.
Qed.

(** Starvation.  There is a state with a ready coroutine (pointer 1, whose
    sleep is over) such that, if each picked coroutine creates a successor and
    returns, the thread goes on for ever without picking the ready one: after
    any number of passes it is still listed and ready, and the next pass picks
    another coroutine.  ([remove_chroutine] moves the saved iterator to the
    successor of the removed element, so the list never wraps around.) *)
Theorem respawning_starves n :
  let s := Nat.iter n (respawn 20) starving_cfg in
  rtc step (starving_cfg, None) (s, None) ∧
  (∃ c, obj 1 s = Some c ∧ ready 20 c = true ∧ 1%nat ∈ chroutines_sched (sch s)) ∧
  ∃ s1 b, pick_run_begin 20 20 s = (s1, Some b, 1) ∧ b ≠ 1%nat.
Proof.
  intros s. destruct starving_chain as (ca & Hr & H0).
  assert (H : rtc step (starving_cfg, None) (s, None) ∧ chain 20 1 ca s).
  { subst s. induction n as [|n [IH1 IH2]]; simpl; [done|]. split; [|by apply chain_respawn].
    etransitivity; [exact IH1|]. apply respawn_steps. }
  destruct H as [Hs Hc]. split; [done|]. split.
  - destruct Hc as (_ & Ha & _ & b & cb & Hl & _). exists ca. split_and!; [done..|]. rewrite Hl. mem.
  - destruct (chain_pick 20 1 ca s Hc) as (b & cb & s1 & Hpk & _ & Hne & _). by exists s1, b.
Qed.
