(* ===== verification/Migrate.v ===== *)
(** * Moving coroutines off a blocked thread

    [move_chroutines_to_thread] and [resettle]: what they do to the containers
    of both threads, and what the moved contexts then do.  Two threads share
    one heap; each has its own [schedule_t]. *)

From S2P Require Import Prelude Reporter Chroutine Load Thread World ThreadInv Sched Run Safety.
Local Open Scope Z_scope.

(** ** The loop *)

(** The object [resettle] builds for the thread [t], and what it leaves. *)
Definition resettled (t : nat) (c : chroutine_t) : chroutine_t :=
  let d := fst (move_chroutine c) in
  match ctx d with
  | Some u => set_ctx (Some (mk_ucontext (ss_size u) t (mc_arg u) (entry_pc u))) d
  | None => d
  end.

Definition husk (c : chroutine_t) : chroutine_t := set_moved (snd (move_chroutine c)).

(** The coroutines the loop moves: the listed ones except the running one. *)
Definition to_move (h : gmap nat chroutine_t) (running : Z) (l : list nat) : list (nat * chroutine_t) :=
  omap (λ p, match h !! p with
             | Some c => if me c =? running then None else Some (p, c)
             | None => None
             end) l.

Definition add_all (x : schedule_t) (ids : list Z) (first : nat) : schedule_t :=
  foldl (λ x iq, insert_chroutine iq.1 iq.2 x) x (zip ids (seq first (length ids))).

Lemma resettled_id t c : me (resettled t c) = me c.
Proof. unfold resettled. simpl. by destruct (ctx c). Qed.

Lemma resettle_eq p c h o :
  chs h !! p = Some c →
  resettle p h o =
    (me c, mk_heap (<[next_ptr h := resettled (this o) c]> (<[p := snd (move_chroutine c)]> (chs h)))
                   (rps h) (S (next_ptr h)) (ms_chroutine_id h),
     set_schedule (insert_chroutine (me c) (next_ptr h) (m_schedule o)) o).
Proof.
  intros Hc. unfold resettle. rewrite Hc. unfold resettled, alloc. simpl. by destruct (ctx c).
Qed.

Lemma add_all_cons x i ids q :
  add_all x (i :: ids) q = add_all (insert_chroutine i q x) ids (S q).
Proof. done. Qed.

Lemma add_all_sched x ids q :
  chroutines_sched (add_all x ids q) = chroutines_sched x ++ seq q (length ids).
Proof.
  revert x q. induction ids as [|i ids IH]; intros x q; [by rewrite app_nil_r|].
  rewrite add_all_cons, IH. simpl. by rewrite <- (assoc_L (++)).
Qed.

Lemma set_schedule_twice x y o : set_schedule x (set_schedule y o) = set_schedule x o.
Proof. done. Qed.

Lemma set_schedule_id o : set_schedule (m_schedule o) o = o.
Proof. by destruct o. Qed.

(** The heap after moving one object. *)
Definition moved_heap (p : nat) (t : nat) (c : chroutine_t) (h : heap) : heap :=
  mk_heap (<[p := husk c]> (<[next_ptr h := resettled t c]> (chs h))) (rps h) (S (next_ptr h)) (ms_chroutine_id h).

Lemma move_loop_cons running p l h o c :
  chs h !! p = Some c → (p < next_ptr h)%nat →
  move_loop running (p :: l) h o =
  if me c =? running then move_loop running l h o
  else let '(h', o', ids) := move_loop running l (moved_heap p (this o) c h)
             (set_schedule (insert_chroutine (me c) (next_ptr h) (m_schedule o)) o) in
       (h', o', me c :: ids).
Proof.
  intros Hc Hp. cbn [move_loop]. rewrite Hc. case_if; [done|]. rewrite (resettle_eq p c) by done.
  rewrite Z.eqb_refl. cbv zeta. cbn [chs].
  assert (set_chs (alter set_moved p (<[next_ptr h:=resettled (this o) c]> (<[p:=snd (move_chroutine c)]> (chs h))))
     (mk_heap (<[next_ptr h:=resettled (this o) c]> (<[p:=snd (move_chroutine c)]> (chs h))) (rps h)
        (S (next_ptr h)) (ms_chroutine_id h)) = moved_heap p (this o) c h) as ->; [|done].
  unfold set_chs, moved_heap. cbn [rps next_ptr ms_chroutine_id]. f_equal. apply map_eq. intros q.
  destruct (decide (p = q)) as [<-|Hpq].
  - rewrite lookup_alter_eq, lookup_insert_ne, !lookup_insert_eq by lia. done.
  - rewrite lookup_alter_ne, (lookup_insert_ne _ p q) by done.
    destruct (decide (next_ptr h = q)) as [<-|Hnq]; [by rewrite !lookup_insert_eq|].
    by rewrite !lookup_insert_ne.
Qed.

(** Everything the loop does. *)
Record move_spec (running : Z) (l : list nat) (h : heap) (o : chroutine_thread_t)
    (h' : heap) (o' : chroutine_thread_t) (ids : list Z) : Prop := {
  mv_ids : ids = (λ pc, me pc.2) <$> to_move (chs h) running l;
  mv_next : next_ptr h' = (next_ptr h + length ids)%nat;
  mv_rps : rps h' = rps h ∧ ms_chroutine_id h' = ms_chroutine_id h;
  mv_old : ∀ q c, chs h !! q = Some c → (q < next_ptr h)%nat →
     chs h' !! q = Some (if bool_decide (q ∈ (to_move (chs h) running l).*1) then husk c else c);
  mv_new : ∀ i p c, to_move (chs h) running l !! i = Some (p, c) →
     chs h' !! (next_ptr h + i)%nat = Some (resettled (this o) c);
  mv_other : o' = set_schedule (add_all (m_schedule o) ids (next_ptr h)) o
}.

Lemma to_move_cons h running p l :
  to_move h running (p :: l) =
  match h !! p with
  | Some c => if me c =? running then to_move h running l else (p, c) :: to_move h running l
  | None => to_move h running l
  end.
Proof. unfold to_move, omap. simpl. by repeat case_match; simplify_eq. Qed.

Lemma to_move_ext h h' running l :
  (∀ p, p ∈ l → h !! p = h' !! p) → to_move h running l = to_move h' running l.
Proof.
  induction l as [|p l IH]; intros Hh; [done|]. rewrite !to_move_cons, (Hh p) by mem.
  rewrite IH; [done|]. intros; apply Hh; mem.
Qed.

Lemma to_move_elem h running l p c :
  (p, c) ∈ to_move h running l ↔ p ∈ l ∧ h !! p = Some c ∧ me c ≠ running.
Proof.
  unfold to_move. rewrite list_elem_of_omap. split.
  - intros (q & Hq & Hm). destruct (h !! q) as [d|] eqn:Hd; [|done].
    destruct (Z.eqb_spec (me d) running); simplify_eq. done.
  - intros (Hp & Hc & Hne). exists p. split; [done|]. rewrite Hc.
    by destruct (Z.eqb_spec (me c) running).
Qed.

Lemma to_move_fst h running l p : p ∈ (to_move h running l).*1 → p ∈ l.
Proof. intros ([q c] & -> & Hq)%list_elem_of_fmap. by apply to_move_elem in Hq as [? _]. Qed.

Lemma move_loop_spec running l h o h' o' ids :
  NoDup l → (∀ p, p ∈ l → is_Some (chs h !! p) ∧ (p < next_ptr h)%nat) →
  move_loop running l h o = (h', o', ids) → move_spec running l h o h' o' ids.
Proof.
  revert h o h' o' ids. induction l as [|p l IH]; intros h o h' o' ids Hnd Hl Hm.
  { simpl in Hm. simplify_eq. split; simpl; try done. by destruct o'. }
  apply NoDup_cons in Hnd as [Hpl Hnd].
  destruct (Hl p) as [[c Hc] Hp]; [mem|]. rewrite (move_loop_cons _ _ _ _ _ c) in Hm by done.
  assert (Hcons : to_move (chs h) running (p :: l) =
     if me c =? running then to_move (chs h) running l else (p, c) :: to_move (chs h) running l).
  { by rewrite to_move_cons, Hc. }
  destruct (Z.eqb_spec (me c) running) as [Hrun|Hrun].
  - assert (Hl' : ∀ q, q ∈ l → is_Some (chs h !! q) ∧ (q < next_ptr h)%nat) by (intros; apply Hl; mem).
    destruct (IH _ _ _ _ _ Hnd Hl' Hm) as [I1 I2 I3 I4 I5 I6].
    split; rewrite ?Hcons; done.
  - destruct (move_loop running l (moved_heap p (this o) c h) _) as [[h1 o1] ids1] eqn:E. simplify_eq.
    assert (Hl' : ∀ q, q ∈ l → is_Some (chs (moved_heap p (this o) c h) !! q) ∧
                    (q < next_ptr (moved_heap p (this o) c h))%nat).
    { intros q Hq. destruct (Hl q) as [[d Hd] Hlt]; [mem|]. split; [|simpl; lia].
      unfold moved_heap. cbn [chs]. rewrite lookup_insert_ne by congruence.
      rewrite lookup_insert_ne by lia. by eexists. }
    destruct (IH _ _ _ _ _ Hnd Hl' E) as [I1 I2 I3 I4 I5 I6].
    assert (Hext : to_move (chs (moved_heap p (this o) c h)) running l = to_move (chs h) running l).
    { apply to_move_ext. intros q Hq. destruct (Hl q) as [_ Hlt]; [mem|]. unfold moved_heap. cbn [chs].
      rewrite lookup_insert_ne by congruence. by rewrite lookup_insert_ne by lia. }
    rewrite Hext in *. cbn [next_ptr moved_heap this set_schedule m_schedule] in *.
    split; rewrite ?Hcons.
    + by rewrite I1.
    + simpl. lia.
    + done.
    + intros q d Hd Hlt. rewrite fmap_cons. destruct (decide (q = p)) as [->|Hqp].
      * simplify_eq. rewrite bool_decide_eq_true_2 by mem.
        rewrite (I4 p (husk c)); [|unfold moved_heap; cbn [chs]; by rewrite lookup_insert_eq|lia].
        rewrite bool_decide_eq_false_2; [done|]. intros Hin. by apply to_move_fst in Hin.
      * rewrite (I4 q d); [|unfold moved_heap; cbn [chs]; rewrite !lookup_insert_ne by (lia || done); done|lia].
        f_equal. apply (f_equal (λ b : bool, if b then _ else _)), bool_decide_ext. cbn [fst]. rewrite elem_of_cons. tauto.
    + intros [|i] q d Hi; simpl in Hi; simplify_eq.
      * rewrite Nat.add_0_r. rewrite (I4 (next_ptr h) (resettled (this o) d)); [| |lia].
        -- rewrite bool_decide_eq_false_2; [done|]. intros Hin. apply to_move_fst in Hin.
           destruct (Hl (next_ptr h)) as [_ ?]; [mem|lia].
        -- unfold moved_heap. cbn [chs]. rewrite lookup_insert_ne by lia. by rewrite lookup_insert_eq.
      * replace (next_ptr h + S i)%nat with (S (next_ptr h) + i)%nat by lia. by apply (I5 i q d).
    + by rewrite add_all_cons, I6, set_schedule_twice.
Qed.

(** ** Both threads stay well-formed *)

Lemma wf_alloc h nxt ms x c : wf h nxt ms x → 0 < me c <= ms → wf (<[nxt := c]> h) (S nxt) ms x.
Proof.
  intros [Hf Hr Hsc Hnd Hm Hk Hi Hfr] Hc.
  assert (Hne : ∀ p, is_Some (h !! p) → <[nxt := c]> h !! p = h !! p).
  { intros p Hp%Hf. by rewrite lookup_insert_ne by lia. }
  split; try done.
  - intros p [d [[<- _]|[_ Hd]]%lookup_insert_Some]; [lia|]. assert (p < nxt)%nat by eauto. lia.
  - intros p d [[<- <-]|[_ Hd]]%lookup_insert_Some; eauto.
  - intros p Hp. destruct (Hsc p Hp) as (d & Hd & ?). exists d. by rewrite Hne, Hd by eauto.
  - intros i p Hp. destruct (Hm i p Hp) as (? & d & Hd & ?). split; [done|]. exists d. by rewrite Hne, Hd by eauto.
  - intros p Hp. destruct (Hfr p Hp) as [? [d Hd]]. split; [done|]. exists d. by rewrite Hne by eauto.
Qed.

Lemma moved_heap_wf p t c h ms x :
  wf (chs h) (next_ptr h) ms x → chs h !! p = Some c →
  wf (chs (moved_heap p t c h)) (S (next_ptr h)) ms x.
Proof.
  intros Hwf Hc. pose proof (wf_id_range _ _ _ _ Hwf p c Hc) as Hr.
  assert (Hp : (p < next_ptr h)%nat) by (apply (wf_fresh _ _ _ _ Hwf); by eexists).
  unfold moved_heap. cbn [chs]. eapply wf_same_ids; [apply (same_ids_insert _ _ c (husk c)); [|done]|].
  - by rewrite lookup_insert_ne by lia.
  - apply wf_alloc; [done|]. by rewrite resettled_id.
Qed.

Lemma moved_heap_wf_insert p t c h ms x :
  wf (chs h) (next_ptr h) ms x → chs h !! p = Some c → chroutines_map x !! me c = None →
  wf (chs (moved_heap p t c h)) (S (next_ptr h)) ms (insert_chroutine (me c) (next_ptr h) x).
Proof.
  intros Hwf Hc Hm. pose proof (wf_id_range _ _ _ _ Hwf p c Hc) as Hr.
  assert (Hp : (p < next_ptr h)%nat) by (apply (wf_fresh _ _ _ _ Hwf); by eexists).
  unfold moved_heap. cbn [chs]. eapply wf_same_ids; [apply (same_ids_insert _ _ c (husk c)); [|done]|].
  - by rewrite lookup_insert_ne by lia.
  - apply (insert_wf _ _ ms); [done|apply resettled_id|done|done|lia].
Qed.

(** The objects of the list have distinct ids the other thread does not know. *)
Definition movable (l : list nat) (h : gmap nat chroutine_t) (y : schedule_t) : Prop :=
  (∀ p, p ∈ l → ∃ c, h !! p = Some c ∧ chroutines_map y !! me c = None) ∧
  (∀ p q c d, p ∈ l → q ∈ l → h !! p = Some c → h !! q = Some d → me c = me d → p = q).

Lemma move_loop_wf running l h o h' o' ids ms x :
  NoDup l → wf (chs h) (next_ptr h) ms x → wf (chs h) (next_ptr h) ms (m_schedule o) →
  movable l (chs h) (m_schedule o) → move_loop running l h o = (h', o', ids) →
  wf (chs h') (next_ptr h') ms x ∧ wf (chs h') (next_ptr h') ms (m_schedule o').
Proof.
  revert h o h' o' ids. induction l as [|p l IH]; intros h o h' o' ids Hnd Hx Ho [Hmv Hinj] Hm.
  { simpl in Hm. by simplify_eq. }
  apply NoDup_cons in Hnd as [Hpl Hnd]. destruct (Hmv p) as (c & Hc & Hcn); [mem|].
  assert (Hp : (p < next_ptr h)%nat) by (apply (wf_fresh _ _ _ _ Hx); by eexists).
  rewrite (move_loop_cons _ _ _ _ _ c) in Hm by done. destruct (me c =? running).
  - apply (IH h o h' o' ids); [done..| |done]. split; [intros; apply Hmv; mem|].
    intros q r d e ? ?. apply Hinj; mem.
  - destruct (move_loop running l _ _) as [[h1 o1] ids1] eqn:E. simplify_eq.
    refine (IH _ _ _ _ _ Hnd _ _ _ E); [by apply moved_heap_wf|by apply moved_heap_wf_insert|].
    assert (Hsame : ∀ q, q ∈ l → chs (moved_heap p (this o) c h) !! q = chs h !! q).
    { intros q Hq. destruct (Hmv q) as (d & Hd & _); [mem|]. unfold moved_heap. cbn [chs].
      rewrite lookup_insert_ne by congruence. apply lookup_insert_ne. intros <-.
      assert (next_ptr h < next_ptr h)%nat; [|lia]. apply (wf_fresh _ _ _ _ Hx). by eexists. }
    split.
    + intros q Hq. destruct (Hmv q) as (d & Hd & Hdn); [mem|]. exists d. rewrite Hsame by done. split; [done|].
      cbn [m_schedule set_schedule insert_chroutine set_chroutines_sched set_chroutines_map chroutines_map].
      rewrite lookup_insert_ne; [done|]. intros Heq. apply Hpl. rewrite (Hinj p q c d); [done|mem|mem|done..].
    + intros q r d e Hq Hr. rewrite !Hsame by done. apply Hinj; mem.
Qed.

(** ** The removals *)

Lemma foldl_remove_wf ids s : wf_cell s → wf_cell (foldl (λ x i, remove_chroutine i x) s ids).
Proof. revert s. induction ids as [|i ids IH]; intros s Hs; simpl; auto with chr. Qed.

Lemma foldl_remove_hp ids s : hp (foldl (λ x i, remove_chroutine i x) s ids) = hp s.
Proof. revert s. induction ids as [|i ids IH]; intros s; simpl; [done|]. by rewrite IH, remove_chroutine_hp. Qed.

Lemma foldl_remove_sched ids s q d :
  wf_cell s → obj q s = Some d →
  q ∈ chroutines_sched (sch (foldl (λ x i, remove_chroutine i x) s ids)) ↔
  q ∈ chroutines_sched (sch s) ∧ me d ∉ ids.
Proof.
  revert s. induction ids as [|i ids IH]; intros s Hs Hd; simpl.
  - split; [|tauto]. intros ?. split; [done|]. by intros ?%elem_of_nil.
  - assert (Hd' : obj q (remove_chroutine i s) = Some d) by (unfold obj; by rewrite remove_chroutine_hp).
    rewrite IH by auto with chr. rewrite (remove_chroutine_sched i s q d) by done. rewrite elem_of_cons. tauto.
Qed.

Lemma foldl_remove_running ids s :
  running_id (sch (foldl (λ x i, remove_chroutine i x) s ids)) = running_id (sch s).
Proof. revert s. induction ids as [|i ids IH]; intros s; simpl; [done|]. by rewrite IH, remove_chroutine_running. Qed.

Lemma foldl_remove_get i ids s :
  i ∈ ids → get_chroutine i (foldl (λ x i, remove_chroutine i x) s ids) = None.
Proof.
  assert (Hstay : ∀ ids s, chroutines_map (sch s) !! i = None →
            chroutines_map (sch (foldl (λ x i, remove_chroutine i x) s ids)) !! i = None).
  { clear ids s. intros ids. induction ids as [|j ids IH]; intros s Hn; simpl; [done|]. apply IH.
    rewrite remove_chroutine_map. destruct (decide (j = i)) as [->|]; [by rewrite lookup_delete_eq|by rewrite lookup_delete_ne]. }
  revert s. induction ids as [|j ids IH]; intros s Hin; [by apply elem_of_nil in Hin|]. simpl.
  apply elem_of_cons in Hin as [->|Hin]; [|by apply IH].
  unfold get_chroutine. rewrite Hstay; [done|]. by rewrite remove_chroutine_map, lookup_delete_eq.
Qed.

Lemma add_all_map x ids q i id p :
  NoDup ids → ids !! i = Some id → p = (q + i)%nat →
  chroutines_map (add_all x ids q) !! id = Some (Some p).
Proof.
  assert (Hkeep : ∀ (l : list Z) y r (k : Z), k ∉ l →
            chroutines_map (add_all y l r) !! k = chroutines_map y !! k).
  { intros l. induction l as [|j l IH]; intros y r k Hk; [reflexivity|]. rewrite add_all_cons, IH by mem.
    simpl. rewrite lookup_insert_ne; [done|]. intros ->. apply Hk. mem. }
  revert x q i. induction ids as [|j ids IH]; intros x q i Hnd Hi ->; [done|].
  apply NoDup_cons in Hnd as [Hj Hnd]. rewrite add_all_cons. destruct i as [|i]; simpl in Hi.
  - simplify_eq. rewrite Hkeep by done. simpl. rewrite lookup_insert_eq. by rewrite Nat.add_0_r.
  - apply (IH _ _ i); [done..|lia].
Qed.

(** The coroutines of [s] that a move takes away. *)
Definition leaving (s : cell) : list (nat * chroutine_t) :=
  to_move (chs (hp s)) (running_id (sch s)) (chroutines_sched (sch s)).

Lemma NoDup_leaving s : wf_cell s → NoDup ((λ pc, me pc.2) <$> leaving s).
Proof.
  intros Hs. pose proof (wf_nodup _ _ _ _ (proj1 Hs)) as Hnd.
  assert (Hinj : ∀ p q c d, p ∈ chroutines_sched (sch s) → q ∈ chroutines_sched (sch s) →
    obj p s = Some c → obj q s = Some d → me c = me d → p = q) by (intros; by eapply (wf_id_inj (proj1 Hs))).
  unfold leaving, obj in *. clear Hs. induction (chroutines_sched (sch s)) as [|p l IH]; [constructor|].
  apply NoDup_cons in Hnd as [Hp Hnd].
  assert (IH' : NoDup ((λ pc, me pc.2) <$> to_move (chs (hp s)) (running_id (sch s)) l)).
  { apply IH; [done|]. intros q r c d ? ?. apply Hinj; mem. }
  rewrite to_move_cons. destruct (chs (hp s) !! p) as [c|] eqn:Hc; [|done]. case_if; [done|]. cbn.
  apply NoDup_cons. split; [|done]. intros ([q d] & Hme & Hq)%list_elem_of_fmap. simpl in Hme.
  apply to_move_elem in Hq as (Hq & Hd & _). apply Hp. rewrite (Hinj p q c d); [done|mem|mem|done..].
Qed.

(** [move_chroutines_to_thread] in terms of its loop. *)
Lemma move_eq s other h o' ids :
  this other ≠ this (th s) →
  move_loop (running_id (sch s)) (chroutines_sched (sch s)) (hp s) other = (h, o', ids) →
  move_chroutines_to_thread s other =
    (upd_th (set_thread_state thread_state_t_blocking)
       (foldl (λ x i, remove_chroutine i x) (mk_cell h (set_thread_state thread_state_t_shifting (th s))) ids), o').
Proof.
  intros Hne Hm. unfold move_chroutines_to_thread. apply Nat.eqb_neq in Hne. rewrite Hne.
  cbn [upd_th th hp set_thread_state m_schedule]. by rewrite Hm.
Qed.

(** The state of both threads after a move. *)
Record moved_to (s : cell) (other : chroutine_thread_t) (s' : cell) (other' : chroutine_thread_t) : Prop := {
  mt_wf : wf_cell s';
  mt_wf_other : wf (chs (hp s')) (next_ptr (hp s')) (ms_chroutine_id (hp s')) (m_schedule other');
  mt_sched : ∀ q c, obj q s = Some c →
     q ∈ chroutines_sched (sch s') ↔ q ∈ chroutines_sched (sch s) ∧ me c = running_id (sch s);
  mt_sched_other : chroutines_sched (m_schedule other') =
     chroutines_sched (m_schedule other) ++ seq (next_ptr (hp s)) (length (leaving s));
  mt_moved : ∀ i p c, leaving s !! i = Some (p, c) →
     obj (next_ptr (hp s) + i) s' = Some (resettled (this other) c) ∧
     chroutines_map (m_schedule other') !! me c = Some (Some (next_ptr (hp s) + i)%nat) ∧
     get_chroutine (me c) s' = None;
  mt_stays : ∀ q c, obj q s = Some c → me c = running_id (sch s) → obj q s' = Some c;
  mt_running : running_id (sch s') = running_id (sch s);
  mt_state : m_state (th s') = thread_state_t_blocking
}.

Lemma move_facts s other s' other' :
  wf_cell s → wf (chs (hp s)) (next_ptr (hp s)) (ms_chroutine_id (hp s)) (m_schedule other) →
  movable (chroutines_sched (sch s)) (chs (hp s)) (m_schedule other) → this other ≠ this (th s) →
  move_chroutines_to_thread s other = (s', other') →
  moved_to s other s' other'.
Proof.
  intros Hs Ho Hmv Hne Hmove.
  destruct (move_loop (running_id (sch s)) (chroutines_sched (sch s)) (hp s) other) as [[h o'] ids] eqn:Hm.
  rewrite (move_eq s other h o' ids) in Hmove by done. injection Hmove as <- <-.
  pose proof (wf_nodup _ _ _ _ (proj1 Hs)) as Hnd.
  assert (Hl : ∀ p, p ∈ chroutines_sched (sch s) → is_Some (chs (hp s) !! p) ∧ (p < next_ptr (hp s))%nat).
  { intros p Hp. destruct (wf_sched _ _ _ _ (proj1 Hs) p Hp) as (c & Hc & _).
    assert (Hsome : is_Some (chs (hp s) !! p)) by (by eexists). split; [done|]. by apply (wf_fresh _ _ _ _ (proj1 Hs)). }
  destruct (move_loop_spec _ _ _ _ _ _ _ Hnd Hl Hm) as [Hids Hnext [_ Hms] Hold Hnew Hoth].
  destruct (move_loop_wf _ _ _ _ _ _ _ _ _ Hnd (proj1 Hs) Ho Hmv Hm) as [Hwf1 Hwf2].
  fold (leaving s) in *. pose proof (NoDup_leaving s Hs) as Hnid. rewrite <- Hids in Hnid.
  assert (Hlen : length ids = length (leaving s)) by (by rewrite Hids, length_fmap).
  set (s1 := mk_cell h (set_thread_state thread_state_t_shifting (th s))).
  assert (Hs1 : wf_cell s1) by (split; simpl; rewrite Hms; [exact Hwf1|apply Hs]).
  split.
  - apply upd_th_wf; [done|]. by apply foldl_remove_wf.
  - simpl. rewrite foldl_remove_hp. simpl. by rewrite Hms.
  - intros q c Hc. simpl.
    assert (Hq1 : ∃ c', obj q s1 = Some c' ∧ me c' = me c).
    { unfold obj. simpl. rewrite (Hold q c); [|done|apply (wf_fresh _ _ _ _ (proj1 Hs)); by eexists].
      case_bool_decide; by eexists. }
    destruct Hq1 as (c' & Hc' & Hme). rewrite (foldl_remove_sched ids s1 q c' Hs1 Hc'), Hme. simpl.
    split; intros [Hq Hi]; (split; [done|]).
    + destruct (decide (me c = running_id (sch s))) as [|Hrun]; [done|]. exfalso. apply Hi. rewrite Hids.
      apply list_elem_of_fmap. exists (q, c). split; [done|]. by apply to_move_elem.
    + rewrite Hids. intros ([p d] & Hmd & Hpd)%list_elem_of_fmap. simpl in Hmd. apply to_move_elem in Hpd as (_ & _ & ?). congruence.
  - by rewrite Hoth, <- Hlen; simpl; rewrite add_all_sched.
  - intros i p c Hi. simpl. split_and!.
    + unfold obj. simpl. rewrite foldl_remove_hp. by apply (Hnew i p c).
    + rewrite Hoth. simpl. apply (add_all_map _ _ _ i); [done| |done]. rewrite Hids, list_lookup_fmap, Hi. done.
    + apply foldl_remove_get. rewrite Hids. apply list_elem_of_fmap. exists (p, c). split; [done|].
      by apply (list_elem_of_lookup_2 _ i).
  - intros q c Hc Hrun. unfold obj. simpl. rewrite foldl_remove_hp. simpl.
    rewrite (Hold q c); [|done|apply (wf_fresh _ _ _ _ (proj1 Hs)); by eexists].
    rewrite bool_decide_eq_false_2; [done|]. intros ([p d] & -> & Hpd)%list_elem_of_fmap. simpl in Hc.
    apply to_move_elem in Hpd as (_ & Hd & ?). unfold obj in Hc. congruence.
  - simpl. by rewrite foldl_remove_running.
  - done.
Qed.

Lemma foldl_remove_map ids s i :
  chroutines_map (sch (foldl (λ x i, remove_chroutine i x) s ids)) !! i =
  if decide (i ∈ ids) then None else chroutines_map (sch s) !! i.
Proof.
  revert s. induction ids as [|j ids IH]; intros s; simpl; [done|]. rewrite IH, remove_chroutine_map.
  destruct (decide (i = j)) as [->|Hne].
  - rewrite lookup_delete_eq. rewrite (decide_True (P := j ∈ j :: ids)) by mem. by case_decide.
  - rewrite lookup_delete_ne by done. destruct (decide (i ∈ ids)) as [Hi|Hi].
    + by rewrite decide_True by mem.
    + by rewrite decide_False by mem.
Qed.

Lemma add_all_keep x ids q i : i ∉ ids → chroutines_map (add_all x ids q) !! i = chroutines_map x !! i.
Proof.
  revert x q. induction ids as [|j ids IH]; intros x q Hi; [done|]. rewrite add_all_cons, IH by mem.
  simpl. apply lookup_insert_ne. intros ->. apply Hi. mem.
Qed.

(** What a move leaves alone: the objects this thread does not list, the
    threads of the same heap, and the rest of both maps. *)
Record moved_rest (s : cell) (other : chroutine_thread_t) (s' : cell) (other' : chroutine_thread_t) : Prop := {
  mr_ms : ms_chroutine_id (hp s') = ms_chroutine_id (hp s);
  mr_old : ∀ q c, obj q s = Some c → q ∉ chroutines_sched (sch s) → obj q s' = Some c;
  mr_wf : ∀ x, wf (chs (hp s)) (next_ptr (hp s)) (ms_chroutine_id (hp s)) x →
     wf (chs (hp s')) (next_ptr (hp s')) (ms_chroutine_id (hp s')) x;
  mr_sub : ∀ q, q ∈ chroutines_sched (sch s') → q ∈ chroutines_sched (sch s);
  mr_map : ∀ i, chroutines_map (sch s') !! i =
     if decide (i ∈ (λ pc, me pc.2) <$> leaving s) then None else chroutines_map (sch s) !! i;
  mr_map_other : ∀ i, i ∉ (λ pc, me pc.2) <$> leaving s →
     chroutines_map (m_schedule other') !! i = chroutines_map (m_schedule other) !! i;
  mr_running_other : running_id (m_schedule other') = running_id (m_schedule other)
}.

Lemma add_all_running x ids q : running_id (add_all x ids q) = running_id x.
Proof. revert x q. induction ids as [|j ids IH]; intros x q; [done|]. by rewrite add_all_cons, IH. Qed.

Lemma move_rest s other s' other' :
  wf_cell s → wf (chs (hp s)) (next_ptr (hp s)) (ms_chroutine_id (hp s)) (m_schedule other) →
  movable (chroutines_sched (sch s)) (chs (hp s)) (m_schedule other) → this other ≠ this (th s) →
  move_chroutines_to_thread s other = (s', other') → moved_rest s other s' other'.
Proof.
  intros Hs Ho Hmv Hne Hmove.
  destruct (move_loop (running_id (sch s)) (chroutines_sched (sch s)) (hp s) other) as [[h o'] ids] eqn:Hm.
  rewrite (move_eq s other h o' ids) in Hmove by done. injection Hmove as <- <-.
  pose proof (wf_nodup _ _ _ _ (proj1 Hs)) as Hnd.
  assert (Hl : ∀ p, p ∈ chroutines_sched (sch s) → is_Some (chs (hp s) !! p) ∧ (p < next_ptr (hp s))%nat).
  { intros p Hp. destruct (wf_sched _ _ _ _ (proj1 Hs) p Hp) as (c & Hc & _).
    assert (Hsome : is_Some (chs (hp s) !! p)) by (by eexists). split; [done|]. by apply (wf_fresh _ _ _ _ (proj1 Hs)). }
  destruct (move_loop_spec _ _ _ _ _ _ _ Hnd Hl Hm) as [Hids _ [_ Hms] Hold _ Hoth]. fold (leaving s) in *.
  set (s1 := mk_cell h (set_thread_state thread_state_t_shifting (th s))).
  assert (Hs1 : wf_cell s1).
  { split; simpl; rewrite Hms; [|apply Hs]. apply (move_loop_wf _ _ _ _ _ _ _ _ _ Hnd (proj1 Hs) Ho Hmv Hm). }
  split.
  - simpl. by rewrite foldl_remove_hp.
  - intros q c Hc Hq. unfold obj. simpl. rewrite foldl_remove_hp. simpl.
    rewrite (Hold q c); [|done|apply (wf_fresh _ _ _ _ (proj1 Hs)); by eexists].
    rewrite bool_decide_eq_false_2; [done|]. by intros ?%to_move_fst.
  - intros x Hx. simpl. rewrite foldl_remove_hp. simpl. rewrite Hms.
    apply (move_loop_wf _ _ _ _ _ _ _ _ _ Hnd Hx Ho Hmv Hm).
  - intros q Hq. simpl in Hq. pose proof (foldl_remove_wf ids s1 Hs1) as Hw.
    destruct (wf_sched _ _ _ _ (proj1 Hw) q Hq) as (d & Hd & _). rewrite foldl_remove_hp in Hd.
    by apply (foldl_remove_sched ids s1 q d Hs1 Hd) in Hq as [? _].
  - intros i. simpl. rewrite foldl_remove_map. by rewrite Hids.
  - intros i Hi. rewrite Hoth. simpl. rewrite Hids. by apply add_all_keep.
  - rewrite Hoth. simpl. apply add_all_running.
Qed.

(** C7: moving the coroutines of a thread to another one loses none, keeps
    their order and ids, and leaves the running one: afterwards both threads
    are well-formed, the blocked thread lists exactly what it was running, the
    other one lists what it had followed by one new object per coroutine that
    left, in the order of the old list, each with the contents of the old
    object but the link of its context; each id that left is known to the
    other thread and no longer to this one. *)
Theorem move_keeps_every_coroutine s other s' other' :
  wf_cell s → wf (chs (hp s)) (next_ptr (hp s)) (ms_chroutine_id (hp s)) (m_schedule other) →
  movable (chroutines_sched (sch s)) (chs (hp s)) (m_schedule other) → this other ≠ this (th s) →
  move_chroutines_to_thread s other = (s', other') →
  wf_cell s' ∧ wf (chs (hp s')) (next_ptr (hp s')) (ms_chroutine_id (hp s')) (m_schedule other') ∧
  (∀ q c, obj q s = Some c →
     q ∈ chroutines_sched (sch s') ↔ q ∈ chroutines_sched (sch s) ∧ me c = running_id (sch s)) ∧
  chroutines_sched (m_schedule other') =
    chroutines_sched (m_schedule other) ++ seq (next_ptr (hp s)) (length (leaving s)) ∧
  (∀ i p c, leaving s !! i = Some (p, c) →
     obj (next_ptr (hp s) + i) s' = Some (resettled (this other) c) ∧
     chroutines_map (m_schedule other') !! me c = Some (Some (next_ptr (hp s) + i)%nat) ∧
     get_chroutine (me c) s' = None) ∧
  m_state (th s') = thread_state_t_blocking.
Proof.
  intros Hs Ho Hmv Hne Hmove. destruct (move_facts s other s' other' Hs Ho Hmv Hne Hmove). by split_and!.
Qed.

Lemma movable_fresh s y : wf_cell s → chroutines_map y = ∅ → movable (chroutines_sched (sch s)) (chs (hp s)) y.
Proof.
  intros [Hwf _] Hy. split.
  - intros p Hp. destruct (wf_sched _ _ _ _ Hwf p Hp) as (c & Hc & _). exists c. by rewrite Hy, lookup_empty.
  - intros p q c d Hp Hq Hc Hd. by apply (wf_id_inj Hwf).
Qed.

Lemma wf_new_thread s t : wf_cell s → wf (chs (hp s)) (next_ptr (hp s)) (ms_chroutine_id (hp s)) (m_schedule (new_thread t)).
Proof.
  intros [[Hf Hr Hsc Hnd Hm Hk Hi Hfr] _]. split; simpl; try done; try (intros p Hp; by apply elem_of_nil in Hp). constructor.
Qed.

(** Thread 0 runs coroutine 1 and holds 2 and 3; thread 1 is fresh. *)
Definition blocked : list event :=
  [ev_external (call_create (Some 10) 0); ev_external (call_create (Some 20) 0);
   ev_external (call_create (Some 30) 0); ev_pick 10 10].

Definition blocked_cell : cell := fst (end_of blocked).
Definition after_move : cell * chroutine_thread_t := move_chroutines_to_thread blocked_cell (new_thread 1).

Lemma move_keeps_every_coroutine_witness :
  wf_cell (fst after_move) ∧ chroutines_sched (m_schedule (snd after_move)) = [4; 5]%nat ∧
  get_chroutine 2 (fst after_move) = None.
Proof.
  assert (Hwf : wf_cell blocked_cell) by (apply end_of_wf; by vm_compute).
  assert (Hth : this (new_thread 1) ≠ this (th blocked_cell)) by by_compute.
  destruct (move_keeps_every_coroutine blocked_cell (new_thread 1) (fst after_move) (snd after_move) Hwf
    (wf_new_thread _ 1 Hwf) (movable_fresh _ (m_schedule (new_thread 1)) Hwf eq_refl) Hth (surjective_pairing _)) as (H1 & _ & _ & H4 & H5 & _).
  split; [exact H1|]. split.
  - rewrite H4. vm_compute. reflexivity.
  - assert (Hl : option_map (λ pc, me (snd pc)) (leaving blocked_cell !! 0%nat) = Some 2) by (vm_compute; reflexivity).
    destruct (leaving blocked_cell !! 0%nat) as [[p c]|] eqn:E; [|discriminate]. injection Hl as Hl.
    destruct (H5 0%nat p c E) as (_ & _ & Hg). by rewrite Hl in Hg.
Defined.

(** ** What the moved contexts do *)

(** The first time a context is swapped in, [entry] runs on the thread object
    that [makecontext] recorded; the result is the object whose function it
    then calls. *)
Definition start_context (u : ucontext_t) (w : world) : option (option nat * world) :=
  on_thread (mc_arg u) entry_start w.

(** The function called by [entry] returns: [entry] finishes with the local
    variables [p_this], [p_c] of its stack frame. *)
Definition return_context (u : ucontext_t) (p_c : nat) (w : world) : option (unit * world) :=
  on_thread (mc_arg u) (λ s, (tt, entry_finish p_c s)) w.

(** What [entry] finds on the blocked thread. *)
Lemma entry_start_blocked p0 c0 s' :
  wf_cell s' → obj p0 s' = Some c0 → running_id (sch s') = me c0 → p0 ∈ chroutines_sched (sch s') →
  fst (entry_start s') = Some p0.
Proof.
  intros Hwf Hc Hi Hp. unfold entry_start. by rewrite Hi, (get_chroutine_sched p0 c0 s' Hwf Hp Hc).
Qed.

Definition both (s : cell) (t : nat) (other : chroutine_thread_t) : world :=
  mk_world (hp s) (<[t := th s]> {[ this other := other ]}).

Lemma on_thread_both {A} (s : cell) t other (f : cell → A * cell) :
  ∃ w', on_thread t f (both s t other) = Some (fst (f s), w').
Proof.
  unfold on_thread, both. cbn [w_threads w_heap]. rewrite lookup_insert_eq.
  destruct s as [h x]. cbn [hp th]. destruct (f (mk_cell h x)) as [a y]. by eexists.
Qed.

(** A coroutine that has not started when it is moved does not run its
    own function: its context still calls [entry] on the thread it came from,
    which looks up the coroutine that blocks this thread, and calls the
    function of that one a second time. *)
Theorem moved_unstarted_runs_wrong_function s p0 other s' other' i p c u :
  cfg_ok (s, Some p0) → p0 ∈ chroutines_sched (sch s) →
  wf (chs (hp s)) (next_ptr (hp s)) (ms_chroutine_id (hp s)) (m_schedule other) →
  movable (chroutines_sched (sch s)) (chs (hp s)) (m_schedule other) → this other ≠ this (th s) →
  move_chroutines_to_thread s other = (s', other') →
  leaving s !! i = Some (p, c) → ctx c = Some u → mc_arg u = this (th s) →
  ∃ c' u' w', obj (next_ptr (hp s) + i) s' = Some c' ∧ me c' = me c ∧ ctx c' = Some u' ∧
    start_context u' (both s' (this (th s)) other') = Some (Some p0, w') ∧
    p0 ≠ (next_ptr (hp s) + i)%nat.
Proof.
  intros Hok Hp0 Ho Hmv Hne Hmove Hi Hu Harg. pose proof (ok_wf _ Hok) as Hs. simpl in Hs.
  pose proof (ok_run _ Hok) as (c0 & Hc0 & Hrun & _). simpl in *.
  destruct (move_facts s other s' other' Hs Ho Hmv Hne Hmove) as [Hwf _ Hsch _ Hmoved Hstay Hrun' _].
  destruct (Hmoved i p c Hi) as (Hc' & _ & _).
  destruct (on_thread_both s' (this (th s)) other' entry_start) as [w' Hw'].
  exists (resettled (this other) c), (mk_ucontext (ss_size u) (this other) (mc_arg u) (entry_pc u)), w'.
  split_and!; [done|apply resettled_id| | |].
  - unfold resettled. simpl. by rewrite Hu.
  - unfold start_context. simpl. rewrite Harg, Hw'. do 2 f_equal.
    apply (entry_start_blocked p0 c0); [done|by apply Hstay|congruence|]. by apply (Hsch p0 c0).
  - assert (p0 < next_ptr (hp s))%nat; [|lia]. apply (wf_fresh _ _ _ _ (proj1 Hs)). by eexists.
Qed.

Lemma moved_unstarted_runs_wrong_function_witness :
  ∃ c' u' w', obj 4 (fst after_move) = Some c' ∧ me c' = 2 ∧ ctx c' = Some u' ∧
    start_context u' (both (fst after_move) 0 (snd after_move)) = Some (Some 1%nat, w').
Proof.
  assert (Hr : reachable 0 (blocked_cell, Some 1%nat)) by (by apply end_of_running; vm_compute).
  assert (Hok : cfg_ok (blocked_cell, Some 1%nat)) by exact (reachable_ok 0 _ Hr).
  assert (Hwf : wf_cell blocked_cell) by (apply end_of_wf; by vm_compute).
  assert (Hth : this (new_thread 1) ≠ this (th blocked_cell)) by by_compute.
  assert (Hl : option_map (λ pc, (me (snd pc), mc_arg <$> ctx (snd pc))) (leaving blocked_cell !! 0%nat) = Some (2, Some 0%nat))
    by (vm_compute; reflexivity).
  destruct (leaving blocked_cell !! 0%nat) as [[p c]|] eqn:E; [|discriminate]. simpl in Hl.
  destruct (ctx c) as [u|] eqn:Eu; [|discriminate]. injection Hl as Hme Harg.
  assert (Hin : 1%nat ∈ chroutines_sched (sch blocked_cell)) by by_compute.
  destruct (moved_unstarted_runs_wrong_function blocked_cell 1 (new_thread 1) (fst after_move) (snd after_move) 0 p c u
    Hok Hin (wf_new_thread _ 1 Hwf) (movable_fresh _ (m_schedule (new_thread 1)) Hwf eq_refl) Hth (surjective_pairing _) E Eu Harg)
    as (c' & u' & w' & H1 & H2 & H3 & H4 & _).
  exists c', u', w'. split; [exact H1|]. split; [by rewrite H2|]. split; [exact H3|exact H4].
Defined.

(** A coroutine that is moved after it has started and then returns on
    its new thread: [entry] clears the running id of the old thread; the new
    thread keeps it, so every later pass of the new thread returns at once,
    reporting work, and none of its coroutines is ever resumed again. *)
Theorem moved_started_return_blocks_new_thread u p_c w w' t x :
  mc_arg u ≠ t → w_threads w !! t = Some x → running_id (m_schedule x) ≠ INVALID_ID →
  return_context u p_c w = Some (tt, w') →
  w_threads w' !! t = Some x ∧
  ∀ resume now now', let s := mk_cell (w_heap w') x in pick_run_chroutine resume now now' s = (1, s).
Proof.
  intros Harg Hx Hrun Hret. unfold return_context, on_thread in Hret.
  destruct (w_threads w !! mc_arg u) as [y|]; [|done]. simplify_eq. simpl.
  split; [by rewrite lookup_insert_ne|]. intros resume now now'. unfold pick_run_chroutine, pick_run_begin. simpl.
  apply Z.eqb_neq in Hrun. by rewrite Hrun.
Qed.

(** Coroutine 2 has started on thread 0 and sleeps when 1 blocks the thread;
    it is moved to thread 1, woken there, and returns. *)
Definition blocked_started : list event :=
  [ev_external (call_create (Some 10) 0); ev_external (call_create (Some 20) 0);
   ev_pick 10 10; ev_call (call_sleep 10 5); ev_pick 11 11; ev_call (call_sleep 11 5);
   ev_pick 20 20].

Definition started_move : cell * chroutine_thread_t :=
  move_chroutines_to_thread (fst (end_of blocked_started)) (new_thread 1).

Definition resumed_there : cell :=
  fst (fst (pick_run_begin 30 30 (mk_cell (hp (fst started_move)) (snd started_move)))).

Definition world_there : world :=
  mk_world (hp resumed_there) (<[0%nat := th (fst started_move)]> {[ 1%nat := th resumed_there ]}).

Definition old_context : ucontext_t := mk_ucontext STACK_SIZE 1 0 (Some 2%nat).

Lemma moved_started_return_blocks_new_thread_witness :
  running_id (sch resumed_there) = 2 ∧
  ∃ w', return_context old_context 2 world_there = Some (tt, w') ∧
    w_threads w' !! 1%nat = Some (th resumed_there) ∧
    fst (pick_run_chroutine (λ _ s, s) 40 40 (mk_cell (w_heap w') (th resumed_there))) = 1.
Proof.
  assert (Hrun : running_id (sch resumed_there) = 2) by (vm_compute; reflexivity).
  assert (Ht : w_threads world_there !! 1%nat = Some (th resumed_there)).
  { unfold world_there. cbn [w_threads]. rewrite lookup_insert_ne by done. apply lookup_singleton_eq. }
  assert (Hret : ∃ w', return_context old_context 2 world_there = Some (tt, w')).
  { unfold return_context, on_thread, world_there. cbn [w_threads mc_arg old_context]. rewrite lookup_insert_eq. by eexists. }
  destruct Hret as [w' Hret]. split; [exact Hrun|]. exists w'. split; [exact Hret|].
  destruct (moved_started_return_blocks_new_thread old_context 2 world_there w' 1 (th resumed_there)
    ltac:(done) Ht ltac:(unfold INVALID_ID; rewrite Hrun; done) Hret) as [H1 H2].
  split; [exact H1|]. rewrite (H2 (λ _ s, s) 40 40). reflexivity.
Defined.
