(* ===== verification/Loop.v ===== *)
(** * The main loop of a thread: polling and shutting down *)

From S2P Require Import Prelude Reporter Chroutine Load Thread ThreadInv Sched Run Safety.
Local Open Scope Z_scope.

(** ** The selector list *)

(** A [std::map] iterates in strictly increasing key order. *)
Definition keys_ok (l : list nat) : Prop := StronglySorted lt l.

Lemma insert_key_elem k l x : x ∈ insert_key k l ↔ x = k ∨ x ∈ l.
Proof.
  induction l as [|y l IH]; simpl; [rewrite list_elem_of_singleton; split; [auto|intros [?|Hx]; [done|by apply elem_of_nil in Hx]]|].
  case_if; rewrite !elem_of_cons, ?IH; tauto.
Qed.

Lemma insert_key_ok k l : keys_ok l → k ∉ l → keys_ok (insert_key k l).
Proof.
  unfold keys_ok. induction l as [|y l IH]; intros Hl Hk; simpl.
  - constructor; [done|constructor].
  - apply StronglySorted_inv in Hl as [Hl Hy].
    destruct (Nat.ltb_spec k y).
    + constructor; [by constructor|]. constructor; [done|].
      eapply Forall_impl; [exact Hy|]. simpl. lia.
    + constructor; [apply IH; [done|mem]|]. apply Forall_forall. intros x [->|Hx]%insert_key_elem.
      * assert (k ≠ y) by (intros ->; apply Hk; mem). lia.
      * by apply (proj1 (Forall_forall _ _) Hy).
Qed.

(** Registering and unregistering keep the selector list a map: sorted by
    key without duplicates.  A registered object is in it exactly once however
    often it is registered, and unregistering removes it and nothing else. *)
Theorem register_unregister s k :
  keys_ok (m_selector_list (th s)) →
  let s1 := register_selector (Some k) s in
  let s2 := unregister_selector k s in
  keys_ok (m_selector_list (th s1)) ∧ keys_ok (m_selector_list (th s2)) ∧
  (∀ x, x ∈ m_selector_list (th s1) ↔ x = k ∨ x ∈ m_selector_list (th s)) ∧
  (∀ x, x ∈ m_selector_list (th s2) ↔ x ≠ k ∧ x ∈ m_selector_list (th s)) ∧
  register_selector (Some k) s1 = s1 ∧
  (k ∉ m_selector_list (th s) → unregister_selector k s1 = s).
Proof.
  intros Hok s1 s2.
  assert (H1 : ∀ x, x ∈ m_selector_list (th s1) ↔ x = k ∨ x ∈ m_selector_list (th s)).
  { intros x. subst s1. unfold register_selector. case_bool_decide as Hk; [|simpl; apply insert_key_elem].
    split; [tauto|]. by intros [->|?]. }
  split_and!; [| |done| | |].
  - subst s1. unfold register_selector. case_bool_decide as Hk; [done|]. by apply insert_key_ok.
  - subst s2. unfold unregister_selector. case_bool_decide as Hk; [|done]. by apply StronglySorted_filter.
  - intros x. subst s2. unfold unregister_selector. case_bool_decide as Hk; simpl.
    + by rewrite list_elem_of_filter.
    + split; [|tauto]. intros Hx. split; [|done]. by intros ->.
  - unfold register_selector. rewrite bool_decide_eq_true_2; [done|]. apply H1. by left.
  - intros Hk. subst s1. unfold register_selector, unregister_selector. rewrite (bool_decide_eq_false_2 _ Hk). simpl.
    rewrite bool_decide_eq_true_2 by (apply insert_key_elem; by left).
    assert (Hf : filter (λ x, x ≠ k) (insert_key k (m_selector_list (th s))) = m_selector_list (th s)).
    { clear -Hk. induction (m_selector_list (th s)) as [|y l IH].
      - simpl. rewrite filter_cons. by case_decide.
      - simpl. assert (y ≠ k) by (intros ->; apply Hk; mem). case_if.
        + rewrite filter_cons. case_decide; [done|]. rewrite filter_keeps_all; [done|].
          intros x Hx ->. apply Hk. mem.
        + rewrite filter_cons. case_decide; [|done]. f_equal. apply IH. mem. }
    unfold upd_th. simpl. rewrite Hf. by destruct s as [? []].
Qed.

Lemma register_unregister_witness :
  let s := register_selector (Some 7%nat) (register_selector (Some 9%nat) (mk_cell heap_init (new_thread 0))) in
  keys_ok (m_selector_list (th s)) ∧
  unregister_selector 8 (register_selector (Some 8%nat) s) = s.
Proof.
  intros s. assert (Hk : keys_ok (m_selector_list (th s))).
  { vm_compute. repeat constructor. }
  split; [exact Hk|]. destruct (register_unregister s 8 Hk) as (_ & _ & _ & _ & _ & H). apply H. by_compute.
Defined.

(** ** Polling *)

Section poll.
Context (select : nat → cell → Z * cell).

(** The objects polled one after the other. *)
Fixpoint poll_all (l : list nat) (n : Z) (s : cell) : Z * cell :=
  match l with
  | [] => (n, s)
  | k :: r => let '(m, s') := select k s in poll_all r (n + m) s'
  end.

(** Callbacks that neither register nor unregister. *)
Context (Hkeep : ∀ k s, m_selector_list (th (snd (select k s))) = m_selector_list (th s)).

Lemma next_key_split l1 k l2 : keys_ok (l1 ++ k :: l2) → next_key k (l1 ++ k :: l2) = head l2.
Proof.
  intros Hl. unfold next_key.
  assert (filter (λ x, (k < x)%nat) (l1 ++ k :: l2) = l2) as ->; [|done].
  unfold keys_ok in Hl. induction l1 as [|y l1 IH]; simpl.
  - apply StronglySorted_inv in Hl as [_ Hk]. rewrite filter_cons. case_decide; [lia|].
    apply filter_keeps_all. intros x Hx. by apply (proj1 (Forall_forall _ _) Hk).
  - apply StronglySorted_inv in Hl as [Hl Hy]. rewrite filter_cons. case_decide; [|by apply IH].
    assert (y < k)%nat; [|lia]. apply (proj1 (Forall_forall _ _) Hy). mem.
Qed.

Lemma select_loop_poll l1 l2 n s fuel :
  keys_ok (l1 ++ l2) → m_selector_list (th s) = l1 ++ l2 → (length l2 <= fuel)%nat →
  select_loop select fuel (head l2) n s = let '(m, s') := poll_all l2 n s in select_done m s'.
Proof.
  revert l1 n s fuel. induction l2 as [|k l2 IH]; intros l1 n s fuel Hok Hl Hf; [by destruct fuel|].
  destruct fuel as [|fuel]; [simpl in Hf; lia|]. simpl. pose proof (Hkeep k s) as Hs.
  destruct (select k s) as [m s']. simpl in Hs. rewrite Hs, Hl.
  rewrite bool_decide_eq_true_2 by mem. rewrite next_key_split by done.
  apply (IH (l1 ++ [k])); [by rewrite <- (assoc_L (++))|by rewrite Hs, Hl, <- (assoc_L (++))|simpl in Hf; lia].
Qed.
End poll.

(** One round of polling.  When the callbacks do not register or
    unregister objects, [select_all] terminates, polls every registered object
    exactly once in key order, and returns the sum of the results; no iterator
    dangles. *)
Theorem select_all_polls_once select s fuel :
  (∀ k t, m_selector_list (th (snd (select k t))) = m_selector_list (th t)) →
  keys_ok (m_selector_list (th s)) → (length (m_selector_list (th s)) <= fuel)%nat →
  select_all select fuel s =
    let '(n, s') := poll_all select (m_selector_list (th s)) 0 s in select_done n s'.
Proof. intros Hkeep Hok Hf. unfold select_all. by apply (select_loop_poll select Hkeep []). Qed.

Lemma select_all_polls_once_witness :
  let s := register_selector (Some 7%nat) (register_selector (Some 9%nat) (mk_cell heap_init (new_thread 0))) in
  select_all (λ k s, (Z.of_nat k, s)) 2 s = select_done 16 s.
Proof.
  intros s. rewrite (select_all_polls_once (λ k s, (Z.of_nat k, s)) s 2).
  - reflexivity.
  - done.
  - vm_compute. repeat constructor.
  - vm_compute. lia.
Defined.

(** ** Shutting down *)

Lemma destroyed_lookup ps h p : p ∈ ps → destroy ps h !! p = None.
Proof. intros Hp. rewrite destroy_lookup. by rewrite bool_decide_eq_true_2. Qed.

(** The iterations of the loop one after the other, each begun because
    [m_need_stop] was not set; [None] when one of them was not begun. *)
Fixpoint iterate (its : list iteration) (s : cell) : option cell :=
  match its with
  | [] => Some s
  | i :: its' =>
    if m_need_stop (th s) then None
    else match schedule_step i s with
         | Some (_, s') => iterate its' s'
         | None => None
         end
  end.

Lemma schedule_loop_stops is1 is2 s s1 :
  iterate is1 s = Some s1 → m_need_stop (th s1) = true → schedule_loop (is1 ++ is2) s = Some s1.
Proof.
  revert s. induction is1 as [|i is1 IH]; intros s Hi Hs; simpl in Hi.
  - simplify_eq. simpl. destruct is2; simpl; by rewrite Hs.
  - simpl. destruct (m_need_stop (th s)); [done|]. destruct (schedule_step i s) as [[b s']|]; [auto|done].
Qed.

Lemma schedule_loop_goes_on its s s1 :
  iterate its s = Some s1 → m_need_stop (th s1) = false → schedule_loop its s = None.
Proof.
  revert s. induction its as [|i its IH]; intros s Hi Hs; simpl in Hi.
  - simplify_eq. simpl. by rewrite Hs.
  - simpl. destruct (m_need_stop (th s)); [done|]. destruct (schedule_step i s) as [[b s']|]; [auto|done].
Qed.

(** Nothing the thread does itself unsets the flag: if what an iteration calls
    keeps it, a [stop] at any moment of the iteration is seen by the next
    test. *)
Definition stopped (s : cell) : Prop := m_need_stop (th s) = true.

Lemma remove_chroutine_stopped id s : stopped s → stopped (remove_chroutine id s).
Proof. unfold stopped, remove_chroutine. intros Hs. by repeat case_match. Qed.

Lemma pick_run_begin_stopped now now' s : stopped s → stopped (fst (fst (pick_run_begin now now' s))).
Proof.
  intros Hs. unfold pick_run_begin. case_if; [done|]. cbv zeta. destruct (chroutines_sched _) as [|p0 l0]; [done|].
  destruct (pick_loop _ _ _ _ _ _) as [[[h [p|]] it] n]; [|done].
  set (s2 := upd_sch _ _). assert (H2 : stopped s2) by done. clearbody s2.
  pose proof (yield_over_at_th p result_timeout s2) as Hth. destruct (yield_over_at p result_timeout s2) as [tmo s3]. cbn [fst snd] in *.
  assert (H3 : stopped (remove_chroutine tmo s3)) by (apply remove_chroutine_stopped; unfold stopped; by rewrite Hth).
  by destruct (obj p _).
Qed.

Lemma select_loop_stopped select fuel iter n s n' s' :
  (∀ k t, stopped t → stopped (snd (select k t))) →
  select_loop select fuel iter n s = select_done n' s' → stopped s → stopped s'.
Proof.
  intros Hk. revert iter n s. induction fuel as [|fuel IH]; intros [k|] n s; simpl; intros Hd Hs; simplify_eq; [done| |done].
  specialize (Hk k s Hs). destruct (select k s) as [m s1]. cbn [snd] in Hk. case_bool_decide; [|done]. by eapply IH.
Qed.

Lemma stop_survives_iteration i s b s' :
  (∀ k t, stopped t → stopped (snd (i_select i k t))) → (∀ p t, stopped t → stopped (i_resume i p t)) →
  (∀ t, stopped t → stopped (i_others i t)) →
  schedule_step i s = Some (b, s') → stopped s → stopped s'.
Proof.
  intros H1 H2 H3 Hstep Hs. unfold schedule_step, select_all in Hstep.
  destruct (select_loop (i_select i) _ _ _ _) as [n1 s1| |] eqn:Hsel; [|done..].
  apply (select_loop_stopped _ _ _ _ _ _ _ H1) in Hsel; [|done]. unfold pick_run_chroutine in Hstep.
  pose proof (pick_run_begin_stopped (i_now i) (i_now' i) s1 Hsel) as Hp.
  destruct (pick_run_begin _ _ s1) as [[s2 [p|]] n2]; cbn [fst] in Hp; simplify_eq; apply H3; [|exact Hp].
  exact (H2 p s2 Hp).
Qed.

(** The resumed coroutine calls [stop]. *)
Lemma stop_by_coroutine i s b s' n1 s1 :
  (∀ p t, stopped (i_resume i p t)) → (∀ t, stopped t → stopped (i_others i t)) →
  select_all (i_select i) (i_fuel i) s = select_done n1 s1 →
  snd (fst (pick_run_begin (i_now i) (i_now' i) s1)) ≠ None →
  schedule_step i s = Some (b, s') → stopped s'.
Proof.
  intros H2 H3 Hsel Hp Hstep. unfold schedule_step, pick_run_chroutine in Hstep. rewrite Hsel in Hstep.
  destruct (pick_run_begin _ _ s1) as [[s2 [p|]] n2]; [|done]. simplify_eq. apply H3. exact (H2 p s2).
Qed.

(** C36: the main loop goes on until it is stopped, and no longer.  However many
    iterations have been made, and whoever calls [stop] during the last of them
    or before (a selectable object, the coroutine, another thread): when the
    loop next tests [m_need_stop] and it is set, no further iteration is made,
    whatever would have come, and [schedule] returns: the thread is finished and
    holds nothing, every coroutine it listed or had to free is destroyed, and
    it refuses to create new ones.  As long as the flag is not set, [schedule]
    does not return. *)
Theorem stop_ends_schedule tid is1 is2 s s1 :
  iterate is1 (fst (schedule_begin tid s)) = Some s1 →
  (m_need_stop (th s1) = false → schedule tid is1 s = None) ∧
  (m_need_stop (th s1) = true →
   ∃ s', schedule tid (is1 ++ is2) s = Some s' ∧ s' = schedule_end s1 ∧
    m_state (th s') = thread_state_t_finished ∧ m_is_running (th s') = false ∧
    done s' = true ∧ chroutines_sched (sch s') = [] ∧ chroutines_to_free (sch s') = [] ∧
    (∀ p, p ∈ chroutines_sched (sch s1) ∨ Some p ∈ chroutines_to_free (sch s1) → obj p s' = None) ∧
    ∀ f a, create_chroutine f a s' = (INVALID_ID, s')).
Proof.
  intros Hi. unfold schedule. split; intros Hs.
  - by rewrite (schedule_loop_goes_on is1 _ s1).
  - rewrite (schedule_loop_stops is1 is2 _ s1) by done. exists (schedule_end s1). split_and!; try done.
    intros q Hp. unfold obj, schedule_end, clear_all_chroutine. simpl.
    apply destroyed_lookup. rewrite !elem_of_app, !list_elem_of_omap. destruct Hp as [Hp|Hp]; [by right; right|].
    right; left; by exists (Some q).
Qed.

(** A thread with one coroutine makes three iterations: in the last one the
    coroutine is resumed and calls [stop]. *)
Definition quiet_iteration (now : Z) : iteration :=
  mk_iteration now now (λ _ s, (0, s)) 0 (λ _ s, fst (yield_current 1 s)) (λ s, s).
Definition stopping_iteration (now : Z) : iteration :=
  mk_iteration now now (λ _ s, (0, s)) 0 (λ p s, stop s) (λ s, s).
Definition three_iterations : list iteration := [quiet_iteration 10; quiet_iteration 20; stopping_iteration 30].
Definition one_created : cell := fst (end_of [ev_external (call_create (Some 1) 0)]).

Lemma stop_ends_schedule_witness :
  m_need_stop (th one_created) = false ∧
  ∃ s', schedule 1 (three_iterations ++ [quiet_iteration 40]) one_created = Some s' ∧ done s' = true.
Proof.
  split; [vm_compute; reflexivity|].
  assert (H : ∃ s1, iterate three_iterations (fst (schedule_begin 1 one_created)) = Some s1 ∧ m_need_stop (th s1) = true).
  { assert (Hb : match iterate three_iterations (fst (schedule_begin 1 one_created)) with Some s1 => m_need_stop (th s1) | None => false end = true)
      by (vm_compute; reflexivity).
    destruct (iterate three_iterations _) as [s1|]; [by exists s1|done]. }
  destruct H as (s1 & H1 & H2).
  destruct (stop_ends_schedule 1 three_iterations [quiet_iteration 40] one_created s1 H1) as [_ H3].
  destruct (H3 H2) as (s' & E & _ & _ & _ & Hd & _). by exists s'.
Defined.
