(* ===== verification/Chutex.v ===== *)
(** * util/chutex.hpp, util/chutex.cpp: the spin lock [chutex_t]

    A lock is one atomic flag.  [lock] repeats a compare-and-exchange, giving
    up the processor between two attempts; [lock_attempt] is one of them, and
    the step relation of the section [protocol] interleaves the attempts of
    any number of coroutines. *)

From S2P Require Import Prelude.

(** ** The lock *)

(** [m_flag]: true when locked. *)
Record chutex_t := mk_chutex { m_flag : bool }.

Definition chutex_init : chutex_t := mk_chutex false.

(** [m_flag.compare_exchange_strong(expected, desired)] *)
Definition compare_exchange (expected desired : bool) (c : chutex_t) : bool * chutex_t :=
  if eqb (m_flag c) expected then (true, mk_chutex desired) else (false, c).

(** One evaluation of the condition of the loop of [void lock()];
    [compare_exchange_weak] may fail spuriously. *)
Definition lock_attempt (spurious : bool) (c : chutex_t) : bool * chutex_t :=
  if spurious then (false, c) else compare_exchange false true c.

(** [void lock()] over what each attempt meets: whether it fails spuriously,
    and how the other users change the lock while the caller has yielded.
    [None]: still spinning when the list ends. *)
Fixpoint lock (world : list (bool * (chutex_t → chutex_t))) (c : chutex_t) : option chutex_t :=
  match world with
  | [] => None
  | (spurious, others) :: world' =>
    match lock_attempt spurious c with
    | (true, c') => Some c'
    | (false, c') => lock world' (others c')
    end
  end.

(** [void unlock()] *)
Definition unlock (c : chutex_t) : chutex_t := mk_chutex false.

(** [bool try_lock()] *)
Definition try_lock (c : chutex_t) : bool * chutex_t := compare_exchange false true c.

Lemma lock_attempt_locked spurious c : m_flag c = true → lock_attempt spurious c = (false, c).
Proof. destruct c as [[]]; [|done]. by destruct spurious. Qed.

Lemma lock_attempt_free c : m_flag c = false → lock_attempt false c = (true, mk_chutex true).
Proof. by destruct c as [[]]. Qed.

Lemma lock_attempt_cases spurious c b c' :
  lock_attempt spurious c = (b, c') →
  (b = true ∧ spurious = false ∧ m_flag c = false ∧ c' = mk_chutex true) ∨ (b = false ∧ c' = c).
Proof.
  unfold lock_attempt, compare_exchange. destruct spurious; [naive_solver|].
  destruct c as [[]]; simpl; naive_solver.
Qed.

Lemma try_lock_attempt c : try_lock c = lock_attempt false c.
Proof. done. Qed.

(** A lock nobody releases is never acquired. *)
Lemma lock_never_free world c :
  m_flag c = true → (∀ so, so ∈ world → ∀ d, m_flag d = true → m_flag (so.2 d) = true) → lock world c = None.
Proof.
  revert c. induction world as [|[sp others] world IH]; intros c Hc Hw; [done|]. simpl.
  rewrite lock_attempt_locked by done. apply IH.
  - apply (Hw (sp, others)); [mem|done].
  - intros so Hso. apply Hw. mem.
Qed.

(** ** Any number of users *)

(** What a coroutine is doing: outside, in the loop of [lock], or between
    [lock] and [unlock] (the life time of a [chutex_guard_t]). *)
Inductive user := outside | spinning | inside.

#[export] Instance user_eq_dec : EqDecision user.
Proof. solve_decision. Defined.

Definition system : Type := chutex_t * list user.

Inductive lock_step : system → system → Prop :=
  | step_call c us i :
      us !! i = Some outside → lock_step (c, us) (c, <[i := spinning]> us)
  | step_attempt c us i spurious c' b :
      us !! i = Some spinning → lock_attempt spurious c = (b, c') →
      lock_step (c, us) (c', if b then <[i := inside]> us else us)
  | step_try c us i c' b :
      us !! i = Some outside → try_lock c = (b, c') →
      lock_step (c, us) (c', if b then <[i := inside]> us else us)
  | step_unlock c us i :
      us !! i = Some inside → lock_step (c, us) (unlock c, <[i := outside]> us).

Definition all_outside (n : nat) : system := (chutex_init, replicate n outside).

(** The number of users between [lock] and [unlock]. *)
Definition holders (us : list user) : nat := length (filter (λ u, u = inside) us).

Lemma holders_insert us i u v :
  us !! i = Some u →
  (holders (<[i := v]> us) + (if decide (u = inside) then 1 else 0) =
   holders us + (if decide (v = inside) then 1 else 0))%nat.
Proof.
  intros Hi. rewrite <- (take_drop_middle us i u Hi) at 2.
  rewrite insert_take_drop by (by eapply lookup_lt_Some).
  unfold holders. rewrite !filter_app, !filter_cons, !length_app.
  destruct (decide (v = inside)), (decide (u = inside)); simpl; lia.
Qed.

Definition lock_ok (x : system) : Prop := holders x.2 = if m_flag x.1 then 1%nat else 0%nat.

Lemma lock_step_ok x y : lock_ok x → lock_step x y → lock_ok y.
Proof.
  unfold lock_ok. intros Hx Hs.
  assert (Hacq : ∀ c us i u c' b spurious, us !! i = Some u → u ≠ inside →
    holders us = (if m_flag c then 1%nat else 0%nat) → lock_attempt spurious c = (b, c') →
    holders (if b then <[i := inside]> us else us) = if m_flag c' then 1%nat else 0%nat).
  { intros c us i u c' b spurious Hi Hu Hh Ha.
    destruct (lock_attempt_cases _ _ _ _ Ha) as [(-> & _ & Hf & ->)|[-> ->]]; [|done].
    rewrite Hf in Hh. pose proof (holders_insert us i u inside Hi).
    rewrite decide_False, decide_True in * by done. simpl. lia. }
  destruct Hs as [c us i Hi|c us i spurious c' b Hi Ha|c us i c' b Hi Ha|c us i Hi]; simpl in *.
  - rewrite <- Hx. pose proof (holders_insert us i _ spinning Hi) as H. simpl in H. lia.
  - by eapply Hacq.
  - rewrite try_lock_attempt in Ha. by eapply Hacq.
  - pose proof (holders_insert us i _ outside Hi) as H. simpl in H. destruct (m_flag c); lia.
Qed.

Lemma all_outside_ok n : lock_ok (all_outside n).
Proof. unfold lock_ok. simpl. by induction n. Qed.

Lemma one_holder us i j :
  (holders us <= 1)%nat → us !! i = Some inside → us !! j = Some inside → i = j.
Proof.
  intros Hh Hi Hj. destruct (decide (i = j)) as [|Hne]; [done|]. exfalso.
  pose proof (holders_insert us i _ outside Hi) as H1.
  assert (Hj' : <[i := outside]> us !! j = Some inside) by (by rewrite list_lookup_insert_ne).
  pose proof (holders_insert _ j _ outside Hj') as H2. simpl in *. lia.
Qed.

(** C33: mutual exclusion.  For any number of coroutines and any interleaving
    of their attempts, at most one of them is between [lock] (or a successful
    [try_lock]) and [unlock]; and the flag tells whether there is one, so that
    the next attempt of a waiting coroutine succeeds exactly when there is
    none. *)
Theorem chutex_mutual_exclusion n c us :
  rtc lock_step (all_outside n) (c, us) →
  (∀ i j, us !! i = Some inside → us !! j = Some inside → i = j) ∧
  (fst (lock_attempt false c) = true ↔ ∀ i, us !! i ≠ Some inside).
Proof.
  intros H. assert (Hok : lock_ok (c, us)).
  { eapply rtc_invariant; [exact lock_step_ok|exact H|apply all_outside_ok]. }
  unfold lock_ok in Hok. simpl in Hok. split.
  - intros i j. apply one_holder. destruct (m_flag c); lia.
  - split.
    + intros Ha i Hi. pose proof (holders_insert us i _ outside Hi) as H1. simpl in H1.
      destruct c as [[]]; [done|]. simpl in Hok. lia.
    + intros Hn. destruct c as [[]]; [|done]. exfalso. simpl in Hok.
      unfold holders in Hok. destruct (filter (λ u, u = inside) us) as [|u r] eqn:E; [done|].
      assert (Hu : u ∈ filter (λ u, u = inside) us) by (rewrite E; mem).
      apply list_elem_of_filter in Hu as [-> Hu]. apply list_elem_of_lookup_1 in Hu as [i Hi]. by apply (Hn i).
Qed.

Lemma chutex_mutual_exclusion_witness :
  let us := [inside; spinning] in
  rtc lock_step (all_outside 2) (mk_chutex true, us) ∧
  fst (lock_attempt false (mk_chutex true)) = false ∧ ∀ i j, us !! i = Some inside → us !! j = Some inside → i = j.
Proof.
  intros us. assert (H : rtc lock_step (all_outside 2) (mk_chutex true, us)).
  { eapply rtc_l; [apply (step_try _ _ 0 (mk_chutex true) true); done|].
    eapply rtc_l; [apply (step_call _ _ 1); done|]. apply rtc_refl. }
  destruct (chutex_mutual_exclusion 2 _ _ H) as [H1 H2]. split; [exact H|]. split; [done|exact H1].
Defined.
