(* ===== verification/Channel.v ===== *)
(** * engin/channel.hpp: class [channel_t]

    A ring buffer of at most [m_max_size] values with queues of waiting
    writers and readers.  The whole of [write] and [read] but the suspension
    happens between [lock] and [unlock], so one call is one transition; its
    effects on the rest of the program (the store through [out_ptr] and the
    call of [ENGIN.awake_chroutine]) are listed in order.  A call that finds
    the lock taken spins. *)

From S2P Require Import Prelude Chutex.
Local Open Scope Z_scope.

(** ** Data *)

(** The calling coroutine: its thread, its id, and whether [HOLD()] suspends
    it (outside a coroutine of the engine [HOLD] returns at once). *)
Record caller := mk_caller { c_thread : Z; c_id : Z; c_holds : bool }.

(** Effects on the rest of the program. *)
Inductive effect (T : Type) :=
  | store (out_ptr : nat) (v : T)
  | awake (thread_id chrotine_id : Z).
Arguments store {T} _ _.
Arguments awake {T} _ _.

(** How a call ends: with a result, suspended by [HOLD()] (it returns [true]
    when it is awakened), spinning in [lock], or with an access outside the
    array or through a null pointer. *)
Inductive outcome :=
  | returned (b : bool)
  | held
  | spins
  | crashed.

#[export] Instance outcome_eq_dec : EqDecision outcome.
Proof. solve_decision. Defined.

Section channel.
Context {T : Type} (dflt : T).

(** [chroutine_chan_context_t] *)
Record chroutine_chan_context_t := mk_context {
  thread_id : Z;
  chrotine_id : Z;
  out_ptr : option nat;
  in_data : T
}.

Record channel_t := mk_channel {
  m_closed : bool;
  m_w_index : Z;
  m_r_index : Z;
  m_max_size : Z;
  m_data_array : list T;
  m_unread : Z;
  m_waiting_write_que : list chroutine_chan_context_t;
  m_waiting_read_que : list chroutine_chan_context_t;
  m_lock : chutex_t
}.

Definition set_m_lock l c := mk_channel (m_closed c) (m_w_index c) (m_r_index c) (m_max_size c)
  (m_data_array c) (m_unread c) (m_waiting_write_que c) (m_waiting_read_que c) l.
Definition set_write_que q c := mk_channel (m_closed c) (m_w_index c) (m_r_index c) (m_max_size c)
  (m_data_array c) (m_unread c) q (m_waiting_read_que c) (m_lock c).
Definition set_read_que q c := mk_channel (m_closed c) (m_w_index c) (m_r_index c) (m_max_size c)
  (m_data_array c) (m_unread c) (m_waiting_write_que c) q (m_lock c).
Definition unlocked c := set_m_lock (unlock (m_lock c)) c.

(** ** Operations *)

(** [channel_t(int max_size)] and [create]; [new T[n]] leaves default values. *)
Definition create (max_size : Z) : channel_t :=
  let n := if max_size <=? 0 then 1 else max_size in
  mk_channel false 0 0 n (replicate (Z.to_nat n) dflt) 0 [] [] chutex_init.

Definition writable (c : channel_t) : Z := m_max_size c - m_unread c.
Definition readable (c : channel_t) : Z := m_unread c.

(** [void reset()] *)
Definition reset (c : channel_t) : outcome * channel_t :=
  match lock_attempt false (m_lock c) with
  | (false, _) => (spins, c)
  | (true, l) =>
    (returned true,
     unlocked (mk_channel (m_closed c) 0 0 (m_max_size c) (m_data_array c) 0
                 (m_waiting_write_que c) (m_waiting_read_que c) l))
  end.

(** [HOLD(); return true;] *)
Definition hold (who : caller) : outcome := if c_holds who then held else returned true.

(** [bool write(const void *data_ptr, bool try_)] *)
Definition write (who : caller) (data : T) (try_ : bool) (c0 : channel_t)
  : outcome * list (effect T) * channel_t :=
  match lock_attempt false (m_lock c0) with
  | (false, _) => (spins, [], c0)
  | (true, l) =>
    let c := set_m_lock l c0 in
    if writable c <? 1 then
      if try_ then (returned false, [], unlocked c)
      else
        let ctx := mk_context (c_thread who) (c_id who) None data in
        (hold who, [], unlocked (set_write_que (m_waiting_write_que c ++ [ctx]) c))
    else match m_waiting_read_que c with
    | ctx :: q =>
      match out_ptr ctx with
      | Some p =>
        (returned true, [store p data; awake (thread_id ctx) (chrotine_id ctx)],
         unlocked (set_read_que q c))
      | None => (crashed, [], c)
      end
    | [] =>
      match m_data_array c !! Z.to_nat (m_w_index c) with
      | Some _ =>
        (returned true, [],
         unlocked (mk_channel (m_closed c) (Z.rem (m_w_index c + 1) (m_max_size c)) (m_r_index c)
           (m_max_size c) (<[Z.to_nat (m_w_index c) := data]> (m_data_array c)) (m_unread c + 1)
           (m_waiting_write_que c) (m_waiting_read_que c) (m_lock c)))
      | None => (crashed, [], c)
      end
    end
  end.

(** [bool read(void *data_ptr, bool try_)].  When a writer waits, the code
    calls [*this << context.in_data], that is [write], before it unlocks. *)
Definition read (who : caller) (data_ptr : nat) (try_ : bool) (c0 : channel_t)
  : outcome * list (effect T) * channel_t :=
  match lock_attempt false (m_lock c0) with
  | (false, _) => (spins, [], c0)
  | (true, l) =>
    let c := set_m_lock l c0 in
    if readable c <? 1 then
      if try_ then (returned false, [], unlocked c)
      else
        let ctx := mk_context (c_thread who) (c_id who) (Some data_ptr) dflt in
        (hold who, [], unlocked (set_read_que (m_waiting_read_que c ++ [ctx]) c))
    else match m_data_array c !! Z.to_nat (m_r_index c) with
    | None => (crashed, [], c)
    | Some v =>
      let c1 := mk_channel (m_closed c) (m_w_index c) (Z.rem (m_r_index c + 1) (m_max_size c))
                  (m_max_size c) (m_data_array c) (m_unread c - 1)
                  (m_waiting_write_que c) (m_waiting_read_que c) (m_lock c) in
      match m_waiting_write_que c1 with
      | [] => (returned true, [store data_ptr v], unlocked c1)
      | ctx :: _ =>
        match write who (in_data ctx) false c1 with
        | (spins, eff, c2) => (spins, store data_ptr v :: eff, c2)
        | (crashed, eff, c2) => (crashed, store data_ptr v :: eff, c2)
        | (_, eff, c2) =>
          (returned true, store data_ptr v :: eff ++ [awake (thread_id ctx) (chrotine_id ctx)],
           unlocked (set_write_que (tail (m_waiting_write_que c2)) c2))
        end
      end
    end
  end.

(** ** The contents as a queue *)

Definition slot (c : channel_t) (i : nat) : nat := Z.to_nat ((m_r_index c + Z.of_nat i) mod m_max_size c).

(** The unread values, the oldest first. *)
Definition contents (c : channel_t) : list T :=
  omap (λ i, m_data_array c !! slot c i) (seq 0 (Z.to_nat (m_unread c))).

Record chan_wf (c : channel_t) : Prop := {
  cw_size : 1 <= m_max_size c;
  cw_array : Z.of_nat (length (m_data_array c)) = m_max_size c;
  cw_unread : 0 <= m_unread c <= m_max_size c;
  cw_r : 0 <= m_r_index c < m_max_size c;
  cw_w : m_w_index c = (m_r_index c + m_unread c) mod m_max_size c;
  cw_readers : m_waiting_read_que c ≠ [] → m_unread c = 0;
  cw_ptrs : Forall (λ ctx, is_Some (out_ptr ctx)) (m_waiting_read_que c)
}.

Lemma slot_lt c i : chan_wf c → (slot c i < length (m_data_array c))%nat.
Proof.
  intros Hc. unfold slot. pose proof (cw_size _ Hc). pose proof (cw_array _ Hc).
  pose proof (Z.mod_pos_bound (m_r_index c + Z.of_nat i) (m_max_size c)). lia.
Qed.

Lemma slot_value c i : chan_wf c → ∃ v, m_data_array c !! slot c i = Some v.
Proof. intros Hc. apply lookup_lt_is_Some. by apply slot_lt. Qed.

Lemma slot_w c : chan_wf c → slot c (Z.to_nat (m_unread c)) = Z.to_nat (m_w_index c).
Proof. intros Hc. unfold slot. rewrite (cw_w _ Hc), Z2Nat.id by (apply Hc). done. Qed.

Lemma slot_0 c : chan_wf c → slot c 0 = Z.to_nat (m_r_index c).
Proof. intros Hc. unfold slot. rewrite Z.add_0_r, Z.mod_small by apply Hc. done. Qed.

(** Different unread positions are in different slots. *)
Lemma slot_inj c i j :
  chan_wf c → Z.of_nat i < m_max_size c → Z.of_nat j < m_max_size c → slot c i = slot c j → i = j.
Proof.
  intros Hc Hi Hj. unfold slot. pose proof (cw_size _ Hc). pose proof (cw_r _ Hc).
  assert (Hm : ∀ k, Z.of_nat k < m_max_size c →
    (m_r_index c + Z.of_nat k) mod m_max_size c =
    if m_r_index c + Z.of_nat k <? m_max_size c then m_r_index c + Z.of_nat k
    else m_r_index c + Z.of_nat k - m_max_size c).
  { intros k Hk. case_if; bool_to_prop; [apply Z.mod_small; lia|].
    rewrite <- (Z_mod_plus_full _ (-1)), Z.mod_small; lia. }
  rewrite !Hm by done. repeat case_if; bool_to_prop; lia.
Qed.

Lemma omap_all_length {A B} (f : A → option B) l : (∀ x, x ∈ l → is_Some (f x)) → length (omap f l) = length l.
Proof.
  induction l as [|x l IH]; intros H; [done|]. csimpl. destruct (H x) as [y ->]; [mem|]. csimpl.
  rewrite IH; [done|]. intros z Hz. apply H. mem.
Qed.

Lemma length_contents c : chan_wf c → length (contents c) = Z.to_nat (m_unread c).
Proof.
  intros Hc. unfold contents. rewrite omap_all_length, length_seq; [done|]. intros i _. by apply slot_value.
Qed.

Lemma omap_seq_lookup {A} (f : nat → option A) a n i :
  (∀ j, (a <= j < a + n)%nat → is_Some (f j)) →
  omap f (seq a n) !! i = if (i <? n)%nat then f (a + i)%nat else None.
Proof.
  revert a i. induction n as [|n IH]; intros a i H; [by destruct i|]. cbn [seq]. csimpl.
  destruct (H a) as [y Hy]; [lia|]. rewrite Hy. destruct i as [|i]; simpl.
  - by rewrite Nat.add_0_r, Hy.
  - rewrite IH by (intros j Hj; apply H; lia). replace (S a + i)%nat with (a + S i)%nat by lia. done.
Qed.

Lemma contents_lookup c i :
  chan_wf c → contents c !! i = if (i <? Z.to_nat (m_unread c))%nat then m_data_array c !! slot c i else None.
Proof. intros Hc. apply omap_seq_lookup. intros j _. by apply slot_value. Qed.

(** ** Adding and taking a value *)

Definition push (v : T) (c : channel_t) : channel_t :=
  mk_channel (m_closed c) (Z.rem (m_w_index c + 1) (m_max_size c)) (m_r_index c)
    (m_max_size c) (<[Z.to_nat (m_w_index c) := v]> (m_data_array c)) (m_unread c + 1)
    (m_waiting_write_que c) (m_waiting_read_que c) (m_lock c).

Definition pop (c : channel_t) : channel_t :=
  mk_channel (m_closed c) (m_w_index c) (Z.rem (m_r_index c + 1) (m_max_size c))
    (m_max_size c) (m_data_array c) (m_unread c - 1)
    (m_waiting_write_que c) (m_waiting_read_que c) (m_lock c).

Lemma w_index_bound c : chan_wf c → 0 <= m_w_index c < m_max_size c.
Proof. intros Hc. rewrite (cw_w _ Hc). apply Z.mod_pos_bound. pose proof (cw_size _ Hc). lia. Qed.

Lemma push_wf v c : chan_wf c → m_unread c < m_max_size c → m_waiting_read_que c = [] → chan_wf (push v c).
Proof.
  intros Hc Hu Hq. pose proof (w_index_bound c Hc). destruct Hc. split; simpl; try done.
  - by rewrite length_insert.
  - lia.
  - rewrite Z.rem_mod_nonneg by lia. rewrite cw_w0, Z.add_mod_idemp_l by lia. f_equal. lia.
Qed.

Lemma pop_wf c : chan_wf c → 0 < m_unread c → chan_wf (pop c).
Proof.
  intros Hc Hu. destruct Hc. split; simpl; try done.
  - lia.
  - rewrite Z.rem_mod_nonneg by lia. apply Z.mod_pos_bound. lia.
  - rewrite Z.rem_mod_nonneg by lia. rewrite Z.add_mod_idemp_l by lia. rewrite cw_w0. f_equal. lia.
  - intros Hq. specialize (cw_readers0 Hq). lia.
Qed.

Lemma contents_push v c :
  chan_wf c → m_unread c < m_max_size c → m_waiting_read_que c = [] → contents (push v c) = contents c ++ [v].
Proof.
  intros Hc Hu Hq. pose proof (push_wf v c Hc Hu Hq) as Hp. apply list_eq. intros i.
  rewrite (contents_lookup _ _ Hp). pose proof (cw_unread _ Hc).
  assert (Hs : slot (push v c) i = slot c i) by done. rewrite Hs. simpl m_unread.
  destruct (Nat.ltb_spec i (Z.to_nat (m_unread c + 1))) as [Hi|Hi].
  - destruct (decide (i = Z.to_nat (m_unread c))) as [->|Hne].
    + rewrite slot_w by done. simpl. rewrite list_lookup_insert_eq.
      * rewrite lookup_app_r by (by rewrite length_contents). by rewrite length_contents, Nat.sub_diag.
      * rewrite <- slot_w by done. by apply slot_lt.
    + rewrite lookup_app_l by (rewrite length_contents by done; lia). rewrite contents_lookup by done.
      destruct (Nat.ltb_spec i (Z.to_nat (m_unread c))); [|lia]. simpl.
      apply list_lookup_insert_ne. rewrite <- slot_w by done. intros He. apply slot_inj in He; lia || done.
  - rewrite lookup_ge_None_2; [done|]. rewrite length_app, length_contents by done. simpl. lia.
Qed.

Lemma contents_pop c v :
  chan_wf c → m_data_array c !! Z.to_nat (m_r_index c) = Some v → 0 < m_unread c →
  contents c = v :: contents (pop c).
Proof.
  intros Hc Hv Hu. pose proof (pop_wf c Hc Hu) as Hp. apply list_eq. intros i.
  rewrite contents_lookup by done. destruct i as [|i]; simpl.
  - destruct (Nat.ltb_spec 0 (Z.to_nat (m_unread c))); [|lia]. by rewrite slot_0.
  - rewrite contents_lookup by done. simpl.
    assert (Hs : slot (pop c) i = slot c (S i)).
    { unfold slot. simpl. pose proof (cw_size _ Hc). pose proof (cw_r _ Hc). rewrite Z.rem_mod_nonneg by lia.
      rewrite Z.add_mod_idemp_l by lia. do 2 f_equal. lia. }
    rewrite Hs. destruct (Nat.ltb_spec (S i) (Z.to_nat (m_unread c))), (Nat.ltb_spec i (Z.to_nat (m_unread c - 1))); done || lia.
Qed.

Lemma contents_empty c : m_unread c <= 0 → contents c = [].
Proof. intros H. unfold contents. by replace (Z.to_nat (m_unread c)) with 0%nat by lia. Qed.

(** ** The specification: a bounded queue *)

(** What a channel promises: a queue of at most [cap] values, with the
    coroutines that wait for a value or for room. *)
Record queue := mk_queue {
  cap : Z;
  buf : list T;
  readers : list chroutine_chan_context_t;
  writers : list chroutine_chan_context_t
}.

Definition spec_write (who : caller) (v : T) (try_ : bool) (q : queue) : outcome * list (effect T) * queue :=
  if cap q <=? Z.of_nat (length (buf q)) then
    if try_ then (returned false, [], q)
    else (hold who, [], mk_queue (cap q) (buf q) (readers q) (writers q ++ [mk_context (c_thread who) (c_id who) None v]))
  else match readers q with
  | [] => (returned true, [], mk_queue (cap q) (buf q ++ [v]) [] (writers q))
  | ctx :: rs =>
    (returned true,
     match out_ptr ctx with Some p => [store p v] | None => [] end ++ [awake (thread_id ctx) (chrotine_id ctx)],
     mk_queue (cap q) (buf q) rs (writers q))
  end.

Definition spec_read (who : caller) (p : nat) (try_ : bool) (q : queue) : outcome * list (effect T) * queue :=
  match buf q with
  | v :: vs => (returned true, [store p v], mk_queue (cap q) vs (readers q) (writers q))
  | [] =>
    if try_ then (returned false, [], q)
    else (hold who, [], mk_queue (cap q) [] (readers q ++ [mk_context (c_thread who) (c_id who) (Some p) dflt]) (writers q))
  end.

Definition abs (c : channel_t) : queue :=
  mk_queue (m_max_size c) (contents c) (m_waiting_read_que c) (m_waiting_write_que c).

Definition free (c : channel_t) : Prop := m_flag (m_lock c) = false.

Lemma create_wf n : chan_wf (create n) ∧ free (create n) ∧ contents (create n) = [].
Proof.
  split_and!; [|done|by apply contents_empty]. unfold create. set (k := if n <=? 0 then 1 else n).
  assert (1 <= k) by (subst k; case_if; bool_to_prop; lia).
  split; simpl; try done; try lia.
  rewrite length_replicate. lia.
Qed.

Lemma set_m_lock_wf l c : chan_wf c → chan_wf (set_m_lock l c).
Proof. intros []. by split. Qed.

Lemma chan_eta c l : m_lock c = l → set_m_lock l c = c.
Proof. intros <-. by destruct c. Qed.

Lemma write_locked who v try_ c : m_flag (m_lock c) = true → write who v try_ c = (spins, [], c).
Proof. intros H. unfold write. by rewrite lock_attempt_locked. Qed.

Lemma read_locked who p try_ c : m_flag (m_lock c) = true → read who p try_ c = (spins, [], c).
Proof. intros H. unfold read. by rewrite lock_attempt_locked. Qed.

(** [write] on a channel that is not locked. *)
Lemma write_refines_spec who v try_ c :
  chan_wf c → free c →
  let '(o, e, c') := write who v try_ c in
  spec_write who v try_ (abs c) = (o, e, abs c') ∧ chan_wf c' ∧ free c' ∧ o ≠ spins ∧ o ≠ crashed.
Proof.
  intros Hc Hf. unfold write. rewrite lock_attempt_free by exact Hf.
  unfold spec_write, writable. simpl. rewrite length_contents by done.
  assert (Hlt : (m_max_size c <=? Z.of_nat (Z.to_nat (m_unread c))) = (m_max_size c - m_unread c <? 1)).
  { destruct (cw_unread _ Hc). rewrite Z2Nat.id by done.
    destruct (Z.leb_spec (m_max_size c) (m_unread c)), (Z.ltb_spec (m_max_size c - m_unread c) 1); done || lia. }
  rewrite Hlt. case_if; bool_to_prop.
  - destruct try_; split_and!; try done; [by repeat apply set_m_lock_wf|destruct Hc; by split| |];
      unfold hold; by destruct (c_holds who).
  - destruct (m_waiting_read_que c) as [|ctx q] eqn:Eq.
    + destruct (lookup_lt_is_Some_2 (m_data_array c) (Z.to_nat (m_w_index c))) as [u Hu].
      { rewrite <- slot_w by done. by apply slot_lt. }
      rewrite Hu. simpl. assert (m_unread c < m_max_size c) by lia. split_and!; try done.
      * unfold abs. simpl. pose proof (contents_push v c Hc ltac:(done) Eq) as Hp.
        by rewrite <- Hp.
      * pose proof (push_wf v c Hc ltac:(done) Eq) as Hp.
        apply (set_m_lock_wf (mk_chutex false)) in Hp. unfold push in Hp. simpl in Hp. by rewrite Eq in Hp.
    + pose proof (cw_ptrs _ Hc) as Hp. rewrite Eq in Hp. apply Forall_cons in Hp as [[p Hp] Hq]. rewrite Hp.
      split_and!; try done. destruct Hc. split; simpl; try done. intros _. apply cw_readers0. by rewrite Eq.
Qed.

(** [read] on a channel that is not locked and where no writer waits. *)
Lemma read_refines_spec who p try_ c :
  chan_wf c → free c → (m_unread c = 0 ∨ m_waiting_write_que c = []) →
  let '(o, e, c') := read who p try_ c in
  spec_read who p try_ (abs c) = (o, e, abs c') ∧ chan_wf c' ∧ free c' ∧ o ≠ spins ∧ o ≠ crashed.
Proof.
  intros Hc Hf Hw. unfold read. rewrite lock_attempt_free by exact Hf. unfold readable. simpl.
  case_if; bool_to_prop.
  - assert (Hu : m_unread c = 0) by (destruct (cw_unread _ Hc); lia).
    unfold spec_read, abs. simpl. rewrite (contents_empty c) by lia.
    destruct try_; split_and!; try done.
    + f_equal. unfold abs. by rewrite (contents_empty (unlocked _)) by (simpl; lia).
    + by repeat apply set_m_lock_wf.
    + f_equal. unfold abs. by rewrite (contents_empty (unlocked _)) by (simpl; lia).
    + destruct Hc. split; simpl; try done. apply Forall_app. split; [done|]. constructor; [by eexists|done].
    + unfold hold; by destruct (c_holds who).
    + unfold hold; by destruct (c_holds who).
  - destruct Hw as [Hw|Hw]; [lia|]. destruct (slot_value c 0 Hc) as [v Hv]. rewrite slot_0 in Hv by done.
    rewrite Hv. simpl. rewrite Hw. unfold spec_read, abs. simpl.
    rewrite (contents_pop c v) by (done || lia). split_and!; try done.
    + by rewrite Hw.
    + pose proof (pop_wf c Hc ltac:(lia)) as Hp. apply (set_m_lock_wf (mk_chutex false)) in Hp.
      unfold pop in Hp. simpl in Hp. by rewrite Hw in Hp.
Qed.

(** [read] when there is a value and a writer waits: the nested [write] meets
    the lock its caller holds. *)
Lemma read_waiting_writer who p try_ c v ctx q :
  chan_wf c → free c → contents c = v :: q → head (m_waiting_write_que c) = Some ctx →
  read who p try_ c = (spins, [store p v], set_m_lock (mk_chutex true) (pop c)).
Proof.
  intros Hc Hf Hv Hw. pose proof (length_contents c Hc) as Hl. rewrite Hv in Hl. simpl in Hl.
  unfold read. rewrite lock_attempt_free by exact Hf. unfold readable. simpl.
  destruct (Z.ltb_spec (m_unread c) 1); [lia|].
  destruct (slot_value c 0 Hc) as [u Hu]. rewrite slot_0 in Hu by done. rewrite Hu.
  assert (u = v) as ->. { rewrite (contents_pop c u) in Hv by (done || lia). congruence. }
  destruct (m_waiting_write_que c) as [|ctx' r] eqn:Ew; [done|]. simpl.
  unfold pop, set_m_lock. simpl. by rewrite Ew.
Qed.
End channel.
