(* ===== verification/Fifo.v ===== *)
(** * Channels under any sequence of calls: order, bounds, deadlock *)

From S2P Require Import Prelude Chutex Channel.
Local Open Scope Z_scope.

Section fifo.
Context {T : Type} (dflt : T).
Implicit Types (c : channel_t (T:=T)) (v : T).

(** ** Sequences of calls *)

Inductive op :=
  | op_write (who : caller) (v : T) (try_ : bool)
  | op_read (who : caller) (data_ptr : nat) (try_ : bool)
  | op_reset.

Definition apply_op (o : op) c : outcome * list (effect T) * channel_t :=
  match o with
  | op_write who v try_ => write who v try_ c
  | op_read who p try_ => read dflt who p try_ c
  | op_reset => let '(r, c') := reset c in (r, [], c')
  end.

(** The values written by calls that returned [true] and the values stored
    through the pointers of readers, since the last [reset]. *)
Record history := mk_history { accepted : list T; delivered : list T }.

Definition stored (e : list (effect T)) : list T :=
  omap (λ x, match x with store _ v => Some v | awake _ _ => None end) e.

Definition record_op (o : op) (r : outcome) (e : list (effect T)) (h : history) : history :=
  match o, r with
  | op_write _ v _, returned true => mk_history (accepted h ++ [v]) (delivered h ++ stored e)
  | op_reset, returned true => mk_history [] []
  | _, _ => mk_history (accepted h) (delivered h ++ stored e)
  end.

Fixpoint run_ops (os : list op) (h : history) c : history * channel_t :=
  match os with
  | [] => (h, c)
  | o :: os' => let '(r, e, c') := apply_op o c in run_ops os' (record_op o r e h) c'
  end.

(** The caller is a coroutine of the engine. *)
Definition in_coroutine (o : op) : Prop :=
  match o with
  | op_write who _ _ | op_read who _ _ => c_holds who = true
  | op_reset => True
  end.

(** ** One call *)

Definition ordered (h : history) c : Prop := accepted h = delivered h ++ contents c.

Lemma reset_ok c : chan_wf c → free c →
  ∃ c', reset c = (returned true, c') ∧ chan_wf c' ∧ contents c' = [].
Proof.
  intros Hc Hf. unfold reset. rewrite lock_attempt_free by exact Hf. eexists. split; [done|]. split; [|by apply contents_empty].
  destruct Hc. split; simpl; try done; lia.
Qed.

Lemma ordered_write who v try_ c h :
  c_holds who = true → chan_wf c → free c → ordered h c →
  let '(r, e, c') := write who v try_ c in ordered (record_op (op_write who v try_) r e h) c' ∧ chan_wf c'.
Proof.
  intros Hw Hc Hf Ho. pose proof (write_refines_spec who v try_ c Hc Hf) as H.
  destruct (write who v try_ c) as [[r e] c']. destruct H as (Hs & Hc' & _). split; [|done].
  unfold spec_write, hold in Hs. rewrite Hw in Hs. unfold ordered in *. simpl in Hs.
  case_if_in Hs.
  - assert (He : contents c' = contents c ∧ e = [] ∧ r ≠ returned true).
    { destruct try_; injection Hs; intros; subst; by split_and!. }
    destruct He as (He & -> & Hr). rewrite He. destruct r as [[]| | |]; simpl; rewrite ?app_nil_r; done.
  - bool_to_prop. destruct (m_waiting_read_que c) as [|ctx q] eqn:Eq; simpl in Hs.
    + injection Hs as <- <- _ Hb _. simpl. rewrite app_nil_r, Ho, <- Hb. by rewrite (assoc_L (++)).
    + pose proof (cw_ptrs _ Hc) as Hp. rewrite Eq in Hp. apply Forall_cons in Hp as [[p Hp] _]. rewrite Hp in Hs.
      assert (Hu : m_unread c = 0) by (apply (cw_readers _ Hc); by rewrite Eq).
      rewrite (contents_empty c) in * by lia. injection Hs as <- <- _ Hb _. simpl.
      by rewrite <- Hb, Ho, !app_nil_r.
Qed.

Lemma ordered_read who p try_ c h :
  c_holds who = true → chan_wf c → free c → ordered h c →
  let '(r, e, c') := read dflt who p try_ c in ordered (record_op (op_read who p try_) r e h) c' ∧ chan_wf c'.
Proof.
  intros Hw Hc Hf Ho. unfold ordered in *. destruct (contents c) as [|v q] eqn:Ec.
  2: destruct (m_waiting_write_que c) as [|ctx ws] eqn:Ew.
  3: { rewrite (read_waiting_writer dflt who p try_ c v ctx q Hc Hf Ec) by (by rewrite Ew).
       pose proof (length_contents c Hc) as Hl. rewrite Ec in Hl. simpl in Hl.
       assert (Hu : 0 < m_unread c) by lia. split; [|by apply set_m_lock_wf, pop_wf]. simpl.
       destruct (slot_value c 0 Hc) as [u Hv]. rewrite slot_0 in Hv by done.
       pose proof (contents_pop c u Hc Hv Hu) as Hp. rewrite Ec in Hp. injection Hp as -> Hp.
       rewrite Ho, <- (assoc_L (++)). simpl. do 2 f_equal. rewrite Hp. done. }
  all: pose proof (length_contents c Hc) as Hl; rewrite Ec in Hl; simpl in Hl; pose proof (cw_unread _ Hc) as Hcu.
  all: pose proof (read_refines_spec dflt who p try_ c Hc Hf) as H.
  all: destruct (read dflt who p try_ c) as [[r e] c']; destruct H as (Hs & Hc' & _); [first [by right|left; lia]|].
  all: split; [|done]; unfold spec_read, hold in Hs; simpl in Hs; rewrite Ec, ?Hw in Hs.
  - assert (He : contents c' = [] ∧ e = [] ∧ r ≠ returned true) by (destruct try_; injection Hs; intros; subst; split_and!; congruence).
    destruct He as (-> & -> & _). by destruct r as [[]| | |]; simpl; rewrite app_nil_r.
  - injection Hs as <- <- _ Hb _. simpl. by rewrite Ho, <- Hb, <- (assoc_L (++)).
Qed.

Lemma locked_stays o c : m_flag (m_lock c) = true → apply_op o c = (spins, [], c).
Proof.
  intros H. destruct o; simpl; [by apply write_locked|by apply read_locked|].
  unfold reset. by rewrite lock_attempt_locked.
Qed.

Lemma ordered_op o c h :
  in_coroutine o → chan_wf c → ordered h c →
  let '(r, e, c') := apply_op o c in ordered (record_op o r e h) c' ∧ chan_wf c'.
Proof.
  intros Hi Hc Ho. destruct (m_flag (m_lock c)) eqn:Ef.
  { rewrite locked_stays by done. split; [|done]. unfold ordered in *. destruct o; simpl; by rewrite app_nil_r. }
  destruct o as [who v try_|who p try_|]; simpl.
  - by apply ordered_write.
  - by apply ordered_read.
  - destruct (reset_ok c Hc Ef) as (c' & -> & Hc' & He). split; [|done]. unfold ordered. simpl. by rewrite He.
Qed.

Lemma ordered_run os c h :
  Forall in_coroutine os → chan_wf c → ordered h c →
  let '(h', c') := run_ops os h c in ordered h' c' ∧ chan_wf c'.
Proof.
  revert c h. induction os as [|o os IH]; intros c h Hi Hc Ho; [done|].
  apply Forall_cons in Hi as [Hi His]. simpl. pose proof (ordered_op o c h Hi Hc Ho) as H.
  destruct (apply_op o c) as [[r e] c']. destruct H as [Ho' Hc']. by apply IH.
Qed.

Lemma never_crashes o c : chan_wf c → fst (fst (apply_op o c)) ≠ crashed.
Proof.
  intros Hc. destruct (m_flag (m_lock c)) eqn:Ef; [by rewrite locked_stays|].
  destruct o as [who v try_|who p try_|]; simpl.
  - pose proof (write_refines_spec who v try_ c Hc Ef) as H. destruct (write _ _ _ _) as [[r e] c']. by apply H.
  - destruct (contents c) as [|v q] eqn:Ec; [|destruct (m_waiting_write_que c) as [|ctx ws] eqn:Ew].
    3: by rewrite (read_waiting_writer dflt who p try_ c v ctx q Hc Ef Ec) by (by rewrite Ew).
    all: pose proof (length_contents c Hc) as Hl; rewrite Ec in Hl; simpl in Hl; pose proof (cw_unread _ Hc) as Hcu.
    all: pose proof (read_refines_spec dflt who p try_ c Hc Ef) as H;
      destruct (read _ _ _ _ _) as [[r e] c']; apply H; first [by right|left; lia].
  - by destruct (reset_ok c Hc Ef) as (c' & -> & _).
Qed.

Lemma run_ops_wf n os :
  Forall in_coroutine os → let '(h, c) := run_ops os (mk_history [] []) (create dflt n) in ordered h c ∧ chan_wf c.
Proof.
  intros Hi. destruct (create_wf dflt n) as (Hc & _ & He).
  apply ordered_run; [done|done|]. unfold ordered. by rewrite He.
Qed.

(** ** Properties *)

(** C9: refinement.  On a channel that nobody has locked, [write] is the
    [write] of a bounded queue on every branch (a full queue refuses or
    enqueues the caller, a waiting reader gets the value directly, else the
    value is appended), [read] likewise as long as no writer waits for the
    room it makes; the lock is free again afterwards and the ring indices stay
    in range. *)
Theorem channel_refines_queue who v p try_ c :
  chan_wf c → free c →
  (let '(o, e, c') := write who v try_ c in
   spec_write who v try_ (abs c) = (o, e, abs c') ∧ chan_wf c' ∧ free c') ∧
  (m_unread c = 0 ∨ m_waiting_write_que c = [] →
   let '(o, e, c') := read dflt who p try_ c in
   spec_read dflt who p try_ (abs c) = (o, e, abs c') ∧ chan_wf c' ∧ free c').
Proof.
  intros Hc Hf. split.
  - pose proof (write_refines_spec who v try_ c Hc Hf) as H. destruct (write _ _ _ _) as [[o e] c'].
    by destruct H as (? & ? & ? & _).
  - intros Hw. pose proof (read_refines_spec dflt who p try_ c Hc Hf Hw) as H.
    destruct (read _ _ _ _ _) as [[o e] c']. by destruct H as (? & ? & ? & _).
Qed.

(** C3: first in, first out, for any number of coroutines.  After any sequence
    of calls of [write], [read] and [reset] on a new channel, the values
    accepted since the last [reset] are the values stored to readers, in that
    order and each once, followed by the contents of the buffer; the buffer
    holds at most [max_size] values; and no call, whatever its order, accesses
    the array outside its bounds or goes through a null pointer. *)
Theorem channel_fifo n os :
  Forall in_coroutine os →
  let '(h, c) := run_ops os (mk_history [] []) (create dflt n) in
  accepted h = delivered h ++ contents c ∧
  Z.of_nat (length (contents c)) <= m_max_size c ∧
  0 <= m_w_index c < m_max_size c ∧ 0 <= m_r_index c < m_max_size c ∧
  ∀ o, fst (fst (apply_op o c)) ≠ crashed.
Proof.
  intros Hi. pose proof (run_ops_wf n os Hi) as H. destruct (run_ops _ _ _) as [h c]. destruct H as [Ho Hc].
  split_and!; try done.
  - rewrite length_contents by done. pose proof (cw_unread _ Hc). lia.
  - by apply w_index_bound.
  - by apply w_index_bound.
  - by apply cw_r.
  - by apply cw_r.
  - intros o. by apply never_crashes.
Qed.

(** C40: a reader that meets a waiting writer deadlocks the channel.  When the
    buffer holds a value and a writer is waiting, [read] takes the value and
    then calls [write] while it holds the (non recursive) lock: it spins for
    ever, and so does every later call of any coroutine, none of which has an
    effect. *)
Theorem read_with_waiting_writer_deadlocks who p try_ c :
  chan_wf c → free c → contents c ≠ [] → m_waiting_write_que c ≠ [] →
  ∃ v c', read dflt who p try_ c = (spins, [store p v], c') ∧ head (contents c) = Some v ∧
    ∀ os h, run_ops os h c' = (foldl (λ h o, record_op o spins [] h) h os, c') ∧
            ∀ o, apply_op o c' = (spins, [], c').
Proof.
  intros Hc Hf Hv Hw. destruct (contents c) as [|v q] eqn:Ec; [done|].
  destruct (m_waiting_write_que c) as [|ctx ws] eqn:Ew; [done|].
  exists v, (set_m_lock (mk_chutex true) (pop c)). split_and!; [|done|].
  - apply (read_waiting_writer dflt who p try_ c v ctx q); [done..|]. by rewrite Ew.
  - intros os h. split; [|intros o; by apply locked_stays].
    revert h. induction os as [|o os IH]; intros h; [done|]. cbn [run_ops foldl].
    rewrite locked_stays by done. apply IH.
Qed.

(** A blocking [read] or [write] outside a coroutine does not block: it
    returns [true] at once, a reader without a value and a writer without room
    for its value; and the reader leaves the address of its variable behind:
    the next value written goes there, and not into the channel. *)
Theorem blocking_call_outside_coroutine who who' v p c :
  chan_wf c → free c → c_holds who = false → m_unread c = 0 → m_waiting_read_que c = [] →
  ∃ c1 c2, read dflt who p false c = (returned true, [], c1) ∧
    write who' v false c1 = (returned true, [store p v; awake (c_thread who) (c_id who)], c2) ∧
    contents c2 = [].
Proof.
  intros Hc Hf Hw Hu Hr. pose proof (read_refines_spec dflt who p false c Hc Hf (or_introl Hu)) as H.
  unfold spec_read, hold in H. simpl in H. rewrite (contents_empty c), Hw, Hr in H by lia.
  destruct (read dflt who p false c) as [[o e] c1]. destruct H as (Hs & Hc1 & Hf1 & _).
  injection Hs as <- <- Hm Hb Hq1 _.
  pose proof (write_refines_spec who' v false c1 Hc1 Hf1) as H. unfold spec_write in H. simpl in H.
  rewrite <- Hm, <- Hb, <- Hq1 in H. simpl in H. pose proof (cw_size _ Hc).
  destruct (Z.leb_spec (m_max_size c) (Z.of_nat 0)); [lia|]. simpl in H.
  destruct (write who' v false c1) as [[o e] c2] eqn:E2. destruct H as (Hs & _).
  injection Hs as <- <- _ Hb2 _ _. exists c1, c2. split_and!; [done..|congruence].
Qed.
End fifo.

(** ** Concrete channels *)

Definition alice : caller := mk_caller 1 10 true.
Definition bob : caller := mk_caller 2 20 true.
Definition nobody : caller := mk_caller 3 (-1) false.

(** A channel of one value that is full and where [bob] waits to write. *)
Definition full_channel : channel_t (T:=Z) :=
  snd (run_ops 0 [op_write alice 7 false; op_write bob 8 false] (mk_history [] []) (create 0 1)).

Lemma full_channel_ok : chan_wf full_channel ∧ free full_channel.
Proof.
  pose proof (run_ops_wf 0 1 [op_write alice 7 false; op_write bob 8 false]) as H.
  split; [|done]. change full_channel with (snd (run_ops 0 [op_write alice 7 false; op_write bob 8 false] (mk_history [] []) (create 0 1))).
  destruct (run_ops _ _ _ _) as [h c]. apply H. by repeat constructor.
Qed.

Lemma channel_refines_queue_witness :
  fst (fst (write alice 9 true full_channel)) = returned false ∧
  (let '(o, e, c') := write alice 9 true full_channel in
   spec_write alice 9 true (abs full_channel) = (o, e, abs c') ∧ chan_wf c' ∧ free c').
Proof.
  split; [by vm_compute|]. destruct full_channel_ok as [Hc Hf].
  exact (proj1 (channel_refines_queue 0 alice 9 0 true full_channel Hc Hf)).
Defined.

Lemma channel_fifo_witness :
  let os := [op_read bob 100 false; op_write alice 1 false; op_write alice 2 true; op_write alice 3 true; op_read bob 101 true] in
  Forall in_coroutine os ∧
  run_ops 0 os (mk_history [] []) (create 0 0) =
    (mk_history [1; 2] [1; 2], snd (run_ops 0 os (mk_history [] []) (create 0 0))) ∧
  contents (snd (run_ops 0 os (mk_history [] []) (create 0 0))) = [].
Proof.
  intros os. assert (Hi : Forall in_coroutine os) by (by repeat constructor).
  split; [exact Hi|]. split; [by vm_compute|].
  pose proof (channel_fifo 0 0 os Hi) as H.
  assert (He : run_ops 0 os (mk_history [] []) (create 0 0) =
    (mk_history [1; 2] [1; 2], snd (run_ops 0 os (mk_history [] []) (create 0 0)))) by (by vm_compute).
  rewrite He in H. destruct H as [H _]. exact (eq_sym (app_inv_head [1; 2] [] _ H)).
Defined.

Lemma read_with_waiting_writer_deadlocks_witness :
  contents full_channel ≠ [] ∧ m_waiting_write_que full_channel ≠ [] ∧
  ∃ v c', read 0 alice 100 true full_channel = (spins, [store 100%nat v], c') ∧
    ∀ o, apply_op 0 o c' = (spins, [], c').
Proof.
  destruct full_channel_ok as [Hc Hf].
  assert (H1 : contents full_channel ≠ []) by (by vm_compute).
  assert (H2 : m_waiting_write_que full_channel ≠ []) by (by vm_compute).
  split; [exact H1|]. split; [exact H2|].
  destruct (read_with_waiting_writer_deadlocks 0 alice 100 true full_channel Hc Hf H1 H2) as (v & c' & Hr & _ & Hall).
  exists v, c'. split; [exact Hr|]. exact (proj2 (Hall [] (mk_history [] []))).
Defined.

Lemma blocking_call_outside_coroutine_witness :
  ∃ c1 c2, read 0 nobody 100 false (create 0 1) = (returned true, [], c1) ∧
    write alice 5 false c1 = (returned true, [store 100%nat 5; awake 3 (-1)], c2) ∧ contents c2 = [].
Proof.
  destruct (create_wf 0 1) as (Hc & Hf & _).
  exact (blocking_call_outside_coroutine 0 nobody alice 5 100 (create 0 1) Hc Hf eq_refl eq_refl eq_refl).
Defined.
