(* ===== verification/Hold.v ===== *)
(** * engin/engine.hpp: [HOLD()], and the wake-ups it can miss

    A channel enqueues the caller, releases its lock and only then calls
    [HOLD()], a sleep of thirty years that [awake_chroutine] is to end.  The
    two calls come from different OS threads in any order. *)

From S2P Require Import Prelude Reporter Chroutine Load Thread ThreadInv Sched Run Safety.
Local Open Scope Z_scope.

(** The duration of the macro [HOLD()], in milliseconds. *)
Definition HOLD_MS : Z := 0xDC46C32800.

Definition HOLD (now : Z) (s : cell) : cell * bool := thread_sleep now HOLD_MS s.

(** [awake_chroutine] of a coroutine that does not wait for a son. *)
Lemma awake_chroutine_plain i p c s :
  wf_cell s → get_chroutine i s = Some p → obj p s = Some c →
  (yield_to c = 0 ∨ stop_son_when_yield_over c = false) →
  fst (awake_chroutine i s) = 0 ∧ obj p (snd (awake_chroutine i s)) = Some (set_yield_to 0 c) ∧
  sch (snd (awake_chroutine i s)) = sch s.
Proof.
  intros Hs Hg Hc Hw. unfold awake_chroutine, yield_over_at. rewrite Hg, Hc. unfold yield_over.
  assert (negb (yield_to c =? 0) && stop_son_when_yield_over c = false) as ->.
  { destruct Hw as [Hw|Hw]; rewrite Hw; [done|by rewrite andb_false_r]. }
  rewrite remove_invalid; [split; [done|]|].
  - unfold obj. simpl. by rewrite lookup_insert_eq.
  - apply upd_rps_wf, upd_chs_wf; [|done]. by apply (same_ids_insert _ _ c).
Qed.

Lemma HOLD_suspends self now s p c :
  reachable self (s, Some p) → p ∈ chroutines_sched (sch s) → obj p s = Some c →
  ∃ s', HOLD now s = (s', true) ∧ wf_cell s' ∧
    obj p s' = Some (set_stop_son false (set_yield_to (now + HOLD_MS) (set_state chroutine_state_suspend c))) ∧
    chroutines_map (sch s') = chroutines_map (sch s).
Proof.
  intros Hr%reachable_ok Hp Hc. unfold HOLD, thread_sleep. rewrite wait_current_eq. simpl.
  set (f := λ c : chroutine_t, _). pose proof (suspend_current_ok f s p) as Hok.
  destruct (suspend_current_cases f s p c Hr Hc) as [[_ Hs]|[Hn _]]; [|done].
  rewrite Hs in *. eexists. split; [done|]. split_and!.
  - apply (ok_wf _ (Hok _ true ltac:(by intros) Hr eq_refl)).
  - unfold obj. simpl. by rewrite lookup_insert_eq.
  - done.
Qed.

(** Waking a coroutine that holds.  If the wake-up comes after [HOLD()]
    has suspended the coroutine, the next visit of the scheduler finds it
    ready whatever the clock says.  If another thread issues it before the
    coroutine has reached [HOLD()], the wake-up is lost: the call reports
    success, but [HOLD()] still suspends the coroutine, and it is not ready
    before thirty years have passed. *)
Theorem wake_up_before_hold_is_lost self now s p c :
  reachable self (s, Some p) → p ∈ chroutines_sched (sch s) → obj p s = Some c → moved c = false → 0 <= now →
  (∃ s1 c2, HOLD now s = (s1, true) ∧ fst (awake_chroutine (me c) s1) = 0 ∧
     obj p (snd (awake_chroutine (me c) s1)) = Some c2 ∧ ∀ now', ready now' c2 = true) ∧
  (∃ s2 c2, fst (awake_chroutine (me c) s) = 0 ∧ HOLD now (snd (awake_chroutine (me c) s)) = (s2, true) ∧
     obj p s2 = Some c2 ∧ ∀ now', now' < now + HOLD_MS → ready now' c2 = false).
Proof.
  intros Hr Hp Hc Hm Hnow. pose proof (reachable_ok _ _ Hr) as Hok.
  pose proof (ok_run _ Hok) as (c0 & Hc0 & _ & _ & Hyw & Hyt & _). pose proof (ok_wf _ Hok) as Hwf. simpl in *. assert (c0 = c) by congruence. subst c0.
  pose proof (get_chroutine_sched p c s Hwf Hp Hc) as Hg. split.
  - destruct (HOLD_suspends self now s p c Hr Hp Hc) as (s1 & Hs & Hw1 & Ho1 & Hm1).
    assert (Hg1 : get_chroutine (me c) s1 = Some p) by (unfold get_chroutine in *; by rewrite Hm1).
    destruct (awake_chroutine_plain _ p _ s1 Hw1 Hg1 Ho1 (or_intror eq_refl)) as (H1 & H2 & _).
    eexists s1, _. split_and!; [done..|]. intros now'. apply ready_spec. simpl. split_and!; [done|lia|by left].
  - destruct (awake_chroutine_plain _ p c s Hwf Hg Hc (or_introl Hyt)) as (H1 & H2 & H3).
    set (s0 := snd (awake_chroutine (me c) s)) in *.
    assert (Hr0 : reachable self (s0, Some p)).
    { eapply rtc_r; [exact Hr|]. by apply (step_external (call_awake (me c))). }
    destruct (HOLD_suspends self now s0 p _ Hr0 ltac:(by rewrite H3) H2) as (s2 & Hs & _ & Ho2 & _).
    eexists s2, _. split_and!; [done..|]. intros now' Hlt. apply not_true_iff_false. rewrite ready_spec. simpl.
    unfold HOLD_MS in *. lia.
Qed.

Lemma wake_up_before_hold_is_lost_witness :
  reachable 0 (fst (end_of father_son), Some 3%nat) ∧
  ∃ s2 c2, HOLD 50 (snd (awake_chroutine 2 (fst (end_of father_son)))) = (s2, true) ∧
    obj 3 s2 = Some c2 ∧ ready 1000000000 c2 = false.
Proof.
  assert (H : reachable 0 (fst (end_of father_son), Some 3%nat)) by (by apply end_of_running; vm_compute).
  split; [exact H|]. destruct (obj 3 (fst (end_of father_son))) as [c|] eqn:Hc.
  2: { exfalso. revert Hc. apply (bool_decide_eq_false_1 (_ = None)). vm_compute. reflexivity. }
  assert (Hid : option_map (λ c, (me c, moved c)) (obj 3 (fst (end_of father_son))) = Some (2, false)) by (vm_compute; reflexivity).
  rewrite Hc in Hid. injection Hid as Hid Hmv.
  destruct (wake_up_before_hold_is_lost 0 50 (fst (end_of father_son)) 3 c H ltac:(by_compute) Hc Hmv ltac:(lia))
    as (_ & s2 & c2 & _ & H1 & H2 & H3).
  exists s2, c2. rewrite <- Hid. split; [exact H1|]. split; [exact H2|]. apply H3. unfold HOLD_MS. lia.
Defined.
