(* ===== verification/Rendezvous.v ===== *)
(** * engin/channel.hpp on engin/chroutine.cpp: channels between the coroutines
    of one OS thread

    The programs of Run that use channels of Channel for all their waiting for
    each other: the running coroutine may create channels, call [write], [read]
    and [reset], yield, sleep, and create coroutines; the main context may make
    the calls that do not wait, as timers and sockets do.  The effects of a call
    reach the memory and [awake_chroutine], and a call that blocks goes through
    [HOLD()].  For these programs no wake-up is lost, for the thirty years of
    [HOLD()].

    [mstep] leaves out, and the theorems do not speak about: sons (the end of a
    son also ends the [HOLD()] of its father: [son_ends_hold]), calls of
    [awake_chroutine] other than those of the channels (they end a [HOLD()] in
    the same way), sleeps that end after the thirty years, a blocking call from
    the main context (there [HOLD()] returns at once and leaves the context in
    the queue), a call that spins in [lock] (the thread then goes no further:
    Fifo), channels shared by several threads (a wake-up can come before
    [HOLD()]: Hold) and moved coroutines. *)

From S2P Require Import Prelude Chutex Channel Fifo.
From S2P Require Import Reporter Chroutine Load Thread ThreadInv Sched Run Safety Liveness Hold.
Local Open Scope Z_scope.

(** ** Which coroutines a transition touches *)

(** Neither a father nor a son, and not moved. *)
Definition lone (c : chroutine_t) : Prop :=
  son c = INVALID_ID ∧ father c = INVALID_ID ∧ moved c = false.

Definition alike (c c' : chroutine_t) : Prop :=
  me c' = me c ∧ yield_to c' = yield_to c ∧ (lone c → lone c') ∧ (yield_wait c = 0 → yield_wait c' = 0).

#[export] Instance alike_refl : Reflexive alike.
Proof. by intros c. Qed.

(** Every listed coroutine but [x] stays, as it was or older; a coroutine that
    joins the list is new. *)
Record frames (x : option nat) (s s' : cell) : Prop := {
  fr_old : ∀ q c, q ∈ chroutines_sched (sch s) → obj q s = Some c → Some q ≠ x →
    q ∈ chroutines_sched (sch s') ∧ ∃ c', obj q s' = Some c' ∧ alike c c';
  fr_new : ∀ q c', q ∈ chroutines_sched (sch s') → obj q s' = Some c' →
    q ∈ chroutines_sched (sch s) ∨
    yield_to c' = 0 ∧ lone c' ∧ ms_chroutine_id (hp s) < me c'
}.

Lemma frames_same x s s' :
  chroutines_sched (sch s') = chroutines_sched (sch s) →
  (∀ q, Some q ≠ x → obj q s' = obj q s) → frames x s s'.
Proof.
  intros Hs Ho. split.
  - intros q c Hq Hc Hx. rewrite Hs, Ho by done. split; [done|]. by exists c.
  - intros q c' Hq _. left. by rewrite <- Hs.
Qed.

Lemma frames_clear x s s' : frames x s s' → frames x s (clear_entry_time s').
Proof. by intros [H1 H2]. Qed.

Lemma frames_create f a s : wf_cell s → frames None s (snd (create_chroutine f a s)).
Proof.
  intros Hs. destruct (create_chroutine_cases f a s) as [->|[_ ->]]; [by apply frames_same|].
  pose proof (wf_next_fresh s Hs) as Hf. cbn [snd]. split.
  - intros q c Hq Hc _. split; [unfold created; simpl; mem|]. exists c. split; [|done].
    unfold obj, created in *. cbn [hp chs]. rewrite lookup_insert_ne; [done|]. intros Heq. congruence.
  - intros q c' Hq Hc'. unfold created in Hq. simpl in Hq.
    apply elem_of_app in Hq as [Hq|Hq%list_elem_of_singleton]; [by left|]. subst q. right.
    unfold obj, created in Hc'. cbn [hp chs] in Hc'. rewrite lookup_insert_eq in Hc'. injection Hc' as <-.
    split_and!; [done..|]. simpl. lia.
Qed.

Lemma frames_suspend p c s :
  frames (Some p) s (upd_sch (set_running_id INVALID_ID) (upd_chs <[p := c]> s)).
Proof.
  apply frames_same; [done|]. intros q Hq. unfold obj. cbn [hp chs set_chs upd_sch upd_chs].
  apply lookup_insert_ne. congruence.
Qed.

Lemma after_loop_sched now it s q c :
  wf_cell s → q ∈ chroutines_sched (sch s) → obj q s = Some c →
  ∃ c', obj q (after_loop now it s) = Some c' ∧ alike c c'.
Proof.
  intros Hs Hq Hc. unfold after_loop, obj, upd_sch, upd_chs. cbn [hp chs set_chs].
  rewrite pick_loop_heap by (apply from_iter_NoDup; exact (wf_nodup _ _ _ _ (proj1 Hs))).
  fold (obj q (clear_to_free s)). rewrite clear_to_free_obj_sched, Hc by done. case_bool_decide; [|by exists c].
  exists (aged now c). split; [done|]. destruct (aged_frame now c) as (n & -> & Hn & Hp).
  unfold alike, lone. simpl. split_and!; [done..|]. intros Hw. rewrite Hw in *. lia.
Qed.

(** Picking a coroutine without a son removes nobody. *)
Lemma picked_lone_sched now now' p c it s :
  wf_cell s → p ∈ chroutines_sched (sch s) → obj p s = Some c → ready now c = true →
  (∀ q, it = Some q → q ∈ chroutines_sched (sch s)) → son c = INVALID_ID →
  chroutines_sched (sch (picked now now' p c it s)) = chroutines_sched (sch s).
Proof.
  intros Hs Hp Hc Hr Hit Hson. rewrite picked_eq, (picked_tmo now s p c it) by done.
  assert (fst (fst (yield_over result_timeout c ∅)) = INVALID_ID) as ->.
  { unfold yield_over. by case_if. }
  rewrite remove_invalid by (by apply picked_s3_wf). cbn. by rewrite yield_over_at_sch.
Qed.

(** A pass touches the coroutine it picks. *)
Lemma frames_pick now now' s s' r n :
  cfg_ok (s, None) → (∀ q c, q ∈ chroutines_sched (sch s) → obj q s = Some c → lone c) →
  pick_run_begin now now' s = (s', r, n) →
  frames r s s' ∧ ∀ p, r = Some p →
    p ∈ chroutines_sched (sch s) ∧ p ∈ chroutines_sched (sch s') ∧
    ∃ c, obj p s = Some c ∧ ready now c = true ∧ obj p s' = Some (resumed c).
Proof.
  intros Hok Hl Hpick. pose proof (ok_wf _ Hok) as Hwf. simpl in Hwf.
  pose proof (pick_run_begin_outcome now now' s Hwf) as Ho. rewrite Hpick in Ho.
  inversion Ho as [Hi|Hi Hemp|Hi Hn|p l1 l2 c Hi Hsp Hc Hr Hb]; subst; clear Ho.
  - split; [by apply frames_same|done].
  - split; [|done]. split.
    + intros q c Hq. rewrite Hemp in Hq. by apply elem_of_nil in Hq.
    + intros q c' Hq. by left.
  - split; [|done]. split.
    + intros q c Hq Hc _. split; [done|]. by apply after_loop_sched.
    + intros q c' Hq. by left.
  - assert (Hp : p ∈ chroutines_sched (sch s)).
    { apply (from_iter_elem (start_iter (sch s))). rewrite Hsp. mem. }
    assert (Hit : ∀ q, head l2 = Some q → q ∈ chroutines_sched (sch s)).
    { intros q Hq. apply (from_iter_elem (start_iter (sch s))). rewrite Hsp. destruct l2; simplify_eq/=. mem. }
    destruct (Hl p c Hp Hc) as (Hson & _ & _).
    pose proof (picked_lone_sched now now' p c (head l2) s Hwf Hp Hc Hr Hit Hson) as Hs. split; [split|].
    + intros q d Hq Hd Hne. rewrite Hs. split; [done|]. rewrite picked_after by (done || congruence).
      by apply after_loop_sched.
    + intros q d Hq _. left. by rewrite <- Hs.
    + intros q [= <-]. rewrite Hs. split_and!; [done..|]. exists c. split_and!; [done..|]. by apply picked_obj.
Qed.

(** A return removes the coroutine. *)
Lemma frames_return p c s :
  wf_cell s → p ∈ chroutines_sched (sch s) → obj p s = Some c → father c = INVALID_ID →
  frames (Some p) s (entry_finish p s) ∧ p ∉ chroutines_sched (sch (entry_finish p s)).
Proof.
  intros Hs Hp Hc Hf. unfold entry_finish. rewrite Hc, Hf. cbv zeta. rewrite Z.eqb_refl.
  assert (Ho : ∀ q, obj q (upd_sch (set_running_id INVALID_ID) (remove_chroutine (me c) s)) = obj q s).
  { intros q. unfold obj, upd_sch. cbn [hp]. by rewrite remove_chroutine_hp. }
  assert (Hiff : ∀ q d, obj q s = Some d →
    q ∈ chroutines_sched (sch (upd_sch (set_running_id INVALID_ID) (remove_chroutine (me c) s))) ↔
    q ∈ chroutines_sched (sch s) ∧ me d ≠ me c).
  { intros q d Hd. by apply (remove_chroutine_sched (me c) s q d). }
  split; [split|].
  - intros q d Hq Hd Hne. rewrite Ho. split; [|by exists d]. apply (Hiff q d Hd). split; [done|].
    intros Heq. apply Hne. f_equal. by apply (wf_id_inj (proj1 Hs) q p d c).
  - intros q d Hq Hd. left. rewrite Ho in Hd. by apply (Hiff q d Hd).
  - rewrite (Hiff p c Hc). tauto.
Qed.

(** A wake-up touches the coroutine of its id. *)
Lemma frames_awake p c s :
  wf_cell s → p ∈ chroutines_sched (sch s) → obj p s = Some c → son c = INVALID_ID →
  let s' := snd (awake_chroutine (me c) s) in
  frames (Some p) s s' ∧ chroutines_sched (sch s') = chroutines_sched (sch s) ∧
  ∃ c', obj p s' = Some c' ∧ me c' = me c ∧ yield_to c' = 0 ∧ yield_wait c' = yield_wait c ∧ (lone c → lone c').
Proof.
  intros Hs Hp Hc Hson. cbv zeta. unfold awake_chroutine.
  rewrite (get_chroutine_sched p c s Hs Hp Hc). pose proof (yield_over_at_wf p result_done s Hs) as Hw.
  pose proof (yield_over_at_obj p result_done s c Hc) as Ho. pose proof (yield_over_at_sch p result_done s) as Hsc.
  assert (Ht : fst (yield_over_at p result_done s) = INVALID_ID).
  { unfold yield_over_at. rewrite Hc. unfold yield_over. case_if; [by rewrite Hson|done]. }
  assert (Hoth : ∀ q, Some q ≠ Some p → obj q (snd (yield_over_at p result_done s)) = obj q s).
  { intros q Hq. unfold yield_over_at. rewrite Hc. destruct (yield_over _ c (rps (hp s))) as [[t c'] rs].
    unfold obj, upd_rps, upd_chs. cbn [snd hp chs set_chs set_rps]. apply lookup_insert_ne. congruence. }
  destruct (yield_over_at p result_done s) as [t s1]. cbn [fst snd] in *. subst t. rewrite remove_invalid by done.
  split; [apply frames_same; [by rewrite Hsc|done]|]. split; [by rewrite Hsc|].
  eexists. split; [exact Ho|]. unfold yield_over, lone. case_if; simpl; tauto.
Qed.

(** ** Who waits *)

Section rendezvous.
Context {T : Type} (dflt : T).
(** The thread, and the time the program starts at. *)
Context (tid t0 : Z).

(** The coroutine sleeps until after the period considered. *)
Definition holding (c : chroutine_t) : Prop := t0 + HOLD_MS <= yield_to c.

(** The holding coroutines are those of the ids [ids]. *)
Record rendezvous (s : cell) (ids : list Z) : Prop := {
  rv_lone : ∀ q c, q ∈ chroutines_sched (sch s) → obj q s = Some c → lone c;
  rv_iff : ∀ q c, q ∈ chroutines_sched (sch s) → obj q s = Some c → holding c ↔ me c ∈ ids;
  rv_wait : ∀ q c, q ∈ chroutines_sched (sch s) → obj q s = Some c → holding c → yield_wait c = 0;
  rv_live : ∀ i, i ∈ ids → ∃ q c, q ∈ chroutines_sched (sch s) ∧ obj q s = Some c ∧ me c = i
}.

Context (Ht0 : 0 <= t0).

Lemma not_holding_0 c : yield_to c = 0 → ¬ holding c.
Proof. intros H. unfold holding, HOLD_MS. lia. Qed.

(** A transition that touches [x] and makes [ids'] of the waiting ids. *)
Lemma rendezvous_frames x s s' ids ids' :
  wf_cell s → rendezvous s ids → frames x s s' →
  (∀ q c, q ∈ chroutines_sched (sch s) → obj q s = Some c → Some q ≠ x → me c ∈ ids ↔ me c ∈ ids') →
  (∀ i, i ∈ ids' → ∃ q c, q ∈ chroutines_sched (sch s) ∧ obj q s = Some c ∧ me c = i) →
  (∀ p c, x = Some p → p ∈ chroutines_sched (sch s) → obj p s = Some c →
     (p ∉ chroutines_sched (sch s')) ∧ (me c ∉ ids') ∨
     p ∈ chroutines_sched (sch s') ∧ ∃ c', obj p s' = Some c' ∧ me c' = me c ∧ lone c' ∧
       (holding c' ↔ me c ∈ ids') ∧ (holding c' → yield_wait c' = 0)) →
  rendezvous s' ids'.
Proof.
  intros Hwf [Hlone Hiff Hw Hlive] [Hold Hnew] Hids Hlive' Hx.
  assert (Hall : ∀ q c', q ∈ chroutines_sched (sch s') → obj q s' = Some c' →
    lone c' ∧ (holding c' ↔ me c' ∈ ids') ∧ (holding c' → yield_wait c' = 0)).
  { intros q c' Hq Hc'. destruct (Hnew q c' Hq Hc') as [Hqs|(Hy & Hl & Hms)].
    - destruct (wf_sched _ _ _ _ (proj1 Hwf) q Hqs) as (c & Hc & _).
      destruct (decide (Some q = x)) as [Hqx|Hqx].
      + destruct (Hx q c (eq_sym Hqx) Hqs Hc) as [[? _]|(_ & d & Hd & Hme & H)]; [done|].
        simplify_eq. rewrite Hme. tauto.
      + destruct (Hold q c Hqs Hc Hqx) as (_ & d & Hd & Hme & Hy & Hl & Hyw). simplify_eq.
        unfold holding. rewrite Hme, Hy. rewrite <- (Hids q c Hqs Hc Hqx), <- (Hiff q c Hqs Hc). split_and!; [|done|].
        * apply Hl. by apply (Hlone q).
        * intros Hh. apply Hyw. by apply (Hw q c).
    - pose proof (not_holding_0 c' Hy). split_and!; [done| |tauto]. split; [tauto|]. intros Hi.
      destruct (Hlive' _ Hi) as (p & d & _ & Hd & Hme).
      pose proof (wf_id_range _ _ _ _ (proj1 Hwf) p d Hd). lia. }
  split; [intros q c Hq Hc; by apply (Hall q c Hq Hc)..|].
  intros i Hi. destruct (Hlive' i Hi) as (q & c & Hq & Hc & Hme).
  destruct (decide (Some q = x)) as [Hqx|Hqx].
  - destruct (Hx q c (eq_sym Hqx) Hq Hc) as [[_ Hn]|(Hq' & d & Hd & Hme' & _)]; [by rewrite Hme in Hn|].
    exists q, d. split_and!; [done..|congruence].
  - destruct (Hold q c Hq Hc Hqx) as (Hq' & d & Hd & Hme' & _). exists q, d. split_and!; [done..|congruence].
Qed.

Lemma rendezvous_perm s ids ids' : ids ≡ₚ ids' → rendezvous s ids → rendezvous s ids'.
Proof.
  intros Hp [H1 H2 H3 H4]. split; [done| |done|].
  - intros q c Hq Hc. rewrite <- Hp. by apply (H2 q).
  - intros i. rewrite <- Hp. apply H4.
Qed.

(** A transition after which the same coroutines wait; if it touches one that
    was not waiting, it leaves it without a long sleep or removes it. *)
Lemma rendezvous_same x s s' ids :
  wf_cell s → rendezvous s ids → frames x s s' →
  (∀ p c, x = Some p → p ∈ chroutines_sched (sch s) → obj p s = Some c →
     ¬ holding c ∧ (p ∈ chroutines_sched (sch s') →
       ∃ c', obj p s' = Some c' ∧ me c' = me c ∧ (lone c → lone c') ∧ ¬ holding c')) →
  rendezvous s' ids.
Proof.
  intros Hwf Hr Hf Hx. apply (rendezvous_frames x s s' ids ids); [done..|apply Hr|].
  intros p c Hp Hps Hc. destruct (Hx p c Hp Hps Hc) as [Hh H]. rewrite (rv_iff _ _ Hr p c Hps Hc) in Hh.
  destruct (decide (p ∈ chroutines_sched (sch s'))) as [Hp'|Hp']; [right|by left].
  destruct (H Hp') as (c' & Hc' & Hme & Hl & Hh'). split; [done|]. exists c'.
  split_and!; [done..|by apply Hl, (rv_lone _ _ Hr p)|tauto|tauto].
Qed.

(** ** One call of the channel *)

Definition waiting (ch : channel_t (T:=T)) : list chroutine_chan_context_t :=
  m_waiting_read_que ch ++ m_waiting_write_que ch.

Definition is_store (e : effect T) : Prop := match e with store _ _ => True | awake _ _ => False end.

(** What a call of [who] does to the queues. *)
Inductive queued (who : caller) (ch : channel_t (T:=T)) : outcome * list (effect T) * channel_t → Prop :=
  | q_passes b e ch' : Forall is_store e → waiting ch' = waiting ch → queued who ch (returned b, e, ch')
  | q_waits ch' ctx : c_holds who = true → thread_id ctx = c_thread who → chrotine_id ctx = c_id who →
      waiting ch' ≡ₚ ctx :: waiting ch → queued who ch (held, [], ch')
  | q_hands ctx p v ch' : out_ptr ctx = Some p → waiting ch = ctx :: waiting ch' →
      queued who ch (returned true, [store p v; awake (thread_id ctx) (chrotine_id ctx)], ch')
  | q_spins e ch' : queued who ch (spins, e, ch').

Lemma write_queued who v try_ ch :
  chan_wf ch → free ch → c_holds who = true ∨ try_ = true →
  let r := write who v try_ ch in queued who ch r ∧ chan_wf (snd r) ∧ free (snd r).
Proof.
  intros Hc Hf Hw. pose proof (write_refines_spec who v try_ ch Hc Hf) as H. cbv zeta.
  destruct (write who v try_ ch) as [[o e] ch']. destruct H as (Hs & Hc' & Hf' & _). split; [|done].
  unfold spec_write, hold in Hs. simpl in Hs. case_if_in Hs.
  - destruct try_; [|destruct Hw as [Hw|]; [rewrite Hw in Hs|done]]; injection Hs as <- <- _ _ Hr Hq.
    + apply q_passes; [done|]. unfold waiting. by rewrite Hr, Hq.
    + eapply q_waits; [..|unfold waiting; rewrite <- Hr, <- Hq, (assoc_L (++)); symmetry; apply Permutation_cons_append]; done.
  - destruct (m_waiting_read_que ch) as [|ctx q] eqn:Eq; injection Hs as <- <- _ _ Hr Hq.
    + apply q_passes; [done|]. unfold waiting. by rewrite Eq, <- Hr, Hq.
    + pose proof (cw_ptrs _ Hc) as Hp. rewrite Eq in Hp. apply Forall_cons in Hp as [[p Hp] _]. rewrite Hp. simpl.
      apply q_hands; [done|]. unfold waiting. by rewrite Eq, <- Hr, Hq.
Qed.

Lemma read_queued who p try_ ch :
  chan_wf ch → free ch → c_holds who = true ∨ try_ = true →
  let r := read dflt who p try_ ch in queued who ch r ∧ (fst (fst r) ≠ spins → chan_wf (snd r) ∧ free (snd r)).
Proof.
  intros Hc Hf Hw. cbv zeta. destruct (contents ch) as [|v q] eqn:Ec; [|destruct (m_waiting_write_que ch) as [|ctx ws] eqn:Ew].
  3: { rewrite (read_waiting_writer dflt who p try_ ch v ctx q Hc Hf Ec) by (by rewrite Ew). split; [apply q_spins|done]. }
  all: pose proof (length_contents ch Hc) as Hl; rewrite Ec in Hl; simpl in Hl; pose proof (cw_unread _ Hc) as Hcu.
  all: pose proof (read_refines_spec dflt who p try_ ch Hc Hf) as H.
  all: destruct (read dflt who p try_ ch) as [[o e] ch']; destruct H as (Hs & Hc' & Hf' & _); [first [by right|left; lia]|].
  all: split; [|done]; unfold spec_read, hold in Hs; simpl in Hs; rewrite Ec in Hs.
  - destruct try_; [|destruct Hw as [Hw|]; [rewrite Hw in Hs|done]]; injection Hs as <- <- _ _ Hr Hq.
    + apply q_passes; [done|]. unfold waiting. by rewrite Hr, Hq.
    + eapply q_waits; [..|unfold waiting; rewrite <- Hr, <- Hq; rewrite <- (assoc_L (++));
        symmetry; apply Permutation_middle]; done.
  - injection Hs as <- <- _ _ Hr Hq. apply q_passes; [by repeat constructor|]. unfold waiting. by rewrite Hr, <- Hq, Ew.
Qed.

Lemma op_queued who o ch :
  chan_wf ch → free ch →
  (match o with op_write w _ try_ | op_read w _ try_ => w = who ∧ (c_holds who = true ∨ try_ = true) | op_reset => True end) →
  let r := apply_op dflt o ch in queued who ch r ∧ (fst (fst r) ≠ spins → chan_wf (snd r) ∧ free (snd r)).
Proof.
  intros Hc Hf Ho. destruct o as [w v try_|w p try_|]; simpl; [destruct Ho as [-> Hw]..|].
  - destruct (write_queued who v try_ ch Hc Hf Hw) as (H1 & H2 & H3). auto.
  - by apply read_queued.
  - destruct (reset_ok ch Hc Hf) as (ch' & Hr & Hc' & _). rewrite Hr. simpl. split; [|].
    + apply q_passes; [done|]. revert Hr. unfold reset. rewrite lock_attempt_free by exact Hf. by intros [= <-].
    + intros _. split; [done|]. revert Hr. unfold reset. rewrite lock_attempt_free by exact Hf. by intros [= <-].
Qed.

(** *** All the channels *)

Definition queues (cs : list (channel_t (T:=T))) : list chroutine_chan_context_t := cs ≫= waiting.
Definition waiting_ids (cs : list (channel_t (T:=T))) : list Z := chrotine_id <$> queues cs.

(** One channel changes: the rest of the queues stays. *)
Lemma queues_update k ch ch' cs :
  cs !! k = Some ch → ∃ rest, queues cs ≡ₚ waiting ch ++ rest ∧ queues (<[k := ch']> cs) ≡ₚ waiting ch' ++ rest.
Proof.
  intros Hk. exists (queues (take k cs) ++ queues (drop (S k) cs)).
  assert (Hq : ∀ l1 c l2, queues (l1 ++ c :: l2) ≡ₚ waiting c ++ queues l1 ++ queues l2).
  { intros l1 c l2. unfold queues. rewrite bind_app, bind_cons. apply Permutation_app_swap_app. }
  split.
  - rewrite <- (take_drop_middle cs k ch Hk) at 1. apply Hq.
  - rewrite insert_take_drop by (by apply lookup_lt_is_Some_1; exists ch). apply Hq.
Qed.

Lemma queues_snoc cs n : queues (cs ++ [Channel.create dflt n]) = queues cs.
Proof. unfold queues. rewrite bind_app. simpl. by rewrite app_nil_r. Qed.

(** ** The program *)

(** A call of a member of a channel: the pointers of readers are addresses of
    the memory. *)
Inductive chan_call :=
  | chan_write (v : T) (try_ : bool)
  | chan_read (data_ptr : nat) (try_ : bool)
  | chan_reset.

Definition op_of (who : caller) (o : chan_call) : op (T:=T) :=
  match o with
  | chan_write v try_ => op_write who v try_
  | chan_read p try_ => op_read who p try_
  | chan_reset => op_reset
  end.

(** The call does not wait. *)
Definition is_try (o : chan_call) : Prop :=
  match o with chan_write _ try_ | chan_read _ try_ => try_ = true | chan_reset => True end.

Record world := mk_world {
  cel : cell;
  cur : option nat;
  chans : list (channel_t (T:=T));
  mem : gmap nat T
}.

(** The effects of a call: a store, or [ENGIN.awake_chroutine] on the thread of
    that id. *)
Definition run_effect (x : cell * gmap nat T) (e : effect T) : cell * gmap nat T :=
  match e with
  | store p v => (fst x, <[p := v]> (snd x))
  | awake t i => if t =? tid then (snd (awake_chroutine i (fst x)), snd x) else x
  end.

(** The caller is the running coroutine, or the main context, where [HOLD()]
    returns at once. *)
Definition caller_of (w : world) : caller :=
  mk_caller tid (running_id (sch (cel w))) (bool_decide (is_Some (cur w))).

(** The call of channel [k] as a whole: [None] when it spins in [lock] or
    crashes.  A call that waits ends in [HOLD()], and when that swaps the main
    context goes on. *)
Definition call_channel (now : Z) (k : nat) (o : chan_call) (w : world) : option world :=
  match chans w !! k with
  | None => None
  | Some ch =>
    let '(r, e, ch') := apply_op dflt (op_of (caller_of w) o) ch in
    let '(s, m) := foldl run_effect (cel w, mem w) e in
    let cs := <[k := ch']> (chans w) in
    match r with
    | returned _ => Some (mk_world s (cur w) cs m)
    | held =>
      match HOLD now s with
      | (s', true) => Some (mk_world (clear_entry_time s') None cs m)
      | (s', false) => Some (mk_world s' (cur w) cs m)
      end
    | spins | crashed => None
    end
  end.

Definition in_period (now : Z) : Prop := t0 <= now < t0 + HOLD_MS.

(** The other calls of a coroutine: it yields, sleeps until some time of the
    period, and makes coroutines and reporters. *)
Definition plain (c : call) : Prop :=
  match c with
  | call_yield _ | call_create _ _ | call_new_reporter _ => True
  | call_wait now ms | call_sleep now ms => now + ms < t0 + HOLD_MS
  | call_create_son _ _ | call_awake _ => False
  end.

(** The calls of the selectable objects and of other threads. *)
Definition outside (c : call) : Prop :=
  match c with call_create _ _ | call_new_reporter _ => True | _ => False end.

(** The programs considered: sons, other awakes, blocking calls of the main
    context and calls that do not return are no transitions. *)
Inductive mstep : world → world → Prop :=
  | m_pick now now' s cs m s' r n :
      in_period now → pick_run_begin now now' s = (s', r, n) →
      mstep (mk_world s None cs m) (mk_world s' r cs m)
  (** a call of a coroutine, or one from the main context that does not wait *)
  | m_chan now k o w w' :
      in_period now → (cur w = None → is_try o) → call_channel now k o w = Some w' → mstep w w'
  (** a new channel *)
  | m_new s r cs m max_size :
      mstep (mk_world s r cs m) (mk_world s r (cs ++ [Channel.create dflt max_size]) m)
  | m_call c s p cs m s' sw :
      plain c → do_call c s = (s', sw) →
      mstep (mk_world s (Some p) cs m)
            (mk_world (if sw then clear_entry_time s' else s') (if sw then None else Some p) cs m)
  | m_return s p cs m :
      mstep (mk_world s (Some p) cs m) (mk_world (clear_entry_time (entry_finish p s)) None cs m)
  | m_outside c s r cs m :
      outside c → mstep (mk_world s r cs m) (mk_world (fst (do_call c s)) r cs m).

(** A thread without coroutines and channels. *)
Definition start (self : nat) : world := mk_world (fst (init self)) None [] ∅.

(** ** The invariant *)

Record coherent (w : world) : Prop := {
  co_ok : cfg_ok (cel w, cur w);
  co_chan : Forall (λ ch, chan_wf ch ∧ free ch) (chans w);
  co_rv : rendezvous (cel w) (waiting_ids (chans w));
  co_nodup : NoDup (waiting_ids (chans w));
  co_tid : Forall (λ ctx, thread_id ctx = tid) (queues (chans w));
  co_cur : ∀ p, cur w = Some p → p ∈ chroutines_sched (sch (cel w))
}.

(** A transition keeps the invariant and touches only the coroutine that runs
    before or after it, or one that was holding. *)
Definition goes (w w' : world) : Prop :=
  coherent w' ∧ ∃ x, frames x (cel w) (cel w') ∧
    ∀ q, x = Some q → cur w = Some q ∨ cur w' = Some q ∨ ∃ c, obj q (cel w) = Some c ∧ holding c.

Lemma start_coherent self : coherent (start self).
Proof.
  split; simpl; [apply init_ok|by constructor| |by constructor|by constructor|done].
  split; intros ? *; intros H; by apply elem_of_nil in H.
Qed.

(** The running coroutine is listed, and it does not hold. *)
Lemma running_not_holding w p :
  coherent w → cur w = Some p →
  ∃ c, obj p (cel w) = Some c ∧ p ∈ chroutines_sched (sch (cel w)) ∧ running_id (sch (cel w)) = me c ∧
    lone c ∧ yield_wait c = 0 ∧ ¬ holding c ∧ me c ∉ waiting_ids (chans w).
Proof.
  intros Hw Hp. pose proof (ok_run _ (co_ok _ Hw)) as Hrun. simpl in Hrun. rewrite Hp in Hrun.
  destruct Hrun as (c & Hc & Hi & _ & Hyw & Hyt & _). pose proof (co_cur _ Hw p Hp) as Hps.
  exists c. pose proof (not_holding_0 c Hyt) as Hh. split_and!; try done.
  - by apply (rv_lone _ _ (co_rv _ Hw) p).
  - by rewrite <- (rv_iff _ _ (co_rv _ Hw) p c Hps Hc).
Qed.

Lemma lone_sched w q c :
  coherent w → q ∈ chroutines_sched (sch (cel w)) → obj q (cel w) = Some c → lone c.
Proof. intros Hw. apply (rv_lone _ _ (co_rv _ Hw)). Qed.

(** Transitions that leave the channel alone. *)
Lemma goes_same w s' r x :
  coherent w → cfg_ok (s', r) → frames x (cel w) s' →
  (∀ p, x = Some p → cur w = Some p ∨ r = Some p) →
  (∀ p, r = Some p → p ∈ chroutines_sched (sch s')) →
  (∀ p c, x = Some p → p ∈ chroutines_sched (sch (cel w)) → obj p (cel w) = Some c →
     ¬ holding c ∧ (p ∈ chroutines_sched (sch s') →
       ∃ c', obj p s' = Some c' ∧ me c' = me c ∧ (lone c → lone c') ∧ ¬ holding c')) →
  goes w (mk_world s' r (chans w) (mem w)).
Proof.
  intros Hw Hok Hf Hx Hr Hc. split.
  - split; simpl; try apply Hw; try done.
    apply (rendezvous_same x (cel w)); [apply (ok_wf _ (co_ok _ Hw))|apply Hw|done..].
  - exists x. split; [done|]. intros q Hq. simpl. destruct (Hx q Hq); auto.
Qed.

Lemma resumed_spec c : me (resumed c) = me c ∧ yield_to (resumed c) = 0 ∧ (lone c → lone (resumed c)).
Proof. unfold resumed, yield_over, lone. case_if; simpl; tauto. Qed.

Lemma goes_pick now now' s cs m s' r n :
  coherent (mk_world s None cs m) → in_period now → pick_run_begin now now' s = (s', r, n) →
  goes (mk_world s None cs m) (mk_world s' r cs m).
Proof.
  intros Hw Hn Hp. pose proof (co_ok _ Hw) as Hok. simpl in Hok.
  destruct (frames_pick now now' s s' r n Hok (λ q c, lone_sched _ q c Hw) Hp) as [Hf Hr].
  apply (goes_same (mk_world s None cs m) s' r r); simpl; auto.
  - by eapply pick_ok.
  - intros p Hp'. by apply (Hr p Hp').
  - intros p c Hp' _ Hc. destruct (Hr p Hp') as (_ & _ & d & Hd & Hrd & Ho). assert (d = c) as -> by congruence.
    destruct (resumed_spec c) as (H1 & H2 & H3). apply ready_spec in Hrd as (_ & _ & Hy). split.
    + unfold holding, in_period, HOLD_MS in *. lia.
    + intros _. exists (resumed c). split_and!; [done..|]. by apply not_holding_0.
Qed.

Lemma goes_return s p cs m :
  coherent (mk_world s (Some p) cs m) →
  goes (mk_world s (Some p) cs m) (mk_world (clear_entry_time (entry_finish p s)) None cs m).
Proof.
  intros Hw. destruct (running_not_holding _ p Hw eq_refl) as (c & Hc & Hp & _ & (_ & Hfa & _) & _ & Hh & _).
  pose proof (co_ok _ Hw) as Hok. simpl in *.
  destruct (frames_return p c s (ok_wf _ Hok) Hp Hc Hfa) as [Hf Hn].
  apply (goes_same (mk_world s (Some p) cs m) _ None (Some p)); simpl; auto; try done.
  - by apply upd_th_ok, entry_finish_ok.
  - by apply frames_clear.
  - intros q d [= <-] _ Hd. by simplify_eq.
Qed.

Lemma goes_outside c s r cs m :
  coherent (mk_world s r cs m) → outside c →
  goes (mk_world s r cs m) (mk_world (fst (do_call c s)) r cs m).
Proof.
  intros Hw Ho. pose proof (co_ok _ Hw) as Hok. simpl in Hok. pose proof (ok_wf _ Hok) as Hwf. simpl in Hwf.
  assert (Hf : frames None s (fst (do_call c s))).
  { destruct c; try done; simpl; [by apply frames_create|by apply frames_same]. }
  apply (goes_same (mk_world s r cs m) _ r None); simpl; auto; try done.
  - apply external_ok; [|done]. by destruct c.
  - intros p Hp. destruct (running_not_holding _ p Hw Hp) as (d & Hd & Hps & _). by apply (fr_old _ _ _ Hf p d).
Qed.

(** A suspension of the running coroutine that is not a [HOLD()]. *)
Lemma goes_suspend f s p cs m s' sw :
  coherent (mk_world s (Some p) cs m) → suspend_current f s = (s', sw) →
  (∀ c, me (f c) = me c ∧ son (f c) = son c ∧ father (f c) = father c ∧ moved (f c) = moved c ∧
        state (f c) = chroutine_state_suspend ∧ (0 <= yield_wait c → 0 <= yield_wait (f c))) →
  (∀ c, yield_to c = 0 → ¬ holding (f c)) →
  sw = true ∧ goes (mk_world s (Some p) cs m) (mk_world (clear_entry_time s') None cs m).
Proof.
  intros Hw Hs Hf Hh. pose proof (co_ok _ Hw) as Hok. simpl in Hok.
  destruct (running_not_holding _ p Hw eq_refl) as (c & Hc & Hp & _ & _ & _ & Hnh & _). simpl in *.
  pose proof (ok_run _ Hok) as (c0 & Hc0 & _ & _ & _ & Hyt & _). simpl in Hc0. simplify_eq.
  destruct (suspend_current_cases f s p c Hok Hc) as [[_ E]|[Hn _]]; [|done].
  pose proof (suspend_current_ok f s p s' sw ltac:(intros d; destruct (Hf d); tauto) Hok Hs) as Hok'.
  rewrite E in Hs. simplify_eq. split; [done|]. destruct (Hf c) as (H1 & H2 & H3 & H4 & _).
  apply (goes_same (mk_world s (Some p) cs m) _ None (Some p)); simpl; auto; try done.
  - by apply upd_th_ok.
  - apply frames_clear, frames_suspend.
  - intros q d [= <-] _ Hd. assert (d = c) as -> by congruence. split; [done|]. intros _. exists (f c).
    split_and!; [|done| |by apply Hh].
    + unfold obj. simpl. by rewrite lookup_insert_eq.
    + unfold lone. rewrite H2, H3, H4. tauto.
Qed.

Lemma goes_refl w : coherent w → goes w w.
Proof. intros Hw. split; [done|]. exists None. split; [by apply frames_same|done]. Qed.

Lemma goes_call c s p cs m s' sw :
  coherent (mk_world s (Some p) cs m) → plain c → do_call c s = (s', sw) →
  goes (mk_world s (Some p) cs m)
       (mk_world (if sw then clear_entry_time s' else s') (if sw then None else Some p) cs m).
Proof.
  intros Hw Hc Hd. destruct c as [tick|now ms|now ms|f a|f rep|id|d]; try done; simpl in Hd, Hc.
  - unfold thread_yield in Hd. rewrite yield_current_eq in Hd. case_if_in Hd; [simplify_eq; by apply goes_refl|]. bool_to_prop.
    destruct (goes_suspend _ _ _ cs m _ _ Hw Hd) as [-> H]; [intros c; simpl; split_and!; try done; lia| |done].
    intros c Hy. by apply not_holding_0.
  - unfold thread_wait in Hd. rewrite wait_current_eq in Hd. case_if_in Hd; [simplify_eq; by apply goes_refl|].
    destruct (goes_suspend _ _ _ cs m _ _ Hw Hd) as [-> H]; [by intros c| |done].
    intros c _. unfold holding. simpl. lia.
  - unfold thread_sleep in Hd. rewrite wait_current_eq in Hd. case_if_in Hd; [simplify_eq; by apply goes_refl|].
    destruct (goes_suspend _ _ _ cs m _ _ Hw Hd) as [-> H]; [by intros c| |done].
    intros c _. unfold holding. simpl. lia.
  - simplify_eq. by apply (goes_outside (call_create f a)).
  - simplify_eq. by apply (goes_outside (call_new_reporter d)).
Qed.

(** *** Calls of the channel *)

Lemma foldl_stores e s m : Forall is_store e → ∃ m', foldl run_effect (s, m) e = (s, m').
Proof.
  intros H. revert m. induction H as [|x e Hx _ IH]; intros m; [by exists m|]. destruct x; [|done]. apply IH.
Qed.

Lemma waiting_ids_perm cs cs' l :
  queues cs' ≡ₚ l ++ queues cs → waiting_ids cs' ≡ₚ (chrotine_id <$> l) ++ waiting_ids cs.
Proof. intros H. unfold waiting_ids. by rewrite H, fmap_app. Qed.

(** A call that returns and wakes nobody. *)
Lemma goes_passes s r cs m cs' m' :
  coherent (mk_world s r cs m) → Forall (λ ch, chan_wf ch ∧ free ch) cs' → queues cs' ≡ₚ queues cs →
  goes (mk_world s r cs m) (mk_world s r cs' m').
Proof.
  intros [H1 H2 H3 H4 H5 H6] Hc Hq. pose proof (waiting_ids_perm cs cs' [] Hq) as Hi. simpl in *. split.
  - split; simpl; rewrite ?Hi, ?Hq; try done. by apply (rendezvous_perm _ (waiting_ids cs)).
  - exists None. split; [by apply frames_same|done].
Qed.

(** A call that blocks: the caller joins the queue and holds. *)
Lemma goes_waits now s p cs m cs' ctx :
  coherent (mk_world s (Some p) cs m) → in_period now → Forall (λ ch, chan_wf ch ∧ free ch) cs' →
  thread_id ctx = tid → chrotine_id ctx = running_id (sch s) → queues cs' ≡ₚ ctx :: queues cs →
  ∃ s', HOLD now s = (s', true) ∧
    goes (mk_world s (Some p) cs m) (mk_world (clear_entry_time s') None cs' m).
Proof.
  intros Hw Hn Hc Ht Hi Hq. pose proof (co_ok _ Hw) as Hok. simpl in Hok.
  destruct (running_not_holding _ p Hw eq_refl) as (c & Hoc & Hp & Hrun & Hl & Hyw & Hnh & Hni). simpl in *.
  assert (Hids : waiting_ids cs' ≡ₚ me c :: waiting_ids cs).
  { rewrite (waiting_ids_perm cs cs' [ctx] Hq). simpl. by rewrite Hi, Hrun. }
  set (f := λ d : chroutine_t, set_stop_son false (set_yield_to (now + HOLD_MS) (set_state chroutine_state_suspend d))).
  destruct (suspend_current_cases f s p c Hok Hoc) as [[_ E]|[H _]]; [|done].
  assert (HH : HOLD now s = (upd_sch (set_running_id INVALID_ID) (upd_chs <[p := f c]> s), true)) by exact E.
  eexists. split; [exact HH|].
  assert (Hok' : cfg_ok (upd_sch (set_running_id INVALID_ID) (upd_chs <[p := f c]> s), None)).
  { refine (do_call_ok (call_sleep now HOLD_MS) s p _ true Hok HH). }
  pose proof (frames_suspend p (f c) s) as Hfr.
  assert (Hof : obj p (upd_sch (set_running_id INVALID_ID) (upd_chs <[p := f c]> s)) = Some (f c)).
  { unfold obj. simpl. by rewrite lookup_insert_eq. }
  split; [split; simpl|].
  - by apply upd_th_ok.
  - done.
  - apply (rendezvous_perm _ (me c :: waiting_ids cs)); [by symmetry|].
    apply (rendezvous_frames (Some p) s _ (waiting_ids cs)); [apply Hok|apply Hw|by apply frames_clear|..].
    + intros q d Hq' Hd Hne. rewrite elem_of_cons. split; [auto|]. intros [He|]; [|done].
      exfalso. apply Hne. f_equal. by apply (wf_id_inj (proj1 (ok_wf _ Hok)) q p d c).
    + intros i [->|Hi']%elem_of_cons; [by exists p, c|]. by apply (rv_live _ _ (co_rv _ Hw)).
    + intros q d [= <-] _ Hd. assert (d = c) as -> by congruence. right. split; [done|]. exists (f c).
      split_and!; [done..| |done]. split; [mem|]. intros _. unfold holding, f, in_period in *. simpl. lia.
  - rewrite Hids. constructor; [done|apply (co_nodup _ Hw)].
  - rewrite Hq. constructor; [done|apply (co_tid _ Hw)].
  - done.
  - exists (Some p). split; [by apply frames_clear|]. intros q [= <-]. by left.
Qed.

(** A call that hands its value to a reader. *)
Lemma goes_hands s r0 cs m cs' m' ctx :
  coherent (mk_world s r0 cs m) → Forall (λ ch, chan_wf ch ∧ free ch) cs' → queues cs ≡ₚ ctx :: queues cs' →
  let s' := snd (awake_chroutine (chrotine_id ctx) s) in
  goes (mk_world s r0 cs m) (mk_world s' r0 cs' m') ∧
  ∃ r c, r0 ≠ Some r ∧ r ∈ chroutines_sched (sch s') ∧ obj r s' = Some c ∧
    me c = chrotine_id ctx ∧ yield_to c = 0 ∧ yield_wait c = 0 ∧ moved c = false.
Proof.
  intros Hw Hc Hq. cbv zeta. pose proof (co_ok _ Hw) as Hok. simpl in Hok.
  pose proof (waiting_ids_perm cs' cs [ctx] Hq) as Hids. simpl in Hids.
  pose proof (rendezvous_perm _ _ _ Hids (co_rv _ Hw)) as Hrv.
  pose proof (co_nodup _ Hw) as Hnd. simpl in Hrv, Hnd. rewrite Hids in Hnd.
  apply NoDup_cons in Hnd as [Hni Hnd].
  destruct (rv_live _ _ Hrv (chrotine_id ctx)) as (r & c & Hr & Hrc & Hme); [mem|].
  pose proof (rv_lone _ _ Hrv r c Hr Hrc) as Hl. rewrite <- Hme in *.
  assert (Hh : holding c) by (apply (rv_iff _ _ Hrv r c Hr Hrc); mem).
  pose proof (rv_wait _ _ Hrv r c Hr Hrc Hh) as Hyw.
  destruct (frames_awake r c s (ok_wf _ Hok) Hr Hrc (proj1 Hl)) as (Hfr & Hs & c' & Hc' & Hme' & Hy' & Hyw' & Hl').
  pose proof (evolves_awake (me c) s (ok_wf _ Hok)) as He. specialize (Hl' Hl).
  set (s' := snd (awake_chroutine (me c) s)) in *. rewrite Hs.
  split; [split; [split|]|]; simpl.
  - by apply (evolves_ok s).
  - done.
  - apply (rendezvous_frames (Some r) s s' (me c :: waiting_ids cs')); [apply Hok|done|done|..].
    + intros q d Hq' Hd Hne. rewrite elem_of_cons. split; [|auto]. intros [He'|]; [|done].
      exfalso. apply Hne. f_equal. by apply (wf_id_inj (proj1 (ok_wf _ Hok)) q r d c).
    + intros i Hi. apply (rv_live _ _ Hrv). mem.
    + intros q d [= <-] _ Hd. assert (d = c) as -> by congruence. right. rewrite Hs. split; [done|]. exists c'.
      pose proof (not_holding_0 c' Hy'). split_and!; try done; tauto.
  - done.
  - pose proof (co_tid _ Hw) as Ht. simpl in Ht. rewrite Hq in Ht. by apply Forall_cons in Ht as [_ Ht].
  - rewrite Hs. apply (co_cur _ Hw).
  - exists (Some r). split; [done|]. intros q [= <-]. right. right. by exists c.
  - exists r, c'. split_and!; try done; [|congruence|apply Hl']. intros Hr0.
    destruct (running_not_holding _ r Hw Hr0) as (d & Hd & _ & _ & _ & _ & Hnh & _). simpl in Hd.
    assert (d = c) as -> by congruence. done.
Qed.

Lemma goes_chan now k o w w' :
  coherent w → in_period now → (cur w = None → is_try o) → call_channel now k o w = Some w' → goes w w'.
Proof.
  intros Hw Hn Htry. unfold call_channel. destruct (chans w !! k) as [ch|] eqn:Hk; [|done].
  destruct (Forall_lookup_1 _ _ _ _ (co_chan _ Hw) Hk) as [Hcw Hcf].
  destruct (op_queued (caller_of w) (op_of (caller_of w) o) ch Hcw Hcf) as [Hq Hok].
  { assert (Hor : cur w ≠ None ∨ is_try o) by (destruct (cur w); [by left|right; by apply Htry]).
    destruct o; simpl; [..|done]; (split; [done|]); (destruct Hor as [Hc|]; [left|by right]);
      apply bool_decide_eq_true_2; by apply not_eq_None_Some. }
  destruct (apply_op dflt _ ch) as [[r e] ch']. simpl in Hok.
  destruct (queues_update k ch ch' (chans w) Hk) as (rest & Hq1 & Hq2).
  assert (Hall : r ≠ spins → Forall (λ ch, chan_wf ch ∧ free ch) (<[k := ch']> (chans w))).
  { intros Hr. apply Forall_insert; [apply (co_chan _ Hw)|by apply Hok]. }
  destruct w as [s r0 cs m]. simpl in *.
  inversion Hq as [b e' ch2 Hst Hwq|ch2 ctx Hh Ht Hi Hwq|ctx pt v ch2 Hpt Hwq|e' ch2]; subst; clear Hq.
  - destruct (foldl_stores e s m Hst) as [m' ->]. intros [= <-]. apply goes_passes; [done|by apply Hall|].
    by rewrite Hq2, Hq1, Hwq.
  - simpl. destruct r0 as [p|].
    + destruct (goes_waits now s p cs m (<[k := ch']> cs) ctx Hw Hn (Hall ltac:(done)) Ht Hi) as (s' & -> & Hg).
      { by rewrite Hq2, Hq1, Hwq. }
      by intros [= <-].
    + done.
  - simpl. pose proof (co_tid _ Hw) as Htid. simpl in Htid. rewrite Hq1, Hwq in Htid. apply Forall_cons in Htid as [-> _].
    rewrite Z.eqb_refl. intros [= <-]. apply (goes_hands s r0 cs m _ _ ctx); [done|by apply Hall|].
    by rewrite Hq1, Hq2, Hwq.
  - by destruct (foldl _ _ _).
Qed.

Lemma goes_new s r cs m n :
  coherent (mk_world s r cs m) → goes (mk_world s r cs m) (mk_world s r (cs ++ [Channel.create dflt n]) m).
Proof.
  intros Hw. apply goes_passes; [done| |by rewrite queues_snoc].
  apply Forall_app. split; [apply (co_chan _ Hw)|]. constructor; [|done].
  destruct (create_wf dflt n) as (? & ? & _). done.
Qed.

Lemma mstep_goes w w' : coherent w → mstep w w' → goes w w'.
Proof.
  intros Hw H. destruct H as [|now k o w w' Hn Ht H| |c s p cs m s' sw| |].
  - by eapply goes_pick.
  - by apply (goes_chan now k o).
  - by apply goes_new.
  - by apply (goes_call c s p cs m s' sw).
  - by apply goes_return.
  - by apply goes_outside.
Qed.

Lemma runs_coherent self w : rtc mstep (start self) w → coherent w.
Proof.
  intros H. eapply rtc_invariant; [|exact H|apply start_coherent]. intros x y Hx Hxy.
  exact (proj1 (mstep_goes _ _ Hx Hxy)).
Qed.

(** ** The transitions are those of the thread *)

Lemma effects_steps r e s m : rtc step (s, r) (fst (foldl run_effect (s, m) e), r).
Proof.
  revert s m. induction e as [|x e IH]; intros s m; [done|]. destruct x as [a v|t i]; simpl; [apply IH|].
  case_if; [|apply IH]. eapply rtc_l; [|apply IH]. by apply (step_external (call_awake i)).
Qed.

(** A sleep from the main context returns at once. *)
Lemma main_sleep now ms s s' sw :
  running_id (sch s) = INVALID_ID → thread_sleep now ms s = (s', sw) → s' = s ∧ sw = false.
Proof.
  intros Hi. unfold thread_sleep. rewrite wait_current_eq. unfold suspend_current. rewrite Hi.
  by case_if; intros [= <- <-].
Qed.

Lemma channel_steps now k o w w' :
  coherent w → call_channel now k o w = Some w' → rtc step (cel w, cur w) (cel w', cur w').
Proof.
  intros Hw. unfold call_channel. destruct (chans w !! k) as [ch|]; [|done].
  destruct (apply_op dflt _ ch) as [[r e] ch'].
  pose proof (effects_steps (cur w) e (cel w) (mem w)) as He. destruct (foldl _ _ _) as [s1 m1]. simpl in He.
  destruct r as [b| | |]; [by intros [= <-]| |done..].
  destruct (HOLD now s1) as [s2 sw] eqn:EH. destruct (cur w) as [p|] eqn:Hcur.
  - pose proof (step_call (call_sleep now HOLD_MS) s1 p s2 sw EH) as Hs.
    destruct sw; intros [= <-]; (eapply rtc_r; [exact He|exact Hs]).
  - assert (Hok : cfg_ok (s1, None)).
    { eapply rtc_invariant; [apply step_ok|exact He|]. pose proof (co_ok _ Hw) as H. by rewrite Hcur in H. }
    destruct (main_sleep now HOLD_MS s1 s2 sw (ok_run _ Hok) EH) as [-> ->]. intros [= <-]. simpl. exact He.
Qed.

Lemma mstep_steps w w' : coherent w → mstep w w' → rtc step (cel w, cur w) (cel w', cur w').
Proof.
  intros Hw H. destruct H as [now now' s cs m s' r n _ H|now k o w w' _ _ H|s r cs m n|c s p cs m s' sw _ H|s p cs m|c s r cs m H]; simpl.
  - apply rtc_once. by eapply step_pick.
  - by eapply channel_steps.
  - done.
  - apply rtc_once. pose proof (step_call c s p s' sw H). by destruct sw.
  - apply rtc_once, step_return.
  - apply rtc_once, step_external. by destruct c.
Qed.

Lemma runs_reachable self w : rtc mstep (start self) w → reachable self (cel w, cur w).
Proof.
  intros H. enough (coherent w ∧ reachable self (cel w, cur w)) by tauto. revert H.
  apply (rtc_ind_r (λ w, coherent w ∧ reachable self (cel w, cur w))).
  - split; [apply start_coherent|apply rtc_refl].
  - intros x y _ Hxy [Hx Hr]. split; [exact (proj1 (mstep_goes _ _ Hx Hxy))|].
    unfold reachable in *. etransitivity; [exact Hr|by apply mstep_steps].
Qed.

(** ** Until the next pick *)

(** The coroutine of id [i] is listed and nothing keeps it from running. *)
Definition settled (r : nat) (i : Z) (s : cell) : Prop :=
  r ∈ chroutines_sched (sch s) ∧
  ∃ c, obj r s = Some c ∧ me c = i ∧ yield_to c = 0 ∧ yield_wait c = 0 ∧ moved c = false.

(** A transition that does not pick [r]. *)
Definition passes_over (r : nat) (w w' : world) : Prop := mstep w w' ∧ cur w' ≠ Some r.

Lemma settled_stays r i w w' :
  coherent w → cur w ≠ Some r → settled r i (cel w) → rtc (passes_over r) w w' →
  coherent w' ∧ settled r i (cel w').
Proof.
  intros Hw Hr Hs H. induction H as [w|w w1 w2 [H1 Hn] _ IH]; [done|].
  destruct (mstep_goes w w1 Hw H1) as [Hw1 (x & Hf & Hx)]. apply IH; [done..|].
  destruct Hs as (Hsr & c & Hc & Hme & Hy & Hyw & Hm).
  destruct (fr_old _ _ _ Hf r c Hsr Hc) as (Hr1 & c1 & Hc1 & Hme1 & Hy1 & Hl1 & Hyw1).
  { intros <-. destruct (Hx r eq_refl) as [?|[?|(d & Hd & Hh)]]; [done..|].
    assert (d = c) as -> by congruence. by apply (not_holding_0 c Hy). }
  split; [done|]. exists c1. split_and!; [done|congruence..|by apply Hyw1|].
  apply Hl1. by apply (lone_sched w r).
Qed.

Lemma write_to_reader now k v try_ w ch ctx q :
  coherent w → chans w !! k = Some ch → m_waiting_read_que ch = ctx :: q →
  ∃ w' ch' r a, call_channel now k (chan_write v try_) w = Some w' ∧ coherent w' ∧ cur w' = cur w ∧ cur w ≠ Some r ∧
    out_ptr ctx = Some a ∧ mem w' = <[a := v]> (mem w) ∧
    chans w' = <[k := ch']> (chans w) ∧ m_waiting_read_que ch' = q ∧ settled r (chrotine_id ctx) (cel w').
Proof.
  intros Hw Hk Hq. destruct (Forall_lookup_1 _ _ _ _ (co_chan _ Hw) Hk) as [Hc Hf].
  pose proof (write_refines_spec (caller_of w) v try_ ch Hc Hf) as Hspec.
  unfold call_channel. rewrite Hk. simpl. destruct (write _ v try_ ch) as [[o e] ch'].
  destruct Hspec as (Hs & Hc' & Hf' & _).
  assert (Hu : m_unread ch = 0) by (apply (cw_readers _ Hc); by rewrite Hq).
  pose proof (cw_ptrs _ Hc) as Hpt. rewrite Hq in Hpt. apply Forall_cons in Hpt as [[a Ha] _].
  pose proof (cw_size _ Hc) as Hsz. unfold spec_write in Hs. simpl in Hs.
  rewrite (contents_empty ch), Hq, Ha in Hs by lia. simpl in Hs.
  destruct (Z.leb_spec (m_max_size ch) (Z.of_nat 0)); [lia|]. injection Hs as <- <- _ _ Hqr Hqw.
  destruct (queues_update k ch ch' (chans w) Hk) as (rest & Hq1 & Hq2).
  assert (Hwq : waiting ch = ctx :: waiting ch') by (unfold waiting; by rewrite Hq, <- Hqr, <- Hqw).
  pose proof (co_tid _ Hw) as Ht. simpl in Ht. rewrite Hq1, Hwq in Ht. apply Forall_cons in Ht as [Ht _].
  simpl. rewrite Ht, Z.eqb_refl. simpl. destruct w as [s r0 cs m]. simpl in *.
  destruct (goes_hands s r0 cs m (<[k := ch']> cs) (<[a := v]> m) ctx Hw) as [[Hg _] (r & c & Hne & Hr & Hrc & Hrest)].
  { by apply Forall_insert; [apply (co_chan _ Hw)|]. }
  { by rewrite Hq1, Hq2, Hwq. }
  eexists _, ch', r, a. split_and!; [done..|]. split; [done|]. by exists c.
Qed.
End rendezvous.

(** ** Properties *)

(** C5: no lost wake-up, for programs on one thread whose coroutines wait for
    each other through channels only: they create no sons and call
    [awake_chroutine] only through channels, sleep only within the thirty years
    of [HOLD()], are not moved, no other thread awakes them or uses the
    channels, the main context makes only channel calls that do not wait, and no
    call spins in [lock].  In every configuration such a program reaches, in any
    order of channel calls, yields, sleeps, creations and passes: it is a
    configuration of Run, so what holds there holds here; the coroutines
    suspended by [HOLD()] are exactly those of the queues of the channels; each
    entry of a queue is that of a listed coroutine which is not running, and a
    coroutine is in one queue, once; and as long as the thirty years have not
    passed, the scheduler does not pick a coroutine that waits.  With sons this
    fails ([son_ends_hold]). *)
Theorem no_wake_up_is_lost {T : Type} (dflt : T) tid t0 self w :
  0 <= t0 → rtc (mstep dflt tid t0) (start self) w →
  reachable self (cel w, cur w) ∧
  (∀ p c, p ∈ chroutines_sched (sch (cel w)) → obj p (cel w) = Some c →
     me c ∈ waiting_ids (chans w) ↔ t0 + HOLD_MS <= yield_to c) ∧
  (∀ i, i ∈ waiting_ids (chans w) →
     ∃ p c, p ∈ chroutines_sched (sch (cel w)) ∧ obj p (cel w) = Some c ∧ me c = i ∧ cur w ≠ Some p) ∧
  NoDup (waiting_ids (chans w)) ∧
  (∀ now now' s' p k c, cur w = None → in_period t0 now → pick_run_begin now now' (cel w) = (s', Some p, k) →
     obj p (cel w) = Some c → me c ∉ waiting_ids (chans w)).
Proof.
  intros Ht H. pose proof (runs_coherent dflt tid t0 Ht self w H) as Hw. pose proof (co_rv _ _ _ Hw) as Hrv.
  pose proof (co_ok _ _ _ Hw) as Hok. split; [by eapply runs_reachable|]. split_and!.
  - intros p c Hp Hc. symmetry. by apply (rv_iff _ _ _ Hrv p).
  - intros i Hi. destruct (rv_live _ _ _ Hrv i Hi) as (p & c & Hp & Hc & Hme). exists p, c. split_and!; try done.
    intros Hcur. destruct (running_not_holding tid t0 Ht w p Hw Hcur) as (d & Hd & _ & _ & _ & _ & _ & Hn).
    assert (d = c) as -> by congruence. by rewrite Hme in Hn.
  - apply (co_nodup _ _ _ Hw).
  - intros now now' s' p k c Hcur Hn Hpick Hc. rewrite Hcur in Hok.
    destruct (frames_pick now now' _ s' _ k Hok (λ q d, lone_sched tid t0 w q d Hw) Hpick) as [_ Hr].
    destruct (Hr p eq_refl) as (Hp & _ & d & Hd & Hrd & _). assert (d = c) as -> by congruence.
    rewrite <- (rv_iff _ _ _ Hrv p c Hp Hc). apply ready_spec in Hrd as (_ & _ & Hy).
    unfold holding, in_period, HOLD_MS in *. lia.
Qed.

(** C6: a value reaches the reader that waits, for the programs of the
    previous theorem (one thread; no sons, no awakes but those of the channels,
    no sleeps beyond the thirty years of [HOLD()], no moves, no waiting calls of
    the main context, no call that spins).  When a coroutine or the main context
    writes to a channel, blocking or trying, while readers wait for it, the call
    returns at once, stores the value at the pointer of the first reader and
    takes it out of the queue.  From then on, through all further steps of such
    a program that do not pick that reader, it is listed, waits for nothing and
    is ready at any time; and once no coroutine is created or removed, less than
    twice the number of coroutines passes go by before it is picked. *)
Theorem value_reaches_reader {T : Type} (dflt : T) tid t0 self w k ch ctx q now v try_ :
  0 <= t0 → rtc (mstep dflt tid t0) (start self) w →
  chans w !! k = Some ch → m_waiting_read_que ch = ctx :: q →
  ∃ w' ch' r a, call_channel dflt tid now k (chan_write v try_) w = Some w' ∧ cur w' = cur w ∧
    out_ptr ctx = Some a ∧ mem w' = <[a := v]> (mem w) ∧
    chans w' = <[k := ch']> (chans w) ∧ m_waiting_read_que ch' = q ∧
    ∀ w'', rtc (passes_over dflt tid t0 r) w' w'' →
      r ∈ chroutines_sched (sch (cel w'')) ∧ (chrotine_id ctx ∉ waiting_ids (chans w'')) ∧
      (∃ c, obj r (cel w'') = Some c ∧ me c = chrotine_id ctx ∧ ∀ t, ready t c = true) ∧
      ∀ n s, quiet_passes r n (cel w'') s → (n < 2 * length (chroutines_sched (sch (cel w''))))%nat.
Proof.
  intros Ht H Hk Hq. pose proof (runs_coherent dflt tid t0 Ht self w H) as Hw.
  destruct (write_to_reader dflt tid t0 Ht now k v try_ w ch ctx q Hw Hk Hq)
    as (w' & ch' & r & a & Hcall & Hw' & Hcur & Hne & Ha & Hm & Hcs & Hq' & Hs).
  exists w', ch', r, a. split_and!; [done..|]. intros w'' Hrun.
  assert (Hnr : cur w' ≠ Some r) by congruence.
  destruct (settled_stays dflt tid t0 Ht r _ w' w'' Hw' Hnr Hs Hrun) as [Hw'' (Hr & c & Hc & Hme & Hy & Hyw & Hmv)].
  split_and!.
  - done.
  - rewrite <- Hme, <- (rv_iff _ _ _ (co_rv _ _ _ Hw'') r c Hr Hc). by apply not_holding_0.
  - exists c. split_and!; [done..|]. intros t. apply ready_spec. split_and!; [done|lia|by left].
  - intros n s Hn. pose proof (quiet_passes_rank r n _ s Hn). pose proof (rank_bound r (cel w'') Hr). lia.
Qed.

(** ** A reader and a writer *)

Section script.
Context {T : Type} (dflt : T) (tid t0 : Z).

Inductive mevent :=
  | me_pick (now now' : Z)
  | me_chan (now : Z) (k : nat) (o : chan_call (T:=T))
  | me_new (max_size : Z)
  | me_outside (f : func_t) (a : Z).

Definition run_mevent (e : mevent) (w : world (T:=T)) : option (world (T:=T)) :=
  match e with
  | me_pick now now' =>
    if (t0 <=? now) && (now <? t0 + HOLD_MS) && bool_decide (cur w = None) then
      let '(s', r, _) := pick_run_begin now now' (cel w) in Some (mk_world s' r (chans w) (mem w))
    else None
  | me_chan now k o =>
    if (t0 <=? now) && (now <? t0 + HOLD_MS) && bool_decide (is_Some (cur w)) then call_channel dflt tid now k o w
    else None
  | me_new n => Some (mk_world (cel w) (cur w) (chans w ++ [Channel.create dflt n]) (mem w))
  | me_outside f a => Some (mk_world (snd (create_chroutine f a (cel w))) (cur w) (chans w) (mem w))
  end.

Fixpoint run_mscript (es : list mevent) (w : world (T:=T)) : option (world (T:=T)) :=
  match es with
  | [] => Some w
  | e :: r => match run_mevent e w with Some w' => run_mscript r w' | None => None end
  end.

Lemma run_mevent_step e w w' : run_mevent e w = Some w' → mstep dflt tid t0 w w'.
Proof.
  destruct e as [now now'|now k o|n|f a]; simpl.
  - case_if; [|done]. bool_to_prop. destruct w as [s r cs m]. simpl in *. subst r.
    destruct (pick_run_begin now now' s) as [[s' r] k] eqn:E'. intros [= <-]. by eapply m_pick.
  - case_if; [|done]. bool_to_prop. destruct H0 as [p Hp].
    intros Hc. eapply m_chan; [done| |exact Hc]. by rewrite Hp.
  - intros [= <-]. destruct w. apply m_new.
  - intros [= <-]. destruct w as [s r cs m]. by apply (m_outside dflt tid t0 (call_create f a)).
Qed.

Lemma run_mscript_steps es w w' : run_mscript es w = Some w' → rtc (mstep dflt tid t0) w w'.
Proof.
  revert w. induction es as [|e es IH]; intros w; simpl; [intros [= ->]; done|].
  destruct (run_mevent e w) as [w1|] eqn:E; [|done]. intros H. eapply rtc_l; [by apply (run_mevent_step e)|by apply IH].
Qed.
End script.

(** Two channels: coroutine 1 reads the second and waits, coroutine 2 runs. *)
Definition meeting : world (T:=Z) :=
  default (start 0)
    (run_mscript 0 7 0 [me_new 4; me_new 1; me_outside (Some 1) 0; me_outside (Some 2) 0; me_pick 10 10;
                        me_chan 11 1 (chan_read 100 false); me_pick 20 20] (start 0)).

Lemma meeting_runs : rtc (mstep 0 7 0) (start 0) meeting.
Proof.
  unfold meeting. destruct (run_mscript 0 7 0 _ _) as [w|] eqn:E; [|done]. by eapply run_mscript_steps.
Qed.

Lemma no_wake_up_is_lost_witness :
  0 <= 0 ∧ rtc (mstep 0 7 0) (start 0) meeting ∧ waiting_ids (chans meeting) = [1] ∧
  ∃ p c, p ∈ chroutines_sched (sch (cel meeting)) ∧ obj p (cel meeting) = Some c ∧ me c = 1 ∧
    HOLD_MS <= yield_to c ∧ cur meeting ≠ Some p.
Proof.
  assert (Hi : waiting_ids (chans meeting) = [1]) by (vm_compute; reflexivity).
  split; [lia|]. split; [exact meeting_runs|]. split; [exact Hi|].
  destruct (no_wake_up_is_lost 0 7 0 0 meeting ltac:(lia) meeting_runs) as (_ & Hiff & Hlive & _).
  destruct (Hlive 1) as (p & c & Hp & Hc & Hme & Hcur); [rewrite Hi; by constructor|].
  exists p, c. split; [exact Hp|]. split; [exact Hc|]. split; [exact Hme|]. split; [|exact Hcur].
  apply (Hiff p c Hp Hc). rewrite Hme, Hi. by constructor.
Defined.

Lemma value_reaches_reader_witness :
  (m_waiting_read_que <$> chans meeting !! 1%nat) = Some [mk_context 7 1 (Some 100%nat) 0] ∧
  ∃ w', call_channel 0 7 21 1 (chan_write 42 false) meeting = Some w' ∧ mem w' !! 100%nat = Some 42 ∧
    (m_waiting_read_que <$> chans w' !! 1%nat) = Some [].
Proof.
  assert (Hq : (m_waiting_read_que <$> chans meeting !! 1%nat) = Some [mk_context 7 1 (Some 100%nat) 0]) by (vm_compute; reflexivity).
  split; [exact Hq|]. destruct (chans meeting !! 1%nat) as [ch|] eqn:Hk; [|discriminate Hq]. injection Hq as Hq.
  destruct (value_reaches_reader 0 7 0 0 meeting 1 ch _ _ 21 42 false ltac:(lia) meeting_runs Hk Hq)
    as (w' & ch' & r & a & H1 & _ & H2 & H3 & H4 & H5 & _).
  injection H2 as <-. exists w'. split; [exact H1|]. split; [rewrite H3; apply lookup_insert_eq|].
  rewrite H4, list_lookup_insert_eq; [simpl; by rewrite H5|by eapply lookup_lt_Some].
Defined.

(** ** A wake-up the channel did not give *)

(** A coroutine creates a son and then, instead of waiting for it, reads the
    empty channel. *)
Definition reading_father : world (T:=Z) :=
  let x := end_of [ev_external (call_create (Some 1) 0); ev_pick 10 10; ev_call (call_new_reporter 5);
                   ev_call (call_create_son (Some 2) 2%nat)] in
  default (start 0)
    (call_channel 0 7 20 0 (chan_read 100 false) (mk_world (fst x) (Some 1%nat) [Channel.create 0 1] ∅)).

(** The state after the son has run and returned, and the father's next pick. *)
Definition son_done : cell :=
  let '(s, r, _) := pick_run_begin 30 30 (cel reading_father) in
  match r with Some p => clear_entry_time (entry_finish p s) | None => s end.

(** With sons the equivalence above fails: the end of the son sets the father's
    [yield_to] to zero, whatever the father sleeps for.  The father is picked
    while its context is still in the queue and no value was stored: its [read]
    returns [true] without a value, and the pointer of that call stays in the
    queue for the next write. *)
Lemma son_ends_hold :
  cur reading_father = None ∧ waiting_ids (chans reading_father) = [1] ∧ mem reading_father !! 100%nat = None ∧
  (ready 30 <$> obj 1 (cel reading_father)) = Some false ∧
  snd (fst (pick_run_begin 40 40 son_done)) = Some 1%nat.
Proof. split_and!; vm_compute; reflexivity. Qed.
