(* ===== verification/Selecter.v ===== *)
(** * engin/chan_selecter.hpp, engin/chan_selecter.cpp: class [chan_selecter_t]

    A selecter tries the channels of its cases in the order of a [std::map]
    over their addresses.  It knows channels through the interface
    [channel_it] only; the class [ChannelIt] is that interface with what the
    selecter relies on, and the section [memory] discharges it for the
    channels of Channel.v. *)

From S2P Require Import Prelude Chutex Channel.
Local Open Scope Z_scope.

(** ** The interface *)

(** [channel_it::read(data_ptr, try_)] on the channel at an address, over the
    state [S] of the rest of the program; [None]: the call does not return. *)
Class ChannelIt (S : Type) := {
  it_read : nat → nat → bool → S → option (bool * S);
  (** a refused attempt leaves no trace *)
  it_read_refused : ∀ k p s s', it_read k p true s = Some (false, s') → s' = s
}.

(** ** Data *)

Inductive act_type_t := selecter_type_unknown | selecter_type_default | selecter_type_read.

#[export] Instance act_type_t_eq_dec : EqDecision act_type_t.
Proof. solve_decision. Defined.

(** Pointers are [None] when null; a callback is named by its code. *)
Record chan_select_node_t := mk_node {
  chan : option nat;
  type : act_type_t;
  data_ptr : option nat;
  callback : option nat
}.

Definition node_init : chan_select_node_t := mk_node None selecter_type_unknown None None.

(** [cases_t], a [std::map]: its nodes in the order of the keys. *)
Abbreviation cases_t := (list (nat * chan_select_node_t)).

Record chan_selecter_t := mk_selecter { m_default : chan_select_node_t; m_cases : cases_t }.

Definition selecter_init : chan_selecter_t := mk_selecter node_init [].

(** ** The map *)

Fixpoint find_case (k : nat) (l : cases_t) : option chan_select_node_t :=
  match l with
  | [] => None
  | (k', n) :: r => if (k =? k')%nat then Some n else find_case k r
  end.

Definition erase_case (k : nat) (l : cases_t) : cases_t := filter (λ kn, kn.1 ≠ k) l.

(** [m_cases[k] = n] *)
Fixpoint put_case (k : nat) (n : chan_select_node_t) (l : cases_t) : cases_t :=
  match l with
  | [] => [(k, n)]
  | (k', n') :: r =>
    if (k <? k')%nat then (k, n) :: l
    else if (k =? k')%nat then (k, n) :: r
    else (k', n') :: put_case k n r
  end.

(** ** Operations *)

(** [int add_case(channel_it *chan, void *data_ptr, const callback_t &callback)] *)
Definition add_case (c d cb : option nat) (x : chan_selecter_t) : Z * chan_selecter_t :=
  match c, d with
  | Some k, Some _ =>
    let cases := match find_case k (m_cases x) with
                 | Some _ => erase_case k (m_cases x)
                 | None => m_cases x
                 end in
    (0, mk_selecter (m_default x) (put_case k (mk_node c selecter_type_read d cb) cases))
  | _, _ => (-1, x)
  end.

(** [void default_case(const callback_t &callback)] *)
Definition default_case (cb : option nat) (x : chan_selecter_t) : chan_selecter_t :=
  mk_selecter (mk_node (chan (m_default x)) selecter_type_default (data_ptr (m_default x)) cb) (m_cases x).

(** [int del_case(channel_it *chan)] *)
Definition del_case (k : nat) (x : chan_selecter_t) : Z * chan_selecter_t :=
  match find_case k (m_cases x) with
  | Some _ => (0, mk_selecter (m_default x) (erase_case k (m_cases x)))
  | None => (0, x)
  end.

Section select.
Context {S : Type} `{ChannelIt S}.
(** The effect of calling a callback. *)
Context (run : option nat → S → S).

(** The loop of [select_once] from an iterator on. *)
Fixpoint select_from (l : cases_t) (s : S) : option (Z * S) :=
  match l with
  | [] => Some (0, s)
  | (_, n) :: r =>
    match chan n with
    | None => select_from r s
    | Some k =>
      if bool_decide (type n = selecter_type_read) then
        match it_read k (default 0%nat (data_ptr n)) true s with
        | None => None
        | Some (true, s') => Some (1, run (callback n) s')
        | Some (false, s') => select_from r s'
        end
      else select_from r s
    end
  end.

(** [int select_once()] *)
Definition select_once (x : chan_selecter_t) (s : S) : option (Z * S) := select_from (m_cases x) s.

(** [void select()], over what the rest of the program does during each
    [SLEEP(10)]; [None]: it has not returned when the list ends. *)
Fixpoint select (sleeps : list (S → S)) (x : chan_selecter_t) (s : S) : option S :=
  match select_once x s with
  | None => None
  | Some (n, s') =>
    if n >? 0 then Some s'
    else match callback (m_default x) with
    | Some cb => Some (run (Some cb) s')
    | None =>
      match sleeps with
      | [] => None
      | others :: sleeps' => select sleeps' x (others s')
      end
    end
  end.

(** Every case was made by [add_case]. *)
Definition made (l : cases_t) : Prop :=
  Forall (λ kn, chan kn.2 = Some kn.1 ∧ type kn.2 = selecter_type_read ∧ is_Some (data_ptr kn.2)) l.

(** The channel of a case refuses an attempt. *)
Definition refuses (kn : nat * chan_select_node_t) (s : S) : Prop :=
  it_read kn.1 (default 0%nat (data_ptr kn.2)) true s = Some (false, s).

Lemma select_from_refused l1 l2 s :
  made l1 → Forall (λ kn, refuses kn s) l1 → select_from (l1 ++ l2) s = select_from l2 s.
Proof.
  induction l1 as [|[k n] l1 IH]; intros Hm Hr; [done|].
  apply Forall_cons in Hm as [(Hc & Ht & _) Hm]. apply Forall_cons in Hr as [Hr Hrs]. simpl in *.
  rewrite Hc, bool_decide_eq_true_2 by done. unfold refuses in Hr. simpl in Hr. rewrite Hr. by apply IH.
Qed.

Lemma select_from_inv l s r :
  made l → select_from l s = Some r →
  (Forall (λ kn, refuses kn s) l ∧ r = (0, s)) ∨
  (∃ l1 kn l2 s', l = l1 ++ kn :: l2 ∧ Forall (λ kn, refuses kn s) l1 ∧
     it_read kn.1 (default 0%nat (data_ptr kn.2)) true s = Some (true, s') ∧
     r = (1, run (callback kn.2) s')).
Proof.
  induction l as [|[k n] l IH]; intros Hm Hs; simpl in Hs; [left; split; [constructor|congruence]|].
  apply Forall_cons in Hm as [(Hc & Ht & _) Hm]. simpl in Hc, Ht.
  rewrite Hc, bool_decide_eq_true_2 in Hs by done.
  destruct (it_read k _ true s) as [[b s']|] eqn:E; [|done]. destruct b.
  - right. exists [], (k, n), l, s'. split_and!; [done|by apply Forall_nil|done|simpl; congruence].
  - pose proof (it_read_refused _ _ _ _ E) as ->.
    destruct (IH Hm Hs) as [[Hr ->]|(l1 & kn & l2 & s' & -> & Hr & Hk & ->)].
    + left. split; [|done]. by constructor.
    + right. exists ((k, n) :: l1), kn, l2, s'. split_and!; [done|by constructor|done|done].
Qed.
End select.

(** ** The map stays a map *)

Definition case_keys_ok (l : cases_t) : Prop := StronglySorted lt l.*1.

Lemma find_case_None k l : find_case k l = None ↔ k ∉ l.*1.
Proof.
  induction l as [|[k' n] l IH]; simpl; [split; [intros _ H; by apply elem_of_nil in H|done]|].
  destruct (Nat.eqb_spec k k') as [<-|Hne].
  - split; [done|]. intros Hk. exfalso. apply Hk. mem.
  - rewrite IH, not_elem_of_cons. tauto.
Qed.

Lemma put_case_keys k n l x : x ∈ (put_case k n l).*1 ↔ x = k ∨ x ∈ l.*1.
Proof.
  induction l as [|[k' n'] l IH]; simpl; [rewrite elem_of_cons; tauto|].
  repeat case_if; simpl; rewrite ?elem_of_cons, ?IH; try tauto.
  apply Nat.eqb_eq in E0 as ->. tauto.
Qed.

Lemma put_case_ok k n l : case_keys_ok l → case_keys_ok (put_case k n l).
Proof.
  unfold case_keys_ok. induction l as [|[k' n'] l IH]; intros Hl; simpl; [repeat constructor|].
  apply StronglySorted_inv in Hl as [Hl Hk]. simpl in Hk.
  destruct (Nat.ltb_spec k k'); [|destruct (Nat.eqb_spec k k') as [<-|Hne]]; simpl.
  - constructor; [by constructor|]. constructor; [done|]. eapply Forall_impl; [exact Hk|]. simpl. lia.
  - by constructor.
  - constructor; [by apply IH|]. apply Forall_forall. intros x [->|Hx]%put_case_keys; [lia|].
    by apply (proj1 (Forall_forall _ _) Hk).
Qed.

Lemma find_put_case k n l k' :
  case_keys_ok l → find_case k' (put_case k n l) = if (k' =? k)%nat then Some n else find_case k' l.
Proof.
  unfold case_keys_ok. induction l as [|[k0 n0] l IH]; intros Hl; simpl; [by case_if|].
  apply StronglySorted_inv in Hl as [Hl Hk]. simpl in Hk.
  destruct (Nat.ltb_spec k k0); [|destruct (Nat.eqb_spec k k0) as [<-|Hne]]; simpl; [done|by case_if|].
  destruct (Nat.eqb_spec k' k0) as [->|]; [|by apply IH].
  destruct (Nat.eqb_spec k0 k); [lia|done].
Qed.

Lemma erase_case_keys k l : (erase_case k l).*1 = filter (λ x, x ≠ k) l.*1.
Proof.
  unfold erase_case. induction l as [|[k' n] l IH]; [done|].
  rewrite fmap_cons, !filter_cons. cbn [fst]. case_decide; [rewrite fmap_cons; f_equal|]; exact IH.
Qed.

Lemma erase_case_ok k l : case_keys_ok l → case_keys_ok (erase_case k l).
Proof.
  unfold case_keys_ok. rewrite erase_case_keys. apply StronglySorted_filter.
Qed.

Lemma find_erase_case k l k' : find_case k' (erase_case k l) = if (k' =? k)%nat then None else find_case k' l.
Proof.
  unfold erase_case. induction l as [|[k0 n0] l IH]; simpl; [by case_if|].
  rewrite filter_cons. cbn [fst].
  destruct (decide (k0 ≠ k)) as [Hne|He]; simpl.
  - destruct (Nat.eqb_spec k' k0) as [->|]; [|exact IH]. by destruct (Nat.eqb_spec k0 k).
  - apply dec_stable in He as ->. etransitivity; [exact IH|]. by destruct (Nat.eqb_spec k' k).
Qed.

(** ** Channels discharge the interface *)

(** The state the selecter works in: the channels by address, the variables
    their readers point to, and the wake-ups issued. *)
Record memory := mk_memory {
  chans : gmap nat (channel_t (T:=Z));
  vars : gmap nat Z;
  awoken : list (Z * Z)
}.

Definition apply_effect (m : memory) (e : effect Z) : memory :=
  match e with
  | store p v => mk_memory (chans m) (<[p := v]> (vars m)) (awoken m)
  | awake t i => mk_memory (chans m) (vars m) (awoken m ++ [(t, i)])
  end.

Definition read_at (who : caller) (k p : nat) (try_ : bool) (m : memory) : option (bool * memory) :=
  match chans m !! k with
  | None => None
  | Some c =>
    match read 0 who p try_ c with
    | (returned b, e, c') =>
      Some (b, foldl apply_effect (mk_memory (<[k := c']> (chans m)) (vars m) (awoken m)) e)
    | _ => None
    end
  end.

Lemma read_refused who p c e c' : read 0 who p true c = (returned false, e, c') → c' = c ∧ e = [].
Proof.
  unfold read. destruct (m_flag (m_lock c)) eqn:Ef; [by rewrite lock_attempt_locked|].
  rewrite lock_attempt_free by done. cbv zeta. case_if.
  - intros H. simplify_eq. split; [|done]. unfold unlocked, set_m_lock. simpl.
    destruct c as [????????[]]; simpl in *; by subst.
  - repeat (case_match; simplify_eq/=; try done); congruence.
Qed.

#[export] Instance channels_in_memory (who : caller) : ChannelIt memory.
Proof.
  refine {| it_read := read_at who |}. intros k p s s'. unfold read_at.
  destruct (chans s !! k) as [c|] eqn:Hc; [|done]. destruct (read 0 who p true c) as [[o e] c'] eqn:Hr.
  destruct o as [[]| | |]; try done. intros H. apply read_refused in Hr as [-> ->]. simplify_eq/=.
  rewrite insert_id by done. by destruct s.
Defined.

(** ** Properties *)

(** The cases are a map.  [add_case] refuses null pointers and changes
    nothing then; otherwise it installs the new node for its channel, replacing
    an older one, and leaves the other cases alone; [del_case] removes the case
    of its channel and no other; the order of iteration stays that of the
    addresses, without duplicates. *)
Theorem selecter_cases x k d cb k' :
  case_keys_ok (m_cases x) → made (m_cases x) →
  (∀ c e, c = None ∨ e = None → add_case c e cb x = (-1, x)) ∧
  (let '(r, y) := add_case (Some k) (Some d) cb x in
   r = 0 ∧ case_keys_ok (m_cases y) ∧ made (m_cases y) ∧ m_default y = m_default x ∧
   find_case k' (m_cases y) =
     if (k' =? k)%nat then Some (mk_node (Some k) selecter_type_read (Some d) cb) else find_case k' (m_cases x)) ∧
  (let '(r, y) := del_case k x in
   r = 0 ∧ case_keys_ok (m_cases y) ∧ made (m_cases y) ∧ m_default y = m_default x ∧
   find_case k' (m_cases y) = if (k' =? k)%nat then None else find_case k' (m_cases x)).
Proof.
  intros Hk Hm. assert (He : made (erase_case k (m_cases x))).
  { apply Forall_forall. intros kn [_ Hkn]%list_elem_of_filter. by apply (proj1 (Forall_forall _ _) Hm). }
  assert (Hp : ∀ n l, chan n = Some k → type n = selecter_type_read → is_Some (data_ptr n) → made l → made (put_case k n l)).
  { intros n l H1 H2 H3. induction l as [|[k0 n0] l IH]; intros Hl; simpl; [by repeat constructor|].
    pose proof Hl as Hl'. apply Forall_cons in Hl' as [Hn Hl']. repeat case_if; repeat constructor; try done; try apply Hn. by apply IH. }
  split_and!.
  - intros c e [->| ->]; [done|]. by destruct c.
  - simpl. split_and!; [done| | |done|].
    + apply put_case_ok. case_match; [by apply erase_case_ok|done].
    + apply Hp; [done..|by eexists|]. by case_match.
    + rewrite find_put_case by (case_match; [by apply erase_case_ok|done]). case_if; [done|].
      case_match; [|done]. rewrite find_erase_case. by rewrite E.
  - unfold del_case. destruct (find_case k (m_cases x)) eqn:E; simpl; split_and!; try done.
    + by apply erase_case_ok.
    + apply find_erase_case.
    + destruct (Nat.eqb_spec k' k) as [->|]; [done|done].
Qed.

Definition two_cases : chan_selecter_t :=
  snd (add_case (Some 4%nat) (Some 104%nat) (Some 40%nat) (snd (add_case (Some 8%nat) (Some 108%nat) (Some 80%nat) selecter_init))).

Lemma two_cases_ok : case_keys_ok (m_cases two_cases) ∧ made (m_cases two_cases).
Proof.
  split; [vm_compute; repeat constructor|].
  repeat (apply Forall_cons; split; [split_and!; [done|done|by eexists]|]). by apply Forall_nil.
Qed.

Lemma selecter_cases_witness :
  let '(r, y) := del_case 4 two_cases in r = 0 ∧ find_case 8 (m_cases y) = find_case 8 (m_cases two_cases).
Proof.
  destruct two_cases_ok as [Hk Hm].
  destruct (selecter_cases two_cases 4 0 None 8 Hk Hm) as (_ & _ & H).
  destruct (del_case 4 two_cases) as [r y]. destruct H as (H1 & _ & _ & _ & H2). split; [exact H1|exact H2].
Defined.

Section select_properties.
Context {S : Type} `{ChannelIt S} (run : option nat → S → S).

(** One round.  [select_once] reads from the first channel, in the order
    of the addresses, that has a value: all channels before it refuse and are
    left as they were, its callback is the only one called, after the value
    was stored, and the result is one; when every channel refuses, nothing is
    changed, no callback is called and the result is zero. *)
Theorem select_once_first x s r :
  case_keys_ok (m_cases x) → made (m_cases x) → select_once run x s = Some r →
  (Forall (λ kn, refuses kn s) (m_cases x) ∧ r = (0, s)) ∨
  (∃ k d cb s', find_case k (m_cases x) = Some (mk_node (Some k) selecter_type_read (Some d) cb) ∧
     (∀ k' n, find_case k' (m_cases x) = Some n → (k' < k)%nat → refuses (k', n) s) ∧
     it_read k d true s = Some (true, s') ∧ r = (1, run cb s')).
Proof.
  intros Hk Hm Hs. destruct (select_from_inv run _ _ _ Hm Hs) as [?|(l1 & [k n] & l2 & s' & Hl & Hr & Hread & ->)]; [by left|].
  right. unfold made, case_keys_ok in *. rewrite Hl in *.
  apply Forall_app in Hm as [Hm1 Hm2]. apply Forall_cons in Hm2 as [(Hc & Ht & [d Hd]) _]. simpl in *.
  exists k, d, (callback n), s'. rewrite Hd in Hread. simpl in Hread.
  assert (Hnin : (k ∉ l1.*1) ∧ ∀ y m, find_case y (l1 ++ (k, n) :: l2) = Some m → (y < k)%nat → (y, m) ∈ l1).
  { clear -Hk. rewrite fmap_app, fmap_cons in Hk. simpl in Hk. induction l1 as [|[k1 n1] l1 IH]; simpl in *.
    - apply StronglySorted_inv in Hk as [_ Hk]. split; [intros Hn; by apply elem_of_nil in Hn|].
      intros y m. destruct (Nat.eqb_spec y k) as [->|]; [lia|]. intros Hy Hlt. exfalso.
      assert (Hin : y ∈ l2.*1). { destruct (decide (y ∈ l2.*1)) as [|Hn]; [done|]. apply find_case_None in Hn. congruence. }
      apply (proj1 (Forall_forall _ _) Hk) in Hin. lia.
    - apply StronglySorted_inv in Hk as [Hk Hlt]. destruct (IH Hk) as [Hn1 Hn2].
      assert (k1 < k)%nat by (apply (proj1 (Forall_forall _ _) Hlt); mem). split.
      + rewrite not_elem_of_cons. split; [lia|done].
      + intros y m. destruct (Nat.eqb_spec y k1) as [->|]; [intros ? _; simplify_eq; mem|].
        intros Hy Hyk. specialize (Hn2 y m Hy Hyk). mem. }
  destruct Hnin as [Hnin Hbefore]. split_and!; [| |done|done].
  - clear -Hnin Hc Ht Hd. induction l1 as [|[k1 n1] l1 IH]; simpl.
    + rewrite Nat.eqb_refl. destruct n; simpl in *; congruence.
    + simpl in Hnin. apply not_elem_of_cons in Hnin as [Hne Hnin]. destruct (Nat.eqb_spec k k1); [done|]. by apply IH.
  - intros k' m Hf Hlt. specialize (Hbefore k' m Hf Hlt). by apply (proj1 (Forall_forall _ _) Hr).
Qed.

(** The state at the beginning of round [j], when nothing but the sleeps
    between the rounds has changed it. *)
Definition at_round (sleeps : list (S → S)) (s : S) (j : nat) : S := foldl (λ t f, f t) s (take j sleeps).

(** C34: over a whole call of [select] exactly one callback is called, as the
    last thing it does.  There is a round [m] such that in all rounds before it
    every channel refuses, there is no default callback, and nothing is called
    and nothing changes but by what others do during the sleeps; in round [m]
    either the first channel, in the order of the cases, that has a value gives
    it, and the callback of its case is called on that state; or no channel has
    one, [m] is the very first round, and the default callback is called. *)
Theorem select_runs_one_callback sleeps x s s' :
  made (m_cases x) → select run sleeps x s = Some s' →
  ∃ m, (m <= length sleeps)%nat ∧
    (∀ j, (j < m)%nat → callback (m_default x) = None ∧ Forall (λ kn, refuses kn (at_round sleeps s j)) (m_cases x)) ∧
    ((∃ l1 k n l2 s1, m_cases x = l1 ++ (k, n) :: l2 ∧ Forall (λ kn, refuses kn (at_round sleeps s m)) l1 ∧
        it_read k (default 0%nat (data_ptr n)) true (at_round sleeps s m) = Some (true, s1) ∧ s' = run (callback n) s1) ∨
     (m = 0%nat ∧ Forall (λ kn, refuses kn s) (m_cases x) ∧
        ∃ cb, callback (m_default x) = Some cb ∧ s' = run (Some cb) s)).
Proof.
  intros Hm. revert s. induction sleeps as [|others sleeps IH]; intros s Hs; simpl in Hs;
    (destruct (select_once run x s) as [[n s2]|] eqn:E; [|done]);
    (destruct (select_from_inv run _ _ _ Hm E) as [[Hr Hq]|(l1 & [k nd] & l2 & s0 & Hl & Hr & Hread & Hq)];
      injection Hq as -> ->; simpl in Hs).
  2,4: injection Hs as <-; exists 0%nat; (split_and!; [lia|intros; lia|]); left; by exists l1, k, nd, l2, s0.
  - destruct (callback (m_default x)) as [cb|] eqn:Ec; [|done]. injection Hs as <-.
    exists 0%nat. split_and!; [lia|intros; lia|]. right. split_and!; [done..|by exists cb].
  - destruct (callback (m_default x)) as [cb|] eqn:Ec.
    + injection Hs as <-. exists 0%nat. split_and!; [lia|intros; lia|]. right. split_and!; [done..|by exists cb].
    + destruct (IH _ Hs) as (m & Hle & Hbefore & [Hlast|(_ & _ & cb & Hcb & _)]); [|done].
      exists (Datatypes.S m). split_and!; [simpl; lia| |by left]. intros [|j] Hj; [done|]. apply (Hbefore j). lia.
Qed.
End select_properties.

(** Two channels, of which the second holds a value. *)
Definition two_channels : memory :=
  mk_memory {[ 4%nat := create 0 1; 8%nat := snd (write (mk_caller 1 10 true) 7 true (create 0 1)) ]} ∅ [].

Definition log_callback (cb : option nat) (m : memory) : memory :=
  mk_memory (chans m) (vars m) (awoken m ++ [(0, Z.of_nat (default 0%nat cb))]).

Lemma select_once_first_witness :
  let who := mk_caller 1 10 true in
  ∃ m, select_once (H := channels_in_memory who) log_callback two_cases two_channels = Some (1, m) ∧
    vars m !! 108%nat = Some 7 ∧ awoken m = [(0, 80)] ∧
    ∃ k d cb s', find_case k (m_cases two_cases) = Some (mk_node (Some k) selecter_type_read (Some d) cb) ∧
      read_at who k d true two_channels = Some (true, s').
Proof.
  intros who. destruct two_cases_ok as [Hk Hm].
  destruct (select_once (H := channels_in_memory who) log_callback two_cases two_channels) as [[n m]|] eqn:E; [|by vm_compute in E].
  assert (Hn : n = 1 ∧ vars m !! 108%nat = Some 7 ∧ awoken m = [(0, 80)]).
  { vm_compute in E. injection E as <- <-. by vm_compute. }
  destruct Hn as (-> & H1 & H2). exists m. split; [done|]. split; [exact H1|]. split; [exact H2|].
  destruct (select_once_first (H := channels_in_memory who) log_callback two_cases two_channels _ Hk Hm E) as [[_ Hr]|(k & d & cb & s' & Hf & _ & Hread & _)].
  - by injection Hr.
  - exists k, d, cb, s'. split; [exact Hf|exact Hread].
Defined.

(** During the first sleep another coroutine writes to the channel. *)
Definition no_value : memory := mk_memory {[ 4%nat := create 0 1; 8%nat := create 0 1 ]} ∅ [].

Lemma select_runs_one_callback_witness :
  let who := mk_caller 1 10 true in
  ∃ m, select (H := channels_in_memory who) log_callback [λ _, two_channels] two_cases no_value = Some m ∧ awoken m = [(0, 80)] ∧
    ∃ r, (r <= 1)%nat ∧ ∀ j, (j < r)%nat → Forall (λ kn, refuses (H := channels_in_memory who) kn no_value) (m_cases two_cases).
Proof.
  intros who. destruct two_cases_ok as [_ Hm].
  destruct (select (H := channels_in_memory who) log_callback [λ _, two_channels] two_cases no_value) as [m|] eqn:E; [|by vm_compute in E].
  exists m. split; [done|]. split; [by vm_compute in E; injection E as <-; vm_compute|].
  destruct (select_runs_one_callback (H := channels_in_memory who) log_callback [λ _, two_channels] two_cases no_value m Hm E)
    as (r & Hr & Hj & _).
  exists r. split; [exact Hr|]. intros j Hjr. assert (j = 0%nat) as -> by (simpl in Hr; lia). exact (proj2 (Hj 0%nat Hjr)).
Defined.
