(* ===== verification/Timer.v ===== *)
(** * util/timer.hpp, util/timer.cpp: class [chr_timer_t]

    A timer is a selectable object with three kinds of coroutines around it:
    the trigger that writes into the channel [m_trigger] once per interval,
    one coroutine per tick that calls the user's callback, and the coroutines
    inside [stop] that wait for the trigger to end.  They run in one thread,
    so the code between two suspensions is one transition. *)

From S2P Require Import Prelude Chroutine Chutex Channel Selecter.
Local Open Scope Z_scope.

(** ** Data *)

Record chr_timer_t := mk_timer {
  m_running : bool;
  m_interval_ms : Z;
  m_cb : option nat;
  m_selecter : chan_selecter_t;
  m_trigger_chroutine_id : Z;
  m_trigger : channel_t (T:=Z);
  m_d : Z;
  m_once : bool
}.

(** Where a trigger coroutine is suspended: in [SLEEP(m_interval_ms)], or in
    the [HOLD()] of its write. *)
Inductive trigger_pc := in_sleep | in_write.

(** A coroutine created by the select callback: not yet run, inside [m_cb()],
    or in the loop of [stop()]. *)
Inductive callback_pc := cb_created | cb_calling | cb_stopping.

#[export] Instance callback_pc_eq_dec : EqDecision callback_pc.
Proof. solve_decision. Defined.

(** The timer with its coroutines; [next_id] stands for the id allocator and
    [can_create] for the state of the thread.  [ticks] and [fired] count the
    completed writes of the triggers and the calls of [m_cb]. *)
Record world := mk_world {
  tm : chr_timer_t;
  triggers : list (Z * trigger_pc);
  callbacks : list callback_pc;
  next_id : Z;
  can_create : bool;
  ticks : nat;
  fired : nat
}.

Definition set_tm v w := mk_world v (triggers w) (callbacks w) (next_id w) (can_create w) (ticks w) (fired w).
Definition set_triggers v w := mk_world (tm w) v (callbacks w) (next_id w) (can_create w) (ticks w) (fired w).
Definition set_callbacks v w := mk_world (tm w) (triggers w) v (next_id w) (can_create w) (ticks w) (fired w).
Definition set_ticks v w := mk_world (tm w) (triggers w) (callbacks w) (next_id w) (can_create w) v (fired w).
Definition set_fired v w := mk_world (tm w) (triggers w) (callbacks w) (next_id w) (can_create w) (ticks w) v.

Definition set_m_running v t := mk_timer v (m_interval_ms t) (m_cb t) (m_selecter t) (m_trigger_chroutine_id t) (m_trigger t) (m_d t) (m_once t).
Definition set_m_selecter v t := mk_timer (m_running t) (m_interval_ms t) (m_cb t) v (m_trigger_chroutine_id t) (m_trigger t) (m_d t) (m_once t).
Definition set_trigger_id v t := mk_timer (m_running t) (m_interval_ms t) (m_cb t) (m_selecter t) v (m_trigger t) (m_d t) (m_once t).
Definition set_m_trigger v t := mk_timer (m_running t) (m_interval_ms t) (m_cb t) (m_selecter t) (m_trigger_chroutine_id t) v (m_d t) (m_once t).
Definition set_m_d v t := mk_timer (m_running t) (m_interval_ms t) (m_cb t) (m_selecter t) (m_trigger_chroutine_id t) (m_trigger t) v (m_once t).
Definition set_m_once v t := mk_timer (m_running t) (m_interval_ms t) (m_cb t) (m_selecter t) (m_trigger_chroutine_id t) (m_trigger t) (m_d t) v.

Definition upd_tm (f : chr_timer_t → chr_timer_t) (w : world) : world := set_tm (f (tm w)) w.

(** The addresses of the trigger channel and of [m_d], and the code of the
    callback that [start] gives to [add_case]. *)
Definition trigger_addr : nat := 1.
Definition d_addr : nat := 2.
Definition on_tick : nat := 3.

(** [chr_timer_t(uint32_t interval_ms, timer_callback_t &cb)] *)
Definition new_timer (interval_ms : Z) (cb : option nat) : chr_timer_t :=
  mk_timer false interval_ms cb selecter_init INVALID_ID (Channel.create 0 1) 0 false.

(** ** The channel seen by the selecter *)

Definition trigger_caller (w : world) (id : Z) : caller := mk_caller 0 id true.

Definition store_d (e : list (effect Z)) (t : chr_timer_t) : chr_timer_t :=
  foldl (λ t x, match x with store _ v => set_m_d v t | awake _ _ => t end) t e.

Definition timer_read (k p : nat) (try_ : bool) (w : world) : option (bool * world) :=
  match read 0 (trigger_caller w INVALID_ID) p try_ (m_trigger (tm w)) with
  | (returned b, e, c) => Some (b, upd_tm (λ t, store_d e (set_m_trigger c t)) w)
  | _ => None
  end.

#[export] Instance timer_channel : ChannelIt world.
Proof.
  refine {| it_read := timer_read |}. intros k p s s'. unfold timer_read.
  destruct (read _ _ p true _) as [[o e] c'] eqn:Hr.
  destruct o as [[]| | |]; try done. intros H. apply read_refused in Hr as [-> ->]. simplify_eq/=.
  by destruct s as [[]].
Defined.

(** ** Operations *)

(** The lambda that [start] registers: one coroutine per tick, while running.
    (When the thread refuses to create it, the tick is dropped.) *)
Definition tick_callback (cb : option nat) (w : world) : world :=
  if negb (m_running (tm w)) then w
  else if can_create w then set_callbacks (callbacks w ++ [cb_created]) w
  else w.

(** [m_selecter.select_once()] *)
Definition timer_select_once (w : world) : option (Z * world) :=
  select_once tick_callback (m_selecter (tm w)) w.

(** [int select(int wait_ms)] *)
Definition timer_select (w : world) : option (Z * world) :=
  if negb (m_running (tm w)) then Some (0, w) else timer_select_once w.

(** [bool start(bool once)] *)
Definition start (once : bool) (w : world) : bool * world :=
  if m_running (tm w) then (false, w)
  else if bool_decide (m_cb (tm w) = None) || (m_interval_ms (tm w) =? 0) then (false, w)
  else
    let w1 := upd_tm (λ t, set_m_once once (set_m_running true t)) w in
    let '(id, w2) := if can_create w1
                     then (next_id w1, mk_world (tm w1) (triggers w1 ++ [(next_id w1, in_sleep)]) (callbacks w1)
                                         (next_id w1 + 1) (can_create w1) (ticks w1) (fired w1))
                     else (INVALID_ID, w1) in
    (true, upd_tm (λ t, set_m_selecter (snd (add_case (Some trigger_addr) (Some d_addr) (Some on_tick) (m_selecter t)))
                          (set_trigger_id id t)) w2).

(** [void stop()] up to its loop; [None]: it spins in [select_once].  The
    flag says that it goes on to wait for the trigger. *)
Definition stop (w : world) : option (bool * world) :=
  if negb (m_running (tm w)) then Some (false, w)
  else
    match timer_select_once (upd_tm (set_m_running false) w) with
    | None => None
    | Some (_, w1) => Some (true, upd_tm (λ t, set_m_selecter (snd (del_case trigger_addr (m_selecter t))) t) w1)
    end.

(** The condition of the loop of [stop]: is the trigger still there? *)
Definition stop_waits (w : world) : bool := negb (m_trigger_chroutine_id (tm w) =? INVALID_ID).

(** A trigger resumes: the body of [while (m_running)], up to its next
    suspension, with no position when the coroutine returns.  [None]: it spins
    in the lock of the channel. *)
Definition trigger_resumes (id : Z) (w : world) : option (option trigger_pc * world) :=
  if m_running (tm w) then
    match write (trigger_caller w id) 1 false (m_trigger (tm w)) with
    | (held, _, c) => Some (Some in_write, upd_tm (set_m_trigger c) w)
    | (returned _, _, c) => Some (Some in_sleep, set_ticks (S (ticks w)) (upd_tm (set_m_trigger c) w))
    | _ => None
    end
  else Some (None, upd_tm (set_trigger_id INVALID_ID) w).

(** It resumes from its write: the write is over, and it sleeps. *)
Definition trigger_written (w : world) : option (option trigger_pc * world) := Some (Some in_sleep, w).

Definition trigger_step (i : nat) (w : world) : option world :=
  match triggers w !! i with
  | None => None
  | Some (id, pc) =>
    match (match pc with in_sleep => trigger_resumes id w | in_write => trigger_written w end) with
    | Some (Some pc', w') => Some (set_triggers (<[i := (id, pc')]> (triggers w')) w')
    | Some (None, w') => Some (set_triggers (delete i (triggers w')) w')
    | None => None
    end
  end.

(** A callback coroutine runs to its next suspension: it enters [m_cb()], or
    leaves it and then, for a timer started with [once], enters [stop()], or
    looks again whether the trigger has ended. *)
Definition callback_step (i : nat) (w : world) : option world :=
  match callbacks w !! i with
  | None => None
  | Some cb_created =>
    Some (set_callbacks (<[i := cb_calling]> (callbacks w)) (set_fired (S (fired w)) w))
  | Some cb_calling =>
    if m_once (tm w) then
      match stop w with
      | None => None
      | Some (true, w') =>
        Some (set_callbacks (if stop_waits w' then <[i := cb_stopping]> (callbacks w') else delete i (callbacks w')) w')
      | Some (false, w') => Some (set_callbacks (delete i (callbacks w')) w')
      end
    else Some (set_callbacks (delete i (callbacks w)) w)
  | Some cb_stopping => Some (if stop_waits w then w else set_callbacks (delete i (callbacks w)) w)
  end.

(** ** The timer as a transition system *)

Inductive event :=
  | ev_start (once : bool)
  | ev_stop
  | ev_select
  | ev_trigger (i : nat)
  | ev_callback (i : nat).

Definition timer_event (e : event) (w : world) : option world :=
  match e with
  | ev_start once => Some (snd (start once w))
  | ev_stop => match stop w with Some (_, w') => Some w' | None => None end
  | ev_select => match timer_select w with Some (_, w') => Some w' | None => None end
  | ev_trigger i => trigger_step i w
  | ev_callback i => callback_step i w
  end.

Definition timer_step (w w' : world) : Prop := ∃ e, timer_event e w = Some w'.

Definition timer_init (interval_ms : Z) (cb : option nat) : world :=
  mk_world (new_timer interval_ms cb) [] [] 1 true 0 0.

Fixpoint run_timer (es : list event) (w : world) : option world :=
  match es with
  | [] => Some w
  | e :: es' => match timer_event e w with Some w' => run_timer es' w' | None => None end
  end.

(** ** Ticks and callbacks *)


Definition created_count (l : list callback_pc) : nat := length (filter (λ c, c = cb_created) l).

Lemma created_count_app l k : created_count (l ++ k) = (created_count l + created_count k)%nat.
Proof. unfold created_count. by rewrite filter_app, length_app. Qed.

Lemma created_count_split l i c :
  l !! i = Some c →
  created_count l = (created_count (take i l) + (if decide (c = cb_created) then 1 else 0) + created_count (drop (S i) l))%nat.
Proof.
  intros Hi. rewrite <- (take_drop_middle l i c Hi) at 1. rewrite created_count_app.
  unfold created_count at 2. rewrite filter_cons. case_decide; simpl; unfold created_count; lia.
Qed.

Lemma created_count_insert l i c d :
  l !! i = Some c →
  (created_count (<[i := d]> l) + (if decide (c = cb_created) then 1 else 0) =
   created_count l + (if decide (d = cb_created) then 1 else 0))%nat.
Proof.
  intros Hi. rewrite (created_count_split l i c Hi), insert_take_drop by (by eapply lookup_lt_Some).
  rewrite created_count_app. unfold created_count at 2. rewrite filter_cons. case_decide; simpl; unfold created_count; lia.
Qed.

Lemma created_count_delete l i c :
  l !! i = Some c → (created_count (delete i l) + (if decide (c = cb_created) then 1 else 0) = created_count l)%nat.
Proof.
  intros Hi. rewrite (created_count_split l i c Hi), delete_take_drop, created_count_app. lia.
Qed.

Record timer_ok (w : world) : Prop := {
  to_chan : chan_wf (m_trigger (tm w));
  to_cap : m_max_size (m_trigger (tm w)) = 1;
  to_readers : m_waiting_read_que (m_trigger (tm w)) = [];
  to_count : (fired w + created_count (callbacks w) + Z.to_nat (m_unread (m_trigger (tm w))) <= ticks w)%nat
}.

(** What a read of the selecter does to the world. *)
Lemma timer_read_cases k p w b w' :
  timer_ok w → timer_read k p true w = Some (b, w') →
  (b = false ∧ w' = w) ∨
  (b = true ∧ 0 < m_unread (m_trigger (tm w)) ∧
   ∃ c t, w' = set_tm t w ∧ m_trigger t = c ∧ m_running t = m_running (tm w) ∧ chan_wf c ∧
     m_max_size c = 1 ∧ m_waiting_read_que c = [] ∧ m_unread c = m_unread (m_trigger (tm w)) - 1).
Proof.
  intros [Hc Hcap Hq Hn] Hr. unfold timer_read in Hr. set (c := m_trigger (tm w)) in *.
  destruct (m_flag (m_lock c)) eqn:Ef; [by rewrite read_locked in Hr|].
  destruct (contents c) as [|v q] eqn:Ec; [|destruct (m_waiting_write_que c) as [|ctx ws] eqn:Ew].
  3: by rewrite (read_waiting_writer 0 _ p true c v ctx q Hc Ef Ec) in Hr by (by rewrite Ew).
  all: pose proof (length_contents c Hc) as Hl; rewrite Ec in Hl; simpl in Hl; pose proof (cw_unread _ Hc) as Hcu.
  all: pose proof (read_refines_spec 0 (trigger_caller w INVALID_ID) p true c Hc Ef) as H;
    destruct (read _ _ _ _ c) as [[o e] c'] eqn:Er; destruct H as (Hs & Hc' & _); [first [by right|left; lia]|].
  all: unfold spec_read in Hs; simpl in Hs; rewrite Ec in Hs.
  - left. injection Hs as <- <- _ _ _ _. apply read_refused in Er as [-> _]. simplify_eq/=. split; [done|]. by destruct w as [[]].
  - right. injection Hs as <- <- Hm Hb Hq' _. simplify_eq/=. split; [done|]. split; [lia|].
    eexists c', _. split_and!; [done|done|done|done|congruence|congruence|].
    pose proof (length_contents c' Hc') as Hl'. pose proof (cw_unread _ Hc'). lia.
Qed.

Lemma tick_callback_ok cb w n :
  timer_ok w → (fired w + created_count (callbacks w) + Z.to_nat (m_unread (m_trigger (tm w))) + n <= ticks w)%nat →
  (1 <= n)%nat → timer_ok (tick_callback cb w).
Proof.
  intros [Hc Hcap Hq Hn] Hle H1. unfold tick_callback. repeat case_if; try done. split; simpl; try done.
  rewrite created_count_app. unfold created_count at 2. simpl. lia.
Qed.

Lemma select_once_timer_ok w n w' : timer_ok w → timer_select_once w = Some (n, w') → timer_ok w'.
Proof.
  intros Hw. unfold timer_select_once, select_once.
  assert (H : ∀ l u, timer_ok u → select_from tick_callback l u = Some (n, w') → timer_ok w'); [|by apply H].
  induction l as [|[k nd] l IH]; intros u Hu Hs; simpl in Hs; [by simplify_eq|].
  destruct (chan nd) as [k'|]; [|by apply (IH u)]. case_bool_decide; [|by apply (IH u)].
  destruct (timer_read k' _ true u) as [[b u1]|] eqn:E; [|done].
  destruct (timer_read_cases _ _ _ _ _ Hu E) as [[-> ->]|(-> & Hpos & c & t & -> & Ht & _ & Hc & Hcap & Hq & Hn)]; [by apply (IH u)|].
  simplify_eq. pose proof (to_count _ Hu) as Hcount. pose proof (cw_unread _ Hc). apply (tick_callback_ok _ _ 1); [|simpl; rewrite Hn; lia|lia].
  split; simpl; rewrite ?Hn; try done. lia.
Qed.

Lemma timer_ok_frame w t : timer_ok w → m_trigger t = m_trigger (tm w) → timer_ok (set_tm t w).
Proof. intros [Hc Hcap Hq Hn] Ht. split; simpl; by rewrite Ht. Qed.

Lemma stop_ok w b w' : timer_ok w → stop w = Some (b, w') → timer_ok w'.
Proof.
  intros Hw. unfold stop. case_if; [intros; by simplify_eq|].
  destruct (timer_select_once _) as [[n w1]|] eqn:Es; [|done]. intros H. simplify_eq.
  apply timer_ok_frame; [|done]. eapply select_once_timer_ok; [|exact Es]. by apply timer_ok_frame.
Qed.

Lemma trigger_ok i w w' : timer_ok w → trigger_step i w = Some w' → timer_ok w'.
Proof.
  intros Hw. unfold trigger_step. destruct (triggers w !! i) as [[id pc]|]; [|done].
  assert (Hset : ∀ l u, timer_ok u → timer_ok (set_triggers l u)) by (intros l u []; by split).
  destruct pc; simpl; [|intros; simplify_eq; by apply Hset].
  unfold trigger_resumes. case_if; [|intros; simplify_eq; by apply Hset, timer_ok_frame].
  destruct Hw as [Hc Hcap Hq Hn]. set (c := m_trigger (tm w)) in *.
  destruct (m_flag (m_lock c)) eqn:Ef; [by rewrite write_locked|].
  pose proof (write_refines_spec (trigger_caller w id) 1 false c Hc Ef) as Hs.
  destruct (write _ _ _ c) as [[o e] c'] eqn:Ew. destruct Hs as (Hs & Hc' & _).
  unfold spec_write, hold in Hs. simpl in Hs. rewrite Hq in Hs.
  pose proof (length_contents c' Hc') as Hl'. pose proof (length_contents c Hc) as Hl.
  pose proof (cw_unread _ Hc) as Hu. pose proof (cw_unread _ Hc') as Hu'.
  case_if_in Hs; injection Hs as <- <- Hm Hb Hq' _; intros; simplify_eq; apply Hset;
    (split; simpl; [done|congruence|congruence|rewrite <- Hb, ?length_app in Hl'; simpl in Hl'; lia]).
Qed.

Lemma callback_ok i w w' : timer_ok w → callback_step i w = Some w' → timer_ok w'.
Proof.
  intros Hw. unfold callback_step. destruct (callbacks w !! i) as [[]|] eqn:Ei; [| | |done].
  - intros. simplify_eq. destruct Hw as [Hc Hcap Hq Hn]. split; simpl; try done.
    pose proof (created_count_insert _ i _ cb_calling Ei) as H. simpl in H. lia.
  - assert (Hdel : ∀ u, timer_ok u → timer_ok (set_callbacks (delete i (callbacks u)) u) ∧ timer_ok (set_callbacks (<[i := cb_stopping]> (callbacks u)) u)).
    { intros u [Hc Hcap Hq Hn]. destruct (callbacks u !! i) as [c|] eqn:E.
      - pose proof (created_count_delete _ i _ E). pose proof (created_count_insert _ i _ cb_stopping E) as H2. simpl in H2.
        split; split; simpl; try done; lia.
      - assert (Hlen : (length (callbacks u) <= i)%nat) by (by apply lookup_ge_None_1).
        rewrite list_insert_ge by done. rewrite delete_take_drop, take_ge, drop_ge, app_nil_r by lia. by split. }
    case_if; [|intros; simplify_eq; by apply Hdel].
    destruct (stop w) as [[b w1]|] eqn:Es; [|done]. apply stop_ok in Es; [|done].
    destruct b; [case_if|]; intros; simplify_eq; by apply Hdel.
  - intros. simplify_eq. case_if; [done|]. destruct Hw as [Hc Hcap Hq Hn].
    pose proof (created_count_delete _ i _ Ei). split; simpl; try done. lia.
Qed.

Lemma timer_step_ok w w' : timer_ok w → timer_step w w' → timer_ok w'.
Proof.
  intros Hw [e He]. destruct e as [once| | |i|i]; simpl in He.
  - simplify_eq. unfold start. repeat case_if; simpl; try done; destruct Hw as [Hc Hcap Hq Hn]; by split.
  - destruct (stop w) as [[b w1]|] eqn:E; simplify_eq. by eapply stop_ok.
  - unfold timer_select in He. case_if_in He; [by simplify_eq|].
    destruct (timer_select_once w) as [[n w1]|] eqn:Es; simplify_eq. by eapply select_once_timer_ok.
  - by eapply trigger_ok.
  - by eapply callback_ok.
Qed.

Lemma timer_init_ok ms cb : timer_ok (timer_init ms cb).
Proof. destruct (create_wf (0:Z) 1) as (Hc & _). split; simpl; [done|done|done|lia]. Qed.

Lemma run_timer_steps es w w' : run_timer es w = Some w' → rtc timer_step w w'.
Proof.
  revert w. induction es as [|e es IH]; intros w H; simpl in H; simplify_eq; [done|].
  destruct (timer_event e w) as [w1|] eqn:E; [|done]. eapply rtc_l; [by exists e|auto].
Qed.

(** ** The case of the selecter *)

Definition tick_node : chan_select_node_t :=
  mk_node (Some trigger_addr) selecter_type_read (Some d_addr) (Some on_tick).

Definition cases_ok (w : world) : Prop :=
  m_cases (m_selecter (tm w)) = if m_running (tm w) then [(trigger_addr, tick_node)] else [].

Lemma store_d_frame e t :
  m_selecter (store_d e t) = m_selecter t ∧ m_running (store_d e t) = m_running t ∧ m_trigger (store_d e t) = m_trigger t.
Proof. revert t. induction e as [|[] e IH]; intros t; simpl; [done|destruct (IH (set_m_d v t)) as (? & ? & ?)|apply IH]; done. Qed.

Lemma timer_read_frame k p w b w' :
  timer_read k p true w = Some (b, w') →
  m_selecter (tm w') = m_selecter (tm w) ∧ m_running (tm w') = m_running (tm w) ∧
  callbacks w' = callbacks w ∧ triggers w' = triggers w.
Proof.
  unfold timer_read. destruct (read _ _ _ _ _) as [[o e] c]. destruct o; intros; simplify_eq/=.
  by destruct (store_d_frame e (set_m_trigger c (tm w))) as (-> & -> & _).
Qed.

(** A refused read found no value. *)
Lemma timer_read_empty k p w w' : timer_read k p true w = Some (false, w') → m_unread (m_trigger (tm w')) < 1.
Proof.
  intros H. pose proof (it_read_refused k p w w' H) as ->. unfold timer_read in H.
  destruct (read _ _ _ true _) as [[o e] c] eqn:Hr. destruct o as [[]| | |]; try done.
  revert Hr. unfold read. destruct (lock_attempt _ _) as [[] ?]; [|done]. unfold readable. simpl.
  case_if; bool_to_prop; [done|]. repeat (case_match; simplify_eq/=; try done).
Qed.

Lemma tick_callback_tm cb w : tm (tick_callback cb w) = tm w.
Proof. unfold tick_callback. by repeat case_if. Qed.

Lemma timer_select_once_frame w n w' :
  timer_select_once w = Some (n, w') →
  m_selecter (tm w') = m_selecter (tm w) ∧ m_running (tm w') = m_running (tm w) ∧ triggers w' = triggers w ∧
  (m_running (tm w) = false → callbacks w' = callbacks w).
Proof.
  unfold timer_select_once, select_once. generalize (m_cases (m_selecter (tm w))) as l.
  induction l as [|[k nd] l IH]; intros H; simpl in H; [by simplify_eq|].
  destruct (chan nd) as [k'|]; [|by apply IH]. case_bool_decide; [|by apply IH].
  destruct (timer_read k' _ true w) as [[b w1]|] eqn:E; [|done]. destruct b.
  - apply timer_read_frame in E as (H1 & H2 & H3 & H4). simplify_eq. rewrite tick_callback_tm. unfold tick_callback.
    rewrite H2. split_and!; [done|done|by repeat case_if|intros ->; done].
  - pose proof (it_read_refused _ _ _ _ E) as ->. by apply IH.
Qed.

(** What [stop] does when it does not spin. *)
Lemma stop_effect w w' :
  timer_ok w → cases_ok w → stop w = Some (true, w') →
  m_running (tm w') = false ∧ m_cases (m_selecter (tm w')) = [] ∧ callbacks w' = callbacks w ∧
  triggers w' = triggers w ∧ contents (m_trigger (tm w')) = [].
Proof.
  intros Hw Hcs. unfold stop. destruct (m_running (tm w)) eqn:Er; [|done]. cbn [negb].
  set (u := upd_tm (set_m_running false) w). assert (Hu : timer_ok u) by (by apply timer_ok_frame).
  destruct (timer_select_once u) as [[n u1]|] eqn:Es; [|done]. intros H. simplify_eq. cbn [upd_tm set_tm tm callbacks triggers].
  destruct (timer_select_once_frame _ _ _ Es) as (H1 & H2 & H3 & H4). specialize (H4 eq_refl).
  unfold cases_ok in Hcs. rewrite Er in Hcs. simpl in H1, H2.
  split_and!; [done| |done|done|].
  - simpl. unfold del_case. rewrite H1, Hcs. done.
  - simpl. apply contents_empty. unfold timer_select_once, select_once in Es. simpl in Es. rewrite Hcs in Es. simpl in Es.
    destruct (timer_read trigger_addr d_addr true u) as [[b u2]|] eqn:E; [|done].
    destruct (timer_read_cases _ _ _ _ _ Hu E) as [[-> ->]|(-> & Hpos & c & t & -> & Ht & _ & Hc & _ & _ & Hn)]; simplify_eq.
    + apply timer_read_empty in E. lia.
    + rewrite tick_callback_tm. simpl. rewrite Hn. pose proof (cw_unread _ (to_chan _ Hu)). pose proof (to_cap _ Hu). lia.
Qed.

Lemma timer_step_cases_ok w w' : timer_ok w → cases_ok w → timer_step w w' → cases_ok w'.
Proof.
  intros Hw Hcs [e He]. destruct e as [once| | |i|i]; simpl in He.
  - simplify_eq. unfold start. destruct (m_running (tm w)) eqn:Er; [done|]. case_if; [done|].
    unfold cases_ok in *. rewrite Er in Hcs. destruct (can_create _); simpl; unfold add_case; simpl; by rewrite Hcs.
  - destruct (stop w) as [[[] w1]|] eqn:Es; simplify_eq.
    + destruct (stop_effect _ _ Hw Hcs Es) as (H1 & H2 & _). unfold cases_ok. by rewrite H1, H2.
    + unfold stop in Es. case_if_in Es; [by simplify_eq|]. by destruct (timer_select_once _) as [[? ?]|].
  - unfold timer_select in He. case_if_in He; [by simplify_eq|].
    destruct (timer_select_once w) as [[n w1]|] eqn:Es; simplify_eq.
    destruct (timer_select_once_frame _ _ _ Es) as (H1 & H2 & _). unfold cases_ok. by rewrite H1, H2.
  - unfold trigger_step in He. destruct (triggers w !! i) as [[id []]|]; [| |done]; simpl in He; [|by simplify_eq].
    unfold trigger_resumes in He. destruct (m_running (tm w)) eqn:Er.
    + destruct (write _ _ _ _) as [[[] e] c]; simplify_eq; done.
    + simplify_eq. unfold cases_ok in *. simpl. by rewrite Er in *.
  - unfold callback_step in He. destruct (callbacks w !! i) as [[]|] eqn:Ei; [by simplify_eq| |by case_if_in He; simplify_eq|done].
    case_if_in He; [|by simplify_eq]. destruct (stop w) as [[[] w1]|] eqn:Es; [| |done].
    + destruct (stop_effect _ _ Hw Hcs Es) as (H1 & H2 & _).
      case_if_in He; simplify_eq; unfold cases_ok; simpl; by rewrite H1, H2.
    + unfold stop in Es. case_if_in Es; [by simplify_eq|]. by destruct (timer_select_once _) as [[? ?]|].
Qed.

Lemma timer_reachable_ok ms cb w : rtc timer_step (timer_init ms cb) w → timer_ok w ∧ cases_ok w.
Proof.
  intros H. apply (rtc_invariant timer_step (λ w, timer_ok w ∧ cases_ok w)) with (timer_init ms cb); [|done|].
  - intros x y [Hx Hc] Hs. split; [by eapply timer_step_ok|by eapply timer_step_cases_ok].
  - split; [apply timer_init_ok|done].
Qed.

(** ** Properties *)

(** C35: no callback without a tick.  In every state a timer can reach, the
    calls of the user's callback, the coroutines created to call it and the
    tick waiting in the channel are together at most the writes of the
    trigger, and at most one tick waits. *)
Theorem timer_callbacks_from_ticks ms cb w :
  rtc timer_step (timer_init ms cb) w →
  (fired w + created_count (callbacks w) + Z.to_nat (m_unread (m_trigger (tm w))) <= ticks w)%nat ∧
  0 <= m_unread (m_trigger (tm w)) <= 1.
Proof.
  intros [[Hc Hcap Hq Hn] _]%timer_reachable_ok. split; [done|]. pose proof (cw_unread _ Hc). lia.
Qed.

Lemma timer_callbacks_from_ticks_witness :
  ∃ w, run_timer [ev_start false; ev_trigger 0; ev_select; ev_callback 0; ev_trigger 0] (timer_init 10 (Some 5%nat)) = Some w ∧
    fired w = 1%nat ∧ ticks w = 2%nat ∧ 0 <= m_unread (m_trigger (tm w)) <= 1.
Proof.
  destruct (run_timer [ev_start false; ev_trigger 0; ev_select; ev_callback 0; ev_trigger 0] (timer_init 10 (Some 5%nat)))
    as [w|] eqn:E; [|by vm_compute in E].
  exists w. split; [done|]. split; [by vm_compute in E; injection E as <-|]. split; [by vm_compute in E; injection E as <-|].
  exact (proj2 (timer_callbacks_from_ticks 10 (Some 5%nat) w (run_timer_steps _ _ _ E))).
Defined.

(** Stopping.  When [stop] gets to its loop, in any state a timer can
    reach, the timer is not running, the pending tick is dropped and the case
    is gone, no callback coroutine was created by it, polling the timer does
    nothing from then on until it is started again, and a trigger that resumes
    from its sleep ends and lets [stop] go on. *)
Theorem timer_stop_is_quiet ms cb w w' :
  rtc timer_step (timer_init ms cb) w → stop w = Some (true, w') →
  m_running (tm w') = false ∧ contents (m_trigger (tm w')) = [] ∧ m_cases (m_selecter (tm w')) = [] ∧
  callbacks w' = callbacks w ∧ timer_select w' = Some (0, w') ∧ stop w' = Some (false, w') ∧
  ∀ i id, triggers w' !! i = Some (id, in_sleep) →
    ∃ w2, trigger_step i w' = Some w2 ∧ triggers w2 = delete i (triggers w) ∧ stop_waits w2 = false ∧ ticks w2 = ticks w'.
Proof.
  intros [Hw Hcs]%timer_reachable_ok Hs. destruct (stop_effect w w' Hw Hcs Hs) as (H1 & H2 & H3 & H4 & H5).
  split_and!; [done|done|done|done|by unfold timer_select; rewrite H1|by unfold stop; rewrite H1|].
  intros i id Hi. unfold trigger_step. rewrite Hi. unfold trigger_resumes. rewrite H1. eexists. split; [done|]. simpl. by rewrite H4.
Qed.

Lemma timer_stop_is_quiet_witness :
  ∃ w w', run_timer [ev_start false; ev_trigger 0] (timer_init 10 (Some 5%nat)) = Some w ∧ stop w = Some (true, w') ∧
    contents (m_trigger (tm w)) = [1] ∧ contents (m_trigger (tm w')) = [].
Proof.
  destruct (run_timer [ev_start false; ev_trigger 0] (timer_init 10 (Some 5%nat))) as [w|] eqn:E; [|by vm_compute in E].
  destruct (stop w) as [[[] w']|] eqn:Es; [|by vm_compute in E; injection E as <-; vm_compute in Es..].
  exists w, w'. split; [done|]. split; [done|]. split; [by vm_compute in E; injection E as <-; vm_compute|].
  destruct (timer_stop_is_quiet 10 (Some 5%nat) w w' (run_timer_steps _ _ _ E) Es) as (_ & H & _). exact H.
Defined.

(** A once timer whose [n] callbacks are still inside [m_cb()]. *)
Definition once_tm : chr_timer_t :=
  mk_timer true 10 (Some 5%nat) (mk_selecter node_init [(trigger_addr, tick_node)]) 1
    (mk_channel false 0 0 1 [1] 0 [] [] (mk_chutex false)) 1 true.

Definition once_world (n : nat) : world :=
  mk_world once_tm [(1, in_sleep)] (replicate n cb_calling) 2 true n n.

Lemma once_start : run_timer [ev_start true; ev_trigger 0; ev_select; ev_callback 0] (timer_init 10 (Some 5%nat)) = Some (once_world 1).
Proof. reflexivity. Qed.

Lemma once_round n : run_timer [ev_trigger 0; ev_select; ev_callback n] (once_world n) = Some (once_world (S n)).
Proof.
  assert (H : run_timer [ev_trigger 0; ev_select] (once_world n) =
    Some (mk_world once_tm [(1, in_sleep)] (replicate n cb_calling ++ [cb_created]) 2 true (S n) n)) by reflexivity.
  change [ev_trigger 0; ev_select; ev_callback n] with ([ev_trigger 0; ev_select] ++ [ev_callback n]).
  assert (Happ : ∀ es es' w, run_timer (es ++ es') w = match run_timer es w with Some w' => run_timer es' w' | None => None end).
  { induction es as [|e es IH]; intros es' w; simpl; [done|]. destruct (timer_event e w); [apply IH|done]. }
  rewrite Happ, H. simpl. unfold callback_step. simpl.
  rewrite lookup_app_r by (by rewrite length_replicate). rewrite length_replicate, Nat.sub_diag. simpl.
  unfold set_callbacks, set_fired, once_world. simpl. do 2 f_equal.
  rewrite insert_app_r_alt by (by rewrite length_replicate). rewrite length_replicate, Nat.sub_diag. simpl.
  by rewrite <- replicate_cons_app.
Qed.

(** A timer started with [once] can call its callback any number of times:
    when the callback suspends itself for longer than the interval, the timer
    is stopped only after it has returned, and each tick meanwhile starts
    another call. *)
Theorem once_timer_fires_again n :
  ∃ w, rtc timer_step (timer_init 10 (Some 5%nat)) w ∧ m_once (tm w) = true ∧ fired w = S n.
Proof.
  exists (once_world (S n)). split; [|done]. induction n as [|n IH].
  - by eapply run_timer_steps, once_start.
  - etransitivity; [exact IH|]. by eapply run_timer_steps, once_round.
Qed.

(** A timer that is started again while [stop] waits for its trigger gets
    a second trigger; the next [stop] waits for one of them only.  There is a
    state in which [stop] has returned (so that the owner may delete the timer)
    and a trigger that uses the timer still exists. *)
Theorem restart_during_stop_leaves_trigger :
  ∃ w w1 w2, run_timer [ev_start false; ev_stop; ev_start false] (timer_init 10 (Some 5%nat)) = Some w ∧
    length (triggers w) = 2%nat ∧
    stop w = Some (true, w1) ∧ stop_waits w1 = true ∧
    timer_event (ev_trigger 0) w1 = Some w2 ∧ stop_waits w2 = false ∧ triggers w2 = [(2, in_sleep)].
Proof. do 3 eexists. split_and!; vm_compute; reflexivity. Qed.
