(* ===== verification/Engine.v ===== *)
(** * engin/engine.hpp, engin/engine.cpp: class [engine_t]

    The engine owns the threads and finds, by the id of the calling OS thread,
    the thread object an API call is for.  Its functions act on the engine's
    own fields and on the world of World.v; [None] stands for a call through a
    pointer that is not (or no longer) an object, and for a failed assertion.
    [cur] is [std::this_thread::get_id()]. *)

From stdpp Require Import sorting.
From S2P Require Import Prelude Reporter Chroutine Load Thread World.
Local Open Scope Z_scope.

(** ** Data *)

Definition MAX_ENTRY_CALL_TIME_MS : Z := 500.
Definition ENTRY_CALL_CHECK_TIMER_MS : Z := Z.quot MAX_ENTRY_CALL_TIME_MS 2.

(** The compile-time switches. *)
Record features := mk_features { ENABLE_HTTP_PLUGIN : bool; ENABLE_EPOLL : bool }.

(** Thread objects and selectable objects are named by their addresses. *)
Record engine_t := mk_engine {
  m_pool : gmap Z nat;
  m_creating : list nat;
  m_init_over : bool;
  m_dispatch_seed : Z;
  m_http_stubs : gmap Z nat;
  m_main_thread : option nat;
  m_epoll_thread : option nat;
  m_epoll : option nat;
  m_flush_timer : option nat
}.

Definition engine_init : engine_t := mk_engine ∅ [] false 0 ∅ None None None None.

Definition set_m_pool v e := mk_engine v (m_creating e) (m_init_over e) (m_dispatch_seed e) (m_http_stubs e) (m_main_thread e) (m_epoll_thread e) (m_epoll e) (m_flush_timer e).
Definition set_m_creating v e := mk_engine (m_pool e) v (m_init_over e) (m_dispatch_seed e) (m_http_stubs e) (m_main_thread e) (m_epoll_thread e) (m_epoll e) (m_flush_timer e).
Definition set_m_init_over v e := mk_engine (m_pool e) (m_creating e) v (m_dispatch_seed e) (m_http_stubs e) (m_main_thread e) (m_epoll_thread e) (m_epoll e) (m_flush_timer e).
Definition set_m_dispatch_seed v e := mk_engine (m_pool e) (m_creating e) (m_init_over e) v (m_http_stubs e) (m_main_thread e) (m_epoll_thread e) (m_epoll e) (m_flush_timer e).
Definition set_m_http_stubs v e := mk_engine (m_pool e) (m_creating e) (m_init_over e) (m_dispatch_seed e) v (m_main_thread e) (m_epoll_thread e) (m_epoll e) (m_flush_timer e).
Definition set_m_main_thread v e := mk_engine (m_pool e) (m_creating e) (m_init_over e) (m_dispatch_seed e) (m_http_stubs e) v (m_epoll_thread e) (m_epoll e) (m_flush_timer e).
Definition set_m_epoll_thread v e := mk_engine (m_pool e) (m_creating e) (m_init_over e) (m_dispatch_seed e) (m_http_stubs e) (m_main_thread e) v (m_epoll e) (m_flush_timer e).
Definition set_m_epoll v e := mk_engine (m_pool e) (m_creating e) (m_init_over e) (m_dispatch_seed e) (m_http_stubs e) (m_main_thread e) (m_epoll_thread e) v (m_flush_timer e).
Definition set_m_flush_timer v e := mk_engine (m_pool e) (m_creating e) (m_init_over e) (m_dispatch_seed e) (m_http_stubs e) (m_main_thread e) (m_epoll_thread e) (m_epoll e) v.

(** The pool in the order of its [std::map]. *)
Definition pool_list (e : engine_t) : list (Z * nat) :=
  omap (λ k, match m_pool e !! k with Some t => Some (k, t) | None => None end)
    (merge_sort Z.le (elements (dom (m_pool e)))).

(** ** Finding a thread *)

(** The comparison of an id with [thread->thread_id()] behind a null check. *)
Definition is_thread (p : option nat) (tid : option Z) (w : world) : option nat :=
  match p with
  | Some t => if bool_decide (thread_id_of t w = tid) then Some t else None
  | None => None
  end.

(** [chroutine_thread_t *get_thread_by_id(std::thread::id thread_id)];
    the id is [None] for the null id. *)
Definition get_thread_by_id (tid : option Z) (e : engine_t) (w : world) : option nat :=
  if negb (m_init_over e) then None
  else match is_thread (m_main_thread e) tid w with
  | Some t => Some t
  | None =>
    match is_thread (m_epoll_thread e) tid w with
    | Some t => Some t
    | None => match tid with Some i => m_pool e !! i | None => None end
    end
  end.

(** [chroutine_thread_t *get_current_thread()] *)
Definition get_current_thread (cur : Z) (e : engine_t) (w : world) : option nat :=
  get_thread_by_id (Some cur) e w.

(** [m_creating[m_dispatch_seed++ % m_creating.size()]]: the seed is converted
    to [size_t]. *)
Definition get_lightest_thread (e : engine_t) : option nat * engine_t :=
  if negb (m_init_over e) then (None, e)
  else match m_creating e with
  | [] => (None, e)
  | l =>
    (l !! Z.to_nat (to_size_t (m_dispatch_seed e) mod Z.of_nat (length l)),
     set_m_dispatch_seed (m_dispatch_seed e + 1) e)
  end.

(** ** The API *)

(** [pthrd == nullptr ? dflt : pthrd->f()] *)
Definition with_thread {A} (p : option nat) (dflt : A) (f : cell → A * cell) (w : world) : option (A * world) :=
  match p with
  | None => Some (dflt, w)
  | Some t => on_thread t f w
  end.

Definition flip_pair {A B} (x : A * B) : B * A := (x.2, x.1).

(** [void yield(int tick)]; the result says whether the caller is suspended. *)
Definition yield (cur tick : Z) (e : engine_t) (w : world) : option (bool * world) :=
  with_thread (get_current_thread cur e w) false (λ s, flip_pair (thread_yield tick s)) w.

(** [void wait(std::time_t wait_time_ms)] *)
Definition wait (cur now ms : Z) (e : engine_t) (w : world) : option (bool * world) :=
  with_thread (get_current_thread cur e w) false (λ s, flip_pair (thread_wait now ms s)) w.

(** [void sleep(std::time_t wait_time_ms)] *)
Definition sleep (cur now ms : Z) (e : engine_t) (w : world) : option (bool * world) :=
  with_thread (get_current_thread cur e w) false (λ s, flip_pair (thread_sleep now ms s)) w.

(** [chroutine_id_t create_chroutine(func_t func, void *arg)] *)
Definition create_chroutine (f : func_t) (a : Z) (e : engine_t) (w : world) : option (Z * engine_t * world) :=
  let '(t, e') := get_lightest_thread e in
  match with_thread t INVALID_ID (Thread.create_chroutine f a) w with
  | Some (id, w') => Some (id, e', w')
  | None => None
  end.

(** [chroutine_id_t create_chroutine_in_mainthread(func_t func, void *arg)] *)
Definition create_chroutine_in_mainthread (f : func_t) (a : Z) (e : engine_t) (w : world) : option (Z * world) :=
  with_thread (m_main_thread e) INVALID_ID (Thread.create_chroutine f a) w.

(** [chroutine_id_t create_son_chroutine(func_t func, void *arg)] *)
Definition create_son_chroutine_plain (cur : Z) (f : func_t) (a : Z) (e : engine_t) (w : world) : option (Z * world) :=
  with_thread (get_current_thread cur e w) INVALID_ID (Thread.create_chroutine f a) w.

(** [reporter_base_t *create_son_chroutine(func_t func, const reporter_sptr_t &
    reporter, std::time_t timeout_ms)] up to the suspension of the caller: the
    thread object [pthrd] it keeps, and whether it is suspended.  [nullptr] is
    address 0. *)
Definition create_son_begin (cur now : Z) (f : func_t) (rep : nat) (timeout_ms : Z) (e : engine_t) (w : world)
  : option (option nat * bool * world) :=
  if timeout_ms =? 0 then
    match create_son_chroutine_plain cur f 0 e w with
    | Some (_, w') => Some (None, false, w')
    | None => None
    end
  else match get_current_thread cur e w with
  | None => Some (None, false, w)
  | Some t =>
    match on_thread t (Thread.create_son_chroutine f rep) w with
    | None => None
    | Some (_, w1) =>
      match on_thread t (λ s, flip_pair (thread_wait now timeout_ms s)) w1 with
      | None => None
      | Some (sw, w2) => Some (Some t, sw, w2)
      end
    end
  end.

(** The rest of it, [return pthrd->get_current_reporter()]. *)
Definition create_son_end (pthrd : option nat) (w : world) : option (option nat * world) :=
  with_thread pthrd None (λ s, (get_current_reporter s, s)) w.

(** [reporter_base_t *get_my_reporter()] *)
Definition get_my_reporter (cur : Z) (e : engine_t) (w : world) : option (option nat * world) :=
  with_thread (get_current_thread cur e w) None (λ s, (get_current_reporter s, s)) w.

(** The thread a (un)registration is for. *)
Definition register_thread (cur : Z) (tid : option Z) (e : engine_t) (w : world) : option nat :=
  match tid with
  | None => get_current_thread cur e w
  | Some _ => get_thread_by_id tid e w
  end.

(** [int register_select_obj(const selectable_object_sptr_t &, std::thread::id)] *)
Definition register_select_obj (cur : Z) (obj : nat) (tid : option Z) (e : engine_t) (w : world) : option (Z * world) :=
  with_thread (register_thread cur tid e w) (-1) (λ s, (0, register_selector (Some obj) s)) w.

(** [int unregister_select_obj(selectable_object_it *key, std::thread::id)] *)
Definition unregister_select_obj (cur : Z) (key : nat) (tid : option Z) (e : engine_t) (w : world) : option (Z * world) :=
  with_thread (register_thread cur tid e w) (-1) (λ s, (0, unregister_selector key s)) w.

(** [chroutine_id_t get_current_chroutine_id()] *)
Definition get_current_chroutine_id (cur : Z) (e : engine_t) (w : world) : option (Z * world) :=
  with_thread (get_current_thread cur e w) INVALID_ID (λ s, (running_id (sch s), s)) w.

(** [int awake_chroutine(std::thread::id thread_id, chroutine_id_t id)] *)
Definition awake_chroutine_at (tid : option Z) (id : Z) (e : engine_t) (w : world) : option (Z * world) :=
  with_thread (get_thread_by_id tid e w) (-1) (Thread.awake_chroutine id) w.

(** [int awake_chroutine(chroutine_id_t id)] *)
Definition awake_chroutine (cur id : Z) (e : engine_t) (w : world) : option (Z * world) :=
  with_thread (get_current_thread cur e w) (-1) (Thread.awake_chroutine id) w.

(** The look-up of [exec_curl]: the stub of the calling OS thread. *)
Definition find_http_stub (cur : Z) (e : engine_t) : option nat :=
  if negb (m_init_over e) then None else m_http_stubs e !! cur.

(** ** Starting the threads *)

(** [chroutine_thread_t::new_thread()], [set_type]; a fresh object. *)
Definition add_thread (ty : thread_type_t) (w : world) : nat * world :=
  let t := next_ptr (w_heap w) in
  (t, mk_world (mk_heap (chs (w_heap w)) (rps (w_heap w)) (S t) (ms_chroutine_id (w_heap w)))
        (<[t := set_type ty (new_thread t)]> (w_threads w))).

Definition alloc_object (w : world) : nat * world :=
  let p := next_ptr (w_heap w) in
  (p, mk_world (mk_heap (chs (w_heap w)) (rps (w_heap w)) (S p) (ms_chroutine_id (w_heap w))) (w_threads w)).

(** [curl_stub_t::create(thread_id)]: the object is registered with the thread.
    When that fails the object is deleted twice (Selectable.v): [None]. *)
Definition create_stub (cur tid : Z) (e : engine_t) (w : world) : option (nat * world) :=
  let '(p, w1) := alloc_object w in
  match register_select_obj cur p (Some tid) e w1 with
  | Some (r, w2) => if r =? 0 then Some (p, w2) else None
  | None => None
  end.

Fixpoint create_stubs (cur : Z) (pool : list (Z * nat)) (e : engine_t) (w : world) : option (engine_t * world) :=
  match pool with
  | [] => Some (e, w)
  | (tid, _) :: r =>
    match create_stub cur tid e w with
    | None => None
    | Some (p, w1) => create_stubs cur r (set_m_http_stubs (<[tid := p]> (m_http_stubs e)) e) w1
    end
  end.

(** [const std::thread::id & epoll_thread_id()] *)
Definition epoll_thread_id (e : engine_t) (w : world) : option Z :=
  match m_epoll_thread e with
  | Some t => thread_id_of t w
  | None => None
  end.

(** [m_epoll = epoll_t::create()]: the new object is registered with the thread
    of the poller, whose id must be known: otherwise the assertion of [create]
    ends the program, [None]. *)
Definition create_epoll (fs : features) (cur : Z) (e : engine_t) (w : world) : option (engine_t * world) :=
  if ENABLE_EPOLL fs then
    match epoll_thread_id e w with
    | None => None
    | Some tid =>
      let '(p, w1) := alloc_object w in
      match register_select_obj cur p (Some tid) e w1 with
      | Some (r, w2) => if r =? 0 then Some (set_m_epoll (Some p) e, w2) else None
      | None => None
      end
    end
  else Some (e, w).

(** [void on_thread_ready(size_t creating_index, std::thread::id thread_id)],
    called by the thread itself under [m_pool_lock].  The bound is computed in
    [size_t]; an index outside the vector is undefined behaviour. *)
Definition on_thread_ready (fs : features) (creating_index tid : Z) (e : engine_t) (w : world)
  : option (engine_t * world) :=
  if creating_index >? to_size_t (Z.of_nat (length (m_creating e)) - 1) then Some (e, w)
  else match m_creating e !! Z.to_nat creating_index with
  | None => None
  | Some t =>
    let e1 := set_m_pool (<[tid := t]> (m_pool e)) e in
    if (size (m_pool e1) =? length (m_creating e1))%nat then
      let e2 := set_m_init_over true e1 in
      match (if ENABLE_HTTP_PLUGIN fs then create_stubs tid (pool_list e2) e2 w else Some (e2, w)) with
      | None => None
      | Some (e3, w1) => create_epoll fs tid e3 w1
      end
    else Some (e1, w)
  end.

(** One iteration of the loop of [init]: a worker object is created, appended
    and started; its OS thread is from then on free to report. *)
Definition init_iteration (i : Z) (e : engine_t) (w : world) : option (engine_t * world) :=
  let '(t, w1) := add_thread worker w in
  let e1 := set_m_creating (m_creating e ++ [t]) e in
  match on_thread t (λ s, flip_pair (start i s)) w1 with
  | Some (true, w2) => Some (e1, w2)
  | _ => None
  end.

(** [init] after its waiting loop. *)
Definition init_end (e : engine_t) (w : world) : engine_t * world :=
  let '(t, w1) := add_thread main w in (set_m_main_thread (Some t) e, w1).

(** [init] before its loop: nothing when there are threads already. *)
Definition init_begin (fs : features) (e : engine_t) (w : world) : option (engine_t * world) :=
  match m_creating e with
  | _ :: _ => None
  | [] =>
    if ENABLE_EPOLL fs then
      let '(t, w1) := add_thread epoll w in
      match on_thread t (λ s, flip_pair (start 0 s)) w1 with
      | Some (true, w2) => Some (set_m_epoll_thread (Some t) e, w2)
      | _ => None
      end
    else Some (e, w)
  end.

(** ** Watching the threads *)

Definition thread_at (t : nat) (w : world) : option chroutine_thread_t := w_threads w !! t.

(** The loop of [check_threads]: the threads classified as good and bad, and
    the states after it. *)
Fixpoint classify (now : Z) (pool : list (Z * nat)) (w : world) : list nat * list nat * world :=
  match pool with
  | [] => ([], [], w)
  | (_, t) :: r =>
    match thread_at t w with
    | None => classify now r w
    | Some x =>
      if negb (m_entry_time x =? 0) && (now >? MAX_ENTRY_CALL_TIME_MS + m_entry_time x) then
        let '(goods, bads, w') := classify now r w in
        (goods, if bool_decide (m_state x = thread_state_t_running) then t :: bads else bads, w')
      else if bool_decide (m_state x = thread_state_t_blocking) then
        classify now r (mk_world (w_heap w) (<[t := set_thread_state thread_state_t_running x]> (w_threads w)))
      else
        let '(goods, bads, w') := classify now r w in (t :: goods, bads, w')
    end
  end.

(** [bad->move_chroutines_to_thread(good)] *)
Definition move_between (bad good : nat) (w : world) : option world :=
  match thread_at bad w, thread_at good w with
  | Some b, Some g =>
    let '(s, g') := move_chroutines_to_thread (mk_cell (w_heap w) b) g in
    Some (mk_world (hp s) (<[good := g']> (<[bad := th s]> (w_threads w))))
  | _, _ => None
  end.

(** The loop over [bads], with [goodindex]. *)
Fixpoint move_all (bads goods : list nat) (goodindex : nat) (w : world) : option world :=
  match bads with
  | [] => Some w
  | bad :: r =>
    match goods !! (goodindex mod length goods)%nat with
    | None => None
    | Some good =>
      match move_between bad good w with
      | None => None
      | Some w' => move_all r goods (S goodindex) w'
      end
    end
  end.

(** [void check_threads()] *)
Definition check_threads (now : Z) (e : engine_t) (w : world) : option world :=
  let '(goods, bads, w1) := classify now (pool_list e) w in
  match bads with
  | [] => Some w1
  | _ => match goods with [] => Some w1 | _ => move_all bads goods 0 w1 end
  end.

(** ** Stopping and running *)

(** [thrd->stop()] for every thread of a list. *)
Fixpoint stop_threads (l : list nat) (w : world) : option world :=
  match l with
  | [] => Some w
  | t :: r =>
    match on_thread_ t stop w with
    | Some w' => stop_threads r w'
    | None => None
    end
  end.

(** The codes of the lambdas [stop_main] and [run] give to
    [create_chroutine_in_mainthread]. *)
Definition stop_main_code : func_t := Some (-1).
Definition watch_code : func_t := Some (-2).

(** [void stop_main()] *)
Definition stop_main (e : engine_t) (w : world) : option world :=
  match create_chroutine_in_mainthread stop_main_code 0 e w with
  | Some (_, w') => Some w'
  | None => None
  end.

(** The body of the lambda of [stop_main], after the timer's [stop] and
    [abandon]. *)
Definition stop_main_body (e : engine_t) (w : world) : option (engine_t * world) :=
  let e1 := set_m_flush_timer None e in
  match stop_threads (match m_main_thread e with Some t => [t] | None => [] end
                      ++ match m_epoll_thread e with Some t => [t] | None => [] end) w with
  | Some w' => Some (e1, w')
  | None => None
  end.

(** [void stop_all()] *)
Definition stop_all (e : engine_t) (w : world) : option world :=
  match stop_threads (map snd (pool_list e)) w with
  | Some w' => stop_main e w'
  | None => None
  end.

(** [void run()] up to [m_main_thread->schedule()]; [None] for the main thread:
    it returns at once.  The flush timer is a selectable object registered
    with the calling thread. *)
Definition run_begin (cur : Z) (e : engine_t) (w : world) : option (option nat * engine_t * world) :=
  match m_main_thread e with
  | None => Some (None, e, w)
  | Some t =>
    match thread_at t w with
    | None => None
    | Some x =>
      if m_is_running x then Some (None, e, w)
      else
        match on_thread_ t (upd_th (update_thread_id cur)) w with
        | None => None
        | Some w1 =>
          match create_chroutine_in_mainthread watch_code 0 e w1 with
          | None => None
          | Some (_, w2) =>
            let '(p, w3) := alloc_object w2 in
            match register_select_obj cur p None e w3 with
            | None => None
            | Some (r, w4) => Some (Some t, set_m_flush_timer (if r =? 0 then Some p else None) e, w4)
            end
          end
        end
    end
  end.
