(* ===== verification/Selectable.v ===== *)
(** * engin/selectable_obj, util/tools: registering objects with the engine, sleeping

    An object that is polled hands itself over to the engine in its [create]:
    [register_to_engin] wraps [this] into the first [shared_ptr] and registers
    it with a thread.  Here the live objects are explicit, so that deleting an
    object that is no longer there is a value of its own. *)

From S2P Require Import Prelude Reporter Chroutine Load Thread World Engine.
Local Open Scope Z_scope.

(** ** Registering *)

(** The live selectable objects and the threads. *)
Record objects := mk_objects { alive : gset nat; ow : world }.

(** [delete p]; [None] when the object is not there any more. *)
Definition delete_object (p : nat) (o : objects) : option objects :=
  if bool_decide (p ∈ alive o) then Some (mk_objects (alive o ∖ {[p]}) (ow o)) else None.

(** [new]: a fresh object. *)
Definition new_object (o : objects) : nat * objects :=
  let '(p, w) := alloc_object (ow o) in (p, mk_objects ({[p]} ∪ alive o) w).

(** [selectable_object_sptr_t register_to_engin(std::thread::id thread_id)]:
    when the registration fails, the local [shared_ptr] is the only one and
    deletes the object. *)
Definition register_to_engin (cur : Z) (this : nat) (tid : option Z) (e : engine_t) (o : objects)
  : option (option nat * objects) :=
  match register_select_obj cur this tid e (ow o) with
  | None => None
  | Some (r, w) =>
    let o1 := mk_objects (alive o) w in
    if r =? 0 then Some (Some this, o1)
    else match delete_object this o1 with
         | Some o2 => Some (None, o2)
         | None => None
         end
  end.

(** [int unregister_from_engin(std::thread::id thread_id)] *)
Definition unregister_from_engin (cur : Z) (this : nat) (tid : option Z) (e : engine_t) (o : objects)
  : option (Z * objects) :=
  match unregister_select_obj cur this tid e (ow o) with
  | Some (r, w) => Some (r, mk_objects (alive o) w)
  | None => None
  end.

(** How [create] ends: with the registered object, with [nullptr], or with the
    second deletion of an object. *)
Inductive created :=
  | created_object (p : nat) (o : objects)
  | created_null (o : objects)
  | deleted_twice (p : nat).

(** [create]: [new], [register_to_engin], and [delete p_this] if that returned
    a null pointer.  The body is the same in all classes; they differ in the
    thread. *)
Definition create_in (cur : Z) (tid : option Z) (e : engine_t) (o : objects) : option created :=
  let '(p_this, o1) := new_object o in
  match register_to_engin cur p_this tid e o1 with
  | None => None
  | Some (Some s_this, o2) => Some (created_object s_this o2)
  | Some (None, o2) =>
    match delete_object p_this o2 with
    | Some o3 => Some (created_null o3)
    | None => Some (deleted_twice p_this)
    end
  end.

(** [curl_stub_t::create] *)
Definition curl_stub_create (cur tid : Z) := create_in cur (Some tid).

(** [chr_timer_t::create], [grpc_async_client_t::create]: the calling thread. *)
Definition timer_create (cur : Z) := create_in cur None.
Definition grpc_client_create (cur : Z) := create_in cur None.

(** [epoll_t::create], [raw_tcp_server_t::create], [raw_tcp_client_t::create]:
    the thread of the poller, whose id is asserted not to be null. *)
Definition create_in_epoll_thread (cur : Z) (e : engine_t) (o : objects) : option created :=
  match epoll_thread_id e (ow o) with
  | None => None
  | Some tid => create_in cur (Some tid) e o
  end.
Definition epoll_create := create_in_epoll_thread.
Definition tcp_server_create := create_in_epoll_thread.
Definition tcp_client_create := create_in_epoll_thread.

(** ** util/tools.cpp *)

(** [struct timespec] *)
Record timespec := mk_timespec { tv_sec : Z; tv_nsec : Z }.

Definition ms_timespec (ms : Z) : timespec := mk_timespec (Z.quot ms 1000) (Z.rem ms 1000 * 1000000).

(** The results of [nanosleep]: it slept to the end, or a signal interrupted it
    and it stored the remaining time. *)
Inductive nanosleep_t :=
  | slept
  | interrupted (rem : timespec)
  | failed (errno : Z).

Definition tools_EINTR : Z := 4.

(** [void thread_ms_sleep(uint32_t ms)]: the requests made of [nanosleep], or
    [None] while it is still sleeping. *)
Fixpoint sleep_loop (ts : timespec) (rs : list nanosleep_t) : option (list timespec) :=
  match rs with
  | [] => None
  | slept :: _ => Some [ts]
  | interrupted rem :: rs' => match sleep_loop rem rs' with Some l => Some (ts :: l) | None => None end
  | failed errno :: rs' =>
    if errno =? tools_EINTR then match sleep_loop ts rs' with Some l => Some (ts :: l) | None => None end
    else Some [ts]
  end.

Definition thread_ms_sleep (ms : Z) (rs : list nanosleep_t) : option (list timespec) := sleep_loop (ms_timespec ms) rs.

Definition nanoseconds (ts : timespec) : Z := tv_sec ts * 1000000000 + tv_nsec ts.

(** The request is well formed and is that of [ms] milliseconds. *)
Lemma ms_timespec_spec ms : 0 <= ms < 2 ^ 32 →
  0 <= tv_nsec (ms_timespec ms) < 1000000000 ∧ nanoseconds (ms_timespec ms) = ms * 1000000.
Proof.
  intros Hms. unfold nanoseconds, ms_timespec. simpl. pose proof (Z.rem_bound_pos ms 1000).
  pose proof (Z.quot_rem' ms 1000). lia.
Qed.

(** ** Properties *)

(** The interface of the engine the classes rely on: registration succeeds
    exactly when there is a thread for it. *)
Lemma register_result cur p tid e w r w' :
  register_select_obj cur p tid e w = Some (r, w') →
  (register_thread cur tid e w = None ∧ r = -1 ∧ w' = w) ∨ (is_Some (register_thread cur tid e w) ∧ r = 0).
Proof.
  unfold register_select_obj, with_thread. destruct (register_thread cur tid e w) as [t|]; intros H.
  - right. split; [by eexists|]. unfold on_thread in H. destruct (w_threads w !! t); by simplify_eq/=.
  - left. by simplify_eq.
Qed.

(** Creating a polled object.  If the engine has a thread for it, the
    object is created and stays alive; if it has none, as before [init] has
    ended or on a thread that is not the engine's, [create] does not return a
    null pointer: [register_to_engin] has deleted the object, and [create]
    deletes it again. *)
Theorem failed_create_deletes_twice cur tid e o x :
  create_in cur tid e o = Some x →
  match register_thread cur tid e (new_object o).2.(ow) with
  | Some t => ∃ o', x = created_object (new_object o).1 o' ∧ (new_object o).1 ∈ alive o' ∧ alive o ⊆ alive o'
  | None => x = deleted_twice (new_object o).1
  end.
Proof.
  unfold create_in, register_to_engin. destruct (new_object o) as [p o1] eqn:En. simpl.
  unfold new_object in En. destruct (alloc_object (ow o)) as [p' w]. injection En as <- <-. simpl.
  destruct (register_select_obj cur p' tid e w) as [[r w1]|] eqn:Er; [|done].
  destruct (register_result _ _ _ _ _ _ _ Er) as [(Ht & -> & ->)|([t Ht] & ->)]; rewrite Ht; simpl.
  - unfold delete_object. simpl. rewrite bool_decide_eq_true_2 by (apply elem_of_union_l; by apply elem_of_singleton). simpl.
    rewrite bool_decide_eq_false_2; [intros; by simplify_eq|]. intros [_ Hn]%elem_of_difference. by apply Hn, elem_of_singleton.
  - intros. simplify_eq. eexists. split; [done|]. simpl.
    split; [apply elem_of_union_l; by apply elem_of_singleton|apply union_subseteq_r].
Qed.

Lemma failed_create_deletes_twice_witness :
  grpc_client_create 7 engine_init (mk_objects ∅ (mk_world heap_init ∅)) = Some (deleted_twice 1).
Proof.
  destruct (grpc_client_create 7 engine_init (mk_objects ∅ (mk_world heap_init ∅))) as [x|] eqn:E; [|by vm_compute in E].
  pose proof (failed_create_deletes_twice 7 None engine_init (mk_objects ∅ (mk_world heap_init ∅)) x E) as H.
  vm_compute in H. by rewrite H.
Defined.
