(* ===== verification/EngineInit.v ===== *)
(** * Starting the engine: [init] and [on_thread_ready] in any order

    [init] creates the workers one by one while those it has started already
    report from their own OS threads.  A step is one iteration of the loop of
    [init], the start of the poller's thread, or one call of
    [on_thread_ready] (which holds [m_pool_lock]). *)

From stdpp Require Import sorting.
From S2P Require Import Prelude Reporter Chroutine Load Thread World Engine.
Local Open Scope Z_scope.

(** ** The transition system *)

(** [started]: the workers started so far, with their OS thread ids, in order;
    [pending]: the positions of those that have not reported yet. *)
Record starting := mk_starting {
  eng : engine_t;
  wd : world;
  started : list (nat * Z);
  pending : list nat
}.

(** The OS thread of worker [t]: [schedule] up to its call of the engine. *)
Definition worker_reports (fs : features) (t : nat) (tid : Z) (e : engine_t) (w : world) : option (engine_t * world) :=
  match on_thread t (λ s, flip_pair (schedule_begin tid s)) w with
  | Some (Some (index, tid'), w1) => on_thread_ready fs index tid' e w1
  | Some (None, w1) => Some (e, w1)
  | None => None
  end.

(** [epoll_tid] is the id the OS gives to the thread of the poller. *)
Section starting.
Context (fs : features) (init_pool_size : nat) (epoll_tid : Z).

Inductive init_step : starting → starting → Prop :=
  | step_create tid st e w :
      (length (started st) < init_pool_size)%nat → tid ∉ (started st).*2 → tid ≠ epoll_tid →
      init_iteration (Z.of_nat (length (started st))) (eng st) (wd st) = Some (e, w) →
      init_step st (mk_starting e w (started st ++ [(List.last (m_creating e) 0%nat, tid)])
                      (pending st ++ [length (started st)]))
  | step_report i t tid st e w :
      i ∈ pending st → started st !! i = Some (t, tid) →
      worker_reports fs t tid (eng st) (wd st) = Some (e, w) →
      init_step st (mk_starting e w (started st) (filter (λ j, j ≠ i) (pending st)))
  | step_epoll t st r w :
      m_epoll_thread (eng st) = Some t →
      on_thread t (λ s, flip_pair (schedule_begin epoll_tid s)) (wd st) = Some (r, w) →
      init_step st (mk_starting (eng st) w (started st) (pending st)).

(** The loop of [init] is over and [while (!m_init_over)] ends. *)
Definition init_returns (st : starting) : Prop :=
  length (started st) = init_pool_size ∧ m_init_over (eng st) = true.
End starting.

(** The state before the loop of [init]. *)
Definition starting_init (fs : features) : starting :=
  match init_begin fs engine_init (mk_world heap_init ∅) with
  | Some (e, w) => mk_starting e w [] []
  | None => mk_starting engine_init (mk_world heap_init ∅) [] []
  end.

(** ** What the parts keep *)

(** The part of a thread object the registration relies on. *)
Definition worker_of (x : chroutine_thread_t) : Z * thread_type_t := (m_creating_index x, m_type x).

Record same_workers (w w' : world) : Prop := {
  sw_next : (next_ptr (w_heap w) <= next_ptr (w_heap w'))%nat;
  sw_dom : ∀ t, is_Some (w_threads w' !! t) → is_Some (w_threads w !! t);
  sw_type : ∀ t x, w_threads w !! t = Some x → ∃ x', w_threads w' !! t = Some x' ∧ worker_of x' = worker_of x
}.

Definition same_ids (w w' : world) : Prop := ∀ t, thread_id_of t w' = thread_id_of t w.

Lemma same_workers_refl w : same_workers w w.
Proof. split; [done|done|]. intros t x Hx. by exists x. Qed.

Lemma same_workers_trans w1 w2 w3 : same_workers w1 w2 → same_workers w2 w3 → same_workers w1 w3.
Proof.
  intros [A1 A2 A3] [B1 B2 B3]. split; [lia|auto|]. intros t x Hx.
  destruct (A3 t x Hx) as (y & Hy & <-). destruct (B3 t y Hy) as (z & Hz & <-). by exists z.
Qed.

Lemma alloc_object_same w : same_workers w (snd (alloc_object w)).
Proof. split; simpl; [lia|done|]. intros t x Hx. by exists x. Qed.

Lemma on_thread_same {A} t (f : cell → A * cell) w a w' :
  (∀ s, next_ptr (hp (snd (f s))) = next_ptr (hp s) ∧ worker_of (th (snd (f s))) = worker_of (th s)) →
  on_thread t f w = Some (a, w') → same_workers w w'.
Proof.
  intros Hf H. unfold on_thread in H. destruct (w_threads w !! t) as [x|] eqn:Hx; [|done].
  destruct (Hf (mk_cell (w_heap w) x)) as [H1 H2]. destruct (f _) as [b s]. simplify_eq/=. split; simpl.
  - by rewrite H1.
  - intros t'. destruct (decide (t = t')) as [->|Hne]; [by eauto|by rewrite lookup_insert_ne].
  - intros t' y Hy. destruct (decide (t = t')) as [->|Hne]; [|exists y; by rewrite lookup_insert_ne].
    assert (y = x) as -> by congruence. exists (th s). split; [apply lookup_insert_eq|unfold worker_of in *; congruence].
Qed.

Lemma on_thread_ids {A} t (f : cell → A * cell) w a w' :
  (∀ s, m_std_thread_id (th (snd (f s))) = m_std_thread_id (th s)) → on_thread t f w = Some (a, w') → same_ids w w'.
Proof.
  intros Hf H. unfold on_thread in H. destruct (w_threads w !! t) as [x|] eqn:Hx; [|done].
  pose proof (Hf (mk_cell (w_heap w) x)) as H1. destruct (f _) as [b s]. simplify_eq/=. intros t'. unfold thread_id_of. simpl.
  destruct (decide (t = t')) as [->|Hne]; [by rewrite lookup_insert_eq, Hx, H1|by rewrite lookup_insert_ne].
Qed.

Lemma register_same cur p tid e w r w' :
  register_select_obj cur p tid e w = Some (r, w') → same_workers w w' ∧ same_ids w w'.
Proof.
  unfold register_select_obj, with_thread.
  destruct (register_thread _ _ _ _) as [t|]; [|intros; simplify_eq; split; [apply same_workers_refl|done]].
  intros H. split; revert H; [apply on_thread_same|apply on_thread_ids]; intros s; unfold register_selector; simpl; by case_bool_decide.
Qed.

(** What the creation of stubs and poller leaves alone. *)
Definition same_engine (e e' : engine_t) : Prop :=
  m_pool e' = m_pool e ∧ m_creating e' = m_creating e ∧ m_init_over e' = m_init_over e ∧
  m_main_thread e' = m_main_thread e ∧ m_epoll_thread e' = m_epoll_thread e.

Lemma create_stubs_same cur pool e w e' w' :
  create_stubs cur pool e w = Some (e', w') → same_workers w w' ∧ same_ids w w' ∧ same_engine e e'.
Proof.
  revert e w. induction pool as [|[tid t] pool IH]; intros e w H; simpl in H;
    [simplify_eq; split_and!; [apply same_workers_refl|done..]|].
  unfold create_stub in H. pose proof (alloc_object_same w) as Ha. destruct (alloc_object w) as [p w1] eqn:El. simpl in Ha.
  destruct (register_select_obj cur p (Some tid) e w1) as [[r w2]|] eqn:Hr; [|done]. case_if_in H; [|done].
  apply register_same in Hr as [Hr Hid]. apply IH in H as (H1 & H2 & H3). split_and!; [|by injection El as _ <-; intros t'; rewrite H2, Hid|exact H3].
  eapply same_workers_trans; [|exact H1]. by eapply same_workers_trans.
Qed.

Lemma create_epoll_same fs cur e w e' w' :
  create_epoll fs cur e w = Some (e', w') → same_workers w w' ∧ same_ids w w' ∧ same_engine e e'.
Proof.
  unfold create_epoll. destruct (ENABLE_EPOLL fs); [|intros; simplify_eq; split_and!; [apply same_workers_refl|done..]].
  destruct (epoll_thread_id e w) as [tid|]; [|done]. intros H. pose proof (alloc_object_same w) as Ha.
  destruct (alloc_object w) as [p w1] eqn:El. simpl in Ha.
  destruct (register_select_obj cur p (Some tid) e w1) as [[r w2]|] eqn:Hr; [|done]. case_if_in H; simplify_eq.
  apply register_same in Hr as [Hr Hid]. split_and!; [by eapply same_workers_trans|injection El as _ <-; exact Hid|done].
Qed.

(** [on_thread_ready] registers its thread, and ends the initialisation when
    all the threads created so far are registered. *)
Lemma on_thread_ready_effect fs i t tid e w e' w' :
  Z.of_nat (length (m_creating e)) < 2 ^ 64 → m_creating e !! i = Some t →
  on_thread_ready fs (Z.of_nat i) tid e w = Some (e', w') →
  same_workers w w' ∧ m_pool e' = <[tid := t]> (m_pool e) ∧ m_creating e' = m_creating e ∧
  m_init_over e' = (m_init_over e || (size (<[tid := t]> (m_pool e)) =? length (m_creating e))%nat) ∧
  m_main_thread e' = m_main_thread e ∧ m_epoll_thread e' = m_epoll_thread e ∧ same_ids w w'.
Proof.
  intros Hlen Ht. unfold on_thread_ready. pose proof (lookup_lt_Some _ _ _ Ht) as Hi.
  unfold to_size_t. rewrite Z.mod_small by lia. rewrite Z.gtb_ltb.
  destruct (Z.ltb_spec (Z.of_nat (length (m_creating e)) - 1) (Z.of_nat i)); [lia|].
  rewrite Nat2Z.id, Ht. simpl. case_if.
  2: { intros. simplify_eq. simpl. split_and!; [apply same_workers_refl|done|done|by rewrite orb_false_r|done|done|done]. }
  rewrite orb_true_r. set (e2 := set_m_init_over true _). intros He.
  destruct (if ENABLE_HTTP_PLUGIN fs then _ else _) as [[e3 w1]|] eqn:Hc; [|done].
  assert (Hstub : same_workers w w1 ∧ same_ids w w1 ∧ same_engine e2 e3).
  { destruct (ENABLE_HTTP_PLUGIN fs); [by apply create_stubs_same in Hc|]. simplify_eq. split_and!; [apply same_workers_refl|done..]. }
  destruct Hstub as (A1 & A2 & A3 & A4 & A5 & A6 & A7). apply create_epoll_same in He as (B1 & B2 & B3 & B4 & B5 & B6 & B7).
  subst e2. simpl in *. split_and!; [by eapply same_workers_trans|congruence..|]. intros t'. by rewrite B2, A2.
Qed.

(** ** The invariant *)

(** The thread of the poller is nobody's worker and has no worker's id. *)
Definition epoll_apart (epoll_tid : Z) (st : starting) : Prop :=
  (epoll_tid ∉ (started st).*2) ∧
  match m_epoll_thread (eng st) with
  | None => True
  | Some t => (t ∉ (started st).*1) ∧ is_Some (w_threads (wd st) !! t) ∧
      (∀ tid, thread_id_of t (wd st) = Some tid → tid = epoll_tid)
  end.

Record init_ok (epoll_tid : Z) (st : starting) : Prop := {
  io_creating : m_creating (eng st) = (started st).*1;
  io_ids : NoDup (started st).*2;
  io_pending : NoDup (pending st) ∧ ∀ i, i ∈ pending st → (i < length (started st))%nat;
  io_pool : ∀ tid t, m_pool (eng st) !! tid = Some t ↔ ∃ i, started st !! i = Some (t, tid) ∧ i ∉ pending st;
  io_size : (size (m_pool (eng st)) + length (pending st) = length (started st))%nat;
  io_over : pending st = [] → started st ≠ [] → m_init_over (eng st) = true;
  io_workers : ∀ i t tid, started st !! i = Some (t, tid) →
    ∃ x, w_threads (wd st) !! t = Some x ∧ worker_of x = (Z.of_nat i, worker);
  io_fresh : ∀ t, is_Some (w_threads (wd st) !! t) → (t < next_ptr (w_heap (wd st)))%nat;
  io_main : m_main_thread (eng st) = None;
  io_epoll : epoll_apart epoll_tid st
}.

Lemma init_iteration_effect i e w e' w' :
  init_iteration i e w = Some (e', w') →
  let t := next_ptr (w_heap w) in
  e' = set_m_creating (m_creating e ++ [t]) e ∧ next_ptr (w_heap w') = S t ∧
  (∃ x, w_threads w' !! t = Some x ∧ worker_of x = (i, worker)) ∧
  ∀ t', t' ≠ t → w_threads w' !! t' = w_threads w !! t'.
Proof.
  unfold init_iteration, add_thread, on_thread. simpl. rewrite lookup_insert_eq. simpl. intros H. simplify_eq. simpl.
  split_and!; [done|done| |].
  - eexists. split; [apply lookup_insert_eq|done].
  - intros t' Hne. rewrite !lookup_insert_ne by done. done.
Qed.

Lemma started_index ep st i j t tid tid' :
  init_ok ep st → started st !! i = Some (t, tid) → started st !! j = Some (t, tid') → i = j.
Proof.
  intros Hok Hi Hj. destruct (io_workers _ _ Hok _ _ _ Hi) as (x & Hx & Hwx).
  destruct (io_workers _ _ Hok _ _ _ Hj) as (y & Hy & Hwy).
  assert (x = y) as -> by congruence. rewrite Hwx in Hwy. injection Hwy as Hij. lia.
Qed.

Lemma init_create_ok ep st tid e w :
  init_ok ep st → tid ∉ (started st).*2 → tid ≠ ep →
  init_iteration (Z.of_nat (length (started st))) (eng st) (wd st) = Some (e, w) →
  init_ok ep (mk_starting e w (started st ++ [(List.last (m_creating e) 0%nat, tid)]) (pending st ++ [length (started st)])).
Proof.
  intros Hok Htid Hep Hit. destruct (init_iteration_effect _ _ _ _ _ Hit) as (-> & Hn & (x & Hx & Hwx) & Hoth). clear Hit.
  set (t := next_ptr (w_heap (wd st))) in *. simpl. rewrite last_last.
  destruct Hok as [Hcr Hids [Hpn Hpl] Hpool Hsize Hover Hwk Hfresh Hmain [Hep1 Hep2]]. split; simpl.
  - by rewrite Hcr, fmap_app.
  - rewrite fmap_app. by apply NoDup_snoc.
  - split; [apply NoDup_snoc; [done|]; intros Hin; apply Hpl in Hin; lia|].
    intros i. rewrite elem_of_app, list_elem_of_singleton, length_app. simpl. intros [Hi| ->]; [apply Hpl in Hi|]; lia.
  - intros tid' t'. rewrite Hpool. split; intros (i & Hi & Hnp).
    + exists i. pose proof (lookup_lt_Some _ _ _ Hi). rewrite lookup_app_l by done. split; [done|].
      rewrite elem_of_app, list_elem_of_singleton. intros [?| ->]; [done|lia].
    + apply not_elem_of_app in Hnp as [Hnp Hne]. rewrite list_elem_of_singleton in Hne. exists i. split; [|done].
      apply lookup_app_Some in Hi as [?|[Hlen Hi]]; [done|]. apply list_lookup_singleton_Some in Hi as [Hi _]. lia.
  - rewrite !length_app. simpl. lia.
  - intros Hp. by destruct (pending st).
  - intros i t' tid' [Hi|[Hlen Hi]]%lookup_app_Some.
    + destruct (Hwk _ _ _ Hi) as (y & Hy & ?). exists y. split; [|done]. rewrite Hoth; [done|]. intros ->.
      assert (t < t)%nat; [|lia]. apply Hfresh. by eexists.
    + apply list_lookup_singleton_Some in Hi as [Hi Heq]. simplify_eq.
      exists x. split; [done|]. rewrite Hwx. f_equal. lia.
  - intros t' Ht'. rewrite Hn. destruct (decide (t' = t)) as [->|Hne]; [lia|]. rewrite Hoth in Ht' by done.
    apply Hfresh in Ht'. fold t in Ht'. lia.
  - done.
  - split; simpl.
    + rewrite fmap_app, elem_of_app. intros [?|?%list_elem_of_singleton]; [done|]. by apply Hep.
    + destruct (m_epoll_thread (eng st)) as [te|]; [|done]. destruct Hep2 as (H1 & H2 & H3).
      assert (Hne : te ≠ t) by (intros ->; apply Hfresh in H2; fold t in H2; lia).
      split_and!; [|by rewrite Hoth|].
      * rewrite fmap_app, elem_of_app. by intros [?|?%list_elem_of_singleton].
      * unfold thread_id_of in *. by rewrite Hoth.
Qed.

Lemma NoDup_fst_eq {A B} (l : list (A * B)) i j a b b' :
  NoDup l.*2 → l !! i = Some (a, b) → l !! j = Some (b', b) → i = j.
Proof.
  intros Hnd Hi Hj. apply (NoDup_lookup l.*2 i j b Hnd); by rewrite list_lookup_fmap, ?Hi, ?Hj.
Qed.

Lemma length_filter_ne (l : list nat) i : NoDup l → i ∈ l → S (length (filter (λ j, j ≠ i) l)) = length l.
Proof.
  induction l as [|j l IH]; intros Hnd Hi; [by apply elem_of_nil in Hi|]. apply NoDup_cons in Hnd as [Hj Hnd].
  rewrite filter_cons. destruct (decide (j = i)) as [->|Hne].
  - rewrite decide_False by auto. rewrite filter_keeps_all; [done|]. intros x Hx ->. done.
  - rewrite decide_True by done. simpl. rewrite IH; [done|done|]. apply elem_of_cons in Hi as [->|]; done.
Qed.

Lemma init_report_ok fs ep st i t tid e w :
  Z.of_nat (length (started st)) < 2 ^ 64 →
  init_ok ep st → i ∈ pending st → started st !! i = Some (t, tid) → worker_reports fs t tid (eng st) (wd st) = Some (e, w) →
  init_ok ep (mk_starting e w (started st) (filter (λ j, j ≠ i) (pending st))).
Proof.
  intros Hlen Hok Hip Hi Hr. unfold worker_reports in Hr.
  destruct (on_thread t (λ s, flip_pair (schedule_begin tid s)) (wd st)) as [[r w1]|] eqn:Hon; [|done].
  destruct (io_workers _ _ Hok _ _ _ Hi) as (x & Hx & Hwx).
  pose proof Hon as Hs1. apply on_thread_same in Hs1; [|intros s; split; reflexivity].
  assert (r = Some (Z.of_nat i, tid)) as ->.
  { rewrite (on_thread_at _ _ _ x Hx) in Hon. unfold schedule_begin in Hon. simpl in Hon. injection Hwx as Hidx Hty.
    rewrite Hty, bool_decide_eq_true_2 in Hon by done. injection Hon as <- _. by rewrite Hidx. }
  assert (Hci : m_creating (eng st) !! i = Some t) by (rewrite (io_creating _ _ Hok), list_lookup_fmap, Hi; done).
  assert (Hcl : length (m_creating (eng st)) = length (started st)) by (rewrite (io_creating _ _ Hok); by rewrite length_fmap).
  destruct (on_thread_ready_effect fs i t tid (eng st) w1 e w) as (Hs2 & Hpool' & Hcr' & Hov' & Hm' & Hep' & Hids2); [by rewrite Hcl|done|done|].
  pose proof (same_workers_trans _ _ _ Hs1 Hs2) as [Sn Sd St]. pose proof (io_pending _ _ Hok) as [Hpn Hpl].
  assert (Hfreshid : m_pool (eng st) !! tid = None).
  { destruct (m_pool (eng st) !! tid) as [t'|] eqn:E; [|done]. apply (io_pool _ _ Hok) in E as (j & Hj & Hnj).
    exfalso. apply Hnj. by rewrite <- (NoDup_fst_eq _ i j _ _ _ (io_ids _ _ Hok) Hi Hj). }
  assert (Hsz : (size (<[tid:=t]> (m_pool (eng st))) + length (filter (λ j, j ≠ i) (pending st)) = length (started st))%nat).
  { rewrite map_size_insert_None by done. pose proof (length_filter_ne _ _ Hpn Hip). pose proof (io_size _ _ Hok). lia. }
  split; simpl.
  - rewrite Hcr'. apply (io_creating _ _ Hok).
  - apply (io_ids _ _ Hok).
  - split; [by apply NoDup_filter|]. intros j [_ Hj]%list_elem_of_filter. by apply Hpl.
  - intros tid' t'. rewrite Hpool', lookup_insert_Some, (io_pool _ _ Hok). split.
    + intros [[<- <-]|[Hne (j & Hj & Hnj)]]; [exists i|exists j]; (split; [done|]); rewrite list_elem_of_filter; tauto.
    + intros (j & Hj & Hnj). rewrite list_elem_of_filter in Hnj. destruct (decide (j = i)) as [->|Hne]; [left; by simplify_eq|].
      right. split; [|exists j; tauto]. intros <-. apply Hne. symmetry. by apply (NoDup_fst_eq _ i j _ _ _ (io_ids _ _ Hok) Hi Hj).
  - by rewrite Hpool'.
  - intros Hp _. rewrite Hov', Hcl. rewrite Hp in Hsz. simpl in Hsz. rewrite Nat.add_0_r in Hsz. rewrite Hsz, Nat.eqb_refl.
    apply orb_true_r.
  - intros j t' tid' Hj. destruct (io_workers _ _ Hok _ _ _ Hj) as (y & Hy & <-). destruct (St t' y Hy) as (z & Hz & ?). by exists z.
  - intros t' Ht'. apply Sd, (io_fresh _ _ Hok) in Ht'. lia.
  - rewrite Hm'. apply (io_main _ _ Hok).
  - destruct (io_epoll _ _ Hok) as [He1 He2]. split; [done|]. simpl. rewrite Hep'.
    destruct (m_epoll_thread (eng st)) as [te|]; [|done]. destruct He2 as (H1 & [y Hy] & H3). split_and!; [done| |].
    + destruct (St te y Hy) as (z & Hz & _). by exists z.
    + intros id. rewrite Hids2. unfold thread_id_of. rewrite (on_thread_frame _ _ _ _ _ te Hon); [by apply H3|].
      intros ->. apply H1. apply list_elem_of_fmap. exists (t, tid). split; [done|]. by apply list_elem_of_lookup_2 in Hi.
Qed.

Lemma init_epoll_ok ep st t r w :
  init_ok ep st → m_epoll_thread (eng st) = Some t →
  on_thread t (λ s, flip_pair (schedule_begin ep s)) (wd st) = Some (r, w) →
  init_ok ep (mk_starting (eng st) w (started st) (pending st)).
Proof.
  intros Hok Ht Hon. pose proof Hon as Hs. apply on_thread_same in Hs as [Sn Sd St]; [|intros s; split; reflexivity].
  destruct Hok as [Hcr Hids Hpend Hpool Hsize Hover Hwk Hfresh Hmain [Hep1 Hep2]]. split; simpl; try done.
  - intros i t' tid Hi. destruct (Hwk i t' tid Hi) as (y & Hy & <-). destruct (St t' y Hy) as (z & Hz & ?). by exists z.
  - intros t' Ht'. apply Sd, Hfresh in Ht'. lia.
  - split; [done|]. simpl. rewrite Ht in *. destruct Hep2 as (H1 & [y Hy] & H3). split_and!; [done| |].
    + destruct (St t y Hy) as (z & Hz & _). by exists z.
    + intros id. rewrite (on_thread_at _ _ _ y Hy) in Hon. injection Hon as _ <-. unfold thread_id_of. simpl.
      rewrite lookup_insert_eq. simpl. congruence.
Qed.

Lemma starting_init_ok fs ep : init_ok ep (starting_init fs) ∧ started (starting_init fs) = [].
Proof.
  unfold starting_init, init_begin. simpl. destruct (ENABLE_EPOLL fs); simpl.
  - unfold on_thread. simpl. rewrite lookup_singleton_eq || rewrite lookup_insert_eq. simpl. split; [|done]. split; simpl; try done.
    + constructor.
    + split; [constructor|]. intros i Hi. by apply elem_of_nil in Hi.
    + intros tid t. rewrite lookup_empty. split; [done|]. by intros (i & Hi & _).
    + intros t [x Hx]. apply lookup_insert_Some in Hx as [[<- _]|[_ Hx]]; [lia|].
      apply lookup_insert_Some in Hx as [[<- _]|[_ Hx]]; [lia|]. by rewrite lookup_empty in Hx.
    + split; [by intros ?%elem_of_nil|]. simpl. split_and!; [by intros ?%elem_of_nil|rewrite lookup_insert_eq; by eexists|].
      intros tid. unfold thread_id_of. simpl. by rewrite lookup_insert_eq.
  - split; [|done]. split; simpl; try done.
    + constructor.
    + split; [constructor|]. intros i Hi. by apply elem_of_nil in Hi.
    + intros tid t. rewrite lookup_empty. split; [done|]. by intros (i & Hi & _).
    + intros t [x Hx]. by rewrite lookup_empty in Hx.
    + split; [by intros ?%elem_of_nil|done].
Qed.

Lemma init_reachable_ok fs n ep st :
  Z.of_nat n < 2 ^ 64 → rtc (init_step fs n ep) (starting_init fs) st → init_ok ep st ∧ (length (started st) <= n)%nat.
Proof.
  intros Hn Hr. destruct (starting_init_ok fs ep) as [H0 H1].
  apply (rtc_invariant (init_step fs n ep) (λ st, init_ok ep st ∧ (length (started st) <= n)%nat)) with (starting_init fs); [|done|].
  - intros x y [Hx Hlen] Hs. destruct Hs as [tid st' e w Hlt Htid Hne Hit|i t tid st' e w Hip Hi Hrep|t st' r w Ht Hon].
    + split; [by apply init_create_ok|]. simpl. rewrite length_app. simpl. lia.
    + split; [|done]. eapply init_report_ok; [lia|done..].
    + split; [|done]. by eapply init_epoll_ok.
  - split; [done|]. rewrite H1. simpl. lia.
Qed.

(** ** Concrete runs *)

Inductive init_event := ie_create (tid : Z) | ie_report (i : nat) | ie_epoll.

Definition run_init_event (fs : features) (n : nat) (ep : Z) (ev : init_event) (st : starting) : option starting :=
  match ev with
  | ie_create tid =>
    if (length (started st) <? n)%nat && bool_decide (tid ∉ (started st).*2) && negb (tid =? ep) then
      match init_iteration (Z.of_nat (length (started st))) (eng st) (wd st) with
      | Some (e, w) => Some (mk_starting e w (started st ++ [(List.last (m_creating e) 0%nat, tid)]) (pending st ++ [length (started st)]))
      | None => None
      end
    else None
  | ie_report i =>
    match started st !! i with
    | Some (t, tid) =>
      if bool_decide (i ∈ pending st) then
        match worker_reports fs t tid (eng st) (wd st) with
        | Some (e, w) => Some (mk_starting e w (started st) (filter (λ j, j ≠ i) (pending st)))
        | None => None
        end
      else None
    | None => None
    end
  | ie_epoll =>
    match m_epoll_thread (eng st) with
    | Some t =>
      match on_thread t (λ s, flip_pair (schedule_begin ep s)) (wd st) with
      | Some (_, w) => Some (mk_starting (eng st) w (started st) (pending st))
      | None => None
      end
    | None => None
    end
  end.

Fixpoint run_init (fs : features) (n : nat) (ep : Z) (evs : list init_event) (st : starting) : option starting :=
  match evs with
  | [] => Some st
  | ev :: evs' => match run_init_event fs n ep ev st with Some st' => run_init fs n ep evs' st' | None => None end
  end.

Lemma run_init_steps fs n ep evs st st' : run_init fs n ep evs st = Some st' → rtc (init_step fs n ep) st st'.
Proof.
  revert st. induction evs as [|ev evs IH]; intros st H; simpl in H; [by simplify_eq|].
  destruct (run_init_event fs n ep ev st) as [st1|] eqn:E; [|done]. eapply rtc_l; [|by apply IH].
  destruct ev as [tid|i|]; simpl in E.
  - case_if_in E; [|done]. bool_to_prop. destruct (init_iteration _ _ _) as [[e w]|] eqn:Hit; simplify_eq.
    apply step_create; [by apply Nat.ltb_lt|done..].
  - destruct (started st !! i) as [[t tid]|] eqn:Hi; [|done]. case_bool_decide; [|done].
    destruct (worker_reports fs t tid (eng st) (wd st)) as [[e w]|] eqn:Hr; simplify_eq. by eapply step_report.
  - destruct (m_epoll_thread (eng st)) as [t|] eqn:Ht; [|done].
    destruct (on_thread t _ (wd st)) as [[r w]|] eqn:Hon; simplify_eq. by eapply step_epoll.
Qed.

(** The state a run of [init] ends in. *)
Definition init_result (fs : features) (n : nat) (ep : Z) (evs : list init_event) : starting :=
  default (starting_init fs) (run_init fs n ep evs (starting_init fs)).

Definition runs_init (fs : features) (n : nat) (ep : Z) (evs : list init_event) : bool :=
  match run_init fs n ep evs (starting_init fs) with Some _ => true | None => false end.

Lemma init_result_reachable fs n ep evs :
  runs_init fs n ep evs = true → rtc (init_step fs n ep) (starting_init fs) (init_result fs n ep evs).
Proof.
  unfold runs_init, init_result. destruct (run_init _ _ _ _ _) as [st|] eqn:E; [|done]. intros _. by eapply run_init_steps.
Qed.

(** The thread object the engine finds for an OS thread after [init]. *)
Definition found_after_init (tid : Z) (st : starting) : option nat :=
  let '(e, w) := init_end (eng st) (wd st) in get_current_thread tid e w.

(** The thread of the poller is not taken for a worker. *)
Lemma epoll_not_found ep st t tid i :
  init_ok ep st → started st !! i = Some (t, tid) →
  let '(e, w) := init_end (eng st) (wd st) in is_thread (m_epoll_thread e) (Some tid) w = None.
Proof.
  intros Hok Hi. unfold init_end, add_thread. simpl. destruct (io_epoll _ _ Hok) as [H1 H2]. unfold is_thread.
  destruct (m_epoll_thread (eng st)) as [te|]; [|done]. destruct H2 as (Hn & Hs & Hid). rewrite bool_decide_eq_false_2; [done|].
  assert (Hne : next_ptr (w_heap (wd st)) ≠ te) by (pose proof (io_fresh _ _ Hok te Hs); lia).
  unfold thread_id_of. simpl. rewrite lookup_insert_ne by done. intros Ht. apply Hid in Ht. subst tid. apply H1.
  apply list_elem_of_fmap. exists (t, ep). split; [done|]. by apply list_elem_of_lookup_2 in Hi.
Qed.

(** ** Properties *)

(** C10: starting the workers.  In whatever order the OS threads of the workers
    report, once [init] has created [init_pool_size] workers and each of them
    has reported, [init] returns, the pool has exactly one entry per worker,
    and each worker, asked for the current thread from its own OS thread,
    finds its own thread object (so that no two share one). *)
Theorem init_registers_every_worker fs n ep st :
  (0 < n)%nat → Z.of_nat n < 2 ^ 64 → rtc (init_step fs n ep) (starting_init fs) st →
  length (started st) = n → pending st = [] →
  init_returns n st ∧ size (m_pool (eng st)) = n ∧
  (∀ i t tid, started st !! i = Some (t, tid) → found_after_init tid st = Some t) ∧
  (∀ i j t t' tid tid', started st !! i = Some (t, tid) → started st !! j = Some (t', tid') →
     i ≠ j → t ≠ t' ∧ tid ≠ tid').
Proof.
  intros Hpos Hn Hr Hlen Hp. destruct (init_reachable_ok fs n ep st Hn Hr) as [Hok _]. split_and!.
  - split; [done|]. apply (io_over _ _ Hok Hp). intros E. rewrite E in Hlen. simpl in Hlen. lia.
  - pose proof (io_size _ _ Hok) as Hs. rewrite Hp in Hs. simpl in Hs. lia.
  - intros i t tid Hi. unfold found_after_init, init_end, get_current_thread, get_thread_by_id. simpl.
    rewrite (io_over _ _ Hok Hp) by (intros E; by rewrite E in Hi). simpl. rewrite bool_decide_eq_false_2 by (unfold thread_id_of; simpl; by rewrite lookup_insert_eq).
    pose proof (epoll_not_found ep st t tid i Hok Hi) as He. unfold init_end, add_thread in He. simpl in He. rewrite He.
    apply (io_pool _ _ Hok). exists i. split; [done|]. rewrite Hp. intros ?%elem_of_nil. done.
  - intros i j t t' tid tid' Hi Hj Hne. split; intros <-; apply Hne.
    + by apply (started_index ep st i j t tid tid').
    + by apply (NoDup_fst_eq _ i j _ _ _ (io_ids _ _ Hok) Hi Hj).
Qed.

Lemma init_registers_every_worker_witness :
  let st := init_result (mk_features true true) 2 300 [ie_create 100; ie_create 200; ie_report 1; ie_epoll; ie_report 0] in
  rtc (init_step (mk_features true true) 2 300) (starting_init (mk_features true true)) st ∧ init_returns 2 st ∧
  found_after_init 100 st = Some 2%nat ∧ found_after_init 200 st = Some 3%nat ∧ is_Some (m_epoll (eng st)).
Proof.
  intros st. assert (Hr : rtc (init_step (mk_features true true) 2 300) (starting_init (mk_features true true)) st)
    by (apply init_result_reachable; by vm_compute).
  destruct (init_registers_every_worker (mk_features true true) 2 300 st ltac:(lia) ltac:(lia) Hr ltac:(by vm_compute) ltac:(by vm_compute))
    as (H1 & _ & H2 & _).
  split; [exact Hr|]. split; [exact H1|]. split; [apply (H2 0%nat 2%nat 100); by vm_compute|].
  split; [apply (H2 1%nat 3%nat 200); by vm_compute|]. exists 6%nat. vm_compute. reflexivity.
Defined.

(** [init] can return too early.  The number of registered workers is
    compared with the number created so far, not with [init_pool_size]: when
    the first worker reports before the second is created, the engine counts
    itself initialised, [init] returns without waiting for the second, and an
    API call made on the thread of the second finds no thread object. *)
Theorem init_may_return_early :
  let fs := mk_features false false in
  ∃ st tid, rtc (init_step fs 2 300) (starting_init fs) st ∧ init_returns 2 st ∧
    tid ∈ (started st).*2 ∧ found_after_init tid st = None.
Proof.
  exists (init_result (mk_features false false) 2 300 [ie_create 100; ie_report 0; ie_create 200]), 200.
  split_and!; [apply init_result_reachable; by vm_compute|by vm_compute|by_compute|by vm_compute].
Qed.

(** The last worker creates the poller, which asserts that the id of its thread
    is known; that thread writes it when it runs for the first time.  If it has
    not run yet, the program is aborted. *)
Lemma init_may_abort :
  let fs := mk_features false true in
  ∃ st t tid, rtc (init_step fs 1 300) (starting_init fs) st ∧ started st !! 0%nat = Some (t, tid) ∧
    0%nat ∈ pending st ∧ worker_reports fs t tid (eng st) (wd st) = None.
Proof.
  exists (init_result (mk_features false true) 1 300 [ie_create 100]), 2%nat, 100.
  split_and!; [apply init_result_reachable; by vm_compute|by vm_compute|by_compute|by vm_compute].
Qed.
