(* ===== verification/EngineProps.v ===== *)
(** * Dispatching coroutines and watching the threads *)

From stdpp Require Import sorting.
From S2P Require Import Prelude Reporter Chroutine Load Thread World ThreadInv Sched Run Safety Migrate.
From S2P Require Import Engine EngineInit.
Local Open Scope Z_scope.

(** ** Dispatching *)

(** The threads that [k] successive calls of [get_lightest_thread] return. *)
Fixpoint dispatched (k : nat) (e : engine_t) : list (option nat) * engine_t :=
  match k with
  | O => ([], e)
  | S k' =>
    let '(t, e1) := get_lightest_thread e in
    let '(ts, e2) := dispatched k' e1 in (t :: ts, e2)
  end.

Lemma get_lightest_thread_eq e :
  m_init_over e = true → m_creating e ≠ [] → 0 <= m_dispatch_seed e <= INT_MAX →
  get_lightest_thread e =
    (m_creating e !! Z.to_nat (m_dispatch_seed e mod Z.of_nat (length (m_creating e))),
     set_m_dispatch_seed (m_dispatch_seed e + 1) e).
Proof.
  intros Hi Hc Hs. unfold get_lightest_thread. rewrite Hi. simpl. destruct (m_creating e) as [|t l] eqn:E; [done|].
  unfold to_size_t, INT_MAX in *. by rewrite (Z.mod_small (m_dispatch_seed e) (2 ^ 64)) by lia.
Qed.

Lemma create_chroutine_refused f a s :
  thread_state_code (m_state (th s)) > thread_state_code thread_state_t_running →
  Thread.create_chroutine f a s = (INVALID_ID, s).
Proof. intros H. unfold Thread.create_chroutine. rewrite Z.gtb_ltb. destruct (Z.ltb_spec (thread_state_code thread_state_t_running) (thread_state_code (m_state (th s)))); [done|lia]. Qed.

(** Dispatching is round robin.  As long as the counter does not overflow
    [int], the [i]-th of [k] calls of [get_lightest_thread] returns the worker
    number [(seed + i) mod n], so [n] calls in a row return each worker once;
    the loads and the states of the threads play no part in it, so that
    [create_chroutine] fails when it is the turn of a thread that is blocked
    or has finished. *)
Theorem dispatch_round_robin e k :
  m_init_over e = true → m_creating e ≠ [] → 0 <= m_dispatch_seed e → m_dispatch_seed e + Z.of_nat k <= INT_MAX →
  let n := Z.of_nat (length (m_creating e)) in
  (∀ i, (i < k)%nat → fst (dispatched k e) !! i =
     Some (m_creating e !! Z.to_nat ((m_dispatch_seed e + Z.of_nat i) mod n))) ∧
  snd (dispatched k e) = set_m_dispatch_seed (m_dispatch_seed e + Z.of_nat k) e ∧
  (∀ f a w t x, m_creating e !! Z.to_nat (m_dispatch_seed e mod n) = Some t → w_threads w !! t = Some x →
     thread_state_code (m_state x) > thread_state_code thread_state_t_running →
     ∃ w', create_chroutine f a e w = Some (INVALID_ID, set_m_dispatch_seed (m_dispatch_seed e + 1) e, w') ∧ w_heap w' = w_heap w).
Proof.
  intros Hi Hc H0 Hk n. split; [|split].
  - revert e Hi Hc H0 Hk n. induction k as [|k IH]; intros e Hi Hc H0 Hk n i Hik; [lia|]. simpl.
    rewrite get_lightest_thread_eq by (done || lia).
    specialize (IH (set_m_dispatch_seed (m_dispatch_seed e + 1) e) Hi Hc ltac:(simpl; lia) ltac:(simpl; lia)). simpl in IH.
    destruct (dispatched k _) as [ts e2]. destruct i as [|i]; simpl; [by rewrite Z.add_0_r|].
    simpl in IH. rewrite IH by lia. do 4 f_equal. lia.
  - revert e Hi Hc H0 Hk n. induction k as [|k IH]; intros e Hi Hc H0 Hk n; simpl.
    + rewrite Z.add_0_r. by destruct e.
    + rewrite get_lightest_thread_eq by (done || lia).
      specialize (IH (set_m_dispatch_seed (m_dispatch_seed e + 1) e) Hi Hc ltac:(simpl; lia) ltac:(simpl; lia)). simpl in IH.
      destruct (dispatched k _) as [ts e2]. simpl in *. rewrite IH. unfold set_m_dispatch_seed. simpl. f_equal. lia.
  - intros f a w t x Ht Hx Hst. unfold create_chroutine. rewrite get_lightest_thread_eq by (done || lia).
    fold n. rewrite Ht. simpl. rewrite (on_thread_at _ _ _ x Hx), create_chroutine_refused by done. simpl. by eexists.
Qed.

Definition two_workers : engine_t :=
  set_m_init_over true (set_m_creating [1; 2]%nat engine_init).

Lemma dispatch_round_robin_witness :
  fst (dispatched 3 two_workers) = [Some 1; Some 2; Some 1]%nat ∧
  snd (dispatched 3 two_workers) = set_m_dispatch_seed 3 two_workers.
Proof.
  split; [reflexivity|].
  destruct (dispatch_round_robin two_workers 3 eq_refl ltac:(done) ltac:(by vm_compute) ltac:(by vm_compute)) as (_ & H & _). exact H.
Defined.

(** ** Watching *)

Definition overdue (now : Z) (x : chroutine_thread_t) : bool :=
  negb (m_entry_time x =? 0) && (now >? MAX_ENTRY_CALL_TIME_MS + m_entry_time x).

(** The verdict on one thread. *)
Definition is_bad (now : Z) (w : world) (t : nat) : Prop :=
  ∃ x, w_threads w !! t = Some x ∧ overdue now x = true ∧ m_state x = thread_state_t_running.
Definition is_good (now : Z) (w : world) (t : nat) : Prop :=
  ∃ x, w_threads w !! t = Some x ∧ overdue now x = false ∧ m_state x ≠ thread_state_t_blocking.
Definition recovers (now : Z) (w : world) (t : nat) : Prop :=
  ∃ x, w_threads w !! t = Some x ∧ overdue now x = false ∧ m_state x = thread_state_t_blocking.

Definition state_of (t : nat) (w : world) : option thread_state_t := m_state <$> w_threads w !! t.

Lemma classify_spec now pool w goods bads w' :
  NoDup pool.*2 → classify now pool w = (goods, bads, w') →
  w_heap w' = w_heap w ∧
  (∀ t, t ∈ goods ↔ t ∈ pool.*2 ∧ is_good now w t) ∧
  (∀ t, t ∈ bads ↔ t ∈ pool.*2 ∧ is_bad now w t) ∧
  (∀ t, t ∈ pool.*2 → recovers now w t →
     w_threads w' !! t = set_thread_state thread_state_t_running <$> w_threads w !! t) ∧
  (∀ t, ¬ (t ∈ pool.*2 ∧ recovers now w t) → w_threads w' !! t = w_threads w !! t).
Proof.
  revert w goods bads w'. induction pool as [|[tid t] pool IH]; intros w goods bads w' Hnd Hc.
  { simpl in Hc. simplify_eq. split_and!; try done; intros t; try (split; [by intros ?%elem_of_nil|by intros [?%elem_of_nil _]]). by intros ?%elem_of_nil. }
  rewrite fmap_cons in Hnd. apply NoDup_cons in Hnd as [Ht Hnd]. simpl in Hc, Ht. unfold thread_at in Hc. change ((tid, t) :: pool).*2 with (t :: pool.*2).
  destruct (w_threads w !! t) as [x|] eqn:Hx.
  2: { destruct (IH _ _ _ _ Hnd Hc) as (H1 & H2 & H3 & H4 & H5). split_and!; [done|..].
    - intros t'. rewrite H2, elem_of_cons. split; [tauto|]. intros [[->|?] Hg]; [destruct Hg as (y & Hy & _); congruence|done].
    - intros t'. rewrite H3, elem_of_cons. split; [tauto|]. intros [[->|?] Hg]; [destruct Hg as (y & Hy & _); congruence|done].
    - intros t' [->|?]%elem_of_cons Hg; [destruct Hg as (y & Hy & _); congruence|by apply H4].
    - intros t' Hn. apply H5. rewrite elem_of_cons in Hn. tauto. }
  fold (overdue now x) in Hc. destruct (overdue now x) eqn:Eo.
  - destruct (classify now pool w) as [[gs bs] w1] eqn:Ec. simplify_eq.
    destruct (IH _ _ _ _ Hnd Ec) as (H1 & H2 & H3 & H4 & H5).
    assert (Hng : ¬ is_good now w t ∧ ¬ recovers now w t) by (split; intros (y & Hy & ? & _); congruence). split_and!; [done|..].
    + intros t'. rewrite H2, elem_of_cons. split; [tauto|]. intros [[->|?] Hg]; tauto.
    + intros t'. case_bool_decide as Hst; rewrite ?elem_of_cons, H3.
      * split; [|tauto]. intros [->|?]; [|tauto]. split; [by left|by exists x].
      * split; [tauto|]. intros [[->|?] (y & Hy & ? & ?)]; [congruence|]. split; [done|]. by exists y.
    + intros t' [->|?]%elem_of_cons Hg; [tauto|by apply H4].
    + intros t' Hn. apply H5. rewrite elem_of_cons in Hn. tauto.
  - case_bool_decide as Hst.
    + set (w0 := mk_world (w_heap w) (<[t:=set_thread_state thread_state_t_running x]> (w_threads w))) in *.
      destruct (IH _ _ _ _ Hnd Hc) as (H1 & H2 & H3 & H4 & H5).
      assert (Hoth : ∀ t', t' ≠ t → w_threads w0 !! t' = w_threads w !! t') by (intros; by apply lookup_insert_ne).
      assert (Hne : ∀ t', t' ∈ pool.*2 → t' ≠ t) by (intros t' Hin ->; done).
      assert (Hsame : ∀ t', t' ∈ pool.*2 → (is_good now w0 t' ↔ is_good now w t') ∧ (is_bad now w0 t' ↔ is_bad now w t') ∧ (recovers now w0 t' ↔ recovers now w t')).
      { intros t' Hin. unfold is_good, is_bad, recovers. by rewrite (Hoth t') by auto. }
      assert (Hn : ¬ is_good now w t ∧ ¬ is_bad now w t) by (split; intros (y & Hy & ? & ?); congruence).
      split_and!; [done|..].
      * intros t'. rewrite H2, elem_of_cons. split; [intros [Hin Hg]; split; [by right|by apply Hsame]|].
        intros [[->|Hin] Hg]; [tauto|]. split; [done|by apply Hsame].
      * intros t'. rewrite H3, elem_of_cons. split; [intros [Hin Hg]; split; [by right|by apply Hsame]|].
        intros [[->|Hin] Hg]; [tauto|]. split; [done|by apply Hsame].
      * intros t' [->|Hin]%elem_of_cons Hg.
        -- rewrite H5 by tauto. simpl. by rewrite lookup_insert_eq, Hx.
        -- rewrite H4; [|done|by apply Hsame]. by rewrite Hoth by auto.
      * intros t' Hnr. rewrite elem_of_cons in Hnr. destruct (decide (t' = t)) as [->|Hne'].
        -- exfalso. apply Hnr. split; [by left|by exists x].
        -- rewrite H5; [by apply Hoth|]. intros [Hin Hr]. apply Hnr. split; [by right|by apply Hsame].
    + destruct (classify now pool w) as [[gs bs] w1] eqn:Ec. simplify_eq.
      destruct (IH _ _ _ _ Hnd Ec) as (H1 & H2 & H3 & H4 & H5).
      assert (Hn : ¬ is_bad now w t ∧ ¬ recovers now w t) by (split; intros (y & Hy & ? & ?); congruence). split_and!; [done|..].
      * intros t'. rewrite !elem_of_cons, H2. split; [|tauto]. intros [->|?]; [|tauto]. split; [by left|by exists x].
      * intros t'. rewrite H3, elem_of_cons. split; [tauto|]. intros [[->|?] Hg]; tauto.
      * intros t' [->|?]%elem_of_cons Hg; [tauto|by apply H4].
      * intros t' Hnr. apply H5. rewrite elem_of_cons in Hnr. tauto.
Qed.

(** ** Moving away *)

(** A move changes the schedule of the target only, and blocks the source. *)
Lemma move_loop_other running l h o : ∃ x, (move_loop running l h o).1.2 = set_schedule x o.
Proof.
  revert h o. induction l as [|p l IH]; intros h o; simpl; [exists (m_schedule o); by destruct o|].
  destruct (chs h !! p) as [c|]; [|apply IH]. case_if; [apply IH|].
  assert (Hr : ∃ x, (resettle p h o).2 = set_schedule x o).
  { unfold resettle. destruct (chs h !! p) as [d|]; [|exists (m_schedule o); by destruct o].
    destruct (move_chroutine d). by eexists. }
  destruct (resettle p h o) as [[rid h1] o1]. destruct Hr as [x Hx]. simpl in Hx. subst o1. case_if.
  - destruct (IH (set_chs (alter set_moved p (chs h1)) h1) (set_schedule x o)) as [y Hy].
    destruct (move_loop running l _ (set_schedule x o)) as [[h3 o2] ids]. simpl in *. exists y. by rewrite Hy.
  - destruct (IH h1 (set_schedule x o)) as [y Hy]. exists y. by rewrite Hy.
Qed.

(** Thread objects are found under their own address. *)
Definition world_this (w : world) : Prop := ∀ t x, w_threads w !! t = Some x → this x = t.

Lemma remove_chroutine_th i s : ∃ x, th (remove_chroutine i s) = set_schedule x (th s).
Proof.
  unfold remove_chroutine. destruct (chroutines_map _ !! i); [|exists (sch s); by destruct s as [? []]].
  destruct (erase_id _ _ _) as [[l it]|]; by eexists.
Qed.

Lemma foldl_remove_th ids s : ∃ x, th (foldl (λ x i, remove_chroutine i x) s ids) = set_schedule x (th s).
Proof.
  revert s. induction ids as [|i ids IH]; intros s; simpl; [exists (sch s); by destruct s as [? []]|].
  destruct (IH (remove_chroutine i s)) as [x ->]. destruct (remove_chroutine_th i s) as [y ->]. by exists x.
Qed.

Lemma move_between_effect bad good w b g :
  world_this w → w_threads w !! bad = Some b → w_threads w !! good = Some g → bad ≠ good →
  ∃ w', move_between bad good w = Some w' ∧ world_this w' ∧
    state_of bad w' = Some thread_state_t_blocking ∧
    (∀ t, t ≠ bad → state_of t w' = state_of t w) ∧ (∀ t, is_Some (w_threads w' !! t) ↔ is_Some (w_threads w !! t)).
Proof.
  intros Hw Hb Hg Hne. unfold move_between, thread_at. rewrite Hb, Hg. unfold move_chroutines_to_thread.
  pose proof (Hw _ _ Hb) as Hbt. pose proof (Hw _ _ Hg) as Hgt.
  destruct (Nat.eqb_spec (this g) (this (th (mk_cell (w_heap w) b)))) as [E|_]; [simpl in E; congruence|]. simpl.
  destruct (move_loop_other (running_id (m_schedule b)) (chroutines_sched (m_schedule b)) (w_heap w) g) as [y Hy].
  destruct (move_loop _ _ _ g) as [[h o'] ids]. simpl in Hy. subst o'.
  destruct (foldl_remove_th ids (mk_cell h (set_thread_state thread_state_t_shifting b))) as [z Hz].
  eexists. split; [done|]. simpl. rewrite Hz. unfold state_of. simpl. split_and!.
  - intros t x. simpl. destruct (decide (t = good)) as [->|]; [rewrite lookup_insert_eq; intros; by simplify_eq|].
    rewrite lookup_insert_ne by done. destruct (decide (t = bad)) as [->|]; [rewrite lookup_insert_eq; intros; by simplify_eq|].
    rewrite lookup_insert_ne by done. apply Hw.
  - rewrite lookup_insert_ne, lookup_insert_eq by done. done.
  - intros t Ht. destruct (decide (t = good)) as [->|]; [by rewrite lookup_insert_eq, Hg|]. by rewrite !lookup_insert_ne by done.
  - intros t. destruct (decide (t = good)) as [->|]; [rewrite lookup_insert_eq, Hg; split; by eexists|].
    rewrite lookup_insert_ne by done. destruct (decide (t = bad)) as [->|]; [rewrite lookup_insert_eq, Hb; split; by eexists|].
    by rewrite lookup_insert_ne by done.
Qed.

Lemma move_all_effect bads goods i w :
  world_this w → goods ≠ [] → (∀ t, t ∈ bads → t ∉ goods) → (∀ t, t ∈ bads ++ goods → is_Some (w_threads w !! t)) →
  ∃ w', move_all bads goods i w = Some w' ∧
    (∀ t, t ∈ bads → state_of t w' = Some thread_state_t_blocking) ∧
    (∀ t, t ∉ bads → state_of t w' = state_of t w).
Proof.
  revert i w. induction bads as [|bad bads IH]; intros i w Hw Hg Hd Hs; simpl; [exists w; split_and!; [done|by intros t ?%elem_of_nil|done]|].
  assert (Hlen : (i mod length goods < length goods)%nat) by (apply Nat.mod_upper_bound; by destruct goods).
  destruct (lookup_lt_is_Some_2 goods _ Hlen) as [good Hgood]. rewrite Hgood.
  assert (Hgin : good ∈ goods) by (by eapply list_elem_of_lookup_2).
  assert (Hne : bad ≠ good) by (intros ->; apply (Hd good); mem).
  destruct (Hs bad) as [b Hb]; [mem|]. destruct (Hs good) as [g Hgx]; [mem|].
  destruct (move_between_effect bad good w b g Hw Hb Hgx Hne) as (w1 & -> & Hw1 & Hst & Hoth & Hdom).
  destruct (IH (S i) w1 Hw1 Hg) as (w' & -> & Hbad & Hrest).
  - intros t Ht. apply Hd. mem.
  - intros t Ht. apply Hdom, Hs. mem.
  - exists w'. split; [done|]. split.
    + intros t Ht. destruct (decide (t ∈ bads)) as [|Hn]; [by apply Hbad|].
      apply elem_of_cons in Ht as [->|]; [|done]. by rewrite Hrest.
    + intros t Ht. apply not_elem_of_cons in Ht as [Hne' Hn]. by rewrite Hrest, Hoth.
Qed.

Lemma classify_this now pool w goods bads w' :
  world_this w → classify now pool w = (goods, bads, w') → world_this w'.
Proof.
  revert w goods bads w'. induction pool as [|[tid t] pool IH]; intros w goods bads w' Hw Hc; simpl in Hc; [by simplify_eq|].
  unfold thread_at in Hc. destruct (w_threads w !! t) as [x|] eqn:Hx; [|by eapply IH].
  destruct (negb _ && _); [|case_bool_decide].
  - destruct (classify now pool w) as [[gs bs] w1] eqn:Ec. simplify_eq. by eapply IH.
  - eapply IH; [|exact Hc]. intros t' y. simpl. intros [[<- <-]|[_ Hy]]%lookup_insert_Some; [by apply (Hw t x)|by apply Hw].
  - destruct (classify now pool w) as [[gs bs] w1] eqn:Ec. simplify_eq. by eapply IH.
Qed.

(** ** Handing over *)

(** The objects of a list of pointers. *)
Definition objs (h : gmap nat chroutine_t) (l : list nat) : list chroutine_t := omap (λ p, h !! p) l.

Lemma objs_cons h p l : objs h (p :: l) = match h !! p with Some c => c :: objs h l | None => objs h l end.
Proof. done. Qed.

Lemma objs_app h l k : objs h (l ++ k) = objs h l ++ objs h k.
Proof. apply omap_app. Qed.

Lemma objs_ext h h' l : (∀ p, p ∈ l → h !! p = h' !! p) → objs h l = objs h' l.
Proof.
  induction l as [|p l IH]; intros H; [done|]. rewrite !objs_cons, (H p) by mem. rewrite IH; [done|].
  intros q Hq. apply H. mem.
Qed.

(** The coroutines of a thread, in the order of its list, and the id of the one
    it runs. *)
Definition coros (t : nat) (w : world) : list chroutine_t :=
  match w_threads w !! t with
  | Some x => objs (chs (w_heap w)) (chroutines_sched (m_schedule x))
  | None => []
  end.

Definition running_of (t : nat) (w : world) : option Z := (λ x, running_id (m_schedule x)) <$> w_threads w !! t.

Definition staying (t : nat) (w : world) : list chroutine_t :=
  filter (λ c, running_of t w = Some (me c)) (coros t w).
Definition going (t : nat) (w : world) : list chroutine_t :=
  filter (λ c, running_of t w ≠ Some (me c)) (coros t w).

(** The threads of the pool are well-formed over the shared heap, and no two of
    them list the same object or know the same id. *)
Record pool_ok (ts : list nat) (w : world) : Prop := {
  po_ms : 0 <= ms_chroutine_id (w_heap w);
  po_wf : ∀ t x, t ∈ ts → w_threads w !! t = Some x →
    wf (chs (w_heap w)) (next_ptr (w_heap w)) (ms_chroutine_id (w_heap w)) (m_schedule x);
  po_list : ∀ t u x y p, t ∈ ts → u ∈ ts → t ≠ u → w_threads w !! t = Some x → w_threads w !! u = Some y →
    p ∈ chroutines_sched (m_schedule x) → p ∉ chroutines_sched (m_schedule y);
  po_ids : ∀ t u x y i, t ∈ ts → u ∈ ts → t ≠ u → w_threads w !! t = Some x → w_threads w !! u = Some y →
    is_Some (chroutines_map (m_schedule x) !! i) → chroutines_map (m_schedule y) !! i = None
}.

(** The new objects of a move, read back from the heap. *)
Lemma objs_seq (h : gmap nat chroutine_t) (f : chroutine_t → chroutine_t) (l : list (nat * chroutine_t)) q :
  (∀ i p c, l !! i = Some (p, c) → h !! (q + i)%nat = Some (f c)) →
  objs h (seq q (length l)) = f <$> l.*2.
Proof.
  revert q. induction l as [|[p c] l IH]; intros q Hl; [done|]. cbn [length seq]. rewrite !fmap_cons, objs_cons.
  pose proof (Hl 0%nat p c eq_refl) as H0. rewrite Nat.add_0_r in H0.
  rewrite H0. f_equal. apply IH. intros i p' c' Hi. replace (S q + i)%nat with (q + S i)%nat by lia. by apply (Hl (S i) p').
Qed.

(** What a move takes away, as contents. *)
Lemma leaving_going (h : gmap nat chroutine_t) i l :
  (to_move h i l).*2 = filter (λ c, Some i ≠ Some (me c)) (objs h l).
Proof.
  induction l as [|p l IH]; [done|]. rewrite to_move_cons, objs_cons.
  destruct (h !! p) as [c|]; [|done]. rewrite filter_cons. destruct (Z.eqb_spec (me c) i) as [E|E].
  - rewrite decide_False by (intros Hn; congruence). done.
  - rewrite decide_True by congruence. rewrite fmap_cons. by f_equal.
Qed.

(** A list without repetition whose elements are those of [l] with the running
    id is that part of [l]. *)
Lemma kept_running (h h' : gmap nat chroutine_t) i l l' :
  NoDup l → NoDup l' →
  (∀ p, p ∈ l → ∃ c, h !! p = Some c) →
  (∀ p q c d, p ∈ l → q ∈ l → h !! p = Some c → h !! q = Some d → me c = me d → p = q) →
  (∀ q c, h !! q = Some c → q ∈ l' ↔ q ∈ l ∧ me c = i) → (∀ q, q ∈ l' → q ∈ l) →
  (∀ q c, h !! q = Some c → me c = i → h' !! q = Some c) →
  objs h' l' = filter (λ c, Some i = Some (me c)) (objs h l).
Proof.
  intros Hnd Hnd' Hl Hinj Hiff Hsub Hh.
  assert (Hfil : ∀ k, (∀ p, p ∈ k → p ∈ l) →
    filter (λ c, Some i = Some (me c)) (objs h k) = objs h' (filter (λ p, p ∈ l') k)).
  { induction k as [|p k IH]; intros Hk; [done|].
    destruct (Hl p) as [c Hc]; [apply Hk; mem|].
    rewrite objs_cons, Hc, !filter_cons, IH by (intros; apply Hk; mem). pose proof (Hiff p c Hc) as Hp.
    destruct (decide (p ∈ l')) as [Hin|Hin].
    - apply Hp in Hin as [Hpl Hi]. rewrite decide_True by congruence. by rewrite objs_cons, (Hh p c).
    - rewrite decide_False; [done|]. intros [= Hi]. apply Hin, Hp. split; [apply Hk; mem|done]. }
  rewrite Hfil by done. f_equal.
  assert (Hone : ∀ p q, p ∈ l' → q ∈ l' → p = q).
  { intros p q Hp Hq. destruct (Hl p (Hsub p Hp)) as [c Hc]. destruct (Hl q (Hsub q Hq)) as [d Hd].
    apply (Hiff p c Hc) in Hp as [Hp Hpi]. apply (Hiff q d Hd) in Hq as [Hq Hqi]. apply (Hinj p q c d); congruence. }
  assert (Hp : l' ≡ₚ filter (λ p, p ∈ l') l).
  { apply NoDup_Permutation; [done|by apply NoDup_filter|]. intros p. rewrite list_elem_of_filter. split; [auto|tauto]. }
  destruct l' as [|p [|q l']].
  - apply Permutation_nil_l in Hp. by rewrite <- Hp.
  - by apply Permutation_singleton_l in Hp.
  - exfalso. apply NoDup_cons in Hnd' as [Hn _]. apply Hn. rewrite (Hone p q) by mem. mem.
Qed.

(** One move, on the pool. *)
Record handed_over (ts : list nat) (bad good : nat) (w w' : world) : Prop := {
  ho_pool : pool_ok ts w';
  ho_running : ∀ t, running_of t w' = running_of t w;
  ho_bad : coros bad w' = staying bad w;
  ho_good : coros good w' = coros good w ++ (resettled good <$> going bad w);
  ho_rest : ∀ t, t ∈ ts → t ≠ bad → t ≠ good → coros t w' = coros t w
}.

Section handing_over.
Context (ts : list nat) (w : world) (bad good : nat) (b g : chroutine_thread_t).
Context (Hpool : pool_ok ts w) (Hbad : bad ∈ ts) (Hgood : good ∈ ts) (Hne : bad ≠ good).
Context (Hb : w_threads w !! bad = Some b) (Hg : w_threads w !! good = Some g).
Context (Hbt : this b = bad) (Hgt : this g = good).

Let s := mk_cell (w_heap w) b.

Lemma source_wf : wf_cell s.
Proof. split; [exact (po_wf _ _ Hpool bad b Hbad Hb)|exact (po_ms _ _ Hpool)]. Qed.

Lemma source_movable : movable (chroutines_sched (sch s)) (chs (hp s)) (m_schedule g).
Proof.
  split.
  - intros p Hp. destruct (wf_sched _ _ _ _ (proj1 source_wf) p Hp) as (c & Hc & Hm). exists c. split; [done|].
    apply (po_ids _ _ Hpool bad good b g); [done..|]. exists (Some p). exact Hm.
  - intros p q c d Hp Hq Hc Hd. by apply (wf_id_inj (proj1 source_wf)).
Qed.

Context (s' : cell) (g' : chroutine_thread_t) (Hmove : move_chroutines_to_thread s g = (s', g')).

Let w' := mk_world (hp s') (<[good := g']> (<[bad := th s']> (w_threads w))).

Lemma source_moved : moved_to s g s' g' ∧ moved_rest s g s' g'.
Proof.
  assert (this g ≠ this (th s)) by (simpl; congruence).
  split; [apply move_facts|apply move_rest]; try done; [apply source_wf|by apply (po_wf _ _ Hpool good)|apply source_movable|
    apply source_wf|by apply (po_wf _ _ Hpool good)|apply source_movable].
Qed.

Lemma handed_threads t : w_threads w' !! t = if decide (t = good) then Some g' else if decide (t = bad) then Some (th s') else w_threads w !! t.
Proof.
  simpl. repeat case_decide; subst; rewrite ?lookup_insert_eq; [done| |].
  - by rewrite lookup_insert_ne, lookup_insert_eq by done.
  - by rewrite !lookup_insert_ne by done.
Qed.

Lemma leaving_ids_known i : i ∈ (λ pc, me pc.2) <$> leaving s → is_Some (chroutines_map (m_schedule b) !! i).
Proof.
  intros ([p c] & -> & Hp)%list_elem_of_fmap. apply to_move_elem in Hp as (Hp & Hc & _).
  destruct (wf_sched _ _ _ _ (proj1 source_wf) p Hp) as (d & Hd & Hm). unfold s in *. simpl in *. simplify_eq. by eexists.
Qed.

Lemma handed_running t : running_of t w' = running_of t w.
Proof.
  destruct source_moved as [Hm Hr]. unfold running_of. rewrite handed_threads. repeat case_decide; try subst t; [| |done].
  - rewrite Hg. simpl. by rewrite (mr_running_other _ _ _ _ Hr).
  - rewrite Hb. simpl. by rewrite (mt_running _ _ _ _ Hm).
Qed.

Lemma handed_fresh t x p q :
  t ∈ ts → w_threads w !! t = Some x → p ∈ chroutines_sched (m_schedule x) → q ∈ seq (next_ptr (w_heap w)) (length (leaving s)) → p ≠ q.
Proof.
  intros Ht Hx Hp Hq%elem_of_seq ->. pose proof (po_wf _ _ Hpool t x Ht Hx) as Hwf.
  destruct (wf_sched _ _ _ _ Hwf q Hp) as (c & Hc & _).
  assert (q < next_ptr (w_heap w))%nat by (apply (wf_fresh _ _ _ _ Hwf); by eexists). lia.
Qed.

Lemma handed_pool : pool_ok ts w'.
Proof.
  destruct source_moved as [Hm Hr].
  (* the list and the keys of a thread afterwards *)
  assert (Hlist : ∀ t x p, t ∈ ts → w_threads w' !! t = Some x → p ∈ chroutines_sched (m_schedule x) →
    (∃ y, w_threads w !! t = Some y ∧ p ∈ chroutines_sched (m_schedule y)) ∨
    t = good ∧ p ∈ seq (next_ptr (w_heap w)) (length (leaving s))).
  { intros t x p Ht. rewrite handed_threads. repeat case_decide; try subst t; [| |intros ? ?; left; by eexists].
    - intros ? Hp; simplify_eq. rewrite (mt_sched_other _ _ _ _ Hm) in Hp. apply elem_of_app in Hp as [Hp|Hp]; [left; by exists g|by right].
    - intros ? Hp; simplify_eq. left. exists b. split; [done|]. by apply (mr_sub _ _ _ _ Hr). }
  assert (Hkeys : ∀ t x i, t ∈ ts → w_threads w' !! t = Some x → is_Some (chroutines_map (m_schedule x) !! i) →
    (∃ y, w_threads w !! t = Some y ∧ is_Some (chroutines_map (m_schedule y) !! i)) ∧
       (t = bad → i ∉ (λ pc, me pc.2) <$> leaving s) ∨
    t = good ∧ i ∈ (λ pc, me pc.2) <$> leaving s).
  { intros t x i Ht. rewrite handed_threads. repeat case_decide; try subst t; [| |intros ? ?; left; split; [by eexists|done]].
    - intros ? Hi; simplify_eq. destruct (decide (i ∈ (λ pc, me pc.2) <$> leaving s)) as [Hin|Hin]; [by right|left].
      split; [|done]. exists g. split; [done|]. by rewrite (mr_map_other _ _ _ _ Hr) in Hi.
    - intros ? Hi; simplify_eq. left. rewrite (mr_map _ _ _ _ Hr) in Hi. case_decide; [by destruct Hi|]. split; [by exists b|done]. }
  split.
  - simpl. rewrite (mr_ms _ _ _ _ Hr). apply Hpool.
  - intros t x Ht. rewrite handed_threads. repeat case_decide; try subst t; simpl.
    + intros [= <-]. apply (mt_wf_other _ _ _ _ Hm).
    + intros [= <-]. apply (mt_wf _ _ _ _ Hm).
    + intros Hx. by apply (mr_wf _ _ _ _ Hr), (po_wf _ _ Hpool t).
  - intros t u x y p Ht Hu Htu Hx Hy Hp Hq.
    destruct (Hlist t x p Ht Hx Hp) as [(x0 & Hx0 & Hp0)|[-> Hp0]], (Hlist u y p Hu Hy Hq) as [(y0 & Hy0 & Hq0)|[-> Hq0]].
    + by apply (po_list _ _ Hpool t u x0 y0 p).
    + by apply (handed_fresh t x0 p p).
    + by apply (handed_fresh u y0 p p).
    + done.
  - intros t u x y i Ht Hu Htu Hx Hy Hi. apply eq_None_not_Some. intros Hj.
    destruct (Hkeys t x i Ht Hx Hi) as [[(x0 & Hx0 & Hi0) Hnb]|[-> Hi0]], (Hkeys u y i Hu Hy Hj) as [[(y0 & Hy0 & Hj0) Hnb']|[-> Hj0]].
    + rewrite (po_ids _ _ Hpool t u x0 y0 i) in Hj0 by done. by destruct Hj0.
    + destruct (decide (t = bad)) as [->|Hnt]; [by apply Hnb|]. pose proof (leaving_ids_known i Hj0) as Hk.
      rewrite (po_ids _ _ Hpool t bad x0 b i) in Hk by done. by destruct Hk.
    + destruct (decide (u = bad)) as [->|Hnt]; [by apply Hnb'|]. pose proof (leaving_ids_known i Hi0) as Hk.
      rewrite (po_ids _ _ Hpool u bad y0 b i) in Hk by done. by destruct Hk.
    + done.
Qed.

Lemma handed_rest t x : t ∈ ts → t ≠ bad → w_threads w !! t = Some x →
  objs (chs (hp s')) (chroutines_sched (m_schedule x)) = objs (chs (w_heap w)) (chroutines_sched (m_schedule x)).
Proof.
  destruct source_moved as [_ Hr]. intros Ht Hn Hx. apply objs_ext. intros p Hp.
  destruct (wf_sched _ _ _ _ (po_wf _ _ Hpool t x Ht Hx) p Hp) as (c & Hc & _). rewrite Hc.
  apply (mr_old _ _ _ _ Hr p c Hc). by apply (po_list _ _ Hpool t bad x b p).
Qed.

Lemma handed_over_once : handed_over ts bad good w w'.
Proof.
  destruct source_moved as [Hm Hr]. split; [apply handed_pool|apply handed_running| | |].
  - unfold staying, coros, running_of. rewrite handed_threads, decide_False, decide_True, Hb by done. cbn [fmap option_fmap option_map w_heap w'].
    pose proof (wf_nodup _ _ _ _ (proj1 source_wf)) as Hnd.
    apply (kept_running (chs (w_heap w))); [done|apply (wf_nodup _ _ _ _ (proj1 (mt_wf _ _ _ _ Hm)))| | | | |].
    + intros p Hp. destruct (wf_sched _ _ _ _ (proj1 source_wf) p Hp) as (c & Hc & _). by exists c.
    + intros p q c d Hp Hq Hc Hd. by apply (wf_id_inj (proj1 source_wf)).
    + intros q c. apply (mt_sched _ _ _ _ Hm).
    + apply (mr_sub _ _ _ _ Hr).
    + intros q c. apply (mt_stays _ _ _ _ Hm).
  - unfold going. unfold coros at 1 2. unfold running_of. rewrite handed_threads, decide_True, Hg, Hb by done. cbn [fmap option_fmap option_map w_heap w'].
    rewrite (mt_sched_other _ _ _ _ Hm), objs_app, (handed_rest good g) by done. f_equal.
    unfold coros. rewrite Hb. rewrite (objs_seq _ (resettled good)).
    + unfold leaving. f_equal. apply (leaving_going (chs (w_heap w)) (running_id (m_schedule b))).
    + intros i p c Hi. rewrite <- Hgt. by apply (mt_moved _ _ _ _ Hm i p c).
  - intros t Ht Hn1 Hn2. unfold coros. rewrite handed_threads, !decide_False by done.
    destruct (w_threads w !! t) as [x|] eqn:Hx; [|done]. cbn [w_heap w']. by apply (handed_rest t x).
Qed.
End handing_over.

Lemma move_between_hands_over ts bad good w b g :
  world_this w → pool_ok ts w → bad ∈ ts → good ∈ ts → bad ≠ good →
  w_threads w !! bad = Some b → w_threads w !! good = Some g →
  ∃ w', move_between bad good w = Some w' ∧ handed_over ts bad good w w' ∧
    ∀ t, t ≠ bad → t ≠ good → w_threads w' !! t = w_threads w !! t.
Proof.
  intros Hw Hp Hbi Hgi Hne Hb Hg. unfold move_between, thread_at. rewrite Hb, Hg.
  destruct (move_chroutines_to_thread (mk_cell (w_heap w) b) g) as [s' g'] eqn:Hm.
  eexists. split; [done|]. split.
  - apply (handed_over_once ts w bad good b g); try done; by apply Hw.
  - intros t H1 H2. simpl. by rewrite !lookup_insert_ne.
Qed.

(** What the overdue threads, from the [i]-th on, give to the good thread of
    index [j] of [n]. *)
Definition given (i j n : nat) (bads : list nat) (w : world) : list chroutine_t :=
  mjoin (imap (λ k b, if decide ((i + k) mod n = j)%nat then going b w else []) bads).

Lemma given_ext i j n bads w w' : (∀ b, b ∈ bads → going b w' = going b w) → given i j n bads w' = given i j n bads w.
Proof.
  revert i. unfold given. induction bads as [|b bads IH]; intros i H; [done|]. rewrite !imap_cons. simpl.
  rewrite (H b) by mem. f_equal.
  assert (Hs : ∀ v, imap ((λ k b0, if decide ((i + k) mod n = j)%nat then going b0 v else []) ∘ S) bads
    = imap (λ k b0, if decide ((S i + k) mod n = j)%nat then going b0 v else []) bads).
  { intros v. apply imap_ext. intros k x _. simpl. by replace (i + S k)%nat with (S (i + k))%nat by lia. }
  rewrite !Hs. apply IH. intros; apply H; mem.
Qed.

Lemma given_cons i j n b bads w :
  given i j n (b :: bads) w = (if decide (i mod n = j)%nat then going b w else []) ++ given (S i) j n bads w.
Proof.
  unfold given. rewrite imap_cons. simpl. rewrite Nat.add_0_r. f_equal. f_equal.
  apply imap_ext. intros k x _. simpl. by replace (i + S k)%nat with (S (i + k))%nat by lia.
Qed.

Lemma move_all_hands_over ts bads goods i w :
  world_this w → pool_ok ts w → goods ≠ [] → NoDup bads → NoDup goods → (∀ t, t ∈ bads → t ∉ goods) →
  (∀ t, t ∈ bads ++ goods → t ∈ ts ∧ is_Some (w_threads w !! t)) →
  ∃ w', move_all bads goods i w = Some w' ∧ (∀ t, running_of t w' = running_of t w) ∧
    (∀ b, b ∈ bads → coros b w' = staying b w) ∧
    (∀ j g, goods !! j = Some g → coros g w' = coros g w ++ (resettled g <$> given i j (length goods) bads w)) ∧
    (∀ t, t ∈ ts → t ∉ bads → t ∉ goods → coros t w' = coros t w) ∧
    (∀ t, t ∉ bads → t ∉ goods → w_threads w' !! t = w_threads w !! t).
Proof.
  revert i w. induction bads as [|bad bads IH]; intros i w Hw Hp Hg Hnb Hng Hd Hs; simpl.
  { exists w. split_and!; try done; [intros b Hb; by apply elem_of_nil in Hb|].
    intros j g Hj. unfold given. simpl. by rewrite app_nil_r. }
  apply NoDup_cons in Hnb as [Hbn Hnb].
  assert (Hlen : (i mod length goods < length goods)%nat) by (apply Nat.mod_upper_bound; by destruct goods).
  destruct (lookup_lt_is_Some_2 goods _ Hlen) as [good Hgood]. rewrite Hgood.
  assert (Hgin : good ∈ goods) by (by eapply list_elem_of_lookup_2).
  assert (Hne : bad ≠ good) by (intros ->; apply (Hd good); mem).
  destruct (Hs bad) as [Hbt [b Hb]]; [mem|]. destruct (Hs good) as [Hgt [g Hgx]]; [mem|].
  destruct (move_between_effect bad good w b g Hw Hb Hgx Hne) as (w1 & Hm1 & Hw1 & _ & _ & Hdom).
  destruct (move_between_hands_over ts bad good w b g Hw Hp Hbt Hgt Hne Hb Hgx) as (w1' & Hm1' & [Hp1 Hr1 Hcb Hcg Hco] & Hth).
  rewrite Hm1 in Hm1' |- *. simplify_eq.
  destruct (IH (S i) w1') as (w' & -> & Hr & Hcb' & Hcg' & Hco' & Hth'); [done..| | |].
  { intros t Ht. apply Hd. mem. }
  { intros t Ht. destruct (Hs t) as [? ?]; [mem|]. split; [done|]. by apply Hdom. }
  assert (Hgo : ∀ t, t ∈ bads → coros t w1' = coros t w).
  { intros t Ht. apply Hco; [apply Hs; mem|by intros ->|]. intros ->. apply (Hd good); mem. }
  exists w'. split_and!; [done|intros; by rewrite Hr, Hr1| | | |].
  - intros t Ht. destruct (decide (t = bad)) as [->|Hn].
    + rewrite Hco', Hcb; [done|done|done|]. apply Hd. mem.
    + apply elem_of_cons in Ht as [->|Ht]; [done|]. rewrite Hcb' by done. unfold staying. by rewrite Hr1, Hgo.
  - intros j g0 Hj. rewrite (Hcg' j g0 Hj), given_cons.
    rewrite (given_ext (S i) j (length goods) bads w w1').
    2:{ intros t Ht. unfold going. by rewrite Hr1, Hgo. }
    assert (Hgin0 : g0 ∈ goods) by (by eapply list_elem_of_lookup_2).
    case_decide as Hij.
    + subst j. assert (g0 = good) as -> by congruence. by rewrite Hcg, fmap_app, (assoc_L (++)).
    + rewrite app_nil_l. f_equal. apply Hco; [apply Hs; mem|intros ->; apply (Hd bad); mem|].
      intros ->. apply Hij. by apply (NoDup_lookup goods _ _ good).
  - intros t Ht H1 H2. apply not_elem_of_cons in H1 as [H1 H1']. rewrite Hco' by done. apply Hco; [done..|]. by intros ->.
  - intros t H1 H2. apply not_elem_of_cons in H1 as [H1 H1']. rewrite Hth' by done. apply Hth; [done|]. by intros ->.
Qed.

(** Classifying touches no coroutine. *)
Definition same_schedules (w w' : world) : Prop :=
  w_heap w' = w_heap w ∧ ∀ t, m_schedule <$> w_threads w' !! t = m_schedule <$> w_threads w !! t.

Lemma same_schedules_coros w w' t :
  same_schedules w w' → coros t w' = coros t w ∧ running_of t w' = running_of t w.
Proof.
  intros [Hh Ht]. specialize (Ht t). unfold coros, running_of. rewrite Hh.
  destruct (w_threads w' !! t), (w_threads w !! t); simplify_eq/=; [by rewrite Ht|done].
Qed.

Lemma same_schedules_pool ts w w' : same_schedules w w' → pool_ok ts w → pool_ok ts w'.
Proof.
  intros [Hh Ht] [H1 H2 H3 H4].
  assert (Hx : ∀ t x, w_threads w' !! t = Some x → ∃ y, w_threads w !! t = Some y ∧ m_schedule y = m_schedule x).
  { intros t x Hx. specialize (Ht t). rewrite Hx in Ht. destruct (w_threads w !! t) as [y|]; simplify_eq/=. by exists y. }
  split; rewrite ?Hh; [done|..].
  - intros t x Hin (y & Hy & <-)%Hx. by apply (H2 t).
  - intros t u x y p Hti Hui Htu (x' & Hx' & <-)%Hx (y' & Hy' & <-)%Hx. by apply (H3 t u).
  - intros t u x y i Hti Hui Htu (x' & Hx' & <-)%Hx (y' & Hy' & <-)%Hx. by apply (H4 t u).
Qed.

Lemma classify_frame now pool w goods bads w' :
  classify now pool w = (goods, bads, w') →
  same_schedules w w' ∧ goods `sublist_of` pool.*2 ∧ bads `sublist_of` pool.*2.
Proof.
  revert w goods bads w'. induction pool as [|[tid t] pool IH]; intros w goods bads w' Hc; simpl in Hc; [by simplify_eq|].
  unfold thread_at in Hc. rewrite fmap_cons. cbn [snd].
  destruct (w_threads w !! t) as [x|] eqn:Hx.
  2: { destruct (IH _ _ _ _ Hc) as (? & ? & ?). split_and!; [done|by apply sublist_cons..]. }
  destruct (negb _ && _); [|case_bool_decide].
  - destruct (classify now pool w) as [[gs bs] w1] eqn:Ec. simplify_eq. destruct (IH _ _ _ _ Ec) as (? & ? & ?).
    split_and!; [done|by apply sublist_cons|]. case_bool_decide; [by apply sublist_skip|by apply sublist_cons].
  - destruct (IH _ _ _ _ Hc) as ([Hh Hs] & ? & ?). split_and!; [|by apply sublist_cons..]. split; [done|].
    intros u. rewrite Hs. simpl. destruct (decide (u = t)) as [->|]; [by rewrite lookup_insert_eq, Hx|by rewrite lookup_insert_ne].
  - destruct (classify now pool w) as [[gs bs] w1] eqn:Ec. simplify_eq. destruct (IH _ _ _ _ Ec) as (? & ? & ?).
    split_and!; [done|by apply sublist_skip|by apply sublist_cons].
Qed.

(** The states of the threads. *)
Lemma check_threads_states now e w :
  world_this w → NoDup (pool_list e).*2 → (∀ t, t ∈ (pool_list e).*2 → is_Some (w_threads w !! t)) →
  let pooled t := t ∈ (pool_list e).*2 in
  let a_good_one := ∃ g, pooled g ∧ is_good now w g in
  ∃ w', check_threads now e w = Some w' ∧
    (∀ t, pooled t → is_bad now w t → a_good_one → state_of t w' = Some thread_state_t_blocking) ∧
    (∀ t, pooled t → recovers now w t → state_of t w' = Some thread_state_t_running) ∧
    (∀ t, ¬ (pooled t ∧ is_bad now w t ∧ a_good_one) → ¬ (pooled t ∧ recovers now w t) → state_of t w' = state_of t w).
Proof.
  intros Hw Hnd Hdom pooled a_good_one. unfold check_threads.
  destruct (classify now (pool_list e) w) as [[goods bads] w1] eqn:Ec.
  destruct (classify_spec now _ w goods bads w1 Hnd Ec) as (_ & Hgood & Hbad & Hrec & Hkeep).
  assert (Hr1 : ∀ t, pooled t → recovers now w t → state_of t w1 = Some thread_state_t_running).
  { intros t Hin Hr. unfold state_of. rewrite Hrec by done. destruct Hr as (x & -> & _). done. }
  assert (Hk1 : ∀ t, ¬ (pooled t ∧ recovers now w t) → state_of t w1 = state_of t w).
  { intros t Hn. unfold state_of. by rewrite Hkeep. }
  assert (Hnob : (bads = [] ∨ goods = []) → ∀ t, pooled t → is_bad now w t → a_good_one → False).
  { intros [->| ->] t Hin Hb (g & Hg); [apply (elem_of_nil t), Hbad; done|apply (elem_of_nil g), Hgood; done]. }
  assert (Hcase : bads = [] ∨ goods = [] ∨ (bads ≠ [] ∧ goods ≠ [])).
  { destruct bads; [by left|]. destruct goods; [by right; left|by right; right]. }
  destruct Hcase as [->|[->|[Hb Hg]]].
  - exists w1. split_and!; [done| |done|intros t _; apply Hk1]. intros t Hin Hb Hg. destruct (Hnob ltac:(by left) t Hin Hb Hg).
  - exists w1. split_and!; [by destruct bads| |done|intros t _; apply Hk1]. intros t Hin Hb Hg. destruct (Hnob ltac:(by right) t Hin Hb Hg).
  - assert (Hdis : ∀ t, t ∈ bads → t ∉ goods).
    { intros t [_ (x & Hx & ? & ?)]%Hbad [_ (y & Hy & ? & ?)]%Hgood. congruence. }
    assert (Hkept : ∀ t, t ∈ bads ++ goods → w_threads w1 !! t = w_threads w !! t).
    { intros t Ht. apply Hkeep. intros [_ (x & Hx & ? & ?)].
      apply elem_of_app in Ht as [[_ (y & Hy & ? & ?)]%Hbad|[_ (y & Hy & ? & ?)]%Hgood]; congruence. }
    destruct (move_all_effect bads goods 0 w1) as (w' & Hm & Hbl & Hrest); [by eapply classify_this|done|done| |].
    { intros t Ht. rewrite Hkept by done. apply Hdom. by apply elem_of_app in Ht as [[? _]%Hbad|[? _]%Hgood]. }
    exists w'. split_and!.
    + by destruct bads, goods.
    + intros t Hin Hbt _. by apply Hbl, Hbad.
    + intros t Hin Hr. rewrite Hrest; [by apply Hr1|]. intros [_ (x & Hx & ? & ?)]%Hbad. destruct Hr as (y & Hy & ? & ?). congruence.
    + intros t Hnb Hnr. rewrite Hrest; [by apply Hk1|]. intros [Hin Hbt]%Hbad. apply Hnb. split_and!; [done|done|].
      destruct goods as [|g gs]; [done|]. exists g. apply Hgood. mem.
Qed.

(** The coroutines of the threads. *)
Lemma check_threads_coros now e w goods bads w1 :
  world_this w → NoDup (pool_list e).*2 → (∀ t, t ∈ (pool_list e).*2 → is_Some (w_threads w !! t)) →
  pool_ok (pool_list e).*2 w → classify now (pool_list e) w = (goods, bads, w1) →
  ∃ w', check_threads now e w = Some w' ∧
    (goods ≠ [] → ∀ b, b ∈ bads → coros b w' = staying b w) ∧
    (∀ j g, goods !! j = Some g → coros g w' = coros g w ++ (resettled g <$> given 0 j (length goods) bads w)) ∧
    (∀ t, t ∈ (pool_list e).*2 → goods = [] ∨ (t ∉ bads) ∧ (t ∉ goods) → coros t w' = coros t w).
Proof.
  intros Hw Hnd Hdom Hpool Ec. unfold check_threads. rewrite Ec.
  destruct (classify_spec now _ w goods bads w1 Hnd Ec) as (_ & Hgood & Hbad & _ & _).
  destruct (classify_frame now _ w goods bads w1 Ec) as (Hsame & Hsg & Hsb).
  pose proof (λ t, same_schedules_coros w w1 t Hsame) as Hco.
  assert (Hst : ∀ t, staying t w1 = staying t w) by (intros t; unfold staying; by destruct (Hco t) as [-> ->]).
  assert (Hgo : ∀ t, going t w1 = going t w) by (intros t; unfold going; by destruct (Hco t) as [-> ->]).
  destruct (decide (goods = [])) as [->|Hg].
  { exists w1. split_and!; try done; [by destruct bads|]. intros t _ _. apply Hco. }
  destruct (decide (bads = [])) as [->|Hb].
  { exists w1. split_and!; try done.
    - intros _ b Hb. by apply elem_of_nil in Hb.
    - intros j g _. unfold given. simpl. rewrite app_nil_r. apply Hco.
    - intros t _ _. apply Hco. }
  assert (Hdis : ∀ t, t ∈ bads → t ∉ goods).
  { intros t [_ (x & Hx & ? & ?)]%Hbad [_ (y & Hy & ? & ?)]%Hgood. congruence. }
  destruct (move_all_hands_over (pool_list e).*2 bads goods 0 w1) as (w' & Hm & _ & Hcb & Hcg & Hcr & _).
  - by eapply classify_this.
  - by eapply same_schedules_pool.
  - done.
  - by eapply sublist_NoDup.
  - by eapply sublist_NoDup.
  - done.
  - intros t Ht. assert (Hin : t ∈ (pool_list e).*2) by (by apply elem_of_app in Ht as [[? _]%Hbad|[? _]%Hgood]).
    split; [done|]. destruct Hsame as [_ Hs]. specialize (Hs t). destruct (Hdom t Hin) as [x Hx]. rewrite Hx in Hs.
    destruct (w_threads w1 !! t); [by eexists|done].
  - exists w'. split_and!; try done.
    + by destruct bads, goods.
    + intros _ b Hin. by rewrite Hcb, Hst.
    + intros j g Hj. rewrite (Hcg j g Hj), (given_ext 0 j _ bads w w1) by (intros; apply Hgo). by destruct (Hco g) as [-> _].
    + intros t Hin [|[H1 H2]]; [done|]. rewrite Hcr by done. apply Hco.
Qed.

(** C11: watching the threads.  [check_threads] always completes, and decides
    by the time stamp of the last resumption.  Its good threads and its bad
    ones (running, but inside one coroutine for more than half a second) are
    those of the pool, in the order of the pool.  When there is a good thread,
    every bad one is blocked, so that it accepts no new coroutine, keeps only
    the coroutine it runs, and hands the others, in order and with their
    contents but for the link of the context, to a good thread: bad thread
    number k to good thread number k modulo the number of good threads, behind
    what this one had.  When there is no good thread, none is blocked and no
    coroutine moves.  A blocked thread that is no longer overdue is set running;
    no other thread changes its state or its coroutines.  The hand-over is for
    pools whose threads are well-formed and share no coroutine ([pool_ok]). *)
Theorem check_threads_blocks_overdue now e w :
  world_this w → NoDup (pool_list e).*2 → (∀ t, t ∈ (pool_list e).*2 → is_Some (w_threads w !! t)) →
  ∃ goods bads w', check_threads now e w = Some w' ∧
    (∀ t, t ∈ goods ↔ t ∈ (pool_list e).*2 ∧ is_good now w t) ∧
    (∀ t, t ∈ bads ↔ t ∈ (pool_list e).*2 ∧ is_bad now w t) ∧
    (∀ t, t ∈ bads → goods ≠ [] → state_of t w' = Some thread_state_t_blocking) ∧
    (∀ t, t ∈ (pool_list e).*2 → recovers now w t → state_of t w' = Some thread_state_t_running) ∧
    (∀ t, ¬ (t ∈ bads ∧ goods ≠ []) → ¬ (t ∈ (pool_list e).*2 ∧ recovers now w t) → state_of t w' = state_of t w) ∧
    (pool_ok (pool_list e).*2 w →
     goods `sublist_of` (pool_list e).*2 ∧ bads `sublist_of` (pool_list e).*2 ∧
     (goods ≠ [] → ∀ b, b ∈ bads → coros b w' = staying b w) ∧
     (∀ j g, goods !! j = Some g → coros g w' = coros g w ++ (resettled g <$> given 0 j (length goods) bads w)) ∧
     (∀ t, t ∈ (pool_list e).*2 → goods = [] ∨ (t ∉ bads) ∧ (t ∉ goods) → coros t w' = coros t w)).
Proof.
  intros Hw Hnd Hdom. destruct (check_threads_states now e w Hw Hnd Hdom) as (w' & Hc & Hb & Hr & Ho).
  destruct (classify now (pool_list e) w) as [[goods bads] w1] eqn:Ec.
  destruct (classify_spec now _ w goods bads w1 Hnd Ec) as (_ & Hgood & Hbad & _ & _).
  assert (Hone : goods ≠ [] ↔ ∃ g, g ∈ (pool_list e).*2 ∧ is_good now w g).
  { split; [destruct goods as [|g gs]; [done|]; intros _; exists g; apply Hgood; mem|].
    intros (g & Hg%Hgood) ->. by apply elem_of_nil in Hg. }
  exists goods, bads, w'. split_and!; try done.
  - intros t [Hin Ht]%Hbad Hg%Hone. by apply Hb.
  - intros t Hn Hnr. apply Ho; [|done]. intros (Hin & Ht & Hg%Hone). apply Hn. split; [by apply Hbad|done].
  - intros Hpool. destruct (check_threads_coros now e w goods bads w1 Hw Hnd Hdom Hpool Ec) as (w2 & Hc2 & Hrest).
    destruct (classify_frame now _ w goods bads w1 Ec) as (_ & Hsg & Hsb). simplify_eq. by split_and!; try apply Hrest.
Qed.

(** Worker 0 has been inside coroutine 1 since time 10 and holds 2 and 3;
    worker 1 is idle. *)
Definition watched : world :=
  mk_world (hp blocked_cell)
    {[ 0%nat := set_thread_state thread_state_t_running (th blocked_cell);
       1%nat := set_thread_state thread_state_t_running (new_thread 1) ]}.

Definition watched_engine : engine_t := set_m_pool {[ 100 := 0%nat; 200 := 1%nat ]} two_workers.

Lemma watched_threads t x : w_threads watched !! t = Some x →
  t = 0%nat ∧ x = set_thread_state thread_state_t_running (th blocked_cell) ∨
  t = 1%nat ∧ x = set_thread_state thread_state_t_running (new_thread 1).
Proof.
  unfold watched. cbn [w_threads]. rewrite lookup_insert_Some, lookup_singleton_Some.
  intros [[<- <-]|[_ [<- <-]]]; auto.
Qed.

Lemma watched_pool_ok : pool_ok [0; 1]%nat watched.
Proof.
  assert (Hwf : wf_cell blocked_cell) by (apply end_of_wf; by vm_compute).
  assert (H1 : ∀ p, p ∉ chroutines_sched (m_schedule (set_thread_state thread_state_t_running (new_thread 1)))).
  { intros p Hp. by apply elem_of_nil in Hp. }
  split; [apply Hwf|..].
  - intros t x _ [[_ ->]|[_ ->]]%watched_threads; [exact (proj1 Hwf)|exact (wf_new_thread blocked_cell 1 Hwf)].
  - intros t u x y p _ _ Hne [[-> ->]|[-> ->]]%watched_threads [[-> ->]|[-> ->]]%watched_threads; try done; try (intros _; apply H1).
    intros Hp. by apply H1 in Hp.
  - intros t u x y i _ _ Hne [[-> ->]|[-> ->]]%watched_threads [[-> ->]|[-> ->]]%watched_threads; try done.
    intros [o Ho]. cbn in Ho. by rewrite lookup_empty in Ho.
Qed.

Lemma only_element (l : list nat) a : NoDup l → (∀ x, x ∈ l ↔ x = a) → l = [a].
Proof.
  intros Hnd Hl. symmetry. apply Permutation_singleton_l, NoDup_Permutation; [apply NoDup_singleton|done|].
  intros x. by rewrite list_elem_of_singleton, Hl.
Qed.

Lemma check_threads_blocks_overdue_witness :
  ∃ w', check_threads 511 watched_engine watched = Some w' ∧ state_of 0 w' = Some thread_state_t_blocking ∧
    me <$> coros 0 w' = [1] ∧ me <$> coros 1 w' = [2; 3].
Proof.
  assert (H1 : world_this watched) by (intros t x [[-> ->]|[-> ->]]%watched_threads; done).
  assert (Hp : (pool_list watched_engine).*2 = [0; 1]%nat) by (vm_compute; reflexivity).
  assert (Hv : ∀ t, is_good 511 watched t ↔ t = 1%nat).
  { intros t. split; [|intros ->; eexists; split; [reflexivity|by vm_compute]].
    intros (x & [[-> ->]|[-> ->]]%watched_threads & Ho & _); [by vm_compute in Ho|done]. }
  assert (Hb : ∀ t, is_bad 511 watched t ↔ t = 0%nat).
  { intros t. split; [|intros ->; eexists; split; [reflexivity|by vm_compute]].
    intros (x & [[-> ->]|[-> ->]]%watched_threads & Ho & _); [done|by vm_compute in Ho]. }
  assert (Hnd : NoDup (pool_list watched_engine).*2) by (rewrite Hp; by_compute).
  destruct (check_threads_blocks_overdue 511 watched_engine watched H1 Hnd) as (goods & bads & w' & Hc & Hg & Hbd & Hst & _ & _ & Hpl).
  { intros t. rewrite Hp. intros [->|[->|Ht]%elem_of_cons]%elem_of_cons; [by eexists|by eexists|by apply elem_of_nil in Ht]. }
  rewrite Hp in Hpl, Hg, Hbd. destruct (Hpl watched_pool_ok) as (Hsg & Hsb & Hstay & Hgive & _).
  assert (Hnd2 : NoDup [0; 1]%nat) by by_compute.
  assert (goods = [1%nat]) as -> by (apply only_element; [by eapply sublist_NoDup|]; intros t; rewrite Hg, Hv; split; [tauto|intros ->; split; [mem|done]]).
  assert (bads = [0%nat]) as -> by (apply only_element; [by eapply sublist_NoDup|]; intros t; rewrite Hbd, Hb; split; [tauto|intros ->; split; [mem|done]]).
  exists w'. split; [exact Hc|]. split; [by apply Hst; [mem|]|]. split.
  - rewrite (Hstay ltac:(done) 0%nat) by mem. vm_compute. reflexivity.
  - rewrite (Hgive 0%nat 1%nat eq_refl). vm_compute. reflexivity.
Defined.
