(* ===== verification/Socket.v ===== *)
(** * net/epoll/socket.hpp, net/epoll/socket.cpp: writing on a non-blocking socket

    The bytes a socket has handed to the kernel and the blocks that wait for
    the socket to become writable.  [::write] belongs to the kernel: what each
    call returns is an argument, a list of results consumed in order; a
    function that needs more results than there are is still in its loop, and
    its value is [None].  Also the mode of the descriptor and [peer_info_t]. *)

From stdpp Require Import strings pretty.
From S2P Require Import Prelude.
Local Open Scope Z_scope.

(** ** The descriptor's mode and the names of its ends *)

Definition O_NONBLOCK : Z := 2048.

(** [static int make_socket_non_blocking(int fd)]: the results of
    [fcntl(F_GETFL)] and of [fcntl(F_SETFL)], which depends on the flags; the
    value returned and the flags that were set. *)
Definition make_socket_non_blocking (getfl : Z) (setfl : Z → Z) : Z * option Z :=
  if getfl =? -1 then (-1, None)
  else
    let flags := Z.lor getfl O_NONBLOCK in
    if setfl flags =? -1 then (-1, None) else (0, Some flags).

(** It returns 0 only when the descriptor has become non-blocking, with its
    other flags as they were. *)
Lemma make_socket_non_blocking_sets getfl setfl r o :
  make_socket_non_blocking getfl setfl = (r, o) →
  (r = 0 ∧ ∃ flags, o = Some flags ∧ ∀ i, 0 <= i → Z.testbit flags i = Z.testbit getfl i || (i =? 11)) ∨
  (r = -1 ∧ o = None ∧ (getfl = -1 ∨ setfl (Z.lor getfl O_NONBLOCK) = -1)).
Proof.
  unfold make_socket_non_blocking. destruct (Z.eqb_spec getfl (-1)); [intros [= <- <-]; right; auto|].
  destruct (Z.eqb_spec (setfl (Z.lor getfl O_NONBLOCK)) (-1)); intros [= <- <-]; [right; auto|left].
  split; [done|]. eexists. split; [done|]. intros i Hi. rewrite Z.lor_spec. f_equal.
  change O_NONBLOCK with (2 ^ 11). rewrite Z.pow2_bits_eqb by lia. apply Z.eqb_sym.
Qed.

Inductive protocol_t := unknown | tcp | udp.

(** [peer_info_t] *)
Record peer_info_t := mk_peer_info {
  local_addr : string;
  remote_addr : string;
  local_port : Z;
  remote_port : Z
}.
Definition peer_info_init : peer_info_t := mk_peer_info EmptyString EmptyString 0 0.

(** [struct sockaddr_in]: the bytes of [sin_addr] in the order of the network,
    and [sin_port] as the machine reads it. *)
Record sockaddr_in := mk_sockaddr { sin_addr : N * N * N * N; sin_port : Z }.

(** [ntohs] of a little-endian machine; [inet_ntoa] and [inet_ntop] print the
    four bytes in decimal. *)
Definition ntohs (v : Z) : Z := Z.lor (Z.shiftl (Z.land v 255) 8) (Z.shiftr v 8).
Definition inet_ntoa (a : N * N * N * N) : string :=
  let '(b1, b2, b3, b4) := a in
  (pretty b1 +:+ "." +:+ pretty b2 +:+ "." +:+ pretty b3 +:+ "." +:+ pretty b4)%string.

(** [void update_peer_info()], over what [getsockname] and [getpeername] find
    ([None] when they fail). *)
Definition update_peer_info (m_protocol : protocol_t) (sockname peername : option sockaddr_in) (i : peer_info_t) : peer_info_t :=
  let i1 := match sockname with
            | Some a => mk_peer_info (inet_ntoa (sin_addr a)) (remote_addr i) (ntohs (sin_port a)) (remote_port i)
            | None => i
            end in
  match m_protocol, peername with
  | tcp, Some a => mk_peer_info (local_addr i1) (inet_ntoa (sin_addr a)) (local_port i1) (ntohs (sin_port a))
  | _, _ => i1
  end.

(** The ports are those of the kernel, byte for byte. *)
Lemma ntohs_bytes hi lo : 0 <= hi < 256 → 0 <= lo < 256 → ntohs (lo * 256 + hi) = hi * 256 + lo.
Proof.
  intros Hh Hl. unfold ntohs. change 255 with (Z.ones 8). rewrite Z.land_ones, Z.shiftl_mul_pow2, Z.shiftr_div_pow2 by lia.
  change (2 ^ 8) with 256. rewrite (Z.add_comm (lo * 256)), Z.mod_add, Z.mod_small, Z.div_add, Z.div_small by lia.
  rewrite Z.add_0_l. rewrite <- Z.add_lor_land. replace (Z.land (hi * 256) lo) with 0; [lia|].
  symmetry. apply Z.bits_inj'. intros n Hn. rewrite Z.land_spec, Z.bits_0. change 256 with (2 ^ 8).
  destruct (Z.lt_ge_cases n 8).
  - by rewrite Z.mul_pow2_bits_low.
  - rewrite (Z.bits_above_log2 lo); [by rewrite andb_false_r|lia|].
    destruct (Z.eq_dec lo 0) as [->|]; [simpl; lia|]. assert (Z.log2 lo < 8); [|lia]. apply Z.log2_lt_pow2; lia.
Qed.

Lemma update_peer_info_tcp a b i :
  update_peer_info tcp (Some a) (Some b) i =
  mk_peer_info (inet_ntoa (sin_addr a)) (inet_ntoa (sin_addr b)) (ntohs (sin_port a)) (ntohs (sin_port b)).
Proof. done. Qed.

Example update_peer_info_loopback :
  update_peer_info tcp (Some (mk_sockaddr (127, 0, 0, 1)%N 36895)) None peer_info_init =
  mk_peer_info "127.0.0.1" EmptyString 8080 0.
Proof. vm_compute. reflexivity. Qed.

(** ** Data *)

Section socket.
Context {byte_t : Type}.

(** [raw_data_block_t]: [m_buf] with its length ([m_len] is its size); the
    null buffer of an empty block is the empty list. *)
Record raw_data_block_t := mk_block { m_buf : list byte_t; m_key : option nat }.

(** The constructor copies nothing when [len <= 0]. *)
Definition new_block (data : list byte_t) (key : option nat) : raw_data_block_t :=
  match data with
  | [] => mk_block [] None
  | _ => mk_block data key
  end.

Definition m_len (b : raw_data_block_t) : Z := Z.of_nat (length (m_buf b)).

(** The copy and the move constructor, and the assignment. *)
Definition copy_block (other : raw_data_block_t) : raw_data_block_t := mk_block (m_buf other) (m_key other).
Definition move_block (other : raw_data_block_t) : raw_data_block_t * raw_data_block_t :=
  (mk_block (m_buf other) (m_key other), mk_block [] None).

(** One result of [::write]: its value and [errno]. *)
Record write_result := mk_result { ret : Z; errno : Z }.
Definition EINTR : Z := 4.

(** The events asked of the poller with [mod_fd]. *)
Inductive interest := want_read | want_read_write.

(** The members that matter to writing; [sent] is what the kernel accepted,
    [asked] the calls of [mod_fd], and [connected_told] what was written into
    [m_conn_res_chan]. *)
Record socket_t := mk_socket {
  m_fd : Z;
  m_self : nat;
  m_write_pending_list : list raw_data_block_t;
  m_conn_res_chan : option nat;
  sent : list byte_t;
  asked : list interest;
  connected_told : list nat
}.

Definition set_pending v s := mk_socket (m_fd s) (m_self s) v (m_conn_res_chan s) (sent s) (asked s) (connected_told s).
Definition send (d : list byte_t) s := mk_socket (m_fd s) (m_self s) (m_write_pending_list s) (m_conn_res_chan s) (sent s ++ d) (asked s) (connected_told s).
Definition mod_fd (i : interest) s := mk_socket (m_fd s) (m_self s) (m_write_pending_list s) (m_conn_res_chan s) (sent s) (asked s ++ [i]) (connected_told s).

(** [bool has_write_pending()] *)
Definition has_write_pending (s : socket_t) : bool :=
  match m_write_pending_list s with [] => false | _ => true end.

(** ** The loop around [::write] *)

(** [while (bytes_left > 0) { ... }]: the bytes left, the results not used,
    and the bytes accepted. *)
Fixpoint write_loop (rem : list byte_t) (rs : list write_result)
  : option (list byte_t * list write_result * list byte_t) :=
  match rem with
  | [] => Some ([], rs, [])
  | _ =>
    match rs with
    | [] => None
    | r :: rs' =>
      if ret r <=? 0 then
        if errno r =? EINTR then write_loop rem rs'
        else Some (rem, rs', [])
      else
        match write_loop (drop (Z.to_nat (ret r)) rem) rs' with
        | Some (l, rs2, acc) => Some (l, rs2, take (Z.to_nat (ret r)) rem ++ acc)
        | None => None
        end
    end
  end.

(** [ssize_t write(const byte_t *buf, ssize_t length)] *)
Definition write (buf : list byte_t) (rs : list write_result) (s : socket_t)
  : option (Z * list write_result * socket_t) :=
  match buf with
  | [] => Some (0, rs, s)
  | _ =>
    if has_write_pending s
    then Some (0, rs, set_pending (m_write_pending_list s ++ [new_block buf (Some (m_self s))]) s)
    else
      match write_loop buf rs with
      | None => None
      | Some (rem, rs', acc) =>
        let s1 := send acc s in
        let s2 := match rem with
                  | [] => s1
                  | _ => set_pending (m_write_pending_list s1 ++ [new_block rem (Some (m_self s))])
                           (if negb (has_write_pending s1) then mod_fd want_read_write s1 else s1)
                  end in
        Some (Z.of_nat (length buf) - Z.of_nat (length rem), rs', s2)
      end
  end.

(** The loop of [on_write] over the pending list.  [fuel] bounds the blocks
    visited: each iteration removes one, or stops. *)
Fixpoint flush (fuel : nat) (rs : list write_result) (total : Z) (s : socket_t)
  : option (Z * list write_result * socket_t) :=
  match m_write_pending_list s with
  | [] => Some (total, rs, s)
  | data :: _ =>
    match fuel with
    | O => None
    | S fuel' =>
      match m_buf data with
      | [] => flush fuel' rs total (set_pending (tail (m_write_pending_list s)) s)
      | buf =>
        match write_loop buf rs with
        | None => None
        | Some (rem, rs', acc) =>
          let s1 := send acc s in
          let total' := total + Z.of_nat (length acc) in
          match rem with
          | [] => flush fuel' rs' total' (set_pending (tail (m_write_pending_list s1)) s1)
          | _ =>
            (* [push_front] of the rest, then [pop_front] *)
            let s2 := mod_fd want_read_write s1 in
            let s3 := set_pending (new_block rem (Some (m_self s)) :: m_write_pending_list s2) s2 in
            Some (total', rs', set_pending (tail (m_write_pending_list s3)) s3)
          end
        end
      end
    end
  end.

(** [ssize_t on_write()] *)
Definition on_write (rs : list write_result) (s : socket_t) : option (Z * list write_result * socket_t) :=
  let s1 := mod_fd want_read s in
  let s2 := match m_conn_res_chan s1 with
            | Some c => mk_socket (m_fd s1) (m_self s1) (m_write_pending_list s1) None (sent s1) (asked s1) (connected_told s1 ++ [c])
            | None => s1
            end in
  flush (length (m_write_pending_list s2)) rs 0 s2.

(** ** The stream of a socket *)

Definition pending_bytes (s : socket_t) : list byte_t := concat (m_buf <$> m_write_pending_list s).

(** What the peer will have received once everything pending is sent. *)
Definition stream (s : socket_t) : list byte_t := sent s ++ pending_bytes s.

(** The kernel never accepts more than it was given. *)
Fixpoint results_ok (rem : list byte_t) (rs : list write_result) : Prop :=
  match rs with
  | [] => True
  | r :: rs' =>
    if ret r <=? 0 then results_ok rem rs'
    else ret r <= Z.of_nat (length rem) ∧ results_ok (drop (Z.to_nat (ret r)) rem) rs'
  end.

Lemma write_loop_split rem rs l rs' acc : write_loop rem rs = Some (l, rs', acc) → rem = acc ++ l.
Proof.
  revert rem l acc. induction rs as [|r rs IH]; intros rem l acc H; destruct rem as [|b rem]; simpl in H; simplify_eq; [done|done|].
  case_if_in H.
  - case_if_in H; [by apply IH|by simplify_eq].
  - destruct (write_loop _ rs) as [[[l1 rs1] acc1]|] eqn:E1; [|done]. simplify_eq. apply IH in E1.
    rewrite <- (assoc_L (++)), <- E1. by rewrite take_drop.
Qed.

Lemma has_write_pending_false s : has_write_pending s = false ↔ m_write_pending_list s = [].
Proof. unfold has_write_pending. by destruct (m_write_pending_list s). Qed.

Lemma new_block_buf data key : m_buf (new_block data key) = data.
Proof. by destruct data. Qed.

Lemma pending_snoc s b : pending_bytes (set_pending (m_write_pending_list s ++ [b]) s) = pending_bytes s ++ m_buf b.
Proof. unfold pending_bytes. simpl. rewrite fmap_app, concat_app. simpl. by rewrite app_nil_r. Qed.

(** [write] appends its buffer to the stream. *)
Lemma write_stream buf rs s n rs' s' :
  write buf rs s = Some (n, rs', s') → stream s' = stream s ++ buf.
Proof.
  unfold write. destruct buf as [|b buf]; [intros; simplify_eq; by rewrite app_nil_r|].
  set (data := b :: buf). destruct (has_write_pending s) eqn:Ep.
  - intros H. simplify_eq. unfold stream. rewrite pending_snoc, new_block_buf. by rewrite (assoc_L (++)).
  - apply has_write_pending_false in Ep. destruct (write_loop data rs) as [[[rem rs1] acc]|] eqn:El; [|done].
    intros H. simplify_eq. apply write_loop_split in El. rewrite El.
    assert (Hp : has_write_pending (send acc s) = false) by (unfold has_write_pending; simpl; by rewrite Ep).
    unfold stream, pending_bytes. rewrite Ep. destruct rem as [|c rem]; simpl; rewrite ?Hp, Ep; simpl; by rewrite ?app_nil_r, <- ?(assoc_L (++)).
Qed.

(** No call is interrupted for ever: each one accepts something or refuses. *)
Definition answers (rs : list write_result) : Prop := ∀ r, r ∈ rs → 0 < ret r ∨ errno r ≠ EINTR.

Lemma write_loop_answers rem rs :
  answers rs → (length rem <= length rs)%nat →
  ∃ l k acc, write_loop rem rs = Some (l, drop k rs, acc) ∧ (k <= length rem)%nat.
Proof.
  revert rem. induction rs as [|r rs IH]; intros rem Ha Hl; destruct rem as [|b rem]; simpl in Hl; [|lia|..].
  - by exists [], 0%nat, [].
  - by exists [], 0%nat, [].
  - change (write_loop (b :: rem) (r :: rs)) with
      (if ret r <=? 0 then if errno r =? EINTR then write_loop (b :: rem) rs else Some (b :: rem, rs, [])
       else match write_loop (drop (Z.to_nat (ret r)) (b :: rem)) rs with
            | Some (l, rs2, acc) => Some (l, rs2, take (Z.to_nat (ret r)) (b :: rem) ++ acc)
            | None => None
            end).
    destruct (Z.leb_spec (ret r) 0) as [Hr|Hr].
    + destruct (Ha r ltac:(mem)) as [?|He]; [lia|]. apply Z.eqb_neq in He. rewrite He.
      exists (b :: rem), 1%nat, []. split; [done|simpl; lia].
    + assert (Hd : (length (drop (Z.to_nat (ret r)) (b :: rem)) <= length rem)%nat).
      { rewrite length_drop. simpl. lia. }
      destruct (IH (drop (Z.to_nat (ret r)) (b :: rem))) as (l & k & acc & -> & Hk);
        [intros x Hx; apply Ha; mem|lia|].
      exists l, (S k), (take (Z.to_nat (ret r)) (b :: rem) ++ acc). split; [done|simpl; lia].
Qed.

Lemma write_answers buf rs s :
  answers rs → (length buf <= length rs)%nat →
  ∃ n k s', write buf rs s = Some (n, drop k rs, s') ∧ (k <= length buf)%nat.
Proof.
  intros Ha Hl. unfold write. destruct buf as [|b buf]; [exists 0, 0%nat; by eexists|].
  case_if; [exists 0, 0%nat; eexists; split; [done|lia]|].
  destruct (write_loop_answers (b :: buf) rs Ha Hl) as (l & k & acc & -> & Hk). by do 3 eexists.
Qed.

(** C30: writing keeps the stream.  Whatever the kernel accepts of it, [write]
    appends exactly its buffer to what the peer has received or will receive:
    the bytes not accepted wait behind those already waiting; the value
    returned is the number of bytes accepted by this call; and when bytes are
    left on a socket on which none waited, the poller is asked for
    writability. *)
Theorem write_appends_to_stream buf rs s n rs' s' :
  write buf rs s = Some (n, rs', s') →
  stream s' = stream s ++ buf ∧
  Z.of_nat (length (sent s')) = Z.of_nat (length (sent s)) + n ∧
  (m_write_pending_list s = [] → m_write_pending_list s' ≠ [] → asked s' = asked s ++ [want_read_write]).
Proof.
  intros Hw. split; [by eapply write_stream|]. revert Hw.
  unfold write. destruct buf as [|b buf]; [intros; simplify_eq; split; [lia|done]|].
  set (data := b :: buf). destruct (has_write_pending s) eqn:Ep.
  - intros H. simplify_eq. split; [simpl; lia|]. intros Hn. unfold has_write_pending in Ep. by rewrite Hn in Ep.
  - apply has_write_pending_false in Ep. destruct (write_loop data rs) as [[[rem rs1] acc]|] eqn:El; [|done].
    intros H. simplify_eq. apply write_loop_split in El. assert (Hp : has_write_pending (send acc s) = false) by (unfold has_write_pending; simpl; by rewrite Ep).
    rewrite El. destruct rem as [|c rem]; simpl; rewrite ?Hp, ?Ep; simpl; rewrite !length_app; simpl; (split; [lia|done]).
Qed.

(** The pending list after [flush], for the block that stopped it. *)
Lemma flush_spec fuel rs total s n rs' s' :
  flush fuel rs total s = Some (n, rs', s') →
  ∃ done_, Z.of_nat (length (sent s')) - Z.of_nat (length (sent s)) = n - total ∧
  ((m_write_pending_list s' = [] ∧ sent s' = sent s ++ pending_bytes s ∧ asked s' = asked s) ∨
   (∃ b rest acc rem, m_write_pending_list s = done_ ++ b :: rest ∧ m_write_pending_list s' = b :: rest ∧
      m_buf b = acc ++ rem ∧ rem ≠ [] ∧ sent s' = sent s ++ concat (m_buf <$> done_) ++ acc ∧
      asked s' = asked s ++ [want_read_write])).
Proof.
  revert rs total s. induction fuel as [|fuel IH]; intros rs total s H; simpl in H.
  { destruct (m_write_pending_list s) eqn:E; [|done]. simplify_eq. exists []. split; [lia|]. left.
    unfold pending_bytes. rewrite E. split_and!; [done|by rewrite app_nil_r|done]. }
  destruct (m_write_pending_list s) as [|b rest] eqn:E.
  { simplify_eq. exists []. split; [lia|]. left. unfold pending_bytes. rewrite E. split_and!; [done|by rewrite app_nil_r|done]. }
  assert (Hnext : ∀ acc rs1 total1, m_buf b = acc → total1 = total + Z.of_nat (length acc) →
    flush fuel rs1 total1 (set_pending rest (send acc s)) = Some (n, rs', s') →
    ∃ done_, Z.of_nat (length (sent s')) - Z.of_nat (length (sent s)) = n - total ∧
    ((m_write_pending_list s' = [] ∧ sent s' = sent s ++ pending_bytes s ∧ asked s' = asked s) ∨
     (∃ b' rest' acc' rem, b :: rest = done_ ++ b' :: rest' ∧ m_write_pending_list s' = b' :: rest' ∧
      m_buf b' = acc' ++ rem ∧ rem ≠ [] ∧ sent s' = sent s ++ concat (m_buf <$> done_) ++ acc' ∧
      asked s' = asked s ++ [want_read_write]))).
  { intros acc rs1 total1 Hacc Ht Hf. destruct (IH _ _ _ Hf) as (d & Hn & Hcase). simpl in *. rewrite length_app in Hn.
    exists (b :: d). split; [lia|]. destruct Hcase as [(H1 & H2 & H3)|(b' & rest' & acc' & rem & H1 & H2 & H3 & H4 & H5 & H6)].
    - left. split_and!; [done| |done]. rewrite H2. unfold pending_bytes. rewrite E. simpl. by rewrite Hacc, <- (assoc_L (++)).
    - right. exists b', rest', acc', rem. split_and!; try done; [by rewrite H1|]. rewrite H5. simpl. by rewrite Hacc, <- !(assoc_L (++)). }
  simpl in H. destruct (m_buf b) as [|c buf] eqn:Eb.
  { apply (Hnext [] rs total); [done|simpl; lia|]. rewrite <- H. f_equal. unfold send. simpl. rewrite app_nil_r. by destruct s. }
  destruct (write_loop (c :: buf) rs) as [[[rem rs1] acc]|] eqn:El; [|done]. pose proof (write_loop_split _ _ _ _ _ El) as Hs.
  destruct rem as [|l rem]; [by apply (Hnext acc rs1 (total + Z.of_nat (length acc))); [rewrite Hs, app_nil_r|..]|].
  simplify_eq. exists []. split; [simpl; rewrite length_app; lia|]. right. exists b, rest, acc, (l :: rem). simpl. rewrite Eb.
  split_and!; done.
Qed.

(** C31: what [on_write] sends.  Either everything pending is sent, in order,
    and nothing waits any more, or it stops in some block after sending the
    blocks before it and [acc], a proper prefix of that block; it then asks the
    poller for writability, and that block waits again, from its first byte.
    So the stream is kept exactly when [acc] is empty: otherwise [acc] will be
    sent twice. *)
Theorem on_write_resends_prefix rs s n rs' s' :
  on_write rs s = Some (n, rs', s') →
  Z.of_nat (length (sent s')) = Z.of_nat (length (sent s)) + n ∧
  ((m_write_pending_list s' = [] ∧ stream s' = stream s) ∨
   (∃ done_ b rest acc rem,
      m_write_pending_list s = done_ ++ b :: rest ∧ m_write_pending_list s' = b :: rest ∧
      m_buf b = acc ++ rem ∧ rem ≠ [] ∧
      sent s' = sent s ++ concat (m_buf <$> done_) ++ acc ∧
      stream s' = sent s ++ concat (m_buf <$> done_) ++ acc ++ pending_bytes (set_pending (b :: rest) s) ∧
      (stream s' = stream s ↔ acc = []) ∧
      List.last (asked s') want_read = want_read_write)).
Proof.
  unfold on_write. set (s2 := match m_conn_res_chan (mod_fd want_read s) with Some _ => _ | None => _ end). intros H.
  assert (H2 : sent s2 = sent s ∧ m_write_pending_list s2 = m_write_pending_list s).
  { subst s2. simpl. by destruct (m_conn_res_chan s). }
  destruct H2 as [Hse Hpe]. apply flush_spec in H as (d & Hn & Hcase). rewrite Hse in *. split; [lia|].
  unfold stream, pending_bytes. rewrite Hpe in Hcase. unfold pending_bytes in Hcase. rewrite Hpe in Hcase.
  destruct Hcase as [(H1 & H3 & _)|(b & rest & acc & rem & H1 & H3 & H4 & H5 & H6 & H7)].
  - left. split; [done|]. by rewrite H1, H3, app_nil_r.
  - right. exists d, b, rest, acc, rem.
    assert (Hst : sent s' ++ concat (m_buf <$> m_write_pending_list s') = sent s ++ concat (m_buf <$> d) ++ acc ++ concat (m_buf <$> b :: rest)).
    { by rewrite H6, H3, <- !(assoc_L (++)). }
    split_and!; try done.
    + rewrite Hst, H1, fmap_app, concat_app. split.
      * intros Heq. apply app_inv_head, app_inv_head in Heq. apply (f_equal length) in Heq. rewrite length_app in Heq.
        destruct acc; [done|simpl in Heq; lia].
      * by intros ->.
    + rewrite H7. by rewrite last_last.
Qed.
(** ** Termination *)

(** The kernel eventually refuses a call. *)
Definition refuses_once (rs : list write_result) : Prop := ∃ r, r ∈ rs ∧ ret r <= 0 ∧ errno r ≠ EINTR.

Lemma write_loop_returns rem rs :
  refuses_once rs → ∃ l rs' acc, write_loop rem rs = Some (l, rs', acc) ∧ (l = [] → refuses_once rs').
Proof.
  revert rem. induction rs as [|r rs IH]; intros rem (x & Hx & Hr & He); [by apply elem_of_nil in Hx|].
  destruct rem as [|b rem]; [exists [], (r :: rs), []; split; [done|]; intros _; by exists x|].
  change (write_loop (b :: rem) (r :: rs)) with
    (if ret r <=? 0 then if errno r =? EINTR then write_loop (b :: rem) rs else Some (b :: rem, rs, [])
     else match write_loop (drop (Z.to_nat (ret r)) (b :: rem)) rs with
          | Some (l, rs2, acc) => Some (l, rs2, take (Z.to_nat (ret r)) (b :: rem) ++ acc)
          | None => None
          end).
  destruct (Z.leb_spec (ret r) 0), (Z.eqb_spec (errno r) EINTR); [|by do 3 eexists| |];
    (assert (Hin : refuses_once rs) by (exists x; apply elem_of_cons in Hx as [->|Hx]; [lia || done|by split_and!])).
  - by apply IH.
  - destruct (IH (drop (Z.to_nat (ret r)) (b :: rem)) Hin) as (l & rs' & acc & -> & Hl). by do 3 eexists.
  - destruct (IH (drop (Z.to_nat (ret r)) (b :: rem)) Hin) as (l & rs' & acc & -> & Hl). by do 3 eexists.
Qed.

Lemma flush_returns fuel rs total s :
  (length (m_write_pending_list s) <= fuel)%nat → refuses_once rs → is_Some (flush fuel rs total s).
Proof.
  revert rs total s. induction fuel as [|fuel IH]; intros rs total s Hf Hr; simpl.
  { destruct (m_write_pending_list s); [by eexists|simpl in Hf; lia]. }
  destruct (m_write_pending_list s) as [|b rest] eqn:E; [by eexists|]. simpl in Hf.
  destruct (m_buf b) as [|c buf]; [apply IH; [simpl; lia|done]|].
  destruct (write_loop_returns (c :: buf) rs Hr) as (l & rs' & acc & -> & Hl).
  destruct l; [|by eexists]. apply IH; [simpl; lia|by apply Hl].
Qed.

(** C32: writing ends.  [write] and [on_write] return as soon as the kernel
    refuses a call for another reason than an interruption. *)
Theorem writing_terminates buf rs s :
  refuses_once rs → is_Some (write buf rs s) ∧ is_Some (on_write rs s).
Proof.
  intros Hr. split.
  - unfold write. destruct buf as [|b buf]; [by eexists|]. case_if; [by eexists|].
    destruct (write_loop_returns (b :: buf) rs Hr) as (l & rs' & acc & -> & _). by eexists.
  - unfold on_write. by apply flush_returns.
Qed.
End socket.

Definition demo_socket : socket_t (byte_t := nat) :=
  mk_socket 5 1 [mk_block [1; 2; 3]%nat (Some 1%nat)] None [] [] [].

Lemma write_appends_to_stream_witness :
  ∃ s', write [1; 2; 3]%nat [mk_result 2 0; mk_result (-1) 11] (set_pending [] demo_socket) = Some (2, [], s') ∧
    stream s' = [1; 2; 3]%nat ∧ sent s' = [1; 2]%nat.
Proof.
  eexists. split; [reflexivity|].
  destruct (write_appends_to_stream [1; 2; 3]%nat [mk_result 2 0; mk_result (-1) 11] (set_pending [] demo_socket) 2 [] _ eq_refl) as (H & _).
  split; [exact H|reflexivity].
Defined.

(** Three bytes wait; the kernel accepts two of them, later all it is given:
    the peer receives five. *)
Lemma on_write_resends_prefix_witness :
  ∃ s1 s2, on_write [mk_result 2 0; mk_result (-1) 11] demo_socket = Some (2, [], s1) ∧
    on_write [mk_result 3 0] s1 = Some (3, [], s2) ∧ sent s2 = [1; 2; 1; 2; 3]%nat ∧
    Z.of_nat (length (sent s1)) = Z.of_nat (length (sent demo_socket)) + 2.
Proof.
  do 2 eexists. split; [reflexivity|]. split; [reflexivity|]. split; [reflexivity|].
  exact (proj1 (on_write_resends_prefix [mk_result 2 0; mk_result (-1) 11] demo_socket 2 [] _ eq_refl)).
Defined.

Lemma writing_terminates_witness :
  is_Some (on_write [mk_result 2 0; mk_result (-1) 4; mk_result (-1) 11] demo_socket).
Proof.
  refine (proj2 (writing_terminates [] _ demo_socket _)). exists (mk_result (-1) 11). split; [mem|]. by vm_compute.
Defined.
