(* ===== verification/Poller.v ===== *)
(** * net/epoll: the poller, the life of a socket, the tables of its owners

    [epoll_t] keeps raw pointers to its handlers; a socket registers itself in
    its constructor and unregisters itself in its destructor; the server and
    the client own their sockets and destroy them from inside the socket's own
    [on_close].  Objects are named by addresses; a call through, or an access
    to, an object that has been destroyed is the result [use_after_free].  The
    calls of [epoll_ctl] and [close] are logged; whether an [epoll_ctl]
    succeeds is taken from the list [ctl_results] (success when it is empty). *)

From S2P Require Import Prelude.
Local Open Scope Z_scope.

(** ** Data *)

Inductive syscall :=
  | ctl_add (fd : Z)
  | ctl_mod (fd : Z)
  | ctl_del (fd : Z)
  | close (fd : Z).

#[export] Instance syscall_eq_dec : EqDecision syscall.
Proof. solve_decision. Defined.

(** The owner of a socket, its [m_sink]: the server or the client. *)
Inductive sink_t := sink_server | sink_client.

Inductive client_state_t := creating | connecting | connected | disconnected.

Record handler_t := mk_handler { m_fd : Z; m_sink : sink_t; m_is_listener : bool }.

(** [m_fd_map] of the poller; the live sockets; [m_listener] and
    [m_connections] of the server; [m_socket] and [m_state] of the client; the
    blocks delivered to the read channels ([which] and the length). *)
Record net := mk_net {
  m_fd_map : gmap Z nat;
  sockets : gmap nat handler_t;
  next_socket : nat;
  m_listener : option nat;
  m_connections : gset nat;
  m_socket : option nat;
  m_state : client_state_t;
  delivered : list (nat * Z);
  log : list syscall;
  ctl_results : list bool
}.

Definition set_fd_map v s := mk_net v (sockets s) (next_socket s) (m_listener s) (m_connections s) (m_socket s) (m_state s) (delivered s) (log s) (ctl_results s).
Definition set_sockets v s := mk_net (m_fd_map s) v (next_socket s) (m_listener s) (m_connections s) (m_socket s) (m_state s) (delivered s) (log s) (ctl_results s).
Definition set_connections v s := mk_net (m_fd_map s) (sockets s) (next_socket s) (m_listener s) v (m_socket s) (m_state s) (delivered s) (log s) (ctl_results s).
Definition set_client v st s := mk_net (m_fd_map s) (sockets s) (next_socket s) (m_listener s) (m_connections s) v st (delivered s) (log s) (ctl_results s).
Definition deliver d s := mk_net (m_fd_map s) (sockets s) (next_socket s) (m_listener s) (m_connections s) (m_socket s) (m_state s) (delivered s ++ [d]) (log s) (ctl_results s).
Definition add_log c s := mk_net (m_fd_map s) (sockets s) (next_socket s) (m_listener s) (m_connections s) (m_socket s) (m_state s) (delivered s) (log s ++ [c]) (ctl_results s).

(** [epoll_ctl]: whether it succeeds. *)
Definition epoll_ctl (c : syscall) (s : net) : bool * net :=
  let s1 := add_log c s in
  match ctl_results s1 with
  | [] => (true, s1)
  | b :: bs => (b, mk_net (m_fd_map s1) (sockets s1) (next_socket s1) (m_listener s1) (m_connections s1)
                     (m_socket s1) (m_state s1) (delivered s1) (log s1) bs)
  end.

Inductive res (A : Type) :=
  | ok (a : A) (s : net)
  | use_after_free (s : net)
  | out_of_fuel.
Arguments ok {A} _ _.
Arguments use_after_free {A} _.
Arguments out_of_fuel {A}.

Definition bind {A B} (x : res A) (f : A → net → res B) : res B :=
  match x with
  | ok a s => f a s
  | use_after_free s => use_after_free s
  | out_of_fuel => out_of_fuel
  end.

(** ** Closing *)

(** [int del_fd(epoll_handler_it *handler)] on a live handler. *)
Definition del_fd (h : handler_t) (s : net) : Z * net :=
  if m_fd h =? 0 then (0, s)
  else (m_fd h, snd (epoll_ctl (ctl_del (m_fd h)) (set_fd_map (delete (m_fd h) (m_fd_map s)) s))).

(** [int close_fd(epoll_handler_it *handler)], with the calls it makes through
    the virtual functions: [socket_t::on_close], the owner's [on_closed], and,
    when the owner deletes the socket, [socket_t::~socket_t], which calls
    [close_fd] again.  Each round takes one unit of [fuel]. *)
Fixpoint close_fd (fuel : nat) (handler : option nat) (s : net) : res Z :=
  match fuel with
  | O => out_of_fuel
  | S fuel' =>
    match handler with
    | None => ok 0 s
    | Some p =>
      match sockets s !! p with
      | None => use_after_free s
      | Some h =>
        let '(_, s1) := del_fd h s in
        (* the destructor, and the end of the object *)
        let destroy q s := bind (close_fd fuel' (Some q) s) (λ _ s', ok tt (set_sockets (delete q (sockets s')) s')) in
        let on_closed :=
          match m_sink h with
          | sink_server =>
            if bool_decide (p ∈ m_connections s1)
            then destroy p (set_connections (m_connections s1 ∖ {[p]}) s1) else ok tt s1
          | sink_client =>
            match m_socket s1 with
            | Some q => destroy q (set_client None disconnected s1)
            | None => ok tt s1
            end
          end in
        bind on_closed (λ _ s2,
          match sockets s2 !! p with
          | None => use_after_free s2
          | Some h2 => ok 0 (add_log (close (m_fd h2)) s2)
          end)
      end
    end
  end.

(** Enough for the nesting there is: the owner has given the socket up before
    it destroys it, so the second round calls nothing back. *)
Definition fuel : nat := 3.

(** [socket_t::~socket_t()] and the end of the object. *)
Definition destroy (p : nat) (s : net) : res unit :=
  bind (close_fd fuel (Some p) s) (λ _ s', ok tt (set_sockets (delete p (sockets s')) s')).

(** [epoll_handler_it *get_handler(int fd)] *)
Definition get_handler (fd : Z) (s : net) : option nat := m_fd_map s !! fd.

(** [int close_fd(int fd)] *)
Definition close_fd_of (fd : Z) (s : net) : res Z := close_fd fuel (get_handler fd s) s.

(** ** Registering *)

(** [int add_fd(epoll_handler_it *handler, int32_t flag)] *)
Definition add_fd (p : nat) (s : net) : res Z :=
  match sockets s !! p with
  | None => use_after_free s
  | Some h =>
    if m_fd h <=? 0 then ok (m_fd h) s
    else
      let inserted :=
        match m_fd_map s !! m_fd h with
        | None => ok tt (set_fd_map (<[m_fd h := p]> (m_fd_map s)) s)
        | Some old =>
          match sockets s !! old with
          | None => use_after_free s
          | Some ho => let '(_, s1) := del_fd ho s in
                       ok tt (match m_fd_map s1 !! m_fd h with
                              | None => set_fd_map (<[m_fd h := p]> (m_fd_map s1)) s1
                              | Some _ => s1
                              end)
          end
        end in
      bind inserted (λ _ s1,
        let '(b, s2) := epoll_ctl (ctl_add (m_fd h)) s1 in
        if b : bool then ok (m_fd h) s2
        else bind (close_fd fuel (Some p) s2) (λ _ s3, ok 0 s3))
  end.

(** [int mod_fd(int fd, int32_t flag)] *)
Definition mod_fd (fd : Z) (s : net) : res Z :=
  match get_handler fd s with
  | None => ok (-1) s
  | Some p =>
    let '(b, s1) := epoll_ctl (ctl_mod fd) s in
    if b : bool then ok 0 s1 else bind (close_fd fuel (Some p) s1) (λ _ s2, ok (-1) s2)
  end.

(** [socket_t::socket_t(...)] with [after_create]: the new object. *)
Definition new_socket (fd : Z) (sink : sink_t) (s : net) : res nat :=
  let p := next_socket s in
  let s1 := mk_net (m_fd_map s) (<[p := mk_handler fd sink false]> (sockets s)) (S p) (m_listener s)
              (m_connections s) (m_socket s) (m_state s) (delivered s) (log s) (ctl_results s) in
  if fd >? 0 then bind (add_fd p s1) (λ _ s2, ok p s2) else ok p s1.

(** ** The server's and the client's callbacks *)

(** [void raw_tcp_server_t::on_new_connection()], over the results of
    [accept]. *)
Fixpoint on_new_connection (accepted : list Z) (s : net) : res unit :=
  match accepted with
  | [] => ok tt s
  | infd :: r =>
    if infd <=? 0 then ok tt s
    else bind (new_socket infd sink_server s) (λ p s1,
           on_new_connection r (set_connections (m_connections s1 ∪ {[p]}) s1))
  end.

(** [on_new_data] of the owner of the socket. *)
Definition on_new_data (h : handler_t) (which : nat) (count : Z) (s : net) : net :=
  match m_sink h with
  | sink_server =>
    if bool_decide (which ∈ m_connections s) then (if count =? 0 then s else deliver (which, count) s) else s
  | sink_client => if count =? 0 then s else deliver (which, count) s
  end.

(** [ssize_t socket_t::on_read()]; [count] is the result of [::read]. *)
Definition on_read (p : nat) (count : Z) (accepted : list Z) (s : net) : res Z :=
  match sockets s !! p with
  | None => use_after_free s
  | Some h =>
    if m_is_listener h then bind (on_new_connection accepted s) (λ _ s1, ok (-1) s1)
    else ok count (if count >? 0 then on_new_data h p count s else s)
  end.

(** ** Polling *)

(** An event of [epoll_wait], with what the [read]s (or the [accept]s, for a
    listener) it leads to return. *)
Record event := mk_event { ev_fd : Z; ev_error : bool; ev_in : bool; ev_out : bool; reads : list Z; accepts : list Z }.

(** The [while (1)] of the [EPOLLIN] case. *)
Fixpoint read_all (p : nat) (counts accepted : list Z) (s : net) : res unit :=
  match counts with
  | [] => out_of_fuel
  | c :: cs =>
    bind (on_read p c accepted s) (λ count s1,
      if count =? -1 then ok tt s1
      else if count =? 0 then bind (close_fd fuel (Some p) s1) (λ _ s2, ok tt s2)
      else read_all p cs accepted s1)
  end.

(** [handler->on_write()]: its first action is [m_poller->mod_fd]. *)
Definition on_write_begin (p : nat) (s : net) : res Z :=
  match sockets s !! p with
  | None => use_after_free s
  | Some h => mod_fd (m_fd h) s
  end.

Definition handle_event (e : event) (s : net) : res unit :=
  if ev_error e then bind (close_fd_of (ev_fd e) s) (λ _ s1, ok tt s1)
  else match get_handler (ev_fd e) s with
  | None => ok tt (snd (epoll_ctl (ctl_del (ev_fd e)) s))
  | Some p =>
    bind (if ev_in e then read_all p (reads e) (accepts e) s else ok tt s) (λ _ s1,
      if ev_out e then bind (on_write_begin p s1) (λ _ s2, ok tt s2) else ok tt s1)
  end.

(** [int epoll_t::select(int wait_ms)], over the events [epoll_wait] reports. *)
Fixpoint select (es : list event) (s : net) : res unit :=
  match es with
  | [] => ok tt s
  | e :: es' => bind (handle_event e s) (λ _ s1, select es' s1)
  end.

(** ** The table of the poller *)

(** Every entry points to a live socket with that descriptor. *)
Definition map_ok (s : net) : Prop :=
  ∀ fd p, m_fd_map s !! fd = Some p → ∃ h, sockets s !! p = Some h ∧ m_fd h = fd ∧ 0 < fd.

Lemma epoll_ctl_frame c s :
  let s' := snd (epoll_ctl c s) in
  m_fd_map s' = m_fd_map s ∧ sockets s' = sockets s ∧ m_connections s' = m_connections s ∧
  m_socket s' = m_socket s ∧ m_state s' = m_state s ∧ log s' = log s ++ [c] ∧ m_listener s' = m_listener s ∧ next_socket s' = next_socket s.
Proof. unfold epoll_ctl. simpl. by destruct (ctl_results s). Qed.

Lemma del_fd_frame h s :
  let s' := snd (del_fd h s) in
  m_fd_map s' = (if m_fd h =? 0 then m_fd_map s else delete (m_fd h) (m_fd_map s)) ∧
  sockets s' = sockets s ∧ m_connections s' = m_connections s ∧ m_socket s' = m_socket s ∧
  log s' = log s ++ (if m_fd h =? 0 then [] else [ctl_del (m_fd h)]) ∧ next_socket s' = next_socket s.
Proof.
  unfold del_fd. case_if; simpl; [by rewrite app_nil_r|].
  destruct (epoll_ctl_frame (ctl_del (m_fd h)) (set_fd_map (delete (m_fd h) (m_fd_map s)) s)) as (-> & -> & -> & -> & _ & -> & _ & ->). done.
Qed.

Record net_ok (s : net) : Prop := {
  no_map : map_ok s;
  no_fresh : ∀ p, is_Some (sockets s !! p) → (p < next_socket s)%nat
}.

(** A result with [P]; where a destroyed socket is used, the invariant holds
    at that moment. *)
Definition good {A} (x : res A) (P : A → net → Prop) : Prop :=
  match x with ok a s => P a s | use_after_free s => net_ok s | out_of_fuel => True end.

Lemma good_bind {A B} (x : res A) (f : A → net → res B) P Q :
  good x P → (∀ a s, P a s → good (f a s) Q) → good (bind x f) Q.
Proof. destruct x; simpl; auto. Qed.

Lemma good_mono {A} (x : res A) (P Q : A → net → Prop) : good x P → (∀ a s, P a s → Q a s) → good x Q.
Proof. destruct x; simpl; auto. Qed.

(** What closing may do. *)
Definition closed (p : option nat) (s s' : net) : Prop :=
  net_ok s' ∧ m_fd_map s' ⊆ m_fd_map s ∧ sockets s' ⊆ sockets s ∧ next_socket s' = next_socket s ∧
  match p with Some q => ∀ fd, m_fd_map s' !! fd ≠ Some q | None => True end.

Lemma net_ok_frame s s' :
  m_fd_map s' = m_fd_map s → sockets s' = sockets s → next_socket s' = next_socket s → net_ok s → net_ok s'.
Proof. intros H1 H2 H3 [Hm Hf]. split; [unfold map_ok; by rewrite H1, H2|by rewrite H2, H3]. Qed.

Lemma del_fd_closed p h s : net_ok s → sockets s !! p = Some h → closed (Some p) s (snd (del_fd h s)).
Proof.
  intros [Hm Hf] Hp. destruct (del_fd_frame h s) as (H1 & H2 & _ & _ & _ & H3). unfold closed. rewrite H1, H2, H3.
  assert (Hsub : (if m_fd h =? 0 then m_fd_map s else delete (m_fd h) (m_fd_map s)) ⊆ m_fd_map s) by (case_if; [done|apply delete_subseteq]).
  split_and!; [|done|done|done|].
  - split; [|by rewrite H2, H3]. unfold map_ok. rewrite H1, H2. intros fd q Hq. apply Hm. by eapply lookup_weaken.
  - intros fd Hq. pose proof (lookup_weaken _ _ _ _ Hq Hsub) as Hq'. destruct (Hm fd p Hq') as (h' & Hh' & <- & Hpos).
    assert (h' = h) as -> by congruence. destruct (Z.eqb_spec (m_fd h) 0); [lia|]. by rewrite lookup_delete_eq in Hq.
Qed.

Lemma closed_trans p q s s1 s2 : closed p s s1 → closed q s1 s2 → closed p s s2.
Proof.
  intros (A1 & A2 & A3 & A4 & A5) (B1 & B2 & B3 & B4 & _). unfold closed. split_and!; [done|by etransitivity|by etransitivity|congruence|].
  destruct p as [r|]; [|done]. intros fd Hr. apply (A5 fd). by eapply lookup_weaken.
Qed.

Lemma closed_frame p s s1 s2 :
  m_fd_map s2 = m_fd_map s1 → sockets s2 = sockets s1 → next_socket s2 = next_socket s1 → closed p s s1 → closed p s s2.
Proof.
  intros H1 H2 H3 (A1 & A2 & A3 & A4 & A5). unfold closed. rewrite H1, H2, H3. split_and!; try done. by apply (net_ok_frame s1).
Qed.

Lemma closed_refl s : net_ok s → closed None s s.
Proof. intros Hs. unfold closed. by split_and!. Qed.

Lemma closed_forget p s s' : closed p s s' → closed None s s'.
Proof. intros (? & ? & ? & ? & _). unfold closed. by split_and!. Qed.

(** The end of an object that is no longer in the table. *)
Lemma closed_delete q s s' : closed (Some q) s s' → closed (Some q) s (set_sockets (delete q (sockets s')) s').
Proof.
  intros ([Hm Hf] & A2 & A3 & A4 & A5). unfold closed. split_and!; simpl; try done.
  - split; simpl.
    + intros fd p Hp. simpl in Hp. destruct (Hm fd p Hp) as (h & Hh & ?). exists h. simpl.
      rewrite lookup_delete_ne; [done|]. intros ->. by apply (A5 fd).
    + intros p Hp. apply Hf. destruct Hp as [h Hh]. apply lookup_delete_Some in Hh as [_ Hh]. by eexists.
  - etransitivity; [apply delete_subseteq|done].
Qed.

Lemma close_fd_closed n handler s : net_ok s → good (close_fd n handler s) (λ _ s', closed handler s s').
Proof.
  revert handler s. induction n as [|n IH]; intros handler s Hs; [done|]. simpl.
  destruct handler as [p|]; [|by apply closed_refl]. destruct (sockets s !! p) as [h|] eqn:Hp; [|done].
  pose proof (del_fd_closed p h s Hs Hp) as Hd. destruct (del_fd h s) as [r s1]. simpl in Hd.
  assert (Hdes : ∀ q s2, m_fd_map s2 = m_fd_map s1 → sockets s2 = sockets s1 → next_socket s2 = next_socket s1 →
    good (bind (close_fd n (Some q) s2) (λ _ s', ok tt (set_sockets (delete q (sockets s')) s'))) (λ _ s', closed (Some p) s s')).
  { intros q s2 H1 H2 H3. pose proof (closed_frame _ _ _ _ H1 H2 H3 Hd) as Hd2.
    apply (good_bind _ _ (λ _ s', closed (Some q) s2 s')); [apply IH, Hd2|]. intros _ s3 Hc. simpl.
    eapply closed_trans; [exact Hd2|]. by apply closed_delete. }
  apply (good_bind _ _ (λ _ s', closed (Some p) s s')).
  - destruct (m_sink h).
    + case_if; [by apply Hdes|done].
    + destruct (m_socket s1); [by apply Hdes|done].
  - intros _ s2 Hc. destruct (sockets s2 !! p) as [h2|]; [|apply Hc]. simpl. by apply (closed_frame _ _ s2).
Qed.

Lemma epoll_ctl_ok c s : net_ok s → net_ok (snd (epoll_ctl c s)).
Proof. destruct (epoll_ctl_frame c s) as (H1 & H2 & _ & _ & _ & _ & _ & H3). by apply net_ok_frame. Qed.

Lemma insert_fd_ok s p h : net_ok s → sockets s !! p = Some h → 0 < m_fd h → net_ok (set_fd_map (<[m_fd h := p]> (m_fd_map s)) s).
Proof.
  intros [Hm Hf] Hp Hpos. split; [|done]. intros fd q. simpl.
  intros [[<- <-]|[_ Hq]]%lookup_insert_Some; [by exists h|by apply Hm].
Qed.

Lemma add_fd_ok p s : net_ok s → good (add_fd p s) (λ _ s', net_ok s').
Proof.
  intros Hs. unfold add_fd. destruct (sockets s !! p) as [h|] eqn:Hp; [|done].
  destruct (Z.leb_spec (m_fd h) 0); [done|].
  apply (good_bind _ _ (λ _ s1, net_ok s1)).
  - destruct (m_fd_map s !! m_fd h) as [old|] eqn:Ho; [|by apply insert_fd_ok].
    destruct (sockets s !! old) as [ho|] eqn:Hold; [|done].
    pose proof (del_fd_closed old ho s Hs Hold) as (Hd & _). destruct (del_fd_frame ho s) as (_ & Hsk & _).
    destruct (del_fd ho s) as [r s1]. simpl in *. destruct (m_fd_map s1 !! m_fd h); [done|]. apply insert_fd_ok; [done|by rewrite Hsk|done].
  - intros _ s1 Hs1. pose proof (epoll_ctl_ok (ctl_add (m_fd h)) s1 Hs1) as Hs2.
    destruct (epoll_ctl _ s1) as [[] s2]; [done|]. apply (good_bind _ _ (λ _ s3, closed (Some p) s2 s3)); [by apply close_fd_closed|].
    by intros _ s3 (? & _).
Qed.

Lemma mod_fd_ok fd s : net_ok s → good (mod_fd fd s) (λ _ s', net_ok s').
Proof.
  intros Hs. unfold mod_fd. destruct (get_handler fd s) as [p|]; [|done].
  pose proof (epoll_ctl_ok (ctl_mod fd) s Hs) as Hs1. destruct (epoll_ctl _ s) as [[] s1]; [done|].
  apply (good_bind _ _ (λ _ s3, closed (Some p) s1 s3)); [by apply close_fd_closed|]. by intros _ s3 (? & _).
Qed.

Lemma new_socket_ok fd sink s : net_ok s → good (new_socket fd sink s) (λ _ s', net_ok s').
Proof.
  intros [Hm Hf]. unfold new_socket. set (s1 := mk_net _ _ _ _ _ _ _ _ _ _).
  assert (Hs1 : net_ok s1).
  { split; subst s1; simpl.
    - intros fd' p Hp. simpl in Hp. destruct (Hm fd' p Hp) as (h & Hh & ?). exists h. simpl. rewrite lookup_insert_ne; [done|].
      intros <-. assert (next_socket s < next_socket s)%nat; [|lia]. apply Hf. by eexists.
    - intros p Hp. destruct (decide (p = next_socket s)) as [->|Hne]; [lia|]. rewrite lookup_insert_ne in Hp by done.
      apply Hf in Hp. lia. }
  case_if; [|done]. apply (good_bind _ _ (λ _ s2, net_ok s2)); [by apply add_fd_ok|done].
Qed.

Lemma on_new_connection_ok l s : net_ok s → good (on_new_connection l s) (λ _ s', net_ok s').
Proof.
  revert s. induction l as [|fd l IH]; intros s Hs; simpl; [done|]. case_if; [done|].
  apply (good_bind _ _ (λ _ s1, net_ok s1)); [by apply new_socket_ok|]. intros p s1 Hs1. apply IH. by apply (net_ok_frame s1).
Qed.

Lemma on_new_data_ok h p c s : net_ok s → net_ok (on_new_data h p c s).
Proof. intros Hs. unfold on_new_data. repeat case_match; try done; by apply (net_ok_frame s). Qed.

Lemma on_read_ok p c l s : net_ok s → good (on_read p c l s) (λ _ s', net_ok s').
Proof.
  intros Hs. unfold on_read. destruct (sockets s !! p) as [h|]; [|done]. case_if.
  - apply (good_bind _ _ (λ _ s1, net_ok s1)); [by apply on_new_connection_ok|done].
  - simpl. case_if; [by apply on_new_data_ok|done].
Qed.

Lemma read_all_ok p cs l s : net_ok s → good (read_all p cs l s) (λ _ s', net_ok s').
Proof.
  revert s. induction cs as [|c cs IH]; intros s Hs; cbn [read_all]; [done|].
  apply (good_bind _ _ (λ _ s1, net_ok s1)); [by apply on_read_ok|]. intros n s1 Hs1. repeat case_if; [done| |by apply IH].
  apply (good_bind _ _ (λ _ s2, closed (Some p) s1 s2)); [by apply close_fd_closed|]. by intros _ s2 (? & _).
Qed.

Lemma handle_event_ok e s : net_ok s → good (handle_event e s) (λ _ s', net_ok s').
Proof.
  intros Hs. unfold handle_event. case_if.
  { apply (good_bind _ _ (λ _ s2, closed (get_handler (ev_fd e) s) s s2)); [by apply close_fd_closed|]. by intros _ s2 (? & _). }
  destruct (get_handler (ev_fd e) s) as [p|]; [|by apply epoll_ctl_ok].
  apply (good_bind _ _ (λ _ s1, net_ok s1)); [case_if; [by apply read_all_ok|done]|].
  intros _ s1 Hs1. case_if; [|done]. apply (good_bind _ _ (λ _ s1, net_ok s1)); [|done].
  unfold on_write_begin. destruct (sockets s1 !! p); [by apply mod_fd_ok|done].
Qed.

Lemma select_ok es s : net_ok s → good (select es s) (λ _ s', net_ok s').
Proof.
  revert s. induction es as [|e es IH]; intros s Hs; cbn [select]; [done|].
  apply (good_bind _ _ (λ _ s1, net_ok s1)); [by apply handle_event_ok|]. intros _ s1 Hs1. by apply IH.
Qed.

(** ** Closing a socket nobody owns any more, and closing one that is owned *)

(** One round of [close_fd]. *)
Definition round (n : nat) (p : nat) (h : handler_t) (s1 : net) : res Z :=
  let destroy q s := bind (close_fd n (Some q) s) (λ _ s', ok tt (set_sockets (delete q (sockets s')) s')) in
  bind match m_sink h with
       | sink_server => if bool_decide (p ∈ m_connections s1) then destroy p (set_connections (m_connections s1 ∖ {[p]}) s1) else ok tt s1
       | sink_client => match m_socket s1 with Some q => destroy q (set_client None disconnected s1) | None => ok tt s1 end
       end
    (λ _ s2, match sockets s2 !! p with None => use_after_free s2 | Some h2 => ok 0 (add_log (close (m_fd h2)) s2) end).

Lemma close_fd_round n p h s : sockets s !! p = Some h → close_fd (S n) (Some p) s = round n p h (snd (del_fd h s)).
Proof. intros Hp. cbn [close_fd]. rewrite Hp. by destruct (del_fd h s). Qed.

Lemma close_unowned n p h s :
  sockets s !! p = Some h → m_fd h ≠ 0 →
  match m_sink h with sink_server => p ∉ m_connections s | sink_client => m_socket s = None end →
  ∃ s', close_fd (S n) (Some p) s = ok 0 s' ∧ sockets s' = sockets s ∧ m_fd_map s' = delete (m_fd h) (m_fd_map s) ∧
    log s' = log s ++ [ctl_del (m_fd h); close (m_fd h)] ∧ m_connections s' = m_connections s ∧ m_socket s' = m_socket s.
Proof.
  intros Hp Hfd Hown. rewrite (close_fd_round n p h s Hp). destruct (del_fd_frame h s) as (H1 & H2 & H3 & H4 & H5 & _).
  set (s1 := snd (del_fd h s)) in *. apply Z.eqb_neq in Hfd. rewrite Hfd in *. exists (add_log (close (m_fd h)) s1).
  split.
  - unfold round. destruct (m_sink h).
    + rewrite bool_decide_eq_false_2 by (by rewrite H3). cbn [bind]. by rewrite H2, Hp.
    + rewrite H4, Hown. cbn [bind]. by rewrite H2, Hp.
  - simpl. rewrite H5, <- (assoc_L (++)). by split_and!.
Qed.

(** The socket is in the table of its owner. *)
Definition owned_by_sink (p : nat) (h : handler_t) (s : net) : Prop :=
  match m_sink h with sink_server => p ∈ m_connections s | sink_client => m_socket s = Some p end.

Lemma close_owned p h s :
  sockets s !! p = Some h → m_fd h ≠ 0 → owned_by_sink p h s →
  ∃ s', close_fd fuel (Some p) s = use_after_free s' ∧ sockets s' !! p = None ∧
    log s' = log s ++ [ctl_del (m_fd h); ctl_del (m_fd h); close (m_fd h)].
Proof.
  intros Hp Hfd Hown. unfold fuel. rewrite (close_fd_round 2 p h s Hp).
  destruct (del_fd_frame h s) as (H1 & H2 & H3 & H4 & H5 & _). set (s1 := snd (del_fd h s)) in *.
  assert (Hz : (m_fd h =? 0) = false) by (by apply Z.eqb_neq). rewrite Hz in *.
  unfold owned_by_sink in Hown.
  set (s2 := match m_sink h with sink_server => set_connections (m_connections s1 ∖ {[p]}) s1 | sink_client => set_client None disconnected s1 end).
  destruct (close_unowned 1 p h s2) as (s3 & Hc & Hsk & _ & Hlog & _).
  { subst s2. destruct (m_sink h); simpl; by rewrite H2. }
  { done. }
  { subst s2. destruct (m_sink h); simpl; [|done]. intros Hin. apply elem_of_difference in Hin as [_ Hn]. apply Hn. by apply elem_of_singleton. }
  exists (set_sockets (delete p (sockets s3)) s3).
  assert (Hlog2 : log s2 = log s1) by (subst s2; by destruct (m_sink h)). split_and!.
  - subst s2. unfold round. destruct (m_sink h).
    + rewrite bool_decide_eq_true_2 by (by rewrite H3). rewrite Hc. cbn [bind set_sockets sockets]. by rewrite lookup_delete_eq.
    + rewrite H4, Hown, Hc. cbn [bind set_sockets sockets]. by rewrite lookup_delete_eq.
  - simpl. apply lookup_delete_eq.
  - simpl. by rewrite Hlog, Hlog2, H5, <- !(assoc_L (++)).
Qed.

(** ** Every call returns *)

Definition ends {A} (x : res A) : Prop := match x with out_of_fuel => False | _ => True end.

Lemma ends_bind {A B} (x : res A) (f : A → net → res B) :
  ends x → (∀ a s, ends (f a s)) → ends (bind x f).
Proof. destruct x; simpl; auto. Qed.

(** One round is enough for a socket its owner does not know; ... *)
Lemma close_unowned_ends n p s :
  match sockets s !! p with
  | Some h => match m_sink h with sink_server => p ∉ m_connections s | sink_client => m_socket s = None end
  | None => True
  end → ends (close_fd (S n) (Some p) s).
Proof.
  destruct (sockets s !! p) as [h|] eqn:Hp; [|cbn [close_fd]; by rewrite Hp].
  intros Hown. rewrite (close_fd_round n p h s Hp). destruct (del_fd_frame h s) as (_ & _ & H3 & H4 & _).
  unfold round. destruct (m_sink h).
  - rewrite bool_decide_eq_false_2 by (by rewrite H3). cbn [bind]. by case_match.
  - rewrite H4, Hown. cbn [bind]. by case_match.
Qed.

(** ... a socket of the server takes two, a socket of the client three. *)
Lemma close_server_ends n p s h :
  sockets s !! p = Some h → m_sink h = sink_server → ends (close_fd (S (S n)) (Some p) s).
Proof.
  intros Hp Hk. rewrite (close_fd_round (S n) p h s Hp). destruct (del_fd_frame h s) as (_ & H2 & _).
  unfold round. rewrite Hk. apply ends_bind; [|intros _ s2; by case_match].
  case_if; [|done]. apply ends_bind; [|done]. apply close_unowned_ends. simpl. rewrite H2, Hp, Hk.
  intros Hin. apply elem_of_difference in Hin as [_ Hn]. apply Hn. by apply elem_of_singleton.
Qed.

Lemma close_fd_ends handler s : ends (close_fd fuel handler s).
Proof.
  unfold fuel. destruct handler as [p|]; [|done]. destruct (sockets s !! p) as [h|] eqn:Hp; [|cbn [close_fd]; by rewrite Hp].
  destruct (m_sink h) eqn:Hk; [by apply (close_server_ends _ _ _ h)|].
  rewrite (close_fd_round 2 p h s Hp). unfold round. rewrite Hk. apply ends_bind; [|intros _ s2; by case_match].
  destruct (m_socket _) as [q|]; [|done]. apply ends_bind; [|done].
  match goal with |- ends (close_fd _ _ ?s2) => destruct (sockets s2 !! q) as [h2|] eqn:Hq end.
  - destruct (m_sink h2) eqn:Hk2; [by apply (close_server_ends _ _ _ h2)|].
    apply close_unowned_ends. by rewrite Hq, Hk2.
  - apply close_unowned_ends. by rewrite Hq.
Qed.

Lemma add_fd_ends p s : ends (add_fd p s).
Proof.
  unfold add_fd. destruct (sockets s !! p) as [h|]; [|done]. case_if; [done|]. apply ends_bind.
  - destruct (m_fd_map s !! m_fd h) as [old|]; [|done]. destruct (sockets s !! old); [|done]. by destruct (del_fd _ _).
  - intros _ s1. destruct (epoll_ctl _ s1) as [[] s2]; [done|]. apply ends_bind; [apply close_fd_ends|done].
Qed.

Lemma mod_fd_ends fd s : ends (mod_fd fd s).
Proof.
  unfold mod_fd. destruct (get_handler fd s); [|done]. destruct (epoll_ctl _ s) as [[] s1]; [done|].
  apply ends_bind; [apply close_fd_ends|done].
Qed.

Lemma new_socket_ends fd sink s : ends (new_socket fd sink s).
Proof. unfold new_socket. case_if; [|done]. apply ends_bind; [apply add_fd_ends|done]. Qed.

Lemma destroy_ends p s : ends (destroy p s).
Proof. apply ends_bind; [apply close_fd_ends|done]. Qed.

Lemma on_new_connection_ends l s : ends (on_new_connection l s).
Proof.
  revert s. induction l as [|fd l IH]; intros s; simpl; [done|]. case_if; [done|].
  apply ends_bind; [apply new_socket_ends|]. intros p s1. apply IH.
Qed.

(** What the kernel answers to the [read]s of an event comes to an end. *)
Definition drains (e : event) : Prop := ∃ c, c ∈ reads e ∧ (c = 0 ∨ c = -1).

Lemma read_all_ends p cs l s c : c ∈ cs → c = 0 ∨ c = -1 → ends (read_all p cs l s).
Proof.
  intros Hin Hc. revert s. induction cs as [|d cs IH]; intros s; [by apply elem_of_nil in Hin|]. cbn [read_all].
  unfold on_read. destruct (sockets s !! p) as [h|]; [|done]. destruct (m_is_listener h).
  - destruct (on_new_connection l s) eqn:E; [done|done|]. pose proof (on_new_connection_ends l s) as H. by rewrite E in H.
  - cbn [bind]. generalize (if d >? 0 then on_new_data h p d s else s). intros s1.
    destruct (Z.eqb_spec d (-1)); [done|]. destruct (Z.eqb_spec d 0); [apply ends_bind; [apply close_fd_ends|done]|].
    apply IH. apply elem_of_cons in Hin as [->|Hin]; [lia|done].
Qed.

Lemma handle_event_ends e s : drains e → ends (handle_event e s).
Proof.
  intros (c & Hin & Hc). unfold handle_event. case_if; [apply ends_bind; [apply close_fd_ends|done]|].
  destruct (get_handler (ev_fd e) s) as [p|]; [|done]. apply ends_bind.
  - case_if; [by apply (read_all_ends _ _ _ _ c)|done].
  - intros _ s1. case_if; [|done]. apply ends_bind; [|done]. unfold on_write_begin.
    destruct (sockets s1 !! p); [apply mod_fd_ends|done].
Qed.

Lemma select_ends es s : Forall drains es → ends (select es s).
Proof.
  intros H. revert s. induction H as [|e es He _ IH]; intros s; cbn [select]; [done|].
  apply ends_bind; [by apply handle_event_ends|]. intros _ s1. apply IH.
Qed.

(** ** While nobody leaves *)

(** No [epoll_ctl] fails. *)
Definition calm (s : net) : Prop := net_ok s ∧ ctl_results s = [].

Definition grows {A} (s : net) (x : res A) : Prop :=
  ∃ a s', x = ok a s' ∧ calm s' ∧ sockets s ⊆ sockets s' ∧ m_connections s ⊆ m_connections s'.

Lemma grows_bind {A B} s (x : res A) (f : A → net → res B) :
  grows s x → (∀ a s1, x = ok a s1 → calm s1 → sockets s ⊆ sockets s1 → grows s1 (f a s1)) → grows s (bind x f).
Proof.
  intros (a & s1 & -> & Hc & Hs & Hm) Hf. destruct (Hf a s1 eq_refl Hc Hs) as (b & s2 & Hb & Hc2 & Hs2 & Hm2).
  exists b, s2. simpl. split_and!; [done..|by etransitivity|by etransitivity].
Qed.

Lemma calm_ctl c s : calm s → fst (epoll_ctl c s) = true ∧ calm (snd (epoll_ctl c s)).
Proof.
  intros [Hs Hc]. pose proof (epoll_ctl_ok c s Hs) as Hs1. revert Hs1. unfold epoll_ctl. simpl. rewrite Hc. simpl. by split.
Qed.

Lemma grows_ok {A} (a : A) s s' :
  calm s' → sockets s' = sockets s → m_connections s' = m_connections s → grows s (ok a s').
Proof. intros Hc H1 H2. exists a, s'. rewrite H1, H2. by split_and!. Qed.

Lemma del_fd_ctl h s : ctl_results s = [] → ctl_results (snd (del_fd h s)) = [].
Proof. intros H. unfold del_fd. case_if; [done|]. unfold epoll_ctl. simpl. by rewrite H. Qed.

Lemma add_fd_grows p s : calm s → is_Some (sockets s !! p) → grows s (add_fd p s).
Proof.
  intros [Hs Hc] [h Hp]. unfold add_fd. rewrite Hp. destruct (Z.leb_spec (m_fd h) 0) as [|Hpos]; [by apply grows_ok|].
  apply grows_bind.
  - destruct (m_fd_map s !! m_fd h) as [old|] eqn:Ho.
    2: { apply grows_ok; [split; [by apply insert_fd_ok|done]|done..]. }
    destruct (no_map _ Hs _ _ Ho) as (ho & Hold & Hfo & _). rewrite Hold.
    pose proof (del_fd_closed old ho s Hs Hold) as (Hd & _). destruct (del_fd_frame ho s) as (_ & Hsk & Hcn & _).
    pose proof (del_fd_ctl ho s Hc) as Hr. destruct (del_fd ho s) as [r s1]. simpl in *.
    destruct (m_fd_map s1 !! m_fd h); apply grows_ok; try done. split; [|done]. apply insert_fd_ok; [done|by rewrite Hsk|done].
  - intros _ s1 _ Hc1 _. destruct (calm_ctl (ctl_add (m_fd h)) s1 Hc1) as [Hb Hc2].
    destruct (epoll_ctl_frame (ctl_add (m_fd h)) s1) as (_ & Hsk & Hcn & _).
    destruct (epoll_ctl _ s1) as [b s2]. simpl in *. subst b. by apply grows_ok.
Qed.

Lemma new_socket_grows fd sink s : calm s → grows s (new_socket fd sink s).
Proof.
  intros [Hs Hc]. unfold new_socket. set (s1 := mk_net _ _ _ _ _ _ _ _ _ _).
  assert (Hfresh : sockets s !! next_socket s = None).
  { apply eq_None_not_Some. intros H%(no_fresh _ Hs). lia. }
  assert (Hs1 : grows s (ok tt s1)).
  { exists tt, s1. split_and!; [done| |by apply insert_subseteq|done]. split; [|done]. split; subst s1; simpl.
    - intros fd' p Hp. simpl in Hp. destruct (no_map _ Hs fd' p Hp) as (h & Hh & ?). exists h. simpl.
      rewrite lookup_insert_ne; [done|]. intros <-. congruence.
    - intros p Hp. destruct (decide (p = next_socket s)) as [->|Hne]; [lia|]. rewrite lookup_insert_ne in Hp by done.
      apply (no_fresh _ Hs) in Hp. lia. }
  case_if.
  - change (bind (add_fd (next_socket s) s1) (λ _ s2, ok (next_socket s) s2))
      with (bind (ok tt s1) (λ _ s1, bind (add_fd (next_socket s) s1) (λ _ s2, ok (next_socket s) s2))).
    apply grows_bind; [done|]. intros [] s0 [= <-] Hc1 _. apply grows_bind.
    + apply add_fd_grows; [done|]. subst s1. simpl. rewrite lookup_insert_eq. by eexists.
    + intros _ s2 _ Hc2 _. by apply grows_ok.
  - destruct Hs1 as (a & s' & Heq & H). injection Heq as _ Heq. subst s'. by exists (next_socket s), s1.
Qed.

Lemma on_new_connection_grows l s : calm s → grows s (on_new_connection l s).
Proof.
  revert s. induction l as [|fd l IH]; intros s Hs; simpl; [by apply grows_ok|]. case_if; [by apply grows_ok|].
  apply grows_bind; [by apply new_socket_grows|]. intros p s1 _ Hc1 _.
  set (s2 := set_connections (m_connections s1 ∪ {[p]}) s1).
  assert (Hc2 : calm s2) by (destruct Hc1; split; [by apply (net_ok_frame s1)|done]).
  destruct (IH s2 Hc2) as (a & s3 & H3 & Hc3 & Hs3 & Hm3). exists a, s3. split_and!; [done..|].
  subst s2. simpl in Hm3. set_solver.
Qed.

Lemma read_all_grows p cs l s :
  calm s → is_Some (sockets s !! p) → -1 ∈ cs → 0 ∉ cs → grows s (read_all p cs l s).
Proof.
  revert s. induction cs as [|c cs IH]; intros s Hs [h Hp] Hm H0; [by apply elem_of_nil in Hm|]. cbn [read_all].
  unfold on_read. rewrite Hp. destruct (m_is_listener h).
  - apply grows_bind; [apply grows_bind; [by apply on_new_connection_grows|intros _ s1 _ Hc _; by apply grows_ok]|].
    intros n s1 Hn Hc1 _. destruct (on_new_connection l s); [|done..]. injection Hn as <- <-. by apply grows_ok.
  - assert (Hd : ∀ a : Z, grows s (ok a (if c >? 0 then on_new_data h p c s else s))).
    { intros a. destruct Hs as [Hs Hc]. case_if; [|by apply grows_ok].
      apply (grows_ok a); [split; [by apply on_new_data_ok|]|..]; unfold on_new_data; by repeat case_match. }
    apply grows_bind; [apply Hd|]. intros a s1 [= <- Hs1] Hc1 Hsub.
    destruct (Z.eqb_spec c (-1)); [by apply grows_ok|]. destruct (Z.eqb_spec c 0) as [->|]; [exfalso; apply H0; mem|].
    apply IH; [done|exists h; by eapply lookup_weaken| |intros ?; apply H0; mem].
    apply elem_of_cons in Hm as [?|?]; [congruence|done].
Qed.

(** An event that ends no connection. *)
Definition stays (e : event) : Prop := ev_error e = false ∧ -1 ∈ reads e ∧ 0 ∉ reads e.

Lemma handle_event_grows e s : calm s → stays e → grows s (handle_event e s).
Proof.
  intros Hs (He & Hm & H0). unfold handle_event. rewrite He. destruct (get_handler (ev_fd e) s) as [p|] eqn:Hg.
  2: { destruct (calm_ctl (ctl_del (ev_fd e)) s Hs) as [_ Hc]. destruct (epoll_ctl_frame (ctl_del (ev_fd e)) s) as (_ & ? & ? & _). by apply grows_ok. }
  destruct (no_map _ (proj1 Hs) _ _ Hg) as (h & Hp & _). apply grows_bind.
  - case_if; [apply read_all_grows; [done|by exists h|done..]|by apply grows_ok].
  - intros _ s1 _ Hc1 Hsub. case_if; [|by apply grows_ok]. apply grows_bind; [|intros _ s2 _ Hc2 _; by apply grows_ok].
    unfold on_write_begin. rewrite (lookup_weaken _ _ _ _ Hp Hsub). unfold mod_fd.
    destruct (get_handler (m_fd h) s1) as [q|]; [|by apply grows_ok].
    destruct (calm_ctl (ctl_mod (m_fd h)) s1 Hc1) as [Hb Hc2]. destruct (epoll_ctl_frame (ctl_mod (m_fd h)) s1) as (_ & ? & ? & _).
    destruct (epoll_ctl _ s1) as [b s2]. simpl in *. subst b. by apply grows_ok.
Qed.

Lemma select_grows es s : calm s → Forall stays es → grows s (select es s).
Proof.
  intros Hs H. revert s Hs. induction H as [|e es He _ IH]; intros s Hs; cbn [select]; [by apply grows_ok|].
  apply grows_bind; [by apply handle_event_grows|]. intros _ s1 _ Hc _. by apply IH.
Qed.

(** ** Properties *)

(** The call returns with [P]; if a destroyed socket is used, the invariant
    holds when that happens. *)
Definition safe {A} (x : res A) (P : A → net → Prop) : Prop :=
  match x with ok a s => P a s | use_after_free s => net_ok s | out_of_fuel => False end.

Lemma safe_intro {A} (x : res A) P : good x P → ends x → safe x P.
Proof. by destruct x. Qed.

(** C12: the table of the poller never holds a dangling pointer.  Whatever
    events arrive, whatever the reads, the accepts and [epoll_ctl] return, and
    whoever closes or destroys sockets: [select] (if the reads of each event come
    to an end), [add_fd], [mod_fd], [close_fd], the construction and the
    destruction of a socket return, and afterwards every entry of [m_fd_map]
    points to a live socket with the descriptor it is filed under.  If one of
    them uses a destroyed socket, it does not get there through the table, which
    is in order at that moment, too; and as long as no connection ends and
    [epoll_ctl] does not fail, none is used: [select] returns, and all sockets
    live on. *)
Theorem poller_table_live s es p fd sink h :
  net_ok s → Forall drains es →
  safe (select es s) (λ _ s', net_ok s') ∧ safe (add_fd p s) (λ _ s', net_ok s') ∧
  safe (mod_fd fd s) (λ _ s', net_ok s') ∧ safe (close_fd fuel h s) (λ _ s', net_ok s') ∧
  safe (new_socket fd sink s) (λ _ s', net_ok s') ∧
  safe (destroy p s) (λ _ s', net_ok s' ∧ ∀ fd', m_fd_map s' !! fd' ≠ Some p) ∧
  (ctl_results s = [] → Forall stays es →
   ∃ s', select es s = ok tt s' ∧ net_ok s' ∧ sockets s ⊆ sockets s' ∧ m_connections s ⊆ m_connections s').
Proof.
  intros Hs He. split_and!; [apply safe_intro..|].
  - by apply select_ok.
  - by apply select_ends.
  - by apply add_fd_ok.
  - apply add_fd_ends.
  - by apply mod_fd_ok.
  - apply mod_fd_ends.
  - eapply good_mono; [by apply close_fd_closed|]. by intros _ s' (? & _).
  - apply close_fd_ends.
  - by apply new_socket_ok.
  - apply new_socket_ends.
  - unfold destroy. apply (good_bind _ _ (λ _ s', closed (Some p) s s')); [by apply close_fd_closed|].
    intros _ s' Hc. apply closed_delete in Hc as (? & _ & _ & _ & ?). by split.
  - apply destroy_ends.
  - intros Hc Hst. destruct (select_grows es s (conj Hs Hc) Hst) as ([] & s' & H1 & [H2 _] & H3 & H4). by exists s'.
Qed.

(** Destroying a socket its owner has given up (as [connect] does when it
    fails) unregisters it and closes its descriptor, once. *)
Theorem destroy_closes_once p h s :
  sockets s !! p = Some h → m_fd h ≠ 0 →
  match m_sink h with sink_server => p ∉ m_connections s | sink_client => m_socket s = None end →
  ∃ s', destroy p s = ok tt s' ∧ log s' = log s ++ [ctl_del (m_fd h); close (m_fd h)] ∧
    sockets s' = delete p (sockets s) ∧ m_fd_map s' !! m_fd h = None.
Proof.
  intros Hp Hfd Hown. unfold destroy, fuel. destruct (close_unowned 2 p h s Hp Hfd Hown) as (s' & -> & H1 & H2 & H3 & _).
  eexists. split; [done|]. simpl. rewrite H1, H2, H3. by rewrite lookup_delete_eq.
Qed.

(** When the peer closes a connection of the server, or of the client, the
    poller closes it through its handler, whose owner destroys it from inside
    [on_close]: the descriptor has been closed by the destructor when
    [on_close] returns from its owner and reads [m_fd] of the destroyed socket
    to close it again. *)
Theorem peer_close_uses_destroyed_socket e s p h es :
  get_handler (ev_fd e) s = Some p → sockets s !! p = Some h → m_fd h ≠ 0 → m_is_listener h = false →
  owned_by_sink p h s → (ev_error e = true ∨ ev_in e = true ∧ head (reads e) = Some 0) →
  ∃ s', select (e :: es) s = use_after_free s' ∧ sockets s' !! p = None ∧
    log s' = log s ++ [ctl_del (m_fd h); ctl_del (m_fd h); close (m_fd h)].
Proof.
  intros Hg Hp Hfd Hl Hown He. destruct (close_owned p h s Hp Hfd Hown) as (s' & Hc & Hd & Hlog).
  exists s'. split; [|done]. cbn [select]. unfold handle_event. destruct (ev_error e) eqn:Eerr.
  - unfold close_fd_of. by rewrite Hg, Hc.
  - destruct He as [He|[Hin Hr]]; [done|]. rewrite Hg, Hin. destruct (reads e) as [|c cs]; [done|]. injection Hr as ->.
    cbn [read_all]. unfold on_read. rewrite Hp, Hl. cbn [bind]. change (0 =? -1) with false. change (0 =? 0) with true. cbn iota.
    change (if 0 >? 0 then on_new_data h p 0 s else s) with s. by rewrite Hc.
Qed.

(** ** A server with one connection *)

Definition net_init : net := mk_net ∅ ∅ 1 None ∅ None creating [] [] [].

Definition run_net {A} (x : res A) : net := match x with ok _ s => s | use_after_free s => s | out_of_fuel => net_init end.

(** The listener accepted descriptor 7. *)
Definition serving : net := run_net (on_new_connection [7; -1] net_init).

(** Three bytes arrive on the connection, and it becomes writable. *)
Definition three_bytes : event := mk_event 7 false true true [3; -1] [].

Lemma serving_ok : net_ok net_init ∧ net_ok serving.
Proof.
  assert (H0 : net_ok net_init).
  { split; [intros fd p|intros p [h Hh]; revert Hh]; simpl; by rewrite lookup_empty. }
  split; [exact H0|]. pose proof (on_new_connection_ok [7; -1] net_init H0) as H.
  unfold serving. destruct (on_new_connection _ _) as [[] s|s|] eqn:E; [exact H|by vm_compute in E..].
Qed.

Lemma poller_table_live_witness :
  net_ok serving ∧ Forall stays [three_bytes] ∧
  ∃ s', select [three_bytes] serving = ok tt s' ∧ log s' = [ctl_add 7; ctl_mod 7] ∧ delivered s' = [(1%nat, 3)] ∧
    net_ok s' ∧ sockets serving ⊆ sockets s'.
Proof.
  destruct serving_ok as [_ Hs]. split; [exact Hs|].
  assert (Hst : Forall stays [three_bytes]) by (repeat constructor; by_compute).
  assert (Hd : Forall drains [three_bytes]).
  { constructor; [|constructor]. exists (-1). split; [by_compute|by right]. }
  split; [exact Hst|].
  destruct (poller_table_live serving [three_bytes] 1 0 sink_server None Hs Hd) as (_ & _ & _ & _ & _ & _ & H).
  destruct (H eq_refl Hst) as (s' & E & Hok & Hsub & _). exists s'. split; [exact E|].
  assert (Hl : log s' = [ctl_add 7; ctl_mod 7] ∧ delivered s' = [(1%nat, 3)]).
  { vm_compute in E. injection E as <-. by vm_compute. }
  split; [exact (proj1 Hl)|]. split; [exact (proj2 Hl)|]. split; [exact Hok|exact Hsub].
Defined.

Lemma destroy_closes_once_witness :
  ∃ s', destroy 1 (set_connections ∅ serving) = ok tt s' ∧ log s' = [ctl_add 7; ctl_del 7; close 7].
Proof.
  destruct (destroy_closes_once 1 (mk_handler 7 sink_server false) (set_connections ∅ serving)) as (s' & H1 & H2 & _);
    [by vm_compute|done|by vm_compute|].
  exists s'. split; [exact H1|]. rewrite H2. by vm_compute.
Defined.

Lemma peer_close_uses_destroyed_socket_witness :
  ∃ s', select [mk_event 7 false true false [0] []] serving = use_after_free s' ∧
    log s' = [ctl_add 7; ctl_del 7; ctl_del 7; close 7].
Proof.
  destruct (peer_close_uses_destroyed_socket (mk_event 7 false true false [0] []) serving 1 (mk_handler 7 sink_server false) [])
    as (s' & H1 & _ & H2); [by vm_compute|by vm_compute|done|done| |by right|].
  - unfold owned_by_sink. simpl. apply (bool_decide_eq_true_1 _). vm_compute. reflexivity.
  - exists s'. split; [exact H1|]. rewrite H2. by vm_compute.
Defined.
