(* ===== verification/Tcp.v ===== *)
(** * net/epoll/raw_tcp_server, raw_tcp_client: data paths and connecting

    The server and the client move blocks between their users' channels and
    their sockets: a user's [write] puts a block into [m_write_chan], which
    [select] empties into the sockets; [on_new_data] puts what arrived into
    [m_read_chan].  [connect] waits on a channel for the first of two events,
    the socket becoming writable and a timeout.  Whose socket is which, and
    their destruction, is the matter of Poller.v; here the sockets are those of
    Socket.v and the channels those of Channel.v. *)

From S2P Require Import Prelude Chutex Poller Socket Channel.
Local Open Scope Z_scope.

Section tcp.
Context {byte_t : Type}.

(** [raw_data_block_sptr_t] *)
Abbreviation sptr := (option (raw_data_block_t (byte_t := byte_t))).
Abbreviation raw_data_chan_t := (channel_t (T := sptr)).
Abbreviation sock := (socket_t (byte_t := byte_t)).

(** What a local variable at [p] holds after the effects of a channel. *)
Fixpoint load_var {T} (p : nat) (e : list (effect T)) (old : T) : T :=
  match e with
  | [] => old
  | store q v :: r => load_var p r (if (q =? p)%nat then v else old)
  | awake _ _ :: r => load_var p r old
  end.

(** The address of the local variable [data_block] of [select]. *)
Definition data_block_ptr : nat := 1.

(** ** The server *)

Inductive server_state_t := server_creating | server_starting | server_serving.

Record raw_tcp_server_t := mk_server {
  sv_state : server_state_t;
  sv_listener : option (Z * bool);
  sv_connections : gmap nat sock;
  sv_read_chan : raw_data_chan_t;
  sv_write_chan : raw_data_chan_t
}.

Definition set_sv_state v l x := mk_server v l (sv_connections x) (sv_read_chan x) (sv_write_chan x).
Definition set_sv_connections v x := mk_server (sv_state x) (sv_listener x) v (sv_read_chan x) (sv_write_chan x).
Definition set_sv_read_chan v x := mk_server (sv_state x) (sv_listener x) (sv_connections x) v (sv_write_chan x).
Definition set_sv_write_chan v x := mk_server (sv_state x) (sv_listener x) (sv_connections x) (sv_read_chan x) v.

Definition new_server : raw_tcp_server_t :=
  mk_server server_creating None ∅ (Channel.create None 1024) (Channel.create None 1024).

(** [sv_listener] is the descriptor of the listener and its [m_is_listener].
    One address of [getaddrinfo], with the results of [socket], [setsockopt]
    and [bind] for it. *)
Record candidate := mk_candidate { cand_fd : Z; cand_opt : Z; cand_bind : Z }.

(** The loop over the addresses: the listener, and whether the loop left
    [result_iter] on an address. *)
Fixpoint bind_loop (l : list candidate) (listener : option (Z * bool)) : option (Z * bool) * bool :=
  match l with
  | [] => (listener, false)
  | c :: r =>
    let listener := Some (cand_fd c, false) in
    if cand_fd c <=? 0 then bind_loop r listener
    else if cand_opt c =? -1 then bind_loop r listener
    else if cand_bind c =? 0 then (listener, true)
    else bind_loop r listener
  end.

(** [int start()]; [gai] and [lst] are the results of [getaddrinfo] and
    [listen].  [None] is the failed [assert(0)]. *)
Definition server_start (gai : Z) (l : list candidate) (lst : Z) (x : raw_tcp_server_t) : option (Z * raw_tcp_server_t) :=
  let x1 := set_sv_state server_starting (sv_listener x) x in
  if negb (gai =? 0) then Some (gai, x1)
  else
    let '(listener, found) := bind_loop l (sv_listener x) in
    let x2 := set_sv_state server_starting listener x1 in
    if negb found then None
    else if lst =? -1 then Some (lst, x2)
    else Some (0, set_sv_state server_serving ((λ l, (l.1, true)) <$> listener) x2).

(** [void on_new_data(epoll_handler_it *which, byte_t *data, ssize_t count)] *)
Definition server_on_new_data (who : caller) (which : nat) (data : list byte_t) (x : raw_tcp_server_t)
  : outcome * list (effect sptr) * raw_tcp_server_t :=
  match sv_connections x !! which with
  | None => (returned true, [], x)
  | Some _ =>
    match data with
    | [] => (returned true, [], x)
    | _ =>
      let '(o, e, c) := Channel.write who (Some (new_block data (Some which))) false (sv_read_chan x) in
      (o, e, set_sv_read_chan c x)
    end
  end.

(** [void read(raw_data_block_sptr_t &output)] *)
Definition server_read (who : caller) (output : nat) (x : raw_tcp_server_t)
  : outcome * list (effect sptr) * raw_tcp_server_t :=
  let '(o, e, c) := Channel.read None who output false (sv_read_chan x) in (o, e, set_sv_read_chan c x).

(** [void write(const socket_key &which, byte_t *data, ssize_t len)] *)
Definition server_write (who : caller) (which : option nat) (data : list byte_t) (x : raw_tcp_server_t)
  : outcome * list (effect sptr) * raw_tcp_server_t :=
  match which, data with
  | None, _ | _, [] => (returned true, [], x)
  | Some k, _ =>
    let '(o, e, c) := Channel.write who (Some (new_block data (Some k))) false (sv_write_chan x) in
    (o, e, set_sv_write_chan c x)
  end.

(** [sock->write(data_block->m_buf, data_block->m_len)] if the connection is
    still in the table. *)
Definition forward (db : sptr) (rs : list write_result) (m : gmap nat sock)
  : option (list write_result * gmap nat sock) :=
  match db with
  | None => Some (rs, m)
  | Some b =>
    match m_key b with
    | None => Some (rs, m)
    | Some k =>
      match m !! k with
      | None => Some (rs, m)
      | Some s =>
        match Socket.write (m_buf b) rs s with
        | Some (_, rs', s') => Some (rs', <[k := s']> m)
        | None => None
        end
      end
    end
  end.

(** [int select(int wait_ms)]: the loop.  Each round of the loop takes one
    unit of [fuel]; [rs] are the results of [::write].  [None]: the loop has
    not ended (it spins in a lock, or needs more results than [rs] holds). *)
Fixpoint server_select_loop (fuel : nat) (who : caller) (rs : list write_result) (data_block : sptr) (load : Z)
    (x : raw_tcp_server_t) : option (Z * list write_result * raw_tcp_server_t) :=
  match fuel with
  | O => None
  | S fuel' =>
    match Channel.read None who data_block_ptr true (sv_write_chan x) with
    | (returned false, _, c) => Some (load, rs, set_sv_write_chan c x)
    | (returned true, e, c) =>
      let data_block := load_var data_block_ptr e data_block in
      match forward data_block rs (sv_connections x) with
      | None => None
      | Some (rs', m) =>
        server_select_loop fuel' who rs' data_block (load + 1) (set_sv_connections m (set_sv_write_chan c x))
      end
    | _ => None
    end
  end.

Definition server_select (who : caller) (rs : list write_result) (x : raw_tcp_server_t)
  : option (Z * list write_result * raw_tcp_server_t) :=
  server_select_loop (S (Z.to_nat (m_unread (sv_write_chan x)))) who rs None 0 x.

(** ** The client *)

Record raw_tcp_client_t := mk_client {
  cl_socket : option sock;
  cl_state : client_state_t;
  cl_read_chan : raw_data_chan_t;
  cl_write_chan : raw_data_chan_t;
  cl_conn_result_chan : channel_t (T := Z)
}.

Definition set_cl_socket s st x := mk_client s st (cl_read_chan x) (cl_write_chan x) (cl_conn_result_chan x).
Definition set_cl_read_chan v x := mk_client (cl_socket x) (cl_state x) v (cl_write_chan x) (cl_conn_result_chan x).
Definition set_cl_write_chan v x := mk_client (cl_socket x) (cl_state x) (cl_read_chan x) v (cl_conn_result_chan x).
Definition set_cl_conn_chan v x := mk_client (cl_socket x) (cl_state x) (cl_read_chan x) (cl_write_chan x) v.

Definition new_client : raw_tcp_client_t :=
  mk_client None creating (Channel.create None 1024) (Channel.create None 1024) (Channel.create 0 1).

Definition client_on_new_data (who : caller) (which : nat) (data : list byte_t) (x : raw_tcp_client_t)
  : outcome * list (effect sptr) * raw_tcp_client_t :=
  match data with
  | [] => (returned true, [], x)
  | _ =>
    let '(o, e, c) := Channel.write who (Some (new_block data (Some which))) false (cl_read_chan x) in
    (o, e, set_cl_read_chan c x)
  end.

Definition client_read (who : caller) (output : nat) (x : raw_tcp_client_t)
  : outcome * list (effect sptr) * raw_tcp_client_t :=
  let '(o, e, c) := Channel.read None who output false (cl_read_chan x) in (o, e, set_cl_read_chan c x).

Definition client_write (who : caller) (data : list byte_t) (x : raw_tcp_client_t)
  : outcome * list (effect sptr) * raw_tcp_client_t :=
  match data with
  | [] => (returned true, [], x)
  | _ =>
    let '(o, e, c) := Channel.write who (Some (new_block data None)) false (cl_write_chan x) in
    (o, e, set_cl_write_chan c x)
  end.

Fixpoint client_select_loop (fuel : nat) (who : caller) (rs : list write_result) (data_block : sptr) (load : Z)
    (x : raw_tcp_client_t) : option (Z * list write_result * raw_tcp_client_t) :=
  match fuel with
  | O => None
  | S fuel' =>
    match cl_state x with
    | connected =>
      match Channel.read None who data_block_ptr true (cl_write_chan x) with
      | (returned false, _, c) => Some (load, rs, set_cl_write_chan c x)
      | (returned true, e, c) =>
        let data_block := load_var data_block_ptr e data_block in
        let x1 := set_cl_write_chan c x in
        match data_block, cl_socket x1 with
        | Some b, Some s =>
          match Socket.write (m_buf b) rs s with
          | Some (_, rs', s') =>
            client_select_loop fuel' who rs' data_block (load + 1) (set_cl_socket (Some s') (cl_state x1) x1)
          | None => None
          end
        | _, _ => client_select_loop fuel' who rs data_block (load + 1) x1
        end
      | _ => None
      end
    | _ => Some (load, rs, x)
    end
  end.

Definition client_select (who : caller) (rs : list write_result) (x : raw_tcp_client_t)
  : option (Z * list write_result * raw_tcp_client_t) :=
  client_select_loop (S (Z.to_nat (m_unread (cl_write_chan x)))) who rs None 0 x.

(** [void on_closed(epoll_handler_it *which)] *)
Definition client_on_closed (x : raw_tcp_client_t) : raw_tcp_client_t :=
  match cl_socket x with
  | Some _ => set_cl_socket None disconnected x
  | None => x
  end.

Definition is_connected (x : raw_tcp_client_t) : bool :=
  match cl_state x with connected => true | _ => false end.

(** ** Connecting *)

(** [conn_result] is a local variable of [connect]; [timers] counts the
    coroutines that sleep 15 seconds before they write -2; [awakened] tells
    that the suspended [connect] was awakened.  [conn_ret] is its variable
    [ret]. *)
Record connector := mk_connector {
  cn : raw_tcp_client_t;
  timers : nat;
  conn_result : Z;
  conn_ret : Z;
  awakened : bool
}.

Definition set_cn v x := mk_connector v (timers x) (conn_result x) (conn_ret x) (awakened x).
Definition set_timers v x := mk_connector (cn x) v (conn_result x) (conn_ret x) (awakened x).
Definition set_conn_result v x := mk_connector (cn x) (timers x) v (conn_ret x) (awakened x).
Definition set_awakened x := mk_connector (cn x) (timers x) (conn_result x) (conn_ret x) true.

Definition conn_result_ptr : nat := 2.
Definition EINPROGRESS : Z := 115.

(** The effects of a call on [m_conn_result_chan]; nobody else waits there. *)
Definition apply_conn (x : connector) (e : effect Z) : connector :=
  match e with
  | store p v => if (p =? conn_result_ptr)%nat then set_conn_result v x else x
  | awake _ _ => set_awakened x
  end.

(** The end of [connect]: [if (ret == 0) ... else ...; return ret;] *)
Definition connect_finish (ret : Z) (x : raw_tcp_client_t) : Z * raw_tcp_client_t :=
  if ret =? 0 then (0, set_cl_socket (cl_socket x) connected x)
  else (ret, set_cl_socket None disconnected x).

Inductive connect_t :=
  | connect_returns (ret : Z) (x : connector)
  | connect_waits (x : connector)
  | connect_spins.

(** [int connect()] up to where it waits.  [self] is the address of the new
    socket, [fd], [res] and [err] the results of [socket], of [::connect] and
    its [errno]. *)
Definition connect_begin (who : caller) (self : nat) (fd res err : Z) (x : connector) : connect_t :=
  let s := mk_socket fd self [] None [] [] [] in
  let c1 := set_cl_socket (Some s) (cl_state (cn x)) (cn x) in
  if fd <=? 0 then connect_returns (-1) (set_cn c1 x)
  else if (res <? 0) && (err =? EINPROGRESS) then
    match Channel.reset (cl_conn_result_chan c1) with
    | (returned true, ch) =>
      let s1 := mk_socket fd self [] (Some conn_result_ptr) [] [] [] in
      let c2 := set_cl_conn_chan ch (set_cl_socket (Some s1) connecting c1) in
      let x1 := mk_connector c2 (S (timers x)) (-1) res false in
      match Channel.read 0 who conn_result_ptr false ch with
      | (held, e, ch') => connect_waits (foldl apply_conn (set_cn (set_cl_conn_chan ch' c2) x1) e)
      | (returned _, e, ch') => connect_waits (set_awakened (foldl apply_conn (set_cn (set_cl_conn_chan ch' c2) x1) e))
      | _ => connect_spins
      end
    | _ => connect_spins
    end
  else let '(ret, c2) := connect_finish res c1 in connect_returns ret (set_cn c2 x).

(** A write of [v] into [m_conn_result_chan] by [who]. *)
Definition tell (who : caller) (v : Z) (x : connector) : outcome * connector :=
  let '(o, e, ch) := Channel.write who v false (cl_conn_result_chan (cn x)) in
  (o, foldl apply_conn (set_cn (set_cl_conn_chan ch (cn x)) x) e).

(** The socket becomes writable: [socket_t::on_write]. *)
Definition socket_writable (poller : caller) (rs : list write_result) (x : connector) : option connector :=
  match cl_socket (cn x) with
  | None => Some x
  | Some s =>
    let x1 := match Socket.m_conn_res_chan s with Some _ => snd (tell poller 0 x) | None => x end in
    match Socket.on_write rs s with
    | Some (_, _, s') => Some (set_cn (set_cl_socket (Some s') (cl_state (cn x1)) (cn x1)) x1)
    | None => None
    end
  end.

(** One of the sleeping coroutines wakes up and writes -2. *)
Definition timeout_fires (who : caller) (x : connector) : connector :=
  match timers x with
  | O => x
  | S n => snd (tell who (-2) (set_timers n x))
  end.

(** The rest of [connect], once it has been awakened.  [so_error] is what
    [getsockopt] stores ([None] when it fails); [None] is the access to the
    descriptor of a socket that [on_closed] has destroyed. *)
Definition connect_end (so_error : option Z) (x : connector) : option (Z * connector) :=
  let fin ret := let '(r, c) := connect_finish ret (cn x) in Some (r, set_cn c x) in
  if negb (conn_result x =? 0) then fin (conn_ret x)
  else match cl_socket (cn x) with
  | None => None
  | Some _ => fin (default (-1) so_error)
  end.

(** ** Reading with [try_] from a channel nobody waits on *)

(** Nothing waits to write, so a read neither spins nor suspends. *)
Record idle {T} (c : channel_t (T := T)) : Prop := {
  idle_wf : chan_wf c;
  idle_free : free c;
  idle_writers : m_waiting_write_que c = []
}.

Lemma try_read_next {T} (d : T) who p c :
  idle c →
  match contents c with
  | [] => ∃ c', Channel.read d who p true c = (returned false, [], c') ∧ idle c' ∧ contents c' = []
  | v :: vs => ∃ c', Channel.read d who p true c = (returned true, [store p v], c') ∧ idle c' ∧ contents c' = vs
  end.
Proof.
  intros [Hw Hf Hq]. pose proof (read_refines_spec d who p true c Hw Hf (or_intror Hq)) as H.
  destruct (Channel.read d who p true c) as [[o e] c']. destruct H as (H & Hw' & Hf' & _).
  unfold spec_read, abs in H. simpl in H. destruct (contents c) as [|v vs] eqn:Ec; simplify_eq/=;
    (eexists; split_and!; [done|split; [done|done|congruence]|congruence]).
Qed.

(** ** What [select] forwards *)

(** The bytes of the blocks for the connection [k]. *)
Definition bytes_for (k : nat) (l : list sptr) : list byte_t :=
  concat (omap (λ db : sptr, b ← db; if bool_decide (m_key b = Some k) then Some (m_buf b) else None) l).

Definition bytes_of (l : list sptr) : list byte_t := concat (omap (fmap m_buf) l).

Lemma bytes_for_cons k db l : bytes_for k (db :: l) = bytes_for k [db] ++ bytes_for k l.
Proof. unfold bytes_for. simpl. destruct (db ≫= _); simpl; by rewrite ?app_nil_r. Qed.

Lemma bytes_of_cons db l : bytes_of (db :: l) = bytes_of [db] ++ bytes_of l.
Proof. unfold bytes_of. simpl. destruct (m_buf <$> db); simpl; by rewrite ?app_nil_r. Qed.

(** The streams of [m'] are those of [m], each with its bytes appended. *)
Definition streams_extended (f : nat → list byte_t) (m m' : gmap nat sock) : Prop :=
  ∀ k, match m !! k with
       | None => m' !! k = None
       | Some s => ∃ s', m' !! k = Some s' ∧ stream s' = stream s ++ f k
       end.

Lemma streams_extended_trans f g m m1 m2 :
  streams_extended f m m1 → streams_extended g m1 m2 → streams_extended (λ k, f k ++ g k) m m2.
Proof.
  intros H1 H2 k. specialize (H1 k). specialize (H2 k). destruct (m !! k) as [s|].
  - destruct H1 as (s1 & Hs1 & E1). rewrite Hs1 in H2. destruct H2 as (s2 & Hs2 & E2).
    exists s2. split; [done|]. by rewrite E2, E1, <- (assoc_L (++)).
  - by rewrite H1 in H2.
Qed.

Lemma streams_extended_same f m : (∀ k, is_Some (m !! k) → f k = []) → streams_extended f m m.
Proof.
  intros H k. destruct (m !! k) as [s|] eqn:E; [|done]. exists s. split; [done|]. rewrite H by (by rewrite E).
  by rewrite app_nil_r.
Qed.

Lemma forward_extends db rs m rs' m' :
  forward db rs m = Some (rs', m') → streams_extended (λ k, bytes_for k [db]) m m'.
Proof.
  unfold forward, bytes_for. destruct db as [b|]; [|intros; simplify_eq; by apply streams_extended_same].
  simpl. destruct (m_key b) as [k|] eqn:Ek.
  2: { intros. simplify_eq. apply streams_extended_same. by intros k _. }
  destruct (m !! k) as [s|] eqn:Em.
  2: { intros. simplify_eq. apply streams_extended_same. intros k' Hk'. rewrite bool_decide_eq_false_2; [done|].
       intros ?. simplify_eq. rewrite Em in Hk'. by destruct Hk'. }
  destruct (Socket.write (m_buf b) rs s) as [[[n rs1] s']|] eqn:Ew; [|done]. intros. simplify_eq.
  apply write_stream in Ew. intros j. destruct (decide (j = k)) as [->|Hj].
  - rewrite Em. exists s'. rewrite lookup_insert_eq. split; [done|]. rewrite bool_decide_eq_true_2 by done.
    simpl. by rewrite app_nil_r.
  - rewrite lookup_insert_ne by done. rewrite bool_decide_eq_false_2 by congruence. simpl.
    destruct (m !! j) as [t|]; [|done]. exists t. by rewrite app_nil_r.
Qed.

Lemma forward_answers db rs m :
  answers rs → (length (bytes_of [db]) <= length rs)%nat →
  ∃ k m', forward db rs m = Some (drop k rs, m') ∧ (k <= length (bytes_of [db]))%nat.
Proof.
  intros Ha. unfold bytes_of, forward. destruct db as [b|]; simpl; rewrite ?app_nil_r; intros Hl.
  2: { by exists 0%nat, m. }
  destruct (m_key b) as [k|]; [|exists 0%nat, m; split; [done|lia]].
  destruct (m !! k) as [s|]; [|exists 0%nat, m; split; [done|lia]].
  destruct (write_answers (m_buf b) rs s Ha Hl) as (n & j & s' & -> & Hj). by do 2 eexists.
Qed.

Lemma answers_drop k rs : answers rs → answers (drop k rs).
Proof.
  intros Ha r Hr. apply Ha. rewrite <- (take_drop k rs). apply elem_of_app. by right.
Qed.

Lemma server_loop_step fuel who rs db load x :
  idle (sv_write_chan x) →
  match contents (sv_write_chan x) with
  | [] => ∃ c, server_select_loop (S fuel) who rs db load x = Some (load, rs, set_sv_write_chan c x) ∧
            idle c ∧ contents c = []
  | v :: vs => ∃ c, idle c ∧ contents c = vs ∧
      server_select_loop (S fuel) who rs db load x =
      match forward v rs (sv_connections x) with
      | None => None
      | Some (rs', m) => server_select_loop fuel who rs' v (load + 1) (set_sv_connections m (set_sv_write_chan c x))
      end
  end.
Proof.
  intros Hi. pose proof (try_read_next None who data_block_ptr _ Hi) as H. cbn [server_select_loop].
  destruct (contents (sv_write_chan x)) as [|v vs]; destruct H as (c & -> & Hc & Hv); exists c; by split_and!.
Qed.

Lemma server_loop_spec fuel who rs db load x l :
  idle (sv_write_chan x) → contents (sv_write_chan x) = l → (length l < fuel)%nat →
  (∀ n rs' x', server_select_loop fuel who rs db load x = Some (n, rs', x') →
     n = load + Z.of_nat (length l) ∧ idle (sv_write_chan x') ∧ contents (sv_write_chan x') = [] ∧
     sv_read_chan x' = sv_read_chan x ∧
     streams_extended (λ k, bytes_for k l) (sv_connections x) (sv_connections x')) ∧
  (answers rs → (length (bytes_of l) <= length rs)%nat → is_Some (server_select_loop fuel who rs db load x)).
Proof.
  revert fuel rs db load x. induction l as [|v l IH]; intros fuel rs db load x Hi Hl Hf;
    (destruct fuel as [|fuel]; [simpl in Hf; lia|]); pose proof (server_loop_step fuel who rs db load x Hi) as H;
    rewrite Hl in H.
  - destruct H as (c & -> & Hc & Hv). split; [|by eexists]. intros n rs' x' Heq. simplify_eq/=.
    split_and!; [lia|done|done|done|]. by apply streams_extended_same.
  - destruct H as (c & Hc & Hv & ->).
    assert (IH' : ∀ rs' m, _) by (intros rs' m; exact (IH fuel rs' v (load + 1) (set_sv_connections m (set_sv_write_chan c x)) Hc Hv ltac:(simpl in Hf; lia))).
    split.
    + intros n rs' x' Heq. destruct (forward v rs (sv_connections x)) as [[rs1 m]|] eqn:Ef; [|done].
      destruct (IH' rs1 m) as [H _]. destruct (H _ _ _ Heq) as (-> & H2 & H3 & H4 & H5).
      split_and!; [simpl; lia|done|done|done|]. intros k. rewrite bytes_for_cons.
      apply (streams_extended_trans _ _ _ _ _ (forward_extends _ _ _ _ _ Ef) H5 k).
    + rewrite bytes_of_cons, length_app. intros Ha Hn.
      destruct (forward_answers v rs (sv_connections x) Ha ltac:(lia)) as (k & m & -> & Hk).
      apply (proj2 (IH' (drop k rs) m)); [by apply answers_drop|]. rewrite length_drop. lia.
Qed.

(** C28: when the lock of the write channel is free and no user waits to write into
    it ([idle]), the server forwards everything its users wrote, each block to its
    connection, in order: [select] empties the write channel and returns the number
    of blocks it took; the stream of every connection grows by exactly the bytes of
    the blocks addressed to it, oldest first; blocks for connections that are gone
    are dropped; the read channel and the set of connections stay as they are.  And
    then it returns: as many answers of the kernel as there are bytes are enough.
    Where a user waits because the channel is full, the first read of [select] does
    not return (Fifo.v, the read that finds a waiting writer). *)
Theorem server_select_routes who rs x :
  idle (sv_write_chan x) →
  let l := contents (sv_write_chan x) in
  (∀ n rs' x', server_select who rs x = Some (n, rs', x') →
     n = Z.of_nat (length l) ∧ contents (sv_write_chan x') = [] ∧ idle (sv_write_chan x') ∧
     sv_read_chan x' = sv_read_chan x ∧
     ∀ k, match sv_connections x !! k with
          | None => sv_connections x' !! k = None
          | Some s => ∃ s', sv_connections x' !! k = Some s' ∧ stream s' = stream s ++ bytes_for k l
          end) ∧
  (answers rs → (length (bytes_of l) <= length rs)%nat → is_Some (server_select who rs x)).
Proof.
  intros Hi l. unfold server_select.
  assert (Hf : (length l < S (Z.to_nat (m_unread (sv_write_chan x))))%nat).
  { subst l. rewrite length_contents by (by apply idle_wf). lia. }
  destruct (server_loop_spec _ who rs None 0 x l Hi eq_refl Hf) as [H1 H2]. split; [|exact H2].
  intros n rs' x' H. destruct (H1 _ _ _ H) as (-> & H3 & H4 & H5 & H6). by split_and!.
Qed.

(** ** What the client forwards *)

Lemma client_loop_spec fuel who rs db load x l s :
  idle (cl_write_chan x) → contents (cl_write_chan x) = l → (length l < fuel)%nat →
  cl_state x = connected → cl_socket x = Some s →
  (∀ n rs' x', client_select_loop fuel who rs db load x = Some (n, rs', x') →
     n = load + Z.of_nat (length l) ∧ idle (cl_write_chan x') ∧ contents (cl_write_chan x') = [] ∧
     ∃ s', cl_socket x' = Some s' ∧ stream s' = stream s ++ bytes_of l) ∧
  (answers rs → (length (bytes_of l) <= length rs)%nat → is_Some (client_select_loop fuel who rs db load x)).
Proof.
  revert fuel rs db load x s. induction l as [|v l IH]; intros fuel rs db load x s Hi Hl Hf Hst Hs;
    (destruct fuel as [|fuel]; [simpl in Hf; lia|]); pose proof (try_read_next None who data_block_ptr _ Hi) as H;
    rewrite Hl in H; cbn [client_select_loop]; rewrite Hst.
  - destruct H as (c & -> & Hc & Hv). split; [|by eexists]. intros n rs' x' Heq. simplify_eq/=.
    split_and!; [lia|done|done|]. exists s. split; [done|]. by rewrite app_nil_r.
  - destruct H as (c & -> & Hc & Hv). simpl. rewrite Hs.
    assert (Hlt : (length l < fuel)%nat) by (simpl in Hf; lia). rewrite bytes_of_cons. destruct v as [b|].
    + split.
      * intros n rs' x' Heq. destruct (Socket.write (m_buf b) rs s) as [[[k rs1] s']|] eqn:Ew; [|done].
        apply write_stream in Ew.
        destruct (IH fuel rs1 (Some b) (load + 1) (set_cl_socket (Some s') (cl_state x) (set_cl_write_chan c x)) s' Hc Hv Hlt Hst eq_refl) as [H _].
        destruct (H _ _ _ Heq) as (-> & H2 & H3 & s2 & H4 & H5). split_and!; [simpl; lia|done|done|].
        exists s2. split; [done|]. rewrite H5, Ew. unfold bytes_of at 2. simpl. by rewrite app_nil_r, <- (assoc_L (++)).
      * rewrite length_app. unfold bytes_of at 1. simpl. rewrite app_nil_r. intros Ha Hn.
        destruct (write_answers (m_buf b) rs s Ha ltac:(lia)) as (n & k & s' & -> & Hk).
        apply (IH fuel (drop k rs) (Some b) (load + 1) (set_cl_socket (Some s') (cl_state x) (set_cl_write_chan c x)) s' Hc Hv Hlt Hst eq_refl);
          [by apply answers_drop|]. rewrite length_drop. lia.
    + destruct (IH fuel rs None (load + 1) (set_cl_write_chan c x) s Hc Hv Hlt Hst Hs) as [H1 H2]. split.
      * intros n rs' x' Heq. destruct (H1 _ _ _ Heq) as (-> & ? & ? & ?). split_and!; [simpl; lia|done..].
      * exact H2.
Qed.

(** A connected client sends what its users wrote, in order, and returns the
    number of blocks; one that is not connected leaves the channel alone. *)
Theorem client_select_sends who rs x :
  idle (cl_write_chan x) →
  let l := contents (cl_write_chan x) in
  (is_connected x = false → client_select who rs x = Some (0, rs, x)) ∧
  (∀ s, is_connected x = true → cl_socket x = Some s →
     (∀ n rs' x', client_select who rs x = Some (n, rs', x') →
        n = Z.of_nat (length l) ∧ contents (cl_write_chan x') = [] ∧
        ∃ s', cl_socket x' = Some s' ∧ stream s' = stream s ++ bytes_of l) ∧
     (answers rs → (length (bytes_of l) <= length rs)%nat → is_Some (client_select who rs x))).
Proof.
  intros Hi l. unfold client_select, is_connected. split.
  - intros Hc. cbn [client_select_loop]. by destruct (cl_state x).
  - intros s Hc Hs. destruct (cl_state x) eqn:Est; try done.
    assert (Hf : (length l < S (Z.to_nat (m_unread (cl_write_chan x))))%nat).
    { subst l. rewrite length_contents by (by apply idle_wf). lia. }
    destruct (client_loop_spec _ who rs None 0 x l s Hi eq_refl Hf Est Hs) as [H1 H2]. split; [|exact H2].
    intros n rs' x' H. destruct (H1 _ _ _ H) as (-> & _ & H3 & H4). by split_and!.
Qed.

(** ** Data that arrives *)

(** A write into a full channel from outside a coroutine returns at once; the
    value waits in the queue of writers. *)
Lemma write_full {T} who (v : T) c :
  chan_wf c → free c → m_unread c = m_max_size c → c_holds who = false →
  ∃ c', Channel.write who v false c = (returned true, [], c') ∧ chan_wf c' ∧ free c' ∧
    contents c' = contents c ∧ m_waiting_write_que c' ≠ [].
Proof.
  intros Hc Hf Hu Hh. pose proof (write_refines_spec who v false c Hc Hf) as H.
  destruct (Channel.write who v false c) as [[o e] c']. destruct H as (H & Hc' & Hf' & _).
  unfold spec_write, abs in H. simpl in H. rewrite length_contents in H by done.
  destruct (Z.leb_spec (m_max_size c) (Z.of_nat (Z.to_nat (m_unread c)))); [|pose proof (cw_unread _ Hc); lia].
  unfold hold in H. rewrite Hh in H. simplify_eq/=. eexists. split_and!; try done. intros Hq. rewrite Hq in *.
  by destruct (m_waiting_write_que c).
Qed.

(** A coroutine that then reads spins in the lock it holds, and so does
    everybody after it. *)
Lemma read_after_full {T} (d : T) who p c :
  chan_wf c → free c → contents c ≠ [] → m_waiting_write_que c ≠ [] →
  ∃ e c', Channel.read d who p false c = (spins, e, c') ∧ m_flag (m_lock c') = true.
Proof.
  intros Hc Hf Hv Hq. destruct (contents c) as [|v q] eqn:Ec; [done|].
  destruct (m_waiting_write_que c) as [|ctx r] eqn:Ew; [done|].
  rewrite (read_waiting_writer d who p false c v ctx q Hc Hf Ec) by (by rewrite Ew). by do 2 eexists.
Qed.

(** A server whose users are 1024 blocks behind never hands out
    another one.  The poller delivers from the main context of its thread,
    where [HOLD] does not suspend: a block that finds the read channel full is
    queued as a waiting writer, and the next [read] takes a value, writes the
    queued one into the channel whose lock it holds, and spins; so does the
    poller with the next data of any connection. *)
Theorem full_read_channel_deadlocks poller which data x :
  chan_wf (sv_read_chan x) → free (sv_read_chan x) → m_unread (sv_read_chan x) = m_max_size (sv_read_chan x) →
  c_holds poller = false → is_Some (sv_connections x !! which) → data ≠ [] →
  ∃ x1, server_on_new_data poller which data x = (returned true, [], x1) ∧
  ∀ user output, ∃ e x2, server_read user output x1 = (spins, e, x2) ∧
    (∀ w o, (server_read w o x2).1.1 = spins) ∧
    (∀ w k d, is_Some (sv_connections x2 !! k) → d ≠ [] → (server_on_new_data w k d x2).1.1 = spins).
Proof.
  intros Hc Hf Hu Hh [s Hs] Hd. destruct (write_full poller (Some (new_block data (Some which))) _ Hc Hf Hu Hh)
    as (c1 & Hw & Hc1 & Hf1 & He1 & Hq1). unfold server_on_new_data. rewrite Hs. destruct data as [|b data]; [done|].
  rewrite Hw. eexists. split; [done|]. intros user output. unfold server_read. simpl.
  assert (Hn : contents c1 ≠ []).
  { rewrite He1. intros He. apply (f_equal length) in He. rewrite length_contents in He by done.
    pose proof (cw_size _ Hc). simpl in He. lia. }
  destruct (read_after_full None user output c1 Hc1 Hf1 Hn Hq1) as (e & c2 & -> & Hl). do 2 eexists. split; [done|]. split.
  - intros w o. simpl. by rewrite read_locked.
  - intros w k d [s' Hs'] Hd'. simpl in *. rewrite Hs'. destruct d; [done|]. by rewrite write_locked.
Qed.

(** ** Connecting *)

(** The channel of connection results between two connects. *)
Record conn_ready (c : channel_t (T := Z)) : Prop := {
  cr_wf : chan_wf c;
  cr_free : free c;
  cr_readers : m_waiting_read_que c = []
}.

(** [connect] waits for a result: it is the only reader, and the channel holds
    nothing. *)
Record waiting_result (who : caller) (c : channel_t (T := Z)) : Prop := {
  wr_wf : chan_wf c;
  wr_free : free c;
  wr_unread : m_unread c = 0;
  wr_readers : m_waiting_read_que c = [mk_context (c_thread who) (c_id who) (Some conn_result_ptr) 0]
}.

Lemma connect_begin_waits who self fd res err x x1 :
  conn_ready (cl_conn_result_chan (cn x)) → c_holds who = true →
  connect_begin who self fd res err x = connect_waits x1 →
  waiting_result who (cl_conn_result_chan (cn x1)) ∧ timers x1 = S (timers x) ∧ conn_ret x1 = res ∧
  res < 0 ∧ cl_state (cn x1) = connecting ∧ awakened x1 = false ∧
  cl_socket (cn x1) = Some (mk_socket fd self [] (Some conn_result_ptr) [] [] []).
Proof.
  intros [Hw Hf Hr] Hh. unfold connect_begin. case_if; [done|].
  destruct ((res <? 0) && (err =? EINPROGRESS)) eqn:E1; [|by destruct (connect_finish _ _)].
  bool_to_prop. unfold Channel.reset. rewrite lock_attempt_free by exact Hf.
  unfold Channel.read. rewrite lock_attempt_free by done. simpl. unfold hold. rewrite Hh. intros. simplify_eq/=. split_and!; try done.
  split; simpl; try done; [|by rewrite Hr]. destruct Hw. split; simpl; try done; try lia.
  rewrite Hr. by repeat constructor.
Qed.

(** Whoever writes first ends the wait. *)
Lemma tell_first w who v x :
  waiting_result who (cl_conn_result_chan (cn x)) →
  ∃ ch, tell w v x = (returned true, mk_connector (set_cl_conn_chan ch (cn x)) (timers x) v (conn_ret x) true) ∧
    conn_ready ch.
Proof.
  intros [Hw Hf Hu Hr]. unfold tell.
  pose proof (write_refines_spec w v false _ Hw Hf) as H.
  destruct (Channel.write w v false (cl_conn_result_chan (cn x))) as [[o e] ch]. destruct H as (H & Hw' & Hf' & _).
  unfold spec_write, abs in H. simpl in H. rewrite Hr, length_contents, Hu in H by done. simpl in H.
  destruct (Z.leb_spec (m_max_size (cl_conn_result_chan (cn x))) (Z.of_nat (Z.to_nat 0))); [pose proof (cw_size _ Hw); lia|].
  simplify_eq/=. exists ch. by split.
Qed.

(** C38: what a suspended [connect] returns.  If the socket becomes
    writable first, [connect] is awakened with result 0 and returns the pending
    error of the socket, being connected exactly when that is 0; if a timeout
    comes first it is awakened with -2, returns the negative result of
    [::connect], and gives its socket up.  The timer stays: when [connect] has
    returned, its timeout is still to come. *)
Theorem connect_outcome who self fd res err x x1 poller rs so :
  conn_ready (cl_conn_result_chan (cn x)) → c_holds who = true → refuses_once rs →
  connect_begin who self fd res err x = connect_waits x1 →
  timers x1 = S (timers x) ∧
  (∃ x2, socket_writable poller rs x1 = Some x2 ∧ awakened x2 = true ∧ timers x2 = S (timers x) ∧
     ∃ x3, connect_end so x2 = Some (default (-1) so, x3) ∧ timers x3 = S (timers x) ∧
       conn_ready (cl_conn_result_chan (cn x3)) ∧
       (cl_state (cn x3) = connected ↔ so = Some 0) ∧ (is_Some (cl_socket (cn x3)) ↔ so = Some 0)) ∧
  (∃ x2, timeout_fires poller x1 = x2 ∧ awakened x2 = true ∧ timers x2 = timers x ∧
     ∃ x3, connect_end so x2 = Some (res, x3) ∧ res < 0 ∧ cl_state (cn x3) = disconnected ∧
       cl_socket (cn x3) = None ∧ conn_ready (cl_conn_result_chan (cn x3))).
Proof.
  intros Hr Hh Hrs Hb. destruct (connect_begin_waits _ _ _ _ _ _ _ Hr Hh Hb) as (Hw & Ht & Hret & Hneg & Hst & Haw & Hs).
  split; [done|]. split.
  - destruct (tell_first poller who 0 x1 Hw) as (ch & Htell & Hch). unfold socket_writable. rewrite Hs.
    cbn [Socket.m_conn_res_chan]. rewrite Htell. cbn [snd].
    set (s := mk_socket (byte_t := byte_t) fd self [] (Some conn_result_ptr) [] [] []).
    assert (Hon : is_Some (Socket.on_write rs s)) by (by apply flush_returns).
    destruct Hon as [[[n rs'] s'] Hon]. rewrite Hon. eexists. split; [done|]. simpl. split_and!; [done|done|].
    unfold connect_end. simpl. unfold connect_finish. simpl. destruct (Z.eqb_spec (default (-1) so) 0) as [E|E].
    + destruct so as [z|]; simpl in E; [subst z|lia]. eexists. split; [done|]. by split_and!.
    + eexists. split; [done|]. simpl. split_and!; try done.
      * split; [done|]. by intros ->.
      * split; [by intros []|]. by intros ->.
  - eexists. split; [done|]. unfold timeout_fires. rewrite Ht.
    destruct (tell_first poller who (-2) (set_timers (timers x) x1) Hw) as (ch & Htell & Hch). rewrite Htell. simpl.
    split_and!; [done|done|]. unfold connect_end. simpl. rewrite Hret. unfold connect_finish.
    destruct (Z.eqb_spec res 0); [lia|]. eexists. split; [done|]. by split_and!.
Qed.

(** A timeout belongs to no connect in particular.  After a connect
    that succeeded, the connection is closed by the peer and the user connects
    again; the timeout of the first connect is still to come, and when it
    comes it ends the second one, which fails without having waited 15
    seconds, and destroys its socket. *)
Theorem stale_timeout_fails_connect who self fd res err self' fd' res' err' poller rs so x x1 x2 x3 x4 :
  conn_ready (cl_conn_result_chan (cn x)) → c_holds who = true →
  connect_begin who self fd res err x = connect_waits x1 →
  socket_writable poller rs x1 = Some x2 → connect_end (Some 0) x2 = Some (0, x3) →
  connect_begin who self' fd' res' err' (set_cn (client_on_closed (cn x3)) x3) = connect_waits x4 →
  cl_state (cn x3) = connected ∧ timers x3 = S (timers x) ∧
  let x5 := timeout_fires poller x4 in
  awakened x5 = true ∧ timers x5 = S (timers x) ∧
  ∃ x6, connect_end so x5 = Some (res', x6) ∧ res' < 0 ∧ cl_state (cn x6) = disconnected ∧ cl_socket (cn x6) = None.
Proof.
  intros Hr Hh Hb Hwr He Hb2. destruct (connect_begin_waits _ _ _ _ _ _ _ Hr Hh Hb) as (Hw & Ht & Hret & Hneg & Hst & Haw & Hs).
  destruct (tell_first poller who 0 x1 Hw) as (ch & Htell & Hch). unfold socket_writable in Hwr. rewrite Hs, Htell in Hwr. simpl in Hwr.
  simplify_eq/=. unfold connect_end in He. simpl in He. simplify_eq/=.
  split_and!; [done|done|..].
  all: match type of Hb2 with connect_begin _ _ _ _ _ ?y = _ =>
    assert (Hr2 : conn_ready (cl_conn_result_chan (cn y))) by exact Hch end.
  all: destruct (connect_begin_waits _ _ _ _ _ _ _ Hr2 Hh Hb2) as (Hw2 & Ht2 & Hret2 & Hneg2 & Hst2 & Haw2 & Hs2).
  all: unfold timeout_fires; rewrite Ht2; cbn [timers set_cn]; cbv iota.
  all: destruct (tell_first poller who (-2) (set_timers (timers x1) x4) Hw2) as (ch2 & -> & _); simpl; try congruence.
  unfold connect_end. simpl. rewrite Hret2. unfold connect_finish.
  destruct (Z.eqb_spec res' 0); [lia|]. eexists. split; [done|]. by split_and!.
Qed.

(** ** Starting the server *)

Definition binds (c : candidate) : bool :=
  negb (cand_fd c <=? 0) && negb (cand_opt c =? -1) && (cand_bind c =? 0).

Lemma bind_loop_spec l lis :
  match List.find binds l with
  | Some c => bind_loop l lis = (Some (cand_fd c, false), true)
  | None => (bind_loop l lis).2 = false
  end.
Proof.
  revert lis. induction l as [|c r IH]; intros lis; simpl; [done|]. unfold binds at 1.
  destruct (cand_fd c <=? 0); simpl; [apply IH|]. destruct (cand_opt c =? -1); simpl; [apply IH|].
  destruct (cand_bind c =? 0); simpl; [done|apply IH].
Qed.

(** [start] listens on the first address that can be bound; when there is none
    it ends the program, and when it returns an error the server stays in the
    state [starting]. *)
Lemma server_start_spec gai l lst x :
  match server_start gai l lst x with
  | None => gai = 0 ∧ List.find binds l = None
  | Some (r, x') =>
    (r = 0 → ∃ c, List.find binds l = Some c ∧ sv_listener x' = Some (cand_fd c, true) ∧ sv_state x' = server_serving) ∧
    (r ≠ 0 → (gai ≠ 0 ∨ lst = -1) ∧ sv_state x' = server_starting)
  end.
Proof.
  unfold server_start. destruct (Z.eqb_spec gai 0) as [->|Hg]; simpl; [|split; [done|]; intros _; split; [by left|done]].
  pose proof (bind_loop_spec l (sv_listener x)) as H. destruct (List.find binds l) as [c|].
  - rewrite H. simpl. destruct (Z.eqb_spec lst (-1)) as [->|Hl]; simpl.
    + split; [done|]. intros _. split; [by right|done].
    + split; [|done]. intros _. by exists c.
  - destruct (bind_loop l (sv_listener x)) as [li found]. simpl in H. by subst found.
Qed.
End tcp.

(** ** Examples *)

Definition user : caller := mk_caller 1 10 true.
Definition poll_thread : caller := mk_caller 2 (-1) false.

(** A server with the connections 7 and 8 and three blocks to send, of which
    one is for a connection that is gone. *)
Definition demo_conn (p : nat) : socket_t (byte_t := nat) := mk_socket (Z.of_nat p) p [] None [] [] [].
Definition demo_chan : channel_t (T := option (raw_data_block_t (byte_t := nat))) :=
  let w k d c := (Channel.write user (Some (new_block d (Some k))) true c).2 in
  w 7%nat [1; 2]%nat (w 9%nat [5]%nat (w 7%nat [0]%nat (Channel.create None 1024))).
Definition demo_server : raw_tcp_server_t (byte_t := nat) :=
  set_sv_write_chan demo_chan (set_sv_connections (<[7%nat := demo_conn 7]> (<[8%nat := demo_conn 8]> ∅)) new_server).

Lemma write_idle {T} who (v : T) c : idle c → m_unread c < m_max_size c → idle (Channel.write who v true c).2.
Proof.
  intros [Hw Hf Hq] Hu. pose proof (write_refines_spec who v true c Hw Hf) as H.
  destruct (Channel.write who v true c) as [[o e] c']. destruct H as (H & Hw' & Hf' & _). split; try done.
  unfold spec_write, abs in H. simpl in H. rewrite length_contents in H by done.
  destruct (Z.leb_spec (m_max_size c) (Z.of_nat (Z.to_nat (m_unread c)))); [pose proof (cw_unread _ Hw); lia|].
  simpl. destruct (m_waiting_read_que c); simplify_eq/=; congruence.
Qed.

Lemma create_idle {T} (d : T) n : idle (Channel.create d n).
Proof. destruct (create_wf d n) as (? & ? & _). by split. Qed.

Lemma demo_server_idle : idle (sv_write_chan demo_server).
Proof.
  change (idle demo_chan). unfold demo_chan. do 3 (apply write_idle; [|by vm_compute]). apply create_idle.
Qed.

Lemma server_select_routes_witness :
  ∃ rs' x', server_select poll_thread [mk_result 1 0; mk_result 1 0; mk_result (-1) 11] demo_server = Some (3, rs', x') ∧
    ∃ s', sv_connections x' !! 7%nat = Some s' ∧ stream s' = [0; 1; 2]%nat.
Proof.
  destruct (server_select_routes poll_thread [mk_result 1 0; mk_result 1 0; mk_result (-1) 11] demo_server demo_server_idle) as [H _].
  destruct (server_select poll_thread [mk_result 1 0; mk_result 1 0; mk_result (-1) 11] demo_server) as [[[n rs'] x']|] eqn:E;
    [|by vm_compute in E]. exists rs', x'. destruct (H n rs' x' eq_refl) as (Hn & _ & _ & _ & Hs). split.
  - f_equal. f_equal. f_equal. rewrite Hn. by vm_compute.
  - specialize (Hs 7%nat). vm_compute in Hs. destruct Hs as (s' & H1 & H2). exists s'. split; [exact H1|exact H2].
Defined.

Definition demo_client : raw_tcp_client_t (byte_t := nat) :=
  set_cl_write_chan (Channel.write user (Some (new_block [4; 5]%nat None)) true (Channel.create None 1024)).2
    (set_cl_socket (Some (demo_conn 3)) connected new_client).

Lemma demo_answers : answers [mk_result 2 0; mk_result 1 0].
Proof. intros r [->|[->|[]%elem_of_nil]%elem_of_cons]%elem_of_cons; by left. Qed.

Lemma client_select_sends_witness :
  ∃ rs' x', client_select poll_thread [mk_result 2 0; mk_result 1 0] demo_client = Some (1, rs', x') ∧
    ∃ s', cl_socket x' = Some s' ∧ stream s' = [4; 5]%nat.
Proof.
  assert (Hi : idle (cl_write_chan demo_client)).
  { unfold demo_client. cbn [cl_write_chan set_cl_write_chan]. apply write_idle; [apply create_idle|by vm_compute]. }
  destruct (client_select_sends poll_thread [mk_result 2 0; mk_result 1 0] demo_client Hi) as [_ H].
  destruct (H (demo_conn 3) eq_refl eq_refl) as [H1 H2].
  destruct (H2 demo_answers) as [[[n rs'] x'] E]; [by vm_compute; lia|].
  exists rs', x'. destruct (H1 _ _ _ E) as (Hn & _ & s' & Hs & Hst). split.
  - rewrite E. f_equal. f_equal. f_equal. rewrite Hn. by vm_compute.
  - exists s'. split; [exact Hs|]. rewrite Hst. by vm_compute.
Defined.

(** A server whose read channel holds its 1024 blocks. *)
Definition full_server : raw_tcp_server_t (byte_t := nat) :=
  set_sv_read_chan (mk_channel false 0 0 1024 (replicate 1024 None) 1024 [] [] chutex_init) demo_server.

Lemma full_read_channel_deadlocks_witness :
  ∃ x1, server_on_new_data poll_thread 7 [1]%nat full_server = (returned true, [], x1) ∧
    (server_read user 3 x1).1.1 = spins.
Proof.
  destruct (full_read_channel_deadlocks poll_thread 7 [1]%nat full_server) as (x1 & H1 & H2); [|done|done|done|by eexists|done|].
  - by split.
  - exists x1. split; [exact H1|]. destruct (H2 user 3%nat) as (e & x2 & -> & _). reflexivity.
Defined.

Definition demo_connector : connector (byte_t := nat) := mk_connector new_client 0 0 0 false.

Lemma conn_ready_init : conn_ready (cl_conn_result_chan (cn demo_connector)).
Proof. destruct (create_wf 0 1) as (? & ? & _). by split. Qed.

Lemma connect_outcome_witness :
  ∃ x1 x2 x3, connect_begin user 5 9 (-1) EINPROGRESS demo_connector = connect_waits x1 ∧
    socket_writable poll_thread [mk_result (-1) 11] x1 = Some x2 ∧
    connect_end (Some 111) x2 = Some (111, x3) ∧ cl_socket (cn x3) = None.
Proof.
  destruct (connect_begin user 5 9 (-1) EINPROGRESS demo_connector) as [r x1|x1|] eqn:E; [by vm_compute in E| |by vm_compute in E].
  assert (Hr : refuses_once [mk_result (-1) 11]) by (exists (mk_result (-1) 11); split; [mem|by vm_compute]).
  destruct (connect_outcome user 5 9 (-1) EINPROGRESS demo_connector x1 poll_thread [mk_result (-1) 11] (Some 111) conn_ready_init eq_refl Hr E)
    as (_ & (x2 & H1 & _ & _ & x3 & H2 & _ & _ & _ & H3) & _).
  exists x1, x2, x3. split; [reflexivity|]. split; [exact H1|]. split; [exact H2|].
  destruct (cl_socket (cn x3)) as [s|]; [|reflexivity]. assert (Hs : Some 111 = Some 0) by (apply H3; by eexists). done.
Defined.

Lemma stale_timeout_fails_connect_witness :
  ∃ x4 x6 : connector (byte_t := nat), connect_end None (timeout_fires user x4) = Some (-1, x6) ∧ cl_state (cn x4) = connecting ∧
    cl_state (cn x6) = disconnected.
Proof.
  destruct (connect_begin user 5 9 (-1) EINPROGRESS demo_connector) as [r x1|x1|] eqn:E1; [by vm_compute in E1| |by vm_compute in E1].
  destruct (socket_writable poll_thread [] x1) as [x2|] eqn:E2; [|vm_compute in E1; injection E1 as <-; by vm_compute in E2].
  destruct (connect_end (Some 0) x2) as [[r x3]|] eqn:E3;
    [|vm_compute in E1; injection E1 as <-; vm_compute in E2; injection E2 as <-; by vm_compute in E3].
  destruct (connect_begin user 6 9 (-1) EINPROGRESS (set_cn (client_on_closed (cn x3)) x3)) as [r' x4|x4|] eqn:E4;
    vm_compute in E1; injection E1 as <-; vm_compute in E2; injection E2 as <-; vm_compute in E3; injection E3 as <- <-;
    [by vm_compute in E4| |by vm_compute in E4].
  destruct (stale_timeout_fails_connect user 5 9 (-1) EINPROGRESS 6 9 (-1) EINPROGRESS user [] None demo_connector _ _ _ x4
    conn_ready_init eq_refl eq_refl eq_refl eq_refl E4) as (_ & _ & _ & _ & x6 & H1 & _ & H2 & _).
  exists x4, x6. split; [exact H1|]. split; [|exact H2]. vm_compute in E4. injection E4 as <-. reflexivity.
Defined.
