(* ===== verification/Curl.v ===== *)
(** * net/http_client: [curl_req_t], [curl_rsp_t] and [curl_stub_t]

    A coroutine that calls [exec_curl] puts a request into the stub of its
    thread and waits for a son that sleeps for ever; [select], called by the
    scheduler of the thread, starts the requests, drives libcurl and wakes the
    coroutine whose request was answered.  libcurl is not part of the program:
    the handles it returns, the options it is given and the results of its
    calls are arguments or are logged.  Requests are shared objects, named by
    their addresses. *)

From stdpp Require Import strings.
From S2P Require Import Prelude Reporter Chroutine Load Thread World ThreadInv Sched Run Safety Hold Engine.
Local Open Scope Z_scope.

(** ** curl_req.hpp *)

Definition CURL_CON_TIME_OUT : Z := 30000.
Definition CURL_TIME_OUT : Z := 60000.
Definition CURLE_FAILED_INIT : Z := 2.

(** [curl_rsp_t]; no code stores anything in [m_buf]. *)
Record curl_rsp_t := mk_rsp { m_buf : option nat; m_rsp_code : Z; m_data_result : Z }.
Definition rsp_init : curl_rsp_t := mk_rsp None (-1) (-1).

(** [curl_rsp_t(curl_rsp_t &&other)]: the new object and what is left of the
    other. *)
Definition move_rsp (other : curl_rsp_t) : curl_rsp_t * curl_rsp_t :=
  (mk_rsp (m_buf other) (m_rsp_code other) (m_data_result other),
   mk_rsp None (m_rsp_code other) (m_data_result other)).

Inductive EN_CURL_TYPE := EN_CURL_TYPE_GET | EN_CURL_TYPE_POST.

(** The calls of [curl_easy_setopt].  [slot] is the pair of the callback and
    its argument. *)
Inductive curl_opt :=
  | CURLOPT_HTTPGET
  | CURLOPT_URL (url : string)
  | CURLOPT_CONNECTTIMEOUT_MS (ms : Z)
  | CURLOPT_TIMEOUT_MS (ms : Z)
  | CURLOPT_WRITEDATA (p : nat)
  | CURLOPT_WRITEFUNCTION (f : nat)
  | CURLOPT_POST
  | CURLOPT_POSTFIELDSIZE (n : Z)
  | CURLOPT_POSTFIELDS (data : list Z).

Record curl_req_t := mk_req {
  m_curl_ptr : option nat;
  m_opts : list curl_opt;
  m_type : EN_CURL_TYPE;
  m_req_id : Z;
  m_rsp : curl_rsp_t;
  m_my_chroutine : Z;
  m_post_buf : list Z
}.

Definition set_opts v q := mk_req (m_curl_ptr q) v (m_type q) (m_req_id q) (m_rsp q) (m_my_chroutine q) (m_post_buf q).
Definition set_post v q := mk_req (m_curl_ptr q) (m_opts q) EN_CURL_TYPE_POST (m_req_id q) (m_rsp q) (m_my_chroutine q) v.
Definition set_rsp v q := mk_req (m_curl_ptr q) (m_opts q) (m_type q) (m_req_id q) v (m_my_chroutine q) (m_post_buf q).
Definition set_my_chroutine_id v q := mk_req (m_curl_ptr q) (m_opts q) (m_type q) (m_req_id q) (m_rsp q) v (m_post_buf q).

(** [curl_req_t(unsigned int req_id)]; [h] is what [curl_easy_init] returns. *)
Definition new_curl_req (h : option nat) (req_id : Z) : curl_req_t :=
  mk_req h match h with Some _ => [CURLOPT_HTTPGET] | None => [] end EN_CURL_TYPE_GET req_id rsp_init INVALID_ID [].

Section options.
(** The [CURLcode] of a [curl_easy_setopt]. *)
Context (setopt : curl_opt → Z).

Definition curl_easy_setopt (o : curl_opt) (q : curl_req_t) : Z * curl_req_t := (setopt o, set_opts (m_opts q ++ [o]) q).

(** [if (!m_curl_ptr) return CURLE_FAILED_INIT;] and the option. *)
Definition set_option (o : curl_opt) (q : curl_req_t) : Z * curl_req_t :=
  match m_curl_ptr q with
  | None => (CURLE_FAILED_INIT, q)
  | Some _ => curl_easy_setopt o q
  end.

Definition set_url (url : string) q := set_option (CURLOPT_URL url) q.
Definition set_connect_timeout (ms : Z) q := set_option (CURLOPT_CONNECTTIMEOUT_MS ms) q.
Definition set_timeout (ms : Z) q := set_option (CURLOPT_TIMEOUT_MS ms) q.

(** [CURLcode set_data_slot(data_slot_func_t func, void *func_handler)] *)
Definition set_data_slot (func func_handler : nat) (q : curl_req_t) : Z * curl_req_t :=
  match m_curl_ptr q with
  | None => (CURLE_FAILED_INIT, q)
  | Some _ => let '(_, q1) := curl_easy_setopt (CURLOPT_WRITEDATA func_handler) q in
              curl_easy_setopt (CURLOPT_WRITEFUNCTION func) q1
  end.

(** The addresses of [write_rsp_data_func] and of the request's [m_rsp]. *)
Definition write_rsp_data_ptr : nat := 0.
Definition rsp_ptr : nat := 0.

(** [size_t write_rsp_data_func(...)]: everything is taken, nothing kept. *)
Definition write_rsp_data_func (size nmemb : Z) : Z := to_size_t (size * nmemb).

(** [void make_default_opts()] *)
Definition make_default_opts (q : curl_req_t) : curl_req_t :=
  let '(_, q1) := set_connect_timeout CURL_CON_TIME_OUT q in
  let '(_, q2) := set_timeout CURL_TIME_OUT q1 in
  (set_data_slot write_rsp_data_ptr rsp_ptr q2).2.

(** [void set_post_data(uint8_t *data, uint32_t len)] *)
Definition set_post_data (data : list Z) (q : curl_req_t) : curl_req_t :=
  match data with
  | [] => q
  | _ =>
    let q1 := set_post data q in
    let '(_, q2) := curl_easy_setopt CURLOPT_POST q1 in
    let '(_, q3) := curl_easy_setopt (CURLOPT_POSTFIELDSIZE (Z.of_nat (length data))) q2 in
    (curl_easy_setopt (CURLOPT_POSTFIELDS data) q3).2
  end.

(** The request [exec_curl] builds. *)
Definition built_req (h : option nat) (chroutine_id : Z) (url : string) (connect_timeout timeout : Z)
    (w : option (nat * nat)) : curl_req_t :=
  let q0 := make_default_opts (set_my_chroutine_id chroutine_id (new_curl_req h 0)) in
  let '(_, q1) := set_url url q0 in
  let q2 := if (connect_timeout >? 0) && negb (connect_timeout =? CURL_CON_TIME_OUT)
            then (set_connect_timeout connect_timeout q1).2 else q1 in
  let q3 := if (timeout >? 0) && negb (timeout =? CURL_TIME_OUT) then (set_timeout timeout q2).2 else q2 in
  match w with
  | Some (f, p) => (set_data_slot f p q3).2
  | None => q3
  end.
End options.

(** [CURLcode execute_sync()]; [perform] is the result of [curl_easy_perform]. *)
Definition execute_sync (perform : Z) (q : curl_req_t) : Z :=
  match m_curl_ptr q with None => CURLE_FAILED_INIT | Some _ => perform end.

(** [void on_rsp(long rsp_code, long data_result)] *)
Definition on_rsp (cur : Z) (e : engine_t) (rsp_code data_result : Z) (q : curl_req_t) (w : world)
  : option (curl_req_t * world) :=
  let q1 := set_rsp (mk_rsp (m_buf (m_rsp q)) rsp_code data_result) q in
  if negb (m_my_chroutine q =? INVALID_ID) then
    match Engine.awake_chroutine cur (m_my_chroutine q) e w with
    | Some (_, w') => Some (q1, w')
    | None => None
    end
  else Some (q1, w).

(** ** curl_stub.hpp *)

Definition MAX_CONCURRENT_TRANS_IN_CURLMULTI : Z := 1000.

(** The stub with the requests of its thread; [attached] are the handles that
    libcurl has added to [m_multi_handle]. *)
Record curl_stub_t := mk_stub {
  m_curl_req_todo_que : list nat;
  m_curl_req_doing_map : gmap nat nat;
  attached : gset nat;
  reqs : gmap nat curl_req_t
}.

Definition set_todo v x := mk_stub v (m_curl_req_doing_map x) (attached x) (reqs x).
Definition set_doing v a x := mk_stub (m_curl_req_todo_que x) v a (reqs x).
Definition set_reqs v x := mk_stub (m_curl_req_todo_que x) (m_curl_req_doing_map x) (attached x) v.

Definition new_stub : curl_stub_t := mk_stub [] ∅ ∅ ∅.

(** [size_t push_curl_req(std::shared_ptr<curl_req_t> req)]: the new request
    is the object at [r]. *)
Definition push_curl_req (r : nat) (q : curl_req_t) (x : curl_stub_t) : Z * curl_stub_t :=
  let x1 := set_todo (m_curl_req_todo_que x ++ [r]) (set_reqs (<[r := q]> (reqs x)) x) in
  (Z.of_nat (length (m_curl_req_todo_que x1)), x1).

(** The handle of a request object. *)
Definition handle_of (x : curl_stub_t) (r : nat) : option nat := reqs x !! r ≫= m_curl_ptr.

Section stub.
(** Whether [curl_multi_add_handle] adds the handle [h]. *)
Context (added : nat → bool).

(** [int attach_multi_handler(CURLM *handler)], of the handle [h]; the result of
    the call is not looked at. *)
Definition attach_multi_handler (h : nat) (l : gset nat) : gset nat := if added h then {[h]} ∪ l else l.

(** The loop of [add_todo_to_doing], over the queue. *)
Fixpoint add_loop (todo : list nat) (x : curl_stub_t) : curl_stub_t :=
  if Z.of_nat (size (m_curl_req_doing_map x)) <? MAX_CONCURRENT_TRANS_IN_CURLMULTI then
    match todo with
    | [] => set_todo [] x
    | r :: rest =>
      match handle_of x r with
      | Some h => add_loop rest (set_doing (<[h := r]> (m_curl_req_doing_map x)) (attach_multi_handler h (attached x)) x)
      | None => add_loop rest x
      end
    end
  else set_todo todo x.

(** [bool add_todo_to_doing()] *)
Definition add_todo_to_doing (x : curl_stub_t) : bool * curl_stub_t :=
  let x1 := add_loop (m_curl_req_todo_que x) x in
  (negb (bool_decide (m_curl_req_doing_map x1 = ∅)), x1).

Definition SELECT_TIMEOUT_TIMES : Z := 5.
Definition SELECT_TIMES : Z := 10.
Definition SELECT_TIMEOUT : Z := 10.

(** [void execute_all_async()].  [perform k] is the number of running handles
    the [k]-th [curl_multi_perform] reports; [wait k] is whether the [k]-th
    [curl_multi_wait] succeeds, and its [numfds].  The value counts both
    calls; [None]: still in the loop. *)
Fixpoint execute_loop (perform : nat → Z) (wait : nat → bool * Z) (fuel : nat)
    (nCountOfEasyHandlesRun nSelectTimeoutTimes nSelectTimes : Z) (performs waits : nat) : option (nat * nat) :=
  match fuel with
  | O => None
  | S fuel' =>
    if (nCountOfEasyHandlesRun >? 0) && (nSelectTimes <? SELECT_TIMES) && (nSelectTimeoutTimes <? SELECT_TIMEOUT_TIMES) then
      let '(good, numfds) := wait waits in
      if negb good then Some (performs, S waits)
      else if numfds =? 0 then
        execute_loop perform wait fuel' nCountOfEasyHandlesRun (nSelectTimeoutTimes + 1) (nSelectTimes + 1) performs (S waits)
      else
        execute_loop perform wait fuel' (perform performs) 0 (nSelectTimes + 1) (S performs) (S waits)
    else Some (performs, waits)
  end.

Definition execute_all_async (perform : nat → Z) (wait : nat → bool * Z) : option (nat * nat) :=
  execute_loop perform wait (S (Z.to_nat SELECT_TIMES)) (perform 0%nat) 0 0 1 0.

(** A message of [curl_multi_info_read]; [is_done] for [CURLMSG_DONE]. *)
Record curl_msg := mk_msg { is_done : bool; easy_handle : nat; response_code : Z; msg_result : Z }.

(** [void read_and_clean()], over the messages there are. *)
Fixpoint read_and_clean (cur : Z) (e : engine_t) (msgs : list curl_msg) (x : curl_stub_t) (w : world)
  : option (curl_stub_t * world) :=
  match msgs with
  | [] => Some (x, w)
  | m :: ms =>
    if is_done m then
      match m_curl_req_doing_map x !! easy_handle m with
      | Some r =>
        match reqs x !! r with
        | Some q =>
          match on_rsp cur e (response_code m) (msg_result m) q w with
          | Some (q', w') =>
            read_and_clean cur e ms
              (set_doing (delete (easy_handle m) (m_curl_req_doing_map x))
                 match m_curl_ptr q with Some h => attached x ∖ {[h]} | None => attached x end
                 (set_reqs (<[r := q']> (reqs x)) x)) w'
          | None => None
          end
        | None => None
        end
      | None => read_and_clean cur e ms x w
      end
    else read_and_clean cur e ms x w
  end.

(** [int select(int wait_ms)] *)
Definition select (cur : Z) (e : engine_t) (perform : nat → Z) (wait : nat → bool * Z) (msgs : list curl_msg)
    (x : curl_stub_t) (w : world) : option (Z * curl_stub_t * world) :=
  let '(any, x1) := add_todo_to_doing x in
  let finish x w := Some (Z.of_nat (size (m_curl_req_doing_map x)), x, w) in
  if any then
    match execute_all_async perform wait with
    | None => None
    | Some _ =>
      match read_and_clean cur e msgs x1 w with
      | Some (x2, w2) => finish x2 w2
      | None => None
      end
    end
  else finish x1 w.

(** *** exec_curl *)

(** The son's lambda [while (1) {SLEEP(10000);}]. *)
Definition wait_code : func_t := Some (-3).

Inductive exec_t :=
  | exec_returns (rsp : option curl_rsp_t) (x : curl_stub_t) (w : world)
  | exec_waits (pthrd : option nat) (suspended : bool) (x : curl_stub_t) (w : world).

(** [exec_curl] up to where it waits.  [r] is the address of the new request,
    [h] the result of [curl_easy_init], [rep] the new reporter. *)
Definition exec_begin (cur now : Z) (setopt : curl_opt → Z) (r : nat) (h : option nat) (rep : nat) (url : string)
    (connect_timeout timeout : Z) (slot : option (nat * nat)) (e : engine_t) (x : curl_stub_t) (w : world) : option exec_t :=
  match Engine.get_current_chroutine_id cur e w with
  | None => None
  | Some (id, w0) =>
    if id =? INVALID_ID then Some (exec_returns None x w0)
    else
      let q := built_req setopt h id url connect_timeout timeout slot in
      let '(_, x1) := push_curl_req r q x in
      if timeout >? 0 then
        match create_son_begin cur now wait_code rep timeout e w0 with
        | None => None
        | Some (pthrd, sw, w1) => Some (exec_waits pthrd sw x1 w1)
        end
      else Some (exec_returns (Some (move_rsp (m_rsp q)).1) (set_reqs (<[r := set_rsp (move_rsp (m_rsp q)).2 q]> (reqs x1)) x1) w0)
  end.

(** The rest of [exec_curl]: the answer is moved out of the request. *)
Definition exec_end (r : nat) (x : curl_stub_t) : option (curl_rsp_t * curl_stub_t) :=
  match reqs x !! r with
  | None => None
  | Some q => Some ((move_rsp (m_rsp q)).1, set_reqs (<[r := set_rsp (move_rsp (m_rsp q)).2 q]> (reqs x)) x)
  end.

(** ** The requests of a stub *)

(** A request that waits to be started or answered. *)
Definition live (x : curl_stub_t) (r : nat) : Prop :=
  r ∈ m_curl_req_todo_que x ∨ ∃ h, m_curl_req_doing_map x !! h = Some r.

Record stub_ok (x : curl_stub_t) : Prop := {
  so_doing : ∀ h r, m_curl_req_doing_map x !! h = Some r → handle_of x r = Some h;
  so_nodup : NoDup (m_curl_req_todo_que x);
  so_disj : ∀ h r, m_curl_req_doing_map x !! h = Some r → r ∉ m_curl_req_todo_que x;
  so_inj : ∀ r r' h, live x r → live x r' → handle_of x r = Some h → handle_of x r' = Some h → r = r';
  so_attached : ∀ h, h ∈ attached x ↔ h ∈ dom (m_curl_req_doing_map x) ∧ added h = true;
  so_size : Z.of_nat (size (m_curl_req_doing_map x)) <= MAX_CONCURRENT_TRANS_IN_CURLMULTI
}.

Lemma push_ok r q x :
  stub_ok x → ¬ live x r → (∀ h r', m_curl_ptr q = Some h → live x r' → handle_of x r' ≠ Some h) →
  stub_ok (push_curl_req r q x).2.
Proof.
  intros [Hd Hn Hj Hi Ha Hs] Hr Hq.
  assert (Hh : ∀ r', live x r' → handle_of (push_curl_req r q x).2 r' = handle_of x r').
  { intros r' Hr'. unfold handle_of, push_curl_req. simpl. rewrite lookup_insert_ne; [done|]. by intros ->. }
  assert (Hrr : handle_of (push_curl_req r q x).2 r = m_curl_ptr q).
  { unfold handle_of, push_curl_req. simpl. by rewrite lookup_insert_eq. }
  assert (Hl : ∀ r', live (push_curl_req r q x).2 r' → live x r' ∨ r' = r).
  { intros r' [Hin|Hin]; [|left; by right]. unfold push_curl_req in Hin. simpl in Hin.
    apply elem_of_app in Hin as [Hin|Hin%list_elem_of_singleton]; [left; by left|by right]. }
  split; simpl; try done.
  - intros h r' Hr'. rewrite Hh by (right; by exists h). by apply Hd.
  - apply NoDup_snoc; [done|]. intros Hin. apply Hr. by left.
  - intros h r' Hr' [Hin|Hin%list_elem_of_singleton]%elem_of_app; [by apply (Hj h r')|]. subst r'. apply Hr. right. by exists h.
  - intros r1 r2 h H1 H2 E1 E2. apply Hl in H1 as [H1|H1]; apply Hl in H2 as [H2|H2]; subst; try done.
    + apply (Hi r1 r2 h H1 H2); [rewrite <- (Hh _ H1)|rewrite <- (Hh _ H2)]; done.
    + by destruct (Hq h r1 (eq_trans (eq_sym Hrr) E2) H1 (eq_trans (eq_sym (Hh _ H1)) E1)).
    + by destruct (Hq h r2 (eq_trans (eq_sym Hrr) E1) H2 (eq_trans (eq_sym (Hh _ H2)) E2)).
Qed.

(** Starting the request at the front of the queue. *)
Lemma start_ok r rest h x :
  stub_ok (set_todo (r :: rest) x) → handle_of x r = Some h →
  Z.of_nat (size (m_curl_req_doing_map x)) < MAX_CONCURRENT_TRANS_IN_CURLMULTI →
  stub_ok (set_todo rest (set_doing (<[h := r]> (m_curl_req_doing_map x)) (attach_multi_handler h (attached x)) x)) ∧
  m_curl_req_doing_map x !! h = None.
Proof.
  intros [Hd Hn Hj Hi Ha Hs] Hh Hlt. simpl in *. apply NoDup_cons in Hn as [Hr Hn].
  assert (Hnone : m_curl_req_doing_map x !! h = None).
  { destruct (m_curl_req_doing_map x !! h) as [r0|] eqn:E; [|done]. exfalso.
    assert (r0 = r) as -> by (apply (Hi r0 r h); [right; by exists h|left; left|by apply Hd|done]).
    apply (Hj h r E). by left. }
  split; [|done].
  assert (Hl : ∀ r', live (set_todo rest (set_doing (<[h := r]> (m_curl_req_doing_map x)) (attach_multi_handler h (attached x)) x)) r' →
    live (set_todo (r :: rest) x) r').
  { intros r' [Hin|(h' & Hin)]; simpl in Hin; [left; by right|].
    apply lookup_insert_Some in Hin as [[<- <-]|[_ Hin]]; [left; by left|right; by exists h']. }
  split; simpl; try done.
  - intros h' r' [[<- <-]|[_ Hin]]%lookup_insert_Some; [done|by apply Hd].
  - intros h' r' [[<- <-]|[_ Hin]]%lookup_insert_Some; [done|]. intros Hin'. apply (Hj h' r' Hin). by right.
  - intros r1 r2 h' H1 H2. apply Hi; by apply Hl.
  - intros h'. unfold attach_multi_handler. rewrite dom_insert_L, elem_of_union, elem_of_singleton. destruct (added h) eqn:Eh.
    + rewrite elem_of_union, elem_of_singleton, Ha. split; [intros [->|[H1 H2]]; [by split; [left|]|by split; [right|]]|intros [[->|H1] H2]; [by left|by right]].
    + rewrite Ha. split; [intros [H1 H2]; by split; [right|]|intros [[->|H1] H2]; [congruence|done]].
  - rewrite map_size_insert_None by done. lia.
Qed.

Lemma skip_ok r rest x : stub_ok (set_todo (r :: rest) x) → stub_ok (set_todo rest x).
Proof.
  intros [Hd Hn Hj Hi Ha Hs]. simpl in *. apply NoDup_cons in Hn as [Hr Hn]. split; simpl; try done.
  - intros h r' Hin Hin'. apply (Hj h r' Hin). by right.
  - intros r1 r2 h H1 H2. apply Hi; [destruct H1 as [H1|H1]|destruct H2 as [H2|H2]]; [left; by right|by right|left; by right|by right].
Qed.

(** [add_todo_to_doing] starts requests from the front of the queue, skipping
    those that got no handle, until the queue is empty or 1000 are running. *)
Lemma add_loop_spec todo x :
  stub_ok (set_todo todo x) →
  let x' := add_loop todo x in
  stub_ok x' ∧ reqs x' = reqs x ∧ m_curl_req_doing_map x ⊆ m_curl_req_doing_map x' ∧
  (∃ k, todo = k ++ m_curl_req_todo_que x' ∧
     ∀ r, r ∈ k → handle_of x r = None ∨ ∃ h, handle_of x r = Some h ∧ m_curl_req_doing_map x' !! h = Some r) ∧
  (∀ h r, m_curl_req_doing_map x' !! h = Some r → m_curl_req_doing_map x !! h = Some r ∨ r ∈ todo) ∧
  (m_curl_req_todo_que x' = [] ∨ Z.of_nat (size (m_curl_req_doing_map x')) = MAX_CONCURRENT_TRANS_IN_CURLMULTI).
Proof.
  revert x. induction todo as [|r rest IH]; intros x Hx; cbn [add_loop];
    destruct (Z.ltb_spec (Z.of_nat (size (m_curl_req_doing_map x))) MAX_CONCURRENT_TRANS_IN_CURLMULTI) as [Hlt|Hge].
  - simpl. split_and!; [done|done|done| | |by left]; [|by left]. exists []. split; [done|]. by intros r Hr%elem_of_nil.
  - simpl. split_and!; [done|done|done| | |by left]; [|by left]. exists []. split; [done|]. by intros r Hr%elem_of_nil.
  - destruct (handle_of x r) as [h|] eqn:Eh.
    + destruct (start_ok r rest h x Hx Eh Hlt) as [Hx1 Hnone].
      destruct (IH _ Hx1) as (H1 & H2 & H3 & (k & Hk & Hk') & H5 & H6). simpl in *. split_and!; [done|done| | | |done].
      * etransitivity; [|exact H3]. by apply insert_subseteq.
      * exists (r :: k). split; [simpl; congruence|]. intros r' [->|Hr']%elem_of_cons.
        -- right. exists h. split; [done|]. eapply lookup_weaken; [|exact H3]. apply lookup_insert_eq.
        -- by apply Hk'.
      * intros h' r' Hin. destruct (H5 h' r' Hin) as [Hin'|Hin']; [|right; by right].
        apply lookup_insert_Some in Hin' as [[<- <-]|[_ Hin']]; [right; by left|by left].
    + destruct (IH x (skip_ok _ _ _ Hx)) as (H1 & H2 & H3 & (k & Hk & Hk') & H5 & H6). split_and!; [done|done|done| | |done].
      * exists (r :: k). split; [simpl; congruence|]. intros r' [->|Hr']%elem_of_cons; [by left|by apply Hk'].
      * intros h' r' Hin. destruct (H5 h' r' Hin) as [Hin'|Hin']; [by left|right; by right].
  - simpl. split_and!; [done|done|done| |by left|]; [exists []; split; [done|]; by intros r' Hr'%elem_of_nil|].
    right. pose proof (so_size _ Hx) as Hs. simpl in Hs. lia.
Qed.

(** ** Answers *)

Lemma on_rsp_req cur e code res q w q' w' :
  on_rsp cur e code res q w = Some (q', w') → q' = set_rsp (mk_rsp (m_buf (m_rsp q)) code res) q.
Proof. unfold on_rsp. case_if; [destruct (Engine.awake_chroutine _ _ _ _) as [[? ?]|]|]; intros; by simplify_eq. Qed.

(** Answering the request at [r], whose handle is [h]. *)
Lemma answer_ok h r q rsp x :
  stub_ok x → m_curl_req_doing_map x !! h = Some r → reqs x !! r = Some q →
  stub_ok (set_doing (delete h (m_curl_req_doing_map x))
     match m_curl_ptr q with Some h => attached x ∖ {[h]} | None => attached x end
     (set_reqs (<[r := set_rsp rsp q]> (reqs x)) x)).
Proof.
  intros [Hd Hn Hj Hi Ha Hs] Hr Hq. pose proof (Hd h r Hr) as Hh. unfold handle_of in Hh. rewrite Hq in Hh. simpl in Hh.
  rewrite Hh. set (x' := set_doing _ _ _).
  assert (Hhd : ∀ r', handle_of x' r' = handle_of x r').
  { intros r'. unfold handle_of. simpl. destruct (decide (r' = r)) as [->|Hne].
    - rewrite lookup_insert_eq, Hq. done.
    - by rewrite lookup_insert_ne. }
  assert (Hl : ∀ r', live x' r' → live x r').
  { intros r' [Hin|(h' & Hin)]; [by left|]. simpl in Hin. apply lookup_delete_Some in Hin as [_ Hin]. right. by exists h'. }
  split; simpl.
  - intros h' r' [_ Hin]%lookup_delete_Some. rewrite Hhd. by apply Hd.
  - done.
  - intros h' r' [_ Hin]%lookup_delete_Some. by apply (Hj h' r').
  - intros r1 r2 h' H1 H2. rewrite !Hhd. apply Hi; by apply Hl.
  - intros h'. rewrite elem_of_difference, elem_of_singleton, Ha, dom_delete_L, elem_of_difference, elem_of_singleton. tauto.
  - rewrite map_size_delete_Some by (by eexists). lia.
Qed.

(** What the messages [msgs] change: the requests they answer leave the map,
    with the answer in them; every other request stays as it is. *)
Definition cleaned (msgs : list curl_msg) (x x' : curl_stub_t) : Prop :=
  stub_ok x' ∧ m_curl_req_todo_que x' = m_curl_req_todo_que x ∧ m_curl_req_doing_map x' ⊆ m_curl_req_doing_map x ∧
  (∀ r, (∀ h, m_curl_req_doing_map x !! h ≠ Some r) → reqs x' !! r = reqs x !! r) ∧
  (∀ h r q, m_curl_req_doing_map x !! h = Some r → reqs x !! r = Some q →
     (m_curl_req_doing_map x' !! h = Some r ∧ reqs x' !! r = Some q) ∨
     (m_curl_req_doing_map x' !! h = None ∧ ∃ m, m ∈ msgs ∧ is_done m = true ∧ easy_handle m = h ∧
        reqs x' !! r = Some (set_rsp (mk_rsp (m_buf (m_rsp q)) (response_code m) (msg_result m)) q))).

Lemma cleaned_cons m ms x x' : cleaned ms x x' → cleaned (m :: ms) x x'.
Proof.
  intros (H1 & H2 & H3 & H4 & H5). split_and!; try done. intros h r q Hr Hq.
  destruct (H5 h r q Hr Hq) as [?|(? & m' & Hm & ?)]; [by left|right]. split; [done|]. exists m'. split; [by right|done].
Qed.

Lemma read_and_clean_spec cur e msgs x w x' w' :
  stub_ok x → read_and_clean cur e msgs x w = Some (x', w') → cleaned msgs x x'.
Proof.
  revert x w. induction msgs as [|m ms IH]; intros x w Hx H; cbn [read_and_clean] in H.
  { simplify_eq. unfold cleaned. split_and!; try done. intros h r q Hr Hq. by left. }
  destruct (is_done m) eqn:Edone; [|by apply cleaned_cons, (IH x w)].
  destruct (m_curl_req_doing_map x !! easy_handle m) as [r|] eqn:Er; [|by apply cleaned_cons, (IH x w)].
  destruct (reqs x !! r) as [q|] eqn:Eq; [|done].
  destruct (on_rsp cur e (response_code m) (msg_result m) q w) as [[q' w1]|] eqn:Eo; [|done].
  apply on_rsp_req in Eo. subst q'.
  destruct (IH _ _ (answer_ok _ _ _ _ _ Hx Er Eq) H) as (H1 & H2 & H3 & H4 & H5). simpl in *.
  assert (Hinj : ∀ h, m_curl_req_doing_map x !! h = Some r → h = easy_handle m).
  { intros h Hh. pose proof (so_doing _ Hx _ _ Hh). pose proof (so_doing _ Hx _ _ Er). congruence. }
  unfold cleaned. split_and!; [done|done| | |].
  - etransitivity; [exact H3|apply delete_subseteq].
  - intros r' Hr'. rewrite H4.
    + rewrite lookup_insert_ne; [done|]. intros <-. by apply (Hr' (easy_handle m)).
    + intros h [_ Hh]%lookup_delete_Some. by apply (Hr' h).
  - intros h r' q' Hr' Hq'. destruct (decide (h = easy_handle m)) as [->|Hne].
    + assert (r' = r) as -> by congruence. assert (q' = q) as -> by congruence. right. split.
      * destruct (m_curl_req_doing_map x' !! easy_handle m) eqn:E; [|done]. eapply lookup_weaken in E; [|exact H3].
        by rewrite lookup_delete_eq in E.
      * exists m. split_and!; [by left|done|done|]. rewrite H4; [by rewrite lookup_insert_eq|].
        intros h [Hh1 Hh2]%lookup_delete_Some. apply Hinj in Hh2. congruence.
    + assert (Hrr : r' ≠ r) by (intros ->; by apply Hinj in Hr').
      destruct (H5 h r' q') as [?|(? & m' & Hm & ?)]; [by rewrite lookup_delete_ne|by rewrite lookup_insert_ne|by left|right].
      split; [done|]. exists m'. split; [by right|done].
Qed.

(** ** Properties *)

(** C29: the stub loses no request, whether libcurl takes the handles it is given
    or not.  [select] keeps the stub well formed and
    returns the number of running requests, at most 1000; requests are started
    in the order they were pushed, and the queue is not empty afterwards only
    if 1000 are running after the start; a request that was waiting still
    waits, or got no handle from libcurl and is dropped, or libcurl has
    reported it done and it holds the reported codes. *)
Theorem select_serves_requests cur e perform wait msgs x w n x' w' :
  stub_ok x → select cur e perform wait msgs x w = Some (n, x', w') →
  stub_ok x' ∧ n = Z.of_nat (size (m_curl_req_doing_map x')) ∧ n <= MAX_CONCURRENT_TRANS_IN_CURLMULTI ∧
  m_curl_req_todo_que x' `suffix_of` m_curl_req_todo_que x ∧
  (m_curl_req_todo_que x' ≠ [] → (add_todo_to_doing x).1 = true ∧
     Z.of_nat (size (m_curl_req_doing_map (add_todo_to_doing x).2)) = MAX_CONCURRENT_TRANS_IN_CURLMULTI) ∧
  ∀ r q, live x r → reqs x !! r = Some q →
    (live x' r ∧ reqs x' !! r = Some q) ∨ m_curl_ptr q = None ∨
    ∃ m, m ∈ msgs ∧ is_done m = true ∧ m_curl_ptr q = Some (easy_handle m) ∧
      reqs x' !! r = Some (set_rsp (mk_rsp (m_buf (m_rsp q)) (response_code m) (msg_result m)) q).
Proof.
  intros Hx. unfold select, add_todo_to_doing. set (x1 := add_loop (m_curl_req_todo_que x) x).
  assert (Hx0 : stub_ok (set_todo (m_curl_req_todo_que x) x)) by (by destruct x).
  destruct (add_loop_spec _ x Hx0) as (Hx1 & Hr1 & Hd1 & (k & Hk & Hkd) & Hnew & Hend). fold x1 in Hx1, Hr1, Hd1, Hk, Hkd, Hnew, Hend.
  intros H. assert (Hc : cleaned msgs x1 x' ∧ n = Z.of_nat (size (m_curl_req_doing_map x'))).
  { destruct (negb _) eqn:Eany.
    - destruct (execute_all_async perform wait); [|done].
      destruct (read_and_clean cur e msgs x1 w) as [[x2 w2]|] eqn:Er; [|done]. simplify_eq.
      split; [by eapply read_and_clean_spec|done].
    - simplify_eq. split; [|done]. unfold cleaned. split_and!; try done. intros h r q Hr Hq. by left. }
  destruct Hc as [(Hx' & Ht & Hsub & Hother & Hans) ->]. split_and!; [done|done|by apply so_size| | |].
  - exists k. by rewrite Hk, Ht.
  - rewrite Ht. intros Hne. destruct Hend as [?|Hend]; [done|]. split; [|exact Hend].
    apply negb_true_iff, bool_decide_eq_false_2. intros He. rewrite He, map_size_empty in Hend. done.
  - intros r q Hl Hq. rewrite <- Hr1 in Hq.
    assert (Hdo : ∀ h, m_curl_req_doing_map x1 !! h = Some r → m_curl_ptr q = Some h →
      (live x' r ∧ reqs x' !! r = Some q) ∨ m_curl_ptr q = None ∨
      ∃ m, m ∈ msgs ∧ is_done m = true ∧ m_curl_ptr q = Some (easy_handle m) ∧
        reqs x' !! r = Some (set_rsp (mk_rsp (m_buf (m_rsp q)) (response_code m) (msg_result m)) q)).
    { intros h Hh Hp. destruct (Hans h r q Hh Hq) as [[H1 H2]|(H1 & m & Hm & Hd & <- & H2)].
      - left. split; [right; by exists h|done].
      - right. right. by exists m. }
    assert (Hhd : handle_of x r = m_curl_ptr q) by (unfold handle_of; by rewrite <- Hr1, Hq).
    destruct Hl as [Hl|(h & Hl)].
    + rewrite Hk in Hl. apply elem_of_app in Hl as [Hl|Hl].
      * destruct (Hkd r Hl) as [Hn|(h & Hn & Hh)]; rewrite Hhd in Hn; [by right; left|by apply (Hdo h)].
      * left. split; [left; by rewrite Ht|]. rewrite Hother; [done|]. intros h Hh. by apply (so_disj _ Hx1 h r Hh).
    + apply (Hdo h); [by eapply lookup_weaken|]. rewrite <- Hhd. by apply (so_doing _ Hx).
Qed.

(** A request whose handle libcurl did not add, and therefore never reports, stays
    in the map, where it counts as running. *)
Lemma refused_request_stays cur e perform wait msgs x w n x' w' h r :
  stub_ok x → m_curl_req_doing_map x !! h = Some r → h ∉ attached x → (∀ m, m ∈ msgs → easy_handle m ∈ attached (add_todo_to_doing x).2) →
  select cur e perform wait msgs x w = Some (n, x', w') → added h = false ∧ m_curl_req_doing_map x' !! h = Some r.
Proof.
  intros Hx Hr Hatt Hm. unfold select, add_todo_to_doing in *. cbn [snd] in Hm. set (x1 := add_loop (m_curl_req_todo_que x) x) in *.
  assert (Hx0 : stub_ok (set_todo (m_curl_req_todo_que x) x)) by (by destruct x).
  destruct (add_loop_spec _ x Hx0) as (Hx1 & Hr1 & Hd1 & _). fold x1 in Hx1, Hr1, Hd1. pose proof (lookup_weaken _ _ _ _ Hr Hd1) as Hr'.
  assert (Hno : added h = false).
  { destruct (added h) eqn:E; [|done]. exfalso. apply Hatt, (so_attached _ Hx). split; [by eapply elem_of_dom_2|done]. }
  intros H. split; [done|]. destruct (negb _); [|by simplify_eq]. destruct (execute_all_async perform wait); [|done].
  destruct (read_and_clean cur e msgs x1 w) as [[x2 w2]|] eqn:Er; [|done]. simplify_eq.
  destruct (read_and_clean_spec _ _ _ _ _ _ _ Hx1 Er) as (_ & _ & _ & _ & Hans). pose proof (so_doing _ Hx1 _ _ Hr') as Hh. unfold handle_of in Hh.
  destruct (reqs x1 !! r) as [q|] eqn:Hq; [|done]. destruct (Hans h r q Hr' Hq) as [[H1 _]|(_ & m & Hin & _ & Eh & _)]; [done|].
  exfalso. specialize (Hm m Hin). rewrite Eh in Hm. apply (so_attached _ Hx1) in Hm as [_ Ht]. congruence.
Qed.

Lemma execute_loop_bounds perform wait fuel run nt ns p k :
  0 <= ns <= SELECT_TIMES → (Z.to_nat (SELECT_TIMES - ns) < fuel)%nat →
  ∃ p' k', execute_loop perform wait fuel run nt ns p k = Some (p', k') ∧
    (k <= k')%nat ∧ (p <= p')%nat ∧ (k' - k <= Z.to_nat (SELECT_TIMES - ns))%nat ∧ (p' - p <= k' - k)%nat.
Proof.
  revert run nt ns p k. induction fuel as [|fuel IH]; intros run nt ns p k Hns Hf; [lia|]. cbn [execute_loop].
  unfold SELECT_TIMES in *. case_if; bool_to_prop; [|exists p, k; split; [done|lia]].
  destruct (wait k) as [good numfds]. destruct good; simpl; [|exists p, (S k); split; [done|lia]]. case_if.
  - destruct (IH run (nt + 1) (ns + 1) p (S k)) as (p' & k' & -> & ?); [lia|lia|]. exists p', k'. split; [done|lia].
  - destruct (IH (perform p) 0 (ns + 1) (S p) (S k)) as (p' & k' & -> & ?); [lia|lia|]. exists p', k'. split; [done|lia].
Qed.

(** Driving libcurl is bounded: whatever libcurl reports, one [select]
    ends after at most ten calls of [curl_multi_wait], of at most ten
    milliseconds each, and eleven of [curl_multi_perform]; it waits for nothing
    when no request is running. *)
Theorem execute_all_async_bounded perform wait :
  ∃ p k, execute_all_async perform wait = Some (p, k) ∧ (k <= 10)%nat ∧ (1 <= p <= 11)%nat ∧
    Z.of_nat k * SELECT_TIMEOUT <= 100 ∧ (perform 0%nat <= 0 → p = 1%nat ∧ k = 0%nat).
Proof.
  destruct (execute_loop_bounds perform wait (S (Z.to_nat SELECT_TIMES)) (perform 0%nat) 0 0 1 0) as (p & k & H & ?);
    [unfold SELECT_TIMES; lia|unfold SELECT_TIMES; lia|].
  exists p, k. unfold execute_all_async. rewrite H. unfold SELECT_TIMES, SELECT_TIMEOUT in *. split_and!; [done|lia..|].
  intros Hp. cbn [execute_loop] in H. destruct (Z.gtb_spec (perform 0%nat) 0); [lia|]. simpl in H. by simplify_eq.
Qed.

End stub.

(** After its timeout, [exec_curl] returns the empty answer and leaves
    its request behind.  When libcurl reports that request, the coroutine that
    made it is awakened again, whatever it does by then: a coroutine asleep
    until [yield_to] is made ready before its time. *)
Theorem late_answer_ends_another_sleep cur e w t y p c r q h code res x now :
  reqs x !! r = Some q → m_rsp q = rsp_init → m_curl_req_doing_map x !! h = Some r →
  Engine.get_current_thread cur e w = Some t → w_threads w !! t = Some y →
  let s := mk_cell (w_heap w) y in
  wf_cell s → get_chroutine (m_my_chroutine q) s = Some p → obj p s = Some c → m_my_chroutine q ≠ INVALID_ID →
  stop_son_when_yield_over c = false → moved c = false → yield_wait c = 0 → 0 <= now < yield_to c →
  ∃ x1, exec_end r x = Some (rsp_init, x1) ∧ ready now c = false ∧
  ∃ x2 w2 y2, read_and_clean cur e [mk_msg true h code res] x1 w = Some (x2, w2) ∧ w_threads w2 !! t = Some y2 ∧
    obj p (mk_cell (w_heap w2) y2) = Some (set_yield_to 0 c) ∧ ready now (set_yield_to 0 c) = true.
Proof.
  intros Hq Hrsp Hd Ht Hy s Hs Hg Hc Hi Hson Hm Hw Hnow. unfold exec_end. rewrite Hq, Hrsp. eexists. split; [done|]. split.
  { apply not_true_iff_false. rewrite ready_spec. lia. }
  cbn [read_and_clean is_done easy_handle]. cbn [m_curl_req_doing_map set_reqs]. rewrite Hd. cbn [reqs set_reqs].
  rewrite lookup_insert_eq. unfold on_rsp. cbn [m_my_chroutine set_rsp]. apply Z.eqb_neq in Hi. rewrite Hi. cbn [negb].
  unfold Engine.awake_chroutine, with_thread. rewrite Ht. rewrite (on_thread_at t _ w y Hy). fold s.
  destruct (awake_chroutine_plain _ p c s Hs Hg Hc (or_intror Hson)) as (_ & H2 & _).
  do 3 eexists. split; [done|]. split; [apply lookup_insert_eq|]. simpl. split; [exact H2|].
  apply ready_spec. simpl. split_and!; [done|lia|by left].
Qed.

(** A call with a non-positive timeout waits for nothing: the request is
    queued and the answer returned is the empty one. *)
Lemma exec_begin_no_timeout cur now setopt r h rep url ct timeout slot e x w id w0 :
  Engine.get_current_chroutine_id cur e w = Some (id, w0) → id ≠ INVALID_ID → timeout <= 0 →
  ∃ x1, exec_begin cur now setopt r h rep url ct timeout slot e x w = Some (exec_returns (Some rsp_init) x1 w0) ∧
    r ∈ m_curl_req_todo_que x1.
Proof.
  intros Hid Hne Ht. unfold exec_begin. rewrite Hid. apply Z.eqb_neq in Hne. rewrite Hne.
  destruct (Z.gtb_spec timeout 0); [lia|]. eexists. split.
  - assert (m_rsp (built_req setopt h id url ct timeout slot) = rsp_init) as ->; [|done].
    unfold built_req, make_default_opts, set_url, set_connect_timeout, set_timeout, set_data_slot, set_option.
    destruct h; simpl; repeat case_if; by destruct slot as [[]|].
  - simpl. apply elem_of_app. right. by left.
Qed.

(** The timeouts in force for the request [exec_curl] builds: the last options
    of their kinds. *)
Definition last_timeout (l : list curl_opt) : option Z :=
  List.last (omap (λ o, match o with CURLOPT_TIMEOUT_MS ms => Some (Some ms) | _ => None end) l) None.
Definition last_connect_timeout (l : list curl_opt) : option Z :=
  List.last (omap (λ o, match o with CURLOPT_CONNECTTIMEOUT_MS ms => Some (Some ms) | _ => None end) l) None.

Lemma built_req_timeouts setopt h id url ct timeout slot :
  let q := built_req setopt (Some h) id url ct timeout slot in
  last_timeout (m_opts q) = Some (if timeout >? 0 then timeout else CURL_TIME_OUT) ∧
  last_connect_timeout (m_opts q) = Some (if ct >? 0 then ct else CURL_CON_TIME_OUT) ∧
  m_my_chroutine q = id ∧ m_curl_ptr q = Some h ∧ In (CURLOPT_URL url) (m_opts q).
Proof.
  unfold built_req, make_default_opts, set_url, set_connect_timeout, set_timeout, set_data_slot, set_option. simpl.
  unfold CURL_CON_TIME_OUT, CURL_TIME_OUT.
  destruct (ct >? 0), (Z.eqb_spec ct 30000), (timeout >? 0), (Z.eqb_spec timeout 60000), slot as [[f p]|]; simpl;
    subst; split_and!; try done; tauto.
Qed.

(** ** Examples *)

Definition demo_req (h : nat) : curl_req_t := built_req (λ _, 0) (Some h) 2 "http://a" 0 500 None.

(** Two requests pushed; libcurl reports the first one done. *)
Definition demo_stub : curl_stub_t := (push_curl_req 11 (demo_req 21) (push_curl_req 10 (demo_req 20) new_stub).2).2.

(** libcurl adds every handle. *)
Definition all_added (h : nat) : bool := true.

Lemma new_stub_ok : stub_ok all_added new_stub.
Proof.
  split; [done|apply NoDup_nil_2|done| | |by vm_compute].
  - intros r r' h [Hr|[h' Hr]]; [by apply elem_of_nil in Hr|done].
  - intros h. split; [by intros ?%elem_of_empty|]. by intros [[? ?]%elem_of_dom _].
Qed.

Lemma demo_stub_ok : stub_ok all_added demo_stub.
Proof.
  assert (H1 : stub_ok all_added (push_curl_req 10 (demo_req 20) new_stub).2).
  { apply push_ok; [apply new_stub_ok| |]; [intros [Hr|[h' Hr]]; [by apply elem_of_nil in Hr|done]|].
    intros h r' _ [Hr|[h' Hr]]; [by apply elem_of_nil in Hr|done]. }
  apply push_ok; [exact H1| |].
  - intros [Hr|[h' Hr]]; [|done]. simpl in Hr. by apply list_elem_of_singleton in Hr.
  - intros h r' Hp [Hr|[h' Hr]]; [|done]. simpl in Hr. apply list_elem_of_singleton in Hr as ->.
    vm_compute in Hp. injection Hp as <-. by vm_compute.
Qed.

Definition no_world : world := mk_world heap_init ∅.

Lemma select_serves_requests_witness :
  ∃ x', select all_added 7 engine_init (λ _, 1) (λ _, (true, 1)) [mk_msg true 20 200 0] demo_stub no_world = Some (1, x', no_world) ∧
    stub_ok all_added x' ∧ live x' 11 ∧ ∃ q, reqs x' !! 10%nat = Some q ∧ m_rsp_code (m_rsp q) = 200.
Proof.
  destruct (select all_added 7 engine_init (λ _, 1) (λ _, (true, 1)) [mk_msg true 20 200 0] demo_stub no_world) as [[[n x'] w']|] eqn:E;
    [|by vm_compute in E].
  destruct (select_serves_requests _ _ _ _ _ _ _ _ _ _ _ demo_stub_ok E) as (H1 & H2 & _).
  exists x'. vm_compute in E. injection E as <- <- <-. split; [reflexivity|]. split; [exact H1|].
  split; [right; exists 21%nat; reflexivity|]. eexists. split; reflexivity.
Defined.

Lemma execute_all_async_bounded_witness :
  ∃ k, execute_all_async (λ _, 3) (λ _, (true, 0)) = Some (1%nat, k) ∧ (k <= 10)%nat.
Proof.
  destruct (execute_all_async_bounded (λ _, 3) (λ _, (true, 0))) as (p & k & H & Hk & _). exists k. split; [|exact Hk].
  rewrite H. vm_compute in H. injection H as <- <-. reflexivity.
Defined.

(** Coroutine 2 of the thread 1 sleeps; its request was never answered. *)
Definition asleep : cell := (HOLD 50 (end_of father_son).1).1.
Definition one_thread : world := mk_world (hp asleep) {[1%nat := th asleep]}.
Definition one_engine : engine_t := set_m_init_over true (set_m_pool {[7 := 1%nat]} engine_init).
Definition left_behind : curl_stub_t := (add_todo_to_doing all_added (push_curl_req 10 (demo_req 20) new_stub).2).2.

Lemma asleep_wf : wf_cell asleep.
Proof.
  assert (Hr : reachable 0 ((end_of father_son).1, Some 3%nat)) by (by apply end_of_running; vm_compute).
  destruct (obj 3 (end_of father_son).1) as [c|] eqn:Hc.
  - destruct (HOLD_suspends 0 50 _ 3 c Hr ltac:(by_compute) Hc) as (s' & Hs & Hw & _).
    unfold asleep. by rewrite Hs.
  - exfalso. revert Hc. apply (bool_decide_eq_false_1 (_ = None)). vm_compute. reflexivity.
Qed.

Lemma cell_eta s : mk_cell (hp s) (th s) = s.
Proof. by destruct s. Qed.

Lemma late_answer_ends_another_sleep_witness :
  ∃ x1 x2 w2, exec_end 10 left_behind = Some (rsp_init, x1) ∧
    read_and_clean 7 one_engine [mk_msg true 20 200 0] x1 one_thread = Some (x2, w2) ∧
    ∃ c c' y2, obj 3 asleep = Some c ∧ ready 60 c = false ∧ w_threads w2 !! 1%nat = Some y2 ∧
      obj 3 (mk_cell (w_heap w2) y2) = Some c' ∧ ready 60 c' = true.
Proof.
  destruct (obj 3 asleep) as [c|] eqn:Hc.
  2: { exfalso. revert Hc. apply (bool_decide_eq_false_1 (_ = None)). vm_compute. reflexivity. }
  assert (Hf : option_map (λ c, (stop_son_when_yield_over c, moved c, yield_wait c, yield_to c)) (obj 3 asleep) =
    Some (false, false, 0, 50 + HOLD_MS)) by (vm_compute; reflexivity).
  rewrite Hc in Hf. injection Hf as H1 H2 H3 H4.
  destruct (late_answer_ends_another_sleep 7 one_engine one_thread 1 (th asleep) 3 c 10 (demo_req 20) 20 200 0 left_behind 60)
    as (x1 & He & Hn & x2 & w2 & y2 & Hr & Hy & Ho & Hrd);
    [vm_compute; reflexivity|vm_compute; reflexivity|vm_compute; reflexivity|vm_compute; reflexivity|vm_compute; reflexivity| |
     vm_compute; reflexivity|unfold one_thread; cbn [w_heap]; rewrite cell_eta; exact Hc|intros Hx; vm_compute in Hx; discriminate Hx|exact H1|exact H2|exact H3|rewrite H4; unfold HOLD_MS; lia|].
  - unfold one_thread. cbn [w_heap]. rewrite cell_eta. exact asleep_wf.
  - exists x1, x2, w2. split; [exact He|]. split; [exact Hr|]. exists c, (set_yield_to 0 c), y2.
    split; [reflexivity|]. split; [exact Hn|]. split; [exact Hy|]. split; [exact Ho|exact Hrd].
Defined.
