(* ===== verification/Rpc.v ===== *)
(** * net/rpc: asynchronous servers and synchronous clients over gRPC

    A server keeps one [call_round_it] object per call: it waits for a request
    ([CREATE], [PROCESS]), works on it in a coroutine, and is deleted by the
    event of its answer ([FINISH]).  A client object is cloned for every call;
    the clone is the tag of the call's event.  The completion queues belong to
    gRPC: the events [AsyncNext] delivers are arguments. *)

From S2P Require Import Prelude Reporter Chroutine Load Thread World ThreadInv Sched Run Safety Hold Engine.
Local Open Scope Z_scope.

(** ** The server *)

Inductive call_step_t := CREATE | PROCESS | FINISH.

#[export] Instance call_step_eq_dec : EqDecision call_step_t.
Proof. solve_decision. Defined.

(** An event of [AsyncNext]: its tag and its [ok]. *)
Record event := mk_event { tag : nat; ev_ok : bool }.

(** A [call_round_it], as the template [service_api_t] makes it: the service it
    is for ([m_service_ptr]; the queue is that of the server) and its step. *)
Record round_t := mk_round { m_service : nat; m_step : call_step_t }.

(** The live rounds; the rounds that wait for a request (that called
    [request_service]); those whose coroutine runs [do_work]; the number of
    rounds deleted. *)
Record rounds_t := mk_rounds {
  rounds : gmap nat round_t;
  next_round : nat;
  listening : list nat;
  working : list nat;
  deleted : nat
}.

Definition set_step (p : nat) (v : call_step_t) (x : rounds_t) : rounds_t :=
  mk_rounds (alter (λ o, mk_round (m_service o) v) p (rounds x)) (next_round x) (listening x) (working x) (deleted x).
Definition request_service (p : nat) (x : rounds_t) : rounds_t :=
  mk_rounds (rounds x) (next_round x) (listening x ++ [p]) (working x) (deleted x).
Definition start_work (p : nat) (x : rounds_t) : rounds_t :=
  mk_rounds (rounds x) (next_round x) (listening x) (working x ++ [p]) (deleted x).
Definition delete_round (p : nat) (x : rounds_t) : rounds_t :=
  mk_rounds (delete p (rounds x)) (next_round x) (listening x) (working x) (S (deleted x)).

(** [service_api_t(typename service_type_t::AsyncService *service, ..)]: a new
    object for a service, in the step [call_round_it()] sets. *)
Definition new_service_api (service : nat) (x : rounds_t) : nat * rounds_t :=
  (next_round x, mk_rounds (<[next_round x := mk_round service CREATE]> (rounds x)) (S (next_round x))
                   (listening x) (working x) (deleted x)).

(** [call_round_it *create_me()] of [service_api_t]: a new object for the
    service of [this]. *)
Definition create_me (this : round_t) (x : rounds_t) : nat * rounds_t := new_service_api (m_service this) x.

(** [void process()], with [re_serve()], which calls it for the new object.
    Each call takes one unit of [fuel]; [None] is a call through a pointer to a
    deleted object. *)
Fixpoint process (fuel : nat) (p : nat) (x : rounds_t) : option rounds_t :=
  match fuel with
  | O => None
  | S fuel' =>
    match rounds x !! p with
    | None => None
    | Some this =>
      match m_step this with
      | CREATE => Some (request_service p (set_step p PROCESS x))
      | PROCESS =>
        let x1 := set_step p FINISH x in
        (* [re_serve()] *)
        let '(q, x2) := create_me this x1 in
        match process fuel' q x2 with
        | Some x3 => Some (start_work p x3)
        | None => None
        end
      | FINISH => Some (delete_round p x)
      end
    end
  end.

(** A call of [process] makes at most one nested call. *)
Definition process_fuel : nat := 2.

(** How many events [select] takes at most is [limit + 1]: it leaves its loop
    when [processed > limit]. *)
Definition SERVER_LIMIT : Z := 100.
Definition CLIENT_LIMIT : Z := 10.

(** The loop of [select] over the events there are: the events it left, and
    how many it handled. *)
Fixpoint server_loop (es : list event) (processed : Z) (x : rounds_t) : option (Z * list event * rounds_t) :=
  match es with
  | [] => Some (processed, [], x)
  | e :: r =>
    if ev_ok e then
      match process process_fuel (tag e) x with
      | None => None
      | Some x' =>
        if processed + 1 >? SERVER_LIMIT then Some (processed + 1, r, x')
        else server_loop r (processed + 1) x'
      end
    else Some (processed, r, x)
  end.

(** [int grpc_async_server_it::select(int wait_ms)] *)
Definition server_select (m_running : bool) (es : list event) (x : rounds_t) : option (Z * list event * rounds_t) :=
  if negb m_running then Some (0, es, x) else server_loop es 0 x.

(** The server object: [start], [stop].  [started] is the result of
    [start_grpc_server], which always returns 0; [listen_requests], which the
    user writes, creates the first round of each of the services, numbered from
    0, and processes it. *)
Record server_t := mk_server { m_running : bool; shut_down : bool; srv_rounds : rounds_t }.

Definition start_grpc_server : Z := 0.

Definition listen_request (service : nat) (x : rounds_t) : option rounds_t :=
  let '(q, x1) := new_service_api service x in process process_fuel q x1.

Fixpoint listen_requests (services : nat) (x : rounds_t) : option rounds_t :=
  match services with
  | O => Some x
  | S n => match listen_requests n x with Some x1 => listen_request n x1 | None => None end
  end.

Definition server_start (services : nat) (s : server_t) : option (Z * server_t) :=
  if m_running s then Some (0, s)
  else if negb (start_grpc_server =? 0) then Some (-1, s)
  else match listen_requests services (srv_rounds s) with
       | Some x => Some (0, mk_server true (shut_down s) x)
       | None => None
       end.

Definition server_stop (s : server_t) : Z * server_t := (0, mk_server false true (srv_rounds s)).

Definition server_init : server_t := mk_server false false (mk_rounds ∅ 1 [] [] 0).

(** ** The life of the rounds *)

(** What gRPC and the handlers do in between: a request arrives for a round
    that listens; the handler of a round answers ([Finish] with the round as
    tag), whose event arrives later. *)
Record rpc := mk_rpc { rd : rounds_t; queue : list event; answered : list nat; leaked : list nat }.

Inductive rpc_step : rpc → rpc → Prop :=
  | step_request p l1 l2 r :
      listening (rd r) = l1 ++ p :: l2 →
      rpc_step r (mk_rpc (mk_rounds (rounds (rd r)) (next_round (rd r)) (l1 ++ l2) (working (rd r)) (deleted (rd r)))
                    (queue r ++ [mk_event p true]) (answered r) (leaked r))
  | step_answer p l1 l2 r :
      working (rd r) = l1 ++ p :: l2 →
      rpc_step r (mk_rpc (mk_rounds (rounds (rd r)) (next_round (rd r)) (listening (rd r)) (l1 ++ l2) (deleted (rd r)))
                    (queue r) (answered r ++ [p]) (leaked r))
  | step_finished p b l1 l2 r :
      answered r = l1 ++ p :: l2 →
      rpc_step r (mk_rpc (rd r) (queue r ++ [mk_event p b]) (l1 ++ l2) (leaked r))
  | step_take p q x r :
      queue r = mk_event p true :: q → process process_fuel p (rd r) = Some x →
      rpc_step r (mk_rpc x q (answered r) (leaked r))
  | step_drop p q r :
      queue r = mk_event p false :: q → rpc_step r (mk_rpc (rd r) q (answered r) (leaked r ++ [p])).

Definition rpc_init (services : nat) : option rpc :=
  match server_start services server_init with
  | Some (_, s) => Some (mk_rpc (srv_rounds s) [] [] [])
  | None => None
  end.

(** Every live round is in one of these places. *)
Definition places (r : rpc) : list nat :=
  listening (rd r) ++ (tag <$> queue r) ++ working (rd r) ++ answered r ++ leaked r.

(** The steps of the live rounds, and the rounds of a service that wait for a
    request or have just got one. *)
Definition steps (x : rounds_t) : gmap nat call_step_t := m_step <$> rounds x.
Definition in_process (service : nat) (x : rounds_t) : gmap nat round_t :=
  filter (λ kv, m_step kv.2 = PROCESS ∧ m_service kv.2 = service) (rounds x).

Lemma alter_lookup {A} (f : A → A) (m : gmap nat A) p a : m !! p = Some a → alter f p m = <[p := f a]> m.
Proof.
  intros Hp. apply map_eq. intros q. destruct (decide (q = p)) as [->|Hne].
  - by rewrite lookup_alter_eq, lookup_insert_eq, Hp.
  - by rewrite lookup_alter_ne, lookup_insert_ne.
Qed.

Lemma process_spec p x :
  process process_fuel p x =
  match rounds x !! p with
  | None => None
  | Some o =>
    match m_step o with
    | CREATE => Some (request_service p (set_step p PROCESS x))
    | PROCESS =>
      let q := next_round x in
      Some (mk_rounds (<[q := mk_round (m_service o) PROCESS]> (<[p := mk_round (m_service o) FINISH]> (rounds x))) (S q)
              (listening x ++ [q]) (working x ++ [p]) (deleted x))
    | FINISH => Some (delete_round p x)
    end
  end.
Proof.
  unfold process_fuel. cbn [process]. destruct (rounds x !! p) as [[i []]|] eqn:Ep; cbn [m_step m_service]; [done| |done|done].
  unfold create_me, new_service_api, set_step. cbn [rounds next_round m_service]. rewrite lookup_insert_eq. cbn [m_step].
  unfold start_work, request_service. cbn [rounds next_round listening working deleted].
  rewrite (alter_lookup _ (<[next_round x := _]> _) _ (mk_round i CREATE)) by (by rewrite lookup_insert_eq).
  rewrite insert_insert_eq. by rewrite (alter_lookup _ (rounds x) p (mk_round i PROCESS)) by done.
Qed.

(** The rounds of [services] services: one of each waits. *)
Record rpc_ok (services : nat) (r : rpc) : Prop := {
  ro_nodup : NoDup (places r);
  ro_live : ∀ p, p ∈ places r ↔ is_Some (steps (rd r) !! p);
  ro_create : ∀ p, steps (rd r) !! p ≠ Some CREATE;
  ro_listening : ∀ p, p ∈ listening (rd r) → steps (rd r) !! p = Some PROCESS;
  ro_finishing : ∀ p, p ∈ working (rd r) ++ answered r ++ leaked r → steps (rd r) !! p = Some FINISH;
  ro_false : ∀ p, mk_event p false ∈ queue r → steps (rd r) !! p = Some FINISH;
  ro_fresh : ∀ p, is_Some (steps (rd r) !! p) → (p < next_round (rd r))%nat;
  ro_services : ∀ i, size (in_process i (rd r)) = if decide (i < services)%nat then 1%nat else 0%nat
}.

(** A step that only moves a round from one place to another. *)
Lemma rpc_ok_move n r r' :
  rpc_ok n r → rounds (rd r') = rounds (rd r) → next_round (rd r') = next_round (rd r) → places r' ≡ₚ places r →
  (∀ p, p ∈ listening (rd r') → p ∈ listening (rd r)) →
  (∀ p, p ∈ working (rd r') ++ answered r' ++ leaked r' → p ∈ working (rd r) ++ answered r ++ leaked r ∨ mk_event p false ∈ queue r) →
  (∀ p, mk_event p false ∈ queue r' → mk_event p false ∈ queue r ∨ p ∈ answered r) →
  rpc_ok n r'.
Proof.
  intros [Hn Hl Hc Hli Hf Hfa Hfr Hs] Hr Hnx Hp H1 H2 H3.
  assert (Hst : steps (rd r') = steps (rd r)) by (unfold steps; by rewrite Hr). split.
  - by rewrite Hp.
  - intros p. by rewrite Hp, Hst.
  - intros p. by rewrite Hst.
  - intros p Hin. rewrite Hst. by apply Hli, H1.
  - intros p Hin. rewrite Hst. destruct (H2 p Hin); [by apply Hf|by apply Hfa].
  - intros p Hin. rewrite Hst. destruct (H3 p Hin); [by apply Hfa|apply Hf; rewrite !elem_of_app; tauto].
  - intros p. rewrite Hst, Hnx. apply Hfr.
  - intros i. unfold in_process. rewrite Hr. apply Hs.
Qed.

Lemma steps_lookup x p : steps x !! p = m_step <$> rounds x !! p.
Proof. apply lookup_fmap. Qed.

(** A round that gets its request leaves its place to a new one of the same
    service. *)
Lemma size_in_process_finish (m : gmap nat round_t) p q i j :
  m !! p = Some (mk_round j PROCESS) → m !! q = None →
  size (filter (λ kv, m_step kv.2 = PROCESS ∧ m_service kv.2 = i)
    (<[q := mk_round j PROCESS]> (<[p := mk_round j FINISH]> m))) =
  size (filter (λ kv, m_step kv.2 = PROCESS ∧ m_service kv.2 = i) m).
Proof.
  intros Hp Hq. assert (Hpq : q ≠ p) by congruence. destruct (decide (j = i)) as [->|Hji].
  - rewrite map_filter_insert_True by done. rewrite map_size_insert_None.
    + rewrite map_filter_insert_False by (by intros [? _]). rewrite map_filter_delete, map_size_delete_Some.
      * assert (size (filter (λ kv, m_step kv.2 = PROCESS ∧ m_service kv.2 = i) m) ≠ 0)%nat; [|lia].
        apply (map_size_ne_0_lookup_2 _ p). exists (mk_round i PROCESS). by apply map_lookup_filter_Some_2.
      * exists (mk_round i PROCESS). by apply map_lookup_filter_Some_2.
    + apply map_lookup_filter_None. left. by rewrite lookup_insert_ne.
  - rewrite map_filter_insert_False by (by intros [_ ?]). rewrite map_filter_delete, map_filter_insert_False by (by intros [? _]).
    rewrite map_filter_delete.
    assert (filter (λ kv, m_step kv.2 = PROCESS ∧ m_service kv.2 = i) m !! p = None) as Hpn.
    { apply map_lookup_filter_None. right. intros y Hy [_ ?]. simplify_eq/=. }
    assert (filter (λ kv, m_step kv.2 = PROCESS ∧ m_service kv.2 = i) m !! q = None) as Hqn.
    { apply map_lookup_filter_None. by left. }
    by rewrite (delete_id _ p), (delete_id _ q).
Qed.

Lemma take_request_ok n r p q x :
  rpc_ok n r → queue r = mk_event p true :: q → process process_fuel p (rd r) = Some x →
  rpc_ok n (mk_rpc x q (answered r) (leaked r)).
Proof.
  intros Hok Hq Hx. rewrite process_spec in Hx. pose proof (ro_create _ _ Hok p) as Hcp.
  destruct (rounds (rd r) !! p) as [[i st]|] eqn:Er; [|done]. cbn [m_step m_service] in Hx.
  assert (Ep : steps (rd r) !! p = Some st) by (by rewrite steps_lookup, Er). rewrite Ep in Hcp.
  destruct st; [done| |simplify_eq].
  - (* a request *)
    cbn zeta in Hx. injection Hx as <-. destruct Hok as [Hn Hl Hc Hli Hf Hfa Hfr Hs]. set (y := next_round (rd r)) in *.
    assert (Hy : steps (rd r) !! y = None).
    { destruct (steps (rd r) !! y) eqn:E; [|done]. assert (y < y)%nat; [apply Hfr; by rewrite E|lia]. }
    assert (Hyr : rounds (rd r) !! y = None) by (rewrite steps_lookup in Hy; by destruct (rounds (rd r) !! y)).
    assert (Hyp : y ≠ p) by congruence.
    set (x' := mk_rounds (<[y := mk_round i PROCESS]> (<[p := mk_round i FINISH]> (rounds (rd r)))) (S y)
                    (listening (rd r) ++ [y]) (working (rd r) ++ [p]) (deleted (rd r))).
    assert (Hst : steps x' = <[y := PROCESS]> (<[p := FINISH]> (steps (rd r)))).
    { unfold steps, x'. cbn [rounds]. by rewrite !fmap_insert. }
    assert (Hpl : places (mk_rpc x' q (answered r) (leaked r)) ≡ₚ y :: places r).
    { unfold places. simpl. rewrite Hq. simpl. solve_Permutation. }
    assert (Hlk : ∀ z, z ≠ y → z ≠ p → steps x' !! z = steps (rd r) !! z).
    { intros z H1 H2. by rewrite Hst, !lookup_insert_ne. }
    assert (Hsy : steps x' !! y = Some PROCESS) by (by rewrite Hst, lookup_insert_eq).
    assert (Hsp : steps x' !! p = Some FINISH) by (by rewrite Hst, lookup_insert_ne, lookup_insert_eq).
    assert (Hynp : y ∉ places r) by (rewrite Hl, Hy; by intros []).
    assert (Hpin : p ∈ places r) by (rewrite Hl, Ep; by eexists).
    split; cbn [rd queue answered leaked].
    + rewrite Hpl. by apply NoDup_cons.
    + intros z. rewrite Hpl, elem_of_cons, Hl. destruct (decide (z = y)) as [->|Hzy]; [rewrite Hsy; split; [by eexists|by left]|].
      destruct (decide (z = p)) as [->|Hzp]; [|rewrite Hlk by done; tauto].
      rewrite Hsp, Ep. split; [by eexists|right; by eexists].
    + intros z. destruct (decide (z = y)) as [->|Hzy]; [by rewrite Hsy|].
      destruct (decide (z = p)) as [->|Hzp]; [by rewrite Hsp|]. rewrite Hlk by done. apply Hc.
    + intros z [Hz| ->%list_elem_of_singleton]%elem_of_app; [|exact Hsy].
      rewrite Hlk; [by apply Hli|intros ->; apply Hli in Hz; congruence|].
      intros ->. unfold places in Hn. rewrite Hq in Hn. apply NoDup_app in Hn as (_ & Hd & _). apply (Hd p Hz). simpl. by left.
    + intros z Hz. cbn [working x'] in Hz. rewrite !elem_of_app, list_elem_of_singleton in Hz. destruct (decide (z = p)) as [->|Hzp]; [done|].
      assert (Hz' : z ∈ working (rd r) ++ answered r ++ leaked r) by (rewrite !elem_of_app; tauto).
      pose proof (Hf z Hz') as Hzf. rewrite Hlk; [done|congruence|done].
    + intros z Hz. assert (Hzf : steps (rd r) !! z = Some FINISH) by (apply Hfa; rewrite Hq; by right).
      rewrite Hlk; [done|congruence|congruence].
    + intros z. cbn [next_round x']. destruct (decide (z = y)) as [->|Hzy]; [lia|]. destruct (decide (z = p)) as [->|Hzp].
      * intros _. assert (p < y)%nat; [apply Hfr; by rewrite Ep|lia].
      * rewrite Hlk by done. intros H%Hfr. fold y in H. lia.
    + intros j. unfold in_process, x'. cbn [rounds]. rewrite size_in_process_finish by done. apply Hs.
  - (* the end of a call *)
    destruct Hok as [Hn Hl Hc Hli Hf Hfa Hfr Hs].
    assert (Hpl : places r ≡ₚ p :: places (mk_rpc (delete_round p (rd r)) q (answered r) (leaked r))).
    { unfold places, delete_round. simpl. rewrite Hq. simpl. solve_Permutation. }
    assert (Hst : steps (delete_round p (rd r)) = delete p (steps (rd r))).
    { unfold steps. cbn [rounds delete_round]. by rewrite fmap_delete. }
    rewrite Hpl in Hn. apply NoDup_cons in Hn as [Hnp Hn].
    assert (Hne : ∀ z, z ∈ places (mk_rpc (delete_round p (rd r)) q (answered r) (leaked r)) → z ≠ p) by (intros z Hz ->; done).
    split; cbn [rd queue answered leaked]; rewrite ?Hst; cbn [next_round listening working delete_round].
    + exact Hn.
    + intros z. destruct (decide (z = p)) as [->|Hzp]; [rewrite lookup_delete_eq; split; [done|by intros []]|].
      rewrite lookup_delete_ne by done. rewrite <- Hl, Hpl, elem_of_cons. tauto.
    + intros z [_ Hz]%lookup_delete_Some. by apply (Hc z).
    + intros z Hz. rewrite lookup_delete_ne; [by apply Hli|]. intros <-. apply (Hne p); [|done]. unfold places. simpl. rewrite !elem_of_app in *. tauto.
    + intros z Hz. rewrite lookup_delete_ne; [by apply Hf|]. intros <-. apply (Hne p); [|done]. unfold places. simpl. rewrite !elem_of_app in *. tauto.
    + intros z Hz. rewrite lookup_delete_ne; [apply Hfa; rewrite Hq; by right|]. intros <-. apply (Hne p); [|done].
      unfold places. simpl. apply elem_of_app. right. apply elem_of_app. left. apply list_elem_of_fmap. by exists (mk_event p false).
    + intros z [y [_ Hy]%lookup_delete_Some]. apply Hfr. by eexists.
    + intros j. unfold in_process in *. simpl. rewrite map_filter_delete, delete_id; [apply Hs|].
      apply map_lookup_filter_None. right. intros y Hy. simpl. intros [? _]. simplify_eq.
Qed.

Lemma rpc_step_ok n r r' : rpc_ok n r → rpc_step r r' → rpc_ok n r'.
Proof.
  intros Hok Hs. destruct Hs as [p l1 l2 r Hl|p l1 l2 r Hl|p b l1 l2 r Hl|p q x r Hq Hx|p q r Hq]; [| | |by eapply take_request_ok|].
  - apply (rpc_ok_move n r); [done|done|done| | | |].
    + unfold places. simpl. rewrite Hl, fmap_app. simpl. solve_Permutation.
    + simpl. intros p'. rewrite Hl, !elem_of_app, elem_of_cons. tauto.
    + simpl. intros p'. tauto.
    + simpl. intros p' [?|Hin%list_elem_of_singleton]%elem_of_app; [by left|done].
  - apply (rpc_ok_move n r); [done|done|done| | | |].
    + unfold places. simpl. rewrite Hl. solve_Permutation.
    + done.
    + simpl. intros p'. rewrite Hl, !elem_of_app, list_elem_of_singleton, elem_of_cons. tauto.
    + simpl. tauto.
  - apply (rpc_ok_move n r); [done|done|done| | | |].
    + unfold places. simpl. rewrite Hl, fmap_app. simpl. solve_Permutation.
    + done.
    + simpl. intros p'. rewrite Hl, !elem_of_app, elem_of_cons. tauto.
    + simpl. intros p' [?|Hin%list_elem_of_singleton]%elem_of_app; [by left|]. injection Hin as -> <-. right. rewrite Hl.
      apply elem_of_app. right. by left.
  - apply (rpc_ok_move n r); [done|done|done| | | |].
    + unfold places. simpl. rewrite Hq. simpl. solve_Permutation.
    + done.
    + simpl. intros p'. rewrite Hq, !elem_of_app, list_elem_of_singleton. intros [?|[?|[?| ->]]]; [tauto|tauto|tauto|]. right. by left.
    + simpl. intros p' Hin. left. rewrite Hq. by right.
Qed.

Lemma listen_request_ok n x :
  rpc_ok n (mk_rpc x [] [] []) → ∃ x', listen_request n x = Some x' ∧ rpc_ok (S n) (mk_rpc x' [] [] []).
Proof.
  intros Hok. unfold listen_request, new_service_api. rewrite process_spec. cbn [rounds]. rewrite lookup_insert_eq. cbn [m_step].
  eexists. split; [done|]. destruct Hok as [Hn Hl Hc Hli Hf Hfa Hfr Hs]. unfold places in *. simpl in *. rewrite !app_nil_r in *.
  set (y := next_round x) in *.
  assert (Hy : steps x !! y = None).
  { destruct (steps x !! y) eqn:E; [|done]. assert (y < y)%nat; [apply Hfr; by rewrite E|lia]. }
  assert (Hyr : rounds x !! y = None) by (rewrite steps_lookup in Hy; by destruct (rounds x !! y)).
  set (x' := request_service y (set_step y PROCESS (mk_rounds (<[y := mk_round n CREATE]> (rounds x)) (S y) (listening x) (working x) (deleted x)))).
  assert (Hrd : rounds x' = <[y := mk_round n PROCESS]> (rounds x)).
  { unfold x', request_service, set_step. cbn [rounds]. rewrite (alter_lookup _ _ y (mk_round n CREATE)) by (by rewrite lookup_insert_eq).
    by rewrite insert_insert_eq. }
  assert (Hst : steps x' = <[y := PROCESS]> (steps x)) by (unfold steps; by rewrite Hrd, fmap_insert).
  assert (Hpl : (listening x ++ [y]) ++ working x ≡ₚ y :: listening x ++ working x) by solve_Permutation.
  split; unfold places; cbn [rd queue answered leaked]; rewrite ?Hst; cbn [x' request_service set_step listening working next_round]; simpl; rewrite ?app_nil_r.
  - rewrite Hpl. apply NoDup_cons. split; [|done]. rewrite Hl, Hy. by intros [].
  - intros p. rewrite Hpl, elem_of_cons, Hl. destruct (decide (p = y)) as [->|Hp].
    + rewrite lookup_insert_eq. split; [by eexists|by left].
    + rewrite lookup_insert_ne by done. tauto.
  - intros p. destruct (decide (p = y)) as [->|Hp]; [by rewrite lookup_insert_eq|rewrite lookup_insert_ne by done; apply Hc].
  - intros p [Hp| ->%list_elem_of_singleton]%elem_of_app; [|apply lookup_insert_eq]. rewrite lookup_insert_ne; [by apply Hli|].
    intros <-. apply Hli in Hp. congruence.
  - intros p Hp. pose proof (Hf p Hp) as H. rewrite lookup_insert_ne; [done|congruence].
  - by intros p Hp%elem_of_nil.
  - intros p. destruct (decide (p = y)) as [->|Hp]; [simpl; lia|rewrite lookup_insert_ne by done]. intros H%Hfr. simpl in *. lia.
  - intros i. specialize (Hs i). unfold in_process in *. rewrite Hrd. destruct (decide (i = n)) as [->|Hin].
    + rewrite decide_False in Hs by lia. rewrite decide_True by lia. rewrite map_filter_insert_True by done.
      rewrite map_size_insert_None, Hs; [done|]. apply map_lookup_filter_None. by left.
    + rewrite map_filter_insert_False by (by intros [_ ?]). rewrite map_filter_delete, delete_id; [|apply map_lookup_filter_None; by left].
      rewrite Hs. destruct (decide (i < n)%nat), (decide (i < S n)%nat); lia.
Qed.

Lemma rpc_init_ok services : ∃ r, rpc_init services = Some r ∧ rpc_ok services r.
Proof.
  assert (H : ∃ x, listen_requests services (mk_rounds ∅ 1 [] [] 0) = Some x ∧ rpc_ok services (mk_rpc x [] [] [])).
  { induction services as [|k (x & Hx & Hok)]; simpl.
    - eexists. split; [done|]. split; simpl; [apply NoDup_nil_2| |done|by intros p ?%elem_of_nil|by intros p ?%elem_of_nil|by intros p ?%elem_of_nil| |].
      + intros p. unfold places. simpl. unfold steps. simpl. rewrite fmap_empty, lookup_empty. split; [by intros ?%elem_of_nil|by intros []].
      + intros p [y Hy]. unfold steps in Hy. simpl in Hy. by rewrite fmap_empty, lookup_empty in Hy.
      + intros i. by destruct (decide (i < 0)%nat); [lia|].
    - rewrite Hx. destruct (listen_request_ok k x Hok) as (x1 & -> & Hx1). by exists x1. }
  destruct H as (x & Hx & Hok). unfold rpc_init, server_start, server_init. simpl. rewrite Hx. by eexists.
Qed.

(** The loop of [select] as steps. *)
Lemma server_loop_steps n q k x a l :
  0 <= k <= SERVER_LIMIT → rpc_ok n (mk_rpc x q a l) →
  ∃ k' q' x' l', server_loop q k x = Some (k', q', x') ∧ k <= k' <= SERVER_LIMIT + 1 ∧
    rtc rpc_step (mk_rpc x q a l) (mk_rpc x' q' a l').
Proof.
  revert k x l. induction q as [|e q IH]; intros k x l Hk Hok; cbn [server_loop].
  { exists k, [], x, l. split_and!; [done|lia|lia|apply rtc_refl]. }
  destruct e as [p b]. destruct b; cbn [ev_ok tag].
  - assert (Hp : is_Some (steps x !! p)).
    { apply (ro_live _ _ Hok p). unfold places. simpl. apply elem_of_app. right. by left. }
    destruct (process process_fuel p x) as [x1|] eqn:Ex.
    2: { exfalso. rewrite process_spec in Ex. rewrite steps_lookup in Hp. destruct (rounds x !! p) as [[i []]|]; [done..|by destruct Hp]. }
    assert (Hstep : rpc_step (mk_rpc x (mk_event p true :: q) a l) (mk_rpc x1 q a l)) by (by apply (step_take p q x1)).
    case_if; bool_to_prop.
    + exists (k + 1), q, x1, l. split_and!; [done|lia|lia|by apply rtc_once].
    + destruct (IH (k + 1) x1 l) as (k' & q' & x' & l' & -> & Hk' & Hr); [lia|by eapply rpc_step_ok|].
      exists k', q', x', l'. split_and!; [done|lia|lia|]. by eapply rtc_l.
  - exists k, q, x, (l ++ [p]). split_and!; [done|lia|lia|]. apply rtc_once. by apply (step_drop p q).
Qed.

(** C27: the rounds of a server.  Whatever requests, answers and events
    arrive, every call of [select] returns without touching a deleted round,
    after at most 101 events; after it as before, every live round is in
    exactly one place (waiting for a request, in the queue, working, answered
    or dropped), and each of the services has exactly one round that waits for a
    request or has just got one, and nothing else has any. *)
Theorem server_rounds services r0 r :
  rpc_init services = Some r0 → rtc rpc_step r0 r →
  ∃ n q x l, server_select true (queue r) (rd r) = Some (n, q, x) ∧ 0 <= n <= 101 ∧
    let r' := mk_rpc x q (answered r) l in
    rtc rpc_step r r' ∧ NoDup (places r') ∧ (∀ p, p ∈ places r' ↔ is_Some (rounds x !! p)) ∧
    ∀ i, size (in_process i x) = if decide (i < services)%nat then 1%nat else 0%nat.
Proof.
  intros Hi Hr. destruct (rpc_init_ok services) as (r0' & Hi' & Hok0). assert (r0' = r0) as -> by congruence.
  assert (Hok : rpc_ok services r) by (eapply rtc_invariant; [|exact Hr|exact Hok0]; intros ? ? ? ?; by eapply rpc_step_ok).
  destruct r as [x0 q0 a l0]. destruct (server_loop_steps services q0 0 x0 a l0) as (n & q & x & l & Hs & Hn & Hst);
    [unfold SERVER_LIMIT; lia|done|].
  assert (Hok' : rpc_ok services (mk_rpc x q a l)) by (eapply rtc_invariant; [|exact Hst|exact Hok]; intros ? ? ? ?; by eapply rpc_step_ok).
  exists n, q, x, l. unfold server_select, SERVER_LIMIT in *. simpl. split_and!; [done|lia|lia|done|apply Hok'| |apply Hok'].
  intros p. rewrite (ro_live _ _ Hok' p), steps_lookup. simpl. by rewrite fmap_is_Some.
Qed.

(** A round whose event was dropped stays for ever. *)
Theorem dropped_round_leaks services r0 r r' p :
  rpc_init services = Some r0 → rtc rpc_step r0 r → p ∈ leaked r → rtc rpc_step r r' → steps (rd r') !! p = Some FINISH.
Proof.
  intros Hi Hr Hp Hr'. destruct (rpc_init_ok services) as (r0' & Hi' & Hok0). assert (r0' = r0) as -> by congruence.
  assert (Hok : rpc_ok services r').
  { assert (rtc rpc_step r0 r') as Hrr by by trans r.
    eapply rtc_invariant; [|exact Hrr|exact Hok0]. intros ? ? ? ?. by eapply rpc_step_ok. }
  apply (ro_finishing _ _ Hok). rewrite !elem_of_app. right. right.
  clear -Hp Hr'. induction Hr' as [|x y z Hs _ IH]; [done|]. apply IH. destruct Hs; simpl; try done. apply elem_of_app. by left.
Qed.

(** ** The client *)

(** A call object: the asynchronous kind deletes itself when the answer comes,
    the synchronous kind wakes the coroutine that waits.  [m_deadline] is the
    deadline of its [m_context]; [m_status] and [m_result] are written by gRPC
    when it delivers the answer. *)
Inductive call_kind := async_call | sync_call.

Section client.
Context {result_t : Type}.

(** The code of a default [Status], and [StatusCode::UNKNOWN]. *)
Context (default_status UNKNOWN : Z).

Record call_t := mk_call {
  m_kind : call_kind;
  m_deadline : option Z;
  m_status : Z;
  m_timeout_seconds : Z;
  m_result : result_t;
  m_my_chroutine : Z;
  m_chroutine_timeout_ms : Z
}.

(** [client_call_it::set_timeout] and [client_sync_call_t::set_timeout]. *)
Definition set_timeout (seconds : Z) (c : call_t) : call_t :=
  mk_call (m_kind c) (m_deadline c) (m_status c) seconds (m_result c) (m_my_chroutine c)
    match m_kind c with
    | async_call => m_chroutine_timeout_ms c
    | sync_call => if seconds >? 0 then seconds * 1000 + 500 else 60 * 1000
    end.

(** The constructors. *)
Definition new_async_call (r : result_t) : call_t := mk_call async_call None default_status 0 r INVALID_ID 0.
Definition new_sync_call (r : result_t) : call_t := set_timeout 3 (mk_call sync_call None default_status 0 r INVALID_ID 0).

(** [client_sync_call_t(client_sync_call_t &other)]: the base part is
    constructed afresh. *)
Definition copy_call (other : call_t) : call_t :=
  mk_call (m_kind other) None default_status 0 (m_result other) (m_my_chroutine other) (m_chroutine_timeout_ms other).

(** [void set_opt()] *)
Definition set_opt (now : Z) (c : call_t) : call_t :=
  if m_timeout_seconds c >? 0
  then mk_call (m_kind c) (Some (now + m_timeout_seconds c * 1000)) (m_status c) (m_timeout_seconds c) (m_result c)
         (m_my_chroutine c) (m_chroutine_timeout_ms c)
  else c.

Definition set_my_chroutine (id : Z) (c : call_t) : call_t :=
  mk_call (m_kind c) (m_deadline c) (m_status c) (m_timeout_seconds c) (m_result c) id (m_chroutine_timeout_ms c).
Definition set_answer (st : Z) (v : result_t) (c : call_t) : call_t :=
  mk_call (m_kind c) (m_deadline c) st (m_timeout_seconds c) v (m_my_chroutine c) (m_chroutine_timeout_ms c).

(** The live clones, by address. *)
Record calls_t := mk_calls { calls : gmap nat call_t; next_call : nat }.

(** [client_call_it *call()]: [clone_me], [set_opt], [call_impl]; the last
    registers the clone as the tag of the rpc. *)
Definition call (now : Z) (c : call_t) (x : calls_t) : nat * calls_t :=
  let q := next_call x in (q, mk_calls (<[q := set_opt now (copy_call c)]> (calls x)) (S q)).

(** The son's lambda [while (1) {SLEEP(10000);}]. *)
Definition wait_code : func_t := Some (-4).

(** [int wait_call()] of the clone [q], up to the suspension of the caller. *)
Definition wait_call (cur now : Z) (rep : nat) (q : nat) (e : engine_t) (x : calls_t) (w : world)
  : option (bool * calls_t * world) :=
  match calls x !! q with
  | None => None
  | Some c =>
    match Engine.get_current_chroutine_id cur e w with
    | None => None
    | Some (id, w1) =>
      let c1 := set_my_chroutine id c in
      let x1 := mk_calls (<[q := c1]> (calls x)) (next_call x) in
      if negb (id =? INVALID_ID) && (m_chroutine_timeout_ms c1 >? 0) then
        match create_son_begin cur now wait_code rep (m_chroutine_timeout_ms c1) e w1 with
        | Some (_, sw, w2) => Some (sw, x1, w2)
        | None => None
        end
      else Some (false, x1, w1)
    end
  end.

(** [call_sync(RESULT_T &result)] up to the suspension: the clone, and whether
    the caller is suspended. *)
Definition call_sync_begin (cur now : Z) (rep : nat) (c : call_t) (e : engine_t) (x : calls_t) (w : world)
  : option (nat * bool * calls_t * world) :=
  let '(q, x1) := call now c x in
  match wait_call cur now rep q e x1 w with
  | Some (sw, x2, w2) => Some (q, sw, x2, w2)
  | None => None
  end.

(** The rest of it: the status and the result, and the clone deleted. *)
Definition call_sync_end (q : nat) (x : calls_t) : option (Z * result_t * calls_t) :=
  match calls x !! q with
  | Some c => Some (m_status c, m_result c, mk_calls (delete q (calls x)) (next_call x))
  | None => None
  end.

(** [int on_rsp()]; [None] is a call through a pointer to a deleted object. *)
Definition on_rsp (cur : Z) (q : nat) (e : engine_t) (x : calls_t) (w : world) : option (calls_t * world) :=
  match calls x !! q with
  | None => None
  | Some c =>
    match m_kind c with
    | async_call => Some (mk_calls (delete q (calls x)) (next_call x), w)
    | sync_call =>
      if negb (m_my_chroutine c =? INVALID_ID) then
        match Engine.awake_chroutine cur (m_my_chroutine c) e w with
        | Some (_, w') => Some (x, w')
        | None => None
        end
      else Some (x, w)
    end
  end.

(** The event of an answer, with the status and the result gRPC stores. *)
Record answer := mk_answer { a_tag : nat; a_ok : bool; a_status : Z; a_result : result_t }.

(** The loop of [int grpc_async_client_t::select(int wait_ms)]. *)
Fixpoint client_loop (cur : Z) (e : engine_t) (es : list answer) (processed : Z) (x : calls_t) (w : world)
  : option (Z * list answer * calls_t * world) :=
  match es with
  | [] => Some (processed, [], x, w)
  | a :: r =>
    if a_ok a then
      match calls x !! a_tag a with
      | None => None
      | Some c =>
        match on_rsp cur (a_tag a) e (mk_calls (<[a_tag a := set_answer (a_status a) (a_result a) c]> (calls x)) (next_call x)) w with
        | None => None
        | Some (x', w') =>
          if processed + 1 >? CLIENT_LIMIT then Some (processed + 1, r, x', w')
          else client_loop cur e r (processed + 1) x' w'
        end
      end
    else Some (processed, r, x, w)
  end.

Definition client_select (cur : Z) (e : engine_t) (es : list answer) (x : calls_t) (w : world)
  : option (Z * list answer * calls_t * world) := client_loop cur e es 0 x w.

(** ** Properties of the client *)

(** The timeout stays in [int] exactly for these numbers of seconds. *)
Lemma set_timeout_in_int s c : m_kind c = sync_call → in_int s → (in_int (m_chroutine_timeout_ms (set_timeout s c)) ↔ s <= 2147483).
Proof.
  intros Hk Hs. unfold set_timeout. rewrite Hk. simpl. unfold in_int, INT_MAX, INT_MIN in *. case_if; bool_to_prop; lia.
Qed.

Lemma client_loop_bound cur e es k x w n r x' w' :
  0 <= k <= CLIENT_LIMIT → client_loop cur e es k x w = Some (n, r, x', w') →
  k <= n <= CLIENT_LIMIT + 1 ∧ (length r <= length es)%nat.
Proof.
  revert k x w. induction es as [|a es IH]; intros k x w Hk H; cbn [client_loop] in H; [simplify_eq; simpl; lia|].
  destruct (a_ok a); [|simplify_eq; simpl; lia].
  destruct (calls x !! a_tag a) as [c|]; [|done]. destruct (on_rsp _ _ _ _ _) as [[x1 w1]|]; [|done].
  case_if_in H; bool_to_prop; [simplify_eq; simpl; lia|]. apply IH in H; [|lia]. simpl. lia.
Qed.

Lemma call_sync_begin_clone cur now rep c e x w q sw x1 w1 :
  m_kind c = sync_call → call_sync_begin cur now rep c e x w = Some (q, sw, x1, w1) →
  ∃ id w0, Engine.get_current_chroutine_id cur e w = Some (id, w0) ∧
    calls x1 !! q = Some (mk_call sync_call None default_status 0 (m_result c) id (m_chroutine_timeout_ms c)).
Proof.
  intros Hk. unfold call_sync_begin, call, wait_call. cbn [calls next_call]. rewrite lookup_insert_eq.
  unfold set_opt, copy_call. simpl. rewrite Hk. destruct (Engine.get_current_chroutine_id cur e w) as [[id w0]|] eqn:Hid; [|done].
  intros H. exists id, w0. split; [done|]. revert H. simpl.
  case_if; [destruct (create_son_begin _ _ _ _ _ _ _) as [[[t sw'] w2]|]; [|done]|]; intros; simplify_eq; simpl; apply lookup_insert_eq.
Qed.

(** What a synchronous call returns.  Whatever timeout was set, the
    rpc is started without a deadline, because the copy that is sent loses it.
    If the answer is polled before the caller goes on, the call returns its
    status and its result.  If the caller goes on first, because its own
    timeout has passed, the call returns the default status with the old
    result and deletes the copy; when the answer is polled later, [select]
    calls through a pointer to the deleted copy. *)
Theorem sync_call_outcome cur now rep c e x w q sw x1 w1 st v es :
  m_kind c = sync_call → call_sync_begin cur now rep c e x w = Some (q, sw, x1, w1) →
  (∃ c1, calls x1 !! q = Some c1 ∧ m_deadline c1 = None ∧ m_chroutine_timeout_ms c1 = m_chroutine_timeout_ms c) ∧
  (∀ w2 n r x3 w3, client_select cur e [mk_answer q true st v] x1 w2 = Some (n, r, x3, w3) →
     n = 1 ∧ ∃ x4, call_sync_end q x3 = Some (st, v, x4)) ∧
  (∃ x2, call_sync_end q x1 = Some (default_status, m_result c, x2) ∧ calls x2 !! q = None ∧
     ∀ w2, client_select cur e (mk_answer q true st v :: es) x2 w2 = None).
Proof.
  intros Hk Hb. destruct (call_sync_begin_clone _ _ _ _ _ _ _ _ _ _ _ Hk Hb) as (id & w0 & Hid & Hq). split_and!.
  - eexists. by split_and!.
  - intros w2 n r x3 w3 H. unfold client_select in H. cbn [client_loop a_ok a_tag a_status a_result] in H. rewrite Hq in H.
    unfold on_rsp in H. cbn [calls] in H. rewrite lookup_insert_eq in H. cbn [set_answer m_kind m_my_chroutine] in H.
    assert (Hx : x3 = mk_calls (<[q := set_answer st v (mk_call sync_call None default_status 0 (m_result c) id (m_chroutine_timeout_ms c))]> (calls x1)) (next_call x1) ∧ n = 1).
    { revert H. case_if; [destruct (Engine.awake_chroutine _ _ _ _) as [[? ?]|]; [|done]|]; simpl; intros; by simplify_eq. }
    destruct Hx as [-> ->]. split; [done|]. unfold call_sync_end. cbn [calls]. rewrite lookup_insert_eq. by eexists.
  - unfold call_sync_end. rewrite Hq. eexists. split; [done|]. simpl. rewrite lookup_delete_eq. split; [done|].
    intros w2. unfold client_select. cbn [client_loop a_ok a_tag calls]. by rewrite lookup_delete_eq.
Qed.
End client.

(** ** Examples *)

(** One service; a request comes, its round is processed and answered. *)
Definition one_service : rpc := default (mk_rpc (mk_rounds ∅ 1 [] [] 0) [] [] []) (rpc_init 1).
Definition one_request : rpc := mk_rpc (mk_rounds {[1%nat := mk_round 0 PROCESS]} 2 [] [] 0) [mk_event 1 true] [] [].
Definition at_work : rpc := mk_rpc (mk_rounds {[1%nat := mk_round 0 FINISH; 2%nat := mk_round 0 PROCESS]} 3 [2%nat] [1%nat] 0) [] [] [].
Definition answer_sent : rpc := mk_rpc (mk_rounds {[1%nat := mk_round 0 FINISH; 2%nat := mk_round 0 PROCESS]} 3 [2%nat] [] 0) [] [1%nat] [].
Definition answer_failed : rpc := mk_rpc (mk_rounds {[1%nat := mk_round 0 FINISH; 2%nat := mk_round 0 PROCESS]} 3 [2%nat] [] 0) [mk_event 1 false] [] [].
Definition event_dropped : rpc := mk_rpc (mk_rounds {[1%nat := mk_round 0 FINISH; 2%nat := mk_round 0 PROCESS]} 3 [2%nat] [] 0) [] [] [1%nat].

Lemma one_service_init : rpc_init 1 = Some one_service.
Proof. by vm_compute. Qed.

Lemma one_request_reached : rtc rpc_step one_service one_request.
Proof. apply rtc_once. assert (Hl : listening (rd one_service) = [] ++ 1%nat :: []) by by vm_compute. exact (step_request 1 [] [] one_service Hl). Qed.

Lemma at_work_reached : rtc rpc_step one_service at_work.
Proof.
  eapply rtc_r; [apply one_request_reached|].
  apply (step_take 1 [] (rd at_work) one_request); [done|]. by vm_compute.
Qed.

Lemma event_dropped_reached : rtc rpc_step one_service event_dropped.
Proof.
  eapply rtc_r; [eapply rtc_r; [eapply rtc_r; [apply at_work_reached|]|]|].
  - exact (step_answer 1 [] [] at_work eq_refl).
  - exact (step_finished 1 false [] [] answer_sent eq_refl).
  - exact (step_drop 1 [] answer_failed eq_refl).
Qed.

Lemma server_rounds_witness :
  ∃ n q x l, server_select true (queue one_request) (rd one_request) = Some (n, q, x) ∧ 0 <= n <= 101 ∧ size (in_process 0 x) = 1%nat ∧
    places (mk_rpc x q (answered one_request) l) = [2%nat; 1%nat] ++ l.
Proof.
  destruct (server_rounds 1 _ _ one_service_init one_request_reached) as (n & q & x & l & H & Hn & _ & _ & _ & Hs).
  exists n, q, x, l. split; [exact H|]. split; [exact Hn|]. split; [exact (Hs 0%nat)|].
  vm_compute in H. injection H as <- <- <-. reflexivity.
Defined.

Lemma dropped_round_leaks_witness : steps (rd event_dropped) !! 1%nat = Some FINISH.
Proof.
  apply (dropped_round_leaks 1 _ _ _ 1 one_service_init event_dropped_reached); [left|apply rtc_refl].
Defined.

(** Coroutine 2 of the thread 1 runs and calls a service with a timeout of two seconds. *)
Definition calling : world := mk_world (hp (end_of father_son).1) {[1%nat := th (end_of father_son).1]}.
Definition calling_engine : engine_t := set_m_init_over true (set_m_pool {[7 := 1%nat]} engine_init).
Definition two_seconds : call_t (result_t := Z) := set_timeout 2 (new_sync_call 0 7).
Definition no_calls : calls_t (result_t := Z) := mk_calls ∅ 1.

Lemma sync_call_outcome_witness :
  match call_sync_begin 0 7 1000 0 two_seconds calling_engine no_calls calling with
  | Some (q, sw, x1, _) => sw = true ∧ m_deadline <$> calls x1 !! q = Some None ∧
     ∃ x2, call_sync_end q x1 = Some (0, 7, x2) ∧ client_select 7 calling_engine [mk_answer q true 5 9] x2 calling = None
  | None => False
  end.
Proof.
  destruct (call_sync_begin 0 7 1000 0 two_seconds calling_engine no_calls calling) as [[[[q sw] x1] w1]|] eqn:E; [|by vm_compute in E].
  destruct (sync_call_outcome 0 7 1000 0 two_seconds calling_engine no_calls calling q sw x1 w1 5 9 [] eq_refl E)
    as ((c1 & H1 & H2 & _) & _ & x2 & H3 & _ & H4).
  split; [|split].
  - assert (H : (λ r, r.1.1.2) <$> call_sync_begin 0 7 1000 0 two_seconds calling_engine no_calls calling = Some true) by (vm_compute; reflexivity).
    rewrite E in H. injection H as H. exact H.
  - rewrite H1. simpl. by rewrite H2.
  - exists x2. split; [exact H3|apply H4].
Defined.
