(* ===== verification/Dict.v ===== *)
(** * vendors/hiredis/dict.c: the hash table of the asynchronous contexts

    A chained hash table whose number of slots is a power of two.  The chain of
    a slot is the list of its entries, from the one [table[i]] points to; an
    entry has the address [hi_malloc] returned for it.  Reading outside of the
    table, a failed [assert] and an endless loop are [None]; memory is not
    exhausted. *)

From S2P Require Import Prelude.
Local Open Scope Z_scope.

Definition DICT_OK : Z := 0.
Definition DICT_ERR : Z := 1.
Definition DICT_HT_INITIAL_SIZE : Z := 4.
Definition LONG_MAX : Z := 2 ^ 63 - 1.

(** [unsigned long] has the width of [size_t]. *)
Abbreviation to_ulong := to_size_t.

(** [unsigned int dictGenHashFunction(const unsigned char *buf, int len)] *)
Definition hash_step (hash c : Z) : Z := to_uint (to_uint (to_uint (Z.shiftl hash 5) + hash) + c).
Definition dictGenHashFunction (buf : list Z) : Z := fold_left hash_step buf 5381.

(** [unsigned long _dictNextPower(unsigned long size)]; [i] runs through the
    powers of two from 4 to 2^63. *)
Fixpoint next_power_loop (fuel : nat) (i size : Z) : option Z :=
  match fuel with
  | O => None
  | S fuel' => if i >=? size then Some i else next_power_loop fuel' (to_ulong (i * 2)) size
  end.

Definition _dictNextPower (size : Z) : option Z :=
  if size >=? LONG_MAX then Some LONG_MAX else next_power_loop 62 DICT_HT_INITIAL_SIZE size.

Section dict.
Context {key val : Type} `{EqDecision key}.

Record dictEntry := mk_entry { e_addr : nat; e_key : key; e_val : val }.

(** [dictType]; a callback that may be missing is an option.  The destructors
    only have effects, which are listed. *)
Record dictType := mk_dictType {
  hashFunction : key → Z;
  keyDup : option (key → key);
  valDup : option (val → val);
  keyCompare : option (key → key → bool);
  keyDestructor : bool;
  valDestructor : bool
}.

(** What is handed to a destructor or freed. *)
Inductive released := free_key (k : key) | free_val (v : val) | free_entry (a : nat).

Record dict := mk_dict {
  table : list (list dictEntry);
  d_type : dictType;
  size : Z;
  sizemask : Z;
  used : Z
}.

(** ** The macros of dict.h *)

Definition dictFreeEntryVal (ty : dictType) (e : dictEntry) : list released :=
  if valDestructor ty then [free_val (e_val e)] else [].
Definition dictFreeEntryKey (ty : dictType) (e : dictEntry) : list released :=
  if keyDestructor ty then [free_key (e_key e)] else [].
Definition dictSetHashVal (ty : dictType) (v : val) : val :=
  match valDup ty with Some f => f v | None => v end.
Definition dictSetHashKey (ty : dictType) (k : key) : key :=
  match keyDup ty with Some f => f k | None => k end.
Definition dictCompareHashKeys (ty : dictType) (k1 k2 : key) : bool :=
  match keyCompare ty with Some f => f k1 k2 | None => bool_decide (k1 = k2) end.

(** [ht->table[i]] *)
Definition slot (t : list (list dictEntry)) (i : Z) : option (list dictEntry) :=
  if i <? 0 then None else t !! Z.to_nat i.
Definition set_slot (t : list (list dictEntry)) (i : Z) (c : list dictEntry) : list (list dictEntry) :=
  <[Z.to_nat i := c]> t.

(** ** The operations *)

(** [_dictReset], [_dictInit], [dictCreate] *)
Definition _dictReset (d : dict) : dict := mk_dict [] (d_type d) 0 0 0.
Definition dictCreate (ty : dictType) : dict := mk_dict [] ty 0 0 0.

(** The inner loop of [dictExpand]: the entries of a chain go to the front of
    their new slots. *)
Fixpoint move_chain (ty : dictType) (mask : Z) (he : list dictEntry) (n : list (list dictEntry)) (u : Z)
  : option (list (list dictEntry) * Z) :=
  match he with
  | [] => Some (n, u)
  | e :: nextHe =>
    let h := Z.land (hashFunction ty (e_key e)) mask in
    match slot n h with
    | None => None
    | Some c => move_chain ty mask nextHe (set_slot n h (e :: c)) (to_ulong (u - 1))
    end
  end.

(** The outer loop, [for (i = 0; i < ht->size && ht->used > 0; i++)]. *)
Fixpoint expand_loop (fuel : nat) (d : dict) (mask i : Z) (n : list (list dictEntry)) (u : Z)
  : option (list (list dictEntry) * Z) :=
  match fuel with
  | O => None
  | S fuel' =>
    if (i <? size d) && (0 <? u) then
      match slot (table d) i with
      | None => None
      | Some he =>
        match move_chain (d_type d) mask he n u with
        | None => None
        | Some (n', u') => expand_loop fuel' d mask (i + 1) n' u'
        end
      end
    else Some (n, u)
  end.

(** [int dictExpand(dict *ht, unsigned long size)] *)
Definition dictExpand (d : dict) (sz : Z) : option (Z * dict) :=
  match _dictNextPower sz with
  | None => None
  | Some realsize =>
    if used d >? sz then Some (DICT_ERR, d)
    else
      let mask := to_ulong (realsize - 1) in
      match expand_loop (S (Z.to_nat (size d))) d mask 0 (replicate (Z.to_nat realsize) []) (used d) with
      | None => None
      | Some (n, u) =>
        (* assert(ht->used == 0) *)
        if u =? 0 then Some (DICT_OK, mk_dict n (d_type d) realsize mask (used d)) else None
      end
  end.

(** [int _dictExpandIfNeeded(dict *ht)] *)
Definition _dictExpandIfNeeded (d : dict) : option (Z * dict) :=
  if size d =? 0 then dictExpand d DICT_HT_INITIAL_SIZE
  else if used d =? size d then dictExpand d (to_ulong (size d * 2))
  else Some (DICT_OK, d).

(** The search loop of a chain: the first entry with the key. *)
Fixpoint chain_find (ty : dictType) (k : key) (he : list dictEntry) : option dictEntry :=
  match he with
  | [] => None
  | e :: r => if dictCompareHashKeys ty k (e_key e) then Some e else chain_find ty k r
  end.

(** [int _dictKeyIndex(dict *ht, const void *key)] *)
Definition _dictKeyIndex (d : dict) (k : key) : option (Z * dict) :=
  match _dictExpandIfNeeded d with
  | None => None
  | Some (r, d1) =>
    if r =? DICT_ERR then Some (-1, d1)
    else
      let h := Z.land (hashFunction (d_type d1) k) (sizemask d1) in
      match slot (table d1) h with
      | None => None
      | Some he =>
        match chain_find (d_type d1) k he with
        | Some _ => Some (-1, d1)
        | None => Some (to_int h, d1)
        end
      end
  end.

(** [int dictAdd(dict *ht, void *key, void *val)]; [a] is the address of the
    new entry. *)
Definition dictAdd (a : nat) (d : dict) (k : key) (v : val) : option (Z * dict) :=
  match _dictKeyIndex d k with
  | None => None
  | Some (index, d1) =>
    if index =? -1 then Some (DICT_ERR, d1)
    else
      match slot (table d1) index with
      | None => None
      | Some c =>
        let entry := mk_entry a (dictSetHashKey (d_type d1) k) (dictSetHashVal (d_type d1) v) in
        Some (DICT_OK, mk_dict (set_slot (table d1) index (entry :: c)) (d_type d1) (size d1) (sizemask d1)
                         (to_ulong (used d1 + 1)))
      end
  end.

(** [dictEntry *dictFind(dict *ht, const void *key)] *)
Definition dictFind (d : dict) (k : key) : option (option dictEntry) :=
  if size d =? 0 then Some None
  else
    match slot (table d) (Z.land (hashFunction (d_type d) k) (sizemask d)) with
    | None => None
    | Some he => Some (chain_find (d_type d) k he)
    end.

(** Writing [entry->val] of the entry at an address. *)
Definition store_val (a : nat) (v : val) (t : list (list dictEntry)) : list (list dictEntry) :=
  (λ c : list dictEntry, (λ e, if (e_addr e =? a)%nat then mk_entry (e_addr e) (e_key e) v else e) <$> c) <$> t.

(** [int dictReplace(dict *ht, void *key, void *val)] *)
Definition dictReplace (a : nat) (d : dict) (k : key) (v : val) : option (Z * dict * list released) :=
  match dictAdd a d k v with
  | None => None
  | Some (r, d1) =>
    if r =? DICT_OK then Some (1, d1, [])
    else
      match dictFind d1 k with
      | Some (Some entry) =>
        Some (0, mk_dict (store_val (e_addr entry) (dictSetHashVal (d_type d1) v) (table d1)) (d_type d1) (size d1)
                   (sizemask d1) (used d1), dictFreeEntryVal (d_type d1) entry)
      | _ => None
      end
  end.

(** The loop of [dictDelete]: the entry found and the chain without it. *)
Fixpoint chain_delete (ty : dictType) (k : key) (he : list dictEntry) : option (dictEntry * list dictEntry) :=
  match he with
  | [] => None
  | e :: r =>
    if dictCompareHashKeys ty k (e_key e) then Some (e, r)
    else match chain_delete ty k r with Some (f, r') => Some (f, e :: r') | None => None end
  end.

(** The destruction of an entry. *)
Definition release_entry (ty : dictType) (e : dictEntry) : list released :=
  dictFreeEntryKey ty e ++ dictFreeEntryVal ty e ++ [free_entry (e_addr e)].

(** [int dictDelete(dict *ht, const void *key)] *)
Definition dictDelete (d : dict) (k : key) : option (Z * dict * list released) :=
  if size d =? 0 then Some (DICT_ERR, d, [])
  else
    let h := Z.land (hashFunction (d_type d) k) (sizemask d) in
    match slot (table d) h with
    | None => None
    | Some he =>
      match chain_delete (d_type d) k he with
      | Some (de, r) =>
        Some (DICT_OK, mk_dict (set_slot (table d) h r) (d_type d) (size d) (sizemask d) (to_ulong (used d - 1)),
              release_entry (d_type d) de)
      | None => Some (DICT_ERR, d, [])
      end
    end.

(** [int _dictClear(dict *ht)]: its loop. *)
Fixpoint clear_loop (fuel : nat) (d : dict) (i u : Z) : option (list released) :=
  match fuel with
  | O => None
  | S fuel' =>
    if (i <? size d) && (0 <? u) then
      match slot (table d) i with
      | None => None
      | Some he =>
        match clear_loop fuel' d (i + 1) (to_ulong (u - Z.of_nat (length he))) with
        | Some l => Some ((he ≫= release_entry (d_type d)) ++ l)
        | None => None
        end
      end
    else Some []
  end.

Definition _dictClear (d : dict) : option (Z * dict * list released) :=
  match clear_loop (S (Z.to_nat (size d))) d 0 (used d) with
  | Some l => Some (DICT_OK, _dictReset d, l)
  | None => None
  end.

(** [void dictRelease(dict *ht)] *)
Definition dictRelease (d : dict) : option (list released) :=
  match _dictClear d with Some (_, _, l) => Some l | None => None end.

(** ** Iterators *)

Record dictIterator := mk_iter { it_index : Z; it_entry : option nat; it_next : option nat }.

Definition dictGetIterator : dictIterator := mk_iter (-1) None None.

(** The [next] of the entry at [a] in a chain, and in the table; [None] when
    there is no such entry any more. *)
Fixpoint chain_next (a : nat) (he : list dictEntry) : option (option nat) :=
  match he with
  | [] => None
  | e :: r => if (e_addr e =? a)%nat then Some (e_addr <$> head r) else chain_next a r
  end.

Fixpoint entry_next (a : nat) (t : list (list dictEntry)) : option (option nat) :=
  match t with
  | [] => None
  | c :: r => match chain_next a c with Some x => Some x | None => entry_next a r end
  end.

(** [dictEntry *dictNext(dictIterator *iter)]: the loop. *)
Fixpoint next_loop (fuel : nat) (d : dict) (it : dictIterator) : option (option nat * dictIterator) :=
  match fuel with
  | O => None
  | S fuel' =>
    match it_entry it with
    | None =>
      let index := it_index it + 1 in
      if index >=? to_int (size d) then Some (None, mk_iter index None (it_next it))
      else
        match slot (table d) index with
        | None => None
        | Some [] => next_loop fuel' d (mk_iter index None (it_next it))
        | Some (e :: _) =>
          match entry_next (e_addr e) (table d) with
          | Some nx => Some (Some (e_addr e), mk_iter index (Some (e_addr e)) nx)
          | None => None
          end
        end
    | Some _ =>
      match it_next it with
      | None => next_loop fuel' d (mk_iter (it_index it) None None)
      | Some a =>
        match entry_next a (table d) with
        | Some nx => Some (Some a, mk_iter (it_index it) (Some a) nx)
        | None => None
        end
      end
    end
  end.

Definition dictNext (d : dict) (it : dictIterator) : option (option nat * dictIterator) :=
  next_loop (Z.to_nat (size d) + 2) d it.
End dict.
Arguments dictEntry : clear implicits.
Arguments dictType : clear implicits.
Arguments dict : clear implicits.
Arguments released : clear implicits.
