(* ===== verification/DictProps.v ===== *)
(** * The hash table implements a finite map

    The abstraction of a key is [canon k]: the callbacks of the table only look
    at it (for strings it is their content).  Under this law every operation
    keeps the table well formed and does to it what the corresponding operation
    does to a finite map; an iterator visits every entry once, also when the
    entries it returns are deleted on the way. *)

From S2P Require Import Prelude Dict.
Local Open Scope Z_scope.

(** ** Sizes *)

(** The sizes a table can have. *)
Definition table_size (z : Z) : Prop := ∃ n, 2 <= n <= 31 ∧ z = 2 ^ n.

Lemma table_size_range z : table_size z → 4 <= z <= 2 ^ 31.
Proof.
  intros (n & Hn & ->). split; [change 4 with (2 ^ 2)|]; apply Z.pow_le_mono_r; lia.
Qed.

Lemma table_size_double z : table_size z → z < 2 ^ 31 → table_size (z * 2).
Proof.
  intros (n & Hn & ->) Hlt. exists (n + 1). rewrite Z.pow_add_r by lia. split; [|lia].
  enough (n < 31) by lia. by apply (Z.pow_lt_mono_r_iff 2) in Hlt; [|lia|lia].
Qed.

(** The mask of a table keeps the low bits of a hash value. *)
Lemma mask_range z x : table_size z → 0 <= Z.land x (z - 1) < z.
Proof.
  intros (n & Hn & ->). rewrite Z.sub_1_r, <- Z.ones_equiv, Z.land_ones by lia. apply Z.mod_pos_bound. lia.
Qed.

Lemma next_power_loop_spec fuel n z k :
  2 <= n → z <= 2 ^ k → n <= k <= 63 → k - n < Z.of_nat fuel →
  ∃ m, n <= m <= k ∧ next_power_loop fuel (2 ^ n) z = Some (2 ^ m) ∧ z <= 2 ^ m ∧ (m = n ∨ 2 ^ (m - 1) < z).
Proof.
  revert n. induction fuel as [|fuel IH]; intros n Hn Hz Hk Hf; [lia|]. cbn [next_power_loop].
  rewrite Z.geb_leb. destruct (Z.leb_spec z (2 ^ n)) as [H|H].
  - exists n. split_and!; [lia|lia|done|done|by left].
  - assert (n < k) by (apply (Z.pow_lt_mono_r_iff 2); lia).
    assert (E : 2 ^ n * 2 = 2 ^ (n + 1)) by (rewrite Z.pow_add_r; lia).
    rewrite E, to_size_t_id by (split; [apply Z.pow_nonneg; lia|apply Z.pow_lt_mono_r; lia]).
    destruct (IH (n + 1)) as (m & Hm & Hs & Hzm & Hor); [lia|done|lia|lia|].
    exists m. split_and!; [lia|lia|done|done|]. right. destruct Hor as [->|Hor]; [|done].
    by replace (n + 1 - 1) with n by lia.
Qed.

(** [_dictNextPower] returns the smallest power of two that is at least 4 and
    not below the requested size. *)
Lemma dictNextPower_spec z : z < LONG_MAX →
  ∃ m, 2 <= m <= 63 ∧ _dictNextPower z = Some (2 ^ m) ∧ z <= 2 ^ m ∧ (m = 2 ∨ 2 ^ (m - 1) < z).
Proof.
  intros Hz. unfold _dictNextPower. rewrite Z.geb_leb. destruct (Z.leb_spec LONG_MAX z) as [|_]; [lia|].
  change DICT_HT_INITIAL_SIZE with (2 ^ 2).
  destruct (next_power_loop_spec 62 2 z 63) as (m & Hm & ?); [lia|unfold LONG_MAX in *; lia|lia|lia|]. by exists m.
Qed.

Lemma dictNextPower_table z : table_size z → _dictNextPower z = Some z.
Proof.
  intros (n & Hn & ->). destruct (dictNextPower_spec (2 ^ n)) as (m & Hm & -> & Hle & Hor).
  { unfold LONG_MAX. pose proof (table_size_range (2 ^ n) ltac:(by exists n)). lia. }
  f_equal. apply (Z.pow_le_mono_r_iff 2) in Hle; [|lia|lia].
  destruct Hor as [->|Hor]; [f_equal; lia|]. apply (Z.pow_lt_mono_r_iff 2) in Hor; [f_equal; lia|lia|lia].
Qed.

(** ** Tables *)

Section props.
Context {key val K : Type} `{EqDecision key} `{Countable K}.
Abbreviation entry := (dictEntry key val).
Abbreviation tab := (list (list entry)).
Implicit Types (d : dict key val) (t : tab) (k : key) (v : val) (e : entry).

Lemma slot_split t i c : slot t i = Some c →
  ∃ l1 l2, t = l1 ++ c :: l2 ∧ 0 <= i ∧ Z.of_nat (length l1) = i ∧ ∀ c', set_slot t i c' = l1 ++ c' :: l2.
Proof.
  unfold slot, set_slot. destruct (Z.ltb_spec i 0) as [|Hi]; [done|]. intros Ht.
  assert (Hlen := lookup_lt_Some _ _ _ Ht).
  exists (take (Z.to_nat i) t), (drop (S (Z.to_nat i)) t). split_and!; [|done| |].
  - by rewrite take_drop_middle.
  - rewrite length_take. lia.
  - intros c'. by apply insert_take_drop.
Qed.

Lemma slot_is_Some t i : 0 <= i < Z.of_nat (length t) → is_Some (slot t i).
Proof.
  intros Hi. unfold slot. destruct (Z.ltb_spec i 0); [lia|]. apply lookup_lt_is_Some_2. lia.
Qed.

Lemma slot_In t i c e : slot t i = Some c → e ∈ c → e ∈ concat t.
Proof.
  intros (l1 & l2 & -> & _)%slot_split He. rewrite concat_app. apply elem_of_app. right. simpl. apply elem_of_app. by left.
Qed.

Lemma elem_of_concat t e : e ∈ concat t ↔ ∃ i c, slot t i = Some c ∧ e ∈ c.
Proof.
  split; [|by intros (i & c & Hs & He); eapply slot_In].
  intros He. apply list_elem_of_In, in_concat in He as (c & Hc & He).
  apply list_elem_of_In in Hc, He. apply list_elem_of_lookup_1 in Hc as [i Hi].
  exists (Z.of_nat i), c. split; [|done]. unfold slot. destruct (Z.ltb_spec (Z.of_nat i) 0); [lia|]. by rewrite Nat2Z.id.
Qed.

(** Every entry is in the slot of its hash value. *)
Definition hashed (ty : dictType key val) (mask : Z) (t : tab) : Prop :=
  ∀ i c e, slot t i = Some c → e ∈ c → Z.land (hashFunction ty (e_key e)) mask = i.

Lemma hashed_set ty mask t i c c' :
  hashed ty mask t → slot t i = Some c →
  (∀ e, e ∈ c' → e ∈ c ∨ Z.land (hashFunction ty (e_key e)) mask = i) → hashed ty mask (set_slot t i c').
Proof.
  intros Ht Hs Hc j c0 e Hj He. unfold slot, set_slot in *. destruct (Z.ltb_spec j 0) as [|Hj0]; [done|].
  destruct (Z.ltb_spec i 0) as [|Hi0]; [done|].
  apply list_lookup_insert_Some in Hj as [(Hij & <- & _)|(_ & Hj)].
  - assert (i = j) as -> by lia. destruct (Hc e He) as [He'|]; [|done]. apply (Ht j c e); [|done].
    unfold slot. by destruct (Z.ltb_spec j 0); [lia|].
  - apply (Ht j c0 e); [|done]. unfold slot. by destruct (Z.ltb_spec j 0); [lia|].
Qed.

Lemma hashed_replicate ty mask n : hashed ty mask (replicate n []).
Proof.
  intros i c e Hs He. apply slot_split in Hs as (l1 & l2 & Ht & _). 
  assert (Hin : c ∈ replicate n ([] : list entry)) by (rewrite Ht; apply elem_of_app; right; left).
  apply elem_of_replicate in Hin as [-> _]. by apply elem_of_nil in He.
Qed.

Lemma concat_replicate_nil n : concat (replicate n ([] : list entry)) = [].
Proof. by induction n. Qed.

(** Moving the entries of a chain, or of a whole table, into a new table. *)
Lemma move_chain_spec ty z he n u :
  table_size z → Z.of_nat (length n) = z → hashed ty (z - 1) n → Z.of_nat (length he) <= u < 2 ^ 64 →
  ∃ n', move_chain ty (z - 1) he n u = Some (n', u - Z.of_nat (length he)) ∧
    Z.of_nat (length n') = z ∧ hashed ty (z - 1) n' ∧ concat n' ≡ₚ he ++ concat n.
Proof.
  intros Hz. revert n u. induction he as [|e he IH]; intros n u Hl Hh Hu; cbn [move_chain].
  - exists n. split_and!; [|done|done|done]. by rewrite Z.sub_0_r.
  - set (h := Z.land _ _). pose proof (mask_range z (hashFunction ty (e_key e)) Hz) as Hr. fold h in Hr.
    destruct (slot_is_Some n h) as [c Hc]; [lia|]. rewrite Hc. simpl in Hu.
    destruct (slot_split _ _ _ Hc) as (l1 & l2 & Hn & _ & _ & Hset). rewrite to_size_t_id by lia.
    destruct (IH (set_slot n h (e :: c)) (u - 1)) as (n' & Hm & Hl' & Hh' & Hp).
    + unfold set_slot. by rewrite length_insert.
    + eapply hashed_set; [done|exact Hc|]. intros e' [->|He']%elem_of_cons; [by right|by left].
    + lia.
    + exists n'. split_and!; [|done|done|].
      * rewrite Hm. do 2 f_equal. simpl. lia.
      * rewrite Hp, Hset, Hn, !concat_app. simpl. solve_Permutation.
Qed.

Lemma expand_loop_spec d z fuel i n u :
  table_size z → Z.of_nat (length n) = z → hashed (d_type d) (z - 1) n →
  size d = Z.of_nat (length (table d)) → 0 <= i <= size d → size d - i < Z.of_nat fuel →
  u = Z.of_nat (length (concat (drop (Z.to_nat i) (table d)))) → u < 2 ^ 64 →
  ∃ n', expand_loop fuel d (z - 1) i n u = Some (n', 0) ∧ Z.of_nat (length n') = z ∧ hashed (d_type d) (z - 1) n' ∧
    concat n' ≡ₚ concat (drop (Z.to_nat i) (table d)) ++ concat n.
Proof.
  intros Hz. revert i n u. induction fuel as [|fuel IH]; intros i n u Hl Hh Hsz Hi Hf Hu Hub; [lia|].
  cbn [expand_loop]. destruct (Z.ltb_spec i (size d)) as [Hlt|Hge]; simpl.
  - destruct (slot_is_Some (table d) i) as [c Hc]; [lia|].
    assert (Hdrop : drop (Z.to_nat i) (table d) = c :: drop (Z.to_nat (i + 1)) (table d)).
    { unfold slot in Hc. destruct (Z.ltb_spec i 0); [lia|]. rewrite (drop_S _ _ _ Hc). do 2 f_equal. lia. }
    rewrite Hdrop in Hu |- *. cbn [concat] in Hu |- *. rewrite length_app in Hu.
    destruct (Z.ltb_spec 0 u) as [Hpos|Hzero].
    + rewrite Hc. destruct (move_chain_spec (d_type d) z c n u) as (n1 & -> & Hl1 & Hh1 & Hp1); [done..|lia|].
      destruct (IH (i + 1) n1 (u - Z.of_nat (length c))) as (n' & Hm & Hl' & Hh' & Hp'); [done|done|done|lia..|].
      exists n'. split_and!; [done|done|done|]. rewrite Hp', Hp1. solve_Permutation.
    + exists n. assert (Hc0 : c = []) by (apply length_zero_iff_nil; lia).
      assert (Hr0 : concat (drop (Z.to_nat (i + 1)) (table d)) = []) by (apply length_zero_iff_nil; lia).
      split_and!; [do 2 f_equal; lia|done|done|]. by rewrite Hc0, Hr0.
  - exists n. assert (Hd : drop (Z.to_nat i) (table d) = []) by (apply drop_ge; lia).
    rewrite Hd in Hu |- *. simpl in Hu |- *. split_and!; [by rewrite Hu|done|done|done].
Qed.

Lemma set_slot_concat t i c : slot t i = Some c →
  ∃ rest, concat t ≡ₚ c ++ rest ∧ ∀ c', concat (set_slot t i c') ≡ₚ c' ++ rest.
Proof.
  intros (l1 & l2 & -> & _ & _ & Hset)%slot_split. exists (concat l1 ++ concat l2). split.
  - rewrite concat_app. simpl. solve_Permutation.
  - intros c'. rewrite Hset, concat_app. simpl. solve_Permutation.
Qed.

(** ** The map of a table *)

(** The callbacks see a key through its abstraction [canon]. *)
Class dict_laws (ty : dictType key val) (canon : key → K) : Prop := {
  law_hash k1 k2 : canon k1 = canon k2 → hashFunction ty k1 = hashFunction ty k2;
  law_compare k1 k2 : dictCompareHashKeys ty k1 k2 = true ↔ canon k1 = canon k2;
  law_dup k : canon (dictSetHashKey ty k) = canon k
}.

Context (canon : key → K).

Definition entries (d : dict key val) : list entry := concat (table d).
Definition keys (l : list entry) : list K := (λ e, canon (e_key e)) <$> l.
Definition emap (l : list entry) : gmap K val := list_to_map ((λ e, (canon (e_key e), e_val e)) <$> l).
Definition dict_map (d : dict key val) : gmap K val := emap (entries d).

Record dict_ok (d : dict key val) : Prop := {
  ok_size : size d = Z.of_nat (length (table d));
  ok_pow : size d = 0 ∨ table_size (size d) ∧ sizemask d = size d - 1;
  ok_used : used d = Z.of_nat (length (entries d));
  ok_load : used d <= size d;
  ok_hashed : hashed (d_type d) (sizemask d) (table d);
  ok_keys : NoDup (keys (entries d));
  ok_addrs : NoDup (e_addr <$> entries d)
}.

Lemma keys_fst l : ((λ e, (canon (e_key e), e_val e)) <$> l).*1 = keys l.
Proof. unfold keys. rewrite <- list_fmap_compose. done. Qed.

Lemma emap_perm l1 l2 : l1 ≡ₚ l2 → NoDup (keys l1) → emap l1 = emap l2.
Proof. intros Hp Hn. apply list_to_map_proper; [by rewrite keys_fst|by rewrite Hp]. Qed.

Lemma emap_lookup l e : NoDup (keys l) → e ∈ l → emap l !! canon (e_key e) = Some (e_val e).
Proof.
  intros Hn He. apply elem_of_list_to_map_1; [by rewrite keys_fst|]. apply list_elem_of_fmap. by exists e.
Qed.

Lemma emap_None l q : emap l !! q = None ↔ ∀ e, e ∈ l → canon (e_key e) ≠ q.
Proof.
  unfold emap. rewrite <- not_elem_of_list_to_map, keys_fst. unfold keys. rewrite list_elem_of_fmap. split.
  - intros Hn e He Heq. apply Hn. by exists e.
  - intros Hn (e & -> & He). by apply (Hn e).
Qed.

Lemma emap_cons e l : emap (e :: l) = <[canon (e_key e) := e_val e]> (emap l).
Proof. done. Qed.

Lemma keys_perm l1 l2 : l1 ≡ₚ l2 → keys l1 ≡ₚ keys l2.
Proof. apply fmap_Permutation. Qed.

(** An empty table. *)
Lemma create_ok ty : dict_ok (dictCreate ty) ∧ dict_map (dictCreate ty) = ∅.
Proof.
  split; [|done]. split; simpl; [done|by left|done|done| |apply NoDup_nil_2|apply NoDup_nil_2].
  intros i c e Hs. unfold slot in Hs. by case_if_in Hs.
Qed.

(** Growing a table keeps its entries. *)
Lemma expand_ok d z : dict_ok d → table_size z → used d <= z →
  ∃ d', dictExpand d z = Some (DICT_OK, d') ∧ dict_ok d' ∧ size d' = z ∧ entries d' ≡ₚ entries d ∧
    d_type d' = d_type d ∧ used d' = used d.
Proof.
  intros [Hs Hp Hu Hld Hh Hk Ha] Hz Hle. pose proof (table_size_range _ Hz) as Hr.
  unfold dictExpand. rewrite (dictNextPower_table _ Hz). rewrite Z.gtb_ltb. destruct (Z.ltb_spec z (used d)); [lia|].
  rewrite (to_size_t_id (z - 1)) by lia.
  destruct (expand_loop_spec d z (S (Z.to_nat (size d))) 0 (replicate (Z.to_nat z) []) (used d)) as (n & -> & Hl & Hn & Hperm);
    [done|rewrite length_replicate; lia|apply hashed_replicate|done|lia|lia|done|lia|].
  simpl. rewrite concat_replicate_nil, app_nil_r in Hperm. change (concat n ≡ₚ entries d) in Hperm.
  eexists. split; [done|]. split_and!; [|done|exact Hperm|done|done].
  split; simpl; [done|by right| |done|done| |]; unfold entries at 1; simpl.
  - by rewrite Hperm.
  - by rewrite (keys_perm _ _ Hperm).
  - by rewrite Hperm.
Qed.

(** [_dictExpandIfNeeded] makes room, so that no table is full after it. *)
Lemma expand_if_needed_ok d : dict_ok d → used d < 2 ^ 31 →
  ∃ d', _dictExpandIfNeeded d = Some (DICT_OK, d') ∧ dict_ok d' ∧ table_size (size d') ∧ entries d' ≡ₚ entries d ∧
    d_type d' = d_type d ∧ used d' = used d ∧ used d' < size d'.
Proof.
  intros Hok Hu. unfold _dictExpandIfNeeded. pose proof (ok_used _ Hok) as Hused.
  destruct (Z.eqb_spec (size d) 0) as [H0|H0].
  - assert (Ht : table d = []) by (apply length_zero_iff_nil; pose proof (ok_size _ Hok); lia).
    unfold entries in Hused. rewrite Ht in Hused. simpl in Hused.
    destruct (expand_ok d DICT_HT_INITIAL_SIZE Hok) as (d' & -> & Hok' & Hs & ?); [by exists 2|unfold DICT_HT_INITIAL_SIZE; lia|].
    destruct_and!. exists d'. split_and!; [done|done|rewrite Hs; by exists 2|done|done|done|rewrite Hs; unfold DICT_HT_INITIAL_SIZE; lia].
  - destruct (ok_pow _ Hok) as [|[Hp _]]; [done|]. destruct (Z.eqb_spec (used d) (size d)) as [He|He].
    + pose proof (table_size_double _ Hp ltac:(lia)) as Hp2. pose proof (table_size_range _ Hp2).
      rewrite to_size_t_id by lia.
      destruct (expand_ok d (size d * 2) Hok Hp2) as (d' & -> & Hok' & Hs & ?); [lia|].
      destruct_and!. exists d'. split_and!; [done|done|by rewrite Hs|done|done|done|lia].
    + pose proof (ok_load _ Hok). exists d. split_and!; [done..|lia].
Qed.

(** ** Searching *)

Section laws.
Context (ty : dictType key val) `{!dict_laws ty canon}.

Lemma chain_find_spec k he :
  match chain_find ty k he with
  | Some e => e ∈ he ∧ canon (e_key e) = canon k
  | None => ∀ e, e ∈ he → canon (e_key e) ≠ canon k
  end.
Proof.
  induction he as [|e he IH]; simpl; [by intros e He%elem_of_nil|].
  destruct (dictCompareHashKeys ty k (e_key e)) eqn:E.
  - split; [left|]. symmetry. by apply law_compare.
  - destruct (chain_find ty k he) as [f|]; [split; [right|]; tauto|].
    intros f [->|Hf]%elem_of_cons; [|by apply IH]. intros Heq. apply (not_true_iff_false _) in E. apply E, law_compare. done.
Qed.

Lemma chain_delete_spec k he :
  match chain_delete ty k he with
  | Some (e, r) => chain_find ty k he = Some e ∧ he ≡ₚ e :: r
  | None => chain_find ty k he = None
  end.
Proof.
  induction he as [|e he IH]; simpl; [done|]. destruct (dictCompareHashKeys ty k (e_key e)); [done|].
  destruct (chain_delete ty k he) as [[f r]|]; [|done]. destruct IH as [-> IH]. split; [done|]. rewrite IH. solve_Permutation.
Qed.

(** The slot of a key holds all the entries that have this key. *)
Lemma slot_of_key d k : dict_ok d → d_type d = ty → table_size (size d) →
  ∃ c, slot (table d) (Z.land (hashFunction ty k) (sizemask d)) = Some c ∧
    0 <= Z.land (hashFunction ty k) (sizemask d) < 2 ^ 31 ∧
    ∀ e, e ∈ entries d → canon (e_key e) = canon k → e ∈ c.
Proof.
  intros Hok Hty Hz. pose proof (table_size_range _ Hz). destruct (ok_pow _ Hok) as [|[_ Hm]]; [lia|].
  pose proof (mask_range (size d) (hashFunction ty k) Hz) as Hr. rewrite Hm.
  destruct (slot_is_Some (table d) (Z.land (hashFunction ty k) (size d - 1))) as [c Hc]; [rewrite <- (ok_size _ Hok); lia|].
  exists c. split_and!; [done|lia|lia|]. intros e He Hk. apply elem_of_concat in He as (i & c' & Hi & He).
  pose proof (ok_hashed _ Hok i c' e Hi He) as Hh. rewrite Hty, (law_hash _ _ Hk), Hm in Hh. subst i. congruence.
Qed.

(** [dictFind] returns the entry of the key, if there is one. *)
Lemma find_spec d k : dict_ok d → d_type d = ty →
  ∃ r, dictFind d k = Some r ∧ e_val <$> r = dict_map d !! canon k ∧
    ∀ e, r = Some e → e ∈ entries d ∧ canon (e_key e) = canon k.
Proof.
  intros Hok Hty. unfold dictFind. destruct (Z.eqb_spec (size d) 0) as [H0|H0].
  - exists None. split_and!; [done| |done]. symmetry. apply emap_None. unfold entries.
    assert (Ht : table d = []) by (apply length_zero_iff_nil; pose proof (ok_size _ Hok); lia).
    rewrite Ht. by intros e He%elem_of_nil.
  - destruct (ok_pow _ Hok) as [|[Hz _]]; [done|]. destruct (slot_of_key d k Hok Hty Hz) as (c & Hc & _ & Hin).
    rewrite Hty, Hc. eexists. split; [done|]. pose proof (chain_find_spec k c) as Hf.
    destruct (chain_find ty k c) as [e|]; simpl.
    + destruct Hf as [He Hk]. pose proof (slot_In _ _ _ _ Hc He) as He'. split.
      * symmetry. rewrite <- Hk. apply emap_lookup; [apply Hok|done].
      * intros e' [= <-]. done.
    + split; [|done]. symmetry. apply emap_None. intros e He Hk. by apply (Hf e (Hin e He Hk)).
Qed.

(** ** The operations as operations on maps *)

Lemma set_entries d i c c' l :
  dict_ok d → d_type d = ty → slot (table d) i = Some c →
  (∀ e, e ∈ c' → e ∈ c ∨ Z.land (hashFunction ty (e_key e)) (sizemask d) = i) →
  concat (set_slot (table d) i c') ≡ₚ l → Z.of_nat (length l) <= size d → NoDup (keys l) → NoDup (e_addr <$> l) →
  dict_ok (mk_dict (set_slot (table d) i c') ty (size d) (sizemask d) (Z.of_nat (length l))).
Proof.
  intros [Hs Hp Hu Hld Hh Hk Ha] <- Hc Hin Hperm Hll Hnk Hna. split; unfold entries; simpl.
  - unfold set_slot. by rewrite length_insert.
  - done.
  - by rewrite Hperm.
  - done.
  - by eapply hashed_set.
  - by rewrite (keys_perm _ _ Hperm).
  - by rewrite Hperm.
Qed.

Lemma add_ok a d k v : dict_ok d → d_type d = ty → used d < 2 ^ 31 → a ∉ e_addr <$> entries d →
  ∃ r d', dictAdd a d k v = Some (r, d') ∧ dict_ok d' ∧ d_type d' = ty ∧
    match dict_map d !! canon k with
    | Some _ => r = DICT_ERR ∧ entries d' ≡ₚ entries d
    | None => r = DICT_OK ∧ entries d' ≡ₚ mk_entry a (dictSetHashKey ty k) (dictSetHashVal ty v) :: entries d
    end.
Proof.
  intros Hok Hty Hu Ha. unfold dictAdd, _dictKeyIndex.
  destruct (expand_if_needed_ok d Hok Hu) as (d1 & -> & Hok1 & Hz & Hp & Ht1 & Hu1 & Hlt). simpl.
  destruct (slot_of_key d1 k Hok1 (eq_trans Ht1 Hty) Hz) as (c & Hc & Hr & Hin). rewrite Ht1, Hty, Hc.
  pose proof (chain_find_spec k c) as Hf. destruct (chain_find ty k c) as [e|].
  - simpl. destruct Hf as [He Hk]. pose proof (slot_In _ _ _ _ Hc He) as He'. change (concat (table d1)) with (entries d1) in He'.
    exists DICT_ERR, d1. split_and!; [done|done|congruence|]. rewrite Hp in He'.
    unfold dict_map. rewrite <- Hk, (emap_lookup _ e); [done|apply Hok|done].
  - rewrite to_int_id by (unfold in_int, INT_MIN, INT_MAX; lia). case_if; bool_to_prop; [lia|]. rewrite Hc.
    assert (Hn : ∀ e, e ∈ entries d → canon (e_key e) ≠ canon k).
    { intros e He Hk. apply (Hf e); [|done]. apply Hin; [by rewrite Hp|done]. }
    set (e := mk_entry a (dictSetHashKey ty k) (dictSetHashVal ty v)).
    destruct (set_slot_concat _ _ _ Hc) as (rest & Hc1 & Hset). change (concat (table d1)) with (entries d1) in Hc1.
    pose proof (table_size_range _ Hz).
    assert (Hpe : concat (set_slot (table d1) (Z.land (hashFunction ty k) (sizemask d1)) (e :: c)) ≡ₚ e :: entries d1)
      by (by rewrite Hset, Hc1).
    rewrite Ht1, Hty. exists DICT_OK. eexists. split; [done|]. split; [|split; [done|]].
    + pose proof (ok_used _ Hok1) as Hused. rewrite Hused, to_size_t_id by lia.
      replace (Z.of_nat (length (entries d1)) + 1) with (Z.of_nat (length (e :: entries d1))) by (simpl; lia).
      apply (set_entries d1 _ c); [done|congruence|done| |done|simpl; lia| |].
      * intros e' [->|He']%elem_of_cons; [right|by left]. simpl. f_equal. apply law_hash, law_dup.
      * simpl. apply NoDup_cons. split; [|by apply Hok1]. rewrite law_dup. unfold keys. intros (e' & He' & Hin')%list_elem_of_fmap.
        apply (Hn e'); [by rewrite <- Hp|done].
      * simpl. apply NoDup_cons. split; [by rewrite Hp|apply Hok1].
    + unfold dict_map. rewrite (proj2 (emap_None _ _) Hn). split; [done|]. etrans; [exact Hpe|]. by rewrite Hp.
Qed.

Lemma delete_ok d k : dict_ok d → d_type d = ty → used d < 2 ^ 64 →
  ∃ r d' l, dictDelete d k = Some (r, d', l) ∧ dict_ok d' ∧ d_type d' = ty ∧ size d' = size d ∧
    match dict_map d !! canon k with
    | None => r = DICT_ERR ∧ d' = d ∧ l = []
    | Some v => r = DICT_OK ∧ ∃ e, entries d ≡ₚ e :: entries d' ∧ canon (e_key e) = canon k ∧ e_val e = v ∧
        l = release_entry ty e
    end.
Proof.
  intros Hok Hty Hu. destruct (find_spec d k Hok Hty) as (r & Hf & Hv & Hr). unfold dictFind, dictDelete in *.
  rewrite <- Hv. destruct (Z.eqb_spec (size d) 0) as [H0|H0].
  - injection Hf as <-. simpl. do 3 eexists. by split_and!.
  - destruct (ok_pow _ Hok) as [|[Hz _]]; [done|]. destruct (slot_of_key d k Hok Hty Hz) as (c & Hc & _ & _).
    rewrite Hty, Hc in *. injection Hf as <-. pose proof (chain_delete_spec k c) as Hd.
    destruct (chain_delete ty k c) as [[e c']|].
    + destruct Hd as [Hd Hp]. rewrite Hd in Hr |- *. destruct (Hr e eq_refl) as [He Hk]. simpl.
      destruct (set_slot_concat _ _ _ Hc) as (rest & Hc1 & Hset). specialize (Hset c').
      set (h := Z.land _ _) in *. assert (Hpe : entries d ≡ₚ e :: concat (set_slot (table d) h c'))
        by (unfold entries; rewrite Hset, Hc1, Hp; done).
      pose proof (ok_used _ Hok) as Hus. pose proof (Permutation_length Hpe) as Hl. simpl in Hl.
      rewrite to_size_t_id by lia. do 3 eexists. split; [done|]. split; [|split_and!; [done|done|done|]].
      * replace (used d - 1) with (Z.of_nat (length (concat (set_slot (table d) h c')))) by lia.
        pose proof (ok_keys _ Hok) as Hnk. rewrite (keys_perm _ _ Hpe) in Hnk. apply NoDup_cons in Hnk as [_ Hnk].
        pose proof (ok_addrs _ Hok) as Hna. rewrite Hpe in Hna. apply NoDup_cons in Hna as [_ Hna].
        apply (set_entries d h c); [done|done|done| |done|pose proof (ok_load _ Hok); lia|done|done].
        intros e' He'. left. rewrite Hp. by right.
      * exists e. by split_and!.
    + rewrite Hd. simpl. do 3 eexists. by split_and!.
Qed.

Definition with_val (a : nat) (v : val) (e : entry) : entry :=
  if (e_addr e =? a)%nat then mk_entry (e_addr e) (e_key e) v else e.

Lemma store_val_concat a v t : concat (store_val a v t) = with_val a v <$> concat t.
Proof.
  induction t as [|c t IH]; [done|].
  change (store_val a v (c :: t)) with ((with_val a v <$> c) :: store_val a v t). cbn [concat]. by rewrite IH, fmap_app.
Qed.

Lemma with_val_keys a v (l : list entry) : keys (with_val a v <$> l) = keys l.
Proof.
  unfold keys. rewrite <- list_fmap_compose. apply list_fmap_ext. intros i e _. unfold with_val. simpl. by case_if.
Qed.

Lemma with_val_addrs a v (l : list entry) : e_addr <$> (with_val a v <$> l) = e_addr <$> l.
Proof. rewrite <- list_fmap_compose. apply list_fmap_ext. intros i e _. unfold with_val. simpl. by case_if. Qed.

Lemma with_val_other a v (l : list entry) : a ∉ e_addr <$> l → with_val a v <$> l = l.
Proof.
  induction l as [|e l IH]; [done|]. rewrite !fmap_cons, not_elem_of_cons. intros [Hne Hin]. rewrite (IH Hin).
  unfold with_val. destruct (Nat.eqb_spec (e_addr e) a) as [E|E]; [congruence|done].
Qed.

Lemma store_val_slot a v t i : slot (store_val a v t) i = (λ c : list entry, with_val a v <$> c) <$> slot t i.
Proof. unfold slot, store_val. case_if; [done|]. apply list_lookup_fmap. Qed.

(** Overwriting the value of an entry. *)
Lemma store_val_ok a v e l d : dict_ok d → d_type d = ty → entries d ≡ₚ e :: l → a = e_addr e →
  dict_ok (mk_dict (store_val a v (table d)) ty (size d) (sizemask d) (used d)) ∧
  concat (store_val a v (table d)) ≡ₚ mk_entry a (e_key e) v :: l.
Proof.
  intros [Hs Hp Hu Hld Hh Hk Ha] <- Hpe ->. split.
  - split; unfold entries; simpl; rewrite ?store_val_concat.
    + rewrite Hs. unfold store_val. by rewrite length_fmap.
    + done.
    + by rewrite length_fmap.
    + done.
    + intros i c e' Hc He'. rewrite store_val_slot in Hc. apply fmap_Some in Hc as (c0 & Hc & ->).
      apply list_elem_of_fmap in He' as (e0 & -> & He0). rewrite <- (Hh i c0 e0 Hc He0). unfold with_val. by case_if.
    + by rewrite with_val_keys.
    + by rewrite with_val_addrs.
  - rewrite store_val_concat. change (concat (table d)) with (entries d). rewrite Hpe. rewrite fmap_cons.
    rewrite with_val_other; [unfold with_val; by rewrite Nat.eqb_refl|].
    rewrite Hpe in Ha. by apply NoDup_cons in Ha as [Ha _].
Qed.

Lemma replace_ok a d k v : dict_ok d → d_type d = ty → used d < 2 ^ 31 → a ∉ e_addr <$> entries d →
  ∃ r d' l, dictReplace a d k v = Some (r, d', l) ∧ dict_ok d' ∧ d_type d' = ty ∧
    dict_map d' = <[canon k := dictSetHashVal ty v]> (dict_map d) ∧
    (e_addr <$> entries d') ⊆ a :: (e_addr <$> entries d) ∧
    match dict_map d !! canon k with
    | None => r = 1 ∧ l = []
    | Some v0 => r = 0 ∧ l = if valDestructor ty then [free_val v0] else []
    end.
Proof.
  intros Hok Hty Hu Ha. unfold dictReplace. destruct (add_ok a d k v Hok Hty Hu Ha) as (r & d1 & -> & Hok1 & Ht1 & H1).
  destruct (dict_map d !! canon k) as [v0|] eqn:Hv0; destruct H1 as [-> Hp]; simpl.
  - assert (Hm : dict_map d1 = dict_map d) by (apply emap_perm; [done|apply Hok1]).
    destruct (find_spec d1 k Hok1 Ht1) as (r & -> & Hv & Hr). rewrite Hm, Hv0 in Hv.
    destruct r as [e|]; [|done]. injection Hv as Hv. destruct (Hr e eq_refl) as [He Hk].
    apply list_elem_of_split in He as (l1 & l2 & He).
    assert (Hpe : entries d1 ≡ₚ e :: (l1 ++ l2)) by (rewrite He; solve_Permutation).
    rewrite Ht1. destruct (store_val_ok (e_addr e) (dictSetHashVal ty v) e (l1 ++ l2) d1 Hok1 Ht1 Hpe eq_refl) as [Hok2 Hp2].
    do 3 eexists. split; [done|]. split_and!; [exact Hok2|done| | |done|].
    + unfold dict_map, entries at 1. simpl. rewrite (emap_perm _ _ Hp2 (ok_keys _ Hok2)), emap_cons. simpl.
      rewrite (emap_perm (entries d) (e :: l1 ++ l2)), emap_cons, Hk, insert_insert_eq; [done| |apply Hok]. by rewrite <- Hp, Hpe.
    + intros x Hx. right. rewrite <- Hp, Hpe. unfold entries in Hx. simpl in Hx. rewrite Hp2 in Hx. exact Hx.
    + unfold dictFreeEntryVal. by rewrite Hv.
  - do 3 eexists. split; [done|]. split_and!; [done|done| | |done|done].
    + unfold dict_map. rewrite (emap_perm _ _ Hp (ok_keys _ Hok1)), emap_cons. simpl. by rewrite law_dup.
    + rewrite Hp. done.
Qed.

(** ** Sequences of operations *)

Inductive dict_op := op_add (k : key) (v : val) | op_replace (k : key) (v : val) | op_delete (k : key) | op_find (k : key).
Inductive dict_obs := returned (r : Z) | found (v : option val).

Definition dict_step (a : nat) (o : dict_op) (d : dict key val) : option (dict_obs * dict key val) :=
  match o with
  | op_add k v => match dictAdd a d k v with Some (r, d') => Some (returned r, d') | None => None end
  | op_replace k v => match dictReplace a d k v with Some (r, d', _) => Some (returned r, d') | None => None end
  | op_delete k => match dictDelete d k with Some (r, d', _) => Some (returned r, d') | None => None end
  | op_find k => match dictFind d k with Some r => Some (found (e_val <$> r), d) | None => None end
  end.

(** The entries get the addresses [a], [a + 1], ... *)
Fixpoint dict_run (a : nat) (os : list dict_op) (d : dict key val) : option (list dict_obs * dict key val) :=
  match os with
  | [] => Some ([], d)
  | o :: os' =>
    match dict_step a o d with
    | None => None
    | Some (x, d1) => match dict_run (S a) os' d1 with Some (xs, d2) => Some (x :: xs, d2) | None => None end
    end
  end.

(** The same on a finite map. *)
Definition map_step (o : dict_op) (m : gmap K val) : dict_obs * gmap K val :=
  match o with
  | op_add k v =>
    match m !! canon k with
    | Some _ => (returned DICT_ERR, m)
    | None => (returned DICT_OK, <[canon k := dictSetHashVal ty v]> m)
    end
  | op_replace k v =>
    (returned match m !! canon k with Some _ => 0 | None => 1 end, <[canon k := dictSetHashVal ty v]> m)
  | op_delete k =>
    (returned match m !! canon k with Some _ => DICT_OK | None => DICT_ERR end, delete (canon k) m)
  | op_find k => (found (m !! canon k), m)
  end.

Fixpoint map_run (os : list dict_op) (m : gmap K val) : list dict_obs * gmap K val :=
  match os with
  | [] => ([], m)
  | o :: os' => let '(x, m1) := map_step o m in let '(xs, m2) := map_run os' m1 in (x :: xs, m2)
  end.

(** The addresses in use are below [a]. *)
Definition addrs_below (a : nat) (d : dict key val) : Prop := ∀ x, x ∈ e_addr <$> entries d → (x < a)%nat.

Lemma used_bound a d : dict_ok d → addrs_below a d → used d <= Z.of_nat a.
Proof.
  intros Hok Hb. rewrite (ok_used _ Hok). rewrite <- (length_fmap e_addr).
  assert (Hs : (length (e_addr <$> entries d) ≤ length (seq 0 a))%nat).
  { apply submseteq_length, NoDup_submseteq; [apply Hok|]. intros x Hx. apply elem_of_seq. specialize (Hb x Hx). lia. }
  rewrite length_seq in Hs. lia.
Qed.

Lemma dict_step_ok a o d : dict_ok d → d_type d = ty → addrs_below a d → Z.of_nat a < 2 ^ 31 →
  ∃ x d', dict_step a o d = Some (x, d') ∧ map_step o (dict_map d) = (x, dict_map d') ∧ dict_ok d' ∧ d_type d' = ty ∧
    addrs_below (S a) d'.
Proof.
  intros Hok Hty Hb Ha. pose proof (used_bound a d Hok Hb) as Hu.
  assert (Hfr : a ∉ e_addr <$> entries d) by (intros Hin; specialize (Hb a Hin); lia).
  assert (Hbs : addrs_below (S a) d) by (intros x Hx; specialize (Hb x Hx); lia).
  destruct o as [k v|k v|k|k]; simpl.
  - destruct (add_ok a d k v Hok Hty ltac:(lia) Hfr) as (r & d' & -> & Hok' & Ht' & Hres).
    destruct (dict_map d !! canon k) as [v0|]; destruct Hres as [-> Hp]; do 2 eexists; (split; [done|]); split_and!; try done.
    + f_equal. symmetry. apply emap_perm; [done|apply Hok'].
    + intros x. rewrite Hp. apply Hbs.
    + f_equal. unfold dict_map. rewrite (emap_perm _ _ Hp (ok_keys _ Hok')), emap_cons. simpl. by rewrite law_dup.
    + intros x. rewrite Hp. intros [->|Hx]%elem_of_cons; [simpl; lia|by apply Hbs].
  - destruct (replace_ok a d k v Hok Hty ltac:(lia) Hfr) as (r & d' & l & -> & Hok' & Ht' & Hm & Hsub & Hres).
    do 2 eexists. split; [done|]. split_and!; [|done|done|].
    + rewrite Hm. destruct (dict_map d !! canon k); destruct Hres as [-> _]; done.
    + intros x Hx. specialize (Hsub x Hx). apply elem_of_cons in Hsub as [->|Hx']; [lia|by apply Hbs].
  - destruct (delete_ok d k Hok Hty ltac:(lia)) as (r & d' & l & -> & Hok' & Ht' & _ & Hres).
    do 2 eexists. split; [done|]. destruct (dict_map d !! canon k) as [v0|] eqn:Hv.
    + destruct Hres as [-> (e & Hp & Hk & _)]. split_and!; [|done|done|].
      * f_equal. unfold dict_map at 1. rewrite (emap_perm _ _ Hp (ok_keys _ Hok)), emap_cons, Hk. rewrite delete_insert_eq.
        apply delete_id. apply emap_None. intros e' He' Hk'. pose proof (ok_keys _ Hok) as Hn.
        rewrite (keys_perm _ _ Hp) in Hn. apply NoDup_cons in Hn as [Hn _]. apply Hn. rewrite Hk, <- Hk'.
        apply list_elem_of_fmap. by exists e'.
      * intros x Hx. apply Hbs. rewrite Hp. by right.
    + destruct Hres as (-> & -> & _). split_and!; [|done|done|done]. by rewrite delete_id.
  - destruct (find_spec d k Hok Hty) as (r & -> & Hv & _). do 2 eexists. split; [done|]. rewrite Hv. by split_and!.
Qed.

Lemma dict_run_ok os : ∀ a d,
  dict_ok d → d_type d = ty → addrs_below a d → Z.of_nat a + Z.of_nat (length os) <= 2 ^ 31 →
  ∃ d', dict_run a os d = Some ((map_run os (dict_map d)).1, d') ∧ dict_map d' = (map_run os (dict_map d)).2 ∧ dict_ok d' ∧
    d_type d' = ty.
Proof.
  induction os as [|o os IH]; intros a d Hok Hty Hb Ha; cbn [dict_run map_run]; [by exists d|]. cbn [length] in Ha.
  destruct (dict_step_ok a o d Hok Hty Hb ltac:(lia)) as (x & d1 & -> & -> & Hok1 & Ht1 & Hb1).
  destruct (IH (S a) d1 Hok1 Ht1 Hb1 ltac:(lia)) as (d' & -> & Hm & Hok' & Ht').
  destruct (map_run os (dict_map d1)) as [xs m2]. by exists d'.
Qed.

(** C23: any sequence of operations on a new table gives the results it gives on a
    finite map, and never runs into an invalid access, a failed assertion or
    an endless loop.  The table stays well formed: its size is a power of two,
    every entry is in the slot of its hash value, no key occurs twice, and
    [used] counts the entries.  The operations are at most 2^31, which bounds the
    entries and the size of the table, and the allocations succeed. *)
Theorem dict_refines_map os : Z.of_nat (length os) <= 2 ^ 31 →
  ∃ d, dict_run 0 os (dictCreate ty) = Some ((map_run os ∅).1, d) ∧ dict_map d = (map_run os ∅).2 ∧ dict_ok d.
Proof.
  intros Hlen. destruct (create_ok ty) as [Hok <-].
  destruct (dict_run_ok os 0 (dictCreate ty) Hok eq_refl) as (d & H1 & H2 & H3 & _); [|lia|by exists d].
  intros x Hx. by apply elem_of_nil in Hx.
Qed.
End laws.
End props.
