(* ===== verification/DictIter.v ===== *)
(** * Walking over a hash table, and destroying it

    The iterator remembers the successor of the entry it returns, because the
    caller may delete that entry before the next call.  [iterate] is a caller
    that walks over the whole table and deletes the entries it chooses. *)

From S2P Require Import Prelude Dict DictProps.
Local Open Scope Z_scope.

Section iter.
Context {key val K : Type} `{EqDecision key} `{Countable K} (canon : key → K).
Context (ty : dictType key val) `{!dict_laws ty canon}.
Abbreviation entry := (dictEntry key val).
Abbreviation dict_ok := (dict_ok canon).
Implicit Types (d : dict key val) (e : entry).

(** The live entry at an address. *)
Definition entry_at (a : nat) d : option entry := snd <$> list_find (λ e, e_addr e = a) (entries d).

Definition delete_at (a : nat) d : option (dict key val) :=
  match entry_at a d with
  | None => None
  | Some e => match dictDelete d (e_key e) with Some (_, d', _) => Some d' | None => None end
  end.

Fixpoint iterate (fuel : nat) (del : nat → bool) d (it : dictIterator) : option (list nat * dict key val) :=
  match fuel with
  | O => None
  | S fuel' =>
    match dictNext d it with
    | None => None
    | Some (None, _) => Some ([], d)
    | Some (Some a, it') =>
      match (if del a then delete_at a d else Some d) with
      | None => None
      | Some d1 => match iterate fuel' del d1 it' with Some (l, d2) => Some (a :: l, d2) | None => None end
      end
    end
  end.

(** ** Reading the next entry *)

Lemma chain_next_None a (c : list entry) : a ∉ e_addr <$> c → chain_next a c = None.
Proof.
  induction c as [|e c IH]; [done|]. rewrite fmap_cons, not_elem_of_cons. intros [Hne Hin]. simpl.
  destruct (Nat.eqb_spec (e_addr e) a); [congruence|by apply IH].
Qed.

Lemma chain_next_Some e (pre post : list entry) : e_addr e ∉ e_addr <$> pre →
  chain_next (e_addr e) (pre ++ e :: post) = Some (e_addr <$> head post).
Proof.
  induction pre as [|f pre IH]; simpl; [by rewrite Nat.eqb_refl|]. rewrite not_elem_of_cons. intros [Hne Hin].
  destruct (Nat.eqb_spec (e_addr f) (e_addr e)); [congruence|by apply IH].
Qed.

Lemma entry_next_Some e (pre post : list entry) t l2 :
  e_addr e ∉ e_addr <$> (concat t ++ pre) →
  entry_next (e_addr e) (t ++ (pre ++ e :: post) :: l2) = Some (e_addr <$> head post).
Proof.
  induction t as [|c t IH]; simpl; intros Hin.
  - by rewrite chain_next_Some.
  - rewrite <- app_assoc, fmap_app, not_elem_of_app in Hin. destruct Hin as [Hc Hin]. rewrite (chain_next_None _ c Hc). by apply IH.
Qed.

(** An iterator after it has returned an entry: [rem] are the entries still to
    be visited, [seen] those before them. *)
Definition positioned d (it : dictIterator) (seen rem : list entry) : Prop :=
  ∃ i p l1 pre post l2,
    it = mk_iter i (Some p) (e_addr <$> head post) ∧ table d = l1 ++ (pre ++ post) :: l2 ∧ Z.of_nat (length l1) = i ∧
    seen = concat l1 ++ pre ∧ rem = post ++ concat l2.

(** The same when the entry it has returned is still there. *)
Definition at_entry d (it : dictIterator) (seen : list entry) e (rem : list entry) : Prop :=
  ∃ i p l1 pre post l2,
    it = mk_iter i (Some p) (e_addr <$> head post) ∧ table d = l1 ++ (pre ++ e :: post) :: l2 ∧ Z.of_nat (length l1) = i ∧
    seen = concat l1 ++ pre ∧ rem = post ++ concat l2.

Lemma at_entry_positioned d it seen e rem : at_entry d it seen e rem → positioned d it (seen ++ [e]) rem.
Proof.
  intros (i & p & l1 & pre & post & l2 & -> & Ht & Hi & -> & ->). exists i, p, l1, (pre ++ [e]), post, l2.
  rewrite <- !app_assoc. by split_and!.
Qed.

Lemma positioned_entries d it seen rem : positioned d it seen rem → entries d = seen ++ rem.
Proof.
  intros (i & p & l1 & pre & post & l2 & _ & Ht & _ & -> & ->). unfold entries. rewrite Ht, concat_app. simpl.
  by rewrite <- !app_assoc.
Qed.

Lemma fresh_addr d e (seen rem : list entry) : dict_ok d → entries d = seen ++ e :: rem → e_addr e ∉ e_addr <$> seen.
Proof.
  intros Hok He. pose proof (ok_addrs _ _ Hok) as Hn. rewrite He, fmap_app, fmap_cons in Hn.
  apply NoDup_app in Hn as (_ & Hd & _). intros Hin. apply (Hd _ Hin). left.
Qed.

Lemma slot_middle (l1 : list (list entry)) c l2 i : Z.of_nat (length l1) = i → slot (l1 ++ c :: l2) i = Some c.
Proof.
  intros <-. unfold slot. destruct (Z.ltb_spec (Z.of_nat (length l1)) 0); [lia|]. rewrite Nat2Z.id. by apply list_lookup_middle.
Qed.

(** The loop of [dictNext] looking for the next slot that is not empty. *)
Lemma next_slot d l1 l2 i nx fuel :
  dict_ok d → size d < 2 ^ 31 → table d = l1 ++ l2 → i + 1 = Z.of_nat (length l1) → (length l2 < fuel)%nat →
  match concat l2 with
  | [] => ∃ it', next_loop fuel d (mk_iter i None nx) = Some (None, it')
  | e :: rem => ∃ it', next_loop fuel d (mk_iter i None nx) = Some (Some (e_addr e), it') ∧
                  at_entry d it' (concat l1) e rem
  end.
Proof.
  intros Hok Hsz. revert l1 i fuel. induction l2 as [|c l2 IH]; intros l1 i fuel Ht Hi Hf;
    (destruct fuel as [|fuel]; [lia|]); cbn [next_loop it_entry it_index it_next]; pose proof (ok_size _ _ Hok) as Hs;
    rewrite Ht, length_app in Hs; cbn [length] in Hs, Hf; rewrite to_int_id by (unfold in_int, INT_MIN, INT_MAX; lia);
    rewrite Z.geb_leb.
  - simpl. destruct (Z.leb_spec (size d) (i + 1)); [by eexists|lia].
  - destruct (Z.leb_spec (size d) (i + 1)); [lia|].
    assert (Hc : slot (table d) (i + 1) = Some c) by (rewrite Ht; apply slot_middle; lia). rewrite Hc. destruct c as [|e c]; simpl.
    + specialize (IH (l1 ++ [[]]) (i + 1) fuel). rewrite concat_app in IH. simpl in IH. rewrite app_nil_r in IH.
      apply IH; [by rewrite <- app_assoc|rewrite length_app; simpl; lia|lia].
    + assert (Hfr : e_addr e ∉ e_addr <$> concat l1 ++ []).
      { apply (fresh_addr d e _ (c ++ concat l2)); [done|]. unfold entries. by rewrite Ht, concat_app, app_nil_r. }
      rewrite Ht. pose proof (entry_next_Some e [] c l1 l2 Hfr) as Hn. simpl in Hn. rewrite Hn. eexists. split; [done|].
      exists (i + 1), (e_addr e), l1, [], c, l2. rewrite app_nil_r. split_and!; [done|done|lia|done|done].
Qed.

(** One call of [dictNext]. *)
Lemma dictNext_positioned d it seen rem :
  dict_ok d → size d < 2 ^ 31 → positioned d it seen rem →
  match rem with
  | [] => ∃ it', dictNext d it = Some (None, it')
  | e :: rem' => ∃ it', dictNext d it = Some (Some (e_addr e), it') ∧ at_entry d it' seen e rem'
  end.
Proof.
  intros Hok Hsz Hpos. pose proof (positioned_entries _ _ _ _ Hpos) as He.
  destruct Hpos as (i & p & l1 & pre & post & l2 & -> & Ht & Hi & -> & ->). unfold dictNext.
  replace (Z.to_nat (size d) + 2)%nat with (S (Z.to_nat (size d) + 1)) by lia. cbn [next_loop it_entry it_next it_index].
  pose proof (ok_size _ _ Hok) as Hs. rewrite Ht, length_app in Hs. cbn [length] in Hs.
  destruct post as [|e post]; simpl.
  - pose proof (next_slot d (l1 ++ [pre]) l2 i None (Z.to_nat (size d) + 1) Hok Hsz) as Hn.
    rewrite length_app, concat_app in Hn. simpl in Hn. rewrite app_nil_r in Hn. rewrite app_nil_r in Ht.
    apply Hn; [by rewrite <- app_assoc|lia|lia].
  - rewrite Ht, entry_next_Some by (eapply fresh_addr; [exact Hok|exact He]). eexists. split; [done|].
    exists i, (e_addr e), l1, pre, post, l2. by split_and!.
Qed.

Lemma dictNext_first d :
  dict_ok d → size d < 2 ^ 31 →
  match entries d with
  | [] => ∃ it', dictNext d dictGetIterator = Some (None, it')
  | e :: rem => ∃ it', dictNext d dictGetIterator = Some (Some (e_addr e), it') ∧ at_entry d it' [] e rem
  end.
Proof.
  intros Hok Hsz. pose proof (next_slot d [] (table d) (-1) None (Z.to_nat (size d) + 2) Hok Hsz eq_refl eq_refl) as Hn.
  apply Hn. pose proof (ok_size _ _ Hok). lia.
Qed.

(** ** Deleting the entry just returned *)

Lemma chain_delete_at e (pre post : list entry) : NoDup (keys canon (pre ++ e :: post)) →
  chain_delete ty (e_key e) (pre ++ e :: post) = Some (e, pre ++ post).
Proof.
  induction pre as [|f pre IH]; simpl.
  - intros _. assert (dictCompareHashKeys ty (e_key e) (e_key e) = true) as -> by (by apply law_compare). done.
  - intros [Hf Hn]%NoDup_cons. destruct (dictCompareHashKeys ty (e_key e) (e_key f)) eqn:E; [|by rewrite IH].
    apply law_compare in E. exfalso. apply Hf. rewrite <- E. apply list_elem_of_fmap. exists e. split; [done|].
    apply elem_of_app. right. left.
Qed.

Lemma NoDup_middle {A} (l1 l2 l3 : list A) : NoDup (l1 ++ l2 ++ l3) → NoDup l2.
Proof. rewrite !NoDup_app. tauto. Qed.

Lemma delete_at_entry d it seen e rem :
  dict_ok d → d_type d = ty → size d < 2 ^ 31 → at_entry d it seen e rem →
  ∃ d', delete_at (e_addr e) d = Some d' ∧ dict_ok d' ∧ d_type d' = ty ∧ size d' = size d ∧ positioned d' it seen rem.
Proof.
  intros Hok Hty Hsz Hat. pose proof (positioned_entries _ _ _ _ (at_entry_positioned _ _ _ _ _ Hat)) as He.
  rewrite <- app_assoc in He. simpl in He. destruct Hat as (i & p & l1 & pre & post & l2 & -> & Ht & Hi & -> & ->).
  unfold delete_at. assert (entry_at (e_addr e) d = Some e) as ->.
  { unfold entry_at. rewrite He. pose proof (fresh_addr _ _ _ _ Hok He) as Hfr.
    rewrite list_find_app_r; [|apply list_find_None, Forall_forall; intros f Hf Heq; apply Hfr; rewrite <- Heq; by apply list_elem_of_fmap_2].
    simpl. rewrite decide_True by done. done. }
  assert (Hin : e ∈ entries d) by (rewrite He; apply elem_of_app; right; left).
  destruct (delete_ok canon ty d (e_key e) Hok Hty) as (r & d' & l & Hd & Hok' & Hty' & Hs' & _).
  { pose proof (ok_load _ _ Hok). lia. }
  rewrite Hd. exists d'. split_and!; [done|done|done|done|].
  pose proof (ok_size _ _ Hok) as Hs. rewrite Ht, length_app in Hs. cbn [length] in Hs.
  assert (Hslot : slot (table d) (Z.of_nat (length l1)) = Some (pre ++ e :: post)) by (rewrite Ht; by apply slot_middle).
  unfold dictDelete in Hd. destruct (Z.eqb_spec (size d) 0) as [|_]; [lia|].
  rewrite (ok_hashed _ _ Hok _ _ e Hslot) in Hd by (apply elem_of_app; right; left). rewrite Hslot, Hty in Hd.
  rewrite chain_delete_at in Hd.
  2:{ pose proof (ok_keys _ _ Hok) as Hn. unfold entries in Hn. rewrite Ht, concat_app in Hn. simpl in Hn.
      unfold keys in Hn |- *. rewrite !fmap_app in Hn. rewrite fmap_app. by apply NoDup_middle in Hn. }
  destruct (slot_split _ _ _ Hslot) as (l1' & l2' & Ht' & _ & Hl & Hset). rewrite Hset in Hd. injection Hd as _ <- _.
  rewrite Ht in Ht'. apply app_inj_1 in Ht' as [-> [= ->]]; [|lia].
  exists i, p, l1', pre, post, l2'. by split_and!.
Qed.

(** ** Walking over the table *)

Lemma iterate_spec del fuel : ∀ d it seen rem,
  dict_ok d → d_type d = ty → size d < 2 ^ 31 → (length rem < fuel)%nat →
  (positioned d it seen rem ∨ it = dictGetIterator ∧ seen = [] ∧ rem = entries d) →
  ∃ d', iterate fuel del d it = Some (e_addr <$> rem, d') ∧ dict_ok d' ∧
    entries d' = seen ++ filter (λ e, del (e_addr e) = false) rem.
Proof.
  induction fuel as [|fuel IH]; intros d it seen rem Hok Hty Hsz Hf Hpos; [lia|]. cbn [iterate].
  assert (Hent : entries d = seen ++ rem).
  { destruct Hpos as [Hpos|(_ & -> & ->)]; [by eapply positioned_entries|done]. }
  assert (Hnext : match rem with
    | [] => ∃ it', dictNext d it = Some (None, it')
    | e :: rem' => ∃ it', dictNext d it = Some (Some (e_addr e), it') ∧ at_entry d it' seen e rem' end).
  { destruct Hpos as [Hpos|(-> & -> & ->)]; [by apply dictNext_positioned|by apply dictNext_first]. }
  destruct rem as [|e rem].
  - destruct Hnext as [it' ->]. exists d. split_and!; [done|done|]. by rewrite Hent.
  - destruct Hnext as (it' & -> & Hat). cbn [length] in Hf. rewrite filter_cons. destruct (del (e_addr e)) eqn:Edel.
    + rewrite decide_False by done. destruct (delete_at_entry d it' seen e rem) as (d1 & -> & Hok1 & Hty1 & Hs1 & Hp1); [done..|].
      destruct (IH d1 it' seen rem) as (d2 & -> & Hok2 & He2); [done|done|lia|lia|by left|]. by exists d2.
    + rewrite decide_True by done.
      destruct (IH d it' (seen ++ [e]) rem) as (d2 & -> & Hok2 & He2); [done|done|done|lia|left; by apply at_entry_positioned|].
      exists d2. rewrite He2, <- app_assoc. by split_and!.
Qed.

(** An iterator returns every entry of the table exactly once, in the order of
    the slots, also when the caller deletes some of the entries right after it
    got them; in the end exactly those are gone. *)
Theorem iterator_visits_each_once del d :
  dict_ok d → d_type d = ty → size d < 2 ^ 31 →
  ∃ d', iterate (S (length (entries d))) del d dictGetIterator = Some (e_addr <$> entries d, d') ∧
    NoDup (e_addr <$> entries d) ∧ dict_ok d' ∧ entries d' = filter (λ e, del (e_addr e) = false) (entries d).
Proof.
  intros Hok Hty Hsz.
  destruct (iterate_spec del (S (length (entries d))) d dictGetIterator [] (entries d)) as (d' & H1 & H2 & H3);
    [done|done|done|lia|by right|]. exists d'. split_and!; [done|apply Hok|done|done].
Qed.

(** ** Destroying a table *)

Lemma clear_loop_spec d fuel : ∀ l1 l2 u,
  table d = l1 ++ l2 → size d = Z.of_nat (length (table d)) → (length l2 < fuel)%nat →
  u = Z.of_nat (length (concat l2)) → u < 2 ^ 64 →
  clear_loop fuel d (Z.of_nat (length l1)) u = Some (concat l2 ≫= release_entry (d_type d)).
Proof.
  induction fuel as [|fuel IH]; intros l1 l2 u Ht Hs Hf Hu Hb; [lia|]. cbn [clear_loop].
  rewrite Ht, length_app in Hs. destruct l2 as [|c l2]; cbn [length concat] in *.
  - destruct (Z.ltb_spec (Z.of_nat (length l1)) (size d)); [lia|]. done.
  - destruct (Z.ltb_spec (Z.of_nat (length l1)) (size d)); [|lia]. cbn [andb]. rewrite length_app in Hu.
    destruct (Z.ltb_spec 0 u) as [Hpos|Hz].
    + rewrite Ht, slot_middle by done. rewrite to_size_t_id by lia.
      replace (Z.of_nat (length l1) + 1) with (Z.of_nat (length (l1 ++ [c]))) by (rewrite length_app; simpl; lia).
      rewrite (IH (l1 ++ [c]) l2); [by rewrite bind_app|by rewrite <- app_assoc|rewrite Ht, length_app; simpl; lia|lia|lia|lia].
    + assert (c ++ concat l2 = []) as -> by (apply length_zero_iff_nil; rewrite length_app; lia). done.
Qed.

(** [dictRelease] hands every key and every value to its destructor once and
    frees every entry once. *)
Theorem release_frees_every_entry d : dict_ok d → size d < 2 ^ 64 →
  dictRelease d = Some (entries d ≫= release_entry (d_type d)).
Proof.
  intros Hok Hsz. unfold dictRelease, _dictClear. pose proof (ok_load _ _ Hok). pose proof (ok_size _ _ Hok).
  rewrite (clear_loop_spec d _ [] (table d)); [done|done|done|lia|apply Hok|lia].
Qed.
End iter.

(** ** Examples *)

(** Keys are strings of bytes, compared by content; both destructors exist. *)
Definition string_type : dictType (list Z) Z :=
  mk_dictType dictGenHashFunction None None (Some (λ k1 k2, bool_decide (k1 = k2))) true true.

#[export] Instance string_type_laws : dict_laws string_type id.
Proof.
  split; [by unfold id; intros k1 k2 ->| |done].
  intros k1 k2. unfold dictCompareHashKeys, id. simpl. by rewrite bool_decide_eq_true.
Qed.

(** Five keys make the table grow from four slots to eight; the strings [Ab]
    and [BA] have the same hash value. *)
Definition example_ops : list (dict_op (key := list Z) (val := Z)) :=
  [op_add [65; 98] 1; op_add [66; 65] 2; op_add [1] 3; op_add [2] 4; op_add [3] 5; op_find [66; 65]; op_add [66; 65] 9;
   op_replace [65; 98] 6; op_find [65; 98]; op_delete [1]; op_find [1]].

Example same_hash : dictGenHashFunction [65; 98] = dictGenHashFunction [66; 65].
Proof. by vm_compute. Qed.

Lemma dict_refines_map_witness :
  ∃ d, dict_run 0 example_ops (dictCreate string_type) =
    Some ([returned 0; returned 0; returned 0; returned 0; returned 0; found (Some 2); returned 1; returned 0;
           found (Some 6); returned 0; found None], d) ∧ used d = 4 ∧ size d = 8.
Proof.
  destruct (dict_refines_map id string_type example_ops) as (d & H & _ & _); [by vm_compute|].
  revert H. generalize (map_run id string_type example_ops ∅). intros [xs m] H. cbn [fst] in H.
  assert (Hc : (λ r, (r.1, used r.2, size r.2)) <$> dict_run 0 example_ops (dictCreate string_type) =
    Some ([returned 0; returned 0; returned 0; returned 0; returned 0; found (Some 2); returned 1; returned 0;
           found (Some 6); returned 0; found None], 4, 8)) by (vm_compute; reflexivity).
  rewrite H in Hc. injection Hc as -> Hu Hs. exists d. split; [exact H|]. split; [exact Hu|exact Hs].
Defined.

(** A table with two entries in one slot. *)
Definition two_keys : dict (list Z) Z :=
  mk_dict [[mk_entry 1%nat [66; 65] 2; mk_entry 0%nat [65; 98] 1]; []; []; []] string_type 4 3 2.

Lemma two_keys_ok : dict_ok id two_keys.
Proof.
  destruct (create_ok id string_type) as [Hok _].
  destruct (dict_run_ok id string_type (take 2 example_ops) 0 (dictCreate string_type) Hok eq_refl) as (d & H & _ & Hok' & Hty);
    [intros x Hx; by apply elem_of_nil in Hx|by vm_compute|].
  assert (Hc : (λ r, (table r.2, size r.2, sizemask r.2, used r.2)) <$> dict_run 0 (take 2 example_ops) (dictCreate string_type) =
    Some (table two_keys, 4, 3, 2)) by (vm_compute; reflexivity).
  rewrite H in Hc. destruct d. simpl in Hty, Hc. injection Hc as -> -> -> ->. subst. exact Hok'.
Qed.

Lemma iterator_visits_each_once_witness :
  ∃ d', iterate 3 (λ a, (a =? 1)%nat) two_keys dictGetIterator = Some ([1%nat; 0%nat], d') ∧ entries d' = [mk_entry 0%nat [65; 98] 1].
Proof.
  destruct (iterator_visits_each_once id string_type (λ a, (a =? 1)%nat) two_keys) as (d' & H & _ & _ & He);
    [apply two_keys_ok|reflexivity|reflexivity|].
  exists d'. split; [exact H|]. rewrite He. reflexivity.
Defined.

Lemma release_frees_every_entry_witness :
  dictRelease two_keys = Some [free_key [66; 65]; free_val 2; free_entry 1; free_key [65; 98]; free_val 1; free_entry 0].
Proof. rewrite (release_frees_every_entry id two_keys); [reflexivity|apply two_keys_ok|reflexivity]. Defined.
