(* ===== verification/Sds.v ===== *)
(** * vendors/hiredis/sds.c: dynamic strings

    An [sds] is a block of memory: a header with the length, the room and a type
    that fixes the width of both, and the bytes, with a terminating zero that is
    not counted.  Here the bytes are the list [s_buf] of everything allocated
    behind the header; accesses outside of it are [None].  A function that
    allocates takes as argument whether the allocation succeeds and returns
    [Some None], the null pointer, if not. *)

From S2P Require Import Prelude.
Local Open Scope Z_scope.

Definition SDS_MAX_PREALLOC : Z := 1024 * 1024.

(** ** The header *)

Inductive sds_type := SDS_TYPE_5 | SDS_TYPE_8 | SDS_TYPE_16 | SDS_TYPE_32 | SDS_TYPE_64.

#[export] Instance sds_type_eq_dec : EqDecision sds_type.
Proof. solve_decision. Defined.

(** The width of the length field; the short type keeps it in its flags. *)
Definition type_bits (ty : sds_type) : Z :=
  match ty with SDS_TYPE_5 => 5 | SDS_TYPE_8 => 8 | SDS_TYPE_16 => 16 | SDS_TYPE_32 => 32 | SDS_TYPE_64 => 64 end.

Definition sdsHdrSize (ty : sds_type) : Z :=
  match ty with SDS_TYPE_5 => 1 | SDS_TYPE_8 => 3 | SDS_TYPE_16 => 5 | SDS_TYPE_32 => 9 | SDS_TYPE_64 => 17 end.

Definition sdsReqType (string_size : Z) : sds_type :=
  if string_size <? 32 then SDS_TYPE_5
  else if string_size <? 0xff then SDS_TYPE_8
  else if string_size <? 0xffff then SDS_TYPE_16
  else if string_size <? 0xffffffff then SDS_TYPE_32
  else SDS_TYPE_64.

(** [s_alloc] has no meaning for the short type. *)
Record sds := mk_sds { s_type : sds_type; s_len : Z; s_alloc : Z; s_buf : list Z }.

Definition sdslen (s : sds) : Z := s_len s.
Definition sdsalloc (s : sds) : Z := match s_type s with SDS_TYPE_5 => s_len s | _ => s_alloc s end.
Definition sdsavail (s : sds) : Z := match s_type s with SDS_TYPE_5 => 0 | _ => to_size_t (s_alloc s - s_len s) end.

Definition sdssetlen (s : sds) (newlen : Z) : sds :=
  mk_sds (s_type s) (newlen mod 2 ^ type_bits (s_type s)) (s_alloc s) (s_buf s).
Definition sdsinclen (s : sds) (inc : Z) : sds :=
  mk_sds (s_type s) ((s_len s + inc) mod 2 ^ type_bits (s_type s)) (s_alloc s) (s_buf s).
Definition sdssetalloc (s : sds) (newlen : Z) : sds :=
  match s_type s with
  | SDS_TYPE_5 => s
  | _ => mk_sds (s_type s) (s_len s) (newlen mod 2 ^ type_bits (s_type s)) (s_buf s)
  end.

(** ** Memory *)

(** [memcpy(buf + off, bs, ...)] *)
Definition write_at (off : Z) (bs buf : list Z) : option (list Z) :=
  if (0 <=? off) && (off + Z.of_nat (length bs) <=? Z.of_nat (length buf))
  then Some (take (Z.to_nat off) buf ++ bs ++ drop (Z.to_nat off + length bs) buf)
  else None.

(** The [n] bytes at [buf + off]. *)
Definition read_at (off n : Z) (buf : list Z) : option (list Z) :=
  if (0 <=? off) && (0 <=? n) && (off + n <=? Z.of_nat (length buf))
  then Some (take (Z.to_nat n) (drop (Z.to_nat off) buf))
  else None.

(** [memcpy(s + off, bs, ...)] and the like. *)
Definition poke (s : sds) (off : Z) (bs : list Z) : option sds :=
  match write_at off bs (s_buf s) with
  | Some b => Some (mk_sds (s_type s) (s_len s) (s_alloc s) b)
  | None => None
  end.

(** A C string: the bytes before the first zero, if there is one. *)
Fixpoint c_string (l : list Z) : option (list Z) :=
  match l with
  | [] => None
  | c :: r => if c =? 0 then Some [] else match c_string r with Some x => Some (c :: x) | None => None end
  end.

(** The result of a call whose null pointer would be used at once. *)
Definition not_null (x : option (option sds)) : option sds := match x with Some (Some s) => Some s | _ => None end.

Section sds.
(** What uninitialised memory holds. *)
Context (junk : Z).

(** [malloc] and [realloc] of a block with a header of [hdr] bytes and [n]
    bytes, the bytes alone; [size_t] wraps around. *)
Definition block (hdr n : Z) : Z := to_size_t (hdr + n) - hdr.
Definition malloc (n : Z) : list Z := replicate (Z.to_nat n) junk.
Definition realloc (n : Z) (b : list Z) : list Z := take (Z.to_nat n) b ++ malloc (n - Z.of_nat (length b)).

(** ** Creation *)

(** [sds sdsnewlen(const void *init, size_t initlen)] *)
Definition sdsnewlen (ok : bool) (init : option (list Z)) (initlen : Z) : option (option sds) :=
  let type := match sdsReqType initlen with
              | SDS_TYPE_5 => if initlen =? 0 then SDS_TYPE_8 else SDS_TYPE_5
              | t => t
              end in
  if negb ok then Some None
  else
    let n := block (sdsHdrSize type) (initlen + 1) in
    let sh := match init with None => replicate (Z.to_nat n) 0 | Some _ => malloc n end in
    let s := sdssetalloc (sdssetlen (mk_sds type 0 0 sh) initlen) initlen in
    let filled :=
      match init with
      | Some l =>
        if initlen =? 0 then Some s
        else match read_at 0 initlen l with Some bs => poke s 0 bs | None => None end
      | None => Some s
      end in
    match filled with
    | Some s1 => match poke s1 initlen [0] with Some s2 => Some (Some s2) | None => None end
    | None => None
    end.

Definition sdsempty (ok : bool) : option (option sds) := sdsnewlen ok (Some []) 0.

(** [sds sdsnew(const char *init)]; the argument is null or a memory with a
    terminating zero. *)
Definition sdsnew (ok : bool) (init : option (list Z)) : option (option sds) :=
  match init with
  | None => sdsnewlen ok None 0
  | Some l => match c_string l with Some x => sdsnewlen ok (Some l) (Z.of_nat (length x)) | None => None end
  end.

Definition sdsdup (ok : bool) (s : sds) : option (option sds) := sdsnewlen ok (Some (s_buf s)) (sdslen s).

(** ** Making room *)

(** The end of [sdsMakeRoomFor] and of [sdsRemoveFreeSpace]: the string moves
    to a block with [newlen] bytes of type [type]. *)
Definition move_to (ok : bool) (s : sds) (type : sds_type) (newlen : Z) : option (option sds) :=
  if negb ok then Some None
  else
    let n := block (sdsHdrSize type) (newlen + 1) in
    if decide (s_type s = type) then
      Some (Some (sdssetalloc (mk_sds type (s_len s) (s_alloc s) (realloc n (s_buf s))) newlen))
    else
      match read_at 0 (sdslen s + 1) (s_buf s) with
      | None => None
      | Some bs =>
        match write_at 0 bs (malloc n) with
        | None => None
        | Some b => Some (Some (sdssetalloc (sdssetlen (mk_sds type 0 0 b) (sdslen s)) newlen))
        end
      end.

(** [sds sdsMakeRoomFor(sds s, size_t addlen)] *)
Definition sdsMakeRoomFor (ok : bool) (s : sds) (addlen : Z) : option (option sds) :=
  if sdsavail s >=? addlen then Some (Some s)
  else
    let newlen := to_size_t (sdslen s + addlen) in
    let newlen := if newlen <? SDS_MAX_PREALLOC then to_size_t (newlen * 2) else to_size_t (newlen + SDS_MAX_PREALLOC) in
    let type := match sdsReqType newlen with SDS_TYPE_5 => SDS_TYPE_8 | t => t end in
    move_to ok s type newlen.

(** [sds sdsRemoveFreeSpace(sds s)] *)
Definition sdsRemoveFreeSpace (ok : bool) (s : sds) : option (option sds) :=
  move_to ok s (sdsReqType (sdslen s)) (sdslen s).

(** [size_t sdsAllocSize(sds s)] *)
Definition sdsAllocSize (s : sds) : Z := to_size_t (sdsHdrSize (s_type s) + sdsalloc s + 1).

(** [void sdsIncrLen(sds s, int incr)]; a failed [assert] is [None]. *)
Definition sdsIncrLen (s : sds) (incr : Z) : option sds :=
  let fits :=
    match s_type s with
    | SDS_TYPE_5 => (incr >? 0) && (s_len s + incr <? 32) || (incr <? 0) && (s_len s >=? - incr)
    | _ => (incr >=? 0) && (s_alloc s - s_len s >=? incr) || (incr <? 0) && (s_len s >=? - incr)
    end in
  if fits then
    let s1 := sdssetlen s (s_len s + incr) in
    poke s1 (s_len s1) [0]
  else None.

(** [sds sdsgrowzero(sds s, size_t len)] *)
Definition sdsgrowzero (ok : bool) (s : sds) (len : Z) : option (option sds) :=
  let curlen := sdslen s in
  if len <=? curlen then Some (Some s)
  else
    match sdsMakeRoomFor ok s (len - curlen) with
    | Some (Some s1) =>
      match poke s1 curlen (replicate (Z.to_nat (len - curlen + 1)) 0) with
      | Some s2 => Some (Some (sdssetlen s2 len))
      | None => None
      end
    | r => r
    end.

(** ** Appending and copying *)

(** [sds sdscatlen(sds s, const void *t, size_t len)]; [t] are the [len]
    bytes. *)
Definition sdscatlen (ok : bool) (s : sds) (t : list Z) : option (option sds) :=
  let curlen := sdslen s in
  let len := Z.of_nat (length t) in
  match sdsMakeRoomFor ok s len with
  | Some (Some s1) =>
    match poke s1 curlen t with
    | None => None
    | Some s2 =>
      match poke (sdssetlen s2 (to_size_t (curlen + len))) (to_size_t (curlen + len)) [0] with
      | Some s3 => Some (Some s3)
      | None => None
      end
    end
  | r => r
  end.

Definition sdscat (ok : bool) (s : sds) (t : list Z) : option (option sds) :=
  match c_string t with Some x => sdscatlen ok s x | None => None end.

(** [sds sdscatsds(sds s, const sds t)]; the length is read from the header. *)
Definition sdscatsds (ok : bool) (s t : sds) : option (option sds) :=
  match read_at 0 (sdslen t) (s_buf t) with Some bs => sdscatlen ok s bs | None => None end.

(** [sds sdscpylen(sds s, const char *t, size_t len)] *)
Definition sdscpylen (ok : bool) (s : sds) (t : list Z) : option (option sds) :=
  let len := Z.of_nat (length t) in
  match (if sdsalloc s <? len then sdsMakeRoomFor ok s (len - sdslen s) else Some (Some s)) with
  | Some (Some s1) =>
    match poke s1 0 t with
    | None => None
    | Some s2 => match poke s2 len [0] with Some s3 => Some (Some (sdssetlen s3 len)) | None => None end
    end
  | r => r
  end.

(** ** Shortening *)

Definition sdsclear (s : sds) : option sds := poke (sdssetlen s 0) 0 [0].

(** [void sdsupdatelen(sds s)]; the length is an [int]. *)
Definition sdsupdatelen (s : sds) : option sds :=
  match c_string (s_buf s) with
  | Some x => Some (sdssetlen s (to_size_t (to_int (Z.of_nat (length x)))))
  | None => None
  end.

(** [void sdsrange(sds s, int start, int end)] *)
Definition sdsrange (s : sds) (start end_ : Z) : option sds :=
  let len := sdslen s in
  if len =? 0 then Some s
  else
    let start := if start <? 0 then let x := to_int (len + start) in if x <? 0 then 0 else x else start in
    let end_ := if end_ <? 0 then let x := to_int (len + end_) in if x <? 0 then 0 else x else end_ in
    let newlen := if start >? end_ then 0 else to_size_t (to_int (end_ - start + 1)) in
    let '(start, newlen) :=
      if negb (newlen =? 0) then
        if start >=? to_int len then (start, 0)
        else if end_ >=? to_int len then
          let end_ := to_int (len - 1) in (start, if start >? end_ then 0 else end_ - start + 1)
        else (start, newlen)
      else (0, newlen) in
    let moved :=
      if negb (start =? 0) && negb (newlen =? 0)
      then match read_at start newlen (s_buf s) with Some bs => poke s 0 bs | None => None end
      else Some s in
    match moved with
    | Some s1 => match poke s1 newlen [0] with Some s2 => Some (sdssetlen s2 newlen) | None => None end
    | None => None
    end.
End sds.
