(* ===== verification/SdsProps.v ===== *)
(** * Dynamic strings are strings of bytes

    [content s] is what an [sds] stands for.  Under the invariant [sds_ok] (the
    length and the room fit the type of the header, the block is large enough
    and the terminating zero is in place) every operation stays inside of its
    block and acts on the content as the corresponding list operation does. *)

From S2P Require Import Prelude Sds.
Local Open Scope Z_scope.

Definition content (s : sds) : list Z := take (Z.to_nat (s_len s)) (s_buf s).

(** With [z] behind the content. *)
Record sds_at (z : Z) (s : sds) : Prop := {
  so_len : 0 <= s_len s <= sdsalloc s;
  so_alloc : sdsalloc s < 2 ^ type_bits (s_type s);
  so_block : sdsalloc s < Z.of_nat (length (s_buf s));
  so_zero : s_buf s !! Z.to_nat (s_len s) = Some z
}.
Arguments so_len {z} s _.
Arguments so_alloc {z} s _.
Arguments so_block {z} s _.
Arguments so_zero {z} s _.

Abbreviation sds_ok := (sds_at 0).

Lemma content_length {z} s : sds_at z s → Z.of_nat (length (content s)) = s_len s.
Proof. intros [Hl _ Hb _]. unfold content. rewrite length_take. lia. Qed.

(** ** Types and widths *)

Lemma type_bits_pos ty : 5 <= type_bits ty <= 64.
Proof. by destruct ty. Qed.

Lemma hdr_range ty : 1 <= sdsHdrSize ty <= 17.
Proof. by destruct ty. Qed.

Lemma req_type_fits n : 0 <= n < 2 ^ 64 → n < 2 ^ type_bits (sdsReqType n).
Proof. intros Hn. unfold sdsReqType. repeat case_if; bool_to_prop; simpl; lia. Qed.

Lemma at_least_8 n : 0 <= n < 2 ^ 64 →
  n < 2 ^ type_bits (match sdsReqType n with SDS_TYPE_5 => SDS_TYPE_8 | t => t end) ∧
  match sdsReqType n with SDS_TYPE_5 => SDS_TYPE_8 | t => t end ≠ SDS_TYPE_5.
Proof. intros Hn. pose proof (req_type_fits n Hn). destruct (sdsReqType n); simpl in *; (split; [lia|done]). Qed.

Lemma block_eq ty n : 0 <= n < 2 ^ 63 + 2 ^ 62 → block (sdsHdrSize ty) n = n.
Proof. intros Hn. unfold block. pose proof (hdr_range ty). rewrite to_size_t_id by lia. lia. Qed.

(** ** Memory *)

Lemma write_at_Some off bs buf :
  0 <= off → off + Z.of_nat (length bs) <= Z.of_nat (length buf) →
  write_at off bs buf = Some (take (Z.to_nat off) buf ++ bs ++ drop (Z.to_nat off + length bs) buf).
Proof.
  intros H1 H2. unfold write_at. destruct (Z.leb_spec 0 off); [|lia].
  destruct (Z.leb_spec (off + Z.of_nat (length bs)) (Z.of_nat (length buf))); [done|lia].
Qed.

Lemma read_at_Some off n buf :
  0 <= off → 0 <= n → off + n <= Z.of_nat (length buf) → read_at off n buf = Some (take (Z.to_nat n) (drop (Z.to_nat off) buf)).
Proof.
  intros H1 H2 H3. unfold read_at. destruct (Z.leb_spec 0 off); [|lia]. destruct (Z.leb_spec 0 n); [|lia].
  destruct (Z.leb_spec (off + n) (Z.of_nat (length buf))); [done|lia].
Qed.

Lemma realloc_length junk n b : 0 <= n → Z.of_nat (length (realloc junk n b)) = n.
Proof. intros Hn. unfold realloc, malloc. rewrite length_app, length_take, length_replicate. lia. Qed.

(** Growing or shrinking a block keeps its beginning. *)
Lemma realloc_take junk n b k : (k <= Z.to_nat n)%nat → (k <= length b)%nat → take k (realloc junk n b) = take k b.
Proof.
  intros H1 H2. unfold realloc. rewrite take_app_le by (rewrite length_take; lia). rewrite take_take. f_equal. lia.
Qed.

(** The string that remains when its first [n] bytes, [l], and a zero behind
    them have been written. *)
Lemma sds_ok_intro z s l n : 0 <= n → n = Z.of_nat (length l) → n <= sdsalloc s → sdsalloc s < 2 ^ type_bits (s_type s) →
  s_len s = n → sdsalloc s < Z.of_nat (length (s_buf s)) → take (S (Z.to_nat n)) (s_buf s) = l ++ [z] →
  sds_at z s ∧ content s = l.
Proof.
  intros Hn Hl Ha Hty Hlen Hb Ht. split.
  - split; [lia|done|done|]. rewrite Hlen, <- (lookup_take_lt _ (S (Z.to_nat n))) by lia. rewrite Ht.
    rewrite lookup_app_r by lia. replace (Z.to_nat n - length l)%nat with O by lia. done.
  - unfold content. rewrite Hlen. replace (Z.to_nat n) with (min (Z.to_nat n) (S (Z.to_nat n))) by lia.
    rewrite <- take_take, Ht, take_app_le by lia. apply take_ge. lia.
Qed.

Lemma take_content {z} s : sds_at z s → take (S (Z.to_nat (s_len s))) (s_buf s) = content s ++ [z].
Proof. intros [_ _ _ Hz]. unfold content. by apply take_S_r. Qed.

Section props.
Context (junk : Z).

(** ** Creation *)

Lemma set_both ty n b : 0 <= n < 2 ^ type_bits ty →
  let s := sdssetalloc (sdssetlen (mk_sds ty 0 0 b) n) n in
  s_type s = ty ∧ s_len s = n ∧ sdsalloc s = n ∧ s_buf s = b.
Proof.
  intros Hn. unfold sdssetalloc, sdssetlen, sdsalloc. simpl. rewrite (Z.mod_small n) by lia.
  destruct ty; simpl in *; rewrite ?Z.mod_small by lia; done.
Qed.

(** [sdsnewlen] copies the first [n] bytes. *)
Lemma sdsnewlen_ok l n : 0 <= n <= Z.of_nat (length l) → n < 2 ^ 63 →
  ∃ s, sdsnewlen junk true (Some l) n = Some (Some s) ∧ sds_ok s ∧ content s = take (Z.to_nat n) l ∧ sdsalloc s = n.
Proof.
  intros Hn Hb. unfold sdsnewlen. cbn [negb].
  set (ty := match sdsReqType n with SDS_TYPE_5 => _ | t => t end).
  assert (Hty : n < 2 ^ type_bits ty).
  { pose proof (req_type_fits n ltac:(lia)) as Hf. unfold ty. destruct (sdsReqType n); [|done..].
    destruct (Z.eqb_spec n 0); simpl in *; lia. }
  rewrite block_eq by lia. pose proof (set_both ty n (malloc junk (n + 1)) ltac:(lia)) as (Ht & Hl & Ha & Hbuf).
  set (s := sdssetalloc _ n) in *. 
  assert (Hlen : Z.of_nat (length (s_buf s)) = n + 1) by (rewrite Hbuf; unfold malloc; rewrite length_replicate; lia).
  set (bs := take (Z.to_nat n) l). assert (Hbs : Z.of_nat (length bs) = n) by (unfold bs; rewrite length_take; lia).
  assert (Hfill : ∃ s1, (if n =? 0 then Some s else match read_at 0 n l with Some bs => poke s 0 bs | None => None end) = Some s1 ∧
    s1 = mk_sds (s_type s) (s_len s) (s_alloc s) (bs ++ drop (length bs) (s_buf s))).
  { destruct (Z.eqb_spec n 0) as [E|E].
    - exists s. split; [done|]. assert (bs = []) as -> by (apply length_zero_iff_nil; lia). by destruct s.
    - rewrite read_at_Some by lia. change (Z.to_nat 0) with O. rewrite drop_0. fold bs. unfold poke.
      rewrite write_at_Some by lia. by eexists. }
  destruct Hfill as (s1 & -> & ->). unfold poke. cbn [s_buf s_type s_len s_alloc].
  assert (Hl1 : Z.of_nat (length (bs ++ drop (length bs) (s_buf s))) = n + 1) by (rewrite length_app, length_drop; lia).
  rewrite write_at_Some by (simpl; lia). eexists. split; [done|].
  set (b := take _ _ ++ _). assert (Hal : ∀ b', sdsalloc (mk_sds (s_type s) (s_len s) (s_alloc s) b') = n) by (intros b'; exact Ha).
  assert (Htk : take (Z.to_nat n) (bs ++ drop (length bs) (s_buf s)) = bs) by (rewrite take_app_le by lia; apply take_ge; lia).
  assert (Hb1 : take (S (Z.to_nat n)) b = bs ++ [0]).
  { unfold b. rewrite Htk. rewrite app_assoc, take_app_le by (rewrite length_app; simpl; lia). apply take_ge.
    rewrite length_app. simpl. lia. }
  assert (Hb2 : Z.of_nat (length b) = n + 1) by (unfold b; rewrite Htk, !length_app, length_drop; simpl; lia).
  destruct (sds_ok_intro 0 (mk_sds (s_type s) (s_len s) (s_alloc s) b) bs n) as [Hok Hc];
    [lia|lia|rewrite Hal; lia|rewrite Hal; cbn [s_type]; by rewrite Ht|exact Hl|rewrite Hal; cbn [s_buf]; lia|exact Hb1|].
  split_and!; [done|done|apply Hal].
Qed.

(** ** Making room *)

Lemma move_to_ok {z} s ty n :
  sds_at z s → s_len s <= n < 2 ^ 63 + 2 ^ 61 → n < 2 ^ type_bits ty →
  ∃ s', move_to junk true s ty n = Some (Some s') ∧ sds_at z s' ∧ content s' = content s ∧
    (ty ≠ SDS_TYPE_5 → sdsalloc s' = n) ∧ s_type s' = ty.
Proof.
  intros Hok Hn Hty. unfold move_to. cbn [negb]. rewrite block_eq by (pose proof (so_len _ Hok); lia).
  pose proof (so_len _ Hok) as Hl. pose proof (so_block _ Hok) as Hb. pose proof (content_length _ Hok) as Hcl.
  pose proof (take_content s Hok) as Htc. destruct (decide (s_type s = ty)) as [<-|Hne].
  - eexists. split; [done|].
    set (b := realloc junk (n + 1) (s_buf s)). set (s' := sdssetalloc _ _).
    assert (Hf : s_type s' = s_type s ∧ s_len s' = s_len s ∧ s_buf s' = b ∧
      sdsalloc s' = if decide (s_type s = SDS_TYPE_5) then s_len s else n).
    { unfold s', sdssetalloc, sdsalloc. simpl. destruct (s_type s); simpl in *; rewrite ?Z.mod_small by lia; done. }
    destruct Hf as (Ht & Hlen & Hbuf & Hal).
    destruct (sds_ok_intro z s' (content s) (s_len s)) as [Hok' Hc];
      [lia|done|rewrite Hal; case_decide; lia|rewrite Hal, Ht; case_decide; [pose proof (so_alloc _ Hok); lia|done]|done| | |].
    + rewrite Hal, Hbuf. pose proof (realloc_length junk (n + 1) (s_buf s) ltac:(lia)). unfold b. case_decide; lia.
    + rewrite Hbuf. unfold b. rewrite realloc_take by lia. done.
    + split_and!; [done|done| |done]. intros Hne. rewrite Hal. by rewrite decide_False.
  - unfold sdslen. rewrite read_at_Some by lia. change (Z.to_nat 0) with O. rewrite drop_0.
    replace (Z.to_nat (s_len s + 1)) with (S (Z.to_nat (s_len s))) by lia. rewrite Htc.
    assert (Hm : Z.of_nat (length (malloc junk (n + 1))) = n + 1) by (unfold malloc; rewrite length_replicate; lia).
    rewrite write_at_Some by (rewrite ?length_app; simpl; lia). eexists. split; [done|]. simpl.
    set (b := (content s ++ [z]) ++ _). set (s' := sdssetalloc _ _).
    assert (Hf : s_type s' = ty ∧ s_len s' = s_len s ∧ s_buf s' = b ∧ sdsalloc s' = if decide (ty = SDS_TYPE_5) then s_len s else n).
    { unfold s', sdssetalloc, sdsalloc, sdssetlen. simpl. destruct ty; simpl in *; rewrite ?Z.mod_small by lia; done. }
    destruct Hf as (Ht & Hlen & Hbuf & Hal).
    destruct (sds_ok_intro z s' (content s) (s_len s)) as [Hok' Hc];
      [lia|done|rewrite Hal; case_decide; lia|rewrite Hal, Ht; case_decide; lia|done| | |].
    + rewrite Hal, Hbuf. unfold b. rewrite ?length_app, ?length_drop, ?length_app. simpl. case_decide; lia.
    + rewrite Hbuf. unfold b. rewrite take_app_le by (rewrite length_app; simpl; lia). apply take_ge. rewrite length_app. simpl. lia.
    + split_and!; [done|done| |done]. intros Hne'. rewrite Hal. by rewrite decide_False.
Qed.

(** [sdsMakeRoomFor] keeps the content and leaves room for [addlen] bytes. *)
Lemma sdsMakeRoomFor_ok {z} s addlen :
  sds_at z s → 0 <= addlen → s_len s + addlen < 2 ^ 63 →
  ∃ s', sdsMakeRoomFor junk true s addlen = Some (Some s') ∧ sds_at z s' ∧ content s' = content s ∧
    s_len s + addlen <= sdsalloc s'.
Proof.
  intros Hok Ha Hb. pose proof (so_len _ Hok) as Hl. pose proof (so_alloc _ Hok) as Hal. unfold sdsMakeRoomFor.
  rewrite Z.geb_leb. destruct (Z.leb_spec addlen (sdsavail s)) as [Hav|Hav].
  - exists s. split_and!; [done|done|done|]. revert Hav Hl Hal. unfold sdsavail, sdsalloc.
    pose proof (type_bits_pos (s_type s)). destruct (s_type s); simpl; intros; rewrite ?to_size_t_id in Hav by lia; lia.
  - unfold sdslen, SDS_MAX_PREALLOC. rewrite (to_size_t_id (s_len s + addlen)) by lia.
    set (newlen := if _ <? _ then _ else _).
    assert (Hnl : s_len s + addlen <= newlen < 2 ^ 63 + 2 ^ 61).
    { unfold newlen. destruct (Z.ltb_spec (s_len s + addlen) (1024 * 1024)); rewrite to_size_t_id by lia; lia. }
    destruct (at_least_8 newlen ltac:(lia)) as [Hty Hne].
    destruct (move_to_ok s _ newlen Hok ltac:(lia) Hty) as (s' & -> & Hok' & Hc & Hal' & _).
    exists s'. split_and!; [done|done|done|]. rewrite (Hal' Hne). lia.
Qed.

(** ** Writing into a string *)

Lemma poke_setlen s n off bs : poke (sdssetlen s n) off bs = (λ s, sdssetlen s n) <$> poke s off bs.
Proof. unfold poke, sdssetlen. simpl. by destruct (write_at off bs (s_buf s)). Qed.

(** Writing [bs] and a zero at an offset inside of the string and cutting it
    there. *)
Lemma put_ok s off bs :
  sds_ok s → 0 <= off <= s_len s → off + Z.of_nat (length bs) <= sdsalloc s →
  ∃ s1 s2, poke s off bs = Some s1 ∧ poke s1 (off + Z.of_nat (length bs)) [0] = Some s2 ∧
    let s3 := sdssetlen s2 (off + Z.of_nat (length bs)) in
    sds_ok s3 ∧ content s3 = take (Z.to_nat off) (content s) ++ bs.
Proof.
  intros Hok Hoff Hroom. destruct Hok as [Hl Hal Hb _]. set (n := off + Z.of_nat (length bs)) in *. unfold poke.
  rewrite write_at_Some by lia. set (b1 := take (Z.to_nat off) (s_buf s) ++ bs ++ drop (Z.to_nat off + length bs) (s_buf s)).
  assert (Hb1 : length b1 = length (s_buf s)) by (unfold b1; rewrite !length_app, length_take, length_drop; lia).
  assert (Ht1 : take (Z.to_nat n) b1 = take (Z.to_nat off) (s_buf s) ++ bs).
  { unfold b1. rewrite app_assoc, take_app_le by (rewrite length_app, length_take; lia). apply take_ge. rewrite length_app, length_take. lia. }
  set (b2 := take (Z.to_nat n) b1 ++ [0] ++ drop (Z.to_nat n + 1) b1).
  assert (Hb2 : length b2 = length (s_buf s)) by (unfold b2; rewrite !length_app, length_take, length_drop; simpl; lia).
  exists (mk_sds (s_type s) (s_len s) (s_alloc s) b1), (mk_sds (s_type s) (s_len s) (s_alloc s) b2).
  split; [done|]. cbn [s_buf s_type s_len s_alloc]. rewrite write_at_Some by (simpl; lia). split; [done|].
  assert (Hc : take (Z.to_nat off) (content s) = take (Z.to_nat off) (s_buf s)).
  { unfold content. rewrite take_take. f_equal. lia. }
  apply (sds_ok_intro 0 _ _ n); unfold sdssetlen, sdsalloc in *; cbn [s_type s_len s_alloc s_buf] in *.
  - lia.
  - rewrite length_app, Hc, length_take. lia.
  - rewrite Z.mod_small by lia. destruct (s_type s); lia.
  - rewrite Z.mod_small by lia. destruct (s_type s); lia.
  - apply Z.mod_small. lia.
  - rewrite Hb2, Z.mod_small by lia. destruct (s_type s); lia.
  - unfold b2. rewrite Hc, Ht1. rewrite app_assoc, take_app_le by (rewrite !length_app, length_take; simpl; lia).
    apply take_ge. rewrite !length_app, length_take. simpl. lia.
Qed.

(** ** The operations on the content *)

Lemma content_len s s' : sds_ok s → sds_ok s' → content s' = content s → s_len s' = s_len s.
Proof. intros H1 H2 Hc. rewrite <- (content_length s H1), <- (content_length s' H2). by rewrite Hc. Qed.

Lemma take_content_all s : sds_ok s → take (Z.to_nat (s_len s)) (content s) = content s.
Proof. intros Hok. apply take_ge. pose proof (content_length s Hok). lia. Qed.

Lemma sdscatlen_ok s bs :
  sds_ok s → s_len s + Z.of_nat (length bs) < 2 ^ 63 →
  ∃ s', sdscatlen junk true s bs = Some (Some s') ∧ sds_ok s' ∧ content s' = content s ++ bs.
Proof.
  intros Hok Hb. pose proof (so_len _ Hok) as Hl. unfold sdscatlen.
  destruct (sdsMakeRoomFor_ok s (Z.of_nat (length bs)) Hok) as (s1 & -> & Hok1 & Hc & Hroom); [lia|done|].
  pose proof (content_len _ _ Hok Hok1 Hc) as Hlen. unfold sdslen. rewrite to_size_t_id by lia.
  destruct (put_ok s1 (s_len s) bs Hok1) as (s2 & s3 & -> & Hp & Hok3 & Hc3); [lia|lia|].
  rewrite poke_setlen, Hp. simpl. eexists. split; [done|]. split; [done|]. rewrite Hc3, Hc, take_content_all by done. done.
Qed.

Lemma sdscpylen_ok s bs :
  sds_ok s → Z.of_nat (length bs) < 2 ^ 63 →
  ∃ s', sdscpylen junk true s bs = Some (Some s') ∧ sds_ok s' ∧ content s' = bs.
Proof.
  intros Hok Hb. pose proof (so_len _ Hok) as Hl. unfold sdscpylen.
  assert (Hroom : ∃ s1, (if sdsalloc s <? Z.of_nat (length bs) then sdsMakeRoomFor junk true s (Z.of_nat (length bs) - sdslen s)
    else Some (Some s)) = Some (Some s1) ∧ sds_ok s1 ∧ Z.of_nat (length bs) <= sdsalloc s1).
  { destruct (Z.ltb_spec (sdsalloc s) (Z.of_nat (length bs))) as [H|H]; [|by exists s].
    unfold sdslen. destruct (sdsMakeRoomFor_ok s (Z.of_nat (length bs) - s_len s) Hok) as (s1 & -> & Hok1 & _ & Hr); [lia|lia|].
    exists s1. split_and!; [done|done|lia]. }
  destruct Hroom as (s1 & -> & Hok1 & Hr). pose proof (so_len _ Hok1).
  destruct (put_ok s1 0 bs Hok1) as (s2 & s3 & -> & Hp & Hok3 & Hc3); [lia|lia|].
  rewrite Z.add_0_l in Hp, Hok3, Hc3. rewrite Hp. eexists. split; [done|]. by split.
Qed.

Lemma sdsgrowzero_ok s n :
  sds_ok s → n < 2 ^ 63 →
  ∃ s', sdsgrowzero junk true s n = Some (Some s') ∧ sds_ok s' ∧
    content s' = content s ++ replicate (Z.to_nat (n - s_len s)) 0.
Proof.
  intros Hok Hb. pose proof (so_len _ Hok) as Hl. unfold sdsgrowzero, sdslen. destruct (Z.leb_spec n (s_len s)) as [H|H].
  - exists s. split_and!; [done|done|]. replace (Z.to_nat (n - s_len s)) with O by lia. by rewrite app_nil_r.
  - destruct (sdsMakeRoomFor_ok s (n - s_len s) Hok) as (s1 & -> & Hok1 & Hc & Hroom); [lia|lia|].
    pose proof (content_len _ _ Hok Hok1 Hc) as Hlen. set (z := replicate (Z.to_nat (n - s_len s)) 0).
    assert (Hz : Z.of_nat (length z) = n - s_len s) by (unfold z; rewrite length_replicate; lia).
    destruct (put_ok s1 (s_len s) z Hok1) as (s2 & s3 & Hp1 & Hp2 & Hok3 & Hc3); [lia|lia|].
    rewrite Hz in Hp2, Hok3, Hc3. replace (s_len s + (n - s_len s)) with n in * by lia.
    assert (Hpoke : poke s1 (s_len s) (replicate (Z.to_nat (n - s_len s + 1)) 0) = Some s3).
    { revert Hp1 Hp2. unfold poke. pose proof (so_block _ Hok1). rewrite write_at_Some by lia. intros [= <-]. simpl.
      replace (replicate (Z.to_nat (n - s_len s + 1)) 0) with (z ++ [0])
        by (unfold z; rewrite <- replicate_S_end; f_equal; lia).
      rewrite !write_at_Some by (rewrite ?length_app, ?length_take, ?length_drop, ?length_app; simpl; lia).
      intros [= <-]. do 2 f_equal. set (t0 := take (Z.to_nat (s_len s)) (s_buf s1)).
      assert (Ht0 : Z.of_nat (length t0) = s_len s) by (unfold t0; rewrite length_take; lia).
      set (D := drop (Z.to_nat (s_len s) + length z) (s_buf s1)).
      assert (take (Z.to_nat n) (t0 ++ z ++ D) = t0 ++ z) as ->
        by (rewrite app_assoc; apply take_app_length'; rewrite length_app; lia).
      assert (drop (Z.to_nat n + 1) (t0 ++ z ++ D) = drop (Z.to_nat (s_len s) + length (z ++ [0])) (s_buf s1)) as ->.
      { rewrite app_assoc, drop_app_ge by (rewrite length_app; simpl; lia). unfold D. rewrite drop_drop. f_equal.
        rewrite !length_app. simpl. lia. }
      by rewrite <- !app_assoc. }
    rewrite Hpoke. eexists. split; [done|]. split; [done|]. rewrite Hc3, Hc, take_content_all by done. done.
Qed.

Lemma sdsclear_ok s : sds_ok s → ∃ s', sdsclear s = Some s' ∧ sds_ok s' ∧ content s' = [].
Proof.
  intros Hok. pose proof (so_len _ Hok). unfold sdsclear.
  destruct (put_ok s 0 [] Hok) as (s1 & s2 & Hp1 & Hp2 & Hok2 & Hc2); [lia|simpl; lia|].
  assert (s1 = s) as ->.
  { pose proof (so_block _ Hok). revert Hp1. unfold poke. rewrite write_at_Some by (simpl; lia). intros [= <-].
    destruct s. simpl. by rewrite drop_0. }
  change (0 + Z.of_nat (length [])) with 0 in *. rewrite poke_setlen, Hp2. simpl. eexists. by split_and!.
Qed.

Lemma sdsdup_ok s : sds_ok s → s_len s < 2 ^ 63 → ∃ s', sdsdup junk true s = Some (Some s') ∧ sds_ok s' ∧ content s' = content s.
Proof.
  intros Hok Hb. pose proof (so_len _ Hok). pose proof (so_block _ Hok). unfold sdsdup, sdslen.
  destruct (sdsnewlen_ok (s_buf s) (s_len s)) as (s' & -> & Hok' & Hc & _); [lia|done|]. by exists s'.
Qed.

Lemma sdsRemoveFreeSpace_ok s :
  sds_ok s → s_len s < 2 ^ 63 → ∃ s', sdsRemoveFreeSpace junk true s = Some (Some s') ∧ sds_ok s' ∧ content s' = content s ∧
    sdsalloc s' = s_len s.
Proof.
  intros Hok Hb. pose proof (so_len _ Hok). unfold sdsRemoveFreeSpace, sdslen.
  destruct (move_to_ok s (sdsReqType (s_len s)) (s_len s) Hok) as (s' & -> & Hok' & Hc & Hal & Ht);
    [lia|apply req_type_fits; lia|]. exists s'. split_and!; [done|done|done|].
  destruct (decide (sdsReqType (s_len s) = SDS_TYPE_5)) as [E|E]; [|by apply Hal].
  unfold sdsalloc. rewrite Ht, E. by apply content_len.
Qed.
End props.

(** ** Ranges *)

(** The substring between two indexes, where negative ones count from the
    end; an index before the beginning means the beginning. *)
Definition from_end (len i : Z) : Z := if i <? 0 then Z.max 0 (len + i) else i.
Definition range (start end_ : Z) (l : list Z) : list Z :=
  let len := Z.of_nat (length l) in
  let s := from_end len start in
  let e := Z.min (from_end len end_) (len - 1) in
  take (Z.to_nat (e - s + 1)) (drop (Z.to_nat s) l).

(** The length of a range is computed as an [int]: it overflows for the whole
    range of an [int] only, and then not to 0. *)
Lemma range_length_wraps a z : 0 <= a <= z → z <= 2 ^ 31 - 1 →
  to_size_t (to_int (z - a + 1)) ≠ 0 ∧ (z < 2 ^ 31 - 1 → to_size_t (to_int (z - a + 1)) = z - a + 1).
Proof.
  intros Ha Hz. destruct (decide (z - a + 1 = 2 ^ 31)) as [E|Hne]; [rewrite E; split; [done|lia]|].
  rewrite to_int_id by (unfold in_int, INT_MIN, INT_MAX; lia). unfold to_size_t. rewrite Z.mod_small by lia. split; lia.
Qed.

Lemma sdsrange_ok s start end_ :
  sds_ok s → s_len s <= INT_MAX → in_int start → in_int end_ →
  ∃ s', sdsrange s start end_ = Some s' ∧ sds_ok s' ∧ content s' = range start end_ (content s).
Proof.
  intros Hok Hmax Hs He. pose proof (so_len _ Hok) as Hl. pose proof (so_block _ Hok) as Hbl.
  pose proof (content_length _ Hok) as Hcl. unfold sdsrange, sdslen, range. rewrite Hcl.
  unfold in_int, INT_MIN, INT_MAX in *. destruct (Z.eqb_spec (s_len s) 0) as [H0|H0].
  { exists s. split_and!; [done|done|]. assert (content s = []) as -> by (apply length_zero_iff_nil; lia). by rewrite drop_nil, take_nil. }
  assert (Hfe : ∀ i, - 2 ^ 31 <= i <= 2 ^ 31 - 1 → (if i <? 0 then let x := to_int (s_len s + i) in if x <? 0 then 0 else x else i) = from_end (s_len s) i).
  { intros i Hi. unfold from_end. destruct (Z.ltb_spec i 0); [|done].
    rewrite to_int_id by (unfold in_int, INT_MIN, INT_MAX; lia). simpl. case_if; bool_to_prop; lia. }
  rewrite !Hfe by done. rewrite (to_int_id (s_len s)), (to_int_id (s_len s - 1)) by (unfold in_int, INT_MIN, INT_MAX; lia).
  set (a := from_end (s_len s) start). set (z := from_end (s_len s) end_).
  assert (Ha : 0 <= a) by (unfold a, from_end; case_if; bool_to_prop; lia).
  assert (Hz : 0 <= z) by (unfold z, from_end; case_if; bool_to_prop; lia).
  set (e := Z.min z (s_len s - 1)).
  assert (Hz2 : z <= 2 ^ 31 - 1) by (unfold z, from_end; case_if; bool_to_prop; lia).
  pose proof (range_length_wraps a z) as Hwrap.
  (* the number of bytes kept, and where they start *)
  assert (Hcase : ∃ a' n, (if negb ((if a >? z then 0 else to_size_t (to_int (z - a + 1))) =? 0)
      then if a >=? s_len s then (a, 0)
           else if z >=? s_len s then (a, if a >? s_len s - 1 then 0 else s_len s - 1 - a + 1)
           else (a, if a >? z then 0 else to_size_t (to_int (z - a + 1)))
      else (0, if a >? z then 0 else to_size_t (to_int (z - a + 1)))) = (a', n) ∧ n = Z.max 0 (e - a + 1) ∧ (n = 0 ∨ a' = a) ∧ 0 <= a').
  { unfold e. destruct (Z.gtb_spec a z); simpl.
    - exists 0, 0. split_and!; [done|lia|by left|done].
    - destruct Hwrap as [Hnz Hid]; [lia|lia|]. destruct (Z.eqb_spec (to_size_t (to_int (z - a + 1))) 0); [lia|]. simpl. rewrite !Z.geb_leb. destruct (Z.leb_spec (s_len s) a).
      + exists a, 0. split_and!; [done|lia|by left|done].
      + destruct (Z.leb_spec (s_len s) z); [destruct (Z.gtb_spec a (s_len s - 1)); [lia|]|rewrite Hid by lia]; eexists _, _; split_and!; try done; try lia; by right. }
  destruct Hcase as (a' & n & Hpair & Hn & Hor & Ha'). cbn zeta in Hpair |- *. rewrite Hpair. clear Hpair.
  assert (Hkeep : take (Z.to_nat (e - a + 1)) (drop (Z.to_nat a) (content s)) = take (Z.to_nat n) (drop (Z.to_nat a) (content s)))
    by (f_equal; lia). rewrite Hkeep.
  assert (Hrange : n = 0 ∨ a + n <= s_len s) by (unfold e in *; lia).
  set (bs := take (Z.to_nat n) (drop (Z.to_nat a) (content s))).
  assert (Hbs : Z.of_nat (length bs) = n) by (unfold bs; rewrite length_take, length_drop; lia).
  destruct (put_ok s 0 bs Hok) as (s1 & s2 & Hp1 & Hp2 & Hok2 & Hc2); [lia|lia|]. rewrite Z.add_0_l, Hbs in Hc2, Hok2, Hp2.
  destruct (Z.eqb_spec n 0) as [Hn0|Hn0].
  - rewrite andb_false_r. assert (bs = []) as Hb0 by (apply length_zero_iff_nil; lia). rewrite Hb0 in *.
    assert (s1 = s) as ->.
    { revert Hp1. unfold poke. rewrite write_at_Some by (simpl; lia). intros [= <-]. destruct s. simpl. by rewrite drop_0. }
    rewrite Hp2. eexists. by split_and!.
  - rewrite andb_true_r. destruct Hor as [?| ->]; [done|]. destruct Hrange as [|Hrange]; [done|].
    assert (Hcont : bs = take (Z.to_nat n) (drop (Z.to_nat a) (s_buf s))).
    { unfold bs, content. rewrite skipn_firstn_comm, take_take. f_equal. lia. }
    destruct (Z.eqb_spec a 0) as [->|Ha0]; simpl.
    + assert (s1 = s) as ->.
      { revert Hp1. unfold poke. rewrite write_at_Some by lia. intros [= <-]. destruct s as [ty len al b]. f_equal. simpl in *.
        rewrite Hcont, drop_0. replace (length _) with (Z.to_nat n) by (rewrite length_take; lia). apply take_drop. }
      rewrite Hp2. eexists. by split_and!.
    + rewrite read_at_Some by lia. rewrite <- Hcont, Hp1, Hp2. eexists. by split_and!.
Qed.
(** [sdsIncrLen] with a negative increment cuts bytes off at the end. *)
Lemma sdsIncrLen_cut s incr :
  sds_ok s → - s_len s <= incr < 0 →
  ∃ s', sdsIncrLen s incr = Some s' ∧ sds_ok s' ∧ content s' = take (Z.to_nat (s_len s + incr)) (content s).
Proof.
  intros Hok Hi. pose proof (so_len _ Hok) as Hl. pose proof (so_alloc _ Hok) as Ha. unfold sdsIncrLen.
  assert ((match s_type s with
    | SDS_TYPE_5 => (incr >? 0) && (s_len s + incr <? 32) || (incr <? 0) && (s_len s >=? - incr)
    | _ => (incr >=? 0) && (s_alloc s - s_len s >=? incr) || (incr <? 0) && (s_len s >=? - incr) end) = true) as ->.
  { rewrite !Z.geb_leb. destruct (Z.leb_spec (- incr) (s_len s)); [|lia]. destruct (Z.ltb_spec incr 0); [|lia].
    by destruct (s_type s); rewrite orb_true_r. }
  destruct (put_ok s (s_len s + incr) [] Hok) as (s1 & s2 & Hp1 & Hp2 & Hok2 & Hc2); [lia|simpl; lia|].
  assert (s1 = s) as ->.
  { pose proof (so_block _ Hok). revert Hp1. unfold poke. rewrite write_at_Some by (simpl; lia). intros [= <-].
    destruct s. simpl. f_equal. rewrite Nat.add_0_r. apply take_drop. }
  change (Z.of_nat (length [])) with 0 in *. rewrite Z.add_0_r in *. rewrite app_nil_r in Hc2.
  assert (s_len (sdssetlen s (s_len s + incr)) = s_len s + incr) as ->.
  { unfold sdssetlen. simpl. apply Z.mod_small. lia. }
  rewrite poke_setlen, Hp2. simpl. eexists. by split_and!.
Qed.

(** ** Sequences of operations *)

Inductive sds_op :=
  | op_cat (bs : list Z)
  | op_cpy (bs : list Z)
  | op_range (start end_ : Z)
  | op_grow (n : Z)
  | op_room (n : Z)
  | op_clear
  | op_dup
  | op_shrink.

Section trace.
Context (junk : Z).

Definition sds_step (o : sds_op) (s : sds) : option (option sds) :=
  match o with
  | op_cat bs => sdscatlen junk true s bs
  | op_cpy bs => sdscpylen junk true s bs
  | op_range i j => match sdsrange s i j with Some s' => Some (Some s') | None => None end
  | op_grow n => sdsgrowzero junk true s n
  | op_room n => sdsMakeRoomFor junk true s n
  | op_clear => match sdsclear s with Some s' => Some (Some s') | None => None end
  | op_dup => sdsdup junk true s
  | op_shrink => sdsRemoveFreeSpace junk true s
  end.

Fixpoint sds_run (os : list sds_op) (s : sds) : option (option sds) :=
  match os with
  | [] => Some (Some s)
  | o :: os' => match sds_step o s with Some (Some s') => sds_run os' s' | r => r end
  end.

(** The same on a list of bytes. *)
Definition bytes_step (o : sds_op) (l : list Z) : list Z :=
  match o with
  | op_cat bs => l ++ bs
  | op_cpy bs => bs
  | op_range i j => range i j l
  | op_grow n => l ++ replicate (Z.to_nat (n - Z.of_nat (length l))) 0
  | op_clear => []
  | op_room _ | op_dup | op_shrink => l
  end.

(** How many bytes an operation can add, and what its arguments can be. *)
Definition op_size (o : sds_op) : Z :=
  match o with op_cat bs | op_cpy bs => Z.of_nat (length bs) | op_grow n => Z.max 0 n | _ => 0 end.
Definition op_valid (o : sds_op) : Prop :=
  match o with
  | op_range i j => in_int i ∧ in_int j
  | op_grow n => n < 2 ^ 63
  | op_room n => 0 <= n < 2 ^ 62
  | _ => True
  end.

Lemma sds_step_ok o s : sds_ok s → s_len s + op_size o <= INT_MAX → op_valid o →
  ∃ s', sds_step o s = Some (Some s') ∧ sds_ok s' ∧ content s' = bytes_step o (content s).
Proof.
  intros Hok Hb Hv. pose proof (so_len _ Hok). pose proof (content_length _ Hok) as Hc. unfold INT_MAX in Hb.
  destruct o as [bs|bs|i j|n|n| | |]; simpl in *.
  - apply sdscatlen_ok; [done|lia].
  - apply sdscpylen_ok; [done|lia].
  - destruct (sdsrange_ok s i j Hok) as (s' & -> & ? & ?); [unfold INT_MAX; lia|tauto|tauto|]. by exists s'.
  - rewrite Hc. apply sdsgrowzero_ok; done.
  - destruct (sdsMakeRoomFor_ok junk s n Hok) as (s' & ? & ? & ? & _); [lia|lia|]. by exists s'.
  - destruct (sdsclear_ok s Hok) as (s' & -> & ? & ?). by exists s'.
  - apply sdsdup_ok; [done|lia].
  - destruct (sdsRemoveFreeSpace_ok junk s Hok) as (s' & ? & ? & ? & _); [lia|]. by exists s'.
Qed.

Lemma bytes_step_length o l :
  Z.of_nat (length (bytes_step o l)) <= Z.of_nat (length l) + op_size o.
Proof.
  destruct o as [bs|bs|i j|n|n| | |]; simpl; rewrite ?length_app, ?length_replicate; try lia.
  unfold range. rewrite length_take, length_drop. lia.
Qed.

(** C24: any sequence of operations on an empty string, of at most 2 GiB in all,
    does to its content what the operations do to a list of bytes; every
    access is inside of the block, the length and the room always fit the
    header, and the terminating zero is in place. *)
Theorem sds_refines_bytes os :
  Forall op_valid os → foldr Z.add 0 (op_size <$> os) <= INT_MAX →
  ∃ s0 s, sdsempty junk true = Some (Some s0) ∧ sds_run os s0 = Some (Some s) ∧ sds_ok s ∧
    content s = foldl (λ l o, bytes_step o l) [] os.
Proof.
  intros Hv Hb. destruct (sdsnewlen_ok junk [] 0) as (s0 & Hs0 & Hok0 & Hc0 & _); [done|done|].
  exists s0. rewrite take_nil in Hc0. rewrite <- Hc0.
  assert (Hb0 : s_len s0 + foldr Z.add 0 (op_size <$> os) <= INT_MAX) by (rewrite <- (content_length _ Hok0), Hc0; simpl; lia).
  clear Hb. cut (∃ s, sds_run os s0 = Some (Some s) ∧ sds_ok s ∧ content s = foldl (λ l o, bytes_step o l) (content s0) os).
  { intros (s & H1 & H2 & H3). exists s. split_and!; [exact Hs0|done..]. }
  clear Hs0 Hc0. revert s0 Hok0 Hb0. induction Hv as [|o os Ho Hv IH]; intros s0 Hok0 Hb0; [by exists s0|].
  rewrite fmap_cons in Hb0. cbn [foldr] in Hb0. cbn [sds_run foldl].
  assert (Hpos : 0 <= foldr Z.add 0 (op_size <$> os)).
  { clear. induction os as [|o os IH]; [done|]. rewrite fmap_cons. cbn [foldr].
    assert (0 <= op_size o) by (destruct o; simpl; lia). lia. }
  destruct (sds_step_ok o s0 Hok0 ltac:(lia) Ho) as (s1 & -> & Hok1 & Hc1). rewrite <- Hc1. apply IH; [done|].
  rewrite <- (content_length _ Hok1), Hc1. pose proof (bytes_step_length o (content s0)). rewrite (content_length _ Hok0) in *. lia.
Qed.
End trace.

(** Three hundred bytes appended, of which the last two are kept, and two more. *)
Definition example_string : list sds_op := [op_cat (replicate 300 65); op_cat [66]; op_range (-2) (-1); op_shrink; op_cat [13; 10]].

Lemma sds_refines_bytes_witness :
  ∃ s0 s, sdsempty 170 true = Some (Some s0) ∧ sds_run 170 example_string s0 = Some (Some s) ∧ content s = [65; 66; 13; 10] ∧ s_type s = SDS_TYPE_8.
Proof.
  destruct (sds_refines_bytes 170 example_string) as (s0 & s & H0 & H & _ & Hc);
    [repeat constructor; unfold in_int, INT_MIN, INT_MAX; lia|vm_compute; discriminate|].
  exists s0, s. split; [exact H0|]. split; [exact H|]. split; [rewrite Hc; vm_compute; reflexivity|].
  vm_compute in H0. injection H0 as <-. vm_compute in H. injection H as <-. reflexivity.
Defined.
