(* ===== verification/Numbers.v ===== *)
(** * Numbers as strings: sdsll2str and sdsull2str of sds.c, string2ll of read.c, countDigits of hiredis.c

    The decimal representations the client sends and parses.  Characters are
    their codes.  [string2ll] accepts exactly the strings [sdsll2str] prints. *)

From S2P Require Import Prelude Sds SdsProps.
Local Open Scope Z_scope.

Definition LLONG_MAX : Z := 2 ^ 63 - 1.
Definition LLONG_MIN : Z := - 2 ^ 63.
Definition ULLONG_MAX : Z := 2 ^ 64 - 1.
Definition SDS_LLSTR_SIZE : Z := 21.

Definition char_0 : Z := 48.
Definition char_1 : Z := 49.
Definition char_9 : Z := 57.
Definition char_minus : Z := 45.

(** ** Printing *)

(** [do { *p++ = '0'+(v%10); v /= 10; } while(v);] *)
Fixpoint digit_loop (fuel : nat) (v : Z) : option (list Z) :=
  match fuel with
  | O => None
  | S fuel' =>
    let c := char_0 + v mod 10 in
    if v / 10 =? 0 then Some [c]
    else match digit_loop fuel' (v / 10) with Some l => Some (c :: l) | None => None end
  end.

(** A number of 64 bits has at most 20 digits. *)
Definition digit_fuel : nat := 20.

(** The loop that reverses the string in place: [i] and [j] are the pointers. *)
Definition swap (i j : nat) (l : list Z) : list Z :=
  match l !! i, l !! j with
  | Some x, Some y => <[j := x]> (<[i := y]> l)
  | _, _ => l
  end.

Fixpoint reverse_loop (fuel : nat) (i j : nat) (l : list Z) : list Z :=
  match fuel with
  | O => l
  | S fuel' => if (i <? j)%nat then reverse_loop fuel' (S i) (Nat.pred j) (swap i j l) else l
  end.

Definition reverse_in_place (l : list Z) : list Z := reverse_loop (length l) 0 (Nat.pred (length l)) l.

(** [int sdsll2str(char *s, long long value)]: the bytes of the string; the
    negation wraps around for the smallest number. *)
Definition sdsll2str (value : Z) : option (list Z) :=
  let v := if value <? 0 then to_size_t (- value) else value in
  match digit_loop digit_fuel v with
  | Some l => Some (reverse_in_place (if value <? 0 then l ++ [char_minus] else l))
  | None => None
  end.

(** [int sdsull2str(char *s, unsigned long long v)] *)
Definition sdsull2str (v : Z) : option (list Z) :=
  match digit_loop digit_fuel v with Some l => Some (reverse_in_place l) | None => None end.

(** [static uint32_t countDigits(uint64_t v)] *)
Fixpoint count_loop (fuel : nat) (v result : Z) : option Z :=
  match fuel with
  | O => None
  | S fuel' =>
    if v <? 10 then Some result
    else if v <? 100 then Some (result + 1)
    else if v <? 1000 then Some (result + 2)
    else if v <? 10000 then Some (result + 3)
    else count_loop fuel' (v / 10000) (result + 4)
  end.
Definition countDigits (v : Z) : option Z := count_loop 5 v 1.

(** ** Parsing *)

Definition is_digit (c : Z) : bool := (char_0 <=? c) && (c <=? char_9).

(** The loop over the remaining digits: [None] for an overflow, otherwise the
    value and what was not read. *)
Fixpoint parse_loop (v : Z) (p : list Z) : option (Z * list Z) :=
  match p with
  | [] => Some (v, [])
  | c :: r =>
    if is_digit c then
      if v >? ULLONG_MAX / 10 then None
      else
        let v1 := to_size_t (v * 10) in
        if v1 >? ULLONG_MAX - (c - char_0) then None
        else parse_loop (v1 + (c - char_0)) r
    else Some (v, p)
  end.

(** [int string2ll(const char *s, size_t slen, long long *value)]: [None] is
    [REDIS_ERR]. *)
Definition string2ll (s : list Z) : option Z :=
  match s with
  | [] => None
  | p0 :: rest =>
    if (length s =? 1)%nat && (p0 =? char_0) then Some 0
    else
      let negative := p0 =? char_minus in
      match (if negative then rest else s) with
      | [] => None
      | c :: p =>
        if (char_1 <=? c) && (c <=? char_9) then
          match parse_loop (c - char_0) p with
          | None => None
          | Some (v, unread) =>
            if (0 <? length unread)%nat then None
            else if negative then
              if v >? - (LLONG_MIN + 1) + 1 then None else Some (to_int64 (- v))
            else if v >? LLONG_MAX then None else Some v
          end
        else if (c =? char_0) && (length s =? 1)%nat then Some 0
        else None
      end
  end.

(** ** Decimal representations *)

(** [l] are the digits of [v], the last one first, without leading zeros. *)
Inductive digits : Z → list Z → Prop :=
  | digits_one d : 0 <= d < 10 → digits d [char_0 + d]
  | digits_more a d l : 0 < a → 0 <= d < 10 → digits a l → digits (10 * a + d) (char_0 + d :: l).

Lemma digits_nonneg v l : digits v l → 0 <= v.
Proof. induction 1; lia. Qed.

Lemma digit_loop_digits fuel v : 0 <= v < 10 ^ Z.of_nat fuel → (0 < fuel)%nat →
  ∃ l, digit_loop fuel v = Some l ∧ digits v l ∧ (length l <= fuel)%nat.
Proof.
  revert v. induction fuel as [|fuel IH]; intros v Hv Hf; [lia|]. cbn [digit_loop].
  pose proof (Z.mod_pos_bound v 10 ltac:(lia)) as Hm. pose proof (Z.div_mod v 10 ltac:(lia)) as Hd.
  destruct (Z.eqb_spec (v / 10) 0) as [H0|H0].
  - eexists. split; [done|]. split; [|simpl; lia]. replace v with (v mod 10) at 1 by lia. by constructor.
  - assert (Hq : 0 < v / 10) by (pose proof (Z.div_pos v 10); lia).
    destruct fuel as [|fuel]; [simpl in Hv; lia|].
    destruct (IH (v / 10)) as (l & -> & Hl & Hlen); [|lia|].
    { split; [lia|]. apply Z.div_lt_upper_bound; [lia|]. rewrite <- Z.pow_succ_r, <- Nat2Z.inj_succ by lia. lia. }
    eexists. split; [done|]. split; [|simpl; lia]. replace v with (10 * (v / 10) + v mod 10) at 1 by lia. by constructor.
Qed.

Lemma digits_unique v l1 : digits v l1 → ∀ l2, digits v l2 → l1 = l2.
Proof.
  induction 1 as [d Hd|a d l Ha Hd Hl IH]; intros l2 H2; inversion H2 as [d' Hd'|a' d' l' Ha' Hd' Hl']; subst.
  - done.
  - lia.
  - lia.
  - assert (a' = a ∧ d' = d) as [-> ->] by lia. by rewrite (IH l').
Qed.

Lemma digits_length v l : digits v l → ∀ n, v < 10 ^ Z.of_nat n → (0 < n)%nat → (length l <= n)%nat.
Proof.
  induction 1 as [d Hd|a d l Ha Hd Hl IH]; intros n Hv Hn; simpl; [lia|].
  destruct n as [|[|n]]; [lia|simpl in Hv; lia|]. apply le_n_S, IH; [|lia].
  rewrite (Nat2Z.inj_succ (S n)), Z.pow_succ_r in Hv by lia. lia.
Qed.

(** The value of a string of digits, read from the left after [v]. *)
Definition value (v : Z) (p : list Z) : Z := foldl (λ a c, a * 10 + (c - char_0)) v p.

Lemma value_mono v p : 0 <= v → Forall (λ c, is_digit c = true) p → v <= value v p.
Proof.
  intros Hv Hp. revert v Hv. induction Hp as [|c p Hc Hp IH]; intros v Hv; [done|]. simpl.
  unfold is_digit, char_0, char_9 in *. bool_to_prop. etrans; [|apply IH]; lia.
Qed.

Lemma parse_loop_spec p : ∀ v, 0 <= v <= ULLONG_MAX →
  match parse_loop v p with
  | Some (x, []) => Forall (λ c, is_digit c = true) p ∧ x = value v p ∧ x <= ULLONG_MAX
  | _ => ¬ (Forall (λ c, is_digit c = true) p ∧ value v p <= ULLONG_MAX)
  end.
Proof.
  induction p as [|c p IH]; intros v Hv; cbn [parse_loop]; [split_and!; [by constructor|done|simpl; lia]|].
  destruct (is_digit c) eqn:Ec; [|intros [Hf _]; apply Forall_cons in Hf as [Hf _]; congruence].
  assert (Hcd : 0 <= c - char_0 < 10) by (unfold is_digit, char_0, char_9 in *; bool_to_prop; lia).
  assert (Hbig : ∀ q, ULLONG_MAX < v * 10 + (c - char_0) → ¬ (Forall (λ c, is_digit c = true) (c :: q) ∧ value v (c :: q) <= ULLONG_MAX)).
  { intros q Hb [Hf Hle]. apply Forall_cons in Hf as [_ Hf]. simpl in Hle. pose proof (value_mono (v * 10 + (c - char_0)) q ltac:(lia) Hf). lia. }
  destruct (Z.gtb_spec v (ULLONG_MAX / 10)) as [Hg|Hg].
  { apply Hbig. pose proof (Z.div_mod ULLONG_MAX 10). pose proof (Z.mod_pos_bound ULLONG_MAX 10). lia. }
  assert (Hv10 : v * 10 <= ULLONG_MAX) by (pose proof (Z.mul_div_le ULLONG_MAX 10); lia).
  rewrite to_size_t_id by (unfold ULLONG_MAX in *; lia).
  destruct (Z.gtb_spec (v * 10) (ULLONG_MAX - (c - char_0))) as [Hg2|Hg2]; [apply Hbig; lia|].
  specialize (IH (v * 10 + (c - char_0)) ltac:(lia)). destruct (parse_loop _ p) as [[x [|y unread]]|].
  - destruct IH as (H1 & H2 & H3). split_and!; [by constructor|done|done].
  - intros [Hf Hle]. apply Forall_cons in Hf as [_ Hf]. by apply IH.
  - intros [Hf Hle]. apply Forall_cons in Hf as [_ Hf]. by apply IH.
Qed.

(** A string of digits that does not begin with a zero is the representation
    of its value. *)
Lemma value_digits c p :
  char_1 <= c <= char_9 → Forall (λ c, is_digit c = true) p → digits (value (c - char_0) p) (rev (c :: p)).
Proof.
  intros Hc. induction p as [|d p IH] using rev_ind; intros Hp.
  - assert (rev [c] = [char_0 + (c - char_0)]) as -> by (simpl; f_equal; lia).
    apply digits_one. unfold char_0, char_1, char_9 in *. lia.
  - apply Forall_app in Hp as [Hp Hd]. apply Forall_cons in Hd as [Hd _].
    unfold value. rewrite foldl_app. cbn [foldl]. fold (value (c - char_0) p).
    assert (Hdd : 0 <= d - char_0 < 10) by (unfold is_digit, char_0, char_9 in *; bool_to_prop; lia).
    pose proof (value_mono (c - char_0) p ltac:(unfold char_0, char_1 in *; lia) Hp).
    rewrite app_comm_cons, rev_app_distr. cbn [rev app]. rewrite (Z.mul_comm _ 10).
    assert (d :: rev p ++ [c] = char_0 + (d - char_0) :: rev p ++ [c]) as -> by (f_equal; lia). apply digits_more; [unfold char_0, char_1 in *; lia|done|by apply IH].
Qed.

(** The representation of a positive number, the first digit first. *)
Lemma digits_value v l : digits v l → 0 < v →
  ∃ c p, rev l = c :: p ∧ char_1 <= c <= char_9 ∧ Forall (λ c, is_digit c = true) p ∧ value (c - char_0) p = v.
Proof.
  induction 1 as [d Hd|a d l Ha Hd Hl IH]; intros Hv.
  - exists (char_0 + d), []. unfold char_0, char_1, char_9. simpl. split_and!; [done|lia|lia|done|lia].
  - destruct (IH Ha) as (c & p & Hr & Hc & Hp & Hval). exists c, (p ++ [char_0 + d]). cbn [rev]. rewrite Hr. split_and!; [done|lia|lia| |].
    + apply Forall_app. split; [done|]. apply Forall_singleton. unfold is_digit, char_0, char_9. apply andb_true_iff.
      rewrite !Z.leb_le. lia.
    + unfold value in *. rewrite foldl_app, Hval. simpl. lia.
Qed.

(** ** Reversing in place *)

Lemma swap_ends x y (l1 m l2 : list Z) :
  swap (length l1) (length l1 + S (length m)) (l1 ++ x :: m ++ y :: l2) = l1 ++ y :: m ++ x :: l2.
Proof.
  unfold swap. rewrite list_lookup_middle by done.
  assert (l1 ++ x :: m ++ y :: l2 = (l1 ++ x :: m) ++ y :: l2) as E by (by rewrite <- app_assoc). rewrite E at 1.
  rewrite list_lookup_middle by (rewrite length_app; simpl; lia).
  rewrite <- (Nat.add_0_r (length l1)) at 2. rewrite insert_app_r. cbn [insert list_insert].
  rewrite insert_app_r. simpl. f_equal. f_equal.
  replace (length m) with (length m + 0)%nat by lia. by rewrite insert_app_r.
Qed.

Lemma reverse_loop_spec fuel : ∀ l1 m l2, (length m <= 2 * fuel)%nat →
  reverse_loop fuel (length l1) (Nat.pred (length l1 + length m)) (l1 ++ m ++ l2) = l1 ++ rev m ++ l2.
Proof.
  induction fuel as [|fuel IH]; intros l1 m l2 Hm; cbn [reverse_loop].
  - by destruct m; [|simpl in Hm; lia].
  - destruct m as [|x m]; [simpl; destruct (Nat.ltb_spec (length l1) (Nat.pred (length l1 + 0))); [lia|done]|].
    destruct m as [|y m] using rev_ind.
    { simpl. destruct (Nat.ltb_spec (length l1) (Nat.pred (length l1 + 1))); [lia|done]. }
    clear IHm. cbn [length] in *. rewrite length_app in *. simpl in Hm |- *.
    destruct (Nat.ltb_spec (length l1) (Nat.pred (length l1 + S (length m + 1)))); [|lia].
    replace (Nat.pred (length l1 + S (length m + 1))) with (length l1 + S (length m))%nat by lia.
    rewrite <- !app_assoc. cbn [app]. rewrite swap_ends.
    replace (Nat.pred (length l1 + S (length m))) with (Nat.pred (length (l1 ++ [y]) + length m)) by (rewrite length_app; simpl; lia).
    replace (S (length l1)) with (length (l1 ++ [y])) by (rewrite length_app; simpl; lia).
    replace (l1 ++ y :: m ++ x :: l2) with ((l1 ++ [y]) ++ m ++ x :: l2) by (by rewrite <- app_assoc).
    rewrite IH by lia. rewrite rev_app_distr. simpl. by rewrite <- !app_assoc.
Qed.

Lemma reverse_in_place_rev l : reverse_in_place l = rev l.
Proof.
  unfold reverse_in_place. pose proof (reverse_loop_spec (length l) [] l [] ltac:(lia)) as H. simpl in H. by rewrite !app_nil_r in H.
Qed.

(** ** The two functions are inverse *)

(** The string of a number: a minus sign for a negative one, and the digits of
    its magnitude without leading zeros. *)
Lemma sdsll2str_spec v : in_int64 v →
  ∃ l, sdsll2str v = Some (if v <? 0 then char_minus :: rev l else rev l) ∧ digits (Z.abs v) l ∧ (length l <= 20)%nat.
Proof.
  intros Hv. unfold in_int64, int64_max in Hv. unfold sdsll2str, digit_fuel.
  assert (Hab : (if v <? 0 then to_size_t (- v) else v) = Z.abs v).
  { destruct (Z.ltb_spec v 0); [rewrite to_size_t_id|]; lia. }
  rewrite Hab. destruct (digit_loop_digits 20 (Z.abs v)) as (l & -> & Hl & Hlen); [change (Z.of_nat 20) with 20; lia|lia|].
  exists l. rewrite reverse_in_place_rev. split_and!; [|done|done]. case_if; [|done]. by rewrite rev_app_distr.
Qed.

Lemma minus_not_digit c : char_1 <= c <= char_9 → (c =? char_minus) = false ∧ (c =? char_0) = false.
Proof. unfold char_1, char_9, char_minus, char_0. intros Hc. split; apply Z.eqb_neq; lia. Qed.

(** Parsing digits that begin with a non-zero one, behind an optional sign. *)
Lemma string2ll_digits (negative : bool) c p :
  char_1 <= c <= char_9 →
  string2ll (if negative then char_minus :: c :: p else c :: p) =
  match parse_loop (c - char_0) p with
  | Some (v, []) => if negative then (if v >? 2 ^ 63 then None else Some (to_int64 (- v))) else (if v >? LLONG_MAX then None else Some v)
  | _ => None
  end.
Proof.
  intros Hc. destruct (minus_not_digit c Hc) as [Hm H0].
  assert (Hr : (char_1 <=? c) && (c <=? char_9) = true) by (apply andb_true_iff; rewrite !Z.leb_le; lia).
  unfold string2ll. destruct negative.
  - replace (length (char_minus :: c :: p) =? 1)%nat with false by (symmetry; by apply Nat.eqb_neq). cbn [andb].
    change (char_minus =? char_minus) with true. cbn iota. rewrite Hr.
    by destruct (parse_loop (c - char_0) p) as [[v [|x l]]|].
  - rewrite H0, andb_false_r, Hm, Hr. by destruct (parse_loop (c - char_0) p) as [[v [|x l]]|].
Qed.

(** What [string2ll] accepts is what [sdsll2str] prints. *)
Lemma string2ll_sound s v : string2ll s = Some v → in_int64 v ∧ sdsll2str v = Some s.
Proof.
  intros Hs. destruct s as [|p0 rest]; [done|].
  destruct (decide (p0 = char_0 ∧ rest = [])) as [[-> ->]|Hnz]; [by injection Hs as <-|].
  assert (Hform : ∃ (negative : bool) c p, p0 :: rest = (if negative then char_minus :: c :: p else c :: p) ∧ char_1 <= c <= char_9).
  { unfold string2ll in Hs.
    assert (Hone : (length (p0 :: rest) =? 1)%nat && (p0 =? char_0) = false).
    { apply not_true_iff_false. intros [H1 H2]%andb_true_iff. apply Nat.eqb_eq in H1. apply Z.eqb_eq in H2. apply Hnz.
      split; [done|]. by destruct rest. }
    rewrite Hone in Hs. destruct (Z.eqb_spec p0 char_minus) as [->|Hp].
    - destruct rest as [|c p]; [done|]. exists true, c, p. split; [done|].
      replace (length (char_minus :: c :: p) =? 1)%nat with false in Hs by (symmetry; by apply Nat.eqb_neq).
      rewrite andb_false_r in Hs. case_if_in Hs; [|done]. bool_to_prop. lia.
    - exists false, p0, rest. split; [done|]. rewrite andb_comm in Hone. rewrite Hone in Hs. case_if_in Hs; [|done]. bool_to_prop. lia. }
  destruct Hform as (negative & c & p & E & Hc). rewrite E in Hs |- *. rewrite (string2ll_digits negative c p Hc) in Hs.
  pose proof (parse_loop_spec p (c - char_0)) as Hp. destruct (parse_loop (c - char_0) p) as [[x [|y unread]]|]; [|done|done].
  destruct Hp as (Hd & Hx & Hmax); [unfold char_0, char_1, char_9, ULLONG_MAX in *; lia|].
  pose proof (value_digits c p Hc Hd) as Hdig. rewrite <- Hx in Hdig.
  pose proof (value_mono (c - char_0) p ltac:(unfold char_0, char_1 in *; lia) Hd) as Hpos. rewrite <- Hx in Hpos.
  assert (Hx0 : 0 < x) by (unfold char_0, char_1 in *; lia).
  assert (Hv : in_int64 v ∧ Z.abs v = x ∧ (v <? 0) = negative).
  { unfold in_int64, int64_max, LLONG_MAX in *. destruct negative; case_if_in Hs; bool_to_prop; try done; injection Hs as <-.
    - rewrite to_int64_id by (unfold in_int64, int64_max; lia). split_and!; [lia|lia|lia|apply Z.ltb_lt; lia].
    - split_and!; [lia|lia|lia|apply Z.ltb_ge; lia]. }
  destruct Hv as (Hin & Habs & Hneg). split; [done|]. destruct (sdsll2str_spec v Hin) as (l & -> & Hl & _).
  rewrite Habs in Hl. rewrite Hneg, (digits_unique _ _ Hl _ Hdig), rev_involutive. by destruct negative.
Qed.

Lemma string2ll_print s v : in_int64 v → sdsll2str v = Some s → string2ll s = Some v.
Proof.
  intros Hin Hs. destruct (sdsll2str_spec v Hin) as (l & Hl & Hd & _). rewrite Hs in Hl. injection Hl as ->.
  destruct (decide (v = 0)) as [->|Hv0].
  { simpl in *. assert (l = [char_0 + 0]) as ->; [|done]. apply (digits_unique 0 l Hd). by constructor. }
  destruct (digits_value _ _ Hd ltac:(lia)) as (c & p & -> & Hc & Hp & Hval).
  pose proof (string2ll_digits (v <? 0) c p Hc) as E. rewrite E. clear E.
  pose proof (parse_loop_spec p (c - char_0)) as Hpl. unfold in_int64, int64_max in Hin.
  destruct (parse_loop (c - char_0) p) as [[x [|y unread]]|].
  2,3: exfalso; apply Hpl; [unfold char_0, char_1, char_9, ULLONG_MAX in *; lia|split; [done|unfold ULLONG_MAX; lia]].
  destruct Hpl as (_ & -> & _); [unfold char_0, char_1, char_9, ULLONG_MAX in *; lia|]. rewrite Hval.
  unfold LLONG_MAX. destruct (Z.ltb_spec v 0); case_if; bool_to_prop; try lia; f_equal; [|lia].
  rewrite to_int64_id by (unfold in_int64, int64_max; lia). lia.
Qed.

(** C37: [string2ll] succeeds exactly on the strings [sdsll2str] prints, and returns
    the number that was printed: nothing else is accepted (no leading zeros or
    spaces, no plus sign, no [-0]), every [long long] is, and nothing
    overflows in [string2ll].  ([sdsll2str] negates LLONG_MIN, which C leaves
    undefined; the model takes the value it has with wrap-around.) *)
Theorem string2ll_exact s v : string2ll s = Some v ↔ in_int64 v ∧ sdsll2str v = Some s.
Proof. split; [apply string2ll_sound|]. intros [Hv Hs]. by apply string2ll_print. Qed.

(** The buffer of [sdsfromlonglong] is large enough for the string and its
    terminating zero. *)
Lemma sdsll2str_fits v s : in_int64 v → sdsll2str v = Some s → Z.of_nat (length s) + 1 <= SDS_LLSTR_SIZE.
Proof.
  intros Hv Hs. destruct (sdsll2str_spec v Hv) as (l & Hl & Hd & _). rewrite Hs in Hl. injection Hl as ->.
  pose proof (digits_length _ _ Hd 19) as H19. unfold in_int64, int64_max in Hv. change (Z.of_nat 19) with 19 in H19.
  unfold SDS_LLSTR_SIZE. case_if; cbn [length]; rewrite length_rev; lia.
Qed.

(** ** Counting digits *)

(** The number of digits of [v]. *)
Definition digit_count (v n : Z) : Prop := 1 <= n ∧ 0 <= v < 10 ^ n ∧ (n = 1 ∨ 10 ^ (n - 1) <= v).

Lemma digits_count v l : digits v l → digit_count v (Z.of_nat (length l)).
Proof.
  unfold digit_count. induction 1 as [d Hd|a d l Ha Hd Hl (H1 & H2 & H3)]; cbn [length].
  - split_and!; [lia|lia|simpl; lia|by left].
  - rewrite Nat2Z.inj_succ. assert (E : 10 ^ Z.succ (Z.of_nat (length l)) = 10 * 10 ^ Z.of_nat (length l)) by (by rewrite Z.pow_succ_r by lia).
    rewrite E. split_and!; [lia|lia|lia|]. right.
    replace (Z.succ (Z.of_nat (length l)) - 1) with (Z.of_nat (length l)) by lia.
    destruct H3 as [H3|H3]; [rewrite H3 in *; lia|].
    assert (E2 : 10 ^ Z.of_nat (length l) = 10 * 10 ^ (Z.of_nat (length l) - 1)).
    { rewrite <- Z.pow_succ_r by lia. f_equal. lia. }
    lia.
Qed.

(** [n] is at most [k] when the number is below [10 ^ k], and larger otherwise. *)
Lemma digit_count_le v n k : digit_count v n → 1 <= k → v < 10 ^ k ↔ n <= k.
Proof.
  intros (H1 & H2 & H3) Hk. split; intros H.
  - destruct H3 as [->|H3]; [done|]. enough (n - 1 < k) by lia. apply (Z.pow_lt_mono_r_iff 10); lia.
  - assert (10 ^ n <= 10 ^ k) by (apply Z.pow_le_mono_r; lia). lia.
Qed.

Lemma count_loop_spec fuel : ∀ v n r, digit_count v n → v < 10 ^ (4 * Z.of_nat fuel) → (0 < fuel)%nat →
  count_loop fuel v r = Some (r + (n - 1)).
Proof.
  induction fuel as [|fuel IH]; intros v n r Hn Hv Hf; [lia|]. cbn [count_loop].
  pose proof (digit_count_le v n 1 Hn ltac:(lia)) as D1. pose proof (digit_count_le v n 2 Hn ltac:(lia)) as D2.
  pose proof (digit_count_le v n 3 Hn ltac:(lia)) as D3. pose proof (digit_count_le v n 4 Hn ltac:(lia)) as D4.
  simpl (10 ^ _) in D1, D2, D3, D4. pose proof (proj1 Hn).
  destruct (Z.ltb_spec v 10); [f_equal; lia|]. destruct (Z.ltb_spec v 100); [f_equal; lia|].
  destruct (Z.ltb_spec v 1000); [f_equal; lia|]. destruct (Z.ltb_spec v 10000); [f_equal; lia|].
  destruct fuel as [|fuel]; [simpl in Hv; lia|].
  destruct Hn as (_ & Hr & Hor). destruct Hor as [->|Hor]; [lia|].
  assert (E1 : 10 ^ n = 10000 * 10 ^ (n - 4)) by (change 10000 with (10 ^ 4); rewrite <- Z.pow_add_r by lia; f_equal; lia).
  rewrite (IH (v / 10000) (n - 4)); [f_equal; lia| | |lia].
  - split_and!; [lia|apply Z.div_pos; lia|apply Z.div_lt_upper_bound; lia|].
    destruct (decide (n = 5)) as [->|Hn5]; [by left|right].
    assert (E2 : 10 ^ (n - 1) = 10000 * 10 ^ (n - 4 - 1)) by (change 10000 with (10 ^ 4); rewrite <- Z.pow_add_r by lia; f_equal; lia).
    apply Z.div_le_lower_bound; lia.
  - apply Z.div_lt_upper_bound; [lia|]. change 10000 with (10 ^ 4). rewrite <- Z.pow_add_r by lia.
    replace (4 + 4 * Z.of_nat (S fuel)) with (4 * Z.of_nat (S (S fuel))) by lia. done.
Qed.

(** [countDigits] is the length of the decimal representation. *)
Lemma countDigits_spec v l : 0 <= v < 2 ^ 64 → digits v l → countDigits v = Some (Z.of_nat (length l)).
Proof.
  intros Hv Hl. unfold countDigits. rewrite (count_loop_spec 5 v (Z.of_nat (length l))); [f_equal; lia|by apply digits_count| |lia].
  change (4 * Z.of_nat 5) with 20. lia.
Qed.

(** ** Strings of numbers *)

(** [sds sdsfromlonglong(long long value)] *)
Definition sdsfromlonglong (junk : Z) (ok : bool) (value : Z) : option (option sds) :=
  match sdsll2str value with
  | Some l => sdsnewlen junk ok (Some (l ++ [0])) (Z.of_nat (length l))
  | None => None
  end.

(** A number turned into a dynamic string reads back as itself. *)
Theorem sdsfromlonglong_roundtrip junk v : in_int64 v →
  ∃ s, sdsfromlonglong junk true v = Some (Some s) ∧ sds_ok s ∧ string2ll (content s) = Some v.
Proof.
  intros Hv. destruct (sdsll2str_spec v Hv) as (l & Hl & Hd & Hlen). unfold sdsfromlonglong. rewrite Hl.
  set (p := if v <? 0 then _ else _) in *.
  assert (Hp : (length p <= 21)%nat) by (unfold p; case_if; cbn [length]; rewrite length_rev; lia).
  destruct (sdsnewlen_ok junk (p ++ [0]) (Z.of_nat (length p))) as (s & Hs & Hok & Hc & _);
    [rewrite length_app; simpl; lia|lia|]. exists s. split_and!; [done|done|].
  rewrite Hc, Nat2Z.id, take_app_length. by apply string2ll_print.
Qed.

Lemma sdsfromlonglong_roundtrip_witness :
  ∃ s, sdsfromlonglong 0 true (- 9223372036854775808) = Some (Some s) ∧ s_len s = 20 ∧ string2ll (content s) = Some (- 9223372036854775808).
Proof.
  destruct (sdsfromlonglong_roundtrip 0 (- 9223372036854775808)) as (s & H & _ & Hr); [unfold in_int64, int64_max; lia|].
  exists s. split; [exact H|]. split; [|exact Hr]. vm_compute in H. injection H as <-. reflexivity.
Defined.
