(* ===== verification/SdsFmt.v ===== *)
(** * vendors/hiredis/sds.c: appending formatted text

    [sdscatfmt] walks over a format and writes behind the string, growing it as
    it goes; the length in the header follows the writes, the terminating zero
    is only put back at the end.  Arguments are the words that were passed: a
    narrower type reads the low bits of its word.  A null pointer that is used is
    [None], like an argument of the wrong kind. *)

From S2P Require Import Prelude Sds SdsProps Numbers.
Local Open Scope Z_scope.

Inductive fmt_arg := A_cstr (l : list Z) | A_sds (s : sds) | A_word (v : Z).

Definition percent : Z := 37.

(** The text of the conversion [%next]: what is copied, and the arguments that
    are left; [Some (None, _)] is an unknown one, which takes no argument. *)
Definition conversion (next : Z) (args : list fmt_arg) : option (option (list Z) * list fmt_arg) :=
  if next =? 115 then (* 's' *)
    match args with A_cstr l :: r => match c_string l with Some x => Some (Some x, r) | None => None end | _ => None end
  else if next =? 83 then (* 'S' *)
    match args with
    | A_sds t :: r => match read_at 0 (sdslen t) (s_buf t) with Some x => Some (Some x, r) | None => None end
    | _ => None
    end
  else if next =? 105 then (* 'i' *)
    match args with A_word v :: r => match sdsll2str (to_int v) with Some x => Some (Some x, r) | None => None end | _ => None end
  else if next =? 73 then (* 'I' *)
    match args with A_word v :: r => match sdsll2str (to_int64 v) with Some x => Some (Some x, r) | None => None end | _ => None end
  else if next =? 117 then (* 'u' *)
    match args with A_word v :: r => match sdsull2str (to_uint v) with Some x => Some (Some x, r) | None => None end | _ => None end
  else if next =? 85 then (* 'U' *)
    match args with A_word v :: r => match sdsull2str (to_size_t v) with Some x => Some (Some x, r) | None => None end | _ => None end
  else Some (None, args).

Section sdscatfmt.
Context (junk : Z) (ok : bool).

(** [memcpy(s+i,bs,l); sdsinclen(s,l); i += l;] *)
Definition fmt_put (s : sds) (i : Z) (bs : list Z) : option (sds * Z) :=
  match poke s i bs with
  | Some s1 => let l := Z.of_nat (length bs) in Some (sdsinclen s1 l, to_int (to_size_t (i + l)))
  | None => None
  end.

(** [if (sdsavail(s) < l) { s = sdsMakeRoomFor(s,l); }] *)
Definition fmt_room (s : sds) (l : Z) : option sds :=
  if sdsavail s <? l then match sdsMakeRoomFor junk ok s l with Some (Some s1) => Some s1 | _ => None end else Some s.

(** [if (sdsavail(s)==0) { s = sdsMakeRoomFor(s,1); }] *)
Definition fmt_one (s : sds) : option sds :=
  if sdsavail s =? 0 then match sdsMakeRoomFor junk ok s 1 with Some (Some s1) => Some s1 | _ => None end else Some s.

(** The loop; [f] is the memory of the format from [*f] on. *)
Fixpoint catfmt_loop (f : list Z) (args : list fmt_arg) (s : sds) (i : Z) : option (sds * Z) :=
  match f with
  | [] => None
  | c :: f1 =>
    if c =? 0 then Some (s, i)
    else
      match fmt_one s with
      | None => None
      | Some s1 =>
        if c =? percent then
          match f1 with
          | [] => None
          | next :: f2 =>
            match conversion next args with
            | None => None
            | Some (Some bs, args1) =>
              match fmt_room s1 (Z.of_nat (length bs)) with
              | Some s2 => match fmt_put s2 i bs with Some (s3, i3) => catfmt_loop f2 args1 s3 i3 | None => None end
              | None => None
              end
            | Some (None, args1) => match fmt_put s1 i [next] with Some (s3, i3) => catfmt_loop f2 args1 s3 i3 | None => None end
            end
          end
        else match fmt_put s1 i [c] with Some (s3, i3) => catfmt_loop f1 args s3 i3 | None => None end
      end
  end.

(** [sds sdscatfmt(sds s, char const *fmt, ...)] *)
Definition sdscatfmt (s : sds) (fmt : list Z) (args : list fmt_arg) : option sds :=
  match catfmt_loop fmt args s (to_int (sdslen s)) with
  | Some (s1, i) => poke s1 i [0]
  | None => None
  end.
End sdscatfmt.

(** ** What it appends *)

(** The text of a format and its arguments. *)
Fixpoint expand (f : list Z) (args : list fmt_arg) : option (list Z) :=
  match f with
  | [] => None
  | c :: f1 =>
    if c =? 0 then Some []
    else if c =? percent then
      match f1 with
      | [] => None
      | next :: f2 =>
        match conversion next args with
        | None => None
        | Some (Some bs, args1) => app bs <$> expand f2 args1
        | Some (None, args1) => cons next <$> expand f2 args1
        end
      end
    else cons c <$> expand f1 args
  end.

(** A string whose terminating zero may be overwritten. *)
Definition sds_open (s : sds) : Prop := ∃ z, sds_at z s.

Lemma sds_open_intro s :
  0 <= s_len s <= sdsalloc s → sdsalloc s < 2 ^ type_bits (s_type s) → sdsalloc s < Z.of_nat (length (s_buf s)) → sds_open s.
Proof.
  intros H1 H2 H3. destruct (lookup_lt_is_Some_2 (s_buf s) (Z.to_nat (s_len s))) as [z Hz]; [lia|]. by exists z.
Qed.

Section spec.
Context (junk : Z).

Lemma avail_alloc s l : sds_open s → 0 <= l <= sdsavail s → s_len s + l <= sdsalloc s.
Proof.
  intros (z & Hs) Hl. pose proof (so_len _ Hs) as H1. pose proof (so_alloc _ Hs) as H2. revert Hl H1 H2. unfold sdsavail, sdsalloc.
  pose proof (type_bits_pos (s_type s)). destruct (s_type s); simpl; intros; rewrite ?to_size_t_id in Hl by lia; lia.
Qed.

(** Making room, one way or the other. *)
Lemma make_room s l (b : bool) :
  sds_open s → 0 <= l → s_len s + l < 2 ^ 63 → (b = false → l <= sdsavail s) →
  ∃ s1, (if b then match sdsMakeRoomFor junk true s l with Some (Some s1) => Some s1 | _ => None end else Some s) = Some s1 ∧
    sds_open s1 ∧ content s1 = content s ∧ s_len s1 = s_len s ∧ s_len s1 + l <= sdsalloc s1.
Proof.
  intros Ho Hl Hmax Hb. destruct b.
  - destruct Ho as (z & Hs). destruct (sdsMakeRoomFor_ok junk s l Hs Hl Hmax) as (s1 & -> & Hs1 & Hc & Hr).
    pose proof (content_length s Hs). pose proof (content_length s1 Hs1) as H1. rewrite Hc in H1.
    exists s1. split_and!; [done|by exists z|done|lia|lia].
  - exists s. split_and!; try done. apply avail_alloc; [done|]. split; [done|by apply Hb].
Qed.

Lemma fmt_put_ok s bs :
  sds_open s → s_len s + Z.of_nat (length bs) <= sdsalloc s → s_len s + Z.of_nat (length bs) <= INT_MAX →
  ∃ s1, fmt_put s (s_len s) bs = Some (s1, s_len s1) ∧ sds_open s1 ∧ content s1 = content s ++ bs.
Proof.
  intros (z & Hs) Hr Hm. pose proof (so_len _ Hs) as Hl. pose proof (so_alloc _ Hs) as Ha. pose proof (so_block _ Hs) as Hb.
  unfold fmt_put, poke. rewrite write_at_Some by lia. set (b := take _ _ ++ _).
  set (n := s_len s + Z.of_nat (length bs)) in *. exists (mk_sds (s_type s) n (s_alloc s) b). unfold sdsinclen. cbn [s_type s_len s_alloc s_buf].
  assert (Hlb : length b = length (s_buf s)) by (unfold b; rewrite !length_app, length_take, length_drop; lia).
  rewrite Z.mod_small by lia. unfold INT_MAX in *. rewrite to_size_t_id, to_int_id by (unfold in_int, INT_MIN, INT_MAX; lia). split; [done|].
  assert (Hal : sdsalloc (mk_sds (s_type s) n (s_alloc s) b) = sdsalloc s).
  { unfold sdsalloc in *. cbn [s_type s_len s_alloc]. destruct (s_type s); [lia|done..]. }
  split; [apply sds_open_intro; rewrite Hal; cbn [s_len s_type s_buf]; lia|]. unfold content, b, n. cbn [s_len s_buf].
  rewrite app_assoc, take_app_le by (rewrite length_app, length_take; lia). apply take_ge. rewrite length_app, length_take. lia.
Qed.

(** One piece of text. *)
Lemma piece_ok s bs (b : bool) :
  sds_open s → s_len s + Z.of_nat (length bs) <= INT_MAX → (b = false → Z.of_nat (length bs) <= sdsavail s) →
  ∃ s1 s2, (if b then match sdsMakeRoomFor junk true s (Z.of_nat (length bs)) with Some (Some s1) => Some s1 | _ => None end else Some s) = Some s1 ∧
    fmt_put s1 (s_len s) bs = Some (s2, s_len s2) ∧ sds_open s2 ∧ content s2 = content s ++ bs.
Proof.
  intros Ho Hm Hb. unfold INT_MAX in *. destruct (make_room s (Z.of_nat (length bs)) b Ho) as (s1 & Hr & Ho1 & Hc & Hl & Ha); [lia|lia|done|].
  destruct (fmt_put_ok s1 bs Ho1 Ha) as (s2 & Hp & Ho2 & Hc2); [unfold INT_MAX; lia|]. exists s1, s2. rewrite <- Hl, <- Hc. done.
Qed.

Lemma avail_nonneg s : 0 <= sdsavail s.
Proof. unfold sdsavail, to_size_t. destruct (s_type s); try apply Z.mod_pos_bound; lia. Qed.

Lemma char_ok s c : sds_open s → s_len s + 1 <= INT_MAX →
  ∃ s1 s2, fmt_one junk true s = Some s1 ∧ fmt_put s1 (s_len s) [c] = Some (s2, s_len s2) ∧ sds_open s2 ∧ content s2 = content s ++ [c].
Proof.
  intros Ho Hm. pose proof (avail_nonneg s). apply (piece_ok s [c] (sdsavail s =? 0) Ho); [done|]. intros. bool_to_prop. simpl. lia.
Qed.

Lemma open_length s : sds_open s → Z.of_nat (length (content s)) = s_len s.
Proof. intros (z & Hs). by eapply content_length. Qed.

Lemma catfmt_loop_ok n : ∀ f, (length f <= n)%nat → ∀ args s bs, sds_open s → expand f args = Some bs →
  s_len s + Z.of_nat (length bs) <= INT_MAX →
  ∃ s1, catfmt_loop junk true f args s (s_len s) = Some (s1, s_len s1) ∧ sds_open s1 ∧ content s1 = content s ++ bs.
Proof.
  induction n as [|n IH]; intros f Hn args s bs Ho He Hm; (destruct f as [|c f1]; [done|]); [simpl in Hn; lia|].
  cbn [expand catfmt_loop] in *. destruct (Z.eqb_spec c 0) as [->|Hc0].
  { injection He as <-. exists s. by rewrite app_nil_r. }
  assert (Hnext : ∀ f2 args1 s2 bs1 bs2, (length f2 <= n)%nat → sds_open s2 → content s2 = content s ++ bs1 → expand f2 args1 = Some bs2 →
    bs = bs1 ++ bs2 → ∃ s1, catfmt_loop junk true f2 args1 s2 (s_len s2) = Some (s1, s_len s1) ∧ sds_open s1 ∧ content s1 = content s ++ bs).
  { intros f2 args1 s2 bs1 bs2 Hf2 Ho2 Hc2 He2 ->. pose proof (open_length s Ho). pose proof (open_length s2 Ho2) as H2.
    rewrite Hc2, length_app in H2. rewrite length_app in Hm.
    destruct (IH f2 Hf2 args1 s2 bs2 Ho2 He2 ltac:(lia)) as (s1 & Hs1 & Ho1 & Hc1). exists s1. rewrite Hc1, Hc2, <- app_assoc. done. }
  cbn [length] in Hn. destruct (Z.eqb_spec c percent) as [->|Hcp].
  - destruct f1 as [|next f2]; [done|]. cbn [length] in Hn. destruct (conversion next args) as [[[bs1|] args1]|]; [| |done].
    + destruct (expand f2 args1) as [bs2|] eqn:He2; [|done]. injection He as <-.
      pose proof (avail_nonneg s). unfold fmt_one, fmt_room.
      destruct (make_room s 1 (sdsavail s =? 0) Ho) as (s0 & -> & Ho0 & Hc0' & Hl0 & _); [lia|unfold INT_MAX in *; lia|intros; bool_to_prop; lia|].
      rewrite length_app in Hm. rewrite <- Hl0 in Hm |- *.
      destruct (piece_ok s0 bs1 (sdsavail s0 <? Z.of_nat (length bs1)) Ho0) as (s1 & s2 & -> & -> & Ho2 & Hc2); [lia|intros; bool_to_prop; lia|].
      eapply (Hnext f2 args1 s2 bs1 bs2); [lia|done|by rewrite Hc2, Hc0'|done|done].
    + destruct (expand f2 args1) as [bs2|] eqn:He2; [|done]. injection He as <-. simpl in Hm.
      destruct (char_ok s next Ho) as (s1 & s2 & -> & -> & Ho2 & Hc2); [lia|].
      by eapply (Hnext f2 args1 s2 [next] bs2); [lia| | | |].
  - destruct (expand f1 args) as [bs2|] eqn:He2; [|done]. injection He as <-. simpl in Hm.
    destruct (char_ok s c Ho) as (s1 & s2 & -> & -> & Ho2 & Hc2); [lia|].
    by eapply (Hnext f1 args s2 [c] bs2); [lia| | | |].
Qed.

Lemma sdscatfmt_ok s fmt args bs :
  sds_ok s → expand fmt args = Some bs → s_len s + Z.of_nat (length bs) <= INT_MAX →
  ∃ s', sdscatfmt junk true s fmt args = Some s' ∧ sds_ok s' ∧ content s' = content s ++ bs.
Proof.
  intros Hs He Hm. pose proof (so_len _ Hs). unfold sdscatfmt, sdslen.
  rewrite to_int_id by (unfold in_int, INT_MIN, INT_MAX in *; lia).
  destruct (catfmt_loop_ok (length fmt) fmt ltac:(done) args s bs) as (s1 & -> & (z & Hs1) & Hc); [by exists 0|done|done|].
  pose proof (so_len _ Hs1). pose proof (so_alloc _ Hs1). pose proof (so_block _ Hs1) as Hb. pose proof (content_length s1 Hs1) as Hcl.
  unfold poke. rewrite write_at_Some by (simpl; lia). eexists. split; [done|]. rewrite <- Hc.
  apply (sds_ok_intro 0 _ _ (s_len s1)); cbn [s_len s_type s_buf]; try done; try lia.
  - apply H0.
  - rewrite !length_app, length_take, length_drop. simpl.
    change (sdsalloc (mk_sds (s_type s1) (s_len s1) (s_alloc s1) _)) with (sdsalloc s1). lia.
  - pose proof (so_len _ Hs1). fold (content s1). rewrite app_assoc, take_app_le by (rewrite length_app; simpl; lia).
    apply take_ge. rewrite length_app. simpl. lia.
Qed.

(** [sdscatfmt] appends the text of the format, whatever the kind of the
    string it starts with and however often it has to grow. *)
Theorem sdscatfmt_expands s fmt args bs :
  sds_ok s → expand fmt args = Some bs → s_len s + Z.of_nat (length bs) <= INT_MAX →
  ∃ s', sdscatfmt junk true s fmt args = Some s' ∧ sds_ok s' ∧ content s' = content s ++ bs.
Proof. apply sdscatfmt_ok. Qed.
End spec.

(** A string without room and a format with a string, a number, an unknown
    conversion and a per cent sign. *)
Lemma sdscatfmt_expands_witness :
  ∃ s0 s, sdsnewlen 170 true (Some [65; 66]) 2 = Some (Some s0) ∧
    sdscatfmt 170 true s0 [37; 115; 61; 37; 105; 37; 37; 0] [A_cstr [120; 0; 1]; A_word (-5)] = Some s ∧
    content s = [65; 66; 120; 61; 45; 53; 37].
Proof.
  destruct (sdsnewlen_ok 170 [65; 66] 2) as (s0 & H0 & Hs0 & Hc & Hal); [done|done|].
  destruct (sdscatfmt_expands 170 s0 [37; 115; 61; 37; 105; 37; 37; 0] [A_cstr [120; 0; 1]; A_word (-5)] [120; 61; 45; 53; 37])
    as (s & Hs & _ & Hcs); [done|by vm_compute|pose proof (so_len _ Hs0); unfold INT_MAX; simpl; lia|].
  exists s0, s. split_and!; [done|done|]. rewrite Hcs, Hc. done.
Defined.
