(* ===== verification/SdsText.v ===== *)
(** * vendors/hiredis/sds.c: printing into a string, and its text utilities

    Printing with a format of the C library, trimming, changing case, comparing,
    mapping, splitting and joining.  What [vsnprintf] prints is an argument,
    [text]; [memcmp] is one that returns the difference of the first two bytes
    that differ.  Characters are bytes, the locale is the C locale. *)

From S2P Require Import Prelude Sds SdsProps.
Local Open Scope Z_scope.

Section text.
Context (junk : Z).

Definition sdscpy (ok : bool) (s : sds) (t : list Z) : option (option sds) :=
  match c_string t with Some x => sdscpylen junk ok s x | None => None end.

(** ** Printing *)

(** [vsnprintf(buf, buflen, ...)] *)
Definition vsnprintf (buf : list Z) (buflen : Z) (text : list Z) : option (list Z) :=
  write_at 0 (take (Z.to_nat (buflen - 1)) text ++ [0]) buf.

(** The loop that doubles the buffer; the static buffer is the first one. *)
Fixpoint print_loop (fuel : nat) (ok : bool) (buf : list Z) (buflen : Z) (text : list Z) : option (option (list Z)) :=
  match fuel with
  | O => None
  | S fuel' =>
    match write_at (buflen - 2) [0] buf with
    | None => None
    | Some b1 =>
      match vsnprintf b1 buflen text with
      | None => None
      | Some b2 =>
        match b2 !! Z.to_nat (buflen - 2) with
        | None => None
        | Some c =>
          if negb (c =? 0) then
            let buflen := to_size_t (buflen * 2) in
            if negb ok then Some None else print_loop fuel' ok (malloc junk buflen) buflen text
          else Some (Some b2)
        end
      end
    end
  end.

(** [sds sdscatvprintf(sds s, const char *fmt, va_list ap)]; [fmtlen] is the
    length of the format.  Every round doubles the buffer, so the length of the
    text is enough rounds. *)
Definition sdscatvprintf (ok1 ok2 : bool) (s : sds) (fmtlen : Z) (text : list Z) : option (option sds) :=
  let buflen := to_size_t (fmtlen * 2) in
  let large := buflen >? 1024 in
  if large && negb ok1 then Some None
  else
    let buflen := if large then buflen else 1024 in
    match print_loop (S (length text)) ok1 (malloc junk buflen) buflen text with
    | None => None
    | Some None => Some None
    | Some (Some buf) => sdscat junk ok2 s buf
    end.

(** [sds sdscatprintf(sds s, const char *fmt, ...)] *)
Definition sdscatprintf (ok1 ok2 : bool) (s : sds) (fmtlen : Z) (text : list Z) : option (option sds) :=
  sdscatvprintf ok1 ok2 s fmtlen text.

(** ** Trimming *)

(** [strchr(cset, c)] is not null; the terminating zero counts. *)
Definition strchr (cset : list Z) (c : Z) : bool := bool_decide (c ∈ cset) || (c =? 0).

(** [while(sp <= end && strchr(cset, *sp)) sp++;] on the memory at [sp]. *)
Fixpoint trim_left (l : list Z) (cset : list Z) (sp end_ : Z) : option Z :=
  if sp <=? end_ then
    match l with
    | [] => None
    | c :: r => if strchr cset c then trim_left r cset (sp + 1) end_ else Some sp
    end
  else Some sp.

(** [while(ep > sp && strchr(cset, *ep)) ep--;] with [ep] at most [n] behind [sp]. *)
Fixpoint trim_right (n : nat) (buf : list Z) (cset : list Z) (sp ep : Z) : option Z :=
  if ep >? sp then
    match n, buf !! Z.to_nat ep with
    | S n', Some c => if strchr cset c then trim_right n' buf cset sp (ep - 1) else Some ep
    | _, _ => None
    end
  else Some ep.

(** [sds sdstrim(sds s, const char *cset)]; [cset] without its terminating
    zero. *)
Definition sdstrim (s : sds) (cset : list Z) : option sds :=
  let end_ := sdslen s - 1 in
  match trim_left (s_buf s) cset 0 end_ with
  | None => None
  | Some sp =>
    match trim_right (Z.to_nat (sdslen s)) (s_buf s) cset sp end_ with
    | None => None
    | Some ep =>
      let len := if sp >? ep then 0 else ep - sp + 1 in
      let moved :=
        if negb (sp =? 0) then match read_at sp len (s_buf s) with Some bs => poke s 0 bs | None => None end
        else Some s in
      match moved with
      | None => None
      | Some s1 => match poke s1 len [0] with Some s2 => Some (sdssetlen s2 len) | None => None end
      end
    end
  end.

(** ** Characters *)

Definition tolower (c : Z) : Z := if (65 <=? c) && (c <=? 90) then c + 32 else c.
Definition toupper (c : Z) : Z := if (97 <=? c) && (c <=? 122) then c - 32 else c.

(** [for (j = 0; j < len; j++) s[j] = f(s[j]);] *)
Definition map_bytes (f : Z → Z) (len : Z) (s : sds) : option sds :=
  match read_at 0 (Z.max 0 len) (s_buf s) with Some bs => poke s 0 (f <$> bs) | None => None end.

(** [void sdstolower(sds s)] and [void sdstoupper(sds s)]; the length is an
    [int]. *)
Definition sdstolower (s : sds) : option sds := map_bytes tolower (to_int (sdslen s)) s.
Definition sdstoupper (s : sds) : option sds := map_bytes toupper (to_int (sdslen s)) s.

(** The inner loop of [sdsmapchars]: the first character of [from] that is
    [c]. *)
Fixpoint map_char (from to : list Z) (c : Z) : Z :=
  match from, to with
  | f :: from', t :: to' => if c =? f then t else map_char from' to' c
  | _, _ => c
  end.

(** [sds sdsmapchars(sds s, const char *from, const char *to, size_t setlen)];
    [from] and [to] are the [setlen] bytes. *)
Definition sdsmapchars (s : sds) (from to : list Z) : option sds := map_bytes (map_char from to) (sdslen s) s.

(** ** Comparing *)

Fixpoint memcmp (l1 l2 : list Z) : Z :=
  match l1, l2 with
  | a :: r1, b :: r2 => if a =? b then memcmp r1 r2 else a - b
  | _, _ => 0
  end.

(** [int sdscmp(const sds s1, const sds s2)] *)
Definition sdscmp (s1 s2 : sds) : option Z :=
  let minlen := if sdslen s1 <? sdslen s2 then sdslen s1 else sdslen s2 in
  match read_at 0 minlen (s_buf s1), read_at 0 minlen (s_buf s2) with
  | Some a, Some b => let cmp := memcmp a b in Some (if cmp =? 0 then to_int (to_size_t (sdslen s1 - sdslen s2)) else cmp)
  | _, _ => None
  end.

(** ** Splitting and joining *)

(** The loop of [sdssplitlen]: [tokens] are the elements stored so far,
    [slots] the size of their array; [ok_slots] and [ok_token] say which
    allocations succeed.  The result is null or the array, with room for the
    final element. *)
Fixpoint split_loop (fuel : nat) (ok_slots ok_token : nat → bool) (s : list Z) (len : Z) (sep : list Z) (seplen : Z)
    (j start : Z) (slots : Z) (tokens : list sds) : option (option (list sds * Z * Z)) :=
  match fuel with
  | O => None
  | S fuel' =>
    if j <? len - (seplen - 1) then
      let elements := Z.of_nat (length tokens) in
      let grow := slots <? elements + 2 in
      if grow && negb (ok_slots (length tokens)) then Some None
      else
        let slots := if grow then slots * 2 else slots in
        match read_at j seplen s with
        | None => None
        | Some here =>
          if memcmp here sep =? 0 then
            if elements <? slots then
              match read_at start (j - start) s with
              | None => None
              | Some t =>
                match sdsnewlen junk (ok_token (length tokens)) (Some t) (j - start) with
                | None => None
                | Some None => Some None
                | Some (Some tok) =>
                  split_loop fuel' ok_slots ok_token s len sep seplen (j + seplen - 1 + 1) (j + seplen) slots (tokens ++ [tok])
                end
              end
            else None
          else split_loop fuel' ok_slots ok_token s len sep seplen (j + 1) start slots tokens
        end
    else Some (Some (tokens, start, slots))
  end.

(** [sds *sdssplitlen(const char *s, int len, const char *sep, int seplen, int *count)];
    [s] and [sep] are the bytes, [len] and [seplen] their lengths. *)
Definition sdssplitlen (ok1 : bool) (ok_slots ok_token : nat → bool) (s sep : list Z) : option (option (list sds)) :=
  let len := Z.of_nat (length s) in
  let seplen := Z.of_nat (length sep) in
  if seplen <? 1 then Some None
  else if negb ok1 then Some None
  else if len =? 0 then Some (Some [])
  else
    match split_loop (S (length s)) ok_slots ok_token s len sep seplen 0 0 5 [] with
    | None => None
    | Some None => Some None
    | Some (Some (tokens, start, slots)) =>
      if Z.of_nat (length tokens) <? slots then
        match read_at start (len - start) s with
        | None => None
        | Some t =>
          match sdsnewlen junk (ok_token (length tokens)) (Some t) (len - start) with
          | None => None
          | Some None => Some None
          | Some (Some tok) => Some (Some (tokens ++ [tok]))
          end
        end
      else None
    end.

(** The loop of [sdsjoinsds]; [join] may be null. *)
Fixpoint join_loop (ok : bool) (argv : list sds) (sep : list Z) (join : option sds) : option (option sds) :=
  match argv with
  | [] => Some join
  | t :: r =>
    match not_null (Some join) with
    | None => None
    | Some j =>
      match sdscatsds junk ok j t with
      | None => None
      | Some j1 =>
        match r with
        | [] => Some j1
        | _ =>
          match not_null (Some j1) with
          | None => None
          | Some j1 => match sdscatlen junk ok j1 sep with Some j2 => join_loop ok r sep j2 | None => None end
          end
        end
      end
    end
  end.

(** [sds sdsjoinsds(sds *argv, int argc, const char *sep, size_t seplen)] *)
Definition sdsjoinsds (ok : bool) (argv : list sds) (sep : list Z) : option (option sds) :=
  match sdsempty junk ok with Some join => join_loop ok argv sep join | None => None end.

(** [sds sdsjoin(char **argv, int argc, char *sep)], over C strings. *)
Fixpoint join_cstr_loop (ok : bool) (argv : list (list Z)) (sep : list Z) (join : option sds) : option (option sds) :=
  match argv with
  | [] => Some join
  | t :: r =>
    match not_null (Some join) with
    | None => None
    | Some j =>
      match sdscat junk ok j t with
      | None => None
      | Some j1 =>
        match r with
        | [] => Some j1
        | _ =>
          match not_null (Some j1) with
          | None => None
          | Some j1 => match sdscat junk ok j1 sep with Some j2 => join_cstr_loop ok r sep j2 | None => None end
          end
        end
      end
    end
  end.
Definition sdsjoin (ok : bool) (argv : list (list Z)) (sep : list Z) : option (option sds) :=
  match sdsempty junk ok with Some join => join_cstr_loop ok argv sep join | None => None end.
End text.
