(* ===== verification/SdsTextProps.v ===== *)
(** * What the text utilities of sds.c do to the content

    Printing appends the text up to its first zero byte, whatever the buffers it
    goes through; trimming, mapping and comparing are what they are on lists;
    splitting cuts at every occurrence of the separator, from the left, and
    joining is its inverse. *)

From S2P Require Import Prelude Sds SdsProps SdsText.
Local Open Scope Z_scope.

(** ** C strings *)

(** The bytes before the first zero. *)
Fixpoint until_zero (l : list Z) : list Z :=
  match l with [] => [] | c :: r => if c =? 0 then [] else c :: until_zero r end.

Lemma c_string_zero l r : c_string (l ++ 0 :: r) = Some (until_zero l).
Proof. induction l as [|c l IH]; [done|]. cbn. rewrite IH. by case_if. Qed.

Lemma until_zero_take l : ∀ i n, l !! i = Some 0 → (i < n)%nat → until_zero (take n l) = until_zero l.
Proof.
  induction l as [|c l IH]; intros i n Hi Hn; [done|]. destruct n as [|n]; [lia|]. cbn. case_if; [done|].
  destruct i as [|i]; [injection Hi as ->; done|]. f_equal. apply (IH i); [done|lia].
Qed.

Lemma until_zero_length l : (length (until_zero l) <= length l)%nat.
Proof. induction l as [|c l IH]; simpl; [lia|]. case_if; simpl; lia. Qed.

Lemma until_zero_id l : Forall (λ c, c ≠ 0) l → until_zero l = l.
Proof. induction 1 as [|c l Hc _ IH]; [done|]. cbn. apply Z.eqb_neq in Hc. by rewrite Hc, IH. Qed.

Section props.
Context (junk : Z).

(** ** Printing *)

Lemma malloc_length n : 0 <= n → Z.of_nat (length (malloc junk n)) = n.
Proof. intros Hn. unfold malloc. rewrite length_replicate. lia. Qed.

Lemma print_loop_ok fuel : ∀ buf buflen text,
  Z.of_nat (length buf) = buflen → 2 <= buflen → buflen < 2 ^ 63 → Z.of_nat (length text) < 2 ^ 61 →
  Z.of_nat (length text) + 2 <= buflen + Z.of_nat fuel - 1 → (0 < fuel)%nat →
  ∃ b, print_loop junk fuel true buf buflen text = Some (Some b) ∧ c_string b = Some (until_zero text).
Proof.
  induction fuel as [|fuel IH]; intros buf buflen text Hb H2 Hmax Ht Hf Hpos; [lia|]. cbn [print_loop].
  rewrite write_at_Some by (simpl; lia). set (b1 := take _ buf ++ _).
  assert (Hb1 : Z.of_nat (length b1) = buflen) by (unfold b1; rewrite !length_app, length_take, length_drop; simpl; lia).
  assert (Hz : b1 !! Z.to_nat (buflen - 2) = Some 0).
  { unfold b1. rewrite lookup_app_r by (rewrite length_take; lia). rewrite length_take.
    by replace (Z.to_nat (buflen - 2) - Z.to_nat (buflen - 2) `min` length buf)%nat with O by lia. }
  clearbody b1. set (x := take (Z.to_nat (buflen - 1)) text).
  assert (Hx : length x = (Z.to_nat (buflen - 1) `min` length text)%nat) by (unfold x; apply length_take).
  unfold vsnprintf. fold x. rewrite write_at_Some by (rewrite ?length_app; simpl; lia).
  change (Z.to_nat 0) with O. rewrite take_0. change ([] ++ ?l) with l. set (b2 := (x ++ [0]) ++ _).
  assert (Hb2 : c_string b2 = Some (until_zero x)) by (unfold b2; rewrite <- app_assoc; apply c_string_zero).
  destruct (decide (Z.of_nat (length text) <= buflen - 2)) as [Hfit|Hbig].
  - assert (x = text) as Ex by (apply take_ge; lia).
    assert (Hl : b2 !! Z.to_nat (buflen - 2) = Some 0).
    { unfold b2. rewrite Ex in *. destruct (decide (Z.of_nat (length text) = buflen - 2)) as [E|E].
      - rewrite lookup_app_l by (rewrite length_app; simpl; lia). rewrite lookup_app_r by lia.
        by replace (Z.to_nat (buflen - 2) - length text)%nat with O by lia.
      - rewrite lookup_app_r by (rewrite length_app; simpl; lia). rewrite lookup_drop, <- Hz. f_equal. rewrite !length_app. simpl. lia. }
    rewrite Hl. cbn [negb Z.eqb]. exists b2. split; [done|]. by rewrite Hb2, Ex.
  - destruct (lookup_lt_is_Some_2 text (Z.to_nat (buflen - 2))) as [c Hc]; [lia|].
    assert (Hl : b2 !! Z.to_nat (buflen - 2) = Some c).
    { unfold b2. rewrite <- app_assoc, lookup_app_l by lia. unfold x. by rewrite lookup_take_lt by lia. }
    rewrite Hl. destruct (Z.eqb_spec c 0) as [->|Hc0]; cbn [negb].
    + exists b2. split; [done|]. rewrite Hb2. unfold x. by rewrite (until_zero_take text (Z.to_nat (buflen - 2))) by (done || lia).
    + rewrite to_size_t_id by lia. apply IH; [apply malloc_length; lia|lia|lia|lia|lia|lia].
Qed.

Lemma sdscatprintf_ok s fmtlen text :
  sds_ok s → 0 <= fmtlen < 2 ^ 62 → Z.of_nat (length text) < 2 ^ 61 → s_len s < 2 ^ 62 →
  ∃ s', sdscatprintf junk true true s fmtlen text = Some (Some s') ∧ sds_ok s' ∧ content s' = content s ++ until_zero text.
Proof.
  intros Hs Hf Ht Hl. unfold sdscatprintf, sdscatvprintf. cbn zeta. rewrite to_size_t_id by lia. rewrite andb_false_r.
  set (n := if fmtlen * 2 >? 1024 then fmtlen * 2 else 1024). assert (Hn : 1024 <= n < 2 ^ 63) by (unfold n; rewrite Z.gtb_ltb; destruct (Z.ltb_spec 1024 (fmtlen * 2)); lia).
  destruct (print_loop_ok (S (length text)) (malloc junk n) n text) as (b & -> & Hb); [apply malloc_length; lia|lia|lia|lia|lia|lia|].
  unfold sdscat. rewrite Hb. pose proof (until_zero_length text). destruct (sdscatlen_ok junk s (until_zero text) Hs) as (s' & -> & H'); [lia|].
  by exists s'.
Qed.

(** ** Mapping *)

Lemma sdsalloc_buf s b : sdsalloc (mk_sds (s_type s) (s_len s) (s_alloc s) b) = sdsalloc s.
Proof. done. Qed.

Lemma map_bytes_ok f s : sds_ok s → ∃ s', map_bytes f (s_len s) s = Some s' ∧ sds_ok s' ∧ content s' = f <$> content s.
Proof.
  intros Hs. pose proof (so_len _ Hs). pose proof (so_alloc _ Hs). pose proof (so_block _ Hs). pose proof (content_length s Hs) as Hc. unfold map_bytes.
  rewrite read_at_Some by lia. change (Z.to_nat 0) with O. rewrite drop_0, Z.max_r by lia. fold (content s). unfold poke.
  rewrite write_at_Some by (rewrite ?length_fmap; lia). eexists. split; [done|].
  set (b := take _ _ ++ _). assert (Hb : b = (f <$> content s) ++ drop (length (content s)) (s_buf s)).
  { unfold b. rewrite length_fmap. done. }
  apply (sds_ok_intro 0 _ _ (s_len s)); cbn [s_len s_type s_buf]; try done; try lia.
  - rewrite length_fmap. lia.
  - apply (so_len _ Hs).
  - rewrite Hb, length_app, length_fmap, length_drop, sdsalloc_buf. lia.
  - rewrite Hb. pose proof (take_content s Hs) as Ht. replace (S (Z.to_nat (s_len s))) with (length (f <$> content s) + 1)%nat by (rewrite length_fmap; lia).
    rewrite take_app_add. f_equal. pose proof (so_zero _ Hs) as Hz. replace (Z.to_nat (s_len s)) with (length (content s)) in Hz by lia.
    rewrite (drop_S _ _ _ Hz). done.
Qed.

Lemma sdstolower_ok s : sds_ok s → s_len s <= INT_MAX → ∃ s', sdstolower s = Some s' ∧ sds_ok s' ∧ content s' = tolower <$> content s.
Proof.
  intros Hs Hm. pose proof (so_len _ Hs). unfold sdstolower, sdslen. rewrite to_int_id by (unfold in_int, INT_MIN, INT_MAX in *; lia). by apply map_bytes_ok.
Qed.

Lemma sdstoupper_ok s : sds_ok s → s_len s <= INT_MAX → ∃ s', sdstoupper s = Some s' ∧ sds_ok s' ∧ content s' = toupper <$> content s.
Proof.
  intros Hs Hm. pose proof (so_len _ Hs). unfold sdstoupper, sdslen. rewrite to_int_id by (unfold in_int, INT_MIN, INT_MAX in *; lia). by apply map_bytes_ok.
Qed.

Lemma sdsmapchars_ok s from to : sds_ok s → ∃ s', sdsmapchars s from to = Some s' ∧ sds_ok s' ∧ content s' = map_char from to <$> content s.
Proof. apply map_bytes_ok. Qed.

(** ** Comparing *)

(** The lexicographic order; a string is after its prefixes. *)
Fixpoint lex (l1 l2 : list Z) : comparison :=
  match l1, l2 with
  | [], [] => Eq
  | [], _ => Lt
  | _, [] => Gt
  | a :: r1, b :: r2 => match a ?= b with Eq => lex r1 r2 | c => c end
  end.

Lemma lex_eq l1 l2 : lex l1 l2 = Eq ↔ l1 = l2.
Proof.
  revert l2. induction l1 as [|a l1 IH]; intros [|b l2]; cbn; try done. destruct (Z.compare_spec a b) as [->|Hab|Hab].
  - rewrite IH. split; [by intros ->|by intros [= ->]].
  - split; [done|]. intros [= -> _]. lia.
  - split; [done|]. intros [= -> _]. lia.
Qed.

Lemma memcmp_lex l1 : ∀ l2 n, n = (length l1 `min` length l2)%nat →
  match lex l1 l2 with
  | Eq => memcmp (take n l1) (take n l2) = 0 ∧ length l1 = length l2
  | Lt => memcmp (take n l1) (take n l2) < 0 ∨ memcmp (take n l1) (take n l2) = 0 ∧ (length l1 < length l2)%nat
  | Gt => 0 < memcmp (take n l1) (take n l2) ∨ memcmp (take n l1) (take n l2) = 0 ∧ (length l2 < length l1)%nat
  end.
Proof.
  induction l1 as [|a l1 IH]; intros [|b l2] n ->; cbn [lex length Nat.min take memcmp]; try (right; split; [done|lia]); [done|].
  specialize (IH l2 _ eq_refl). destruct (Z.compare_spec a b) as [->|Hab|Hab].
  - rewrite Z.eqb_refl. destruct (lex l1 l2); intuition lia.
  - left. destruct (Z.eqb_spec a b); lia.
  - left. destruct (Z.eqb_spec a b); lia.
Qed.

(** The sign of [sdscmp] is the order of the contents. *)
Lemma sdscmp_ok s1 s2 : sds_ok s1 → sds_ok s2 → s_len s1 <= INT_MAX → s_len s2 <= INT_MAX →
  ∃ r, sdscmp s1 s2 = Some r ∧ (r ?= 0) = lex (content s1) (content s2).
Proof.
  intros H1 H2 Hm1 Hm2. pose proof (so_len _ H1). pose proof (so_block _ H1). pose proof (so_len _ H2). pose proof (so_block _ H2).
  pose proof (content_length s1 H1) as Hc1. pose proof (content_length s2 H2) as Hc2. unfold sdscmp, sdslen.
  set (n := if s_len s1 <? s_len s2 then s_len s1 else s_len s2). assert (Hn : n = Z.min (s_len s1) (s_len s2)) by (unfold n; destruct (Z.ltb_spec (s_len s1) (s_len s2)); lia).
  rewrite !read_at_Some by lia. change (Z.to_nat 0) with O. rewrite !drop_0. eexists. split; [done|].
  assert (Ht : ∀ s, sds_ok s → n <= s_len s → take (Z.to_nat n) (s_buf s) = take (Z.to_nat n) (content s)).
  { intros s Hs Hle. unfold content. rewrite take_take. f_equal. lia. }
  rewrite !Ht by (done || lia). pose proof (memcmp_lex (content s1) (content s2) (Z.to_nat n) ltac:(lia)) as Hl. cbn zeta.
  unfold INT_MAX in *. assert (Hd : to_int (to_size_t (s_len s1 - s_len s2)) = s_len s1 - s_len s2).
  { unfold to_int, to_size_t. destruct (decide (0 <= s_len s1 - s_len s2)).
    - rewrite (Z.mod_small (s_len s1 - s_len s2)), Z.mod_small by lia. lia.
    - replace ((s_len s1 - s_len s2) mod 2 ^ 64) with (s_len s1 - s_len s2 + 2 ^ 64) by (rewrite <- (Z.mod_add _ 1 (2 ^ 64)), Z.mod_small by lia; lia).
      replace (s_len s1 - s_len s2 + 2 ^ 64 + 2 ^ 31) with (s_len s1 - s_len s2 + 2 ^ 31 + 2 ^ 32 * 2 ^ 32) by lia.
      rewrite Z.mod_add, Z.mod_small by lia. lia. }
  rewrite Hd. destruct (lex (content s1) (content s2)).
  - destruct Hl as [-> Hl]. cbn. apply Z.compare_eq_iff. lia.
  - apply Z.compare_lt_iff. destruct Hl as [Hl|[-> Hl]]; [|cbn; lia]. destruct (Z.eqb_spec (memcmp (take (Z.to_nat n) (content s1)) (take (Z.to_nat n) (content s2))) 0); lia.
  - apply Z.compare_gt_iff. destruct Hl as [Hl|[-> Hl]]; [|cbn; lia]. destruct (Z.eqb_spec (memcmp (take (Z.to_nat n) (content s1)) (take (Z.to_nat n) (content s2))) 0); lia.
Qed.

(** ** Trimming *)

Lemma trim_left_ok cset l : ∀ sp e, e - sp + 1 <= Z.of_nat (length l) →
  ∃ k, trim_left l cset sp e = Some (sp + Z.of_nat k) ∧ Z.of_nat k <= Z.max 0 (e - sp + 1) ∧
    Forall (λ c, strchr cset c = true) (take k l) ∧ (sp + Z.of_nat k <= e → ∃ c, l !! k = Some c ∧ strchr cset c = false).
Proof.
  induction l as [|c l IH]; intros sp e Hl; cbn [trim_left length] in *.
  - exists 0%nat. destruct (Z.leb_spec sp e); [lia|]. rewrite Z.add_0_r. split_and!; [done|lia|by constructor|lia].
  - destruct (Z.leb_spec sp e).
    2:{ exists 0%nat. rewrite Z.add_0_r. split_and!; [done|lia|by constructor|lia]. }
    destruct (strchr cset c) eqn:Hc.
    + destruct (IH (sp + 1) e) as (k & -> & Hk & Hall & Hst); [lia|]. exists (S k). split_and!; [f_equal; lia|lia|by constructor|].
      intros Hle. apply Hst. lia.
    + exists 0%nat. rewrite Z.add_0_r. split_and!; [done|lia|by constructor|]. intros _. by exists c.
Qed.

Lemma trim_right_ok cset buf sp n : 0 <= sp → ∀ ep, ep - sp <= Z.of_nat n → ep < Z.of_nat (length buf) →
  ∃ ep', trim_right n buf cset sp ep = Some ep' ∧ ep' <= ep ∧ (ep <= sp → ep' = ep) ∧ (sp <= ep → sp <= ep') ∧
    (∀ i, ep' < i <= ep → ∃ c, buf !! Z.to_nat i = Some c ∧ strchr cset c = true) ∧
    (sp < ep' → ∃ c, buf !! Z.to_nat ep' = Some c ∧ strchr cset c = false).
Proof.
  intros Hsp. induction n as [|n IH]; intros ep Hn Hb; cbn [trim_right]; rewrite Z.gtb_ltb.
  - destruct (Z.ltb_spec sp ep); [lia|]. exists ep. split_and!; try done; lia.
  - destruct (Z.ltb_spec sp ep); [|exists ep; split_and!; try done; lia].
    destruct (lookup_lt_is_Some_2 buf (Z.to_nat ep)) as [c Hc]; [lia|]. rewrite Hc. destruct (strchr cset c) eqn:Hs.
    + destruct (IH (ep - 1)) as (ep' & -> & H1 & H2 & H3 & H4 & H5); [lia|lia|]. exists ep'. split_and!; [done|lia|lia|lia| |done].
      intros i Hi. destruct (decide (i = ep)) as [->|]; [by exists c|]. apply H4. lia.
    + exists ep. split_and!; try done; try lia. intros _. by exists c.
Qed.

Lemma poke_same s n : (n <= length (s_buf s))%nat → poke s 0 (take n (s_buf s)) = Some s.
Proof.
  intros Hn. unfold poke. rewrite write_at_Some by (rewrite ?length_take; lia). change (Z.to_nat 0) with O. rewrite take_0. cbn [app Nat.add].
  rewrite length_take, Nat.min_l, take_drop by done. by destruct s.
Qed.

(** What [sdstrim] leaves does not begin or end with a character of the set, what
    it cuts off is made of them. *)
Lemma sdstrim_ok s cset : sds_ok s →
  ∃ s' pre suf, sdstrim s cset = Some s' ∧ sds_ok s' ∧ content s = pre ++ content s' ++ suf ∧
    Forall (λ c, strchr cset c = true) (pre ++ suf) ∧
    (∀ c, head (content s') = Some c → strchr cset c = false) ∧ (∀ c, last (content s') = Some c → strchr cset c = false).
Proof.
  intros Hs. pose proof (so_len _ Hs). pose proof (so_alloc _ Hs). pose proof (so_block _ Hs). pose proof (content_length s Hs) as Hcl. unfold sdstrim, sdslen.
  destruct (trim_left_ok cset (s_buf s) 0 (s_len s - 1)) as (k & -> & Hk & Hpre & Hhd); [lia|]. rewrite Z.add_0_l in *.
  destruct (trim_right_ok cset (s_buf s) (Z.of_nat k) (Z.to_nat (s_len s)) ltac:(lia) (s_len s - 1)) as (ep & -> & Hep & Hlow & Hge & Htr & Hend); [lia|lia|].
  rewrite Z.gtb_ltb. set (len := if ep <? Z.of_nat k then 0 else ep - Z.of_nat k + 1).
  assert (Hlen : 0 <= len /\ Z.of_nat k + len <= s_len s) by (unfold len; destruct (Z.ltb_spec ep (Z.of_nat k)); lia).
  set (mid := take (Z.to_nat len) (drop k (s_buf s))).
  assert (Hmid : Z.of_nat (length mid) = len) by (unfold mid; rewrite length_take, length_drop; lia).
  assert (Hmove : (if negb (Z.of_nat k =? 0) then match read_at (Z.of_nat k) len (s_buf s) with Some bs => poke s 0 bs | None => None end else Some s) = poke s 0 mid).
  { rewrite read_at_Some by lia. rewrite Nat2Z.id. fold mid. destruct (Z.eqb_spec (Z.of_nat k) 0) as [E|]; [|done]. cbn [negb].
    unfold mid. assert (k = 0%nat) as -> by lia. rewrite drop_0. symmetry. apply poke_same. lia. }
  rewrite Hmove. destruct (put_ok s 0 mid Hs) as (s1 & s2 & -> & Hp & Hok & Hc); [lia|lia|]. rewrite Z.add_0_l, Hmid in Hp, Hok, Hc. cbn zeta in Hok, Hc.
  rewrite Hp. change (Z.to_nat 0) with O in Hc. rewrite take_0 in Hc. cbn [app] in Hc.
  assert (Hmc : mid = take (Z.to_nat len) (drop k (content s))).
  { unfold mid, content. rewrite skipn_firstn_comm, take_take. f_equal. lia. }
  exists (sdssetlen s2 len), (take k (content s)), (drop (k + Z.to_nat len) (content s)). rewrite Hc. split_and!; [done|done| | | |].
  - rewrite Hmc. rewrite <- (take_drop k (content s)) at 1. f_equal. rewrite <- (take_drop (Z.to_nat len) (drop k (content s))) at 1. by rewrite drop_drop.
  - apply Forall_app. split.
    + unfold content. rewrite take_take, Nat.min_l by lia. done.
    + apply Forall_lookup. intros i c Hi. rewrite lookup_drop in Hi. pose proof (lookup_lt_Some _ _ _ Hi) as Hlt.
      unfold content in Hi. rewrite lookup_take_lt in Hi by lia. unfold len in Hi, Hlt, Hlen. destruct (Z.ltb_spec ep (Z.of_nat k)) as [Hlt'|Hge'].
      * assert (Z.of_nat k = s_len s) by lia. lia.
      * destruct (Htr (Z.of_nat (k + Z.to_nat (ep - Z.of_nat k + 1) + i))) as (c' & Hc' & Hst); [lia|]. rewrite Nat2Z.id in Hc'. congruence.
  - intros c Hcd. assert (Hl : 0 < len) by (destruct (decide (len = 0)) as [E|]; [rewrite E in Hmid; destruct mid; [done|simpl in Hmid; lia]|lia]).
    destruct Hhd as (c' & Hc' & Hst); [lia|]. rewrite head_lookup in Hcd. unfold mid in Hcd.
    rewrite lookup_take_lt, lookup_drop, Nat.add_0_r in Hcd by lia. congruence.
  - intros c Hcd. assert (Hl : 0 < len) by (destruct (decide (len = 0)) as [E|]; [rewrite E in Hmid; destruct mid; [done|simpl in Hmid; lia]|lia]).
    rewrite last_lookup in Hcd. unfold mid in Hcd. fold mid in Hcd. replace (Nat.pred (length mid)) with (Z.to_nat len - 1)%nat in Hcd by lia.
    unfold mid in Hcd. rewrite lookup_take_lt, lookup_drop in Hcd by lia. unfold len in Hl, Hcd.
    destruct (Z.ltb_spec ep (Z.of_nat k)); [lia|]. replace (k + (Z.to_nat (ep - Z.of_nat k + 1) - 1))%nat with (Z.to_nat ep) in Hcd by lia.
    destruct (decide (Z.of_nat k < ep)) as [Hlt|].
    + destruct (Hend Hlt) as (c' & Hc' & Hst). congruence.
    + destruct Hhd as (c' & Hc' & Hst); [lia|]. replace (Z.to_nat ep) with k in Hcd by lia. congruence.
Qed.

(** ** Splitting *)

(** No occurrence of [sep] in [t ++ sep] but the last. *)
Definition first_at_end (sep t : list Z) : Prop := ∀ l1 l2, t ++ sep = l1 ++ sep ++ l2 → l2 = [].

Lemma memcmp_eq l1 : ∀ l2, length l1 = length l2 → memcmp l1 l2 = 0 ↔ l1 = l2.
Proof.
  induction l1 as [|a l1 IH]; intros [|b l2] Hl; try done. cbn. injection Hl as Hl. destruct (Z.eqb_spec a b) as [->|Hab].
  - rewrite IH by done. split; [by intros ->|by intros [= ->]].
  - split; [lia|]. intros [= -> _]. done.
Qed.

Definition joined (sep : list Z) (ts : list (list Z)) : list Z := concat ((λ t, t ++ sep) <$> ts).

Lemma first_at_end_intro s sep start j :
  (0 < length sep)%nat → (start <= j)%nat → take (length sep) (drop j s) = sep →
  (∀ i, (start <= i < j)%nat → take (length sep) (drop i s) ≠ sep) →
  first_at_end sep (take (j - start) (drop start s)).
Proof.
  intros Hsep Hj Hat Hno l1 l2 Heq. set (t := take (j - start) (drop start s)) in *.
  assert (Hjs : (j + length sep <= length s)%nat).
  { assert (Hl : length (take (length sep) (drop j s)) = length sep) by (by rewrite Hat). rewrite length_take, length_drop in Hl. lia. }
  assert (Ht : length t = (j - start)%nat) by (unfold t; rewrite length_take, length_drop; lia).
  assert (Hts : t ++ sep = take (j - start + length sep) (drop start s)).
  { rewrite <- take_take_drop, drop_drop. replace (start + (j - start))%nat with j by lia. by rewrite Hat. }
  destruct (decide (length l1 < j - start)%nat) as [Hlt|Hge].
  - exfalso. apply (Hno (start + length l1)%nat); [lia|].
    assert (Hd : drop (length l1) (t ++ sep) = sep ++ l2) by (by rewrite Heq, drop_app_length).
    rewrite Hts in Hd. rewrite <- drop_drop.
    transitivity (take (length sep) (sep ++ l2)); [|apply take_app_length]. rewrite <- Hd, skipn_firstn_comm, take_take. f_equal. lia.
  - assert (length (t ++ sep) = length (l1 ++ sep ++ l2)) as Hl by (by rewrite Heq). rewrite !length_app in Hl. apply length_zero_iff_nil. lia.
Qed.

Definition nowhere (sep l : list Z) : Prop := ∀ l1 l2, l ≠ l1 ++ sep ++ l2.

(** The state of the loop: what is cut off are the tokens, and there is no
    separator between [start] and [j]. *)
Record split_ok (s sep : list Z) (j start : nat) (slots : Z) (tokens : list sds) : Prop := {
  sp_tokens : Forall sds_ok tokens;
  sp_joined : joined sep (content <$> tokens) = take start s;
  sp_first : Forall (first_at_end sep) (content <$> tokens);
  sp_start : (start <= j)%nat ∧ (start <= length s)%nat;
  sp_none : ∀ i, (start <= i < j)%nat → take (length sep) (drop i s) ≠ sep;
  sp_slots : Z.of_nat (length tokens) < slots
}.

Lemma joined_snoc sep ts t : joined sep (ts ++ [t]) = joined sep ts ++ t ++ sep.
Proof. unfold joined. rewrite fmap_app, concat_app. cbn. by rewrite app_nil_r. Qed.

Lemma new_token s (a b : nat) : (a <= b <= length s)%nat → Z.of_nat (length s) < 2 ^ 63 →
  ∃ t tok, read_at (Z.of_nat a) (Z.of_nat b - Z.of_nat a) s = Some t ∧
    sdsnewlen junk true (Some t) (Z.of_nat b - Z.of_nat a) = Some (Some tok) ∧ sds_ok tok ∧ content tok = take (b - a) (drop a s).
Proof.
  intros Hab Hs. rewrite read_at_Some by lia. rewrite Nat2Z.id. replace (Z.to_nat (Z.of_nat b - Z.of_nat a)) with (b - a)%nat by lia.
  set (t := take (b - a) (drop a s)). assert (Ht : Z.of_nat (length t) = Z.of_nat b - Z.of_nat a) by (unfold t; rewrite length_take, length_drop; lia).
  destruct (sdsnewlen_ok junk t (Z.of_nat b - Z.of_nat a)) as (tok & Htok & Hok & Hc & _); [lia|lia|].
  exists t, tok. split_and!; [done|done|done|]. rewrite Hc. apply take_ge. lia.
Qed.

Lemma split_loop_ok s sep : (0 < length sep)%nat → Z.of_nat (length s) < 2 ^ 31 → Z.of_nat (length sep) < 2 ^ 31 →
  ∀ fuel j start slots tokens, split_ok s sep j start slots tokens → (length s - j < fuel)%nat →
  ∃ tokens' start' slots' j', split_loop junk fuel (λ _, true) (λ _, true) s (Z.of_nat (length s)) sep (Z.of_nat (length sep))
      (Z.of_nat j) (Z.of_nat start) slots tokens = Some (Some (tokens', Z.of_nat start', slots')) ∧
    split_ok s sep j' start' slots' tokens' ∧ (length s < j' + length sep)%nat.
Proof.
  intros Hsep Hs Hsm. induction fuel as [|fuel IH]; intros j start slots tokens Hok Hf; [lia|]. cbn [split_loop].
  destruct Hok as [H1 H2 H3 [H4a H4b] H5 H6]. destruct (Z.ltb_spec (Z.of_nat j) (Z.of_nat (length s) - (Z.of_nat (length sep) - 1))) as [Hj|Hj].
  2:{ exists tokens, start, slots, j. split; [done|]. split; [by split|lia]. }
  cbn [negb]. rewrite andb_false_r. set (slots' := if slots <? Z.of_nat (length tokens) + 2 then slots * 2 else slots).
  assert (Hsl : Z.of_nat (length tokens) + 2 <= slots') by (unfold slots'; destruct (Z.ltb_spec slots (Z.of_nat (length tokens) + 2)); lia).
  rewrite read_at_Some by lia. rewrite !Nat2Z.id. set (here := take (length sep) (drop j s)).
  assert (Hh : length here = length sep) by (unfold here; rewrite length_take, length_drop; lia).
  pose proof (memcmp_eq here sep Hh) as Hm. destruct (Z.eqb_spec (memcmp here sep) 0) as [E|E].
  - apply Hm in E. destruct (Z.ltb_spec (Z.of_nat (length tokens)) slots'); [|lia].
    destruct (new_token s start j) as (t & tok & -> & -> & Htok & Hct); [lia|lia|].
    replace (Z.of_nat j + Z.of_nat (length sep) - 1 + 1) with (Z.of_nat (j + length sep)) by lia.
    replace (Z.of_nat j + Z.of_nat (length sep)) with (Z.of_nat (j + length sep)) by lia. apply IH; [|lia].
    split.
    + apply Forall_app. by split; [|constructor].
    + rewrite fmap_app. cbn [fmap list_fmap]. rewrite joined_snoc, H2, Hct.
      transitivity (take start s ++ take (j - start) (drop start s) ++ here); [by rewrite E|]. unfold here.
      rewrite app_assoc, take_take_drop. replace (start + (j - start))%nat with j by lia. by rewrite take_take_drop.
    + rewrite fmap_app. apply Forall_app. split; [done|]. constructor; [|done]. rewrite Hct. by apply first_at_end_intro.
    + lia.
    + lia.
    + rewrite length_app. simpl. lia.
  - replace (Z.of_nat j + 1) with (Z.of_nat (j + 1)) by lia. apply IH; [|lia]. split; try done; try lia.
    intros i Hi. destruct (decide (i = j)) as [->|]; [|apply H5; lia]. intros Heq. apply E, Hm. exact Heq.
Qed.

(** The tokens of a string. *)
Definition split_into (sep s : list Z) (ts : list (list Z)) (u : list Z) : Prop :=
  s = joined sep ts ++ u ∧ Forall (first_at_end sep) ts ∧ nowhere sep u.

Lemma sdssplitlen_ok s sep : (0 < length sep)%nat → s ≠ [] → Z.of_nat (length s) < 2 ^ 31 → Z.of_nat (length sep) < 2 ^ 31 →
  ∃ toks u, sdssplitlen junk true (λ _, true) (λ _, true) s sep = Some (Some (toks ++ [u])) ∧ Forall sds_ok (toks ++ [u]) ∧
    split_into sep s (content <$> toks) (content u).
Proof.
  intros Hsep Hs Hl Hl2. unfold sdssplitlen. destruct (Z.ltb_spec (Z.of_nat (length sep)) 1); [lia|]. cbn [negb].
  destruct (Z.eqb_spec (Z.of_nat (length s)) 0); [destruct s; [done|simpl in *; lia]|].
  destruct (split_loop_ok s sep Hsep Hl Hl2 (S (length s)) 0 0 5 []) as (toks & start & slots & j & Hloop & Hok & Hj); [|lia|].
  { by split; try done; lia. }
  change (Z.of_nat 0) with 0 in Hloop. rewrite Hloop. destruct Hok as [H1 H2 H3 [H4a H4b] H5 H6].
  destruct (Z.ltb_spec (Z.of_nat (length toks)) slots); [|lia].
  destruct (new_token s start (length s)) as (t & u & -> & -> & Hu & Hcu); [lia|lia|].
  exists toks, u. split; [done|]. split; [apply Forall_app; by split; [|constructor]|].
  rewrite take_ge in Hcu by (rewrite length_drop; lia). split_and!.
  - by rewrite H2, Hcu, take_drop.
  - done.
  - intros l1 l2 Heq. rewrite Hcu in Heq. assert (Hlen : length (drop start s) = length (l1 ++ sep ++ l2)) by (by rewrite Heq).
    rewrite length_drop, !length_app in Hlen. apply (H5 (start + length l1)%nat); [lia|].
    by rewrite <- drop_drop, Heq, drop_app_length, take_app_length.
Qed.

(** ** Joining *)

Fixpoint join_with (sep : list Z) (ts : list (list Z)) : list Z :=
  match ts with [] => [] | [t] => t | t :: r => t ++ sep ++ join_with sep r end.

Lemma join_with_joined sep ts u : join_with sep (ts ++ [u]) = joined sep ts ++ u.
Proof.
  induction ts as [|t ts IH]; [done|]. cbn [app]. assert (∃ x l, ts ++ [u] = x :: l) as (x & l & E) by (destruct ts; by eexists _, _).
  unfold joined in *. rewrite fmap_cons. cbn [concat join_with]. rewrite E in *. rewrite IH. by rewrite <- !app_assoc.
Qed.

Lemma catsds_ok s t : sds_ok s → sds_ok t → Z.of_nat (length (content s ++ content t)) < 2 ^ 63 →
  ∃ s', sdscatsds junk true s t = Some (Some s') ∧ sds_ok s' ∧ content s' = content s ++ content t.
Proof.
  intros Hs Ht Hl. rewrite length_app in Hl. pose proof (content_length s Hs). pose proof (content_length t Ht). pose proof (so_len _ Ht). pose proof (so_block _ Ht).
  unfold sdscatsds, sdslen. rewrite read_at_Some by lia. change (Z.to_nat 0) with O. rewrite drop_0. fold (content t).
  destruct (sdscatlen_ok junk s (content t) Hs) as (s' & -> & Hs' & Hc); [lia|]. by exists s'.
Qed.

Lemma join_loop_ok sep ts : ∀ j, Forall sds_ok ts → sds_ok j → Z.of_nat (length (content j ++ join_with sep (content <$> ts))) < 2 ^ 62 →
  ∃ j', join_loop junk true ts sep (Some j) = Some (Some j') ∧ sds_ok j' ∧ content j' = content j ++ join_with sep (content <$> ts).
Proof.
  induction ts as [|t ts IH]; intros j Hts Hj Hl; cbn [join_loop not_null]; [exists j; by rewrite app_nil_r|].
  apply Forall_cons in Hts as [Ht Hts]. destruct ts as [|t2 ts].
  - cbn [fmap list_fmap join_with] in *. destruct (catsds_ok j t Hj Ht) as (j1 & -> & Hj1 & Hc1); [lia|]. by exists j1.
  - change (join_with sep (content <$> t :: t2 :: ts)) with (content t ++ sep ++ join_with sep (content <$> t2 :: ts)) in *.
    rewrite !length_app in Hl. destruct (catsds_ok j t Hj Ht) as (j1 & -> & Hj1 & Hc1); [rewrite length_app; lia|]. cbn [not_null].
    pose proof (content_length j1 Hj1) as Hl1. rewrite Hc1, length_app in Hl1.
    destruct (sdscatlen_ok junk j1 sep Hj1) as (j2 & -> & Hj2 & Hc2); [lia|]. cbn [not_null].
    destruct (IH j2 Hts Hj2) as (j3 & -> & Hj3 & Hc3); [rewrite Hc2, Hc1, !length_app; lia|].
    exists j3. split_and!; [done|done|]. by rewrite Hc3, Hc2, Hc1, <- !app_assoc.
Qed.

Lemma sdsjoinsds_ok sep ts : Forall sds_ok ts → Z.of_nat (length (join_with sep (content <$> ts))) < 2 ^ 62 →
  ∃ j, sdsjoinsds junk true ts sep = Some (Some j) ∧ sds_ok j ∧ content j = join_with sep (content <$> ts).
Proof.
  intros Hts Hl. unfold sdsjoinsds. destruct (sdsnewlen_ok junk [] 0) as (j & Hj & Hok & Hc & _); [done|done|]. unfold sdsempty. rewrite Hj. cbn [not_null].
  rewrite take_nil in Hc. destruct (join_loop_ok sep ts j Hts Hok) as (j' & -> & Hok' & Hc'); [by rewrite Hc|]. exists j'. by rewrite Hc', Hc.
Qed.

(** ** The property *)

(** Splitting cuts a string at every occurrence of the separator, taken from
    the left: what is before a cut holds no earlier occurrence, the rest none at
    all; and joining the pieces with the separator gives the string back.  No
    access leaves the string or the array of the tokens. *)
Theorem split_join_roundtrip s sep :
  (0 < length sep)%nat → s ≠ [] → Z.of_nat (length s) < 2 ^ 31 → Z.of_nat (length sep) < 2 ^ 31 →
  ∃ toks u j, sdssplitlen junk true (λ _, true) (λ _, true) s sep = Some (Some (toks ++ [u])) ∧
    Forall (first_at_end sep) (content <$> toks) ∧ nowhere sep (content u) ∧
    sdsjoinsds junk true (toks ++ [u]) sep = Some (Some j) ∧ content j = s.
Proof.
  intros Hsep Hs Hl Hl2. destruct (sdssplitlen_ok s sep Hsep Hs Hl Hl2) as (toks & u & Hsp & Hok & (Heq & Hf & Hn)).
  assert (Hj : join_with sep (content <$> toks ++ [u]) = s) by (rewrite fmap_app; cbn; rewrite join_with_joined; by symmetry).
  destruct (sdsjoinsds_ok sep (toks ++ [u]) Hok) as (j & Hjn & _ & Hc); [rewrite Hj; lia|].
  exists toks, u, j. split_and!; try done. by rewrite Hc.
Qed.
End props.

Lemma split_join_roundtrip_witness :
  ∃ toks u j, sdssplitlen 170 true (λ _, true) (λ _, true) [97; 44; 44; 98; 44; 44; 44] [44; 44] = Some (Some (toks ++ [u])) ∧
    sdsjoinsds 170 true (toks ++ [u]) [44; 44] = Some (Some j) ∧ content j = [97; 44; 44; 98; 44; 44; 44].
Proof.
  destruct (split_join_roundtrip 170 [97; 44; 44; 98; 44; 44; 44] [44; 44]) as (toks & u & j & Hs & _ & _ & Hj & Hc);
    [simpl; lia|done|simpl; lia|simpl; lia|]. by exists toks, u, j.
Defined.
