(* ===== verification/SdsArgs.v ===== *)
(** * vendors/hiredis/sds.c: quoting, and splitting a line into arguments

    [sdscatrepr] appends a string in quotes with escapes; [sdssplitargs] splits a
    line with quotes and escapes into its arguments.  The pointer [p] is the
    memory from it on.  Whatever bytes the arguments hold, a line of quoted
    arguments is split into them again. *)

From S2P Require Import Prelude Sds SdsProps SdsText SdsTextProps.
Local Open Scope Z_scope.

(** ** Quoting *)

Definition dquote : Z := 34.
Definition squote : Z := 39.
Definition back : Z := 92.

Definition isprint (c : Z) : bool := (32 <=? c) && (c <=? 126).
Definition isspace (c : Z) : bool := (c =? 32) || (9 <=? c) && (c <=? 13).

(** A digit of [%02x]. *)
Definition hex (d : Z) : Z := if d <? 10 then 48 + d else 97 + (d - 10).

Section sds.
Context (junk : Z) (ok : bool).

(** One character of [sdscatrepr]. *)
Definition cat_char (s : sds) (c : Z) : option sds :=
  not_null
    (if (c =? back) || (c =? dquote) then sdscatprintf junk ok ok s 3 [back; c]
     else if c =? 10 then sdscatlen junk ok s [back; 110]
     else if c =? 13 then sdscatlen junk ok s [back; 114]
     else if c =? 9 then sdscatlen junk ok s [back; 116]
     else if c =? 7 then sdscatlen junk ok s [back; 97]
     else if c =? 8 then sdscatlen junk ok s [back; 98]
     else if isprint c then sdscatprintf junk ok ok s 2 [c]
     else sdscatprintf junk ok ok s 6 [back; 120; hex (c / 16); hex (c mod 16)]).

Fixpoint cat_chars (s : sds) (p : list Z) : option sds :=
  match p with
  | [] => Some s
  | c :: r => match cat_char s c with Some s1 => cat_chars s1 r | None => None end
  end.

(** [sds sdscatrepr(sds s, const char *p, size_t len)]; [p] are the [len]
    bytes. *)
Definition sdscatrepr (s : sds) (p : list Z) : option (option sds) :=
  match not_null (sdscatlen junk ok s [dquote]) with
  | None => None
  | Some s1 => match cat_chars s1 p with Some s2 => sdscatlen junk ok s2 [dquote] | None => None end
  end.

(** ** Splitting a line *)

Definition is_hex_digit (c : Z) : bool :=
  (48 <=? c) && (c <=? 57) || (97 <=? c) && (c <=? 102) || (65 <=? c) && (c <=? 70).

Definition hex_digit_to_int (c : Z) : Z :=
  if (48 <=? c) && (c <=? 57) then c - 48
  else if (97 <=? c) && (c <=? 102) then c - 87
  else if (65 <=? c) && (c <=? 70) then c - 55
  else 0.

(** [current = sdscatlen(current, &c, 1)] *)
Definition push (current : sds) (c : Z) : option sds := not_null (sdscatlen junk ok current [c]).

(** [inq], [insq], or none of them. *)
Inductive quoting := unquoted | in_double | in_single.

(** A token ends, with what is behind it, or there is an error. *)
Inductive token := ends (current : sds) (p : list Z) | unbalanced.

(** The character an escape stands for. *)
Definition escaped (c : Z) : Z :=
  if c =? 110 then 10 else if c =? 114 then 13 else if c =? 116 then 9 else if c =? 98 then 8 else if c =? 97 then 7 else c.

(** A blank or the end is behind the closing quote; [p1] is the memory behind
    it. *)
Definition closed (p1 : list Z) : option bool :=
  match p1 with [] => None | d :: _ => Some ((d =? 0) || isspace d) end.

(** The loop that gets a token. *)
Fixpoint get_token (p : list Z) (q : quoting) (current : sds) : option token :=
  match p with
  | [] => None
  | c :: p1 =>
    match q with
    | in_double =>
      let normal :=
        if c =? dquote then
          match closed p1 with None => None | Some true => Some (ends current p1) | Some false => Some unbalanced end
        else if c =? 0 then Some unbalanced
        else match push current c with Some s => get_token p1 in_double s | None => None end in
      if c =? back then
        match p1 with
        | [] => None
        | d :: p2 =>
          let escape :=
            if d =? 0 then normal
            else match push current (escaped d) with Some s => get_token p2 in_double s | None => None end in
          if d =? 120 then
            match p2 with
            | [] => None
            | h1 :: p3 =>
              if is_hex_digit h1 then
                match p3 with
                | [] => None
                | h2 :: p4 =>
                  if is_hex_digit h2 then
                    match push current (hex_digit_to_int h1 * 16 + hex_digit_to_int h2) with
                    | Some s => get_token p4 in_double s
                    | None => None
                    end
                  else escape
                end
              else escape
            end
          else escape
        end
      else normal
    | in_single =>
      let normal :=
        if c =? squote then
          match closed p1 with None => None | Some true => Some (ends current p1) | Some false => Some unbalanced end
        else if c =? 0 then Some unbalanced
        else match push current c with Some s => get_token p1 in_single s | None => None end in
      if c =? back then
        match p1 with
        | [] => None
        | d :: p2 =>
          if d =? squote then match push current squote with Some s => get_token p2 in_single s | None => None end else normal
        end
      else normal
    | unquoted =>
      if (c =? 32) || (c =? 10) || (c =? 13) || (c =? 9) then Some (ends current p1)
      else if c =? 0 then Some (ends current p)
      else if c =? dquote then get_token p1 in_double current
      else if c =? squote then get_token p1 in_single current
      else match push current c with Some s => get_token p1 unquoted s | None => None end
    end
  end.

(** The bytes from the first one on that is no blank. *)
Fixpoint skip_blanks (p : list Z) : option (list Z) :=
  match p with
  | [] => None
  | c :: p1 => if negb (c =? 0) && isspace c then skip_blanks p1 else Some p
  end.

(** The outer loop; [vector] are the arguments so far.  Every token takes a
    byte. *)
Fixpoint args_loop (fuel : nat) (p : list Z) (vector : list sds) : option (option (list sds)) :=
  match fuel with
  | O => None
  | S fuel' =>
    match skip_blanks p with
    | None => None
    | Some p1 =>
      match p1 with
      | [] => None
      | c :: _ =>
        if c =? 0 then Some (Some vector)
        else
          match not_null (sdsempty junk ok) with
          | None => None
          | Some current =>
            match get_token p1 unquoted current with
            | None => None
            | Some unbalanced => Some None
            | Some (ends current p2) => args_loop fuel' p2 (vector ++ [current])
            end
          end
      end
    end
  end.

(** [sds *sdssplitargs(const char *line, int *argc)]; the line with its
    terminating zero.  [Some None] is the null pointer. *)
Definition sdssplitargs (line : list Z) : option (option (list sds)) := args_loop (S (length line)) line [].
End sds.

(** ** What is printed *)

Definition escape (c : Z) : list Z :=
  if (c =? back) || (c =? dquote) then [back; c]
  else if c =? 10 then [back; 110]
  else if c =? 13 then [back; 114]
  else if c =? 9 then [back; 116]
  else if c =? 7 then [back; 97]
  else if c =? 8 then [back; 98]
  else if isprint c then [c]
  else [back; 120; hex (c / 16); hex (c mod 16)].

Definition quoted (l : list Z) : list Z := [dquote] ++ concat (escape <$> l) ++ [dquote].

(** A line: the quoted arguments with blanks in between. *)
Definition line_of (args : list (list Z)) : list Z := join_with [32] (quoted <$> args) ++ [0].

Definition byte (c : Z) : Prop := 0 <= c < 256.

(** ** Escapes are undone *)

Section props.
Context (junk : Z).

Lemma push_byte_ok s c : sds_ok s → s_len s < 2 ^ 62 → ∃ s', push junk true s c = Some s' ∧ sds_ok s' ∧ content s' = content s ++ [c].
Proof. intros Hs Hl. destruct (sdscatlen_ok junk s [c] Hs) as (s' & H & H'); [simpl; lia|]. exists s'. unfold push. by rewrite H. Qed.

Lemma hex_digit d : 0 <= d < 16 → is_hex_digit (hex d) = true ∧ hex_digit_to_int (hex d) = d.
Proof.
  intros Hd. unfold is_hex_digit, hex_digit_to_int, hex. destruct (Z.ltb_spec d 10).
  - replace ((48 <=? 48 + d) && (48 + d <=? 57)) with true by (symmetry; apply andb_true_intro; lia). split; [done|lia].
  - replace ((48 <=? 97 + (d - 10)) && (97 + (d - 10) <=? 57)) with false by (symmetry; apply andb_false_intro2; lia).
    replace ((97 <=? 97 + (d - 10)) && (97 + (d - 10) <=? 102)) with true by (symmetry; apply andb_true_intro; lia). split; [done|lia].
Qed.

Lemma escape_nonzero c : byte c → Forall (λ x, x ≠ 0) (escape c).
Proof.
  intros Hc. unfold byte in Hc. assert (∀ d, 0 <= d → hex d ≠ 0) as Hh by (intros d Hd; unfold hex; case_if; lia).
  unfold escape, back, dquote, isprint. repeat case_if; bool_to_prop; repeat constructor; try lia; apply Hh; [apply Z.div_pos; lia|apply Z.mod_pos_bound; lia].
Qed.

Lemma cat_char_ok s c : sds_ok s → byte c → s_len s < 2 ^ 62 → ∃ s', cat_char junk true s c = Some s' ∧ sds_ok s' ∧ content s' = content s ++ escape c.
Proof.
  intros Hs Hc Hl. pose proof (escape_nonzero c Hc) as Hz.
  assert (Hcat : ∀ l, Z.of_nat (length l) = 2 → ∃ s', not_null (sdscatlen junk true s l) = Some s' ∧ sds_ok s' ∧ content s' = content s ++ l).
  { intros l Hll. destruct (sdscatlen_ok junk s l Hs) as (s' & -> & H'); [lia|]. by exists s'. }
  assert (Hpr : ∀ n l, 0 <= n < 10 → (length l <= 4)%nat → Forall (λ x, x ≠ 0) l →
    ∃ s', not_null (sdscatprintf junk true true s n l) = Some s' ∧ sds_ok s' ∧ content s' = content s ++ l).
  { intros n l Hn Hll Hnz. destruct (sdscatprintf_ok junk s n l Hs) as (s' & -> & Hs' & Hc'); [lia|lia|lia|].
    exists s'. split_and!; [done|done|]. by rewrite Hc', until_zero_id. }
  unfold cat_char, escape in *. repeat case_if; first [by apply Hcat | apply Hpr; [lia|simpl; lia|done]].
Qed.

Lemma cat_chars_ok l : ∀ s, sds_ok s → Forall byte l → Z.of_nat (length (content s ++ concat (escape <$> l))) < 2 ^ 62 →
  ∃ s', cat_chars junk true s l = Some s' ∧ sds_ok s' ∧ content s' = content s ++ concat (escape <$> l).
Proof.
  induction l as [|c l IH]; intros s Hs Hb Hl; cbn [cat_chars fmap list_fmap concat] in *; [exists s; by rewrite app_nil_r|].
  apply Forall_cons in Hb as [Hc Hb]. pose proof (content_length s Hs) as Hcl. rewrite length_app in Hl.
  destruct (cat_char_ok s c Hs Hc) as (s1 & -> & Hs1 & Hc1); [lia|].
  destruct (IH s1 Hs1 Hb) as (s2 & -> & Hs2 & Hc2); [rewrite Hc1, <- app_assoc, length_app; lia|].
  exists s2. split_and!; [done|done|]. by rewrite Hc2, Hc1, <- app_assoc.
Qed.

Lemma sdscatrepr_ok s l : sds_ok s → Forall byte l → Z.of_nat (length (content s ++ quoted l)) < 2 ^ 62 →
  ∃ s', sdscatrepr junk true s l = Some (Some s') ∧ sds_ok s' ∧ content s' = content s ++ quoted l.
Proof.
  intros Hs Hb Hl. unfold quoted in *. rewrite !length_app in Hl. pose proof (content_length s Hs). cbn [length] in Hl. unfold sdscatrepr.
  destruct (sdscatlen_ok junk s [dquote] Hs) as (s1 & -> & Hs1 & Hc1); [simpl; lia|]. cbn [not_null].
  destruct (cat_chars_ok l s1 Hs1 Hb) as (s2 & -> & Hs2 & Hc2); [rewrite Hc1, !length_app; cbn [length]; lia|].
  pose proof (content_length s2 Hs2) as Hl2. rewrite Hc2, Hc1, !length_app in Hl2. cbn [length] in Hl2.
  destruct (sdscatlen_ok junk s2 [dquote] Hs2) as (s3 & -> & Hs3 & Hc3); [simpl; lia|].
  exists s3. split_and!; [done|done|]. by rewrite Hc3, Hc2, Hc1, <- !app_assoc.
Qed.

Lemma get_token_escape c r cur : byte c →
  get_token junk true (escape c ++ r) in_double cur =
    match push junk true cur c with Some s => get_token junk true r in_double s | None => None end.
Proof.
  intros Hc. unfold byte in Hc. unfold escape. destruct ((c =? back) || (c =? dquote)) eqn:H1.
  { apply orb_prop in H1 as [->%Z.eqb_eq| ->%Z.eqb_eq]; done. }
  apply orb_false_elim in H1 as [Hb Hq].
  do 5 (match goal with |- context [if ?b then _ else _] => destruct b eqn:Hx end; [apply Z.eqb_eq in Hx as ->; done|]; clear Hx).
  destruct (isprint c) eqn:Hp.
  - cbn [app get_token]. rewrite Hb, Hq. unfold isprint in Hp. by destruct (Z.eqb_spec c 0); [subst|].
  - pose proof (Z_div_mod_eq_full c 16) as Hdm.
    destruct (hex_digit (c / 16)) as [Hh1 Hv1]; [split; [apply Z.div_pos; lia|apply Z.div_lt_upper_bound; lia]|].
    destruct (hex_digit (c mod 16)) as [Hh2 Hv2]; [apply Z.mod_pos_bound; lia|].
    cbn [app get_token]. change (back =? back) with true. change (120 =? 120) with true. cbn iota. rewrite Hh1, Hh2, Hv1, Hv2.
    by replace (c / 16 * 16 + c mod 16) with c by lia.
Qed.

Lemma get_token_quoted l : ∀ rest cur, Forall byte l → sds_ok cur → closed rest = Some true →
  Z.of_nat (length (content cur ++ l)) < 2 ^ 62 →
  ∃ tok, get_token junk true (concat (escape <$> l) ++ [dquote] ++ rest) in_double cur = Some (ends tok rest) ∧
    sds_ok tok ∧ content tok = content cur ++ l.
Proof.
  induction l as [|c l IH]; intros rest cur Hb Hs Hr Hl; cbn [fmap list_fmap concat].
  - exists cur. cbn [app get_token]. change (dquote =? back) with false. change (dquote =? dquote) with true. cbn iota.
    rewrite Hr. by rewrite app_nil_r.
  - apply Forall_cons in Hb as [Hc Hb]. rewrite length_app in Hl. cbn [length] in Hl. pose proof (content_length cur Hs).
    rewrite <- app_assoc, get_token_escape by done. destruct (push_byte_ok cur c Hs) as (s1 & -> & Hs1 & Hc1); [lia|].
    destruct (IH rest s1 Hb Hs1 Hr) as (tok & -> & Ht & Htc); [rewrite Hc1, !length_app; simpl; lia|].
    exists tok. split_and!; [done|done|]. by rewrite Htc, Hc1, <- app_assoc.
Qed.

(** What is behind an argument. *)
Definition tail_of (args : list (list Z)) : list Z := match args with [] => [0] | _ => 32 :: line_of args end.

Lemma line_of_cons a args : line_of (a :: args) = quoted a ++ tail_of args.
Proof. destruct args as [|b args]; [done|]. unfold line_of. cbn [fmap list_fmap join_with]. by rewrite <- !app_assoc. Qed.

Lemma args_loop_ok args : ∀ fuel p vec, p = tail_of args ∨ p = line_of args → (length args < fuel)%nat →
  Forall (λ a, Forall byte a ∧ Z.of_nat (length a) < 2 ^ 62) args →
  ∃ toks, args_loop junk true fuel p vec = Some (Some (vec ++ toks)) ∧ Forall sds_ok toks ∧ content <$> toks = args.
Proof.
  induction args as [|a args IH]; intros fuel p vec Hp Hf Ha; (destruct fuel as [|fuel]; [simpl in Hf; lia|]).
  { exists []. rewrite app_nil_r. by destruct Hp as [->| ->]. }
  apply Forall_cons in Ha as [[Hb Hl] Ha].
  assert (skip_blanks p = Some (line_of (a :: args))) as Hskip by (rewrite line_of_cons; destruct Hp as [->| ->]; [unfold tail_of|]; by rewrite line_of_cons).
  cbn [args_loop]. rewrite Hskip, line_of_cons. unfold quoted. rewrite <- !app_assoc. cbn [app].
  change (dquote =? 0) with false. cbn iota.
  destruct (sdsnewlen_ok junk [] 0) as (cur & Hcur & Hcok & Hcc & _); [done|done|]. unfold sdsempty. rewrite Hcur. cbn [not_null].
  rewrite take_nil in Hcc. cbn [get_token]. change (get_token junk true (dquote :: ?l) unquoted cur) with (get_token junk true l in_double cur).
  destruct (get_token_quoted a (tail_of args) cur Hb Hcok) as (tok & Ht & Htok & Htc); [by destruct args|by rewrite Hcc|].
  cbn [app] in Ht. simpl (dquote =? _). cbn [orb]. rewrite Ht. destruct (IH fuel (tail_of args) (vec ++ [tok]) (or_introl eq_refl) ltac:(simpl in Hf; lia) Ha) as (toks & -> & Htoks & Htcs).
  exists (tok :: toks). split_and!; [by rewrite <- app_assoc|by constructor|]. cbn. by rewrite Htc, Hcc, Htcs.
Qed.

Lemma line_of_length args : (length args < length (line_of args))%nat.
Proof.
  induction args as [|a args IH]; [simpl; lia|]. rewrite line_of_cons. unfold quoted. rewrite !length_app. cbn [length].
  destruct args as [|b args]; [simpl; lia|]. unfold tail_of. cbn [length] in *. lia.
Qed.

Lemma quoted_length a : (length (quoted a) <= 4 * length a + 2)%nat.
Proof.
  unfold quoted. rewrite !length_app. cbn [length]. induction a as [|c a IH]; [simpl; lia|]. cbn [fmap list_fmap concat]. rewrite length_app.
  assert (length (escape c) <= 4)%nat by (unfold escape; repeat case_if; simpl; lia). cbn [length]. lia.
Qed.

(** C39: [sdscatrepr] writes any bytes so that [sdssplitargs] gets them back: for
    every list of arguments there are strings that hold them quoted, and the line
    made of these, with blanks in between, is split into exactly the
    arguments. *)
Theorem quoted_line_splits args : Forall (λ a, Forall byte a ∧ Z.of_nat (length a) < 2 ^ 59) args →
  ∃ empty qs toks, sdsempty junk true = Some (Some empty) ∧
    Forall2 (λ a q, sdscatrepr junk true empty a = Some (Some q)) args qs ∧
    sdssplitargs junk true (join_with [32] (content <$> qs) ++ [0]) = Some (Some toks) ∧ content <$> toks = args.
Proof.
  intros Ha. destruct (sdsnewlen_ok junk [] 0) as (e & He & Heok & Hec & _); [done|done|]. rewrite take_nil in Hec.
  assert (∃ qs, Forall2 (λ a q, sdscatrepr junk true e a = Some (Some q)) args qs ∧ content <$> qs = quoted <$> args) as (qs & Hqs & Hq).
  { clear He. induction Ha as [|a args [Hb Hl] _ (qs & H1 & H2)]; [by exists []|].
    destruct (sdscatrepr_ok e a Heok Hb) as (q & Hq & _ & Hqc).
    { rewrite Hec. cbn [app]. pose proof (quoted_length a). lia. }
    exists (q :: qs). split; [by constructor|]. cbn. by rewrite Hqc, Hec, H2. }
  destruct (args_loop_ok args (S (length (line_of args))) (line_of args) [] (or_intror eq_refl)) as (toks & Ht & _ & Htc).
  { pose proof (line_of_length args). lia. }
  { eapply Forall_impl; [exact Ha|]. cbn. intros a [? ?]. split; [done|lia]. }
  exists e, qs, toks. split_and!; [exact He|exact Hqs| |exact Htc]. rewrite Hq. exact Ht.
Qed.
End props.

Lemma quoted_line_splits_witness :
  ∃ toks, sdssplitargs 170 true ([34; 102; 92; 34; 92; 110; 34] ++ [32] ++ [34; 92; 120; 102; 102; 92; 120; 48; 48; 32; 39; 34] ++ [0]) = Some (Some toks) ∧
    content <$> toks = [[102; 34; 10]; [255; 0; 32; 39]].
Proof.
  destruct (quoted_line_splits 170 [[102; 34; 10]; [255; 0; 32; 39]]) as (e & qs & toks & He & Hqs & Hs & Hc).
  { repeat constructor; cbn; lia. }
  exists toks. split; [|exact Hc]. rewrite <- Hs. f_equal. vm_compute in He. injection He as <-.
  inversion Hqs as [|? q1 ? qs1 E1 Hqs1]; subst. inversion Hqs1 as [|? q2 ? qs2 E2 Hqs2]; subst. inversion Hqs2; subst.
  vm_compute in E1. injection E1 as <-. vm_compute in E2. injection E2 as <-. reflexivity.
Defined.
