(* ===== verification/Read.v ===== *)
(** * vendors/hiredis/read.c: the incremental parser of the Redis protocol

    A reader keeps what was fed to it in a dynamic string, the position up to
    which it is parsed, and a stack of the arrays being read.  [GetReply] goes
    on where it stopped when the bytes ran out.  The objects of a reply are
    made by functions the user supplies; they work on a heap that is the type
    [heap] here, and return an address ([None] is the null pointer).  A failed
    [assert], an access outside of the buffer and a call through a null pointer
    are [None]. *)

From Stdlib Require Ascii String.
From stdpp Require Import strings.
From S2P Require Import Prelude Sds Numbers.
Local Open Scope Z_scope.

Definition REDIS_ERR : Z := -1.
Definition REDIS_OK : Z := 0.
Definition REDIS_ERR_IO : Z := 1.
Definition REDIS_ERR_OTHER : Z := 2.
Definition REDIS_ERR_EOF : Z := 3.
Definition REDIS_ERR_PROTOCOL : Z := 4.
Definition REDIS_ERR_OOM : Z := 5.

Definition REDIS_REPLY_STRING : Z := 1.
Definition REDIS_REPLY_ARRAY : Z := 2.
Definition REDIS_REPLY_INTEGER : Z := 3.
Definition REDIS_REPLY_NIL : Z := 4.
Definition REDIS_REPLY_STATUS : Z := 5.
Definition REDIS_REPLY_ERROR : Z := 6.

Definition REDIS_READER_MAX_BUF : Z := 1024 * 16.

(** The codes of the characters of a literal. *)
Definition chars (s : string) : list Z := (λ a, Z.of_N (Ascii.N_of_ascii a)) <$> String.list_ascii_of_string s.

Definition char_CR : Z := 13.
Definition char_LF : Z := 10.

(** ** Characters in error messages *)

Definition quote : Z := 34.
Definition backslash : Z := 92.
Definition isprint (c : Z) : bool := (32 <=? c) && (c <=? 126).
Definition hex_digit (d : Z) : Z := if d <? 10 then 48 + d else 97 + (d - 10).

(** [static size_t chrtos(char *buf, size_t size, char byte)]: what it prints;
    at most [size - 1] characters are stored. *)
Definition chrtos (size : Z) (byte : Z) : list Z :=
  let s :=
    if (byte =? backslash) || (byte =? quote) then [quote; backslash; byte; quote]
    else if byte =? 10 then [quote; backslash; 110; quote]
    else if byte =? 13 then [quote; backslash; 114; quote]
    else if byte =? 9 then [quote; backslash; 116; quote]
    else if byte =? 7 then [quote; backslash; 97; quote]
    else if byte =? 8 then [quote; backslash; 98; quote]
    else if isprint byte then [quote; byte; quote]
    else [quote; backslash; 120; hex_digit (byte / 16); hex_digit (byte mod 16); quote] in
  take (Z.to_nat (size - 1)) s.

Section reader.
Context {heap : Type}.

(** [redisReadTask]; [parent] is the index of the parent in the stack. *)
Record redisReadTask := mk_task { t_type : Z; elements : Z; idx : Z; obj : option nat; parent : option nat }.

(** The functions that make objects get the task and, as what its [parent]
    points to, the task of the array around it. *)
Record redisReplyObjectFunctions := mk_functions {
  createString : option (redisReadTask → option redisReadTask → list Z → heap → option (option nat * heap));
  createArray : option (redisReadTask → option redisReadTask → Z → heap → option (option nat * heap));
  createInteger : option (redisReadTask → option redisReadTask → Z → heap → option (option nat * heap));
  createNil : option (redisReadTask → option redisReadTask → heap → option (option nat * heap));
  freeObject : option (nat → heap → option heap)
}.

Record redisReader := mk_reader {
  err : Z;
  errstr : list Z;
  buf : option sds;
  pos : Z;
  len : Z;
  maxbuf : Z;
  rstack : list redisReadTask;
  ridx : Z;
  reply : option nat;
  fn : option redisReplyObjectFunctions
}.

Definition set_pos v r := mk_reader (err r) (errstr r) (buf r) v (len r) (maxbuf r) (rstack r) (ridx r) (reply r) (fn r).
Definition set_stack s i r := mk_reader (err r) (errstr r) (buf r) (pos r) (len r) (maxbuf r) s i (reply r) (fn r).
Definition set_reply v r := mk_reader (err r) (errstr r) (buf r) (pos r) (len r) (maxbuf r) (rstack r) (ridx r) v (fn r).
Definition set_buf b p l r := mk_reader (err r) (errstr r) b p l (maxbuf r) (rstack r) (ridx r) (reply r) (fn r).

(** [r->rstack[i]] *)
Definition task_at (i : Z) (r : redisReader) : option redisReadTask :=
  if i <? 0 then None else rstack r !! Z.to_nat i.
Definition set_task (i : Z) (t : redisReadTask) (r : redisReader) : redisReader :=
  set_stack (<[Z.to_nat i := t]> (rstack r)) (ridx r) r.
Definition set_type v t := mk_task v (elements t) (idx t) (obj t) (parent t).

(** What a task's [parent] points to. *)
Definition parent_task (t : redisReadTask) (r : redisReader) : option redisReadTask := parent t ≫= λ i, rstack r !! i.

(** The memory at [r->buf + i]. *)
Definition memory (i : Z) (r : redisReader) : option (list Z) :=
  match buf r with Some s => Some (drop (Z.to_nat i) (s_buf s)) | None => None end.

(** ** Errors *)

(** [static void __redisReaderSetError(redisReader *r, int type, const char *str)] *)
Definition setError (type : Z) (str : list Z) (r : redisReader) (h : heap) : option (redisReader * heap) :=
  let freed :=
    match reply r, fn r ≫= freeObject with
    | Some p, Some f => match f p h with Some h' => Some (None, h') | None => None end
    | _, _ => Some (reply r, h)
    end in
  match freed with
  | None => None
  | Some (rep, h') => Some (mk_reader type (take 127 str) None 0 0 (maxbuf r) (rstack r) (-1) rep (fn r), h')
  end.

(** [setError] and [return REDIS_ERR]. *)
Definition fail (type : Z) (str : list Z) (r : redisReader) (h : heap) : option (Z * redisReader * heap) :=
  match setError type str r h with Some (r', h') => Some (REDIS_ERR, r', h') | None => None end.

Definition error_byte_message (byte : Z) : list Z :=
  take 127 (chars "Protocol error, got " ++ chrtos 8 byte ++ chars " as reply type byte").

Definition setErrorProtocolByte (byte : Z) := fail REDIS_ERR_PROTOCOL (error_byte_message byte).
Definition setErrorOOM := fail REDIS_ERR_OOM (chars "Out of memory").

(** ** Reading from the buffer *)

(** [static char *readBytes(redisReader *r, unsigned int bytes)] *)
Definition readBytes (bytes : Z) (r : redisReader) : option (Z * redisReader) :=
  if to_size_t (len r - pos r) >=? bytes then Some (pos r, set_pos (pos r + bytes) r) else None.

(** The loops of [seekNewline]: [l] is the memory at [s + p]. *)
Fixpoint seek_loop (l : list Z) (p _len : Z) : option (option Z) :=
  match l with
  | [] => if p <? _len then None else Some None
  | c :: l' =>
    if p <? _len then
      if c =? char_CR then
        match l' with
        | [] => None
        | d :: _ => if d =? char_LF then Some (Some p) else seek_loop l' (p + 1) _len
        end
      else seek_loop l' (p + 1) _len
    else Some None
  end.

(** [static char *seekNewline(char *s, size_t len)]: the offset. *)
Definition seekNewline (l : list Z) (n : Z) : option (option Z) := seek_loop l 0 (to_int (to_size_t (n - 1))).

(** [static char *readLine(redisReader *r, int *_len)]: the line. *)
Definition readLine (r : redisReader) : option (option (list Z) * redisReader) :=
  match memory (pos r) r with
  | None => None
  | Some p =>
    match seekNewline p (to_size_t (len r - pos r)) with
    | None => None
    | Some None => Some (None, r)
    | Some (Some s) => let n := to_int s in Some (Some (take (Z.to_nat n) p), set_pos (pos r + (n + 2)) r)
    end
  end.

(** [static void moveToNextTask(redisReader *r)]: the loop takes at most one
    round for each of the nine tasks. *)
Fixpoint move_loop (fuel : nat) (r : redisReader) : option redisReader :=
  match fuel with
  | O => None
  | S fuel' =>
    if ridx r >=? 0 then
      if ridx r =? 0 then Some (set_stack (rstack r) (ridx r - 1) r)
      else
        match task_at (ridx r) r, task_at (ridx r - 1) r with
        | Some cur, Some prv =>
          if negb (t_type prv =? REDIS_REPLY_ARRAY) then None
          else if idx cur =? elements prv - 1 then move_loop fuel' (set_stack (rstack r) (ridx r - 1) r)
          else if negb (idx cur <? elements prv) then None
          else Some (set_task (ridx r) (mk_task (-1) (-1) (idx cur + 1) (obj cur) (parent cur)) r)
        | _, _ => None
        end
    else Some r
  end.

Definition moveToNextTask (r : redisReader) : option redisReader := move_loop 10 r.

(** ** Items *)

(** The end all kinds of items share: an object that could not be made is an
    error, the object of the root becomes the reply. *)
Definition finish_item (o : option nat) (r : redisReader) (h : heap) : option (Z * redisReader * heap) :=
  match o with
  | None => setErrorOOM r h
  | Some p =>
    let r1 := if ridx r =? 0 then set_reply (Some p) r else r in
    match moveToNextTask r1 with Some r2 => Some (REDIS_OK, r2, h) | None => None end
  end.

(** [static int processLineItem(redisReader *r)] *)
Definition processLineItem (r : redisReader) (h : heap) : option (Z * redisReader * heap) :=
  match task_at (ridx r) r with
  | None => None
  | Some cur =>
    match readLine r with
    | None => None
    | Some (None, r1) => Some (REDIS_ERR, r1, h)
    | Some (Some p, r1) =>
      if t_type cur =? REDIS_REPLY_INTEGER then
        match fn r1 ≫= createInteger with
        | Some f =>
          match string2ll p with
          | None => fail REDIS_ERR_PROTOCOL (chars "Bad integer value") r1 h
          | Some v =>
            match f cur (parent_task cur r1) v h with
            | Some (o, h1) => finish_item o r1 h1
            | None => None
            end
          end
        | None => finish_item (Some (Z.to_nat REDIS_REPLY_INTEGER)) r1 h
        end
      else
        match fn r1 ≫= createString with
        | Some f =>
          match f cur (parent_task cur r1) p h with
          | Some (o, h1) => finish_item o r1 h1
          | None => None
          end
        | None => finish_item (Some (Z.to_nat (t_type cur))) r1 h
        end
    end
  end.

(** The object of a nil, bulk or array. *)
Definition make_nil (cur : redisReadTask) (r : redisReader) (h : heap) : option (option nat * heap) :=
  match fn r ≫= createNil with
  | Some f => f cur (parent_task cur r) h
  | None => Some (Some (Z.to_nat REDIS_REPLY_NIL), h)
  end.
Definition make_string (cur : redisReadTask) (bytes : list Z) (r : redisReader) (h : heap) : option (option nat * heap) :=
  match fn r ≫= createString with
  | Some f => f cur (parent_task cur r) bytes h
  | None => Some (Some (Z.to_nat REDIS_REPLY_STRING), h)
  end.
Definition make_array (cur : redisReadTask) (n : Z) (r : redisReader) (h : heap) : option (option nat * heap) :=
  match fn r ≫= createArray with
  | Some f => f cur (parent_task cur r) n h
  | None => Some (Some (Z.to_nat REDIS_REPLY_ARRAY), h)
  end.

(** [static int processBulkItem(redisReader *r)] *)
Definition processBulkItem (r : redisReader) (h : heap) : option (Z * redisReader * heap) :=
  match task_at (ridx r) r, memory (pos r) r with
  | Some cur, Some p =>
    match seekNewline p (to_size_t (len r - pos r)) with
    | None => None
    | Some None => Some (REDIS_ERR, r, h)
    | Some (Some s) =>
      let bytelen := s + 2 in
      match string2ll (take (Z.to_nat (bytelen - 2)) p) with
      | None => fail REDIS_ERR_PROTOCOL (chars "Bad bulk string length") r h
      | Some n =>
        if n <? -1 then fail REDIS_ERR_PROTOCOL (chars "Bulk string length out of range") r h
        else if n =? -1 then
          match make_nil cur r h with
          | Some (o, h1) => finish_item o (match o with Some _ => set_pos (pos r + bytelen) r | None => r end) h1
          | None => None
          end
        else
          let bytelen := to_size_t (bytelen + to_int64 (n + 2)) in
          if to_size_t (pos r + bytelen) <=? len r then
            match read_at (s + 2) n p with
            | None => None
            | Some bytes =>
              match make_string cur bytes r h with
              | Some (o, h1) => finish_item o (match o with Some _ => set_pos (pos r + bytelen) r | None => r end) h1
              | None => None
              end
            end
          else Some (REDIS_ERR, r, h)
      end
    end
  | _, _ => None
  end.

(** The task of the first element of an array. *)
Definition push_task (cur : redisReadTask) (n : Z) (o : option nat) (r : redisReader) : redisReader :=
  let r1 := set_task (ridx r) (mk_task (t_type cur) n (idx cur) o (parent cur)) r in
  let r2 := set_stack (rstack r1) (ridx r1 + 1) r1 in
  set_task (ridx r2) (mk_task (-1) (-1) 0 None (Some (Z.to_nat (ridx r)))) r2.

(** [static int processMultiBulkItem(redisReader *r)] *)
Definition processMultiBulkItem (r : redisReader) (h : heap) : option (Z * redisReader * heap) :=
  match task_at (ridx r) r with
  | None => None
  | Some cur =>
    if ridx r =? 8 then
      fail REDIS_ERR_PROTOCOL (chars "No support for nested multi bulk replies with depth > 7") r h
    else
      match readLine r with
      | None => None
      | Some (None, r1) => Some (REDIS_ERR, r1, h)
      | Some (Some p, r1) =>
        match string2ll p with
        | None => fail REDIS_ERR_PROTOCOL (chars "Bad multi-bulk length") r1 h
        | Some n =>
          let root := ridx r1 =? 0 in
          let set_root (o : option nat) (x : option redisReader) (h' : heap) :=
            match x with
            | Some r2 => Some (REDIS_OK, if root then set_reply o r2 else r2, h')
            | None => None
            end in
          if (n <? -1) || (n >? INT_MAX) then fail REDIS_ERR_PROTOCOL (chars "Multi-bulk length out of range") r1 h
          else if n =? -1 then
            match make_nil cur r1 h with
            | None => None
            | Some (None, h1) => setErrorOOM r1 h1
            | Some (o, h1) => set_root o (moveToNextTask r1) h1
            end
          else
            match make_array cur n r1 h with
            | None => None
            | Some (None, h1) => setErrorOOM r1 h1
            | Some (o, h1) => if n >? 0 then set_root o (Some (push_task cur n o r1)) h1 else set_root o (moveToNextTask r1) h1
            end
        end
      end
  end.

(** The type of a reply, from its first byte. *)
Definition reply_type (c : Z) : option Z :=
  if c =? 45 then Some REDIS_REPLY_ERROR
  else if c =? 43 then Some REDIS_REPLY_STATUS
  else if c =? 58 then Some REDIS_REPLY_INTEGER
  else if c =? 36 then Some REDIS_REPLY_STRING
  else if c =? 42 then Some REDIS_REPLY_ARRAY
  else None.

(** The [switch] over the type of the current task. *)
Definition process_typed (type : Z) (r : redisReader) (h : heap) : option (Z * redisReader * heap) :=
  if (type =? REDIS_REPLY_ERROR) || (type =? REDIS_REPLY_STATUS) || (type =? REDIS_REPLY_INTEGER) then processLineItem r h
  else if type =? REDIS_REPLY_STRING then processBulkItem r h
  else if type =? REDIS_REPLY_ARRAY then processMultiBulkItem r h
  else None.

(** [static int processItem(redisReader *r)] *)
Definition processItem (r : redisReader) (h : heap) : option (Z * redisReader * heap) :=
  match task_at (ridx r) r with
  | None => None
  | Some cur =>
    if t_type cur <? 0 then
      match readBytes 1 r with
      | None => Some (REDIS_ERR, r, h)
      | Some (p, r1) =>
        match memory p r1 with
        | Some (c :: _) =>
          match reply_type c with
          | None => setErrorProtocolByte c r1 h
          | Some type => process_typed type (set_task (ridx r1) (set_type type cur) r1) h
          end
        | _ => None
        end
      end
    else process_typed (t_type cur) r h
  end.

(** ** The interface *)

(** [redisReader *redisReaderCreateWithFunctions(redisReplyObjectFunctions *fn)];
    the tasks of the zeroed stack. *)
Definition zero_task : redisReadTask := mk_task 0 0 0 None None.
Definition redisReaderCreateWithFunctions (junk : Z) (ok1 ok2 : bool) (f : option redisReplyObjectFunctions)
  : option (option redisReader) :=
  if negb ok1 then Some None
  else
    match sdsempty junk ok2 with
    | None => None
    | Some None => Some None
    | Some (Some s) => Some (Some (mk_reader 0 [] (Some s) 0 0 REDIS_READER_MAX_BUF (replicate 9 zero_task) (-1) None f))
    end.

(** [void redisReaderFree(redisReader *r)] *)
Definition redisReaderFree (r : option redisReader) (h : heap) : option heap :=
  match r with
  | None => Some h
  | Some r => match reply r, fn r ≫= freeObject with Some p, Some f => f p h | _, _ => Some h end
  end.

(** [int redisReaderFeed(redisReader *r, const char *buf, size_t len)];
    [None] for [data] is a null pointer. *)
Definition redisReaderFeed (junk : Z) (ok1 ok2 : bool) (data : option (list Z)) (r : redisReader) (h : heap)
  : option (Z * redisReader * heap) :=
  if negb (err r =? 0) then Some (REDIS_ERR, r, h)
  else
    match data with
    | Some (c :: cs) =>
      let fresh :=
        match buf r with
        | None => None
        | Some s =>
          if (len r =? 0) && negb (maxbuf r =? 0) && (sdsavail s >? maxbuf r) then
            match sdsempty junk ok1 with
            | Some (Some s') => Some (s', set_buf (Some s') 0 (len r) r)
            | _ => None (* assert(r->buf != NULL) *)
            end
          else Some (s, r)
        end in
      match fresh with
      | None => None
      | Some (s, r1) =>
        match sdscatlen junk ok2 s (c :: cs) with
        | None => None
        | Some None => setErrorOOM r1 h
        | Some (Some newbuf) => Some (REDIS_OK, set_buf (Some newbuf) (pos r1) (sdslen newbuf) r1, h)
        end
      end
    | _ => Some (REDIS_OK, r, h)
    end.

(** The loop of [GetReply]: every item that is done takes a byte at least. *)
Fixpoint items_loop (fuel : nat) (r : redisReader) (h : heap) : option (redisReader * heap) :=
  match fuel with
  | O => None
  | S fuel' =>
    if ridx r >=? 0 then
      match processItem r h with
      | None => None
      | Some (c, r', h') => if c =? REDIS_OK then items_loop fuel' r' h' else Some (r', h')
      end
    else Some (r, h)
  end.

(** [int redisReaderGetReply(redisReader *r, void **reply)]: the result, what
    [*reply] is set to, and the reader. *)
Definition redisReaderGetReply (r : redisReader) (h : heap) : option (Z * option nat * redisReader * heap) :=
  if negb (err r =? 0) then Some (REDIS_ERR, None, r, h)
  else if len r =? 0 then Some (REDIS_OK, None, r, h)
  else
    let r0 := if ridx r =? -1 then set_stack (<[O := mk_task (-1) (-1) (-1) None None]> (rstack r)) 0 r else r in
    match items_loop (Z.to_nat (len r0 - pos r0) + 2) r0 h with
    | None => None
    | Some (r1, h1) =>
      if negb (err r1 =? 0) then Some (REDIS_ERR, None, r1, h1)
      else
        let r2 :=
          if pos r1 >=? 1024 then
            match buf r1 with
            | Some s => match sdsrange s (to_int (pos r1)) (-1) with Some s' => Some (set_buf (Some s') 0 (sdslen s') r1) | None => None end
            | None => None
            end
          else Some r1 in
        match r2 with
        | None => None
        | Some r2 =>
          if ridx r2 =? -1 then Some (REDIS_OK, reply r2, set_reply None r2, h1) else Some (REDIS_OK, None, r2, h1)
        end
    end.
End reader.
