(* ===== verification/Reply.v ===== *)
(** * vendors/hiredis/hiredis.c: reply objects, and commands as bytes

    The functions hiredis gives to its readers build a tree of [redisReply]
    objects on the heap.  [mem] says which of the next allocations succeed; when
    it is used up they all do.  [redisFormatCommandArgv] is the other direction:
    it lays a command out in a buffer whose size it has computed before. *)

From S2P Require Import Prelude Sds Numbers Read.
Local Open Scope Z_scope.

(** [redisReply]; [str] and [element] may be null. *)
Record redisReply := mk_reply {
  r_type : Z;
  integer : Z;
  r_len : Z;
  str : option (list Z);
  r_elements : Z;
  element : option (list (option nat))
}.

Record reply_heap := mk_heap { objs : gmap nat redisReply; next : nat; mem : list bool }.

(** [malloc] or [calloc]: whether it succeeds. *)
Definition allocate (h : reply_heap) : bool * reply_heap :=
  match mem h with
  | [] => (true, h)
  | b :: l => (b, mk_heap (objs h) (next h) l)
  end.

Definition set_obj (p : nat) (r : redisReply) (h : reply_heap) : reply_heap := mk_heap (<[p := r]> (objs h)) (next h) (mem h).
Definition delete_obj (p : nat) (h : reply_heap) : reply_heap := mk_heap (delete p (objs h)) (next h) (mem h).

(** [static redisReply *createReplyObject(int type)] *)
Definition createReplyObject (type : Z) (h : reply_heap) : option nat * reply_heap :=
  let '(ok, h1) := allocate h in
  if ok then (Some (next h1), mk_heap (<[next h1 := mk_reply type 0 0 None 0 None]> (objs h1)) (S (next h1)) (mem h1))
  else (None, h1).

(** [void freeReplyObject(void *reply)]; [None] is an access to an object that
    is not there. *)
Fixpoint freeReplyObject_loop (fuel : nat) (p : option nat) (h : reply_heap) : option reply_heap :=
  match fuel with
  | O => None
  | S fuel' =>
    match p with
    | None => Some h
    | Some a =>
      match objs h !! a with
      | None => None
      | Some r =>
        let elements_freed :=
          if r_type r =? REDIS_REPLY_ARRAY then
            match element r with
            | None => Some h
            | Some l =>
              foldl (λ (x : option reply_heap) q, match x with Some h' => freeReplyObject_loop fuel' q h' | None => None end)
                (Some h) (take (Z.to_nat (r_elements r)) l)
            end
          else Some h in
        match elements_freed with Some h1 => Some (delete_obj a h1) | None => None end
      end
    end
  end.

Definition freeReplyObject (p : option nat) (h : reply_heap) : option reply_heap :=
  freeReplyObject_loop (size (objs h) + 2) p h.

(** [if (task->parent) { parent = task->parent->obj; ... }] *)
Definition attach (task : redisReadTask) (par : option redisReadTask) (r : nat) (h : reply_heap) : option reply_heap :=
  match parent task with
  | None => Some h
  | Some _ =>
    match par ≫= obj with
    | None => None
    | Some a =>
      match objs h !! a with
      | None => None
      | Some x =>
        if negb (r_type x =? REDIS_REPLY_ARRAY) then None
        else
          match element x with
          | None => None
          | Some l =>
            if (0 <=? idx task) && (idx task <? Z.of_nat (length l)) then
              Some (set_obj a (mk_reply (r_type x) (integer x) (r_len x) (str x) (r_elements x)
                                 (Some (<[Z.to_nat (idx task) := Some r]> l))) h)
            else None
          end
      end
    end
  end.

(** The object is attached to its parent and returned. *)
Definition attached (task : redisReadTask) (par : option redisReadTask) (r : nat) (h : reply_heap)
  : option (option nat * reply_heap) :=
  match attach task par r h with Some h' => Some (Some r, h') | None => None end.

(** [static void *createStringObject(const redisReadTask *task, char *str, size_t len)] *)
Definition createStringObject (task : redisReadTask) (par : option redisReadTask) (s : list Z) (h : reply_heap)
  : option (option nat * reply_heap) :=
  match createReplyObject (t_type task) h with
  | (None, h1) => Some (None, h1)
  | (Some r, h1) =>
    let '(ok, h2) := allocate h1 in
    if negb ok then match freeReplyObject (Some r) h2 with Some h3 => Some (None, h3) | None => None end
    else if (t_type task =? REDIS_REPLY_ERROR) || (t_type task =? REDIS_REPLY_STATUS) || (t_type task =? REDIS_REPLY_STRING) then
      attached task par r (set_obj r (mk_reply (t_type task) 0 (Z.of_nat (length s)) (Some s) 0 None) h2)
    else None
  end.

(** [static void *createArrayObject(const redisReadTask *task, int elements)] *)
Definition createArrayObject (task : redisReadTask) (par : option redisReadTask) (elements : Z) (h : reply_heap)
  : option (option nat * reply_heap) :=
  match createReplyObject REDIS_REPLY_ARRAY h with
  | (None, h1) => Some (None, h1)
  | (Some r, h1) =>
    let '(ok, h2) := if elements >? 0 then allocate h1 else (true, h1) in
    if negb ok then match freeReplyObject (Some r) h2 with Some h3 => Some (None, h3) | None => None end
    else
      attached task par r
        (set_obj r (mk_reply REDIS_REPLY_ARRAY 0 0 None elements
           (if elements >? 0 then Some (replicate (Z.to_nat elements) None) else None)) h2)
  end.

(** [static void *createIntegerObject(const redisReadTask *task, long long value)] *)
Definition createIntegerObject (task : redisReadTask) (par : option redisReadTask) (value : Z) (h : reply_heap)
  : option (option nat * reply_heap) :=
  match createReplyObject REDIS_REPLY_INTEGER h with
  | (None, h1) => Some (None, h1)
  | (Some r, h1) => attached task par r (set_obj r (mk_reply REDIS_REPLY_INTEGER value 0 None 0 None) h1)
  end.

(** [static void *createNilObject(const redisReadTask *task)] *)
Definition createNilObject (task : redisReadTask) (par : option redisReadTask) (h : reply_heap)
  : option (option nat * reply_heap) :=
  match createReplyObject REDIS_REPLY_NIL h with
  | (None, h1) => Some (None, h1)
  | (Some r, h1) => attached task par r h1
  end.

(** [static redisReplyObjectFunctions defaultFunctions] *)
Definition defaultFunctions : redisReplyObjectFunctions :=
  mk_functions (Some createStringObject) (Some createArrayObject) (Some createIntegerObject) (Some createNilObject)
    (Some (λ p, freeReplyObject (Some p))).

(** ** Commands *)

(** [static size_t bulklen(size_t len)] *)
Definition bulklen (len : Z) : option Z :=
  match countDigits len with Some n => Some (to_size_t (1 + n + 2 + len + 2)) | None => None end.

(** The sum of the lengths, in an [int]. *)
Fixpoint total_length (argv : list (list Z)) (totlen : Z) : option Z :=
  match argv with
  | [] => Some totlen
  | a :: r => match bulklen (Z.of_nat (length a)) with Some n => total_length r (to_int (to_size_t (totlen + n))) | None => None end
  end.

(** [pos += sprintf(cmd+pos, ...)], with the terminating zero, and the decimal
    representation of a number. *)
Definition print_at (pos : Z) (s : list Z) (cmd : list Z) : option (list Z * Z) :=
  match write_at pos (s ++ [0]) cmd with Some c => Some (c, to_int (pos + Z.of_nat (length s))) | None => None end.
Definition decimal (v : Z) : list Z := default [] (sdsll2str v).

(** The loop over the arguments. *)
Fixpoint format_loop (argv : list (list Z)) (cmd : list Z) (pos : Z) : option (list Z * Z) :=
  match argv with
  | [] => Some (cmd, pos)
  | a :: r =>
    match print_at pos ([36] ++ decimal (Z.of_nat (length a)) ++ [char_CR; char_LF]) cmd with
    | None => None
    | Some (c1, p1) =>
      match write_at p1 a c1 with
      | None => None
      | Some c2 =>
        let p2 := to_int (p1 + Z.of_nat (length a)) in
        match write_at p2 [char_CR; char_LF] c2 with
        | None => None
        | Some c3 => format_loop r c3 (to_int (p2 + 2))
        end
      end
    end
  end.

(** From [cmd = malloc(totlen+1)] on: the result and the buffer.  [None] is a
    write outside of the buffer or a failed [assert]. *)
Definition lay_out (junk : Z) (ok : bool) (argv : list (list Z)) (totlen : Z) : option (Z * option (list Z)) :=
  if negb ok then Some (-1, None)
  else
    let cmd := malloc junk (to_size_t (to_int (totlen + 1))) in
    match print_at 0 ([42] ++ decimal (Z.of_nat (length argv)) ++ [char_CR; char_LF]) cmd with
    | None => None
    | Some (c1, p1) =>
      match format_loop argv c1 p1 with
      | None => None
      | Some (c2, pos) =>
        (* assert(pos == totlen) *)
        if negb (pos =? totlen) then None
        else match write_at pos [0] c2 with Some c3 => Some (totlen, Some c3) | None => None end
      end
    end.

(** [int redisFormatCommandArgv(char **target, int argc, const char **argv, const size_t *argvlen)] *)
Definition redisFormatCommandArgv (junk : Z) (ok : bool) (argv : list (list Z)) : option (Z * option (list Z)) :=
  match countDigits (Z.of_nat (length argv)) with
  | None => None
  | Some n => match total_length argv (1 + n + 2) with Some totlen => lay_out junk ok argv totlen | None => None end
  end.
