(* ===== verification/Resp.v ===== *)
(** * What the parser of the Redis protocol computes

    A specification of read.c without buffers, stacks and heaps: replies are
    trees, the state of the parser is the list of the arrays it is in, each with
    the elements it has, the type byte it has already read, and the bytes that
    are left.  [run] parses as far as the bytes go.  ReadRefine.v proves that the
    reader does this; the properties of the protocol are proved here, for the
    specification. *)

From Stdlib Require Ascii String.
From stdpp Require Import strings.
From S2P Require Import Prelude Sds Numbers Read.
Local Open Scope Z_scope.

(** ** Replies *)

(** A string has its type (bulk string, status or error); an array the number
    of elements it was announced with, which it has when it is complete. *)
Inductive tree :=
  | T_string (type : Z) (s : list Z)
  | T_integer (v : Z)
  | T_nil
  | T_array (n : nat) (l : list tree).

(** Induction over the elements of arrays. *)
Lemma tree_induction (P : tree → Prop) :
  (∀ type s, P (T_string type s)) → (∀ v, P (T_integer v)) → P T_nil → (∀ n l, Forall P l → P (T_array n l)) →
  ∀ t, P t.
Proof.
  intros Hs Hi Hn Ha. fix rec 1. intros [type s|v| |n l]; [apply Hs|apply Hi|apply Hn|].
  apply Ha. induction l as [|t l IH]; constructor; [apply rec|exact IH].
Qed.

(** An array that is being read: how many elements it has, and those read. *)
Abbreviation frame := (nat * list tree)%type.

(** ** Lines *)

(** The first line and what follows its line break. *)
Fixpoint line (l : list Z) : option (list Z * list Z) :=
  match l with
  | [] => None
  | c :: r =>
    match (if c =? char_CR then match r with d :: r' => if d =? char_LF then Some r' else None | [] => None end else None) with
    | Some r' => Some ([], r')
    | None => match line r with Some (p, q) => Some (c :: p, q) | None => None end
    end
  end.

(** ** Items *)

Inductive item :=
  | incomplete
  | bad (type : Z) (message : list Z)
  | complete (t : tree) (rest : list Z)
  | opened (n : nat) (rest : list Z).

Definition line_item (type : Z) (l : list Z) : item :=
  match line l with
  | None => incomplete
  | Some (p, rest) =>
    if type =? REDIS_REPLY_INTEGER then
      match string2ll p with
      | None => bad REDIS_ERR_PROTOCOL (chars "Bad integer value")
      | Some v => complete (T_integer v) rest
      end
    else complete (T_string type p) rest
  end.

Definition bulk_item (l : list Z) : item :=
  match line l with
  | None => incomplete
  | Some (p, rest) =>
    match string2ll p with
    | None => bad REDIS_ERR_PROTOCOL (chars "Bad bulk string length")
    | Some n =>
      if n <? -1 then bad REDIS_ERR_PROTOCOL (chars "Bulk string length out of range")
      else if n =? -1 then complete T_nil rest
      else if n + 2 <=? Z.of_nat (length rest)
      then complete (T_string REDIS_REPLY_STRING (take (Z.to_nat n) rest)) (drop (Z.to_nat (n + 2)) rest)
      else incomplete
    end
  end.

Definition array_item (depth : nat) (l : list Z) : item :=
  if (depth =? 8)%nat then bad REDIS_ERR_PROTOCOL (chars "No support for nested multi bulk replies with depth > 7")
  else
    match line l with
    | None => incomplete
    | Some (p, rest) =>
      match string2ll p with
      | None => bad REDIS_ERR_PROTOCOL (chars "Bad multi-bulk length")
      | Some n =>
        if (n <? -1) || (n >? INT_MAX) then bad REDIS_ERR_PROTOCOL (chars "Multi-bulk length out of range")
        else if n =? -1 then complete T_nil rest
        else if n =? 0 then complete (T_array 0 []) rest
        else opened (Z.to_nat n) rest
      end
    end.

Definition typed_item (type : Z) (depth : nat) (l : list Z) : item :=
  if type =? REDIS_REPLY_STRING then bulk_item l
  else if type =? REDIS_REPLY_ARRAY then array_item depth l
  else line_item type l.

(** ** The parser *)

Record pstate := mk_pstate { frames : list frame; cur_type : Z; rest : list Z }.

Inductive result :=
  | R_more (st : pstate)
  | R_reply (t : tree) (rest : list Z)
  | R_error (type : Z) (message : list Z).

Inductive move := go (st : pstate) | halt (res : result).

(** A complete tree becomes the next element of the innermost array; this may
    complete the arrays around it. *)
Fixpoint plug (t : tree) (fs : list frame) : list frame + tree :=
  match fs with
  | [] => inr t
  | (n, d) :: fs' => if (length d + 1 =? n)%nat then plug (T_array n (d ++ [t])) fs' else inl ((n, d ++ [t]) :: fs')
  end.

Definition after (t : tree) (fs : list frame) (l : list Z) : move :=
  match plug t fs with inl fs' => go (mk_pstate fs' (-1) l) | inr t' => halt (R_reply t' l) end.

Definition typed_step (type : Z) (fs : list frame) (l : list Z) : move :=
  match typed_item type (length fs) l with
  | incomplete => halt (R_more (mk_pstate fs type l))
  | bad e m => halt (R_error e m)
  | complete t l' => after t fs l'
  | opened n l' => go (mk_pstate ((n, []) :: fs) (-1) l')
  end.

Definition step (st : pstate) : move :=
  if cur_type st <? 0 then
    match rest st with
    | [] => halt (R_more st)
    | c :: l =>
      match reply_type c with
      | None => halt (R_error REDIS_ERR_PROTOCOL (error_byte_message c))
      | Some type => typed_step type (frames st) l
      end
    end
  else typed_step (cur_type st) (frames st) (rest st).

Fixpoint run (fuel : nat) (st : pstate) : option result :=
  match fuel with
  | O => None
  | S fuel' => match step st with go st' => run fuel' st' | halt res => Some res end
  end.

(** The start of a reply. *)
Definition pstart (l : list Z) : pstate := mk_pstate [] (-1) l.

(** ** Every item takes a byte *)

Lemma line_length l p q : line l = Some (p, q) → (length l = length p + 2 + length q)%nat.
Proof.
  revert p. induction l as [|c r IH]; intros p H; [done|]. cbn [line] in H.
  destruct (c =? char_CR).
  - destruct r as [|d r']; [done|]. destruct (d =? char_LF); [injection H as <- <-; simpl; lia|].
    destruct (line (d :: r')) as [[p' q']|]; [|done]. injection H as <- <-. simpl in *. specialize (IH p' eq_refl). lia.
  - destruct (line r) as [[p' q']|]; [|done]. injection H as <- <-. simpl. specialize (IH p' eq_refl). lia.
Qed.

Lemma typed_item_shorter type depth l :
  match typed_item type depth l with
  | complete _ l' | opened _ l' => (length l' < length l)%nat
  | _ => True
  end.
Proof.
  unfold typed_item, bulk_item, array_item, line_item.
  destruct (line l) as [[p q]|] eqn:Hl; [apply line_length in Hl|];
    repeat (case_if || case_match); simplify_eq; try done; rewrite ?length_drop; lia.
Qed.

Lemma step_shorter st st' : step st = go st' → (length (rest st') < length (rest st))%nat.
Proof.
  intros H.
  assert (Ht : ∀ type fs l, typed_step type fs l = go st' → (length (rest st') < length l)%nat).
  { intros type fs l Hs. pose proof (typed_item_shorter type (length fs) l) as Hi. unfold typed_step in Hs.
    destruct (typed_item type (length fs) l) as [| |t l'|n l']; [done|done| |by injection Hs as <-].
    unfold after in Hs. destruct (plug t fs); [by injection Hs as <-|done]. }
  unfold step in H. destruct (cur_type st <? 0); [|by apply Ht in H].
  destruct (rest st) as [|c l]; [done|]. destruct (reply_type c); [|done]. apply Ht in H. simpl. lia.
Qed.

(** The parser stops. *)
Lemma run_total fuel : ∀ st, (length (rest st) < fuel)%nat → is_Some (run fuel st).
Proof.
  induction fuel as [|fuel IH]; intros st Hf; [lia|]. cbn [run]. destruct (step st) as [st'|res] eqn:Hs; [|done].
  apply IH. pose proof (step_shorter _ _ Hs). lia.
Qed.

Lemma run_more_fuel fuel fuel' st res : run fuel st = Some res → (fuel <= fuel')%nat → run fuel' st = Some res.
Proof.
  revert fuel' st. induction fuel as [|fuel IH]; intros fuel' st H Hle; [done|]. destruct fuel' as [|fuel']; [lia|].
  cbn [run] in *. destruct (step st); [|done]. apply IH; [done|lia].
Qed.

(** The result of the parser, whatever the fuel. *)
Definition parse (st : pstate) : option result := run (S (length (rest st))) st.

Lemma parse_step st : parse st = match step st with go st' => parse st' | halt res => Some res end.
Proof.
  unfold parse at 1. cbn [run]. destruct (step st) as [st'|res] eqn:Hs; [|done]. unfold parse. pose proof (step_shorter _ _ Hs) as Hl.
  destruct (run_total (S (length (rest st'))) st') as [res Hr]; [lia|]. rewrite Hr.
  eapply run_more_fuel; [exact Hr|lia].
Qed.

Lemma parse_total st : is_Some (parse st).
Proof. apply run_total. lia. Qed.

(** Induction along the steps of the parser. *)
Lemma step_induction (P : pstate → Prop) :
  (∀ st, (∀ st', step st = go st' → P st') → P st) → ∀ st, P st.
Proof.
  intros Hstep st. remember (length (rest st)) as n eqn:Hn. revert st Hn.
  induction n as [n IH] using (well_founded_induction lt_wf). intros st ->. apply Hstep. intros st' Hs.
  eapply IH; [|done]. by apply step_shorter.
Qed.

(** ** More bytes *)

Definition feed (l : list Z) (st : pstate) : pstate := mk_pstate (frames st) (cur_type st) (rest st ++ l).

Lemma line_app l x : match line l with Some (p, q) => line (l ++ x) = Some (p, q ++ x) | None => True end.
Proof.
  induction l as [|c r IH]; [done|]. cbn [line app].
  destruct (c =? char_CR).
  - destruct r as [|d r']; [done|]. cbn [app]. destruct (d =? char_LF); [done|]. 
    change (d :: r' ++ x) with ((d :: r') ++ x). destruct (line (d :: r')) as [[p q]|]; [by rewrite IH|done].
  - destruct (line r) as [[p q]|]; [by rewrite IH|done].
Qed.

(** More bytes do not change an item that is decided. *)
Lemma typed_item_app type depth l x :
  match typed_item type depth l with
  | incomplete => True
  | bad e m => typed_item type depth (l ++ x) = bad e m
  | complete t l' => typed_item type depth (l ++ x) = complete t (l' ++ x)
  | opened n l' => typed_item type depth (l ++ x) = opened n (l' ++ x)
  end.
Proof.
  unfold typed_item, bulk_item, array_item, line_item. pose proof (line_app l x) as Hl.
  destruct (line l) as [[p q]|]; [rewrite Hl|]; repeat (case_if || case_match); simplify_eq; try done.
  - bool_to_prop. rewrite take_app_le by lia. rewrite drop_app_le by lia. done.
  - bool_to_prop. rewrite length_app in *. lia.
Qed.

(** What the parser does with more bytes, from what it does without them: a
    reply or an error stays, and where it stopped it goes on. *)
Lemma parse_feed x st :
  match parse st with
  | Some (R_more st') => parse (feed x st) = parse (feed x st')
  | Some (R_reply t l) => parse (feed x st) = Some (R_reply t (l ++ x))
  | Some (R_error e m) => parse (feed x st) = Some (R_error e m)
  | None => False
  end.
Proof.
  induction st as [st IH] using step_induction. rewrite parse_step. destruct (step st) as [st1|res] eqn:Hs.
  - specialize (IH st1 eq_refl).
    assert (Hx : step (feed x st) = go (feed x st1)).
    { clear IH. assert (Ht : ∀ type l, typed_step type (frames st) l = go st1 → typed_step type (frames st) (l ++ x) = go (feed x st1)).
      { intros type l H. unfold typed_step in *. pose proof (typed_item_app type (length (frames st)) l x) as Hi.
        destruct (typed_item type (length (frames st)) l) as [| |t l'|n l']; [done|done| |]; rewrite Hi.
        - unfold after in *. destruct (plug t (frames st)); [by injection H as <-|done].
        - by injection H as <-. }
      unfold step, feed in *. simpl. destruct (cur_type st <? 0); [|by apply Ht].
      destruct (rest st) as [|c l]; [done|]. simpl. destruct (reply_type c); [|done]. by apply Ht. }
    rewrite (parse_step (feed x st)), Hx. exact IH.
  - assert (Ht : ∀ type l, 0 <= type → typed_step type (frames st) l = halt res →
      match res with
      | R_more st' => frames st' = frames st ∧ cur_type st' = type ∧ rest st' = l
      | R_reply t l' => typed_step type (frames st) (l ++ x) = halt (R_reply t (l' ++ x))
      | R_error e m => typed_step type (frames st) (l ++ x) = halt (R_error e m)
      end).
    { intros type l Hty H. unfold typed_step in *. pose proof (typed_item_app type (length (frames st)) l x) as Hi.
      destruct (typed_item type (length (frames st)) l) as [|e m|t l'|n l']; [by injection H as <-| | |done]; rewrite Hi.
      - by injection H as <-.
      - unfold after in *. destruct (plug t (frames st)); [done|by injection H as <-]. }
    assert (Hstep : match res with
      | R_more st' => parse (feed x st) = parse (feed x st')
      | R_reply t l' => step (feed x st) = halt (R_reply t (l' ++ x))
      | R_error e m => step (feed x st) = halt (R_error e m)
      end).
    { unfold step in Hs. destruct (Z.ltb_spec (cur_type st) 0) as [Hc|Hc].
      - destruct (rest st) as [|c l] eqn:Hrest; [by injection Hs as <-|].
        assert (Hf : ∀ m, match reply_type c with None => halt (R_error REDIS_ERR_PROTOCOL (error_byte_message c)) | Some type => typed_step type (frames st) (l ++ x) end = m → step (feed x st) = m).
        { intros m <-. unfold step, feed. simpl. rewrite Hrest. simpl. by destruct (Z.ltb_spec (cur_type st) 0); [|lia]. }
        destruct (reply_type c) as [type|] eqn:Hty; [|injection Hs as <-; by apply Hf].
        assert (0 <= type) by (unfold reply_type in Hty; repeat case_if_in Hty; simplify_eq; done).
        specialize (Ht type l ltac:(done) Hs). destruct res as [[fs ty l']|t l'|e m]; [|by apply Hf|by apply Hf].
        simpl in Ht. destruct Ht as (-> & -> & ->). rewrite (parse_step (feed x st)), (Hf _ eq_refl).
        rewrite (parse_step (feed x _)). unfold step, feed. simpl. by destruct (Z.ltb_spec type 0); [lia|].
      - specialize (Ht _ _ Hc Hs). 
        assert (Hf : step (feed x st) = typed_step (cur_type st) (frames st) (rest st ++ x)).
        { unfold step, feed. simpl. by destruct (Z.ltb_spec (cur_type st) 0); [lia|]. }
        destruct res as [[fs ty l']|t l'|e m]; [|by rewrite Hf|by rewrite Hf]. simpl in Ht. destruct Ht as (-> & -> & ->). by destruct st. }
    destruct res; [exact Hstep|by rewrite parse_step, Hstep|by rewrite parse_step, Hstep].
Qed.

(** ** The encoding of replies *)

Definition CRLF : list Z := [char_CR; char_LF].
Definition decimal_of (v : Z) : list Z := default [] (sdsll2str v).

Definition type_byte (type : Z) : Z := if type =? REDIS_REPLY_ERROR then 45 else if type =? REDIS_REPLY_STATUS then 43 else 36.

Fixpoint encode (t : tree) : list Z :=
  match t with
  | T_string type s =>
    if type =? REDIS_REPLY_STRING then [36] ++ decimal_of (Z.of_nat (length s)) ++ CRLF ++ s ++ CRLF
    else [type_byte type] ++ s ++ CRLF
  | T_integer v => [58] ++ decimal_of v ++ CRLF
  | T_nil => [36] ++ decimal_of (-1) ++ CRLF
  | T_array n l => [42] ++ decimal_of (Z.of_nat n) ++ CRLF ++ concat (encode <$> l)
  end.

(** No line break inside. *)
Definition one_line (s : list Z) : Prop := ∀ l1 l2, s ≠ l1 ++ char_CR :: char_LF :: l2.

(** The replies a server can send that the client can take: arrays are nested
    at most eight deep. *)
Fixpoint valid (depth : nat) (t : tree) : Prop :=
  match t with
  | T_string type s =>
    type = REDIS_REPLY_STRING ∧ Z.of_nat (length s) < 2 ^ 63 ∨ (type = REDIS_REPLY_STATUS ∨ type = REDIS_REPLY_ERROR) ∧ one_line s
  | T_integer v => in_int64 v
  | T_nil => True
  | T_array n l =>
    length l = n ∧ Z.of_nat n <= INT_MAX ∧ (depth < 8)%nat ∧ (fix all l := match l with [] => True | t :: l' => valid (S depth) t ∧ all l' end) l
  end.

Lemma valid_array depth n l :
  valid depth (T_array n l) ↔ length l = n ∧ Z.of_nat n <= INT_MAX ∧ (depth < 8)%nat ∧ Forall (valid (S depth)) l.
Proof.
  simpl. enough ((fix all l := match l with [] => True | t :: l' => valid (S depth) t ∧ all l' end) l ↔ Forall (valid (S depth)) l) as H
    by (by rewrite H). induction l as [|t l IH]; [done|]. by rewrite Forall_cons, <- IH.
Qed.

Lemma line_one s l : one_line s → line (s ++ CRLF ++ l) = Some (s, l).
Proof.
  induction s as [|c s IH]; intros Hs; [done|].
  assert (Hs' : one_line s) by (intros l1 l2 ->; by apply (Hs (c :: l1) l2)).
  specialize (IH Hs'). change ((c :: s) ++ CRLF ++ l) with (c :: (s ++ CRLF ++ l)). cbn [line]. rewrite IH.
  destruct (Z.eqb_spec c char_CR) as [->|]; [|done]. destruct s as [|d s]; [done|]. cbn [app].
  destruct (Z.eqb_spec d char_LF) as [->|]; [|done]. by destruct (Hs [] s).
Qed.

Lemma one_line_forall s : Forall (λ c, c ≠ char_CR) s → one_line s.
Proof. intros Hs l1 l2 ->. apply Forall_app in Hs as [_ Hs]. by apply Forall_cons in Hs as [Hs _]. Qed.

Lemma digits_no_break v l : digits v l → Forall (λ c, c ≠ char_CR) l.
Proof. induction 1; repeat constructor; unfold char_0, char_CR in *; try lia; done. Qed.

Lemma decimal_spec v : in_int64 v → string2ll (decimal_of v) = Some v ∧ one_line (decimal_of v).
Proof.
  intros Hv. destruct (sdsll2str_spec v Hv) as (l & Hl & Hd & _). unfold decimal_of. rewrite Hl. cbn [default from_option]. split.
  - by apply string2ll_print.
  - apply one_line_forall. assert (Hr : Forall (λ c, c ≠ char_CR) (rev l)) by (apply Forall_rev; by eapply digits_no_break).
    case_if; [by constructor|done].
Qed.

(** The elements [l2] of an array that has the elements [d], given that the
    encodings of elements are parsed right. *)
Lemma parse_elements n (l : list tree) fs tail :
  Forall (λ t, ∀ fs tail, valid (length fs) t →
    parse (mk_pstate fs (-1) (encode t ++ tail)) = match after t fs tail with go st => parse st | halt res => Some res end) l →
  Forall (valid (S (length fs))) l →
  ∀ l2 d, d ++ l2 = l → l2 ≠ [] → length l = n →
    parse (mk_pstate ((n, d) :: fs) (-1) (concat (encode <$> l2) ++ tail)) =
    match after (T_array n l) fs tail with go st => parse st | halt res => Some res end.
Proof.
  intros IH Hall. induction l2 as [|t l2 IHl2]; intros d Hd2 Hne Hlen; [done|].
  rewrite fmap_cons. cbn [concat]. rewrite <- app_assoc.
  assert (Hin : t ∈ l) by (rewrite <- Hd2; apply elem_of_app; right; left).
  rewrite (proj1 (Forall_forall _ _) IH t Hin ((n, d) :: fs)) by (by apply (proj1 (Forall_forall _ _) Hall)).
  unfold after. cbn [plug]. assert (Hln : (length d + length (t :: l2))%nat = n) by (by rewrite <- length_app, Hd2).
  cbn [length] in Hln. destruct (Nat.eqb_spec (length d + 1) n) as [Hfull|Hmore].
  - assert (l2 = []) as -> by (apply length_zero_iff_nil; lia). by rewrite Hd2.
  - rewrite IHl2; [done|by rewrite <- app_assoc| |done]. intros ->. simpl in Hln. lia.
Qed.

Lemma parse_byte fs c l type : reply_type c = Some type →
  parse (mk_pstate fs (-1) (c :: l)) = match typed_step type fs l with go st => parse st | halt res => Some res end.
Proof. intros Hc. rewrite parse_step. unfold step. simpl. by rewrite Hc. Qed.

(** Parsing the encoding of a reply, in the middle of anything. *)
Lemma parse_encode t : ∀ fs tail, valid (length fs) t →
  parse (mk_pstate fs (-1) (encode t ++ tail)) = match after t fs tail with go st => parse st | halt res => Some res end.
Proof.
  induction t as [type s|v| |n l IH] using tree_induction; intros fs tail Hv.
  - destruct Hv as [[-> Hlen]|[Hty Hs]].
    + destruct (decimal_spec (Z.of_nat (length s))) as [Hd Hl]; [unfold in_int64, int64_max; lia|].
      assert (encode (T_string REDIS_REPLY_STRING s) ++ tail = 36 :: decimal_of (Z.of_nat (length s)) ++ CRLF ++ s ++ CRLF ++ tail) as ->
        by (cbn [encode]; change (REDIS_REPLY_STRING =? REDIS_REPLY_STRING) with true; cbn iota; by rewrite <- !app_assoc).
      rewrite (parse_byte _ _ _ REDIS_REPLY_STRING) by done. unfold typed_step.
      change (typed_item REDIS_REPLY_STRING (length fs)) with bulk_item. unfold bulk_item. rewrite line_one, Hd by done.
      destruct (Z.ltb_spec (Z.of_nat (length s)) (-1)); [lia|]. destruct (Z.eqb_spec (Z.of_nat (length s)) (-1)); [lia|].
      rewrite !length_app. change (length CRLF) with 2%nat.
      destruct (Z.leb_spec (Z.of_nat (length s) + 2) (Z.of_nat (length s + (2 + length tail)))); [|lia].
      rewrite Nat2Z.id, take_app_length.
      rewrite (app_assoc s), drop_app_length' by (rewrite length_app; change (length CRLF) with 2%nat; lia). done.
    + assert (encode (T_string type s) ++ tail = type_byte type :: s ++ CRLF ++ tail) as ->
        by (by destruct Hty as [-> | ->]; simpl; rewrite <- app_assoc).
      rewrite (parse_byte _ _ _ type) by (by destruct Hty as [-> | ->]). unfold typed_step.
      assert (typed_item type (length fs) (s ++ CRLF ++ tail) = complete (T_string type s) tail) as ->; [|done].
      destruct Hty as [-> | ->]; unfold typed_item, line_item; simpl (_ =? _); cbn iota; by rewrite line_one.
  - destruct (decimal_spec v Hv) as [Hd Hl].
    assert (encode (T_integer v) ++ tail = 58 :: decimal_of v ++ CRLF ++ tail) as -> by (cbn [encode app]; by rewrite <- app_assoc).
    rewrite (parse_byte _ _ _ REDIS_REPLY_INTEGER) by done. unfold typed_step.
    change (typed_item REDIS_REPLY_INTEGER (length fs)) with (line_item REDIS_REPLY_INTEGER). unfold line_item. by rewrite line_one, Hd.
  - destruct (decimal_spec (-1)) as [Hd Hl]; [unfold in_int64, int64_max; lia|].
    assert (encode T_nil ++ tail = 36 :: decimal_of (-1) ++ CRLF ++ tail) as -> by (cbn [encode app]; by rewrite <- app_assoc).
    rewrite (parse_byte _ _ _ REDIS_REPLY_STRING) by done. unfold typed_step.
    change (typed_item REDIS_REPLY_STRING (length fs)) with bulk_item. unfold bulk_item. by rewrite line_one, Hd.
  - apply valid_array in Hv as (Hlen & Hmax & Hdep & Hall).
    destruct (decimal_spec (Z.of_nat n)) as [Hd Hl]; [unfold in_int64, int64_max, INT_MAX in *; lia|].
    assert (encode (T_array n l) ++ tail = 42 :: decimal_of (Z.of_nat n) ++ CRLF ++ concat (encode <$> l) ++ tail) as ->
      by (cbn [encode app]; by rewrite <- !app_assoc).
    rewrite (parse_byte _ _ _ REDIS_REPLY_ARRAY) by done. unfold typed_step.
    change (typed_item REDIS_REPLY_ARRAY (length fs)) with (array_item (length fs)). unfold array_item.
    destruct (Nat.eqb_spec (length fs) 8); [lia|]. rewrite line_one, Hd by done.
    destruct (Z.ltb_spec (Z.of_nat n) (-1)); [lia|]. destruct (Z.gtb_spec (Z.of_nat n) INT_MAX); [lia|]. cbn [orb].
    destruct (Z.eqb_spec (Z.of_nat n) (-1)); [lia|]. destruct (Z.eqb_spec (Z.of_nat n) 0) as [Hn0|Hn0].
    + assert (n = 0%nat) as -> by lia. assert (l = []) as -> by (by apply length_zero_iff_nil). done.
    + rewrite Nat2Z.id. by apply (parse_elements n l fs tail IH Hall l []); [|intros ->; simpl in Hlen; lia|].
Qed.

(** Parsing the encoding of a reply gives the reply back, whatever follows it. *)
Lemma parse_reply t tail : valid 0 t → parse (pstart (encode t ++ tail)) = Some (R_reply t tail).
Proof. intros Hv. unfold pstart. by rewrite parse_encode. Qed.
