(* ===== verification/ReplyTree.v ===== *)
(** * Replies on the heap

    How the trees of Resp.v lie in memory when the functions of Reply.v make
    them: the objects are allocated one after the other, an array before its
    elements, so the address of an object says which part of the reply it is.
    An array that is not complete has null pointers behind its elements. *)

From S2P Require Import Prelude Sds Numbers Read Reply Resp.
Local Open Scope Z_scope.

Fixpoint tsize (t : tree) : nat :=
  match t with T_array _ l => S (foldr (λ t n, tsize t + n)%nat O l) | _ => 1%nat end.
Definition tsizes (l : list tree) : nat := foldr (λ t n, tsize t + n)%nat O l.

(** The addresses of trees that lie one behind the other from [p] on. *)
Fixpoint addrs (p : nat) (l : list tree) : list nat :=
  match l with [] => [] | t :: l' => p :: addrs (p + tsize t) l' end.

(** The vector of an array of [n] elements that has those at the addresses [l]. *)
Definition pad (n : nat) (l : list nat) : list (option nat) := (Some <$> l) ++ replicate (n - length l) None.

Definition string_object (type : Z) (s : list Z) : redisReply := mk_reply type 0 (Z.of_nat (length s)) (Some s) 0 None.
Definition array_object (n : nat) (l : list nat) : redisReply :=
  mk_reply REDIS_REPLY_ARRAY 0 0 None (Z.of_nat n) (if (0 <? n)%nat then Some (pad n l) else None).

(** The objects of a tree at [p], in the order of their addresses. *)
Fixpoint flat (p : nat) (t : tree) : list redisReply :=
  match t with
  | T_string type s => [string_object type s]
  | T_integer v => [mk_reply REDIS_REPLY_INTEGER v 0 None 0 None]
  | T_nil => [mk_reply REDIS_REPLY_NIL 0 0 None 0 None]
  | T_array n l =>
    array_object n (addrs (S p) l) ::
      (fix flats (q : nat) (l : list tree) := match l with [] => [] | t :: l' => flat q t ++ flats (q + tsize t)%nat l' end) (S p) l
  end.

Fixpoint flats (q : nat) (l : list tree) : list redisReply :=
  match l with [] => [] | t :: l' => flat q t ++ flats (q + tsize t) l' end.

Lemma flat_array p n l : flat p (T_array n l) = array_object n (addrs (S p) l) :: flats (S p) l.
Proof. done. Qed.

Lemma tsize_array n l : tsize (T_array n l) = S (tsizes l).
Proof. done. Qed.

Lemma tsizes_app l1 l2 : tsizes (l1 ++ l2) = (tsizes l1 + tsizes l2)%nat.
Proof. unfold tsizes. induction l1 as [|t l1 IH]; simpl; [done|]. rewrite IH. lia. Qed.

Lemma tsize_pos t : (0 < tsize t)%nat.
Proof. destruct t; simpl; lia. Qed.

Lemma flats_length_aux l : Forall (λ t, ∀ p, length (flat p t) = tsize t) l → ∀ q, length (flats q l) = tsizes l.
Proof.
  induction 1 as [|t l Ht _ IH]; intros q; [done|]. cbn [flats]. rewrite length_app, Ht, IH. done.
Qed.

Lemma flat_length t : ∀ p, length (flat p t) = tsize t.
Proof.
  induction t as [type s|v| |n l IH] using tree_induction; intros p; [done..|].
  rewrite flat_array, tsize_array. cbn [length]. f_equal. by apply flats_length_aux.
Qed.

Lemma flats_length l q : length (flats q l) = tsizes l.
Proof. apply flats_length_aux, Forall_forall. intros t _. apply flat_length. Qed.

Lemma addrs_app p l1 l2 : addrs p (l1 ++ l2) = addrs p l1 ++ addrs (p + tsizes l1) l2.
Proof.
  revert p. induction l1 as [|t l1 IH]; intros p; [unfold tsizes; simpl; f_equal; lia|].
  cbn [app addrs]. rewrite IH. cbn [app]. do 3 f_equal. unfold tsizes. simpl. lia.
Qed.

Lemma flats_app q l1 l2 : flats q (l1 ++ l2) = flats q l1 ++ flats (q + tsizes l1) l2.
Proof.
  revert q. induction l1 as [|t l1 IH]; intros q; [unfold tsizes; simpl; f_equal; lia|].
  cbn [app flats]. rewrite IH, <- app_assoc. do 3 f_equal. unfold tsizes. simpl. lia.
Qed.

Lemma addrs_length p l : length (addrs p l) = length l.
Proof. revert p. induction l as [|t l IH]; intros p; [done|]. simpl. by rewrite IH. Qed.

(** Writing the next element into the vector. *)
Lemma pad_insert n l a : (length l < n)%nat → <[length l := Some a]> (pad n l) = pad n (l ++ [a]).
Proof.
  intros Hn. unfold pad. rewrite <- (length_fmap Some l), <- (Nat.add_0_r (length (Some <$> l))), insert_app_r.
  rewrite length_fmap, length_app, Nat.add_0_r. simpl. replace (n - length l)%nat with (S (n - (length l + 1))) by lia.
  rewrite fmap_app, <- app_assoc. done.
Qed.

Lemma pad_length n l : (length l <= n)%nat → length (pad n l) = n.
Proof. intros Hn. unfold pad. rewrite length_app, length_fmap, length_replicate. lia. Qed.

(** ** Unfinished replies *)

(** The tree of an element and the arrays around it. *)
Fixpoint close_with (t : tree) (fs : list frame) : tree :=
  match fs with [] => t | (n, d) :: fs' => close_with (T_array n (d ++ [t])) fs' end.

(** What has been made so far. *)
Definition partial (fs : list frame) : option tree :=
  match fs with [] => None | (n, d) :: fs' => Some (close_with (T_array n d) fs') end.

(** Where the next object goes when the reply begins at [p0]. *)
Fixpoint next_addr (p0 : nat) (fs : list frame) : nat :=
  match fs with [] => p0 | (n, d) :: fs' => (S (next_addr p0 fs') + tsizes d)%nat end.

Definition pflat (p0 : nat) (fs : list frame) : list redisReply :=
  match partial fs with Some t => flat p0 t | None => [] end.

Lemma close_with_flat p0 fs : ∃ pre, length pre = (next_addr p0 fs - p0)%nat ∧ (p0 <= next_addr p0 fs)%nat ∧
  ∀ t, flat p0 (close_with t fs) = pre ++ flat (next_addr p0 fs) t.
Proof.
  induction fs as [|[n d] fs IH].
  - exists []. cbn [close_with next_addr]. split_and!; [simpl; lia|lia|done].
  - destruct IH as (pre & Hl & Hle & IH). cbn [close_with next_addr].
    exists (pre ++ array_object n (addrs (S (next_addr p0 fs)) d ++ [S (next_addr p0 fs) + tsizes d]%nat) :: flats (S (next_addr p0 fs)) d).
    split_and!; [rewrite length_app; cbn [length]; rewrite flats_length; lia|lia|].
    intros t. rewrite IH, flat_array, addrs_app, flats_app. cbn [addrs flats]. rewrite app_nil_r, <- app_assoc. done.
Qed.

Lemma pflat_length p0 fs : length (pflat p0 fs) = (next_addr p0 fs - p0)%nat ∧ (p0 <= next_addr p0 fs)%nat.
Proof.
  destruct fs as [|[n d] fs]; unfold pflat; cbn [partial next_addr]; [simpl; lia|].
  destruct (close_with_flat p0 fs) as (pre & Hl & Hle & Hf). rewrite Hf, length_app, flat_length, tsize_array. lia.
Qed.

(** The objects when one more element has been attached to the innermost
    array, whose object is at [next_addr p0 fs]. *)
Lemma pflat_attach p0 n d fs t :
  let a := next_addr p0 fs in
  flat p0 (close_with (T_array n (d ++ [t])) fs) =
    <[(a - p0)%nat := array_object n (addrs (S a) d ++ [next_addr p0 ((n, d) :: fs)])]> (pflat p0 ((n, d) :: fs)) ++
    flat (next_addr p0 ((n, d) :: fs)) t ∧
  pflat p0 ((n, d) :: fs) !! (a - p0)%nat = Some (array_object n (addrs (S a) d)).
Proof.
  intros a. destruct (close_with_flat p0 fs) as (pre & Hl & Hle & Hf). unfold pflat. cbn [partial next_addr].
  rewrite !Hf, !flat_array, addrs_app, flats_app. cbn [addrs flats]. fold a in Hl, Hle |- *. rewrite app_nil_r. split.
  - rewrite <- Hl. rewrite <- (Nat.add_0_r (length pre)), insert_app_r. simpl. rewrite <- app_assoc. done.
  - rewrite <- Hl. by apply list_lookup_middle.
Qed.

(** ** The heap *)

(** The objects [l] lie at [p] and behind it, above everything in [m]. *)
Definition heap_map (p : nat) (l : list redisReply) (m : gmap nat redisReply) : gmap nat redisReply := map_seq p l ∪ m.
Definition below (p : nat) (m : gmap nat redisReply) : Prop := ∀ a, is_Some (m !! a) → (a < p)%nat.

Lemma heap_map_lookup p l m i : (i < length l)%nat → heap_map p l m !! (p + i)%nat = l !! i.
Proof.
  intros Hi. destruct (lookup_lt_is_Some_2 l i Hi) as [o Ho]. rewrite Ho. unfold heap_map. apply lookup_union_Some_l.
  rewrite lookup_map_seq. rewrite option_guard_True by lia. by replace (p + i - p)%nat with i by lia.
Qed.

Lemma heap_map_insert p l m i o : (i < length l)%nat → <[(p + i)%nat := o]> (heap_map p l m) = heap_map p (<[i := o]> l) m.
Proof.
  intros Hi. unfold heap_map. rewrite insert_union_l. f_equal. apply map_eq. intros a. rewrite lookup_map_seq.
  destruct (decide (a = p + i)%nat) as [->|Hne].
  - rewrite lookup_insert_eq, option_guard_True by lia. replace (p + i - p)%nat with i by lia. by rewrite list_lookup_insert_eq.
  - rewrite lookup_insert_ne by done. rewrite lookup_map_seq. destruct (decide (p <= a)%nat) as [Hle|Hle].
    + rewrite !option_guard_True by done. rewrite list_lookup_insert_ne; [done|lia].
    + by rewrite !option_guard_False.
Qed.

Lemma heap_map_snoc p l m o : <[(p + length l)%nat := o]> (heap_map p l m) = heap_map p (l ++ [o]) m.
Proof. unfold heap_map. by rewrite map_seq_snoc, insert_union_l. Qed.

(** ** Freeing a reply *)

(** The types of replies that are strings. *)
Definition string_type (type : Z) : Prop := type = REDIS_REPLY_STRING ∨ type = REDIS_REPLY_STATUS ∨ type = REDIS_REPLY_ERROR.

(** No array has more elements than it was announced with. *)
Inductive fits : tree → Prop :=
  | fits_string type s : string_type type → fits (T_string type s)
  | fits_integer v : fits (T_integer v)
  | fits_nil : fits T_nil
  | fits_array n l : (length l <= n)%nat → Forall fits l → fits (T_array n l).

Lemma fits_array_inv n l : fits (T_array n l) → (length l <= n)%nat ∧ Forall fits l.
Proof. intros H. by inversion H. Qed.

Lemma fits_close t fs : fits (close_with t fs) → fits t.
Proof.
  revert t. induction fs as [|[n d] fs IH]; intros t H; [done|]. apply IH, fits_array_inv in H as [_ H].
  apply Forall_app in H as [_ H]. by apply Forall_cons in H as [H _].
Qed.

(** The objects of a tree are at [p] in the heap. *)
Definition placed (p : nat) (l : list redisReply) (m : gmap nat redisReply) : Prop :=
  ∀ i o, l !! i = Some o → m !! (p + i)%nat = Some o.

Lemma placed_app p l1 l2 m : placed p (l1 ++ l2) m → placed p l1 m ∧ placed (p + length l1) l2 m.
Proof.
  intros H. split; intros i o Hi.
  - apply H. by apply lookup_app_l_Some.
  - rewrite <- Nat.add_assoc. apply H. rewrite lookup_app_r by lia. by replace (length l1 + i - length l1)%nat with i by lia.
Qed.

(** Everything outside of [n] addresses from [p] on is as before, these are
    free. *)
Definition cleared (p n : nat) (h h' : reply_heap) : Prop :=
  next h' = next h ∧ mem h' = mem h ∧
  ∀ a, objs h' !! a = if decide (p <= a < p + n)%nat then None else objs h !! a.

Definition free_step (fuel : nat) : option reply_heap → option nat → option reply_heap :=
  λ x q, match x with Some h' => freeReplyObject_loop fuel q h' | None => None end.

Definition freed_right (t : tree) : Prop :=
  ∀ fuel p h, fits t → (tsize t < fuel)%nat → placed p (flat p t) (objs h) →
    ∃ h', freeReplyObject_loop fuel (Some p) h = Some h' ∧ cleared p (tsize t) h h'.

Lemma free_elements l : Forall freed_right l → ∀ fuel q h, Forall fits l → (tsizes l < fuel)%nat →
  placed q (flats q l) (objs h) →
  ∃ h', foldl (free_step fuel) (Some h) (Some <$> addrs q l) = Some h' ∧ cleared q (tsizes l) h h'.
Proof.
  induction 1 as [|t l Ht _ IH]; intros fuel q h Hfit Hf Hp.
  - exists h. split; [done|]. split_and!; [done|done|]. intros a. rewrite decide_False; [done|]. unfold tsizes. simpl. lia.
  - apply Forall_cons in Hfit as [Hft Hfl]. cbn [flats] in Hp. apply placed_app in Hp as [Hp1 Hp2]. rewrite flat_length in Hp2.
    assert (Hsz : tsizes (t :: l) = (tsize t + tsizes l)%nat) by done. rewrite Hsz in Hf |- *.
    destruct (Ht fuel q h Hft ltac:(lia) Hp1) as (h1 & H1 & Hn1 & Hm1 & Ho1).
    destruct (IH fuel (q + tsize t)%nat h1 Hfl ltac:(lia)) as (h2 & H2 & Hn2 & Hm2 & Ho2).
    { intros i o Hi. rewrite Ho1, decide_False by lia. by apply Hp2. }
    exists h2. split.
    + cbn [addrs]. rewrite fmap_cons. cbn [foldl]. unfold free_step at 2. rewrite H1. exact H2.
    + split_and!; [congruence|congruence|]. intros a. rewrite Ho2, Ho1. repeat case_decide; try done; lia.
Qed.

Lemma free_nulls fuel k h : (0 < fuel)%nat → foldl (free_step fuel) (Some h) (replicate k None) = Some h.
Proof.
  intros Hf. induction k as [|k IH]; [done|]. cbn [replicate foldl]. unfold free_step at 2.
  destruct fuel as [|fuel]; [lia|]. exact IH.
Qed.

Lemma free_tree t : freed_right t.
Proof.
  assert (Hone : ∀ o fuel p h, r_type o ≠ REDIS_REPLY_ARRAY → (1 < fuel)%nat → placed p [o] (objs h) →
    ∃ h', freeReplyObject_loop fuel (Some p) h = Some h' ∧ cleared p 1 h h').
  { intros o fuel p h Ho Hf Hp. destruct fuel as [|fuel]; [lia|]. cbn [freeReplyObject_loop].
    specialize (Hp O o eq_refl). rewrite Nat.add_0_r in Hp. rewrite Hp. apply Z.eqb_neq in Ho. rewrite Ho.
    eexists. split; [done|]. split_and!; [done|done|]. intros a. cbn [delete_obj objs]. case_decide as Hd.
    - replace a with p by lia. apply lookup_delete_eq.
    - rewrite lookup_delete_ne; [done|lia]. }
  induction t as [type s|v| |n l IH] using tree_induction; intros fuel p h Hfit Hf Hp.
  - inversion Hfit as [? ? Hst| | |]; subst. apply (Hone (string_object type s)); [by destruct Hst as [-> |[-> | ->]]|done..].
  - by apply (Hone (mk_reply REDIS_REPLY_INTEGER v 0 None 0 None)).
  - by apply (Hone (mk_reply REDIS_REPLY_NIL 0 0 None 0 None)).
  - apply fits_array_inv in Hfit as [Hlen Hfl]. rewrite tsize_array in Hf |- *. rewrite flat_array in Hp.
    destruct fuel as [|fuel]; [lia|]. cbn [freeReplyObject_loop].
    pose proof (Hp O _ eq_refl) as Hp0. rewrite Nat.add_0_r in Hp0. rewrite Hp0. cbn [array_object r_type element r_elements].
    change (REDIS_REPLY_ARRAY =? REDIS_REPLY_ARRAY) with true. cbn iota.
    assert (Hps : placed (S p) (flats (S p) l) (objs h)).
    { intros i o Hi. replace (S p + i)%nat with (p + S i)%nat by lia. by apply Hp. }
    destruct (free_elements l IH fuel (S p) h Hfl ltac:(lia) Hps) as (h1 & H1 & Hn1 & Hm1 & Ho1).
    assert (Hel : match (if (0 <? n)%nat then Some (pad n (addrs (S p) l)) else None) with
      | Some l0 => foldl (free_step fuel) (Some h) (take (Z.to_nat (Z.of_nat n)) l0) | None => Some h end = Some h1).
    { destruct (Nat.ltb_spec 0 n).
      - rewrite Nat2Z.id, take_ge by (rewrite pad_length; rewrite ?addrs_length; lia). unfold pad.
        rewrite foldl_app, H1. apply free_nulls. lia.
      - assert (l = []) as -> by (apply length_zero_iff_nil; lia). exact H1. }
    fold (free_step fuel) in *.
    assert (Hgoal : match match (if (0 <? n)%nat then Some (pad n (addrs (S p) l)) else None) with
      | Some l0 => foldl (free_step fuel) (Some h) (take (Z.to_nat (Z.of_nat n)) l0) | None => Some h end
      with Some h2 => Some (delete_obj p h2) | None => None end = Some (delete_obj p h1)) by (by rewrite Hel).
    exists (delete_obj p h1). split.
    + rewrite <- Hgoal. by destruct (0 <? n)%nat.
    + split_and!; [done|done|]. intros a. cbn [delete_obj objs]. destruct (decide (a = p)) as [->|Hne].
      * rewrite lookup_delete_eq, decide_True by lia. done.
      * rewrite lookup_delete_ne by done. rewrite Ho1. repeat case_decide; try done; lia.
Qed.

Lemma map_seq_size (l : list redisReply) p : size (map_seq (M := gmap nat redisReply) p l) = length l.
Proof.
  revert p. induction l as [|o l IH]; intros p; [apply map_size_empty|]. rewrite map_seq_cons, map_size_insert_None.
  - cbn [length]. by rewrite IH.
  - rewrite lookup_map_seq, option_guard_False by lia. done.
Qed.

(** Freeing the whole of a reply that lies above [m] leaves [m]. *)
Lemma free_reply t p m h :
  fits t → below p m → objs h = heap_map p (flat p t) m →
  ∃ h', freeReplyObject (Some p) h = Some h' ∧ objs h' = m ∧ next h' = next h ∧ mem h' = mem h.
Proof.
  intros Hfit Hb Ho. pose proof (flat_length t p) as Hl.
  assert (Hp : placed p (flat p t) (objs h)).
  { intros i o Hi. rewrite Ho, heap_map_lookup; [done|]. by eapply lookup_lt_Some. }
  assert (Hsz : (tsize t <= size (objs h))%nat).
  { rewrite Ho. unfold heap_map. rewrite map_size_disj_union.
    - rewrite map_seq_size. lia.
    - apply map_disjoint_spec. intros a x y Hx Hy. rewrite lookup_map_seq in Hx.
      specialize (Hb a (ex_intro _ y Hy)). rewrite option_guard_False in Hx by lia. done. }
  destruct (free_tree t (size (objs h) + 2)%nat p h Hfit ltac:(lia) Hp) as (h' & Hh' & Hn & Hm & Ha).
  exists h'. split_and!; [done| |done|done]. apply map_eq. intros a. rewrite Ha, Ho. unfold heap_map. case_decide as Hd.
  - symmetry. apply eq_None_not_Some. intros Hs. specialize (Hb a Hs). lia.
  - destruct (decide (a < p)%nat) as [Hlt|Hge].
    + rewrite lookup_union_r; [done|]. rewrite lookup_map_seq, option_guard_False by lia. done.
    + rewrite lookup_union_r; [done|]. rewrite lookup_map_seq, option_guard_True by lia. apply lookup_ge_None_2. lia.
Qed.

(** ** Making the objects of a reply *)

(** The task of the element that is read next, and its parent. *)
Definition idx_of (fs : list frame) : Z := match fs with [] => -1 | (_, d) :: _ => Z.of_nat (length d) end.
Definition parent_of (fs : list frame) : option nat := match fs with [] => None | _ :: fs' => Some (length fs') end.

Definition parent_right (p0 : nat) (fs : list frame) (par : option redisReadTask) : Prop :=
  match fs with
  | [] => True
  | (n, d) :: fs' => (par ≫= obj) = Some (next_addr p0 fs') ∧ (length d < n)%nat
  end.

(** The heap when the reply [fs] is being made at [p0]. *)
Definition heap_rel (p0 : nat) (m : gmap nat redisReply) (fs : list frame) (h : reply_heap) : Prop :=
  objs h = heap_map p0 (pflat p0 fs) m ∧ next h = next_addr p0 fs ∧ mem h = [] ∧ below p0 m.

(** The heap when the tree [t] has been made, alone or as next element. *)
Definition heap_after (p0 : nat) (m : gmap nat redisReply) (fs : list frame) (t : tree) (h : reply_heap) : Prop :=
  objs h = heap_map p0 (flat p0 (close_with t fs)) m ∧ next h = (next_addr p0 fs + tsize t)%nat ∧ mem h = [] ∧ below p0 m.

Lemma attached_ok p0 m fs task par t o h :
  objs h = <[next_addr p0 fs := o]> (heap_map p0 (pflat p0 fs) m) → next h = S (next_addr p0 fs) → mem h = [] → below p0 m →
  idx task = idx_of fs → parent task = parent_of fs → parent_right p0 fs par →
  flat (next_addr p0 fs) t = [o] → tsize t = 1%nat →
  ∃ h', attached task par (next_addr p0 fs) h = Some (Some (next_addr p0 fs), h') ∧ heap_after p0 m fs t h'.
Proof.
  intros Ho Hn Hm Hb Hi Hpt Hpar Hfl Hts. pose proof (pflat_length p0 fs) as [Hpl Hple].
  assert (Hsnoc : objs h = heap_map p0 (pflat p0 fs ++ [o]) m).
  { rewrite Ho, <- heap_map_snoc. f_equal. lia. }
  unfold attached, attach. destruct fs as [|[n d] fs]; rewrite Hpt; cbn [parent_of].
  - exists h. split; [done|]. split_and!; [|rewrite Hts; lia|done|done]. by rewrite Hsnoc; cbn [close_with]; rewrite <- Hfl.
  - destruct Hpar as [-> Hlt]. pose proof (pflat_attach p0 n d fs t) as Hatt. cbn zeta in Hatt. destruct Hatt as [Hfa Hlk].
    set (a := next_addr p0 fs) in *. pose proof (lookup_lt_Some _ _ _ Hlk) as Hal.
    assert (Ha : a = (p0 + (a - p0))%nat) by (pose proof (pflat_length p0 fs) as [_ Hle]; fold a in Hle; lia).
    assert (Hax : objs h !! a = Some (array_object n (addrs (S a) d))).
    { pose proof (heap_map_lookup p0 (pflat p0 ((n, d) :: fs) ++ [o]) m (a - p0)) as Hlu. rewrite <- Ha in Hlu.
      rewrite Hsnoc, Hlu by (rewrite length_app; lia). by rewrite lookup_app_l. }
    rewrite Hax. cbn [array_object r_type element]. change (REDIS_REPLY_ARRAY =? REDIS_REPLY_ARRAY) with true. cbn [negb].
    destruct (Nat.ltb_spec 0 n) as [Hn0|]; [|lia]. rewrite Hi. cbn [idx_of].
    rewrite pad_length by (rewrite addrs_length; lia).
    destruct (Z.leb_spec 0 (Z.of_nat (length d))); [|lia]. destruct (Z.ltb_spec (Z.of_nat (length d)) (Z.of_nat n)); [|lia]. cbn [andb].
    eexists. split; [done|]. split_and!; [|cbn [set_obj next]; rewrite Hn, Hts; lia|done|done].
    cbn [set_obj objs close_with]. rewrite Hfa, Hfl. rewrite Hsnoc.
    rewrite Nat2Z.id, <- (addrs_length (S a) d), pad_insert by (rewrite addrs_length; lia).
    pose proof (heap_map_insert p0 (pflat p0 ((n, d) :: fs) ++ [o]) m (a - p0)) as Hins. rewrite <- Ha in Hins.
    rewrite Hins by (rewrite length_app; lia). f_equal. rewrite insert_app_l by done. f_equal. f_equal.
    unfold array_object. destruct (Nat.ltb_spec 0 n); [done|lia].
Qed.

Section create.
Context (p0 : nat) (m : gmap nat redisReply) (fs : list frame) (task : redisReadTask) (par : option redisReadTask) (h : reply_heap).
Context (Hh : heap_rel p0 m fs h) (Hi : idx task = idx_of fs) (Hp : parent task = parent_of fs) (Hpar : parent_right p0 fs par).

Lemma create_reply_ok type :
  createReplyObject type h = (Some (next_addr p0 fs), mk_heap (<[next_addr p0 fs := mk_reply type 0 0 None 0 None]> (objs h)) (S (next_addr p0 fs)) []).
Proof. destruct Hh as (Ho & Hn & Hm & Hb). unfold createReplyObject, allocate. rewrite Hm. by rewrite Hn, Hm. Qed.

Lemma create_string_ok s :
  t_type task = REDIS_REPLY_ERROR ∨ t_type task = REDIS_REPLY_STATUS ∨ t_type task = REDIS_REPLY_STRING →
  ∃ h', createStringObject task par s h = Some (Some (next_addr p0 fs), h') ∧ heap_after p0 m fs (T_string (t_type task) s) h'.
Proof.
  intros Hty. unfold createStringObject. rewrite create_reply_ok. unfold allocate. cbn [mem negb objs next].
  assert ((t_type task =? REDIS_REPLY_ERROR) || (t_type task =? REDIS_REPLY_STATUS) || (t_type task =? REDIS_REPLY_STRING) = true) as ->
    by (destruct Hty as [-> |[-> | ->]]; done).
  destruct Hh as (Ho & Hn & Hm & Hb).
  apply (attached_ok p0 m fs task par (T_string (t_type task) s) (string_object (t_type task) s)); try done.
  cbn [set_obj objs]. by rewrite insert_insert_eq, Ho.
Qed.

Lemma create_integer_ok v :
  ∃ h', createIntegerObject task par v h = Some (Some (next_addr p0 fs), h') ∧ heap_after p0 m fs (T_integer v) h'.
Proof.
  unfold createIntegerObject. rewrite create_reply_ok. destruct Hh as (Ho & Hn & Hm & Hb).
  apply (attached_ok p0 m fs task par (T_integer v) (mk_reply REDIS_REPLY_INTEGER v 0 None 0 None)); try done.
  cbn [set_obj objs]. by rewrite insert_insert_eq, Ho.
Qed.

Lemma create_nil_ok :
  ∃ h', createNilObject task par h = Some (Some (next_addr p0 fs), h') ∧ heap_after p0 m fs T_nil h'.
Proof.
  unfold createNilObject. rewrite create_reply_ok. destruct Hh as (Ho & Hn & Hm & Hb).
  apply (attached_ok p0 m fs task par T_nil (mk_reply REDIS_REPLY_NIL 0 0 None 0 None)); try done. cbn [objs]. by rewrite Ho.
Qed.

Lemma create_array_ok n :
  ∃ h', createArrayObject task par (Z.of_nat n) h = Some (Some (next_addr p0 fs), h') ∧ heap_after p0 m fs (T_array n []) h'.
Proof.
  unfold createArrayObject. rewrite create_reply_ok. destruct Hh as (Ho & Hn & Hm & Hb).
  assert ((if Z.of_nat n >? 0 then allocate (mk_heap (<[next_addr p0 fs := mk_reply REDIS_REPLY_ARRAY 0 0 None 0 None]> (objs h)) (S (next_addr p0 fs)) [])
    else (true, mk_heap (<[next_addr p0 fs := mk_reply REDIS_REPLY_ARRAY 0 0 None 0 None]> (objs h)) (S (next_addr p0 fs)) [])) =
    (true, mk_heap (<[next_addr p0 fs := mk_reply REDIS_REPLY_ARRAY 0 0 None 0 None]> (objs h)) (S (next_addr p0 fs)) [])) as ->
    by (by destruct (Z.of_nat n >? 0)). cbn [negb].
  apply (attached_ok p0 m fs task par (T_array n []) (array_object n [])); try done. cbn [set_obj objs].
  rewrite insert_insert_eq, Ho. f_equal. unfold array_object, pad. rewrite Nat2Z.id. cbn [length fmap list_fmap app]. rewrite Nat.sub_0_r.
  destruct (Z.gtb_spec (Z.of_nat n) 0), (Nat.ltb_spec 0 n); try lia; done.
Qed.
End create.
