(* ===== verification/ReadRefine.v ===== *)
(** * The reader implements the parser

    The simulation between the reader of read.c, with the functions of hiredis.c,
    and the parser of Resp.v: the bytes of the buffer behind the position are the
    parser's [rest]; the tasks of the stack are its [frames]; the heap holds what
    has been made of the reply.  One call of [processItem] is one step of the
    parser. *)

From S2P Require Import Prelude Sds SdsProps Numbers Read Reply Resp ReplyTree.
Local Open Scope Z_scope.

Abbreviation reader := (redisReader (heap := reply_heap)).

(** ** The relation *)

Definition buffer_ok (r : reader) (l : list Z) : Prop :=
  ∃ s, buf r = Some s ∧ sds_ok s ∧ len r = s_len s ∧ 0 <= pos r <= len r ∧ len r <= INT_MAX ∧
    l = drop (Z.to_nat (pos r)) (content s).

(** The tasks of the arrays the parser is in. *)
Fixpoint arrays_ok (p0 : nat) (rst : list redisReadTask) (fs : list frame) : Prop :=
  match fs with
  | [] => True
  | (n, d) :: fs' =>
    rst !! length fs' = Some (mk_task REDIS_REPLY_ARRAY (Z.of_nat n) (idx_of fs') (Some (next_addr p0 fs')) (parent_of fs')) ∧
    (length d < n)%nat ∧ arrays_ok p0 rst fs'
  end.

Definition stack_ok (p0 : nat) (fs : list frame) (type : Z) (r : reader) : Prop :=
  length (rstack r) = 9%nat ∧ ridx r = Z.of_nat (length fs) ∧ (length fs <= 8)%nat ∧ arrays_ok p0 (rstack r) fs ∧
  ∃ e o, rstack r !! length fs = Some (mk_task type e (idx_of fs) o (parent_of fs)).

Definition type_ok (type : Z) (depth : nat) : Prop :=
  type = -1 ∨ (type = REDIS_REPLY_ERROR ∨ type = REDIS_REPLY_STATUS ∨ type = REDIS_REPLY_INTEGER ∨ type = REDIS_REPLY_STRING) ∨
  type = REDIS_REPLY_ARRAY ∧ (depth < 8)%nat.

Definition partial_reply (p0 : nat) (fs : list frame) : option nat := match fs with [] => None | _ => Some p0 end.

Definition frames_fit (fs : list frame) : Prop := match partial fs with Some t => fits t | None => True end.

(** What an item needs: the state but for the type. *)
Record item_rel (p0 : nat) (m : gmap nat redisReply) (fs : list frame) (type : Z) (l : list Z) (r : reader) (h : reply_heap) : Prop := {
  ir_err : err r = 0;
  ir_fn : fn r = Some defaultFunctions;
  ir_buffer : buffer_ok r l;
  ir_stack : stack_ok p0 fs type r;
  ir_heap : heap_rel p0 m fs h;
  ir_reply : reply r = partial_reply p0 fs;
  ir_fit : frames_fit fs
}.

Definition reader_rel (p0 : nat) (m : gmap nat redisReply) (st : pstate) (r : reader) (h : reply_heap) : Prop :=
  item_rel p0 m (frames st) (cur_type st) (rest st) r h ∧ type_ok (cur_type st) (length (frames st)).

(** A reply is complete, and not yet handed out. *)
Record done_rel (p0 : nat) (m : gmap nat redisReply) (t : tree) (l : list Z) (r : reader) (h : reply_heap) : Prop := {
  dr_err : err r = 0;
  dr_fn : fn r = Some defaultFunctions;
  dr_buffer : buffer_ok r l;
  dr_stack : length (rstack r) = 9%nat;
  dr_ridx : ridx r = -1;
  dr_reply : reply r = Some p0;
  dr_objs : objs h = heap_map p0 (flat p0 t) m;
  dr_next : next h = (p0 + tsize t)%nat;
  dr_mem : mem h = [];
  dr_below : below p0 m;
  dr_fits : fits t
}.

(** The reader has failed; what was made of the reply is freed. *)
Record failed_rel (m : gmap nat redisReply) (e : Z) (msg : list Z) (r : reader) (h : reply_heap) : Prop := {
  fr_err : err r = e;
  fr_msg : errstr r = take 127 msg;
  fr_buffer : buf r = None ∧ len r = 0 ∧ pos r = 0;
  fr_ridx : ridx r = -1;
  fr_reply : reply r = None;
  fr_objs : objs h = m
}.

(** ** The buffer *)

Lemma line_split l p q : line l = Some (p, q) → l = p ++ CRLF ++ q.
Proof.
  revert p. induction l as [|c r IH]; intros p H; [done|]. cbn [line] in H.
  destruct (Z.eqb_spec c char_CR) as [->|].
  - destruct r as [|d r']; [done|]. destruct (Z.eqb_spec d char_LF) as [->|]; [by injection H as <- <-|].
    destruct (line (d :: r')) as [[p' q']|]; [|done]. injection H as <- <-. by rewrite (IH p').
  - destruct (line r) as [[p' q']|]; [|done]. injection H as <- <-. by rewrite (IH p').
Qed.

Lemma seek_loop_line l : ∀ p k, (k <= length l)%nat →
  seek_loop l p (p + Z.of_nat k - 1) = Some (match line (take k l) with Some (x, _) => Some (p + Z.of_nat (length x)) | None => None end).
Proof.
  induction l as [|c l IH]; intros p k Hk; cbn [seek_loop].
  - simpl in Hk. assert (k = 0%nat) as -> by lia. destruct (Z.ltb_spec p (p + Z.of_nat 0 - 1)); [lia|done].
  - destruct k as [|k]; [destruct (Z.ltb_spec p (p + Z.of_nat 0 - 1)); [lia|done]|]. cbn [length] in Hk.
    replace (p + Z.of_nat (S k) - 1) with ((p + 1) + Z.of_nat k - 1) by lia.
    assert (Hrest : seek_loop l (p + 1) (p + 1 + Z.of_nat k - 1) =
      Some (match (match line (take k l) with Some (x, y) => Some (c :: x, y) | None => None end) with
            | Some (x, _) => Some (p + Z.of_nat (length x)) | None => None end)).
    { rewrite IH by lia. destruct (line (take k l)) as [[x y]|]; [|done]. do 2 f_equal. simpl. lia. }
    cbn [take firstn]. destruct k as [|k].
    + destruct (Z.ltb_spec p (p + 1 + Z.of_nat 0 - 1)); [lia|]. cbn [firstn line]. by destruct (c =? char_CR).
    + destruct (Z.ltb_spec p (p + 1 + Z.of_nat (S k) - 1)); [|lia]. destruct l as [|d l]; [simpl in Hk; lia|].
      change (take (S k) (d :: l)) with (d :: take k l) in *. cbn [line].
      destruct (c =? char_CR); [|exact Hrest]. destruct (d =? char_LF); [simpl; do 2 f_equal; lia|exact Hrest].
Qed.

(** The memory at the position begins with the bytes that are left. *)
Lemma buffer_memory r l : buffer_ok r l →
  ∃ p, memory (pos r) r = Some p ∧ (length l <= length p)%nat ∧ take (length l) p = l ∧ Z.of_nat (length l) = len r - pos r ∧
    Z.of_nat (length l) <= INT_MAX.
Proof.
  intros (s & Hb & Hs & Hl & Hp & Hm & ->). unfold memory. rewrite Hb. eexists. split; [done|].
  pose proof (so_len _ Hs). pose proof (so_block _ Hs). pose proof (content_length _ Hs) as Hc.
  rewrite !length_drop. unfold INT_MAX in *. split_and!; [lia| |lia|lia].
  unfold content. rewrite skipn_firstn_comm. f_equal. unfold content in Hc. lia.
Qed.

Lemma seek_line r l p : buffer_ok r l → memory (pos r) r = Some p →
  seekNewline p (to_size_t (len r - pos r)) = Some (match line l with Some (x, _) => Some (Z.of_nat (length x)) | None => None end).
Proof.
  intros Hb Hp. destruct (buffer_memory r l Hb) as (p' & Hp' & Hle & Ht & Hl & Hm). rewrite Hp in Hp'. injection Hp' as <-.
  unfold seekNewline, INT_MAX in *. rewrite <- Hl, (to_size_t_id (Z.of_nat (length l))) by lia.
  assert (Hn : to_int (to_size_t (Z.of_nat (length l) - 1)) = 0 + Z.of_nat (length l) - 1).
  { destruct (decide (length l = 0%nat)) as [->|]; [done|]. rewrite to_size_t_id by lia. rewrite to_int_id; [lia|].
    unfold in_int, INT_MIN, INT_MAX. lia. }
  rewrite Hn, seek_loop_line by done. by rewrite Ht.
Qed.

(** Moving on in the buffer. *)
Lemma buffer_skip r l k : buffer_ok r l → (k <= length l)%nat → buffer_ok (set_pos (pos r + Z.of_nat k) r) (drop k l).
Proof.
  intros Hb Hk. destruct (buffer_memory r l Hb) as (_ & _ & _ & _ & Hl & _).
  destruct Hb as (s & Hb & Hs & Hln & Hp & Hm & ->). exists s. cbn [buf set_pos len pos]. split_and!; try done; try lia.
  rewrite drop_drop. f_equal. lia.
Qed.

Lemma readLine_spec r l : buffer_ok r l →
  readLine r = Some (match line l with
    | Some (x, q) => (Some x, set_pos (pos r + Z.of_nat (length x + 2)) r)
    | None => (None, r) end).
Proof.
  intros Hb. destruct (buffer_memory r l Hb) as (p & Hp & Hle & Ht & Hl & Hm). unfold readLine. rewrite Hp, (seek_line r l p Hb Hp).
  destruct (line l) as [[x q]|] eqn:El; [|done]. apply line_split in El.
  assert (Hx : (length x <= length l)%nat) by (rewrite El, length_app; lia).
  rewrite to_int_id by (unfold in_int, INT_MIN, INT_MAX in *; lia). rewrite Nat2Z.id. do 3 f_equal.
  - f_equal. rewrite <- (firstn_skipn (length l) p), Ht, take_app_le by lia. rewrite El. by rewrite take_app_length.
  - lia.
Qed.

Lemma line_rest l x q : line l = Some (x, q) → q = drop (length x + 2) l ∧ (length x + 2 <= length l)%nat.
Proof.
  intros H. pose proof (line_length _ _ _ H). apply line_split in H as ->. split; [|lia].
  rewrite app_assoc, drop_app_length'; [done|]. rewrite length_app. done.
Qed.

(** ** The stack *)

Lemma move_loop_set_reply fuel v r : move_loop fuel (set_reply v r) = set_reply v <$> move_loop fuel (r : reader).
Proof.
  revert r. induction fuel as [|fuel IH]; intros r; [done|]. cbn [move_loop]. cbn [ridx set_reply].
  repeat case_if; try done.
  change (task_at (ridx r) (set_reply v r)) with (task_at (ridx r) r).
  change (task_at (ridx r - 1) (set_reply v r)) with (task_at (ridx r - 1) r).
  destruct (task_at (ridx r) r) as [cur|], (task_at (ridx r - 1) r) as [prv|]; try done.
  repeat case_if; try done. exact (IH (set_stack (rstack r) (ridx r - 1) r)).
Qed.

Lemma arrays_ok_insert p0 rst fs i t : (length fs <= i)%nat → arrays_ok p0 rst fs → arrays_ok p0 (<[i := t]> rst) fs.
Proof.
  revert i. induction fs as [|[n d] fs IH]; intros i Hi; [done|]. cbn [arrays_ok length] in *. intros (H1 & H2 & H3).
  split_and!; [|done|apply IH; [lia|done]]. by rewrite list_lookup_insert_ne by lia.
Qed.

(** [moveToNextTask] goes where [plug] goes. *)
Lemma move_plug fuel : ∀ p0 fs type t r, stack_ok p0 fs type r → (length fs < fuel)%nat →
  ∃ st i, move_loop fuel r = Some (set_stack st i r) ∧ length st = 9%nat ∧
    match plug t fs with inl fs' => stack_ok p0 fs' (-1) (set_stack st i r) | inr _ => i = -1 end.
Proof.
  induction fuel as [|fuel IH]; intros p0 fs type t r Hst Hf; [lia|].
  destruct Hst as (H9 & Hi & H8 & Har & e & o & Hcur). cbn [move_loop]. rewrite Hi.
  rewrite Z.geb_leb. destruct (Z.leb_spec 0 (Z.of_nat (length fs))); [|lia]. destruct fs as [|[n d] fs].
  - exists (rstack r), (-1). by split_and!.
  - destruct Har as (Hprv & Hlt & Har). cbn [length] in *.
    destruct (Z.eqb_spec (Z.of_nat (S (length fs))) 0); [lia|].
    assert (Hc : task_at (Z.of_nat (S (length fs))) r = Some (mk_task type e (Z.of_nat (length d)) o (Some (length fs)))).
    { unfold task_at. destruct (Z.ltb_spec (Z.of_nat (S (length fs))) 0); [lia|]. by rewrite Nat2Z.id, Hcur. }
    assert (Hp : task_at (Z.of_nat (S (length fs)) - 1) r = Some (mk_task REDIS_REPLY_ARRAY (Z.of_nat n) (idx_of fs) (Some (next_addr p0 fs)) (parent_of fs))).
    { unfold task_at. destruct (Z.ltb_spec (Z.of_nat (S (length fs)) - 1) 0); [lia|].
      by replace (Z.to_nat (Z.of_nat (S (length fs)) - 1)) with (length fs) by lia. }
    rewrite Hc, Hp. cbn [t_type idx elements obj parent]. change (REDIS_REPLY_ARRAY =? REDIS_REPLY_ARRAY) with true. cbn [negb plug].
    destruct (Z.eqb_spec (Z.of_nat (length d)) (Z.of_nat n - 1)) as [Hfull|Hmore].
    + destruct (Nat.eqb_spec (length d + 1) n) as [_|]; [|lia].
      destruct (IH p0 fs REDIS_REPLY_ARRAY (T_array n (d ++ [t])) (set_stack (rstack r) (Z.of_nat (S (length fs)) - 1) r)) as (st & i & Hm & Hl & Hpl);
        [|lia|by exists st, i].
      split_and!; [done|cbn [ridx set_stack]; lia|lia|done|]. cbn [rstack set_stack]. by eexists _, _.
    + destruct (Nat.eqb_spec (length d + 1) n) as [|_]; [lia|].
      destruct (Z.ltb_spec (Z.of_nat (length d)) (Z.of_nat n)); [|lia]. cbn [negb].
      unfold set_task. rewrite Nat2Z.id.
      eexists _, _. split; [done|]. rewrite length_insert. split; [done|].
      split_and!; cbn [rstack set_stack ridx length].
      * by rewrite length_insert.
      * done.
      * lia.
      * cbn [arrays_ok]. rewrite list_lookup_insert_ne by lia. split_and!; [done|rewrite length_app; simpl; lia|].
        apply arrays_ok_insert; [lia|done].
      * rewrite list_lookup_insert_eq by lia. eexists _, _. do 2 f_equal. cbn [idx_of]. rewrite length_app. simpl. lia.
Qed.

(** ** Completing an element *)

Lemma plug_inl p0 t fs fs' : plug t fs = inl fs' →
  partial fs' = Some (close_with t fs) ∧ next_addr p0 fs' = (next_addr p0 fs + tsize t)%nat ∧ fs' ≠ [] ∧ fs ≠ [].
Proof.
  revert t. induction fs as [|[n d] fs IH]; intros t H; cbn [plug] in H; [done|].
  case_if_in H.
  - apply IH in H as (H1 & H2 & H3 & _). cbn [close_with]. split_and!; [done| |done|done]. rewrite H2, tsize_array, tsizes_app.
    cbn [next_addr]. unfold tsizes at 2. simpl. lia.
  - injection H as <-. cbn [partial close_with next_addr]. split_and!; [done| |done|done]. rewrite tsizes_app. unfold tsizes at 2. simpl. lia.
Qed.

Lemma plug_inr p0 t fs t' : plug t fs = inr t' → t' = close_with t fs ∧ (p0 + tsize t' = next_addr p0 fs + tsize t)%nat.
Proof.
  revert t. induction fs as [|[n d] fs IH]; intros t H; cbn [plug] in H; [by injection H as <-|].
  case_if_in H; [|done]. apply IH in H as (-> & H2). split; [done|]. rewrite H2, tsize_array, tsizes_app. cbn [next_addr].
  unfold tsizes at 2. simpl. lia.
Qed.

Lemma fits_replace t t' fs : fits (close_with t fs) → fits t' → fits (close_with t' fs).
Proof.
  revert t t'. induction fs as [|[n d] fs IH]; intros t t' H H'; [done|]. cbn [close_with] in *. eapply IH; [exact H|].
  apply fits_close, fits_array_inv in H as [Hl Hd]. apply Forall_app in Hd as [Hd _]. rewrite length_app in Hl. simpl in Hl.
  constructor; [rewrite length_app; simpl; lia|]. apply Forall_app. by split; [|constructor].
Qed.

Lemma fits_attach p0 rst t fs : frames_fit fs → arrays_ok p0 rst fs → fits t → fits (close_with t fs).
Proof.
  destruct fs as [|[n d] fs]; [done|]. unfold frames_fit. cbn [partial close_with arrays_ok]. intros H (_ & Hlt & _) Ht.
  eapply fits_replace; [exact H|]. apply fits_close, fits_array_inv in H as [_ Hd].
  constructor; [rewrite length_app; simpl; lia|]. apply Forall_app. by split; [|constructor].
Qed.

(** The parent the functions are given. *)
Lemma parent_task_right p0 fs type r t :
  stack_ok p0 fs type r → parent t = parent_of fs → parent_right p0 fs (parent_task t r).
Proof.
  intros (_ & _ & _ & Har & _) Ht. unfold parent_task. rewrite Ht. destruct fs as [|[n d] fs]; [done|].
  destruct Har as (Hp & Hlt & _). cbn [parent_of mbind option_bind parent_right]. rewrite Hp. by split.
Qed.

Lemma buffer_ok_same r r' l : buf r' = buf r → len r' = len r → pos r' = pos r → buffer_ok r l → buffer_ok r' l.
Proof. intros H1 H2 H3 (s & H). exists s. by rewrite H1, H2, H3. Qed.

(** The state after an element has been made, and before the next task is
    chosen. *)
Definition made (p0 : nat) (m : gmap nat redisReply) (fs : list frame) (t : tree) (l : list Z) (r : reader) (h : reply_heap) : Prop :=
  err r = 0 ∧ fn r = Some defaultFunctions ∧ buffer_ok r l ∧ (∃ type, stack_ok p0 fs type r) ∧ heap_after p0 m fs t h ∧
  reply r = partial_reply p0 fs ∧ frames_fit fs ∧ fits t.

Definition item_done (p0 : nat) (m : gmap nat redisReply) (mv : move) (r : reader) (h : reply_heap) : Prop :=
  match mv with
  | go st => reader_rel p0 m st r h
  | halt (R_reply t l) => done_rel p0 m t l r h
  | _ => False
  end.

Lemma finish_item_ok p0 m fs t l r h :
  made p0 m fs t l r h →
  ∃ r', finish_item (Some (next_addr p0 fs)) r h = Some (REDIS_OK, r', h) ∧ item_done p0 m (after t fs l) r' h.
Proof.
  intros (He & Hfn & Hb & (type & Hst) & Hh & Hre & Hff & Hft). unfold finish_item.
  set (r1 := if ridx r =? 0 then set_reply (Some (next_addr p0 fs)) r else r).
  assert (Hst1 : stack_ok p0 fs type r1) by (unfold r1; by case_if).
  assert (Hre1 : reply r1 = Some p0).
  { unfold r1. destruct Hst as (_ & Hi & _). rewrite Hi. destruct fs as [|f fs]; [done|]. cbn [length].
    by destruct (Z.eqb_spec (Z.of_nat (S (length fs))) 0); [lia|]. }
  assert (Hb1 : buffer_ok r1 l) by (unfold r1; by case_if).
  assert (He1 : err r1 = 0 ∧ fn r1 = Some defaultFunctions) by (unfold r1; by case_if).
  clearbody r1. unfold moveToNextTask.
  assert (Hf : (length fs < 10)%nat) by (destruct Hst1 as (_ & _ & ? & _); lia).
  destruct (move_plug 10 p0 fs type t r1 Hst1 Hf) as (st & i & -> & Hl & Hpl). eexists. split; [done|].
  destruct Hst1 as (_ & _ & _ & Har & _).
  pose proof (fits_attach p0 _ t fs Hff Har Hft) as Hfit. destruct Hh as (Ho & Hn & Hm & Hbl). unfold after.
  destruct (plug t fs) as [fs'|t'] eqn:Hplug; cbn [item_done].
  - destruct (plug_inl p0 t fs fs' Hplug) as (Hpart & Hnx & Hne & _). split; [|by left]. split; cbn [frames cur_type rest].
    + apply He1.
    + apply He1.
    + by eapply (buffer_ok_same r1).
    + exact Hpl.
    + unfold heap_rel, pflat. rewrite Hpart. by split_and!; [done|congruence|done|done].
    + cbn [reply set_stack]. rewrite Hre1. by destruct fs'.
    + unfold frames_fit. by rewrite Hpart.
  - destruct (plug_inr p0 t fs t' Hplug) as (-> & Hsz). subst i. destruct He1 as [He1 Hf1].
    split; cbn [rstack ridx set_stack]; try done. rewrite Hn; lia.
Qed.

(** An error frees what has been made. *)
Lemma fail_ok p0 m fs e msg r h :
  fn r = Some defaultFunctions → heap_rel p0 m fs h → reply r = partial_reply p0 fs → frames_fit fs →
  ∃ r' h', fail e msg r h = Some (REDIS_ERR, r', h') ∧ failed_rel m e msg r' h'.
Proof.
  intros Hfn (Ho & Hn & Hm & Hbl) Hre Hff. unfold fail, setError. rewrite Hre, Hfn. cbn [mbind option_bind freeObject defaultFunctions].
  destruct fs as [|[n d] fs].
  - eexists _, _. split; [done|]. split; cbn; try done. rewrite Ho. unfold pflat, heap_map. simpl. apply map_empty_union.
  - destruct (free_reply (close_with (T_array n d) fs) p0 m h Hff Hbl Ho) as (h' & Hh' & Hobj & _).
    cbn [partial_reply]. rewrite Hh'. eexists _, _. split; [done|]. by split.
Qed.

Section item.
Context (p0 : nat) (m : gmap nat redisReply) (fs : list frame) (type : Z) (l : list Z) (r : reader) (h : reply_heap).
Context (Hir : item_rel p0 m fs type l r h).

Lemma current_task : ∃ e o, task_at (ridx r) r = Some (mk_task type e (idx_of fs) o (parent_of fs)).
Proof.
  destruct (ir_stack _ _ _ _ _ _ _ Hir) as (_ & Hi & _ & _ & e & o & Ht). exists e, o. unfold task_at. rewrite Hi.
  destruct (Z.ltb_spec (Z.of_nat (length fs)) 0); [lia|]. by rewrite Nat2Z.id.
Qed.

(** Reading on does not touch the rest of the state. *)
Lemma skipped k : (k <= length l)%nat → item_rel p0 m fs type (drop k l) (set_pos (pos r + Z.of_nat k) r) h.
Proof.
  intros Hk. destruct Hir as [H1 H2 H3 H4 H5 H6 H7]. split; try done. by apply buffer_skip.
Qed.

Lemma made_here t h1 : heap_after p0 m fs t h1 → fits t → made p0 m fs t l r h1.
Proof. intros Hh Ht. destruct Hir as [H1 H2 H3 H4 H5 H6 H7]. split_and!; try done. by exists type. Qed.

Lemma task_parent_right e o : parent_right p0 fs (parent_task (mk_task type e (idx_of fs) o (parent_of fs)) r).
Proof. eapply parent_task_right; [apply Hir|done]. Qed.

Lemma fail_here e msg : ∃ r' h', fail e msg r h = Some (REDIS_ERR, r', h') ∧ failed_rel m e msg r' h'.
Proof. destruct Hir. by eapply fail_ok. Qed.
End item.

(** What [processItem] is to do, from what the parser does with the item. *)
Definition item_result (p0 : nat) (m : gmap nat redisReply) (mv : move) (r : reader) (h : reply_heap)
    (res : option (Z * reader * reply_heap)) : Prop :=
  match mv with
  | halt (R_more st) => ∃ r', res = Some (REDIS_ERR, r', h) ∧ reader_rel p0 m st r' h
  | halt (R_error e msg) => ∃ r' h', res = Some (REDIS_ERR, r', h') ∧ failed_rel m e msg r' h'
  | _ => ∃ r' h', res = Some (REDIS_OK, r', h') ∧ item_done p0 m mv r' h'
  end.

Lemma item_result_done p0 m t fs l r h res r' h' :
  res = Some (REDIS_OK, r', h') → item_done p0 m (after t fs l) r' h' → item_result p0 m (after t fs l) r h res.
Proof.
  intros Hr Hd. unfold item_result. unfold after in *. destruct (plug t fs); by exists r', h'.
Qed.

Lemma line_item_ok p0 m fs type l r h :
  item_rel p0 m fs type l r h →
  type = REDIS_REPLY_ERROR ∨ type = REDIS_REPLY_STATUS ∨ type = REDIS_REPLY_INTEGER →
  item_result p0 m
    match line_item type l with
    | incomplete => halt (R_more (mk_pstate fs type l))
    | bad e msg => halt (R_error e msg)
    | complete t l' => after t fs l'
    | opened n l' => go (mk_pstate ((n, []) :: fs) (-1) l')
    end r h (processLineItem r h).
Proof.
  intros Hir Hty. destruct (current_task _ _ _ _ _ _ _ Hir) as (e & o & Hcur). unfold processLineItem. rewrite Hcur.
  rewrite (readLine_spec r l) by apply Hir. unfold line_item. destruct (line l) as [[x q]|] eqn:El.
  2:{ exists r. split; [done|]. split; [done|]. right. left. tauto. }
  destruct (line_rest _ _ _ El) as [-> Hk]. pose proof (skipped _ _ _ _ _ _ _ Hir _ Hk) as Hs. set (r1 := set_pos _ r) in *.
  cbn [t_type]. rewrite (ir_fn _ _ _ _ _ _ _ Hs). cbn [mbind option_bind createInteger createString defaultFunctions].
  destruct (Z.eqb_spec type REDIS_REPLY_INTEGER) as [->|Hne].
  - destruct (string2ll x) as [v|]; [|by eapply fail_here].
    destruct (create_integer_ok p0 m fs (mk_task REDIS_REPLY_INTEGER e (idx_of fs) o (parent_of fs))
      (parent_task (mk_task REDIS_REPLY_INTEGER e (idx_of fs) o (parent_of fs)) r1) h) with (v := v) as (h1 & -> & Hh1);
      [apply Hs|done|done|by eapply task_parent_right|].
    destruct (finish_item_ok p0 m fs (T_integer v) (drop (length x + 2) l) r1 h1) as (r' & -> & Hd);
      [by eapply made_here; [| |constructor]|]. by eapply item_result_done.
  - destruct (create_string_ok p0 m fs (mk_task type e (idx_of fs) o (parent_of fs))
      (parent_task (mk_task type e (idx_of fs) o (parent_of fs)) r1) h) with (s := x) as (h1 & -> & Hh1);
      [apply Hs|done|done|by eapply task_parent_right|cbn [t_type]; tauto|].
    destruct (finish_item_ok p0 m fs (T_string type x) (drop (length x + 2) l) r1 h1) as (r' & -> & Hd).
    { eapply made_here; [done|done|]. constructor. unfold string_type. tauto. }
    by eapply item_result_done.
Qed.

Lemma bulk_item_ok p0 m fs l r h :
  item_rel p0 m fs REDIS_REPLY_STRING l r h →
  item_result p0 m
    match bulk_item l with
    | incomplete => halt (R_more (mk_pstate fs REDIS_REPLY_STRING l))
    | bad e msg => halt (R_error e msg)
    | complete t l' => after t fs l'
    | opened n l' => go (mk_pstate ((n, []) :: fs) (-1) l')
    end r h (processBulkItem r h).
Proof.
  intros Hir. destruct (current_task _ _ _ _ _ _ _ Hir) as (e & o & Hcur). unfold processBulkItem. rewrite Hcur.
  pose proof (ir_buffer _ _ _ _ _ _ _ Hir) as Hb. destruct (buffer_memory r l Hb) as (p & Hp & Hle & Htk & Hl & Hm).
  rewrite Hp, (seek_line r l p Hb Hp). unfold bulk_item.
  assert (Hmore : reader_rel p0 m (mk_pstate fs REDIS_REPLY_STRING l) r h) by (split; [done|]; right; left; tauto).
  destruct (line l) as [[x q]|] eqn:El; [|by exists r]. destruct (line_rest _ _ _ El) as [Hq Hk]. apply line_split in El.
  replace (Z.to_nat (Z.of_nat (length x) + 2 - 2)) with (length x) by lia.
  assert (take (length x) p = x) as ->.
  { rewrite <- (firstn_skipn (length l) p), Htk, take_app_le by lia. rewrite El. by rewrite take_app_length. }
  destruct (string2ll x) as [n|] eqn:Hn; [|by eapply fail_here]. apply string2ll_sound in Hn as [Hn _]. unfold in_int64, int64_max in Hn.
  destruct (Z.ltb_spec n (-1)); [by eapply fail_here|].
  assert (Hpos : 0 <= pos r ∧ len r <= INT_MAX) by (destruct Hb as (s & _ & _ & _ & ? & ? & _); lia). unfold INT_MAX in *.
  destruct (Z.eqb_spec n (-1)) as [->|Hne].
  - unfold make_nil. rewrite (ir_fn _ _ _ _ _ _ _ Hir). cbn [mbind option_bind createNil defaultFunctions].
    destruct (create_nil_ok p0 m fs (mk_task REDIS_REPLY_STRING e (idx_of fs) o (parent_of fs))
      (parent_task (mk_task REDIS_REPLY_STRING e (idx_of fs) o (parent_of fs)) r) h) as (h1 & -> & Hh1);
      [apply Hir|done|done|by eapply task_parent_right|].
    pose proof (skipped _ _ _ _ _ _ _ Hir _ Hk) as Hs. rewrite <- Hq in Hs.
    replace (Z.of_nat (length x + 2)) with (Z.of_nat (length x) + 2) in Hs by lia.
    destruct (finish_item_ok p0 m fs T_nil q (set_pos (pos r + (Z.of_nat (length x) + 2)) r) h1) as (r' & -> & Hd);
      [by eapply made_here; [| |constructor]|]. by eapply item_result_done.
  - assert (Hbl : to_size_t (Z.of_nat (length x) + 2 + to_int64 (n + 2)) = Z.of_nat (length x) + 2 + (n + 2)).
    { unfold to_size_t, to_int64. replace (Z.of_nat (length x) + 2 + ((n + 2 + 2 ^ 63) mod 2 ^ 64 - 2 ^ 63)) with
        ((Z.of_nat (length x) + 2 - 2 ^ 63) + (n + 2 + 2 ^ 63) mod 2 ^ 64) by lia. rewrite Zplus_mod_idemp_r.
      rewrite Z.mod_small; lia. }
    rewrite Hbl, to_size_t_id by lia. rewrite Hq, length_drop.
    destruct (Z.leb_spec (n + 2) (Z.of_nat (length l - (length x + 2)))) as [Hfit|Hfit].
    + destruct (Z.leb_spec (pos r + (Z.of_nat (length x) + 2 + (n + 2))) (len r)); [|lia].
      rewrite read_at_Some by lia. set (bytes := take (Z.to_nat n) (drop (Z.to_nat (Z.of_nat (length x) + 2)) p)).
      assert (Hby : bytes = take (Z.to_nat n) (drop (length x + 2) l)).
      { unfold bytes. rewrite <- Htk. rewrite skipn_firstn_comm, take_take. f_equal; [lia|]. f_equal. lia. }
      unfold make_string. rewrite (ir_fn _ _ _ _ _ _ _ Hir). cbn [mbind option_bind createString defaultFunctions].
      destruct (create_string_ok p0 m fs (mk_task REDIS_REPLY_STRING e (idx_of fs) o (parent_of fs))
        (parent_task (mk_task REDIS_REPLY_STRING e (idx_of fs) o (parent_of fs)) r) h) with (s := bytes) as (h1 & -> & Hh1);
        [apply Hir|done|done|by eapply task_parent_right|cbn [t_type]; tauto|]. cbn [t_type] in Hh1.
      pose proof (skipped _ _ _ _ _ _ _ Hir (length x + 2 + Z.to_nat (n + 2))%nat ltac:(lia)) as Hs.
      replace (Z.of_nat (length x + 2 + Z.to_nat (n + 2))) with (Z.of_nat (length x) + 2 + (n + 2)) in Hs by lia.
      rewrite <- drop_drop in Hs.
      destruct (finish_item_ok p0 m fs (T_string REDIS_REPLY_STRING bytes) (drop (Z.to_nat (n + 2)) (drop (length x + 2) l))
        (set_pos (pos r + (Z.of_nat (length x) + 2 + (n + 2))) r) h1) as (r' & -> & Hd); [by eapply made_here; [| |constructor; left]|].
      rewrite Hby in Hd. by eapply item_result_done.
    + destruct (Z.leb_spec (pos r + (Z.of_nat (length x) + 2 + (n + 2))) (len r)); [lia|]. by exists r.
Qed.

(** The root becomes the reply: before the move and after it is the same. *)
Lemma set_root_ok p0 m fs t l r h :
  made p0 m fs t l r h →
  ∃ r', match moveToNextTask r with
        | Some r2 => Some (REDIS_OK, if ridx r =? 0 then set_reply (Some (next_addr p0 fs)) r2 else r2, h)
        | None => None
        end = Some (REDIS_OK, r', h) ∧ item_done p0 m (after t fs l) r' h.
Proof.
  intros Hm. destruct (finish_item_ok _ _ _ _ _ _ _ Hm) as (r' & Hf & Hd). exists r'. split; [|done]. rewrite <- Hf.
  unfold finish_item, moveToNextTask. case_if; [|done]. rewrite move_loop_set_reply. by destruct (move_loop 10 r).
Qed.

(** Going into an array. *)
Lemma push_task_ok p0 m fs l r h h1 e o n :
  item_rel p0 m fs REDIS_REPLY_ARRAY l r h → task_at (ridx r) r = Some (mk_task REDIS_REPLY_ARRAY e (idx_of fs) o (parent_of fs)) →
  (length fs < 8)%nat → (0 < n)%nat → heap_after p0 m fs (T_array n []) h1 →
  let r2 := push_task (mk_task REDIS_REPLY_ARRAY e (idx_of fs) o (parent_of fs)) (Z.of_nat n) (Some (next_addr p0 fs)) r in
  reader_rel p0 m (mk_pstate ((n, []) :: fs) (-1) l)
    (if ridx r =? 0 then set_reply (Some (next_addr p0 fs)) r2 else r2) h1.
Proof.
  intros [He Hfn Hb Hst Hh Hre Hff] Hcur Hdep Hn (Ho & Hnx & Hm & Hbl) r2.
  destruct Hst as (H9 & Hi & H8 & Har & e' & o' & Hc). split; [|by left]. cbn [frames cur_type rest].
  assert (Hstk : stack_ok p0 ((n, []) :: fs) (-1) r2).
  { unfold r2, push_task, set_task. cbn [ridx set_stack rstack elements obj t_type idx parent]. rewrite Hi, Nat2Z.id.
    replace (Z.to_nat (Z.of_nat (length fs) + 1)) with (S (length fs)) by lia.
    split_and!; cbn [rstack ridx set_stack length].
    - by rewrite !length_insert.
    - lia.
    - lia.
    - cbn [arrays_ok length]. rewrite list_lookup_insert_ne, list_lookup_insert_eq by lia. split_and!; [done|lia|].
      do 2 (apply arrays_ok_insert; [lia|]). done.
    - rewrite list_lookup_insert_eq by (rewrite length_insert; lia). by eexists _, _. }
  assert (Hr2 : ∀ v, reply (if ridx r =? 0 then set_reply (Some v) r2 else r2) = if ridx r =? 0 then Some v else reply r)
    by (intros v; by case_if).
  split.
  - by case_if.
  - by case_if.
  - by case_if.
  - by case_if.
  - unfold heap_rel, pflat. cbn [partial next_addr]. unfold tsizes. simpl. split_and!; [done| |done|done].
    rewrite Hnx. simpl. lia.
  - rewrite Hr2, Hi. cbn [partial_reply]. destruct fs as [|f fs]; [done|]. cbn [length].
    destruct (Z.eqb_spec (Z.of_nat (S (length fs))) 0); [lia|done].
  - unfold frames_fit. cbn [partial]. eapply fits_attach; [done|done|]. constructor; [simpl; lia|done].
Qed.

Lemma array_item_ok p0 m fs l r h :
  item_rel p0 m fs REDIS_REPLY_ARRAY l r h →
  item_result p0 m
    match array_item (length fs) l with
    | incomplete => halt (R_more (mk_pstate fs REDIS_REPLY_ARRAY l))
    | bad e msg => halt (R_error e msg)
    | complete t l' => after t fs l'
    | opened n l' => go (mk_pstate ((n, []) :: fs) (-1) l')
    end r h (processMultiBulkItem r h).
Proof.
  intros Hir. destruct (current_task _ _ _ _ _ _ _ Hir) as (e & o & Hcur). unfold processMultiBulkItem. rewrite Hcur.
  destruct (ir_stack _ _ _ _ _ _ _ Hir) as (_ & Hi & H8 & _). unfold array_item. rewrite Hi.
  destruct (Nat.eqb_spec (length fs) 8) as [H8'|H8']; [rewrite H8'; by eapply fail_here|].
  destruct (Z.eqb_spec (Z.of_nat (length fs)) 8) as [|_]; [lia|].
  assert (Hdep : (length fs < 8)%nat) by lia. rewrite (readLine_spec r l) by apply Hir.
  destruct (line l) as [[x q]|] eqn:El; [|by exists r; split; [|split; [|right; right]]].
  destruct (line_rest _ _ _ El) as [-> Hk]. pose proof (skipped _ _ _ _ _ _ _ Hir _ Hk) as Hs.
  change (task_at (ridx r) r) with (task_at (ridx (set_pos (pos r + Z.of_nat (length x + 2)) r)) (set_pos (pos r + Z.of_nat (length x + 2)) r)) in Hcur.
  set (r1 := set_pos _ r) in *.
  destruct (string2ll x) as [n|] eqn:Hn; [|by eapply fail_here]. cbn zeta.
  destruct ((n <? -1) || (n >? INT_MAX)) eqn:Hrange; [by eapply fail_here|]. bool_to_prop.
  set (task := mk_task REDIS_REPLY_ARRAY e (idx_of fs) o (parent_of fs)) in *. 
  assert (Hpar : parent_right p0 fs (parent_task task r1)) by (by eapply task_parent_right).
  unfold make_nil, make_array. rewrite (ir_fn _ _ _ _ _ _ _ Hs). cbn [mbind option_bind createNil createArray defaultFunctions].
  destruct (Z.eqb_spec n (-1)) as [->|].
  - destruct (create_nil_ok p0 m fs task (parent_task task r1) h) as (h1 & -> & Hh1); [apply Hs|done..|].
    destruct (set_root_ok p0 m fs T_nil (drop (length x + 2) l) r1 h1) as (r' & Hr' & Hd); [by eapply made_here; [| |constructor]|].
    by eapply item_result_done.
  - destruct (create_array_ok p0 m fs task (parent_task task r1) h) with (n := Z.to_nat n) as (h1 & Hc & Hh1); [apply Hs|done..|].
    rewrite Z2Nat.id in Hc by lia. rewrite Hc. destruct (Z.gtb_spec n 0) as [Hn0|Hn0], (Z.eqb_spec n 0) as [Hnz|Hnz]; try lia.
    + pose proof (push_task_ok p0 m fs _ r1 h h1 e o (Z.to_nat n) Hs Hcur Hdep ltac:(lia) Hh1) as Hp. cbn zeta in Hp.
      rewrite Z2Nat.id in Hp by lia. by eexists _, _.
    + subst n. destruct (set_root_ok p0 m fs (T_array 0 []) (drop (length x + 2) l) r1 h1) as (r' & Hr' & Hd);
        [by eapply made_here; [| |constructor]|]. by eapply item_result_done.
Qed.
