(* ===== verification/ReadRun.v ===== *)
(** * The reader runs as the parser runs

    From one item (ReadRefine.v) to the calls of the interface: [processItem] is
    one step of the parser, the loop of [redisReaderGetReply] is the whole of
    [parse], and [redisReaderFeed] adds bytes to what is left to parse. *)

From S2P Require Import Prelude Sds SdsProps Numbers Read Reply Resp ReplyTree ReadRefine.
Local Open Scope Z_scope.

(** ** One item *)

Definition known (type : Z) : Prop :=
  type = REDIS_REPLY_ERROR ∨ type = REDIS_REPLY_STATUS ∨ type = REDIS_REPLY_INTEGER ∨ type = REDIS_REPLY_STRING ∨ type = REDIS_REPLY_ARRAY.

Lemma reply_type_known c type : reply_type c = Some type → known type.
Proof. unfold reply_type, known. intros H. repeat case_if_in H; simplify_eq; tauto. Qed.

Lemma process_typed_ok p0 m fs type l r h :
  item_rel p0 m fs type l r h → known type → item_result p0 m (typed_step type fs l) r h (process_typed type r h).
Proof.
  intros Hir [-> |[-> |[-> |[-> | ->]]]].
  - exact (line_item_ok p0 m fs _ l r h Hir (or_introl eq_refl)).
  - exact (line_item_ok p0 m fs _ l r h Hir (or_intror (or_introl eq_refl))).
  - exact (line_item_ok p0 m fs _ l r h Hir (or_intror (or_intror eq_refl))).
  - exact (bulk_item_ok p0 m fs l r h Hir).
  - exact (array_item_ok p0 m fs l r h Hir).
Qed.

(** The current task gets its type. *)
Lemma item_rel_type p0 m fs type l r h cur type' :
  item_rel p0 m fs type l r h → task_at (ridx r) r = Some cur →
  item_rel p0 m fs type' l (set_task (ridx r) (set_type type' cur) r) h.
Proof.
  intros [He Hfn Hb Hst Hh Hre Hff] Hcur. split; try done. destruct Hst as (H9 & Hi & H8 & Har & e & o & Hc).
  unfold task_at in Hcur. rewrite Hi in Hcur. destruct (Z.ltb_spec (Z.of_nat (length fs)) 0); [lia|].
  rewrite Nat2Z.id, Hc in Hcur. injection Hcur as <-. unfold set_task. rewrite Hi, Nat2Z.id.
  split_and!; cbn [rstack ridx set_stack].
  - by rewrite length_insert.
  - done.
  - done.
  - by apply arrays_ok_insert.
  - rewrite list_lookup_insert_eq by lia. by exists e, o.
Qed.

Lemma type_ok_known type depth : type_ok type depth → type < 0 ∧ type = -1 ∨ 0 <= type ∧ known type.
Proof.
  intros [-> |[[-> |[-> |[-> | ->]]]|[-> _]]]; [by left|right..]; (split; [done|]); unfold known; tauto.
Qed.

Lemma processItem_ok p0 m st r h :
  reader_rel p0 m st r h → item_result p0 m (step st) r h (processItem r h).
Proof.
  intros Hrel. pose proof Hrel as [Hir Hty]. destruct (current_task _ _ _ _ _ _ _ Hir) as (e & o & Hcur).
  unfold processItem, step. rewrite Hcur. cbn [t_type].
  destruct (type_ok_known _ _ Hty) as [[Hneg Hm1]|[Hpos Hkn]].
  2:{ destruct (Z.ltb_spec (cur_type st) 0); [lia|]. by apply process_typed_ok. }
  destruct (Z.ltb_spec (cur_type st) 0); [|lia]. unfold readBytes.
  destruct (buffer_memory r _ (ir_buffer _ _ _ _ _ _ _ Hir)) as (p & Hp & Hle & Htk & Hl & Hmx).
  rewrite <- Hl, to_size_t_id by (unfold INT_MAX in *; lia). rewrite Z.geb_leb. destruct (rest st) as [|c l] eqn:Hrest.
  - destruct (Z.leb_spec 1 (Z.of_nat (length (A := Z) []))) as [Hc|_]; [simpl in Hc; lia|]. by exists r.
  - destruct (Z.leb_spec 1 (Z.of_nat (length (c :: l)))) as [_|Hc]; [|simpl in Hc; lia].
    change (memory (pos r) (set_pos (pos r + 1) r)) with (memory (pos r) r). rewrite Hp.
    destruct p as [|c' p]; [simpl in Hle; lia|]. injection Htk as -> Htk.
    pose proof (skipped _ _ _ _ _ _ _ Hir 1%nat ltac:(simpl; lia)) as Hs. change (drop 1 (c :: l)) with l in Hs.
    change (Z.of_nat 1) with 1 in Hs. destruct (reply_type c) as [type|] eqn:Hrt.
    + apply process_typed_ok; [|by eapply reply_type_known].
      exact (item_rel_type _ _ _ _ _ (set_pos (pos r + 1) r) _ _ type Hs Hcur).
    + by eapply fail_here.
Qed.

(** ** All items *)

Definition parsed (p0 : nat) (m : gmap nat redisReply) (res : option result) (r : reader) (h : reply_heap) : Prop :=
  match res with
  | Some (R_more st) => reader_rel p0 m st r h
  | Some (R_reply t l) => done_rel p0 m t l r h
  | Some (R_error e msg) => failed_rel m e msg r h
  | None => False
  end.

Lemma reader_rel_ridx p0 m st r h : reader_rel p0 m st r h → 0 <= ridx r.
Proof. intros [Hir _]. destruct (ir_stack _ _ _ _ _ _ _ Hir) as (_ & -> & _). lia. Qed.

Lemma items_loop_ok p0 m fuel : ∀ st r h, reader_rel p0 m st r h → (length (rest st) + 1 < fuel)%nat →
  ∃ r' h', items_loop fuel r h = Some (r', h') ∧ parsed p0 m (parse st) r' h'.
Proof.
  induction fuel as [|fuel IH]; intros st r h Hrel Hf; [lia|]. cbn [items_loop]. rewrite Z.geb_leb.
  pose proof (reader_rel_ridx _ _ _ _ _ Hrel). destruct (Z.leb_spec 0 (ridx r)); [|lia].
  pose proof (processItem_ok _ _ _ _ _ Hrel) as Hi. rewrite parse_step.
  destruct (step st) as [st'|[st'|t l|e msg]] eqn:Hs; cbn [item_result] in Hi.
  - destruct Hi as (r' & h' & -> & Hd). change (REDIS_OK =? REDIS_OK) with true. cbn iota.
    apply IH; [done|]. pose proof (step_shorter _ _ Hs). lia.
  - destruct Hi as (r' & -> & Hd). by exists r', h.
  - destruct Hi as (r' & h' & -> & Hd). change (REDIS_OK =? REDIS_OK) with true. cbn iota.
    destruct fuel as [|fuel]; [lia|]. cbn [items_loop]. rewrite (dr_ridx _ _ _ _ _ _ Hd). by exists r', h'.
  - destruct Hi as (r' & h' & -> & Hd). by exists r', h'.
Qed.

(** ** Between the calls *)

(** The stack is empty: nothing of the next reply has been looked at. *)
Record idle_rel (p0 : nat) (m : gmap nat redisReply) (l : list Z) (r : reader) (h : reply_heap) : Prop := {
  id_err : err r = 0;
  id_fn : fn r = Some defaultFunctions;
  id_buffer : buffer_ok r l;
  id_stack : length (rstack r) = 9%nat;
  id_ridx : ridx r = -1;
  id_reply : reply r = None;
  id_heap : objs h = m ∧ next h = p0 ∧ mem h = [] ∧ below p0 m
}.

Definition ready_rel (p0 : nat) (m : gmap nat redisReply) (st : pstate) (r : reader) (h : reply_heap) : Prop :=
  (reader_rel p0 m st r h ∨ ∃ l, st = pstart l ∧ idle_rel p0 m l r h) ∧ pos r < 1024.

Lemma ready_err p0 m st r h : ready_rel p0 m st r h → err r = 0.
Proof. intros [[[Hir _]|(l & _ & Hid)] _]; [apply Hir|apply Hid]. Qed.

Lemma ready_buffer p0 m st r h : ready_rel p0 m st r h → buffer_ok r (rest st).
Proof. intros [[[Hir _]|(l & -> & Hid)] _]; [apply Hir|apply Hid]. Qed.

Lemma parse_empty st : type_ok (cur_type st) (length (frames st)) → rest st = [] → parse st = Some (R_more st).
Proof.
  intros Hty Hr. destruct st as [fs type l]. cbn [cur_type frames rest] in *. subst l. rewrite parse_step. unfold step. cbn [cur_type frames rest].
  destruct Hty as [-> |[[-> |[-> |[-> | ->]]]|[-> Hd]]]; try done.
  change (REDIS_REPLY_ARRAY <? 0) with false. cbn iota. unfold typed_step.
  change (typed_item REDIS_REPLY_ARRAY (length fs) []) with (array_item (length fs) []). unfold array_item.
  by destruct (Nat.eqb_spec (length fs) 8); [lia|].
Qed.

(** Errors of the parser are errors for the reader. *)
Lemma parse_error st : match parse st with Some (R_error e _) => e = REDIS_ERR_PROTOCOL | _ => True end.
Proof.
  assert (Ht : ∀ type fs l, match typed_step type fs l with halt (R_error e _) => e = REDIS_ERR_PROTOCOL | _ => True end).
  { intros type fs l. unfold typed_step, typed_item, bulk_item, array_item, line_item, after. repeat (case_if || case_match); simplify_eq; done. }
  induction st as [st IH] using step_induction. rewrite parse_step. destruct (step st) as [st'|res] eqn:Hs; [by apply IH|].
  unfold step in Hs. destruct (cur_type st <? 0).
  - destruct (rest st) as [|c l]; [by simplify_eq|]. destruct (reply_type c); [|by simplify_eq].
    specialize (Ht z (frames st) l). by rewrite Hs in Ht.
  - specialize (Ht (cur_type st) (frames st) (rest st)). by rewrite Hs in Ht.
Qed.

(** The first task of a reply. *)
Lemma start_reply_ok p0 m l r h :
  idle_rel p0 m l r h → reader_rel p0 m (pstart l) (set_stack (<[O := mk_task (-1) (-1) (-1) None None]> (rstack r)) 0 r) h.
Proof.
  intros [He Hfn Hb H9 Hi Hre Hh]. destruct Hh as (Ho & Hn & Hm & Hbl). split; [|by left]. split; cbn [frames cur_type rest pstart]; try done.
  - split_and!; cbn [rstack ridx set_stack length]; [by rewrite length_insert|done|lia|done|].
    rewrite list_lookup_insert_eq by lia. by eexists _, _.
  - unfold heap_rel, pflat. cbn [partial next_addr]. split_and!; try done.
    rewrite Ho. symmetry. apply map_empty_union.
Qed.

(** What is parsed of the buffer is thrown away, when it is much. *)
Definition discarded (r : reader) : option reader :=
  if pos r >=? 1024 then
    match buf r with
    | Some s => match sdsrange s (to_int (pos r)) (-1) with Some s' => Some (set_buf (Some s') 0 (sdslen s') r) | None => None end
    | None => None
    end
  else Some r.

Lemma range_drop (l : list Z) k : 0 <= k <= Z.of_nat (length l) → range k (-1) l = drop (Z.to_nat k) l.
Proof.
  intros Hk. unfold range, from_end. destruct (Z.ltb_spec k 0); [lia|]. change (-1 <? 0) with true. cbn iota zeta.
  apply take_ge. rewrite length_drop. lia.
Qed.

Lemma discard_ok r l : buffer_ok r l →
  ∃ s p n, discarded r = Some (set_buf s p n r) ∧ buffer_ok (set_buf s p n r) l ∧ p < 1024.
Proof.
  intros Hb. unfold discarded. rewrite Z.geb_leb. destruct (Z.leb_spec 1024 (pos r)) as [Hp|Hp].
  - destruct Hb as (s & Hbuf & Hs & Hl & Hpos & Hm & ->). rewrite Hbuf, to_int_id by (unfold in_int, INT_MIN, INT_MAX in *; lia).
    destruct (sdsrange_ok s (pos r) (-1) Hs) as (s' & -> & Hs' & Hc); [lia|unfold in_int, INT_MIN, INT_MAX in *; lia|done|].
    pose proof (content_length s Hs). pose proof (content_length s' Hs') as Hcl.
    rewrite range_drop in Hc by lia. rewrite Hc, length_drop in Hcl.
    exists (Some s'), 0, (sdslen s'). split; [done|]. split; [|lia]. exists s'. cbn [buf set_buf len pos]. unfold sdslen.
    split_and!; try done; try lia.
  - exists (buf r), (pos r), (len r). split_and!; [by destruct r|by destruct r|done].
Qed.

Lemma get_reply_eq r h :
  err r = 0 → len r ≠ 0 →
  redisReaderGetReply r h =
    let r0 := if ridx r =? -1 then set_stack (<[O := mk_task (-1) (-1) (-1) None None]> (rstack r)) 0 r else r in
    match items_loop (Z.to_nat (len r0 - pos r0) + 2) r0 h with
    | None => None
    | Some (r1, h1) =>
      if negb (err r1 =? 0) then Some (REDIS_ERR, None, r1, h1)
      else
        match discarded r1 with
        | None => None
        | Some r2 =>
          if ridx r2 =? -1 then Some (REDIS_OK, reply r2, set_reply None r2, h1) else Some (REDIS_OK, None, r2, h1)
        end
    end.
Proof. intros He Hl. unfold redisReaderGetReply. rewrite He. apply Z.eqb_neq in Hl. by rewrite Hl. Qed.

(** What [redisReaderGetReply] gives, from what the parser gives. *)
Definition got (p0 : nat) (m : gmap nat redisReply) (res : option result) (out : option (Z * option nat * reader * reply_heap)) : Prop :=
  match res with
  | Some (R_more st) => ∃ r h, out = Some (REDIS_OK, None, r, h) ∧ ready_rel p0 m st r h
  | Some (R_reply t l) =>
    ∃ r h, out = Some (REDIS_OK, Some p0, r, h) ∧ objs h = heap_map p0 (flat p0 t) m ∧ fits t ∧
      ready_rel (p0 + tsize t) (heap_map p0 (flat p0 t) m) (pstart l) r h
  | Some (R_error e msg) => ∃ r h, out = Some (REDIS_ERR, None, r, h) ∧ failed_rel m e msg r h
  | None => False
  end.

Lemma below_heap_map p m t : below p m → below (p + tsize t) (heap_map p (flat p t) m).
Proof.
  intros Hb a [o Ho]. unfold heap_map in Ho. apply lookup_union_Some_raw in Ho as [Ho|[_ Ho]].
  - apply lookup_map_seq_Some in Ho as [Hle Hl]. apply lookup_lt_Some in Hl. rewrite flat_length in Hl. lia.
  - specialize (Hb a (ex_intro _ o Ho)). lia.
Qed.

Lemma got_ok p0 m st r h :
  err r = 0 → len r ≠ 0 → reader_rel p0 m st (if ridx r =? -1 then set_stack (<[O := mk_task (-1) (-1) (-1) None None]> (rstack r)) 0 r else r) h →
  got p0 m (parse st) (redisReaderGetReply r h).
Proof.
  intros He Hln Hrel. rewrite get_reply_eq by done. cbn zeta. set (r0 := if ridx r =? -1 then _ else _) in *.
  destruct (buffer_memory r0 _ (ir_buffer _ _ _ _ _ _ _ (proj1 Hrel))) as (_ & _ & _ & _ & Hl & _).
  destruct (items_loop_ok p0 m (Z.to_nat (len r0 - pos r0) + 2) st r0 h Hrel ltac:(lia)) as (r1 & h1 & -> & Hpa).
  pose proof (parse_error st) as Hpe. destruct (parse st) as [[st'|t l|e msg]|]; [| | |done]; cbn [parsed got] in *.
  - pose proof (reader_rel_ridx _ _ _ _ _ Hpa) as Hi. destruct Hpa as [Hir Hty]. rewrite (ir_err _ _ _ _ _ _ _ Hir). cbn [negb Z.eqb].
    destruct (discard_ok r1 _ (ir_buffer _ _ _ _ _ _ _ Hir)) as (s & p & n & -> & Hb & Hp).
    cbn [ridx set_buf]. destruct (Z.eqb_spec (ridx r1) (-1)); [lia|]. eexists _, _. split; [done|]. split; [left|done].
    split; [|done]. destruct Hir. by split.
  - rewrite (dr_err _ _ _ _ _ _ Hpa). cbn [negb Z.eqb].
    destruct (discard_ok r1 _ (dr_buffer _ _ _ _ _ _ Hpa)) as (s & p & n & -> & Hb & Hp). cbn [ridx set_buf reply].
    destruct Hpa as [D1 D2 D3 D4 D5 D6 D7 D8 D9 D10 D11]. rewrite D5, D6. change (-1 =? -1) with true. cbn iota. eexists _, _. split; [done|]. split_and!; [done|done|].
    split; [right|done]. exists l. split; [done|]. split; try done. split_and!; try done. by apply below_heap_map.
  - rewrite (fr_err _ _ _ _ _ Hpa). subst e. by eexists _, _.
Qed.

(** [redisReaderGetReply] is [parse]. *)
Lemma getReply_ok p0 m st r h : ready_rel p0 m st r h → got p0 m (parse st) (redisReaderGetReply r h).
Proof.
  intros Hrd. pose proof (ready_err _ _ _ _ _ Hrd) as He. destruct (decide (len r = 0)) as [Hl0|Hl0].
  - destruct (buffer_memory r _ (ready_buffer _ _ _ _ _ Hrd)) as (_ & _ & _ & _ & Hl & _).
    assert (Hnil : rest st = []).
    { destruct (ready_buffer _ _ _ _ _ Hrd) as (_ & _ & _ & _ & Hp & _). apply length_zero_iff_nil. lia. }
    rewrite parse_empty; [|destruct Hrd as [[[_ Hty]|(l & -> & _)] _]; [done|by left]|done].
    unfold redisReaderGetReply. rewrite He, Hl0. by exists r, h.
  - apply got_ok; [done|done|]. destruct Hrd as [[Hrel|(l & -> & Hid)] _].
    + pose proof (reader_rel_ridx _ _ _ _ _ Hrel). by destruct (Z.eqb_spec (ridx r) (-1)); [lia|].
    + rewrite (id_ridx _ _ _ _ _ Hid). by apply start_reply_ok.
Qed.

(** ** Feeding *)

Lemma ready_buffer_change p0 m st r h b p n l :
  ready_rel p0 m st r h → buffer_ok (set_buf b p n r) (rest st ++ l) → p < 1024 → ready_rel p0 m (feed l st) (set_buf b p n r) h.
Proof.
  intros [[[Hir Hty]|(l' & -> & Hid)] _] Hb Hp; (split; [|done]).
  - left. split; [|done]. destruct Hir. by split.
  - right. exists (l' ++ l). split; [done|]. destruct Hid. by split.
Qed.

Lemma feed_ok junk p0 m st r h data :
  ready_rel p0 m st r h → 1024 + Z.of_nat (length (rest st)) + Z.of_nat (length data) <= INT_MAX →
  ∃ r', redisReaderFeed junk true true (Some data) r h = Some (REDIS_OK, r', h) ∧ ready_rel p0 m (feed data st) r' h.
Proof.
  intros Hrd Hmax. unfold redisReaderFeed. rewrite (ready_err _ _ _ _ _ Hrd). cbn [negb Z.eqb].
  destruct data as [|c cs].
  { exists r. split; [done|]. assert (feed [] st = st) as -> by (destruct st; unfold feed; simpl; by rewrite app_nil_r). done. }
  set (data := c :: cs) in *. pose proof (ready_buffer _ _ _ _ _ Hrd) as Hb.
  destruct (buffer_memory r _ Hb) as (_ & _ & _ & _ & Hlen & _). pose proof (proj2 Hrd) as Hp.
  destruct Hb as (s & Hbuf & Hs & Hl & Hpos & Hm & Hrest). rewrite Hbuf.
  assert (Hfresh : ∃ s1 r1, (if (len r =? 0) && negb (maxbuf r =? 0) && (sdsavail s >? maxbuf r) then
      match sdsempty junk true with Some (Some s') => Some (s', set_buf (Some s') 0 (len r) r) | _ => None end else Some (s, r)) = Some (s1, r1) ∧
    sds_ok s1 ∧ content s1 = content s ∧ ∀ b n, set_buf b (pos r1) n r1 = set_buf b (pos r) n r).
  { case_if; [|by exists s, r]. bool_to_prop. destruct (sdsnewlen_ok junk [] 0) as (s1 & Hnew & Hok1 & Hc1 & _); [done|done|].
    unfold sdsempty. rewrite Hnew. eexists _, _. split; [done|]. split; [done|].
    pose proof (content_length s Hs). assert (pos r = 0) as Hp0 by lia. split.
    - rewrite Hc1. symmetry. apply length_zero_iff_nil. lia.
    - intros b n. by rewrite Hp0. }
  destruct Hfresh as (s1 & r1 & -> & Hok1 & Hc1 & Hr1).
  pose proof (content_length s Hs) as Hcl. pose proof (content_length s1 Hok1) as Hcl1. rewrite Hc1 in Hcl1. unfold INT_MAX in *.
  destruct (sdscatlen_ok junk s1 data Hok1) as (s2 & -> & Hok2 & Hc2); [lia|].
  eexists. split; [done|]. rewrite Hr1. apply ready_buffer_change; [done| |done].
  pose proof (content_length s2 Hok2) as Hcl2. rewrite Hc2, Hc1, length_app in Hcl2.
  exists s2. cbn [buf set_buf len pos]. unfold sdslen, INT_MAX. split_and!; try done; try lia.
  rewrite Hc2, Hc1, Hrest, drop_app_le by lia. done.
Qed.

(** A new reader. *)
Lemma create_reader_ok junk p0 m :
  below p0 m →
  ∃ r, redisReaderCreateWithFunctions junk true true (Some defaultFunctions) = Some (Some r) ∧
    ready_rel p0 m (pstart []) r (mk_heap m p0 []).
Proof.
  intros Hb. unfold redisReaderCreateWithFunctions. destruct (sdsnewlen_ok junk [] 0) as (s & Hs & Hok & Hc & _); [done|done|].
  unfold sdsempty. cbn [negb]. rewrite Hs. eexists. split; [done|]. split; [right|done]. exists []. split; [done|].
  rewrite take_nil in Hc. pose proof (content_length s Hok) as Hl. rewrite Hc in Hl. simpl in Hl.
  split; try done. exists s. cbn [buf len pos]. split_and!; try done.
Qed.

(** After an error the reader only repeats it. *)
Lemma failed_stays m e msg r h junk ok1 ok2 data :
  failed_rel m e msg r h → e ≠ 0 →
  redisReaderGetReply r h = Some (REDIS_ERR, None, r, h) ∧ redisReaderFeed junk ok1 ok2 data r h = Some (REDIS_ERR, r, h).
Proof.
  intros Hf He. unfold redisReaderGetReply, redisReaderFeed. rewrite (fr_err _ _ _ _ _ Hf). apply Z.eqb_neq in He. by rewrite He.
Qed.
