(* ===== verification/ReadProps.v ===== *)
(** * Properties of the reader of Redis replies

    A session is a list of calls of a reader: bytes that are fed to it and
    requests for a reply, in any order.  Everything a session returns is what the
    parser of Resp.v says; that replies come back whole and in order, however the
    bytes are cut, and that nothing of a reply that fails is left, follows. *)

From Stdlib Require Ascii String.
From stdpp Require Import strings.
From S2P Require Import Prelude Sds SdsProps Numbers Read Reply Resp ReplyTree ReadRefine ReadRun.
Local Open Scope Z_scope.

(** ** Reading a reply *)

(** The tree of the objects at an address, as a user of a reply walks it. *)
Fixpoint tree_at (fuel : nat) (m : gmap nat redisReply) (p : nat) : option tree :=
  match fuel with
  | O => None
  | S fuel' =>
    match m !! p with
    | None => None
    | Some r =>
      if r_type r =? REDIS_REPLY_INTEGER then Some (T_integer (integer r))
      else if r_type r =? REDIS_REPLY_NIL then Some T_nil
      else if r_type r =? REDIS_REPLY_ARRAY then
        T_array (Z.to_nat (r_elements r)) <$>
          foldr (λ q acc, match q with
                          | None => acc
                          | Some a => match tree_at fuel' m a, acc with Some t, Some l => Some (t :: l) | _, _ => None end
                          end) (Some []) (default [] (element r))
      else T_string (r_type r) <$> str r
    end
  end.

Definition read_right (m : gmap nat redisReply) (t : tree) : Prop :=
  ∀ fuel p, fits t → (tsize t < fuel)%nat → placed p (flat p t) m → tree_at fuel m p = Some t.

Definition read_step (fuel : nat) (m : gmap nat redisReply) : option nat → option (list tree) → option (list tree) :=
  λ q acc, match q with
           | None => acc
           | Some a => match tree_at fuel m a, acc with Some t, Some l => Some (t :: l) | _, _ => None end
           end.

Lemma read_elements m l : Forall (read_right m) l → ∀ fuel q, Forall fits l → (tsizes l < fuel)%nat →
  placed q (flats q l) m → ∀ k, foldr (read_step fuel m) (Some []) ((Some <$> addrs q l) ++ replicate k None) = Some l.
Proof.
  induction 1 as [|t l Ht _ IH]; intros fuel q Hfit Hf Hp k.
  - cbn. induction k as [|k IHk]; [done|]. exact IHk.
  - apply Forall_cons in Hfit as [Hft Hfl]. cbn [flats] in Hp.
    apply placed_app in Hp as [Hp1 Hp2]. rewrite flat_length in Hp2.
    assert (Hsz : tsizes (t :: l) = (tsize t + tsizes l)%nat) by done. rewrite Hsz in Hf.
    cbn [addrs]. rewrite fmap_cons. cbn [app foldr]. rewrite (IH fuel (q + tsize t)%nat) by (done || lia).
    unfold read_step at 1. by rewrite (Ht fuel q) by (done || lia).
Qed.

Lemma read_tree m t : read_right m t.
Proof.
  induction t as [type s|v| |n l IH] using tree_induction; intros fuel p Hfit Hf Hp;
    (destruct fuel as [|fuel]; [lia|]); cbn [tree_at]; pose proof (Hp O _ eq_refl) as Hp0; rewrite Nat.add_0_r in Hp0; rewrite Hp0.
  - inversion Hfit as [? ? Hst| | |]; subst. by destruct Hst as [-> |[-> | ->]].
  - done.
  - done.
  - apply fits_array_inv in Hfit as [Hlen Hfl].  rewrite tsize_array in Hf.
    cbn [array_object r_type r_elements element].
    change (REDIS_REPLY_ARRAY =? REDIS_REPLY_INTEGER) with false. change (REDIS_REPLY_ARRAY =? REDIS_REPLY_NIL) with false.
    change (REDIS_REPLY_ARRAY =? REDIS_REPLY_ARRAY) with true. cbn iota. rewrite Nat2Z.id.
    assert (Hps : placed (S p) (flats (S p) l) m).
    { intros i o Hi. replace (S p + i)%nat with (p + S i)%nat by lia. by apply Hp. }
    pose proof (read_elements m l IH fuel (S p) Hfl ltac:(lia) Hps) as Hr. unfold read_step in Hr.
    destruct (Nat.ltb_spec 0 n); cbn [default from_option]; unfold pad.
    + cbn [id]. by rewrite Hr.
    + assert (l = []) as -> by (apply length_zero_iff_nil; lia). done.
Qed.


Lemma tree_at_reply m p t : fits t → tree_at (S (tsize t)) (heap_map p (flat p t) m) p = Some t.
Proof.
  intros Hf. apply read_tree; [done|lia|]. intros i o Hi. rewrite heap_map_lookup; [done|]. by eapply lookup_lt_Some.
Qed.

Lemma heap_map_size p t m : (tsize t <= size (heap_map p (flat p t) m))%nat.
Proof.
  unfold heap_map. rewrite <- (flat_length t p), <- (map_seq_size (flat p t) p). apply map_subseteq_size, map_union_subseteq_l.
Qed.

(** ** Sessions *)

Inductive call := c_feed (data : list Z) | c_get.
Inductive answer := a_fed (code : Z) | a_got (code : Z) (reply : option tree).

Definition do_call (junk : Z) (c : call) (r : reader) (h : reply_heap) : option (answer * reader * reply_heap) :=
  match c with
  | c_feed data => match redisReaderFeed junk true true (Some data) r h with Some (e, r', h') => Some (a_fed e, r', h') | None => None end
  | c_get =>
    match redisReaderGetReply r h with
    | Some (e, None, r', h') => Some (a_got e None, r', h')
    | Some (e, Some p, r', h') => match tree_at (S (size (objs h'))) (objs h') p with Some t => Some (a_got e (Some t), r', h') | None => None end
    | None => None
    end
  end.

Fixpoint session (junk : Z) (cs : list call) (r : reader) (h : reply_heap) : option (list answer * reader * reply_heap) :=
  match cs with
  | [] => Some ([], r, h)
  | c :: cs' =>
    match do_call junk c r h with
    | Some (a, r', h') => match session junk cs' r' h' with Some (l, r2, h2) => Some (a :: l, r2, h2) | None => None end
    | None => None
    end
  end.

(** The session of the parser; [None] is the state after an error. *)
Definition spec_call (c : call) (st : option pstate) : answer * option pstate :=
  match st, c with
  | None, c_feed _ => (a_fed REDIS_ERR, None)
  | None, c_get => (a_got REDIS_ERR None, None)
  | Some st, c_feed data => (a_fed REDIS_OK, Some (feed data st))
  | Some st, c_get =>
    match parse st with
    | Some (R_more st') => (a_got REDIS_OK None, Some st')
    | Some (R_reply t l) => (a_got REDIS_OK (Some t), Some (pstart l))
    | _ => (a_got REDIS_ERR None, None)
    end
  end.

Fixpoint spec_session (cs : list call) (st : option pstate) : list answer * option pstate :=
  match cs with
  | [] => ([], st)
  | c :: cs' => let '(a, st') := spec_call c st in let '(l, st2) := spec_session cs' st' in (a :: l, st2)
  end.

Definition fed (c : call) : list Z := match c with c_feed data => data | c_get => [] end.
Definition got_tree (a : answer) : list tree := match a with a_got _ (Some t) => [t] | _ => [] end.

(** The replies [ts] one after the other in the heap, from [p] on. *)
Fixpoint stored (ts : list tree) (p : nat) (m : gmap nat redisReply) : nat * gmap nat redisReply :=
  match ts with [] => (p, m) | t :: ts' => stored ts' (p + tsize t) (heap_map p (flat p t) m) end.

Lemma stored_app ts1 ts2 p m : stored (ts1 ++ ts2) p m = stored ts2 (stored ts1 p m).1 (stored ts1 p m).2.
Proof. revert p m. induction ts1 as [|t ts1 IH]; intros p m; [done|]. cbn [app stored]. apply IH. Qed.

(** A reader in the state [st] of the specification. *)
Definition state_rel (p : nat) (m : gmap nat redisReply) (st : option pstate) (r : reader) (h : reply_heap) : Prop :=
  match st with
  | Some st => ready_rel p m st r h
  | None => ∃ msg, failed_rel m REDIS_ERR_PROTOCOL msg r h
  end.

Lemma parse_rest st :
  match parse st with
  | Some (R_more st') => (length (rest st') <= length (rest st))%nat
  | Some (R_reply _ l) => (length l < length (rest st))%nat
  | _ => True
  end.
Proof.
  assert (Ht : ∀ type fs l, match typed_step type fs l with
    | halt (R_more st') => (length (rest st') <= length l)%nat | halt (R_reply _ l') => (length l' < length l)%nat | _ => True end).
  { intros type fs l. unfold typed_step. pose proof (typed_item_shorter type (length fs) l) as Hi.
    destruct (typed_item type (length fs) l) as [| |t l'|n l']; [done|done| |done].
    unfold after. destruct (plug t fs); [done|]. lia. }
  induction st as [st IH] using step_induction. rewrite parse_step. destruct (step st) as [st1|res] eqn:Hs.
  - specialize (IH st1 eq_refl). pose proof (step_shorter _ _ Hs). destruct (parse st1) as [[]|]; lia || done.
  - unfold step in Hs. destruct (cur_type st <? 0).
    + destruct (rest st) as [|c l] eqn:Hr; [injection Hs as <-; by rewrite Hr|].
      destruct (reply_type c) as [type|]; [|by injection Hs as <-].
      specialize (Ht type (frames st) l). rewrite Hs in Ht. destruct res; simpl; lia || done.
    + specialize (Ht (cur_type st) (frames st) (rest st)). rewrite Hs in Ht. by destruct res.
Qed.

Definition left_of (st : option pstate) : nat := match st with Some st => length (rest st) | None => O end.

(** One call. *)
Lemma call_ok junk c p m st r h :
  state_rel p m st r h → 1024 + Z.of_nat (left_of st + length (fed c)) <= INT_MAX →
  let '(a, st') := spec_call c st in
  ∃ r' h', do_call junk c r h = Some (a, r', h') ∧
    state_rel (stored (got_tree a) p m).1 (stored (got_tree a) p m).2 st' r' h' ∧
    (left_of st' <= left_of st + length (fed c))%nat.
Proof.
  intros Hrel Hmax. destruct st as [st|]; cbn [spec_call state_rel left_of] in *.
  2:{ destruct Hrel as (msg & Hf). destruct (failed_stays m REDIS_ERR_PROTOCOL msg r h junk true true (Some (fed c)) Hf) as [Hg Hfd]; [done|].
      destruct c as [data|]; cbn [do_call fed] in *; [rewrite Hfd|rewrite Hg]; (eexists _, _; split; [done|]; split; [|simpl; lia]); by exists msg. }
  destruct c as [data|]; cbn [do_call fed] in *.
  - destruct (feed_ok junk p m st r h data Hrel) as (r' & -> & Hr'); [lia|]. exists r', h. split_and!; [done|done|].
    cbn [left_of feed rest]. rewrite length_app. lia.
  - pose proof (getReply_ok _ _ _ _ _ Hrel) as Hg. pose proof (parse_error st) as He. pose proof (parse_rest st) as Hl.
    destruct (parse st) as [[st'|t l|e msg]|]; cbn [got] in Hg; [| | |done].
    + destruct Hg as (r' & h' & -> & Hr'). exists r', h'. split_and!; [done|done|]. cbn [left_of]. lia.
    + destruct Hg as (r' & h' & -> & Ho & Hfit & Hr'). exists r', h'. split_and!.
      * rewrite Ho. pose proof (heap_map_size p t m). rewrite read_tree; [done|done|lia|].
        intros i o Hi. rewrite heap_map_lookup; [done|]. by eapply lookup_lt_Some.
      * done.
      * cbn [left_of pstart rest]. lia.
    + subst e. destruct Hg as (r' & h' & -> & Hr'). exists r', h'. split_and!; [done|by exists msg|simpl; lia].
Qed.

Lemma session_ok junk cs : ∀ p m st r h,
  state_rel p m st r h → 1024 + Z.of_nat (left_of st + length (concat (fed <$> cs))) <= INT_MAX →
  ∃ r' h', session junk cs r h = Some ((spec_session cs st).1, r', h') ∧
    let ts := concat (got_tree <$> (spec_session cs st).1) in
    state_rel (stored ts p m).1 (stored ts p m).2 (spec_session cs st).2 r' h'.
Proof.
  induction cs as [|c cs IH]; intros p m st r h Hrel Hmax; [by exists r, h|].
  rewrite fmap_cons in Hmax. cbn [concat] in Hmax. rewrite length_app in Hmax. cbn [session spec_session].
  pose proof (call_ok junk c p m st r h Hrel ltac:(lia)) as Hc. destruct (spec_call c st) as [a st1].
  destruct Hc as (r1 & h1 & -> & Hrel1 & Hl1). destruct (IH _ _ _ _ _ Hrel1 ltac:(lia)) as (r2 & h2 & -> & Hrel2).
  destruct (spec_session cs st1) as [l st2]. cbn [fst snd] in *. exists r2, h2. split; [done|].
  rewrite fmap_cons. cbn [concat]. by rewrite stored_app.
Qed.

Definition replies (l : list answer) : list tree := concat (got_tree <$> l).
Definition answer_code (a : answer) : Z := match a with a_fed e => e | a_got e _ => e end.
Definition stream (ts : list tree) : list Z := concat (encode <$> ts).

(** ** Replies come back in order *)

Lemma feed_feed l1 l2 st : feed l2 (feed l1 st) = feed (l1 ++ l2) st.
Proof. unfold feed. cbn. by rewrite app_assoc. Qed.

Lemma feed_nil st : feed [] st = st.
Proof. destruct st. unfold feed. cbn. by rewrite app_nil_r. Qed.

Lemma parse_stream ts : Forall (valid 0) ts →
  parse (pstart (stream ts)) = match ts with [] => Some (R_more (pstart [])) | t :: ts' => Some (R_reply t (stream ts')) end.
Proof. intros Hv. destruct ts as [|t ts]; [done|]. apply Forall_cons in Hv as [Hv _]. unfold stream. rewrite fmap_cons. cbn [concat]. by apply parse_reply. Qed.

(** What is left of the stream after some calls. *)
Lemma spec_replies cs : ∀ st ts,
  Forall (valid 0) ts → parse (feed (concat (fed <$> cs)) st) = parse (pstart (stream ts)) →
  ∃ st2 ts2, (spec_session cs (Some st)).2 = Some st2 ∧ ts = replies (spec_session cs (Some st)).1 ++ ts2 ∧
    parse st2 = parse (pstart (stream ts2)) ∧ Forall (λ a, answer_code a = REDIS_OK) (spec_session cs (Some st)).1.
Proof.
  induction cs as [|c cs IH]; intros st ts Hv Hp; [exists st, ts; rewrite feed_nil in Hp; by split_and!|].
  rewrite fmap_cons in Hp. cbn [concat] in Hp. set (y := concat (fed <$> cs)) in *.
  assert (Hcons : ∀ a st1 ts', spec_call c (Some st) = (a, Some st1) → answer_code a = REDIS_OK → ts = got_tree a ++ ts' →
    parse (feed y st1) = parse (pstart (stream ts')) →
    ∃ st2 ts2, (spec_session (c :: cs) (Some st)).2 = Some st2 ∧ ts = replies (spec_session (c :: cs) (Some st)).1 ++ ts2 ∧
      parse st2 = parse (pstart (stream ts2)) ∧ Forall (λ a, answer_code a = REDIS_OK) (spec_session (c :: cs) (Some st)).1).
  { intros a st1 ts' Hc Ha -> Hp1. cbn [spec_session]. rewrite Hc. apply Forall_app in Hv as [_ Hv].
    destruct (IH st1 ts' Hv Hp1) as (st2 & ts2 & H2 & Hts & Hp2 & Hall). destruct (spec_session cs (Some st1)) as [l st3].
    cbn [fst snd] in *. exists st2, ts2. unfold replies in *. rewrite fmap_cons. cbn [concat]. rewrite Hts, <- app_assoc. split_and!; try done.
    by constructor. }
  destruct c as [data|]; cbn [fed] in Hp.
  - apply (Hcons (a_fed REDIS_OK) (feed data st) ts); [done|done|done|]. by rewrite feed_feed.
  - cbn [app] in Hp. pose proof (parse_feed y st) as Hf. cbn [spec_call] in Hcons. destruct (parse st) as [[st'|t l|e msg]|]; [| | |done].
    + apply (Hcons (a_got REDIS_OK None) st' ts); [done|done|done|]. congruence.
    + rewrite Hf, parse_stream in Hp by done. destruct ts as [|t' ts']; [done|]. injection Hp as <- Hl.
      apply (Hcons (a_got REDIS_OK (Some t)) (pstart l) ts'); [done|done|done|]. by rewrite <- Hl.
    + rewrite Hf, parse_stream in Hp by done. by destruct ts.
Qed.

(** Asking for the rest. *)
Lemma spec_gets ts : ∀ k st, Forall (valid 0) ts → (length ts <= k)%nat → parse st = parse (pstart (stream ts)) →
  replies (spec_session (replicate k c_get) (Some st)).1 = ts ∧
  Forall (λ a, answer_code a = REDIS_OK) (spec_session (replicate k c_get) (Some st)).1.
Proof.
  intros k. revert ts. induction k as [|k IH]; intros ts st Hv Hk Hp.
  - destruct ts; [done|]. simpl in Hk. lia.
  - rewrite parse_stream in Hp by done. cbn [replicate spec_session spec_call]. pose proof (parse_feed [] st) as Hf. rewrite Hp in *.
    destruct ts as [|t ts].
    + specialize (IH [] (pstart []) Hv ltac:(simpl; lia) eq_refl). destruct (spec_session _ _) as [l st2]. cbn [fst] in *.
      destruct IH as [IH1 IH2]. split; [exact IH1|by constructor].
    + apply Forall_cons in Hv as [_ Hv]. simpl in Hk. specialize (IH ts (pstart (stream ts)) Hv ltac:(lia) eq_refl).
      destruct (spec_session _ _) as [l st2]. cbn [fst] in *. destruct IH as [IH1 IH2]. split; [|by constructor].
      unfold replies in *. rewrite fmap_cons. cbn [concat got_tree app]. by rewrite IH1.
Qed.

Lemma spec_session_app cs1 cs2 st :
  spec_session (cs1 ++ cs2) st =
    ((spec_session cs1 st).1 ++ (spec_session cs2 (spec_session cs1 st).2).1, (spec_session cs2 (spec_session cs1 st).2).2).
Proof.
  revert st. induction cs1 as [|c cs1 IH]; intros st; cbn [app spec_session fst snd]; [by destruct (spec_session cs2 st)|].
  destruct (spec_call c st) as [a st1]. rewrite IH. by destruct (spec_session cs1 st1).
Qed.

Lemma gets_feed_nothing k : concat (fed <$> replicate k c_get) = [].
Proof. induction k as [|k IH]; [done|]. exact IH. Qed.

(** ** Errors *)

Lemma spec_session_failed cs : spec_session cs None = ((λ c, (spec_call c None).1) <$> cs, None).
Proof. induction cs as [|c cs IH]; [done|]. cbn [spec_session]. destruct c; cbn [spec_call]; by rewrite IH. Qed.

Lemma spec_error cs st : Exists (λ a, answer_code a = REDIS_ERR) (spec_session cs st).1 → (spec_session cs st).2 = None.
Proof.
  revert st. induction cs as [|c cs IH]; intros st H; [by inversion H|]. destruct st as [st|]; [|by rewrite spec_session_failed].
  cbn [spec_session] in *. destruct (spec_call c (Some st)) as [a [st1|]] eqn:Hc.
  - specialize (IH (Some st1)). destruct (spec_session cs (Some st1)) as [l st2]. cbn [fst snd] in *. apply IH.
    apply Exists_cons in H as [H|H]; [|done]. destruct c; cbn [spec_call] in Hc; [by injection Hc as <- _|].
    destruct (parse st) as [[]|]; by injection Hc as <- ?.
  - by rewrite spec_session_failed.
Qed.

(** ** The properties *)

(** C21: a reader with the functions of hiredis does in every session what the
    parser does: no call accesses memory it must not, and every reply that is
    handed out is, read from the heap, the reply of the parser.  The bytes fed in
    the session are less than INT_MAX - 1024, and the allocations succeed. *)
Theorem reader_refines_parser junk cs p m :
  below p m → 1024 + Z.of_nat (length (concat (fed <$> cs))) <= INT_MAX →
  ∃ r0 r h, redisReaderCreateWithFunctions junk true true (Some defaultFunctions) = Some (Some r0) ∧
    session junk cs r0 (mk_heap m p []) = Some ((spec_session cs (Some (pstart []))).1, r, h).
Proof.
  intros Hb Hmax. destruct (create_reader_ok junk p m Hb) as (r0 & H0 & Hrd).
  destruct (session_ok junk cs p m (Some (pstart [])) r0 _ Hrd) as (r & h & Hs & _); [cbn [left_of pstart rest length]; lia|].
  by exists r0, r, h.
Qed.


(** C25: after the first call that fails nothing of the reply that was being read
    is left on the heap: there is what was there before and the replies handed
    out; and every later call fails too, without changing anything. *)
Theorem reader_error_is_final junk cs p m r0 answers r h :
  below p m → 1024 + Z.of_nat (length (concat (fed <$> cs))) <= INT_MAX →
  redisReaderCreateWithFunctions junk true true (Some defaultFunctions) = Some (Some r0) →
  session junk cs r0 (mk_heap m p []) = Some (answers, r, h) → Exists (λ a, answer_code a = REDIS_ERR) answers →
  objs h = (stored (replies answers) p m).2 ∧
  ∀ cs', session junk cs' r h = Some ((λ c, match c with c_feed _ => a_fed REDIS_ERR | c_get => a_got REDIS_ERR None end) <$> cs', r, h).
Proof.
  intros Hb Hmax Hr0 Hs He. destruct (create_reader_ok junk p m Hb) as (r0' & H0 & Hrd). rewrite Hr0 in H0. injection H0 as <-.
  destruct (session_ok junk cs p m (Some (pstart [])) r0 _ Hrd) as (r' & h' & Hs' & Hrel); [cbn [left_of pstart rest length]; lia|].
  rewrite Hs in Hs'. injection Hs' as -> <- <-. rewrite (spec_error _ _ He) in Hrel. destruct Hrel as (msg & Hf).
  split; [apply Hf|]. induction cs' as [|c cs' IH]; [done|]. cbn [session do_call].
  destruct (failed_stays _ _ _ _ _ junk true true (Some (fed c)) Hf) as [Hg Hfd]; [done|].
  destruct c as [data|]; cbn [do_call fed] in *; [rewrite Hfd|rewrite Hg]; by rewrite IH.
Qed.

(** ** At concrete inputs *)

Definition example_replies : list tree :=
  [T_array 3 [T_string REDIS_REPLY_STRING [97; char_CR; char_LF]; T_integer (-7); T_array 0 []]; T_string REDIS_REPLY_STATUS (chars "OK"); T_nil].

(** The bytes of a stream in pieces of three. *)
Fixpoint pieces (fuel : nat) (l : list Z) : list call :=
  match fuel, l with
  | S fuel', _ :: _ => c_feed (take 3 l) :: c_get :: pieces fuel' (drop 3 l)
  | _, _ => []
  end.
Definition example_session : list call := pieces 40 (stream example_replies).

Lemma reader_refines_parser_witness :
  ∃ r0 r h, redisReaderCreateWithFunctions 170 true true (Some defaultFunctions) = Some (Some r0) ∧
    session 170 (c_feed (chars "*1") :: c_get :: [c_feed (chars "x"); c_get]) r0 (mk_heap ∅ 0 []) =
      Some ([a_fed 0; a_got 0 None; a_fed 0; a_got 0 None], r, h).
Proof.
  destruct (reader_refines_parser 170 (c_feed (chars "*1") :: c_get :: [c_feed (chars "x"); c_get]) 0 ∅) as (r0 & r & h & H0 & Hs);
    [intros a [o Ho]; by rewrite lookup_empty in Ho|by vm_compute|]. by exists r0, r, h.
Defined.

Lemma example_replies_valid : Forall (valid 0) example_replies.
Proof.
  assert (Hi : in_int64 (-7)) by (unfold in_int64, int64_max; lia).
  assert (Hok : one_line (chars "OK")) by (apply one_line_forall; repeat constructor; done).
  cbn. repeat (split || constructor); try done; by right.
Qed.


(** An integer inside of an array that is none. *)
Definition example_error : list call := [c_feed (chars "*2" ++ CRLF ++ chars "+A" ++ CRLF ++ chars ":x" ++ CRLF); c_get].

Lemma reader_error_is_final_witness :
  ∃ r0 r h, redisReaderCreateWithFunctions 170 true true (Some defaultFunctions) = Some (Some r0) ∧
    session 170 example_error r0 (mk_heap ∅ 0 []) = Some ([a_fed 0; a_got (-1) None], r, h) ∧ objs h = ∅ ∧
    session 170 [c_get] r h = Some ([a_got (-1) None], r, h).
Proof.
  assert (Hb : below 0 ∅) by (intros a [o Ho]; by rewrite lookup_empty in Ho).
  destruct (create_reader_ok 170 0 ∅ Hb) as (r0 & H0 & Hrd).
  destruct (session_ok 170 example_error 0 ∅ (Some (pstart [])) r0 _ Hrd) as (r & h & Hs & _); [by vm_compute|].
  destruct (reader_error_is_final 170 example_error 0 ∅ r0 _ r h Hb ltac:(by vm_compute) H0 Hs) as [Ho Hf].
  { apply Exists_cons_tl, Exists_cons_hd. by vm_compute. }
  exists r0, r, h. split_and!; [done|exact Hs| |exact (Hf [c_get])]. rewrite Ho. by vm_compute.
Defined.
