(* ===== verification/Command.v ===== *)
(** * vendors/hiredis/hiredis.c: commands on the wire

    Two functions lay a command out: one in a block of memory whose size it has
    computed (Reply.v), one in a dynamic string.  Both compute the size before
    they write and assert that they were right.  They are proved to write the
    encoding of Resp.v of an array of bulk strings, so that a server that reads
    with the same parser gets the arguments back. *)

From Stdlib Require Ascii String.
From stdpp Require Import strings.
From S2P Require Import Prelude Sds SdsProps Numbers SdsFmt Read Reply Resp.
Local Open Scope Z_scope.

(** [totlen += bulklen(len)], in an [unsigned long long]. *)
Fixpoint total_size (argv : list (list Z)) (totlen : Z) : option Z :=
  match argv with
  | [] => Some totlen
  | a :: r => match bulklen (Z.of_nat (length a)) with Some n => total_size r (to_size_t (totlen + n)) | None => None end
  end.

(** The formats, with their terminating zeros. *)
Definition array_format : list Z := chars "*%i" ++ [char_CR; char_LF; 0].
Definition bulk_format : list Z := chars "$%u" ++ [char_CR; char_LF; 0].

Fixpoint format_sds_loop (junk : Z) (ok : bool) (argv : list (list Z)) (cmd : sds) : option sds :=
  match argv with
  | [] => Some cmd
  | a :: r =>
    match sdscatfmt junk ok cmd bulk_format [A_word (Z.of_nat (length a))] with
    | None => None
    | Some c1 =>
      match not_null (sdscatlen junk ok c1 a) with
      | None => None
      | Some c2 =>
        match not_null (sdscatlen junk ok c2 [char_CR; char_LF]) with Some c3 => format_sds_loop junk ok r c3 | None => None end
      end
    end
  end.

(** [int redisFormatSdsCommandArgv(sds *target, int argc, const char **argv, const size_t *argvlen)];
    the two checked allocations are [ok1] and [ok2], those that are not checked
    [ok3]. *)
Definition redisFormatSdsCommandArgv (junk : Z) (ok1 ok2 ok3 : bool) (argv : list (list Z)) : option (Z * option sds) :=
  let argc := Z.of_nat (length argv) in
  match countDigits argc with
  | None => None
  | Some n =>
    match total_size argv (1 + n + 2), sdsempty junk ok1 with
    | Some _, Some None => Some (-1, None)
    | Some totlen, Some (Some cmd) =>
      match sdsMakeRoomFor junk ok2 cmd totlen with
      | None => None
      | Some None => Some (-1, None)
      | Some (Some cmd) =>
        match sdscatfmt junk ok3 cmd array_format [A_word argc] with
        | None => None
        | Some cmd =>
          match format_sds_loop junk ok3 argv cmd with
          | None => None
          | Some cmd => if sdslen cmd =? totlen then Some (to_int totlen, Some cmd) else None
          end
        end
      end
    | _, _ => None
    end
  end.

(** ** The encoding of a command *)

Definition bulk (a : list Z) : list Z := [36] ++ decimal_of (Z.of_nat (length a)) ++ CRLF ++ a ++ CRLF.
Definition header (argv : list (list Z)) : list Z := [42] ++ decimal_of (Z.of_nat (length argv)) ++ CRLF.
Definition command (argv : list (list Z)) : tree := T_array (length argv) (T_string REDIS_REPLY_STRING <$> argv).

Lemma encode_command argv : encode (command argv) = header argv ++ concat (bulk <$> argv).
Proof.
  unfold command, header. cbn [encode]. rewrite <- !app_assoc. do 3 f_equal. rewrite <- list_fmap_compose. done.
Qed.

(** ** Sizes *)

Lemma decimal_length v : 0 <= v < 2 ^ 63 → countDigits v = Some (Z.of_nat (length (decimal_of v))) ∧ (length (decimal_of v) <= 20)%nat.
Proof.
  intros Hv. destruct (sdsll2str_spec v) as (l & Hl & Hd & Hle); [unfold in_int64, int64_max; lia|].
  unfold decimal_of. rewrite Hl. destruct (Z.ltb_spec v 0); [lia|]. cbn [default from_option id]. rewrite length_rev. split; [|done].
  apply countDigits_spec; [lia|]. by rewrite Z.abs_eq in Hd by lia.
Qed.

Lemma bulklen_ok a : Z.of_nat (length (bulk a)) < 2 ^ 62 → bulklen (Z.of_nat (length a)) = Some (Z.of_nat (length (bulk a))).
Proof.
  intros Hb. unfold bulk in *. rewrite !length_app in *. unfold bulklen. destruct (decimal_length (Z.of_nat (length a))) as [-> Hle]; [simpl in Hb; lia|].
  simpl in *. f_equal. rewrite to_size_t_id by lia. lia.
Qed.

Lemma header_length argv : Z.of_nat (length argv) < 2 ^ 63 →
  ∃ n, countDigits (Z.of_nat (length argv)) = Some n ∧ 1 + n + 2 = Z.of_nat (length (header argv)).
Proof.
  intros Ha. destruct (decimal_length (Z.of_nat (length argv))) as [Hc _]; [lia|]. eexists. split; [exact Hc|].
  unfold header. rewrite !length_app. simpl. lia.
Qed.

Lemma bulks_cons a argv : concat (bulk <$> a :: argv) = bulk a ++ concat (bulk <$> argv).
Proof. done. Qed.

Lemma total_ok argv : ∀ t, 0 <= t → t + Z.of_nat (length (concat (bulk <$> argv))) <= INT_MAX →
  total_length argv t = Some (t + Z.of_nat (length (concat (bulk <$> argv)))) ∧
  total_size argv t = Some (t + Z.of_nat (length (concat (bulk <$> argv)))).
Proof.
  unfold INT_MAX. induction argv as [|a argv IH]; intros t Ht Hm; [simpl; by rewrite Z.add_0_r|].
  rewrite bulks_cons, length_app in *. cbn [total_length total_size]. rewrite bulklen_ok by lia.
  rewrite to_size_t_id, to_int_id by (unfold in_int, INT_MIN, INT_MAX; lia). destruct (IH (t + Z.of_nat (length (bulk a)))) as [-> ->]; [lia|lia|].
  split; f_equal; lia.
Qed.

Lemma bulk_pos a : (0 < length (bulk a))%nat.
Proof. unfold bulk. rewrite length_app. simpl. lia. Qed.

(** A command has at least as many bytes as arguments. *)
Lemma bulks_length argv : (length argv <= length (concat (bulk <$> argv)))%nat.
Proof. induction argv as [|a argv IH]; [done|]. rewrite bulks_cons, length_app. pose proof (bulk_pos a). cbn [length]. lia. Qed.

(** ** Into a block of memory *)

(** The first bytes of a block are [out]. *)
Definition begins (out cmd : list Z) (n : Z) : Prop := Z.of_nat (length cmd) = n ∧ take (length out) cmd = out ∧ Z.of_nat (length out) <= n.

Lemma begins_write out cmd n bs : begins out cmd n → Z.of_nat (length out) + Z.of_nat (length bs) <= n →
  ∃ cmd', write_at (Z.of_nat (length out)) bs cmd = Some cmd' ∧ begins (out ++ bs) cmd' n.
Proof.
  intros (Hl & Ht & Hn) Hb. rewrite write_at_Some by lia. eexists. split; [done|]. rewrite Nat2Z.id, Ht. split_and!.
  - rewrite !length_app, length_drop. lia.
  - rewrite app_assoc, take_app_le by lia. by apply take_ge.
  - rewrite length_app. lia.
Qed.

Lemma begins_less out x cmd n : begins (out ++ x) cmd n → begins out cmd n.
Proof.
  intros (Hl & Ht & Hn). rewrite length_app in *. split_and!; [done| |lia].
  transitivity (take (length out) (take (length out + length x) cmd)).
  - rewrite take_take. f_equal. lia.
  - by rewrite Ht, take_app_length.
Qed.

Lemma begins_print out cmd n s : begins out cmd n → Z.of_nat (length out) + Z.of_nat (length s) + 1 <= n → n <= INT_MAX + 1 →
  ∃ cmd', print_at (Z.of_nat (length out)) s cmd = Some (cmd', Z.of_nat (length (out ++ s))) ∧ begins (out ++ s) cmd' n.
Proof.
  intros Hb Hn Hm. unfold print_at. destruct (begins_write out cmd n (s ++ [0]) Hb) as (cmd' & -> & Hb'); [rewrite length_app; simpl; lia|].
  exists cmd'. rewrite to_int_id by (unfold in_int, INT_MIN, INT_MAX in *; lia). rewrite length_app, Nat2Z.inj_add. split; [done|].
  apply (begins_less _ [0]). by rewrite <- app_assoc.
Qed.

Lemma format_loop_ok argv : ∀ out cmd n, begins out cmd n → n <= INT_MAX + 1 →
  Z.of_nat (length out) + Z.of_nat (length (concat (bulk <$> argv))) + 1 <= n →
  ∃ cmd', format_loop argv cmd (Z.of_nat (length out)) = Some (cmd', Z.of_nat (length (out ++ concat (bulk <$> argv)))) ∧
    begins (out ++ concat (bulk <$> argv)) cmd' n.
Proof.
  induction argv as [|a argv IH]; intros out cmd n Hb Hm Hn; [exists cmd; cbn; by rewrite app_nil_r|].
  rewrite bulks_cons in *. rewrite length_app in Hn. cbn [format_loop]. set (head := [36] ++ decimal (Z.of_nat (length a)) ++ [char_CR; char_LF]).
  assert (Hbulk : bulk a = head ++ a ++ CRLF) by (unfold bulk, head, decimal, decimal_of; by rewrite <- !app_assoc).
  assert (Hlen : (length (bulk a) = length head + length a + 2)%nat) by (rewrite Hbulk, !length_app; simpl; lia).
  clearbody head. destruct (begins_print out cmd n head Hb) as (c1 & -> & H1); [lia|done|].
  destruct (begins_write _ _ _ a H1) as (c2 & -> & H2); [rewrite length_app; lia|].
  rewrite to_int_id by (rewrite length_app; unfold in_int, INT_MIN, INT_MAX in *; lia).
  replace (Z.of_nat (length (out ++ head)) + Z.of_nat (length a)) with (Z.of_nat (length ((out ++ head) ++ a))) by (rewrite !length_app; lia).
  destruct (begins_write _ _ _ [char_CR; char_LF] H2) as (c3 & -> & H3); [rewrite !length_app; simpl; lia|].
  rewrite to_int_id by (rewrite !length_app; unfold in_int, INT_MIN, INT_MAX in *; lia).
  replace (Z.of_nat (length ((out ++ head) ++ a)) + 2) with (Z.of_nat (length (out ++ bulk a))) by (rewrite Hbulk, !length_app; simpl; lia).
  replace (((out ++ head) ++ a) ++ [char_CR; char_LF]) with (out ++ bulk a) in H3 by (rewrite Hbulk; by rewrite <- !app_assoc).
  destruct (IH (out ++ bulk a) c3 n H3 Hm) as (c4 & Hc4 & H4); [rewrite length_app; lia|].
  exists c4. rewrite app_assoc. done.
Qed.

Lemma lay_out_ok junk argv : Z.of_nat (length (encode (command argv))) < INT_MAX →
  lay_out junk true argv (Z.of_nat (length (encode (command argv)))) =
    Some (Z.of_nat (length (encode (command argv))), Some (encode (command argv) ++ [0])).
Proof.
  intros Hm. rewrite encode_command in *. rewrite length_app in Hm. unfold lay_out. cbn [negb].
  set (tot := Z.of_nat (length (header argv ++ concat (bulk <$> argv)))).
  assert (Hge : Z.of_nat (length (header argv)) <= tot < INT_MAX) by (unfold tot; rewrite length_app; lia).
  rewrite to_int_id, to_size_t_id by (unfold in_int, INT_MIN, INT_MAX in *; lia).
  assert (Hb : begins [] (malloc junk (tot + 1)) (tot + 1)).
  { split_and!; [unfold malloc; rewrite length_replicate; lia|done|simpl; lia]. }
  change 0 with (Z.of_nat (length (A := Z) [])) at 1.
  destruct (begins_print [] _ _ (header argv) Hb) as (c1 & Hc1 & H1); [cbn [length]; lia|unfold INT_MAX in *; lia|].
  change ([42] ++ decimal (Z.of_nat (length argv)) ++ [char_CR; char_LF]) with (header argv). rewrite Hc1.
  destruct (format_loop_ok argv _ c1 _ H1) as (c2 & -> & H2); [unfold INT_MAX in *; lia|cbn [app]; unfold tot; rewrite length_app; lia|].
  cbn [app] in *. fold tot. rewrite Z.eqb_refl. cbn [negb]. unfold tot.
  destruct (begins_write _ _ _ [0] H2) as (c3 & -> & (Hl3 & Ht3 & _)); [cbn [length]; unfold tot; lia|].
  do 3 f_equal. rewrite <- Ht3. symmetry. apply take_ge. rewrite length_app. cbn [length]. unfold tot in *. lia.
Qed.

Lemma format_argv_ok junk argv : Z.of_nat (length (encode (command argv))) < INT_MAX →
  redisFormatCommandArgv junk true argv = Some (Z.of_nat (length (encode (command argv))), Some (encode (command argv) ++ [0])).
Proof.
  intros Hm. pose proof (lay_out_ok junk argv Hm) as Hlay. rewrite encode_command in *. rewrite length_app in Hm, Hlay. unfold redisFormatCommandArgv.
  pose proof (bulks_length argv). destruct (header_length argv) as (n & -> & Hn); [unfold INT_MAX in *; lia|]. rewrite Hn.
  destruct (total_ok argv (Z.of_nat (length (header argv)))) as [-> _]; [lia|lia|]. rewrite <- Nat2Z.inj_add, Hlay. by rewrite length_app.
Qed.

(** ** Into a dynamic string *)

Lemma unsigned_decimal v : 0 <= v < 2 ^ 32 → sdsull2str (to_uint v) = Some (decimal_of v).
Proof.
  intros Hv. rewrite to_uint_id by lia. destruct (sdsll2str_spec v) as (l & Hl & _); [unfold in_int64, int64_max; lia|].
  unfold decimal_of. rewrite Hl. unfold sdsll2str in Hl. unfold sdsull2str. by destruct (Z.ltb_spec v 0); [lia|].
Qed.

Lemma signed_decimal v : 0 <= v <= INT_MAX → sdsll2str (to_int v) = Some (decimal_of v).
Proof.
  unfold INT_MAX. intros Hv. rewrite to_int_id by (unfold in_int, INT_MIN, INT_MAX; lia).
  destruct (sdsll2str_spec v) as (l & Hl & _); [unfold in_int64, int64_max; lia|]. unfold decimal_of. by rewrite Hl.
Qed.

Lemma expand_bulk (a : list Z) : Z.of_nat (length a) < 2 ^ 32 →
  expand bulk_format [A_word (Z.of_nat (length a))] = Some ([36] ++ decimal_of (Z.of_nat (length a)) ++ CRLF).
Proof.
  intros Ha. cbn -[conversion]. unfold conversion. cbn -[to_uint sdsull2str]. by rewrite unsigned_decimal by lia.
Qed.

Lemma expand_header (argv : list (list Z)) : Z.of_nat (length argv) <= INT_MAX → expand array_format [A_word (Z.of_nat (length argv))] = Some (header argv).
Proof.
  intros Ha. cbn -[conversion]. unfold conversion. cbn -[to_int sdsll2str]. by rewrite signed_decimal by lia.
Qed.

Lemma catlen_content junk s bs :
  sds_ok s → Z.of_nat (length (content s ++ bs)) <= INT_MAX →
  ∃ s', not_null (sdscatlen junk true s bs) = Some s' ∧ sds_ok s' ∧ content s' = content s ++ bs.
Proof.
  intros Hs Hm. rewrite length_app in Hm. pose proof (content_length s Hs). unfold INT_MAX in *.
  destruct (sdscatlen_ok junk s bs Hs) as (s' & -> & Hs'); [lia|]. by exists s'.
Qed.

Lemma catfmt_content junk s fmt args bs :
  sds_ok s → expand fmt args = Some bs → Z.of_nat (length (content s ++ bs)) <= INT_MAX →
  ∃ s', sdscatfmt junk true s fmt args = Some s' ∧ sds_ok s' ∧ content s' = content s ++ bs.
Proof.
  intros Hs He Hm. rewrite length_app in Hm. pose proof (content_length s Hs). apply sdscatfmt_ok; [done|done|lia].
Qed.

Lemma format_sds_loop_ok junk argv : ∀ s, sds_ok s → Z.of_nat (length (content s ++ concat (bulk <$> argv))) <= INT_MAX →
  ∃ s', format_sds_loop junk true argv s = Some s' ∧ sds_ok s' ∧ content s' = content s ++ concat (bulk <$> argv).
Proof.
  induction argv as [|a argv IH]; intros s Hs Hm; [exists s; cbn; by rewrite app_nil_r|].
  rewrite bulks_cons in *. cbn [format_sds_loop]. set (head := [36] ++ decimal_of (Z.of_nat (length a)) ++ CRLF).
  assert (Hbulk : bulk a = head ++ a ++ CRLF) by (unfold bulk, head; by rewrite <- !app_assoc).
  assert (Hlen : (length (bulk a) = length head + length a + 2)%nat) by (rewrite Hbulk, !length_app; cbn [length CRLF]; lia).
  rewrite !length_app in Hm. pose proof (expand_bulk a) as He. fold head in He. clearbody head. unfold INT_MAX in *.
  destruct (catfmt_content junk s bulk_format [A_word (Z.of_nat (length a))] head Hs) as (s1 & -> & H1 & Hc1);
    [apply He; lia|rewrite length_app; unfold INT_MAX; lia|].
  destruct (catlen_content junk s1 a H1) as (s2 & -> & H2 & Hc2); [rewrite Hc1, !length_app; unfold INT_MAX; lia|].
  destruct (catlen_content junk s2 [char_CR; char_LF] H2) as (s3 & -> & H3 & Hc3);
    [rewrite Hc2, Hc1, !length_app; unfold INT_MAX; cbn [length]; lia|].
  assert (Hc : content s3 = content s ++ bulk a) by (rewrite Hc3, Hc2, Hc1, Hbulk, <- !app_assoc; done).
  destruct (IH s3 H3) as (s4 & Hs4 & H4 & Hc4); [rewrite Hc, !length_app; lia|]. exists s4. split_and!; [done|done|].
  by rewrite Hc4, Hc, <- app_assoc.
Qed.

Lemma format_sds_ok junk argv : Z.of_nat (length (encode (command argv))) < INT_MAX →
  ∃ s, redisFormatSdsCommandArgv junk true true true argv = Some (Z.of_nat (length (encode (command argv))), Some s) ∧
    sds_ok s ∧ content s = encode (command argv).
Proof.
  intros Hm. rewrite encode_command in *. rewrite length_app in Hm. unfold redisFormatSdsCommandArgv. pose proof (bulks_length argv).
  destruct (header_length argv) as (n & -> & Hn); [unfold INT_MAX in *; lia|]. rewrite Hn.
  destruct (total_ok argv (Z.of_nat (length (header argv)))) as [_ ->]; [lia|lia|].
  set (tot := Z.of_nat (length (header argv)) + _). assert (Htot : tot = Z.of_nat (length (header argv ++ concat (bulk <$> argv)))) by (rewrite length_app; lia).
  assert (Hge : Z.of_nat (length (header argv)) <= tot < INT_MAX) by (unfold tot; lia). unfold INT_MAX in Hge.
  destruct (sdsnewlen_ok junk [] 0) as (s0 & H0 & Hs0 & Hc0 & _); [done|done|]. unfold sdsempty. rewrite H0. rewrite take_nil in Hc0.
  pose proof (content_length s0 Hs0) as Hl0. rewrite Hc0 in Hl0. cbn [length] in Hl0.
  destruct (sdsMakeRoomFor_ok junk s0 tot Hs0) as (s1 & -> & Hs1 & Hc1 & _); [lia|lia|]. rewrite Hc0 in Hc1.
  destruct (catfmt_content junk s1 array_format [A_word (Z.of_nat (length argv))] (header argv) Hs1) as (s2 & -> & Hs2 & Hc2);
    [apply expand_header; unfold INT_MAX in *; lia|rewrite Hc1; cbn [app]; unfold INT_MAX; lia|]. rewrite Hc1 in Hc2. cbn [app] in Hc2.
  destruct (format_sds_loop_ok junk argv s2 Hs2) as (s3 & -> & Hs3 & Hc3); [rewrite Hc2, <- Htot; unfold INT_MAX; lia|]. rewrite Hc2 in Hc3.
  pose proof (content_length s3 Hs3) as Hl3. rewrite Hc3, <- Htot in Hl3. unfold sdslen. rewrite <- Hl3, Z.eqb_refl.
  exists s3. rewrite to_int_id by (unfold in_int, INT_MIN, INT_MAX; lia). by rewrite Htot.
Qed.

(** ** The properties *)

Lemma command_valid argv : Z.of_nat (length (encode (command argv))) < INT_MAX → valid 0 (command argv).
Proof.
  intros Hm. rewrite encode_command, length_app in Hm. pose proof (bulks_length argv). unfold INT_MAX in *.
  apply valid_array. split_and!; [by rewrite length_fmap|unfold INT_MAX; lia|lia|]. apply Forall_fmap, Forall_forall. intros a Ha. left. split; [done|].
  apply list_elem_of_In, in_split in Ha as (l1 & l2 & ->). rewrite fmap_app, concat_app, length_app, fmap_cons in Hm. cbn [concat] in Hm.
  rewrite length_app in Hm. assert (length a <= length (bulk a))%nat by (unfold bulk; rewrite !length_app; lia). lia.
Qed.

(** C26: both ways to lay a command out write the encoding of an array of bulk
    strings, in exactly the size they have computed before, with a zero behind
    it; no write leaves the block and no assertion fails. *)
Theorem commands_are_encoded junk argv :
  Z.of_nat (length (encode (command argv))) < INT_MAX →
  redisFormatCommandArgv junk true argv = Some (Z.of_nat (length (encode (command argv))), Some (encode (command argv) ++ [0])) ∧
  ∃ s, redisFormatSdsCommandArgv junk true true true argv = Some (Z.of_nat (length (encode (command argv))), Some s) ∧
    sds_ok s ∧ content s = encode (command argv).
Proof. intros Hm. split; [by apply format_argv_ok|by apply format_sds_ok]. Qed.

(** A command read back by the parser gives the arguments, with any bytes in
    them, whatever follows it. *)
Theorem command_roundtrip junk argv tail :
  Z.of_nat (length (encode (command argv))) < INT_MAX →
  ∃ n cmd, redisFormatCommandArgv junk true argv = Some (n, Some cmd) ∧
    parse (pstart (take (Z.to_nat n) cmd ++ tail)) = Some (R_reply (T_array (length argv) (T_string REDIS_REPLY_STRING <$> argv)) tail).
Proof.
  intros Hm. eexists _, _. split; [by apply format_argv_ok|]. rewrite Nat2Z.id, take_app_length.
  apply parse_reply. by apply command_valid.
Qed.

(** The size of an argument is printed from its lower 32 bits: with an
    argument of 4 GiB or more [sdscatfmt] is given a text that is not the
    encoding. *)
Lemma sds_command_truncates_sizes (a : list Z) :
  Z.of_nat (length a) = 2 ^ 32 →
  expand bulk_format [A_word (Z.of_nat (length a))] = Some ([36; 48] ++ CRLF) ∧
  bulklen (Z.of_nat (length a)) = Some (2 ^ 32 + 15).
Proof. intros ->. by vm_compute. Qed.

Definition example_argv : list (list Z) := [chars "SET"; [0; char_CR; char_LF]; []].

Lemma commands_are_encoded_witness :
  redisFormatCommandArgv 170 true example_argv = Some (28, Some (encode (command example_argv) ++ [0])).
Proof.
  destruct (commands_are_encoded 170 example_argv) as [H _]; [by vm_compute|]. rewrite H. by vm_compute.
Defined.

Lemma command_roundtrip_witness :
  ∃ n cmd, redisFormatCommandArgv 170 true example_argv = Some (n, Some cmd) ∧
    parse (pstart (take (Z.to_nat n) cmd ++ [43])) = Some (R_reply (command example_argv) [43]).
Proof. apply (command_roundtrip 170 example_argv [43]). by vm_compute. Defined.
