(* ===== verification/FormatCommand.v ===== *)
(** * vendors/hiredis/hiredis.c: commands from a format

    [redisvFormatCommand] splits a format at its blanks into arguments and
    interpolates strings, bytes and printf conversions.  [c] is the memory of the
    format from [*c] on; an access behind it is [None], like a [va_arg] of the
    wrong type.  [printf f args] is what vsnprintf prints for the format [f]
    with the arguments that are left. *)

From Stdlib Require Ascii String.
From stdpp Require Import strings.
From S2P Require Import Prelude Sds SdsProps Numbers SdsFmt SdsText SdsTextProps Read Reply Resp Command.
Local Open Scope Z_scope.

(** The variable arguments. *)
Inductive vararg := V_chars (mem : list Z) | V_size (n : Z) | V_int (n : Z) | V_long (n : Z) | V_llong (n : Z) | V_double (bits : Z).

(** The type a conversion takes. *)
Inductive kind := K_int | K_long | K_llong | K_double.

Definition intfmts : list Z := chars "diouxX".
Definition doublefmts : list Z := chars "eEfFgGaA".
Definition flags : list Z := chars "#0-+ ".

(** Over the bytes that are of the kind [f], up to a zero. *)
Fixpoint skip (f : Z → bool) (p : list Z) : option (list Z) :=
  match p with
  | [] => None
  | c :: r => if negb (c =? 0) && f c then skip f r else Some p
  end.

Definition isdigit (c : Z) : bool := (48 <=? c) && (c <=? 57).

(** After a size: [p] has to begin with an integer conversion. *)
Definition sized (k : kind) (p : list Z) : option (option (kind * list Z)) :=
  match p with
  | [] => None
  | c :: _ => Some (if negb (c =? 0) && strchr intfmts c then Some (k, p) else None)
  end.

(** The conversion, and its size. *)
Definition scan_size (p : list Z) : option (option (kind * list Z)) :=
  match p with
  | [] => None
  | c :: r =>
    if strchr intfmts c then Some (Some (K_int, p))
    else if strchr doublefmts c then Some (Some (K_double, p))
    else if c =? 104 (* 'h' *) then
      match r with
      | [] => None
      | c2 :: r2 => if c2 =? 104 then sized K_int r2 else sized K_int r
      end
    else if c =? 108 (* 'l' *) then
      match r with
      | [] => None
      | c2 :: r2 => if c2 =? 108 then sized K_llong r2 else sized K_long r
      end
    else Some None
  end.

(** The printf format behind a percent sign: the type of its argument and
    [_p], or the label [fmt_invalid]. *)
Definition scan_format (p : list Z) : option (option (kind * list Z)) :=
  match skip (strchr flags) p with
  | None => None
  | Some p1 =>
    match skip isdigit p1 with
    | None => None
    | Some p2 =>
      match p2 with
      | [] => None
      | c :: r => if c =? 46 then match skip isdigit r with Some p3 => scan_size p3 | None => None end else scan_size p2
      end
    end
  end.

(** [va_arg(ap, type)] *)
Definition va_arg (k : kind) (ap : list vararg) : option (list vararg) :=
  match k, ap with
  | K_int, V_int _ :: r | K_long, V_long _ :: r | K_llong, V_llong _ :: r | K_double, V_double _ :: r => Some r
  | _, _ => None
  end.

Record fmt_state := mk_fmt { curarg : sds; touched : bool; curargv : list sds; f_totlen : Z }.

(** Going on, or one of the labels [memory_err] and [format_err]. *)
Inductive outcome (A : Type) := goes (a : A) | memory_err | format_err.
Arguments goes {A} a.
Arguments memory_err {A}.
Arguments format_err {A}.

(** Which allocations succeed: those of text, by the bytes of the format that
    are left, those of the array of arguments and of a new argument, by the
    arguments there are, and that of the command. *)
Record allocs := mk_allocs { ok_text : nat → bool; ok_list : nat → bool; ok_new : nat → bool; ok_cmd : bool }.

Section format.
Context (junk : Z) (al : allocs) (printf : list Z → list vararg → list Z).

(** The current argument is put into the array. *)
Definition add_arg (st : fmt_state) : option (outcome fmt_state) :=
  if negb (ok_list al (length (curargv st))) then Some memory_err
  else
    match bulklen (sdslen (curarg st)) with
    | None => None
    | Some n => Some (goes (mk_fmt (curarg st) (touched st) (curargv st ++ [curarg st]) (to_int (to_size_t (f_totlen st + n)))))
    end.

(** [if (newarg == NULL) goto memory_err; curarg = newarg; touched = 1;] *)
Definition touch (newarg : option (option sds)) (st : fmt_state) : option (outcome fmt_state) :=
  match newarg with
  | None => None
  | Some None => Some memory_err
  | Some (Some s) => Some (goes (mk_fmt s true (curargv st) (f_totlen st)))
  end.

(** A byte of the format that is no conversion. *)
Definition plain_char (ok : bool) (x : Z) (st : fmt_state) : option (outcome fmt_state) :=
  if x =? 32 then
    if touched st then
      match add_arg st with
      | Some (goes st1) =>
        match sdsempty junk (ok_new al (length (curargv st1))) with
        | None => None
        | Some None => Some memory_err
        | Some (Some s) => Some (goes (mk_fmt s false (curargv st1) (f_totlen st1)))
        end
      | o => o
      end
    else Some (goes st)
  else touch (sdscatlen junk ok (curarg st) [x]) st.

(** [if (size > 0) newarg = sdscatlen(curarg,arg,size);] *)
Definition cat_arg (ok : bool) (arg : list Z) (size : Z) (st : fmt_state) : option (option sds) :=
  if size >? 0 then match read_at 0 size arg with Some bs => sdscatlen junk ok (curarg st) bs | None => None end
  else Some (Some (curarg st)).

(** The conversion at [c], whose bytes are [x :: y :: r]: the new state, the
    rest of the format and of the arguments. *)
Definition convert (c : list Z) (y : Z) (r : list Z) (ap : list vararg) (st : fmt_state)
  : option (outcome (fmt_state * list Z * list vararg)) :=
  let ok := ok_text al (length c) in
  let finish (newarg : option (option sds)) (rest : list Z) (ap : list vararg) :=
    match touch newarg st with
    | None => None
    | Some (goes st1) => Some (goes (st1, rest, ap))
    | Some memory_err => Some memory_err
    | Some format_err => Some format_err
    end in
  if y =? 115 (* 's' *) then
    match ap with
    | V_chars arg :: ap1 =>
      match c_string arg with Some x => finish (cat_arg ok arg (Z.of_nat (length x)) st) r ap1 | None => None end
    | _ => None
    end
  else if y =? 98 (* 'b' *) then
    match ap with
    | V_chars arg :: V_size size :: ap2 => finish (cat_arg ok arg size st) r ap2
    | _ => None
    end
  else if y =? 37 then finish (sdscat junk ok (curarg st) [37; 0]) r ap
  else
    match scan_format (y :: r) with
    | None => None
    | Some None => Some format_err
    | Some (Some (k, p)) =>
      match va_arg k ap with
      | None => None
      | Some ap1 =>
        let l := Z.of_nat (length c - length p + 1) in
        if l <? 14 then
          match c_string (take (Z.to_nat l) c ++ [0]) with
          | None => None
          | Some f => finish (sdscatvprintf junk ok ok (curarg st) (Z.of_nat (length f)) (printf f ap)) (tail p) ap1
          end
        else finish (Some (Some (curarg st))) r ap1
      end
    end.

(** The loop; every round takes a byte. *)
Fixpoint format_chars (fuel : nat) (c : list Z) (ap : list vararg) (st : fmt_state) : option (outcome fmt_state) :=
  match fuel with
  | O => None
  | S fuel' =>
    match c with
    | [] => None
    | x :: c1 =>
      let plain :=
        match plain_char (ok_text al (length c)) x st with
        | Some (goes st1) => format_chars fuel' c1 ap st1
        | o => o
        end in
      if x =? 0 then Some (goes st)
      else if negb (x =? 37) then plain
      else
        match c1 with
        | [] => None
        | y :: r =>
          if y =? 0 then plain
          else
            match convert c y r ap st with
            | None => None
            | Some memory_err => Some memory_err
            | Some format_err => Some format_err
            | Some (goes (st1, c2, ap1)) => format_chars fuel' c2 ap1 st1
            end
        end
    end
  end.

(** [int redisvFormatCommand(char **target, const char *format, va_list ap)];
    [target] is not null. *)
Definition redisvFormatCommand (format : list Z) (ap : list vararg) : option (Z * option (list Z)) :=
  match sdsempty junk (ok_new al 0) with
  | None => None
  | Some None => Some (-1, None)
  | Some (Some s) =>
    match format_chars (S (length format)) format ap (mk_fmt s false [] 0) with
    | None => None
    | Some memory_err => Some (-1, None)
    | Some format_err => Some (-2, None)
    | Some (goes st) =>
      match (if touched st then add_arg st else Some (goes st)) with
      | None => None
      | Some memory_err => Some (-1, None)
      | Some format_err => Some (-2, None)
      | Some (goes st1) =>
        match countDigits (Z.of_nat (length (curargv st1))), mapM (λ s, read_at 0 (sdslen s) (s_buf s)) (curargv st1) with
        | Some n, Some argv => lay_out junk (ok_cmd al) argv (to_int (f_totlen st1 + (1 + n + 2)))
        | _, _ => None
        end
      end
    end
  end.

(** [int redisFormatCommand(char **target, const char *format, ...)] *)
Definition redisFormatCommand (format : list Z) (ap : list vararg) : option (Z * option (list Z)) :=
  match redisvFormatCommand format ap with
  | Some (len, cmd) => Some (if len <? 0 then -1 else len, cmd)
  | None => None
  end.
End format.

(** ** What a format means *)

(** A printf conversion: flags, width, precision, size and conversion. *)
Record directive := mk_directive {
  d_flags : list Z; d_width : list Z; d_prec : option (list Z); d_size : list Z; d_conv : Z; d_kind : kind
}.

Definition directive_text (d : directive) : list Z :=
  d_flags d ++ d_width d ++ match d_prec d with Some l => 46 :: l | None => [] end ++ d_size d ++ [d_conv d].

Inductive sized_conv : list Z → Z → kind → Prop :=
| plain_int x : x ∈ intfmts → sized_conv [] x K_int
| plain_double x : x ∈ doublefmts → sized_conv [] x K_double
| short_int x : x ∈ intfmts → sized_conv [104] x K_int
| char_int x : x ∈ intfmts → sized_conv [104; 104] x K_int
| long_int x : x ∈ intfmts → sized_conv [108] x K_long
| long_long_int x : x ∈ intfmts → sized_conv [108; 108] x K_llong.

Record directive_ok (d : directive) : Prop := {
  dr_flags : Forall (λ c, c ∈ flags) (d_flags d);
  dr_width : Forall (λ c, isdigit c = true) (d_width d) ∧ head (d_width d) ≠ Some 48;
  dr_prec : Forall (λ c, isdigit c = true) (default [] (d_prec d));
  dr_conv : sized_conv (d_size d) (d_conv d) (d_kind d);
  dr_length : (length (directive_text d) < 13)%nat
}.

(** A format is made of characters and of what is interpolated. *)
Inductive piece :=
| P_char (c : Z)
| P_percent
| P_string (mem : list Z)
| P_bytes (mem : list Z) (n : Z)
| P_printf (d : directive) (v : vararg).

Definition piece_text (p : piece) : list Z :=
  match p with
  | P_char c => [c]
  | P_percent => [37; 37]
  | P_string _ => [37; 115]
  | P_bytes _ _ => [37; 98]
  | P_printf d _ => 37 :: directive_text d
  end.

Definition piece_args (p : piece) : list vararg :=
  match p with
  | P_char _ | P_percent => []
  | P_string mem => [V_chars mem]
  | P_bytes mem n => [V_chars mem; V_size n]
  | P_printf _ v => [v]
  end.

Definition has_kind (k : kind) (v : vararg) : Prop :=
  match k, v with K_int, V_int _ | K_long, V_long _ | K_llong, V_llong _ | K_double, V_double _ => True | _, _ => False end.

Definition piece_ok (p : piece) : Prop :=
  match p with
  | P_char c => c ≠ 0 ∧ c ≠ 37
  | P_percent => True
  | P_string mem => is_Some (c_string mem)
  | P_bytes mem n => 0 <= n <= Z.of_nat (length mem)
  | P_printf d v => directive_ok d ∧ has_kind (d_kind d) v
  end.

Definition format_of (ps : list piece) : list Z := concat (piece_text <$> ps) ++ [0].
Definition args_of (ps : list piece) : list vararg := concat (piece_args <$> ps).

(** The arguments so far, and the current one if it was touched. *)
Definition words : Type := list (list Z) * option (list Z).

Definition put (x : list Z) (w : words) : words := (w.1, Some (default [] w.2 ++ x)).

Definition word_step (printf : list Z → list vararg → list Z) (w : words) (p : piece) : words :=
  match p with
  | P_char c => if c =? 32 then match w.2 with Some x => (w.1 ++ [x], None) | None => w end else put [c] w
  | P_percent => put [37] w
  | P_string mem => put (default [] (c_string mem)) w
  | P_bytes mem n => put (take (Z.to_nat n) mem) w
  | P_printf d v => put (until_zero (printf (37 :: directive_text d) [v])) w
  end.

Definition all_words (w : words) : list (list Z) := w.1 ++ match w.2 with Some x => [x] | None => [] end.

(** The arguments of the command. *)
Definition arguments (printf : list Z → list vararg → list Z) (ps : list piece) : list (list Z) :=
  all_words (foldl (word_step printf) ([], None) ps).

(** ** Printf conversions are recognised *)

Lemma forallb_elem (f : Z → bool) (l : list Z) x : forallb f l = true → x ∈ l → f x = true.
Proof. intros Hl Hx. apply list_elem_of_In in Hx. by apply (proj1 (forallb_forall f l)). Qed.

Lemma skip_all f l x r : Forall (λ c, c ≠ 0 ∧ f c = true) l → x = 0 ∨ f x = false → skip f (l ++ x :: r) = Some (x :: r).
Proof.
  intros Hl Hx. induction Hl as [|c l [Hc Hf] _ IH]; cbn [app skip].
  - destruct Hx as [->|Hx]; [done|]. by rewrite Hx, andb_false_r.
  - apply Z.eqb_neq in Hc. by rewrite Hc, Hf.
Qed.

(** A byte that ends flags, digits and is none of the conversions [s], [b] and
    the percent sign. *)
Definition stops (c : Z) : bool :=
  negb (strchr flags c) && negb (isdigit c) && negb (c =? 46) && negb (c =? 0) && negb (c =? 115) && negb (c =? 98) && negb (c =? 37).

Lemma stops_spec c : stops c = true → strchr flags c = false ∧ isdigit c = false ∧ c ≠ 46 ∧ c ≠ 0 ∧ c ≠ 115 ∧ c ≠ 98 ∧ c ≠ 37.
Proof. unfold stops. intros H. destruct (strchr flags c), (isdigit c); [done..|]. bool_to_prop. by split_and!. Qed.

Lemma int_conv x : x ∈ intfmts → strchr intfmts x = true ∧ stops x = true ∧ x ≠ 0.
Proof.
  intros Hx. split_and!; [by apply orb_true_intro; left; apply bool_decide_eq_true|by apply (forallb_elem _ intfmts)|].
  intros ->. by vm_compute in Hx; apply list_elem_of_In in Hx; simpl in Hx; lia.
Qed.

Lemma double_conv x : x ∈ doublefmts → strchr intfmts x = false ∧ strchr doublefmts x = true ∧ stops x = true.
Proof.
  intros Hx. split_and!; [|by apply orb_true_intro; left; apply bool_decide_eq_true|by apply (forallb_elem _ doublefmts)].
  apply negb_true_iff. by apply (forallb_elem (λ x, negb (strchr intfmts x)) doublefmts).
Qed.

Lemma scan_size_ok s x k r : sized_conv s x k →
  scan_size (s ++ x :: r) = Some (Some (k, x :: r)) ∧ ∃ y l, s ++ x :: r = y :: l ∧ stops y = true.
Proof.
  intros Hc. destruct Hc as [x Hx|x Hx|x Hx|x Hx|x Hx|x Hx]; cbn [app];
    [destruct (int_conv x Hx) as (H1 & H2 & H3)|destruct (double_conv x Hx) as (H1 & H2 & H3)|destruct (int_conv x Hx) as (H1 & H2 & H3)..];
    (split; [|by eexists _, _]); cbn [scan_size]; try (rewrite H1, ?H2; done).
  all: change (strchr intfmts 104) with false; change (strchr doublefmts 104) with false; change (strchr intfmts 108) with false;
    change (strchr doublefmts 108) with false; cbn [Z.eqb Pos.eqb].
  - destruct (Z.eqb_spec x 104) as [->|_]; [done|]. cbn [sized]. apply Z.eqb_neq in H3. by rewrite H3, H1.
  - cbn [sized]. apply Z.eqb_neq in H3. by rewrite H3, H1.
  - destruct (Z.eqb_spec x 108) as [->|_]; [done|]. cbn [sized]. apply Z.eqb_neq in H3. by rewrite H3, H1.
  - cbn [sized]. apply Z.eqb_neq in H3. by rewrite H3, H1.
Qed.

Lemma digits_stop l : Forall (λ c, isdigit c = true) l → Forall (λ c, c ≠ 0 ∧ isdigit c = true) l.
Proof. intros Hl. eapply Forall_impl; [exact Hl|]. intros c Hc. split; [by intros ->|done]. Qed.

Lemma flags_go l : Forall (λ c, c ∈ flags) l → Forall (λ c, c ≠ 0 ∧ strchr flags c = true) l.
Proof.
  intros Hl. eapply Forall_impl; [exact Hl|]. intros c Hc. split.
  - intros ->. vm_compute in Hc. apply list_elem_of_In in Hc. simpl in Hc. lia.
  - apply orb_true_intro. left. by apply bool_decide_eq_true.
Qed.

(** Behind the flags there is a byte that is no flag. *)
Lemma directive_rest d rest : directive_ok d →
  ∃ y l, d_width d ++ match d_prec d with Some l => 46 :: l | None => [] end ++ d_size d ++ d_conv d :: rest = y :: l ∧
    strchr flags y = false ∧ y ≠ 0 ∧ y ≠ 115 ∧ y ≠ 98 ∧ y ≠ 37.
Proof.
  intros [_ [Hw Hw0] _ Hc _]. destruct (d_width d) as [|w ws].
  - destruct (d_prec d); [by eexists _, _|]. destruct (scan_size_ok _ _ _ rest Hc) as (_ & y & l & -> & Hy).
    apply stops_spec in Hy. exists y, l. split_and!; try done; apply Hy.
  - exists w. eexists. split; [done|]. apply Forall_cons in Hw as [Hw _]. unfold isdigit in Hw.
    assert (w ≠ 48) by (intros ->; done). bool_to_prop. unfold strchr. replace (w =? 0) with false by (symmetry; apply Z.eqb_neq; lia).
    rewrite orb_false_r. split_and!; [|lia..]. apply bool_decide_eq_false. intros Hin.
    vm_compute in Hin. apply list_elem_of_In in Hin. simpl in Hin. lia.
Qed.

Lemma scan_format_ok d rest : directive_ok d → scan_format (directive_text d ++ rest) = Some (Some (d_kind d, d_conv d :: rest)).
Proof.
  intros Hd. destruct (directive_rest d rest Hd) as (y & l & Heq & Hy & _). destruct Hd as [Hf [Hw _] Hp Hc _].
  unfold directive_text. rewrite <- !app_assoc. cbn [app]. rewrite Heq. unfold scan_format. rewrite skip_all; [|by apply flags_go|by right].
  rewrite <- Heq. destruct (scan_size_ok _ _ _ rest Hc) as (Hs & z & r & Hz & Hst). apply stops_spec in Hst as (_ & Hz1 & Hz2 & _).
  destruct (d_prec d) as [pr|]; cbn [app].
  - rewrite skip_all by (by apply digits_stop || right). cbn [Z.eqb Pos.eqb]. rewrite Hz in *. by rewrite skip_all by (by apply digits_stop || right).
  - rewrite Hz in *. rewrite skip_all by (by apply digits_stop || right). apply Z.eqb_neq in Hz2. by rewrite Hz2.
Qed.

(** ** The loop *)

Record fmt_rel (w : words) (st : fmt_state) : Prop := {
  fr_cur : sds_ok (curarg st) ∧ content (curarg st) = default [] w.2;
  fr_touched : touched st = match w.2 with Some _ => true | None => false end;
  fr_argv : Forall sds_ok (curargv st) ∧ content <$> curargv st = w.1;
  fr_totlen : f_totlen st = Z.of_nat (length (concat (bulk <$> w.1)))
}.

Definition size_of (w : words) : nat := length (concat (bulk <$> w.1)) + length (default [] w.2).

Lemma bulks_snoc (l : list (list Z)) a : concat (bulk <$> l ++ [a]) = concat (bulk <$> l) ++ bulk a.
Proof. rewrite fmap_app, concat_app. cbn. by rewrite app_nil_r. Qed.

Lemma bulk_longer a : (length a < length (bulk a))%nat.
Proof. unfold bulk. rewrite !length_app. cbn [length]. lia. Qed.

Lemma size_put x w : (size_of w + length x = size_of (put x w))%nat.
Proof. unfold size_of, put. cbn [fst snd default from_option id]. rewrite length_app. unfold id. lia. Qed.

Lemma word_step_size printf w p : (size_of w <= size_of (word_step printf w p))%nat.
Proof.
  destruct p; cbn [word_step]; rewrite <- ?size_put; try lia. case_if; [|rewrite <- size_put; lia].
  destruct w as [ws [x|]]; [|done]. unfold size_of. cbn. rewrite bulks_snoc, length_app. pose proof (bulk_longer x). lia.
Qed.

Lemma words_size printf ps : ∀ w, (size_of w <= size_of (foldl (word_step printf) w ps))%nat.
Proof.
  induction ps as [|p ps IH]; intros w; [done|]. cbn [foldl]. etransitivity; [apply (word_step_size printf w p)|apply IH].
Qed.

Definition all_good : allocs := mk_allocs (λ _, true) (λ _, true) (λ _, true) true.

Section loop.
Context (junk : Z) (printf : list Z → list vararg → list Z).
(** printf looks at the arguments its format asks for, and returns a length. *)
Context (printf_first : ∀ f v ap, printf f (v :: ap) = printf f [v]).
Context (printf_length : ∀ f ap, Z.of_nat (length (printf f ap)) <= INT_MAX).


Lemma touch_ok w st x newarg :
  fmt_rel w st → (∃ s, newarg = Some (Some s) ∧ sds_ok s ∧ content s = content (curarg st) ++ x) →
  ∃ st', touch newarg st = Some (goes st') ∧ fmt_rel (put x w) st'.
Proof.
  intros [[H1 H2] H3 H4 H5] (s & -> & Hs & Hc). eexists. split; [done|]. split; cbn; [|done|done|done].
  split; [done|]. by rewrite Hc, H2.
Qed.

Lemma cur_length w st : fmt_rel w st → s_len (curarg st) <= Z.of_nat (size_of w).
Proof.
  intros [[H1 H2] _ _ _]. pose proof (content_length _ H1) as Hl. rewrite <- Hl, H2. unfold size_of. lia.
Qed.

Lemma cat_ok w st x : fmt_rel w st → Z.of_nat (size_of (put x w)) <= INT_MAX →
  ∃ s, sdscatlen junk true (curarg st) x = Some (Some s) ∧ sds_ok s ∧ content s = content (curarg st) ++ x.
Proof.
  intros Hr Hm. pose proof (cur_length w st Hr) as Hl. rewrite <- size_put in Hm. unfold INT_MAX in Hm.
  destruct (sdscatlen_ok junk (curarg st) x (proj1 (fr_cur _ _ Hr))) as (s & -> & H); [lia|]. by exists s.
Qed.

Lemma cat_arg_ok w st arg x : fmt_rel w st → read_at 0 (Z.of_nat (length x)) arg = Some x → Z.of_nat (size_of (put x w)) <= INT_MAX →
  ∃ s, cat_arg junk true arg (Z.of_nat (length x)) st = Some (Some s) ∧ sds_ok s ∧ content s = content (curarg st) ++ x.
Proof.
  intros Hr Hx Hm. unfold cat_arg. rewrite Z.gtb_ltb. destruct (Z.ltb_spec 0 (Z.of_nat (length x))).
  - rewrite Hx. by apply (cat_ok w).
  - destruct x; [|simpl in *; lia]. exists (curarg st). rewrite app_nil_r. split_and!; [done|apply Hr|done].
Qed.

Lemma add_arg_ok w x st : fmt_rel w st → w.2 = Some x → Z.of_nat (size_of (w.1 ++ [x], None)) <= INT_MAX →
  ∃ st1, add_arg all_good st = Some (goes st1) ∧ Forall sds_ok (curargv st1) ∧ content <$> curargv st1 = w.1 ++ [x] ∧
    f_totlen st1 = Z.of_nat (length (concat (bulk <$> w.1 ++ [x]))).
Proof.
  intros [[H1 H2] H3 [H4 H5] H6] Hx Hm. unfold size_of in Hm. cbn in Hm. rewrite Nat.add_0_r, bulks_snoc, length_app in Hm. unfold INT_MAX in Hm.
  rewrite Hx in H2. cbn in H2. unfold id in H2. unfold add_arg, sdslen. cbn [negb]. rewrite <- (content_length _ H1), H2, bulklen_ok by lia.
  eexists. split; [done|]. cbn [curargv f_totlen]. split_and!.
  - apply Forall_app. split; [done|by constructor].
  - rewrite fmap_app. cbn. by rewrite H5, H2.
  - rewrite H6, bulks_snoc, length_app, to_size_t_id, to_int_id by (unfold in_int, INT_MIN, INT_MAX; lia). lia.
Qed.

Lemma plain_char_ok w st c : fmt_rel w st → Z.of_nat (size_of (word_step printf w (P_char c))) <= INT_MAX →
  ∃ st', plain_char junk all_good true c st = Some (goes st') ∧ fmt_rel (word_step printf w (P_char c)) st'.
Proof.
  intros Hr Hm. unfold plain_char. cbn [word_step] in *. destruct (c =? 32).
  - pose proof Hr as [[H1 H2] H3 H4 H5]. destruct (w.2) as [x|] eqn:Hw; rewrite H3; [|by exists st].
    destruct (add_arg_ok w x st Hr Hw Hm) as (st1 & -> & Ha & Hb & Hc).
    destruct (sdsnewlen_ok junk [] 0) as (s & Hs & Hok & Hcs & _); [done|done|]. rewrite take_nil in Hcs. unfold sdsempty. change (ok_new all_good _) with true. rewrite Hs.
    eexists. split; [done|]. by split.
  - apply touch_ok; [done|]. by apply (cat_ok w).
Qed.

Lemma convert_text w st c y r ap x newarg rest ap1 :
  fmt_rel w st → (∃ s, newarg = Some (Some s) ∧ sds_ok s ∧ content s = content (curarg st) ++ x) →
  convert junk all_good printf c y r ap st =
    match touch newarg st with
    | None => None
    | Some (goes st1) => Some (goes (st1, rest, ap1))
    | Some memory_err => Some memory_err
    | Some format_err => Some format_err
    end →
  ∃ st', convert junk all_good printf c y r ap st = Some (goes (st', rest, ap1)) ∧ fmt_rel (put x w) st'.
Proof. intros Hr Hn ->. destruct (touch_ok w st x newarg Hr Hn) as (st' & -> & H). by exists st'. Qed.

Lemma percent_piece w st c r ap : fmt_rel w st → Z.of_nat (size_of (put [37] w)) <= INT_MAX →
  ∃ st', convert junk all_good printf c 37 r ap st = Some (goes (st', r, ap)) ∧ fmt_rel (put [37] w) st'.
Proof. intros Hr Hm. eapply convert_text; [done| |reflexivity]. by apply (cat_ok w). Qed.

Lemma c_string_prefix mem x : c_string mem = Some x → ∃ t, mem = x ++ 0 :: t.
Proof.
  revert x. induction mem as [|b mem IH]; intros x Hx; [done|]. cbn in Hx. destruct (Z.eqb_spec b 0) as [->|].
  - injection Hx as <-. by exists mem.
  - destruct (c_string mem) as [x'|]; [|done]. injection Hx as <-. destruct (IH x' eq_refl) as (t & ->). by exists t.
Qed.

Lemma string_piece w st c r ap mem x : fmt_rel w st → c_string mem = Some x → Z.of_nat (size_of (put x w)) <= INT_MAX →
  ∃ st', convert junk all_good printf c 115 r (V_chars mem :: ap) st = Some (goes (st', r, ap)) ∧ fmt_rel (put x w) st'.
Proof.
  intros Hr Hx Hm. eapply (convert_text _ _ _ _ _ _ _ (cat_arg junk true mem (Z.of_nat (length x)) st)); [done| |unfold convert; cbn [Z.eqb Pos.eqb]; by rewrite Hx].
  apply (cat_arg_ok w); [done| |done]. destruct (c_string_prefix mem x Hx) as (t & ->). rewrite read_at_Some by (rewrite ?length_app; lia).
  by rewrite Nat2Z.id, drop_0, take_app_length.
Qed.

Lemma bytes_piece w st c r ap mem n : fmt_rel w st → 0 <= n <= Z.of_nat (length mem) → Z.of_nat (size_of (put (take (Z.to_nat n) mem) w)) <= INT_MAX →
  ∃ st', convert junk all_good printf c 98 r (V_chars mem :: V_size n :: ap) st = Some (goes (st', r, ap)) ∧ fmt_rel (put (take (Z.to_nat n) mem) w) st'.
Proof.
  intros Hr Hn Hm. set (x := take (Z.to_nat n) mem) in *. assert (Hx : Z.of_nat (length x) = n) by (unfold x; rewrite length_take; lia).
  eapply convert_text; [done| |reflexivity]. rewrite <- Hx. apply (cat_arg_ok w); [done| |done]. rewrite read_at_Some by lia.
  by rewrite Hx.
Qed.

Lemma directive_nonzero d : directive_ok d → Forall (λ c, c ≠ 0) (37 :: directive_text d).
Proof.
  intros [Hf [Hw _] Hp Hc _]. apply Forall_cons. split; [done|]. unfold directive_text. rewrite !Forall_app. split_and!.
  - eapply Forall_impl; [exact (flags_go _ Hf)|]. by intros c [? _].
  - eapply Forall_impl; [exact (digits_stop _ Hw)|]. by intros c [? _].
  - destruct (d_prec d); [|done]. apply Forall_cons. split; [done|]. eapply Forall_impl; [exact (digits_stop _ Hp)|]. by intros c [? _].
  - by destruct Hc; repeat constructor.
  - assert (d_conv d ≠ 0) by (destruct Hc as [x Hx|x Hx|x Hx|x Hx|x Hx|x Hx]; [by destruct (int_conv x Hx) as (_ & _ & ?)|destruct (double_conv x Hx) as (_ & _ & ?%stops_spec); tauto|by destruct (int_conv x Hx) as (_ & _ & ?)..]).
    by repeat constructor.
Qed.

Lemma directive_head d rest : directive_ok d → ∃ y r, directive_text d ++ rest = y :: r ∧ y ≠ 0 ∧ y ≠ 115 ∧ y ≠ 98 ∧ y ≠ 37.
Proof.
  intros Hd. destruct (directive_rest d rest Hd) as (y & l & Heq & _ & H). pose proof (flags_go _ (dr_flags d Hd)) as Hf.
  unfold directive_text. rewrite <- !app_assoc. cbn [app]. rewrite Heq. destruct (d_flags d) as [|f fs]; [by exists y, l|].
  exists f. eexists. split; [done|]. apply Forall_cons in Hf as [[H0 Hf] _]. split; [done|].
  split_and!; intros ->; by vm_compute in Hf.
Qed.

Lemma printf_piece w st rest ap d v : fmt_rel w st → directive_ok d → has_kind (d_kind d) v →
  Z.of_nat (size_of (put (until_zero (printf (37 :: directive_text d) [v])) w)) <= INT_MAX →
  ∃ y r st', directive_text d ++ rest = y :: r ∧ y ≠ 0 ∧
    convert junk all_good printf (37 :: y :: r) y r (v :: ap) st = Some (goes (st', rest, ap)) ∧
    fmt_rel (put (until_zero (printf (37 :: directive_text d) [v])) w) st'.
Proof.
  intros Hr Hd Hv Hm. destruct (directive_head d rest Hd) as (y & r & Heq & H0 & Hs & Hb & Hp). pose proof (scan_format_ok d rest Hd) as Hscan.
  assert (Hva : va_arg (d_kind d) (v :: ap) = Some ap) by (by destruct (d_kind d), v).
  assert (Hl : (length (37%Z :: y :: r) - length (d_conv d :: rest) + 1 = length (37%Z :: directive_text d))%nat).
  { rewrite <- Heq. cbn [length]. rewrite length_app. enough (0 < length (directive_text d))%nat by lia. unfold directive_text. rewrite !length_app. cbn [length]. lia. }
  pose proof (dr_length d Hd) as Hlen. exists y, r. set (f := 37 :: directive_text d) in *.
  enough (∃ st', convert junk all_good printf (37 :: y :: r) y r (v :: ap) st = Some (goes (st', rest, ap)) ∧
    fmt_rel (put (until_zero (printf f [v])) w) st') as (st' & H1 & H2) by (by exists st').
  eapply (convert_text _ _ _ _ _ _ _ (sdscatvprintf junk true true (curarg st) (Z.of_nat (length f)) (printf f (v :: ap)))); [done| |].
  - pose proof (cur_length w st Hr) as Hcl. rewrite <- size_put in Hm. unfold INT_MAX in *. pose proof (printf_length f (v :: ap)) as Hpl. unfold INT_MAX in Hpl.
    destruct (sdscatprintf_ok junk (curarg st) (Z.of_nat (length f)) (printf f (v :: ap))) as (s & Hs1 & Hs2 & Hs3);
      [apply Hr|unfold f; cbn [length]; lia|lia|lia|]. exists s. unfold sdscatprintf in Hs1. rewrite Hs1, Hs3. by rewrite (printf_first f v ap).
  - unfold convert. apply Z.eqb_neq in Hs, Hb, Hp. rewrite Hs, Hb, Hp, <- Heq, Hscan, Hva. rewrite Heq, Hl.
    destruct (Z.ltb_spec (Z.of_nat (length f)) 14); [|unfold f in *; cbn [length] in *; lia]. rewrite Nat2Z.id.
    replace (take (length f) (37 :: y :: r)) with f by (rewrite <- Heq; symmetry; apply (take_app_length f rest)).
    rewrite c_string_zero, until_zero_id by (by apply directive_nonzero). reflexivity.
Qed.

Lemma piece_step fuel p rest ap w st : fmt_rel w st → piece_ok p → Z.of_nat (size_of (word_step printf w p)) <= INT_MAX →
  ∃ st', format_chars junk all_good printf (S fuel) (piece_text p ++ rest) (piece_args p ++ ap) st =
      format_chars junk all_good printf fuel rest ap st' ∧ fmt_rel (word_step printf w p) st'.
Proof.
  intros Hr Hp Hm. destruct p as [c| |mem|mem n|d v]; cbn [piece_text piece_args piece_ok word_step app] in *.
  - destruct (plain_char_ok w st c Hr Hm) as (st' & Hst & Hr'). exists st'. split; [|done]. destruct Hp as [H0 H37].
    cbn [format_chars]. change (ok_text all_good _) with true. apply Z.eqb_neq in H0, H37. by rewrite H0, H37, Hst.
  - destruct (percent_piece w st (37 :: 37 :: rest) rest ap Hr Hm) as (st' & Hst & Hr'). exists st'. split; [|done].
    cbn [format_chars]. cbn [Z.eqb Pos.eqb negb]. by rewrite Hst.
  - destruct Hp as [x Hx]. rewrite Hx in *. cbn [default from_option id] in *.
    destruct (string_piece w st (37 :: 115 :: rest) rest ap mem x Hr Hx Hm) as (st' & Hst & Hr'). exists st'. split; [|done].
    cbn [format_chars]. cbn [Z.eqb Pos.eqb negb]. by rewrite Hst.
  - destruct (bytes_piece w st (37 :: 98 :: rest) rest ap mem n Hr Hp Hm) as (st' & Hst & Hr'). exists st'. split; [|done].
    cbn [format_chars]. cbn [Z.eqb Pos.eqb negb]. by rewrite Hst.
  - destruct Hp as [Hd Hv]. destruct (printf_piece w st rest ap d v Hr Hd Hv Hm) as (y & r & st' & Heq & H0 & Hst & Hr').
    exists st'. split; [|done]. rewrite Heq. cbn [format_chars]. cbn [Z.eqb Pos.eqb negb]. apply Z.eqb_neq in H0. by rewrite H0, Hst.
Qed.

Lemma pieces_ok ps : ∀ fuel w st, fmt_rel w st → Forall piece_ok ps → Z.of_nat (size_of (foldl (word_step printf) w ps)) <= INT_MAX →
  (length ps < fuel)%nat →
  ∃ st', format_chars junk all_good printf fuel (format_of ps) (args_of ps) st = Some (goes st') ∧
    fmt_rel (foldl (word_step printf) w ps) st'.
Proof.
  induction ps as [|p ps IH]; intros fuel w st Hr Hp Hm Hf; (destruct fuel as [|fuel]; [simpl in Hf; lia|]); [by exists st|].
  apply Forall_cons in Hp as [Hp Hps]. cbn [foldl] in *. pose proof (words_size printf ps (word_step printf w p)).
  unfold format_of, args_of. cbn [fmap list_fmap concat]. rewrite <- app_assoc. fold (format_of ps) (args_of ps).
  destruct (piece_step fuel p (format_of ps) (args_of ps) w st Hr Hp) as (st1 & Hst1 & Hr1); [lia|].
  destruct (IH fuel _ st1 Hr1 Hps Hm) as (st2 & Hst2 & Hr2); [simpl in Hf; lia|]. exists st2. by rewrite Hst1.
Qed.

Lemma read_contents l : Forall sds_ok l → mapM (λ s, read_at 0 (sdslen s) (s_buf s)) l = Some (content <$> l).
Proof.
  induction 1 as [|s l Hs _ IH]; [done|]. cbn [mapM fmap list_fmap]. pose proof (so_len _ Hs). pose proof (so_block _ Hs).
  rewrite read_at_Some by (unfold sdslen; lia). cbn [mbind option_bind]. rewrite IH. done.
Qed.

Lemma format_length ps : (length ps < length (format_of ps))%nat.
Proof.
  unfold format_of. rewrite length_app. cbn [length]. induction ps as [|p ps IH]; [simpl; lia|]. cbn [fmap list_fmap concat length]. rewrite length_app.
  assert (0 < length (piece_text p))%nat by (destruct p; simpl; lia). lia.
Qed.

Lemma format_ok ps :
  Forall piece_ok ps → Z.of_nat (length (encode (command (arguments printf ps)))) < INT_MAX →
  redisvFormatCommand junk all_good printf (format_of ps) (args_of ps) =
    Some (Z.of_nat (length (encode (command (arguments printf ps)))), Some (encode (command (arguments printf ps)) ++ [0])).
Proof.
  intros Hp Hm. pose proof (lay_out_ok junk _ Hm) as Hlay. revert Hm Hlay. unfold arguments. set (w := foldl (word_step printf) ([], None) ps). intros Hm Hlay.
  assert (Hsz : Z.of_nat (length (concat (bulk <$> all_words w))) + Z.of_nat (length (header (all_words w))) < INT_MAX).
  { rewrite encode_command, length_app in Hm. lia. }
  assert (Hw : Z.of_nat (size_of w) <= INT_MAX).
  { unfold size_of, all_words in *. destruct (w.2) as [x|]; [rewrite bulks_snoc, length_app in Hsz; pose proof (bulk_longer x)|rewrite app_nil_r in Hsz]; cbn; unfold id; lia. }
  unfold redisvFormatCommand. destruct (sdsnewlen_ok junk [] 0) as (s & Hs & Hok & Hc & _); [done|done|]. rewrite take_nil in Hc. unfold sdsempty. change (ok_new all_good _) with true. rewrite Hs.
  destruct (pieces_ok ps (S (length (format_of ps))) ([], None) (mk_fmt s false [] 0)) as (st & -> & Hr);
    [by split|done|done|pose proof (format_length ps); lia|]. fold w in Hr.
  assert (∃ st1, (if touched st then add_arg all_good st else Some (goes st)) = Some (goes st1) ∧ Forall sds_ok (curargv st1) ∧
    content <$> curargv st1 = all_words w ∧ f_totlen st1 = Z.of_nat (length (concat (bulk <$> all_words w)))) as (st1 & -> & Ha & Hb & Ht).
  { rewrite (fr_touched _ _ Hr). unfold all_words in *. destruct (w.2) as [x|] eqn:Hx.
    - apply (add_arg_ok w x st Hr Hx). unfold size_of. cbn [fst snd default from_option length]. lia.
    - exists st. rewrite app_nil_r. split_and!; [done|apply Hr..]. }
  rewrite read_contents, Hb by done. assert (Hlen : length (curargv st1) = length (all_words w)) by (rewrite <- Hb; by rewrite length_fmap).
  pose proof (bulks_length (all_words w)). destruct (header_length (all_words w)) as (n & Hn & Hn2); [unfold INT_MAX in *; lia|].
  rewrite Hlen, Hn, Ht, Hn2, to_int_id by (unfold in_int, INT_MIN, INT_MAX in *; lia). rewrite <- Hlay. f_equal. rewrite encode_command, length_app. lia.
Qed.
(** C20: a command made from a well formed format has exactly the arguments the
    format shows.  Well formed means built of plain characters, doubled percent
    signs, strings, byte strings and complete printf conversions of at most
    thirteen characters, each with an argument of its type ([piece_ok]), with a
    result shorter than INT_MAX and no failing allocation.  The command is cut at
    the blanks of the format only, so that blanks, line breaks and zeros in what is
    interpolated stay inside one argument, and an empty string that is interpolated
    is an argument.  The result is the encoding of these arguments and its length;
    no access leaves the format, the arguments or the buffer, and no assertion
    fails.  Of the other formats this is not true: one that ends within a
    conversion is read behind its end ([unfinished_conversion_overruns]), and a
    longer conversion is not printed but sent ([long_conversion_is_sent_raw]). *)
Theorem format_makes_arguments ps :
  Forall piece_ok ps → Z.of_nat (length (encode (command (arguments printf ps)))) < INT_MAX →
  redisvFormatCommand junk all_good printf (format_of ps) (args_of ps) =
    Some (Z.of_nat (length (encode (command (arguments printf ps)))), Some (encode (command (arguments printf ps)) ++ [0])).
Proof. apply format_ok. Qed.
End loop.

(** ** Examples, and where it fails *)

Definition print_int (f : list Z) (ap : list vararg) : list Z :=
  match ap with V_int n :: _ => take 11 (decimal n) | _ => [] end.

Definition example_format : list piece :=
  (P_char <$> chars "SET key:") ++ [P_printf (mk_directive [45] [53] None [] 100 K_int) (V_int 42); P_char 32; P_char 32;
    P_string [97; 32; 98; 0]; P_percent; P_char 32; P_string [0]; P_char 32; P_bytes [13; 10; 0; 7] 3].

Lemma print_int_first f v ap : print_int f (v :: ap) = print_int f [v].
Proof. by destruct v. Qed.

Lemma print_int_length f ap : Z.of_nat (length (print_int f ap)) <= INT_MAX.
Proof.
  assert (length (print_int f ap) <= 11)%nat; [|unfold INT_MAX; lia].
  destruct ap as [|[] ap]; cbn [print_int length]; try lia. rewrite length_take. lia.
Qed.

Lemma chars_ok l : forallb (λ c, negb (c =? 0) && negb (c =? 37)) l = true → Forall piece_ok (P_char <$> l).
Proof.
  intros Hl. apply Forall_fmap, Forall_forall. intros c Hc. pose proof (forallb_elem _ l c Hl Hc) as H. cbn in H. by bool_to_prop.
Qed.

Lemma format_makes_arguments_witness :
  redisvFormatCommand 170 all_good print_int (chars "SET key:%-5d  %s%% %s %b" ++ [0])
      [V_int 42; V_chars [97; 32; 98; 0]; V_chars [0]; V_chars [13; 10; 0; 7]; V_size 3] =
    Some (50, Some (encode (command [chars "SET"; chars "key:42"; chars "a b%"; []; [13; 10; 0]]) ++ [0])).
Proof.
  refine (format_makes_arguments 170 print_int _ _ example_format _ _).
  - exact print_int_first.
  - exact print_int_length.
  - unfold example_format. apply Forall_app. split; [by apply chars_ok|].
    apply Forall_cons. split; [split; [|done]|].
    + split; cbn [d_flags d_width d_prec d_size d_conv d_kind default from_option].
      * by repeat constructor.
      * split; [by repeat constructor|done].
      * constructor.
      * constructor. by repeat constructor.
      * simpl. lia.
    + repeat (apply Forall_cons; split; [try done; try (by eexists); simpl; lia|]). by constructor.
  - by vm_compute.
Defined.

(** The test for an integer conversion finds the zero at the end of the format,
    too: a format that ends within a conversion is taken for a valid one, and the
    loop goes on behind its end. *)
Lemma unfinished_conversion_overruns n :
  redisvFormatCommand 170 all_good (λ _ _, []) (chars "GET %5" ++ [0]) [V_int n] = None.
Proof. by vm_compute. Qed.

(** A conversion that does not fit the local buffer is not printed: its text
    without the percent sign and the flag is sent, and its argument is gone. *)
Lemma long_conversion_is_sent_raw n :
  redisvFormatCommand 170 all_good print_int (chars "GET %0000000000012d" ++ [0]) [V_int n] =
    Some (33, Some (encode (command [chars "GET"; chars "000000000012d"]) ++ [0])).
Proof. by vm_compute. Qed.
