(* ===== verification/Context.v ===== *)
(** * vendors/hiredis/hiredis.c: a connection

    A context has an output buffer, a reader and an error.  Commands are
    appended to the buffer; [redisGetReply] of a blocking context writes the
    buffer out and reads until there is a reply.  The kernel is a script: what
    the next calls of [write] and [read] return; [sent] is what it took.  [None]
    is a failed [assert], the use of a null pointer, or a call of the kernel
    for which the script has no answer, that is, one that never returns. *)

From Stdlib Require Ascii String.
From stdpp Require Import strings.
From S2P Require Import Prelude Sds SdsProps Numbers SdsFmt Read Reply Resp ReplyTree ReadRefine ReadRun ReadProps Command FormatCommand.
Local Open Scope Z_scope.

(** [errno], as far as it is looked at. *)
Inductive errno := EAGAIN | EINTR | EINPROGRESS | EHOSTUNREACH | EADDRNOTAVAIL | ETIMEDOUT | E_other.
#[global] Instance errno_eq_dec : EqDecision errno.
Proof. solve_decision. Defined.

(** What a call returns: how many of the bytes [write] took, which bytes [read]
    has; no bytes are the end of the stream. *)
Inductive write_result := W_took (n : Z) | W_error (e : errno).
Inductive read_result := R_data (l : list Z) | R_failed (e : errno).

Record kernel := mk_kernel { writes : list write_result; reads : list read_result; sent : list Z }.

Record redisContext := mk_context {
  c_err : Z;
  c_errstr : list Z;
  c_block : bool; (* [flags & REDIS_BLOCK] *)
  obuf : option sds;
  c_reader : reader
}.

Record client := mk_client { ctx : redisContext; hp : reply_heap; kern : kernel }.

Definition set_obuf b c := mk_context (c_err c) (c_errstr c) (c_block c) b (c_reader c).
Definition set_reader r c := mk_context (c_err c) (c_errstr c) (c_block c) (obuf c) r.
Definition with_ctx c x := mk_client c (hp x) (kern x).
Definition with_kernel k x := mk_client (ctx x) (hp x) k.
Definition with_reader r h x := mk_client (set_reader r (ctx x)) h (kern x).

Section context.
(** Memory, and the texts of [strerror_r]. *)
Context (junk : Z) (strerror : errno → list Z).

(** [void __redisSetError(redisContext *c, int type, const char *str)]; the last
    [errno] is [e]. *)
Definition set_error (type : Z) (s : list Z) (c : redisContext) : redisContext :=
  mk_context type (take 127 s) (c_block c) (obuf c) (c_reader c).
Definition redisSetError (type : Z) (s : option (list Z)) (e : errno) (c : redisContext) : option redisContext :=
  match s with
  | Some s => Some (set_error type s c)
  | None => if type =? REDIS_ERR_IO then Some (set_error type (strerror e) c) else None
  end.

(** [__redisSetError] and [return REDIS_ERR]. *)
Definition ctx_fail (type : Z) (s : option (list Z)) (e : errno) (x : client) : option (Z * client) :=
  match redisSetError type s e (ctx x) with Some c => Some (REDIS_ERR, with_ctx c x) | None => None end.

(** ** The kernel *)

(** [read(c->fd, buf, n)]: what does not fit is read by the next call. *)
Definition sys_read (n : Z) (k : kernel) : option (read_result * kernel) :=
  match reads k with
  | [] => None
  | R_failed e :: r => Some (R_failed e, mk_kernel (writes k) r (sent k))
  | R_data l :: r =>
    let rest := drop (Z.to_nat n) l in
    Some (R_data (take (Z.to_nat n) l),
          mk_kernel (writes k) (match rest with [] => r | _ => R_data rest :: r end) (sent k))
  end.

(** [write(c->fd, buf, len)]: never takes more than there is. *)
Definition sys_write (bs : list Z) (k : kernel) : option (write_result * kernel) :=
  match writes k with
  | [] => None
  | W_error e :: w => Some (W_error e, mk_kernel w (reads k) (sent k))
  | W_took n :: w =>
    let m := Z.min (Z.max 0 n) (Z.of_nat (length bs)) in
    Some (W_took m, mk_kernel w (reads k) (sent k ++ take (Z.to_nat m) bs))
  end.

(** [(errno == EAGAIN && !(c->flags & REDIS_BLOCK)) || (errno == EINTR)] *)
Definition try_again (e : errno) (c : redisContext) : bool :=
  match e with EAGAIN => negb (c_block c) | EINTR => true | _ => false end.

(** ** Reading and writing *)

(** [int redisBufferRead(redisContext *c)] *)
Definition redisBufferRead (x : client) : option (Z * client) :=
  if negb (c_err (ctx x) =? 0) then Some (REDIS_ERR, x)
  else
    match sys_read (1024 * 16) (kern x) with
    | None => None
    | Some (R_failed e, k) =>
      if try_again e (ctx x) then Some (REDIS_OK, with_kernel k x) else ctx_fail REDIS_ERR_IO None e (with_kernel k x)
    | Some (R_data [], k) => ctx_fail REDIS_ERR_EOF (Some (chars "Server closed the connection")) E_other (with_kernel k x)
    | Some (R_data l, k) =>
      match redisReaderFeed junk true true (Some l) (c_reader (ctx x)) (hp x) with
      | None => None
      | Some (e, r, h) =>
        let x1 := with_reader r h (with_kernel k x) in
        if negb (e =? REDIS_OK) then ctx_fail (err r) (Some (errstr r)) E_other x1 else Some (REDIS_OK, x1)
      end
    end.

(** [int redisBufferWrite(redisContext *c, int *done)]: the result, and what
    [*done] becomes if it is set. *)
Definition redisBufferWrite (x : client) : option (Z * option bool * client) :=
  let done (x : client) := match obuf (ctx x) with Some b => Some (REDIS_OK, Some (sdslen b =? 0), x) | None => None end in
  let failed (r : option (Z * client)) := match r with Some (e, x) => Some (e, None, x) | None => None end in
  if negb (c_err (ctx x) =? 0) then Some (REDIS_ERR, None, x)
  else
    match obuf (ctx x) with
    | None => None
    | Some b =>
      if sdslen b >? 0 then
        match read_at 0 (sdslen b) (s_buf b) with
        | None => None
        | Some bs =>
          match sys_write bs (kern x) with
          | None => None
          | Some (W_error e, k) =>
            if try_again e (ctx x) then done (with_kernel k x) else failed (ctx_fail REDIS_ERR_IO None e (with_kernel k x))
          | Some (W_took n, k) =>
            let x1 := with_kernel k x in
            let n := to_int n in
            if n >? 0 then
              if n =? to_int (sdslen b) then
                match sdsempty junk true with Some b' => done (with_ctx (set_obuf b' (ctx x1)) x1) | None => None end
              else
                match sdsrange b n (-1) with Some b' => done (with_ctx (set_obuf (Some b') (ctx x1)) x1) | None => None end
            else done x1
          end
        end
      else done x
    end.

(** [int redisGetReplyFromReader(redisContext *c, void **reply)] *)
Definition redisGetReplyFromReader (x : client) : option (Z * option nat * client) :=
  match redisReaderGetReply (c_reader (ctx x)) (hp x) with
  | None => None
  | Some (e, p, r, h) =>
    let x1 := with_reader r h x in
    if e =? REDIS_ERR then
      match ctx_fail (err r) (Some (errstr r)) E_other x1 with Some (e', x2) => Some (e', None, x2) | None => None end
    else Some (REDIS_OK, p, x1)
  end.

(** The loop that writes until done, and the one that reads until there is a
    reply. *)
Fixpoint write_loop (fuel : nat) (x : client) : option (Z * client) :=
  match fuel with
  | O => None
  | S fuel' =>
    match redisBufferWrite x with
    | None => None
    | Some (e, done, x1) =>
      if e =? REDIS_ERR then Some (REDIS_ERR, x1)
      else if default false done then Some (REDIS_OK, x1) else write_loop fuel' x1
    end
  end.

Fixpoint read_loop (fuel : nat) (x : client) : option (Z * option nat * client) :=
  match fuel with
  | O => None
  | S fuel' =>
    match redisBufferRead x with
    | None => None
    | Some (e, x1) =>
      if e =? REDIS_ERR then Some (REDIS_ERR, None, x1)
      else
        match redisGetReplyFromReader x1 with
        | None => None
        | Some (e2, p, x2) =>
          if e2 =? REDIS_ERR then Some (REDIS_ERR, None, x2)
          else match p with Some _ => Some (REDIS_OK, p, x2) | None => read_loop fuel' x2 end
        end
    end
  end.

(** Every round takes an answer from the script, or bytes from one. *)
Definition read_fuel (k : kernel) : nat :=
  S (foldr (λ a n, match a with R_data l => S (length l) + n | R_failed _ => S n end)%nat O (reads k)).

(** [int redisGetReply(redisContext *c, void **reply)] *)
Definition redisGetReply (x : client) : option (Z * option nat * client) :=
  match redisGetReplyFromReader x with
  | None => None
  | Some (e, aux, x1) =>
    if e =? REDIS_ERR then Some (REDIS_ERR, None, x1)
    else
      match aux, c_block (ctx x1) with
      | None, true =>
        match write_loop (S (length (writes (kern x1)))) x1 with
        | None => None
        | Some (e2, x2) => if e2 =? REDIS_ERR then Some (REDIS_ERR, None, x2) else read_loop (read_fuel (kern x2)) x2
        end
      | _, _ => Some (REDIS_OK, aux, x1)
      end
  end.

(** ** Commands *)

(** [int __redisAppendCommand(redisContext *c, const char *cmd, size_t len)] *)
Definition redisAppendCommand_ (ok : bool) (cmd : list Z) (x : client) : option (Z * client) :=
  match obuf (ctx x) with
  | None => None
  | Some b =>
    match sdscatlen junk ok b cmd with
    | None => None
    | Some None => ctx_fail REDIS_ERR_OOM (Some (chars "Out of memory")) E_other x
    | Some (Some newbuf) => Some (REDIS_OK, with_ctx (set_obuf (Some newbuf) (ctx x)) x)
    end
  end.

(** [int redisAppendFormattedCommand(redisContext *c, const char *cmd, size_t len)] *)
Definition redisAppendFormattedCommand (ok : bool) (cmd : list Z) (x : client) : option (Z * client) :=
  match redisAppendCommand_ ok cmd x with
  | Some (e, x1) => if negb (e =? REDIS_OK) then Some (REDIS_ERR, x1) else Some (REDIS_OK, x1)
  | None => None
  end.

(** [int redisAppendCommandArgv(redisContext *c, int argc, const char **argv, const size_t *argvlen)] *)
Definition redisAppendCommandArgv (ok1 ok2 : bool) (argv : list (list Z)) (x : client) : option (Z * client) :=
  match redisFormatSdsCommandArgv junk ok1 true true argv with
  | None => None
  | Some (len, cmd) =>
    if len =? -1 then ctx_fail REDIS_ERR_OOM (Some (chars "Out of memory")) E_other x
    else
      match cmd ≫= λ c, read_at 0 len (s_buf c) with
      | None => None
      | Some bs =>
        match redisAppendCommand_ ok2 bs x with
        | Some (e, x1) => if negb (e =? REDIS_OK) then Some (REDIS_ERR, x1) else Some (REDIS_OK, x1)
        | None => None
        end
      end
  end.

(** [int redisvAppendCommand(redisContext *c, const char *format, va_list ap)] *)
Definition redisvAppendCommand (al : allocs) (ok : bool) (printf : list Z → list vararg → list Z) (format : list Z) (ap : list vararg)
    (x : client) : option (Z * client) :=
  match redisvFormatCommand junk al printf format ap with
  | None => None
  | Some (len, cmd) =>
    if len =? -1 then ctx_fail REDIS_ERR_OOM (Some (chars "Out of memory")) E_other x
    else if len =? -2 then ctx_fail REDIS_ERR_OTHER (Some (chars "Invalid format string")) E_other x
    else
      match cmd ≫= read_at 0 len with
      | None => None
      | Some bs =>
        match redisAppendCommand_ ok bs x with
        | Some (e, x1) => if negb (e =? REDIS_OK) then Some (REDIS_ERR, x1) else Some (REDIS_OK, x1)
        | None => None
        end
      end
  end.

(** [int redisAppendCommand(redisContext *c, const char *format, ...)] *)
Definition redisAppendCommand := redisvAppendCommand.

(** [static void *__redisBlockForReply(redisContext *c)]: the reply, or null. *)
Definition redisBlockForReply (x : client) : option (option nat * client) :=
  if c_block (ctx x) then
    match redisGetReply x with
    | Some (e, p, x1) => Some (if negb (e =? REDIS_OK) then None else p, x1)
    | None => None
    end
  else Some (None, x).

(** [void *redisvCommand(redisContext *c, const char *format, va_list ap)] *)
Definition redisvCommand (al : allocs) (ok : bool) (printf : list Z → list vararg → list Z) (format : list Z) (ap : list vararg)
    (x : client) : option (option nat * client) :=
  match redisvAppendCommand al ok printf format ap x with
  | Some (e, x1) => if negb (e =? REDIS_OK) then Some (None, x1) else redisBlockForReply x1
  | None => None
  end.

(** [void *redisCommand(redisContext *c, const char *format, ...)] *)
Definition redisCommand := redisvCommand.

(** [void *redisCommandArgv(redisContext *c, int argc, const char **argv, const size_t *argvlen)] *)
Definition redisCommandArgv (ok1 ok2 : bool) (argv : list (list Z)) (x : client) : option (option nat * client) :=
  match redisAppendCommandArgv ok1 ok2 argv x with
  | Some (e, x1) => if negb (e =? REDIS_OK) then Some (None, x1) else redisBlockForReply x1
  | None => None
  end.
End context.

(** [void redisFree(redisContext *c)]: what it leaves is the heap without the
    unfinished reply; the buffers have no other owner. *)
Definition redisFree (x : client) : option client :=
  match redisReaderFree (Some (c_reader (ctx x))) (hp x) with
  | Some h => Some (mk_client (ctx x) h (kern x))
  | None => None
  end.

(** ** New contexts *)

(** [redisContextInit] and the flag [REDIS_BLOCK]; Net.v has the rest of a
    connection. *)
Definition redisContextInit (junk : Z) (ok1 ok2 ok3 ok4 : bool) (block : bool) : option (option redisContext) :=
  if negb ok1 then Some None
  else
    match sdsempty junk ok2, redisReaderCreateWithFunctions junk ok3 ok4 (Some defaultFunctions) with
    | Some (Some b), Some (Some r) => Some (Some (mk_context 0 [] block (Some b) r))
    | Some _, Some _ => Some None
    | _, _ => None
    end.
