(* ===== verification/ContextProps.v ===== *)
(** * Properties of a connection

    The composition of the parts of hiredis: a command is laid out (Command.v),
    written in whatever pieces the kernel takes, the answer is read in whatever
    pieces it comes, fed to the reader and parsed (ReadRun.v), and what the
    caller gets is the reply the server has sent. *)

From Stdlib Require Ascii String.
From stdpp Require Import strings.
From S2P Require Import Prelude Sds SdsProps Numbers SdsFmt Read Reply Resp ReplyTree ReadRefine ReadRun ReadProps Command FormatCommand Context.
Local Open Scope Z_scope.

(** ** Scripts *)

(** The kernel takes [n] bytes, sooner or later. *)
Fixpoint drains (w : list write_result) (n : nat) : Prop :=
  match n, w with
  | O, _ => True
  | _, W_took k :: w' => drains w' (n - Z.to_nat k)
  | _, W_error EINTR :: w' => drains w' n
  | _, _ => False
  end.

(** It is interrupted at most. *)
Definition clean (rs : list read_result) : Prop :=
  Forall (λ a, match a with R_data l => l ≠ [] | R_failed e => e = EINTR end) rs.
Definition data_of (a : read_result) : list Z := match a with R_data l => l | R_failed _ => [] end.
Definition data (rs : list read_result) : list Z := concat (data_of <$> rs).

(** A context, blocking or not, with [bytes] to write and a reader at [st]. *)
Record conn_rel (blk : bool) (p : nat) (m : gmap nat redisReply) (st : pstate) (bytes : list Z) (x : client) : Prop := {
  cl_err : c_err (ctx x) = 0;
  cl_block : c_block (ctx x) = blk;
  cl_obuf : ∃ b, obuf (ctx x) = Some b ∧ sds_ok b ∧ content b = bytes;
  cl_reader : ready_rel p m st (c_reader (ctx x)) (hp x)
}.
Arguments cl_err {blk}.
Arguments cl_block {blk}.
Arguments cl_obuf {blk}.
Arguments cl_reader {blk}.
Abbreviation client_rel := (conn_rel true).

Section props.
Context (junk : Z) (strerror : errno → list Z).

(** ** Writing *)

Lemma write_nothing {blk} p m st x : conn_rel blk p m st [] x → redisBufferWrite junk strerror x = Some (REDIS_OK, Some true, x).
Proof.
  intros [He Hbl (b & Hob & Hb & Hc) Hr]. unfold redisBufferWrite. rewrite He, Hob. cbn [negb Z.eqb].
  pose proof (content_length b Hb) as Hl. rewrite Hc in Hl. unfold sdslen. rewrite <- Hl. done.
Qed.

Lemma client_rel_obuf {blk} p m st bytes x b k : conn_rel blk p m st bytes x → sds_ok b →
  conn_rel blk p m st (content b) (with_ctx (set_obuf (Some b) (ctx x)) (with_kernel k x)).
Proof. intros [He Hbl Hob Hr] Hb. split; try done. by exists b. Qed.

Lemma client_rel_kernel {blk} p m st bytes x k : conn_rel blk p m st bytes x → conn_rel blk p m st bytes (with_kernel k x).
Proof. by intros [He Hbl Hob Hr]. Qed.

(** One call of [write]. *)
Lemma write_some {blk} p m st bytes x a w :
  conn_rel blk p m st bytes x → bytes ≠ [] → Z.of_nat (length bytes) <= INT_MAX → writes (kern x) = a :: w →
  match a with
  | W_took n =>
    ∃ x', redisBufferWrite junk strerror x = Some (REDIS_OK, Some (Z.of_nat (length bytes) <=? n), x') ∧
      conn_rel blk p m st (drop (Z.to_nat n) bytes) x' ∧ kern x' = mk_kernel w (reads (kern x)) (sent (kern x) ++ take (Z.to_nat n) bytes)
  | W_error EINTR =>
    ∃ x', redisBufferWrite junk strerror x = Some (REDIS_OK, Some false, x') ∧
      conn_rel blk p m st bytes x' ∧ kern x' = mk_kernel w (reads (kern x)) (sent (kern x))
  | _ => True
  end.
Proof.
  intros Hcl Hne Hmax Hw. pose proof Hcl as [He Hbl (b & Hob & Hb & Hc) Hr]. pose proof (content_length b Hb) as Hl. rewrite Hc in Hl.
  assert (0 < length bytes)%nat by (destruct bytes; [done|simpl; lia]).
  assert (Hread : read_at 0 (sdslen b) (s_buf b) = Some bytes).
  { pose proof (so_block _ Hb). pose proof (so_len _ Hb). unfold sdslen. rewrite read_at_Some by lia.
    change (Z.to_nat 0) with O. rewrite drop_0. f_equal. exact Hc. }
  assert (Hgt : (sdslen b >? 0) = true) by (unfold sdslen; apply Z.gtb_lt; lia).
  unfold redisBufferWrite. rewrite He, Hob, Hgt. cbn [negb Z.eqb]. rewrite Hread. unfold sys_write. rewrite Hw. destruct a as [n|e].
  - set (mm := Z.min (Z.max 0 n) (Z.of_nat (length bytes))). unfold INT_MAX in *.
    rewrite to_int_id by (unfold in_int, INT_MIN, INT_MAX; lia). set (k := mk_kernel _ _ _).
    assert (Hk : k = mk_kernel w (reads (kern x)) (sent (kern x) ++ take (Z.to_nat n) bytes)).
    { unfold k. do 2 f_equal. destruct (decide (Z.of_nat (length bytes) <= n)).
      - rewrite !take_ge by lia. done.
      - f_equal. lia. }
    rewrite Z.gtb_ltb. destruct (Z.ltb_spec 0 mm) as [Hp|Hp].
    + rewrite to_int_id by (unfold in_int, INT_MIN, INT_MAX, sdslen; lia). unfold sdslen at 1. rewrite <- Hl.
      destruct (Z.eqb_spec mm (Z.of_nat (length bytes))) as [Hall|Hpart].
      * destruct (sdsnewlen_ok junk [] 0) as (b' & Hb' & Hok' & Hc' & _); [done|done|]. unfold sdsempty. rewrite Hb'.
        cbn [ctx with_ctx with_kernel obuf set_obuf]. rewrite take_nil in Hc'. pose proof (content_length b' Hok') as Hl'. rewrite Hc' in Hl'.
        unfold sdslen. rewrite <- Hl'. destruct (Z.leb_spec (Z.of_nat (length bytes)) n); [|lia].
        eexists. split; [done|]. rewrite drop_ge by lia. rewrite <- Hc'. split; [by eapply client_rel_obuf|done].
      * destruct (sdsrange_ok b mm (-1) Hb) as (b' & -> & Hok' & Hc'); [unfold INT_MAX; lia|unfold in_int, INT_MIN, INT_MAX; lia|done|].
        rewrite range_drop, Hc in Hc' by (rewrite Hc; lia). cbn [ctx with_ctx with_kernel obuf set_obuf].
        pose proof (content_length b' Hok') as Hl'. rewrite Hc', length_drop in Hl'. unfold sdslen.
        destruct (Z.eqb_spec (s_len b') 0); [lia|]. destruct (Z.leb_spec (Z.of_nat (length bytes)) n); [lia|].
        eexists. split; [done|]. replace (drop (Z.to_nat n) bytes) with (content b') by (rewrite Hc'; f_equal; lia).
        split; [by eapply client_rel_obuf|done].
    + cbn [ctx with_kernel]. rewrite Hob. unfold sdslen. rewrite <- Hl. destruct (Z.eqb_spec (Z.of_nat (length bytes)) 0); [lia|].
      destruct (Z.leb_spec (Z.of_nat (length bytes)) n); [lia|]. eexists. split; [done|].
      replace (Z.to_nat n) with O by lia. rewrite drop_0. split; [by apply client_rel_kernel|].
      cbn [kern with_kernel]. rewrite Hk. by replace (Z.to_nat n) with O by lia.
  - destruct e; try done. cbn [try_again ctx with_kernel]. rewrite Hob. unfold sdslen. rewrite <- Hl.
    destruct (Z.eqb_spec (Z.of_nat (length bytes)) 0); [lia|]. eexists. split; [done|]. split; [by apply client_rel_kernel|done].
Qed.

(** All of the buffer is written, in order. *)
Lemma write_loop_ok fuel : ∀ p m st bytes x,
  client_rel p m st bytes x → Z.of_nat (length bytes) <= INT_MAX → drains (writes (kern x)) (length bytes) → (length (writes (kern x)) < fuel)%nat →
  ∃ x', write_loop junk strerror fuel x = Some (REDIS_OK, x') ∧ client_rel p m st [] x' ∧
    reads (kern x') = reads (kern x) ∧ sent (kern x') = sent (kern x) ++ bytes.
Proof.
  induction fuel as [|fuel IH]; intros p m st bytes x Hcl Hmax Hd Hf; [lia|]. cbn [write_loop].
  destruct (decide (bytes = [])) as [->|Hne].
  { rewrite (write_nothing p m st x Hcl). exists x. by rewrite app_nil_r. }
  assert (Hlen : (0 < length bytes)%nat) by (destruct bytes; [done|simpl; lia]).
  destruct (writes (kern x)) as [|a w] eqn:Hw; [by destruct (length bytes); [lia|]|].
  pose proof (write_some p m st bytes x a w Hcl Hne Hmax Hw) as Hs. cbn [length] in Hf. destruct a as [n|e].
  - destruct Hs as (x1 & -> & Hcl1 & Hk1). change (REDIS_OK =? REDIS_ERR) with false. cbn iota.
    assert (Hd' : drains w (length (drop (Z.to_nat n) bytes))).
    { rewrite length_drop. by destruct (length bytes) as [|len]; [lia|]. }
    destruct (Z.leb_spec (Z.of_nat (length bytes)) n) as [Hle|Hle]; cbn [default from_option id].
    + exists x1. rewrite drop_ge in Hcl1 by lia. rewrite Hk1, take_ge by lia. done.
    + destruct (IH p m st (drop (Z.to_nat n) bytes) x1 Hcl1) as (x2 & -> & Hcl2 & Hr2 & Hs2);
        [rewrite length_drop; lia|by rewrite Hk1|rewrite Hk1; cbn [writes]; lia|].
      exists x2. split_and!; [done|done|by rewrite Hr2, Hk1|]. rewrite Hs2, Hk1. cbn [sent]. by rewrite <- app_assoc, take_drop.
  - destruct (decide (e = EINTR)) as [->|Hei]; [|by destruct (length bytes); [lia|]; destruct e].
    destruct Hs as (x1 & -> & Hcl1 & Hk1). change (REDIS_OK =? REDIS_ERR) with false. cbn [default from_option id].
    assert (Hd' : drains w (length bytes)) by (by destruct (length bytes) as [|len]; [lia|]).
    destruct (IH p m st bytes x1 Hcl1 Hmax) as (x2 & -> & Hcl2 & Hr2 & Hs2); [by rewrite Hk1|rewrite Hk1; cbn [writes]; lia|].
    exists x2. split_and!; [done|done|by rewrite Hr2, Hk1|by rewrite Hs2, Hk1].
Qed.

(** ** Reading *)

Lemma data_cons a rs : data (a :: rs) = data_of a ++ data rs.
Proof. done. Qed.

(** One call of [read]: of what it could not take, [pre] is left. *)
Lemma read_one {blk} p m st bytes x a rs :
  conn_rel blk p m st bytes x → reads (kern x) = a :: rs → clean [a] →
  1024 + Z.of_nat (length (rest st)) + Z.of_nat (length (data_of a)) <= INT_MAX →
  ∃ l pre x', redisBufferRead junk strerror x = Some (REDIS_OK, x') ∧ conn_rel blk p m (feed l st) bytes x' ∧
    reads (kern x') = pre ++ rs ∧ l ++ data pre = data_of a ∧ clean pre ∧ (read_fuel (kern x') < read_fuel (kern x))%nat ∧
    writes (kern x') = writes (kern x) ∧ sent (kern x') = sent (kern x).
Proof.
  intros Hcl Hrs Ha Hmax. pose proof Hcl as [He Hbl Hob Hr]. apply Forall_cons in Ha as [Ha _].
  unfold redisBufferRead. rewrite He. cbn [negb Z.eqb]. unfold sys_read. rewrite Hrs. destruct a as [l|e].
  - cbn [data_of] in *. set (q := take (Z.to_nat (1024 * 16)) l) in *.
    assert (Hq : q ≠ []) by (unfold q; destruct l as [|c l]; [done|]; by change (Z.to_nat (1024 * 16)) with (S (Z.to_nat (1024 * 16 - 1)))).
    assert (Hql : (0 < length q <= length l)%nat) by (split; [by destruct q; [|simpl; lia]|unfold q; rewrite length_take; lia]).
    assert (Hsplit : q ++ drop (Z.to_nat (1024 * 16)) l = l) by apply take_drop.
    set (d := drop (Z.to_nat (1024 * 16)) l) in *. set (k := mk_kernel _ _ _).
    destruct (feed_ok junk p m st _ _ q Hr) as (r' & Hfeed & Hr'); [lia|].
    exists q, (match d with [] => [] | _ => [R_data d] end), (with_reader r' (hp x) (with_kernel k x)).
    split; [clearbody q; destruct q as [|c q']; [done|]; by rewrite Hfeed|]. split; [by split|].
    cbn [kern with_reader with_kernel]. unfold k. cbn [reads writes sent].
    assert (Hlt : (length d < length l)%nat) by (rewrite <- Hsplit, length_app; lia). unfold read_fuel. rewrite Hrs. cbn [reads].
    clearbody d. destruct d as [|c d]; (split_and!; [done| |by repeat constructor|cbn [foldr]; lia|done|done]).
    + by rewrite app_nil_r in Hsplit |- *.
    + unfold data. cbn. by rewrite app_nil_r.
  - subst e. cbn [try_again]. exists [], [], (with_kernel (mk_kernel (writes (kern x)) rs (sent (kern x))) x).
    split; [done|]. rewrite feed_nil. split; [by apply client_rel_kernel|]. cbn [kern with_kernel reads writes sent]. split_and!; try done; [by constructor|].
    unfold read_fuel. rewrite Hrs. cbn [reads foldr]. lia.
Qed.

Lemma data_app rs1 rs2 : data (rs1 ++ rs2) = data rs1 ++ data rs2.
Proof. unfold data. by rewrite fmap_app, concat_app. Qed.

Lemma read_some p m st bytes x a rs :
  client_rel p m st bytes x → reads (kern x) = a :: rs → clean (a :: rs) →
  1024 + Z.of_nat (length (rest st)) + Z.of_nat (length (data (reads (kern x)))) <= INT_MAX →
  ∃ l x', redisBufferRead junk strerror x = Some (REDIS_OK, x') ∧ client_rel p m (feed l st) bytes x' ∧
    l ++ data (reads (kern x')) = data (reads (kern x)) ∧ clean (reads (kern x')) ∧ (read_fuel (kern x') < read_fuel (kern x))%nat ∧
    writes (kern x') = writes (kern x) ∧ sent (kern x') = sent (kern x).
Proof.
  intros Hcl Hrs Hcn Hmax. apply Forall_cons in Hcn as [Ha Hcn]. rewrite Hrs, data_cons, length_app in Hmax.
  destruct (read_one p m st bytes x a rs Hcl Hrs) as (l & pre & x' & Hr & Hcl' & Hrs' & Hd & Hpre & Hrest); [by constructor|lia|].
  exists l, x'. rewrite Hrs', data_app, app_assoc, Hd, Hrs. split_and!; try done; try apply Hrest. by apply Forall_app.
Qed.

Lemma client_reader {blk} p m st st' p' m' bytes x r h :
  conn_rel blk p m st bytes x → ready_rel p' m' st' r h → conn_rel blk p' m' st' bytes (with_reader r h x).
Proof. intros [He Hbl Hob Hr] Hr'. by split. Qed.

(** Asking the reader. *)
Lemma from_reader_ok {blk} p m st bytes x :
  conn_rel blk p m st bytes x →
  match parse st with
  | Some (R_more st') => ∃ x', redisGetReplyFromReader strerror x = Some (REDIS_OK, None, x') ∧ conn_rel blk p m st' bytes x' ∧ kern x' = kern x
  | Some (R_reply t l) =>
    ∃ x', redisGetReplyFromReader strerror x = Some (REDIS_OK, Some p, x') ∧ objs (hp x') = heap_map p (flat p t) m ∧ fits t ∧
      conn_rel blk (p + tsize t) (heap_map p (flat p t) m) (pstart l) bytes x' ∧ kern x' = kern x
  | Some (R_error e msg) =>
    ∃ x', redisGetReplyFromReader strerror x = Some (REDIS_ERR, None, x') ∧ c_err (ctx x') = e ∧ c_errstr (ctx x') = take 127 msg ∧
      failed_rel m e msg (c_reader (ctx x')) (hp x') ∧ kern x' = kern x ∧ c_block (ctx x') = blk ∧ obuf (ctx x') = obuf (ctx x)
  | None => False
  end.
Proof.
  intros Hcl. pose proof (getReply_ok _ _ _ _ _ (cl_reader _ _ _ _ _ Hcl)) as Hg. pose proof (parse_error st) as Hpe. unfold redisGetReplyFromReader.
  destruct (parse st) as [[st'|t l|e msg]|]; cbn [got] in Hg; [| | |done].
  - destruct Hg as (r & h & -> & Hr). eexists. split; [done|]. split; [by eapply client_reader|done].
  - destruct Hg as (r & h & -> & Ho & Hfit & Hr). eexists. split; [done|]. split_and!; [done|done|by eapply client_reader|done].
  - subst e. destruct Hg as (r & h & -> & Hf). change (REDIS_ERR =? REDIS_ERR) with true. cbn iota. unfold ctx_fail, redisSetError, set_error.
    eexists. split; [done|]. cbn [ctx with_ctx with_reader c_err c_errstr c_reader set_reader hp kern].
    rewrite (fr_err _ _ _ _ _ Hf), (fr_msg _ _ _ _ _ Hf), take_take. split_and!; try done. apply Hcl.
Qed.

(** What is read until there is a reply or an error. *)
Definition read_outcome (p : nat) (m : gmap nat redisReply) (bytes : list Z) (x : client) (res : option result)
    (out : option (Z * option nat * client)) : Prop :=
  match res with
  | Some (R_reply t l) =>
    ∃ x', out = Some (REDIS_OK, Some p, x') ∧ objs (hp x') = heap_map p (flat p t) m ∧ fits t ∧
      (∃ l', client_rel (p + tsize t) (heap_map p (flat p t) m) (pstart l') bytes x' ∧ l' ++ data (reads (kern x')) = l) ∧
      clean (reads (kern x')) ∧ writes (kern x') = writes (kern x) ∧ sent (kern x') = sent (kern x)
  | Some (R_error e msg) =>
    ∃ x', out = Some (REDIS_ERR, None, x') ∧ c_err (ctx x') = e ∧ c_errstr (ctx x') = take 127 msg ∧
      failed_rel m e msg (c_reader (ctx x')) (hp x') ∧ sent (kern x') = sent (kern x) ∧
      c_block (ctx x') = true ∧ ∃ b, obuf (ctx x') = Some b ∧ sds_ok b ∧ content b = bytes
  | _ => True
  end.

Lemma read_loop_ok fuel : ∀ p m st st0 bytes x,
  client_rel p m st bytes x → parse st = Some (R_more st0) → clean (reads (kern x)) →
  1024 + Z.of_nat (length (rest st)) + Z.of_nat (length (data (reads (kern x)))) <= INT_MAX → (read_fuel (kern x) <= fuel)%nat →
  read_outcome p m bytes x (parse (feed (data (reads (kern x))) st)) (read_loop junk strerror fuel x).
Proof.
  induction fuel as [|fuel IH]; intros p m st st0 bytes x Hcl Hmore Hcn Hmax Hf; [unfold read_fuel in Hf; lia|].
  destruct (reads (kern x)) as [|a rs] eqn:Hrs.
  { change (data []) with (@nil Z). by rewrite feed_nil, Hmore. }
  rewrite <- Hrs in Hmax |- *.
  destruct (read_some p m st bytes x a rs Hcl Hrs Hcn Hmax) as (l & x1 & Hbr & Hcl1 & Hdata & Hcn1 & Hf1 & Hw1 & Hs1).
  cbn [read_loop]. rewrite Hbr. change (REDIS_OK =? REDIS_ERR) with false. cbn iota.
  pose proof (from_reader_ok p m _ bytes x1 Hcl1) as Hg. pose proof (parse_feed (data (reads (kern x1))) (feed l st)) as Hpf.
  pose proof (parse_rest (feed l st)) as Hpr. rewrite feed_feed, Hdata in Hpf.
  pose proof (parse_feed [] (feed l st)) as Hpn. rewrite feed_nil in Hpn.
  destruct (parse (feed l st)) as [[st'|t l'|e msg]|] eqn:Hp; [| | |done].
  - destruct Hg as (x2 & -> & Hcl2 & Hk2). change (REDIS_OK =? REDIS_ERR) with false. cbn iota. rewrite Hpf, <- Hk2.
    assert (Hout : read_outcome p m bytes x2 (parse (feed (data (reads (kern x2))) st')) (read_loop junk strerror fuel x2)).
    { apply (IH p m st' st'); [done|by rewrite feed_nil in Hpn|by rewrite Hk2| |rewrite Hk2; lia].
      rewrite Hk2. cbn [feed rest] in Hpr. rewrite length_app in Hpr. rewrite <- Hdata, length_app in Hmax. lia. }
    unfold read_outcome in *. rewrite Hk2 in Hout |- *. destruct (parse (feed (data (reads (kern x1))) st')) as [[st2|t2 l2|e2 msg2]|]; try done.
    + by rewrite <- Hw1, <- Hs1.
    + by rewrite <- Hs1.
  - destruct Hg as (x2 & -> & Ho & Hfit & Hcl2 & Hk2). rewrite Hpf. change (REDIS_OK =? REDIS_ERR) with false. cbn iota.
    exists x2. rewrite Hk2. split_and!; try done. by exists l'.
  - destruct Hg as (x2 & -> & He & Hm & Hfl & Hk2 & Hb2 & Ho2). rewrite Hpf. exists x2. rewrite Hk2, Ho2. split_and!; try done. apply Hcl1.
Qed.

(** ** A command and its reply *)

Lemma blocking_reply_ok p m st st0 bytes x :
  client_rel p m st bytes x → parse st = Some (R_more st0) → drains (writes (kern x)) (length bytes) → Z.of_nat (length bytes) <= INT_MAX →
  clean (reads (kern x)) → 1024 + Z.of_nat (length (rest st)) + Z.of_nat (length (data (reads (kern x)))) <= INT_MAX →
  ∃ x1, sent (kern x1) = sent (kern x) ++ bytes ∧
    read_outcome p m [] x1 (parse (feed (data (reads (kern x))) st)) (redisGetReply junk strerror x).
Proof.
  intros Hcl Hmore Hd Hmax Hcn Hmr. unfold redisGetReply. pose proof (from_reader_ok p m st bytes x Hcl) as Hg.
  pose proof (parse_feed [] st) as Hpn. pose proof (parse_feed (data (reads (kern x))) st) as Hpf. pose proof (parse_rest st) as Hpr.
  rewrite feed_nil in Hpn. rewrite Hmore in Hg, Hpn, Hpf, Hpr. rewrite feed_nil in Hpn.
  destruct Hg as (x1 & -> & Hcl1 & Hk1). change (REDIS_OK =? REDIS_ERR) with false. cbn iota. rewrite (cl_block _ _ _ _ _ Hcl1).
  rewrite <- Hk1 in Hd, Hcn, Hmr. destruct (write_loop_ok (S (length (writes (kern x1)))) p m st0 bytes x1 Hcl1 Hmax Hd) as (x2 & -> & Hcl2 & Hr2 & Hs2); [lia|].
  change (REDIS_OK =? REDIS_ERR) with false. cbn iota. exists x2. rewrite Hs2, Hk1. split; [done|]. rewrite Hpf, <- Hk1, <- Hr2.
  apply (read_loop_ok (read_fuel (kern x2)) p m st0 st0); [done|by rewrite <- Hpn|by rewrite Hr2|rewrite Hr2; lia|done].
Qed.

Lemma append_ok p m st bytes x argv :
  client_rel p m st bytes x → Z.of_nat (length bytes) + Z.of_nat (length (encode (command argv))) < INT_MAX →
  ∃ x', redisAppendCommandArgv junk strerror true true argv x = Some (REDIS_OK, x') ∧
    client_rel p m st (bytes ++ encode (command argv)) x' ∧ kern x' = kern x.
Proof.
  intros Hcl Hmax. pose proof Hcl as [He Hbl (b & Hob & Hb & Hc) Hr]. unfold INT_MAX in *. unfold redisAppendCommandArgv.
  destruct (format_sds_ok junk argv) as (s & -> & Hs & Hcs); [unfold INT_MAX; lia|].
  destruct (Z.eqb_spec (Z.of_nat (length (encode (command argv)))) (-1)); [lia|]. cbn [mbind option_bind].
  pose proof (content_length s Hs) as Hls. pose proof (so_len _ Hs). pose proof (so_block _ Hs). rewrite Hcs in Hls.
  rewrite read_at_Some by lia. change (Z.to_nat 0) with O. rewrite drop_0, Hls. fold (content s). rewrite Hcs.
  unfold redisAppendCommand_. rewrite Hob. pose proof (content_length b Hb) as Hlb. rewrite Hc in Hlb.
  destruct (sdscatlen_ok junk b (encode (command argv)) Hb) as (b' & -> & Hb' & Hc'); [lia|].
  eexists. split; [done|]. split; [|done]. rewrite <- Hc, <- Hc'. change x with (with_kernel (kern x) x) at 2 || idtac.
  split; try done. by exists b'.
Qed.

Lemma command_outcome p m st0 st x argv :
  client_rel p m st [] x → parse st = Some (R_more st0) → Z.of_nat (length (encode (command argv))) < INT_MAX →
  drains (writes (kern x)) (length (encode (command argv))) → clean (reads (kern x)) →
  1024 + Z.of_nat (length (rest st)) + Z.of_nat (length (data (reads (kern x)))) <= INT_MAX →
  ∃ x1 out, sent (kern x1) = sent (kern x) ++ encode (command argv) ∧
    read_outcome p m [] x1 (parse (feed (data (reads (kern x))) st)) out ∧
    redisCommandArgv junk strerror true true argv x =
      match out with Some (e, r, x') => Some (if negb (e =? REDIS_OK) then None else r, x') | None => None end.
Proof.
  intros Hcl Hmore Hlen Hd Hcn Hmax. destruct (append_ok p m st [] x argv Hcl) as (x0 & Ha & Hcl0 & Hk0); [cbn [length]; lia|]. cbn [app] in Hcl0.
  rewrite <- Hk0 in Hd, Hcn, Hmax. destruct (blocking_reply_ok p m st st0 _ x0 Hcl0 Hmore Hd) as (x1 & Hs1 & Hout); [unfold INT_MAX in *; lia|done|done|].
  exists x1, (redisGetReply junk strerror x0). rewrite <- Hk0. split_and!; [done|done|]. unfold redisCommandArgv. rewrite Ha.
  change (negb (REDIS_OK =? REDIS_OK)) with false. cbn iota. unfold redisBlockForReply. by rewrite (cl_block _ _ _ _ _ Hcl0).
Qed.

Lemma command_reply p m x argv t :
  client_rel p m (pstart []) [] x → Z.of_nat (length (encode (command argv))) < INT_MAX → valid 0 t →
  drains (writes (kern x)) (length (encode (command argv))) → clean (reads (kern x)) →
  data (reads (kern x)) = encode t → 1024 + Z.of_nat (length (encode t)) <= INT_MAX →
  ∃ x', redisCommandArgv junk strerror true true argv x = Some (Some p, x') ∧ objs (hp x') = heap_map p (flat p t) m ∧ fits t ∧
    client_rel (p + tsize t) (heap_map p (flat p t) m) (pstart []) [] x' ∧ sent (kern x') = sent (kern x) ++ encode (command argv).
Proof.
  intros Hcl Hlen Hv Hd Hcn Hdata Hmax.
  destruct (command_outcome p m (pstart []) (pstart []) x argv Hcl) as (x1 & out & Hs1 & Hout & Hcmd); [done|done|done|done|rewrite Hdata; cbn [pstart rest length]; lia|].
  rewrite Hdata in Hout. change (feed (encode t) (pstart [])) with (pstart (encode t)) in Hout.
  pose proof (parse_reply t [] Hv) as Hp. rewrite app_nil_r in Hp. rewrite Hp in Hout. cbn [read_outcome] in Hout.
  destruct Hout as (x' & -> & Ho & Hfit & (l' & Hcl' & Hl') & _ & _ & Hs). apply app_eq_nil in Hl' as [-> _].
  exists x'. rewrite Hcmd. split_and!; try done. by rewrite Hs, Hs1.
Qed.

(** ** The end of the stream *)

(** The server closes the connection before the reply is complete. *)
Lemma read_loop_eof fuel : ∀ p m st st0 st1 bytes x rs more,
  client_rel p m st bytes x → parse st = Some (R_more st0) → reads (kern x) = rs ++ R_data [] :: more → clean rs →
  1024 + Z.of_nat (length (rest st)) + Z.of_nat (length (data rs)) <= INT_MAX → (read_fuel (kern x) <= fuel)%nat →
  parse (feed (data rs) st) = Some (R_more st1) →
  ∃ x', read_loop junk strerror fuel x = Some (REDIS_ERR, None, x') ∧ c_err (ctx x') = REDIS_ERR_EOF ∧
    c_errstr (ctx x') = chars "Server closed the connection" ∧ sent (kern x') = sent (kern x).
Proof.
  induction fuel as [|fuel IH]; intros p m st st0 st1 bytes x rs more Hcl Hmore Hrs Hcn Hmax Hf Hend; [unfold read_fuel in Hf; lia|].
  destruct rs as [|a rs].
  { cbn [read_loop]. unfold redisBufferRead, sys_read. rewrite (cl_err _ _ _ _ _ Hcl), Hrs. cbn [app]. by eexists. }
  cbn [app] in Hrs. apply Forall_cons in Hcn as [Ha Hcn]. rewrite data_cons in *. rewrite length_app in Hmax.
  destruct (read_one p m st bytes x a (rs ++ R_data [] :: more) Hcl Hrs) as (l & pre & x1 & Hbr & Hcl1 & Hr1 & Hd & Hpre & Hf1 & _ & Hs1);
    [by constructor|lia|].
  cbn [read_loop]. rewrite Hbr. change (REDIS_OK =? REDIS_ERR) with false. cbn iota.
  pose proof (from_reader_ok p m _ bytes x1 Hcl1) as Hg. pose proof (parse_feed (data pre ++ data rs) (feed l st)) as Hpf.
  rewrite feed_feed, app_assoc, Hd, Hend in Hpf. pose proof (parse_rest (feed l st)) as Hpr.
  pose proof (parse_feed [] (feed l st)) as Hpn. rewrite feed_nil in Hpn.
  destruct (parse (feed l st)) as [[st'|t l'|e msg]|] eqn:Hp; [|done|done|done].
  destruct Hg as (x2 & -> & Hcl2 & Hk2). change (REDIS_OK =? REDIS_ERR) with false. cbn iota. rewrite <- Hs1, <- Hk2.
  apply (IH p m st' st' st1 bytes x2 (pre ++ rs) more); [done|by rewrite feed_nil in Hpn|by rewrite Hk2, Hr1, <- app_assoc|by apply Forall_app| | |].
  - rewrite data_app, length_app. cbn [feed rest] in Hpr. rewrite length_app in Hpr.
    assert (length (data_of a) = length l + length (data pre))%nat by (rewrite <- Hd; apply length_app). lia.
  - rewrite Hk2. lia.
  - by rewrite data_app.
Qed.

(** ** After an error *)

(** A context whose reader has failed does not use the kernel any more: a command
    is appended to the buffer, and the caller gets a null pointer. *)
Lemma failed_context m msg argv x b :
  failed_rel m REDIS_ERR_PROTOCOL msg (c_reader (ctx x)) (hp x) → c_block (ctx x) = true → obuf (ctx x) = Some b → sds_ok b →
  Z.of_nat (length (content b)) + Z.of_nat (length (encode (command argv))) < INT_MAX →
  ∃ x', redisCommandArgv junk strerror true true argv x = Some (None, x') ∧ kern x' = kern x ∧ hp x' = hp x ∧
    c_err (ctx x') = REDIS_ERR_PROTOCOL ∧ c_errstr (ctx x') = take 127 msg.
Proof.
  intros Hf Hbl Hob Hb Hmax. unfold INT_MAX in *. unfold redisCommandArgv, redisAppendCommandArgv.
  destruct (format_sds_ok junk argv) as (s & -> & Hs & Hcs); [unfold INT_MAX; lia|].
  destruct (Z.eqb_spec (Z.of_nat (length (encode (command argv)))) (-1)); [lia|]. cbn [mbind option_bind].
  pose proof (content_length s Hs) as Hls. pose proof (so_len _ Hs). pose proof (so_block _ Hs). rewrite Hcs in Hls.
  rewrite read_at_Some by lia. unfold redisAppendCommand_. rewrite Hob. change (Z.to_nat 0) with O. rewrite drop_0, Hls. fold (content s). rewrite Hcs.
  pose proof (content_length b Hb). destruct (sdscatlen_ok junk b (encode (command argv)) Hb) as (b' & -> & Hb' & Hc'); [lia|].
  change (negb (REDIS_OK =? REDIS_OK)) with false. cbn iota. unfold redisBlockForReply. cbn [ctx with_ctx set_obuf c_block]. rewrite Hbl.
  unfold redisGetReply, redisGetReplyFromReader. cbn [ctx with_ctx set_obuf c_reader hp].
  destruct (failed_stays _ _ _ _ _ junk true true None Hf) as [-> _]; [done|]. change (REDIS_ERR =? REDIS_ERR) with true. cbn iota.
  unfold ctx_fail, redisSetError, set_error. change (negb (REDIS_ERR =? REDIS_OK)) with true. eexists. split; [done|].
  cbn [kern hp ctx with_ctx with_reader c_err c_errstr]. rewrite (fr_err _ _ _ _ _ Hf), (fr_msg _ _ _ _ _ Hf), take_take. done.
Qed.
End props.

(** ** Exchanges over one connection *)

(** A command, how the kernel takes it and what it delivers, and the reply the
    server sends. *)
Record exchange := mk_exchange { x_argv : list (list Z); x_writes : list write_result; x_reads : list read_result; x_reply : tree }.

Definition exchange_ok (e : exchange) : Prop :=
  Z.of_nat (length (encode (command (x_argv e)))) < INT_MAX ∧ drains (x_writes e) (length (encode (command (x_argv e)))) ∧
  clean (x_reads e) ∧ data (x_reads e) = encode (x_reply e) ∧ valid 0 (x_reply e) ∧ 1024 + Z.of_nat (length (encode (x_reply e))) <= INT_MAX.

(** The commands one after the other; the replies are read from the heap. *)
Fixpoint exchanges (junk : Z) (strerror : errno → list Z) (es : list exchange) (x : client) : option (list (option tree) * client) :=
  match es with
  | [] => Some ([], x)
  | e :: es' =>
    match redisCommandArgv junk strerror true true (x_argv e) (with_kernel (mk_kernel (x_writes e) (x_reads e) (sent (kern x))) x) with
    | None => None
    | Some (r, x1) =>
      match exchanges junk strerror es' x1 with
      | Some (l, x2) => Some ((r ≫= tree_at (S (size (objs (hp x1)))) (objs (hp x1))) :: l, x2)
      | None => None
      end
    end
  end.

Lemma exchanges_ok junk strerror es : ∀ p m x, Forall exchange_ok es → client_rel p m (pstart []) [] x →
  ∃ x', exchanges junk strerror es x = Some (Some <$> (x_reply <$> es), x') ∧
    sent (kern x') = sent (kern x) ++ concat ((λ e, encode (command (x_argv e))) <$> es) ∧ c_err (ctx x') = 0 ∧
    objs (hp x') = (stored (x_reply <$> es) p (objs (hp x))).2.
Proof.
  induction es as [|e es IH]; intros p m x Hok Hcl.
  { exists x. cbn. rewrite app_nil_r. split_and!; try done. apply Hcl. }
  apply Forall_cons in Hok as [(H1 & H2 & H3 & H4 & H5 & H6) Hok]. cbn [exchanges].
  set (x0 := with_kernel _ x). assert (Hcl0 : client_rel p m (pstart []) [] x0) by (by destruct Hcl; split).
  assert (Hm : m = objs (hp x)).
  { destruct (cl_reader _ _ _ _ _ Hcl) as [[[Hir _]|(l & _ & Hid)] _]; [|symmetry; apply Hid].
    destruct (ir_heap _ _ _ _ _ _ _ Hir) as (-> & _). symmetry. apply map_empty_union. }
  destruct (command_reply junk strerror p m x0 (x_argv e) (x_reply e) Hcl0) as (x1 & -> & Ho & Hfit & Hcl1 & Hs1); try done.
  destruct (IH _ _ x1 Hok Hcl1) as (x2 & -> & Hs2 & He2 & Ho2). exists x2. cbn [mbind option_bind]. pose proof (heap_map_size p (x_reply e) m).
  rewrite Ho, read_tree; [|done|lia|intros i o Hi; rewrite heap_map_lookup; [done|by eapply lookup_lt_Some]].
  split_and!; [done| |done|].
  - rewrite Hs2, Hs1. rewrite fmap_cons. cbn [concat]. by rewrite <- app_assoc.
  - rewrite Ho2, Ho, Hm. done.
Qed.

Lemma context_init_ok junk p m k block :
  below p m → ∃ c, redisContextInit junk true true true true block = Some (Some c) ∧ c_block c = block ∧ c_err c = 0 ∧
    (∃ b, obuf c = Some b ∧ sds_ok b ∧ content b = []) ∧ ready_rel p m (pstart []) (c_reader c) (hp (mk_client c (mk_heap m p []) k)).
Proof.
  intros Hb. unfold redisContextInit. cbn [negb]. destruct (sdsnewlen_ok junk [] 0) as (b & Hsb & Hok & Hc & _); [done|done|].
  unfold sdsempty. rewrite Hsb. destruct (create_reader_ok junk p m Hb) as (r & -> & Hr). eexists. split; [done|]. cbn [c_block c_err obuf c_reader hp].
  split_and!; [done|done|by exists b|done].
Qed.

(** Freeing the reader frees what it has made of a reply. *)
Lemma reader_free_ok p m st r h : ready_rel p m st r h →
  ∃ h', redisReaderFree (Some r) h = Some h' ∧ objs h' = m ∧ below (next h') m ∧ mem h' = [].
Proof.
  intros [[[[He Hfn Hb Hst (Ho & Hn & Hm & Hbl) Hre Hff] _]|(l & _ & Hid)] _]; unfold redisReaderFree.
  - destruct (pflat_length p (frames st)) as [_ Hle]. assert (Hb' : below (next h) m) by (intros a Ha; specialize (Hbl a Ha); lia).
    rewrite Hre, Hfn. unfold partial_reply. destruct (frames st) as [|[n d] fs].
    + exists h. split_and!; [done| |done|done]. rewrite Ho. unfold pflat, heap_map. simpl. apply map_empty_union.
    + cbn [mbind option_bind freeObject defaultFunctions].
      destruct (free_reply (close_with (T_array n d) fs) p m h Hff Hbl Ho) as (h' & Hh' & Hobj & Hn' & Hm'). rewrite Hh'.
      exists h'. split_and!; [done|done|by rewrite Hn'|by rewrite Hm'].
  - rewrite (id_reply _ _ _ _ _ Hid). destruct (id_heap _ _ _ _ _ Hid) as (Ho & Hn & Hm & Hbl). exists h. split_and!; [done|done|by rewrite Hn|done].
Qed.

Lemma redis_free_ok p m st x : ready_rel p m st (c_reader (ctx x)) (hp x) →
  ∃ x', redisFree x = Some x' ∧ ctx x' = ctx x ∧ kern x' = kern x ∧ objs (hp x') = m ∧ below (next (hp x')) m ∧ mem (hp x') = [].
Proof. intros Hr. destruct (reader_free_ok _ _ _ _ _ Hr) as (h' & Hh & Ho & Hb & Hm). unfold redisFree. rewrite Hh. by eexists. Qed.

(** ** The properties *)

(** Sending a command made from a format is sending its arguments: whatever the
    state of the connection is, both functions do the same to it, to the heap and
    to the kernel, and have the same result. *)
Theorem formatted_command_same junk strerror printf ps ok x :
  (∀ f v ap, printf f (v :: ap) = printf f [v]) → (∀ f ap, Z.of_nat (length (printf f ap)) <= INT_MAX) →
  Forall piece_ok ps → Z.of_nat (length (encode (command (arguments printf ps)))) < INT_MAX →
  redisvCommand junk strerror all_good ok printf (format_of ps) (args_of ps) x =
    redisCommandArgv junk strerror true ok (arguments printf ps) x.
Proof.
  intros Hfirst Hlen Hps Hm. set (cmd := encode (command (arguments printf ps))) in *. unfold redisvCommand, redisvAppendCommand, redisCommandArgv, redisAppendCommandArgv.
  rewrite (format_ok junk printf Hfirst Hlen ps Hps Hm). fold cmd. destruct (format_sds_ok junk (arguments printf ps) Hm) as (s & -> & Hs & Hc). fold cmd in Hc |- *.
  destruct (Z.eqb_spec (Z.of_nat (length cmd)) (-1)); [lia|]. destruct (Z.eqb_spec (Z.of_nat (length cmd)) (-2)); [lia|].
  cbn [mbind option_bind]. pose proof (content_length s Hs) as Hl. rewrite Hc in Hl. pose proof (so_len _ Hs). pose proof (so_block _ Hs).
  rewrite !read_at_Some by (rewrite ?length_app; lia). change (Z.to_nat 0) with O. rewrite !drop_0, Nat2Z.id, take_app_length.
  replace (take (length cmd) (s_buf s)) with cmd; [done|]. rewrite <- Hc at 1. unfold content. f_equal. lia.
Qed.


(** An answer that is not a reply.  The caller gets a null pointer, the context
    says what was wrong, nothing of the answer is left on the heap, and from
    then on the connection is not used: later commands get null pointers. *)
Theorem protocol_error_ends_connection junk strerror p m w rs argv e msg :
  below p m → Z.of_nat (length (encode (command argv))) < INT_MAX → drains w (length (encode (command argv))) → clean rs →
  1024 + Z.of_nat (length (data rs)) <= INT_MAX → parse (pstart (data rs)) = Some (R_error e msg) →
  ∃ c x, redisContextInit junk true true true true true = Some (Some c) ∧
    redisCommandArgv junk strerror true true argv (mk_client c (mk_heap m p []) (mk_kernel w rs [])) = Some (None, x) ∧
    c_err (ctx x) = REDIS_ERR_PROTOCOL ∧ c_errstr (ctx x) = take 127 msg ∧ objs (hp x) = m ∧ sent (kern x) = encode (command argv) ∧
    ∀ argv' k, Z.of_nat (length (encode (command argv'))) < INT_MAX →
      ∃ x', redisCommandArgv junk strerror true true argv' (with_kernel k x) = Some (None, x') ∧ kern x' = k ∧ objs (hp x') = m ∧
        c_err (ctx x') = REDIS_ERR_PROTOCOL.
Proof.
  intros Hb Hlen Hd Hcn Hmax Hp. destruct (context_init_ok junk p m (mk_kernel w rs []) true Hb) as (c & Hc & Hbl & He & Hob & Hr).
  set (x0 := mk_client c (mk_heap m p []) (mk_kernel w rs [])). assert (Hcl : client_rel p m (pstart []) [] x0) by (by split).
  pose proof (parse_error (pstart (data rs))) as Hpe. rewrite Hp in Hpe. subst e.
  destruct (command_outcome junk strerror p m (pstart []) (pstart []) x0 argv Hcl) as (x1 & out & Hs1 & Hout & Hcmd); try done.
  change (feed (data (reads (kern x0))) (pstart [])) with (pstart (data rs)) in Hout. rewrite Hp in Hout. cbn [read_outcome] in Hout.
  destruct Hout as (x & -> & Hex & Hmx & Hf & Hsx & Hblx & (b & Hbx & Hbok & Hbc)). exists c, x. fold x0. rewrite Hcmd.
  split_and!; [done|done|done|done|apply Hf|by rewrite Hsx, Hs1|]. intros argv' k Hlen'.
  destruct (failed_context junk strerror m msg argv' (with_kernel k x) b Hf) as (x' & Hc' & Hk' & Hh' & He' & _); [done|done|done|by rewrite Hbc|].
  exists x'. split_and!; [done|done| |done]. rewrite Hh'. apply Hf.
Qed.

(** A server that goes away.  When the stream ends before the reply is complete
    the caller gets a null pointer and the context says that the connection was
    closed; the command had been sent. *)
Theorem closed_connection_is_reported junk strerror p m w rs more argv st :
  below p m → Z.of_nat (length (encode (command argv))) < INT_MAX → drains w (length (encode (command argv))) → clean rs →
  1024 + Z.of_nat (length (data rs)) <= INT_MAX → parse (pstart (data rs)) = Some (R_more st) →
  ∃ c x, redisContextInit junk true true true true true = Some (Some c) ∧
    redisCommandArgv junk strerror true true argv (mk_client c (mk_heap m p []) (mk_kernel w (rs ++ R_data [] :: more) [])) = Some (None, x) ∧
    c_err (ctx x) = REDIS_ERR_EOF ∧ c_errstr (ctx x) = chars "Server closed the connection" ∧ sent (kern x) = encode (command argv).
Proof.
  intros Hb Hlen Hd Hcn Hmax Hp. destruct (context_init_ok junk p m (mk_kernel w (rs ++ R_data [] :: more) []) true Hb) as (c & Hc & Hbl & He & Hob & Hr).
  set (x0 := mk_client c (mk_heap m p []) (mk_kernel w (rs ++ R_data [] :: more) [])). assert (Hcl : client_rel p m (pstart []) [] x0) by (by split).
  destruct (append_ok junk strerror p m (pstart []) [] x0 argv Hcl) as (x1 & Ha & Hcl1 & Hk1); [cbn [length]; lia|]. cbn [app] in Hcl1.
  exists c. fold x0. unfold redisCommandArgv. rewrite Ha. change (negb (REDIS_OK =? REDIS_OK)) with false. cbn iota.
  unfold redisBlockForReply. rewrite (cl_block _ _ _ _ _ Hcl1). unfold redisGetReply.
  pose proof (from_reader_ok strerror p m (pstart []) _ x1 Hcl1) as Hg. change (parse (pstart [])) with (Some (R_more (pstart []))) in Hg.
  destruct Hg as (x2 & -> & Hcl2 & Hk2). change (REDIS_OK =? REDIS_ERR) with false. cbn iota. rewrite (cl_block _ _ _ _ _ Hcl2).
  assert (Hk : kern x2 = mk_kernel w (rs ++ R_data [] :: more) []) by (by rewrite Hk2, Hk1).
  destruct (write_loop_ok junk strerror (S (length (writes (kern x2)))) p m _ _ x2 Hcl2) as (x3 & -> & Hcl3 & Hr3 & Hs3); [lia|by rewrite Hk|lia|].
  change (REDIS_OK =? REDIS_ERR) with false. cbn iota.
  destruct (read_loop_eof junk strerror (read_fuel (kern x3)) p m (pstart []) (pstart []) st [] x3 rs more Hcl3) as (x & -> & Hex & Hmx & Hsx);
    [done|by rewrite Hr3, Hk|done|cbn [pstart rest length]; lia|done|done|].
  exists x. split_and!; try done. by rewrite Hsx, Hs3, Hk.
Qed.

(** ** At concrete inputs *)

(** The bytes in pieces of [n], with an interruption before each. *)
Fixpoint cut (fuel n : nat) (l : list Z) : list read_result :=
  match fuel, l with
  | S fuel', _ :: _ => R_failed EINTR :: R_data (take n l) :: cut fuel' n (drop n l)
  | _, _ => []
  end.

Lemma clean_cut fuel n l : (0 < n)%nat → clean (cut fuel n l).
Proof.
  intros Hn. revert l. induction fuel as [|fuel IH]; intros l; [by constructor|]. cbn [cut]. destruct l as [|c l]; [by constructor|].
  destruct n as [|n]; [lia|]. constructor; [done|]. constructor; [done|]. apply IH.
Qed.

Definition example_exchanges : list exchange :=
  [mk_exchange [chars "GET"; chars "k"] [W_took 5; W_error EINTR; W_took 0; W_took 1000]
     (cut 40 3 (encode (T_array 2 [T_integer 5; T_nil]))) (T_array 2 [T_integer 5; T_nil]);
   mk_exchange [chars "PING"] [W_took 1000] [R_data (encode (T_string REDIS_REPLY_STATUS (chars "PONG")))]
     (T_string REDIS_REPLY_STATUS (chars "PONG"))].

Lemma empty_below : below 0 ∅.
Proof. intros a [o Ho]. by rewrite lookup_empty in Ho. Qed.


Definition fresh_client (block : bool) (k : kernel) : option client :=
  match redisContextInit 170 true true true true block with
  | Some (Some c) => Some (mk_client c (mk_heap ∅ 0 []) k)
  | _ => None
  end.

Lemma formatted_command_same_witness :
  (fresh_client true (mk_kernel [W_took 100] [R_data (chars "+" ++ CRLF)] []) ≫=
    redisvCommand 170 (λ _, []) all_good true print_int (chars "GET %s" ++ [0]) [V_chars [107; 32; 0]]) =
  (fresh_client true (mk_kernel [W_took 100] [R_data (chars "+" ++ CRLF)] []) ≫=
    redisCommandArgv 170 (λ _, []) true true [chars "GET"; [107; 32]]).
Proof.
  destruct (fresh_client _ _) as [x|] eqn:Hx; [|by vm_compute in Hx]. cbn [mbind option_bind]. clear Hx.
  set (ps := (P_char <$> chars "GET ") ++ [P_string [107; 32; 0]]).
  replace (chars "GET %s" ++ [0]) with (format_of ps) by done. replace [V_chars [107; 32; 0]] with (args_of ps) by done.
  replace [chars "GET"; [107; 32]] with (arguments print_int ps) by done.
  apply (formatted_command_same 170 (λ _, []) print_int ps true x print_int_first print_int_length); [|by vm_compute].
  apply Forall_app. split; [by apply chars_ok|]. constructor; [by eexists|by constructor].
Defined.

Lemma protocol_error_ends_connection_witness :
  ∃ c x, redisContextInit 170 true true true true true = Some (Some c) ∧
    redisCommandArgv 170 (λ _, []) true true [chars "GET"] (mk_client c (mk_heap ∅ 0 []) (mk_kernel [W_took 1000] [R_data (chars "HTTP")] []))
      = Some (None, x) ∧ c_err (ctx x) = REDIS_ERR_PROTOCOL.
Proof.
  destruct (protocol_error_ends_connection 170 (λ _, []) 0 ∅ [W_took 1000] [R_data (chars "HTTP")] [chars "GET"]
    REDIS_ERR_PROTOCOL (error_byte_message 72) empty_below) as (c & x & Hc & Hx & He & _);
    [by vm_compute|by vm_compute|by repeat constructor|by vm_compute|by vm_compute|].
  exists c, x. split_and!; [exact Hc|exact Hx|exact He].
Defined.

Lemma closed_connection_is_reported_witness :
  ∃ c x, redisContextInit 170 true true true true true = Some (Some c) ∧
    redisCommandArgv 170 (λ _, []) true true [chars "GET"]
      (mk_client c (mk_heap ∅ 0 []) (mk_kernel [W_took 1000] ([R_data (chars "$5")] ++ [R_data []]) [])) = Some (None, x) ∧
    c_err (ctx x) = REDIS_ERR_EOF.
Proof.
  destruct (closed_connection_is_reported 170 (λ _, []) 0 ∅ [W_took 1000] [R_data (chars "$5")] [] [chars "GET"]
    (mk_pstate [] REDIS_REPLY_STRING (chars "5")) empty_below) as (c & x & Hc & Hx & He & _);
    [by vm_compute|by vm_compute|by repeat constructor|by vm_compute|by vm_compute|].
  exists c, x. split_and!; [exact Hc|exact Hx|exact He].
Defined.
