(* ===== verification/Net.v ===== *)
(** * vendors/hiredis/net.c: getting a connected socket

    The kernel is a record of answers, one function per system call, asked with
    the number of calls made so far; it keeps the table of open descriptors, with
    the mode of each.  A new descriptor is the lowest one that is free.  A
    connection is the client of Context.v with its descriptor and what it needs
    to connect again.  [None] is an overflow of a [long]. *)

From Stdlib Require Ascii String.
From stdpp Require Import strings gmap.
From S2P Require Import Prelude Sds Numbers Read Reply Resp Context.
Local Open Scope Z_scope.

(** ** The kernel *)

Inductive family := AF_INET | AF_INET6 | AF_UNIX.
Inductive poll_answer := P_failed (e : errno) | P_timeout | P_ready.

(** [getsockopt(SO_ERROR)]: no error of the socket, its error, or a failure of
    the call. *)
Inductive sock_state := S_ok | S_error (e : errno) | S_failed (e : errno).

(** Whether a call fails; what [getaddrinfo] finds, or its error. *)
Record machine := mk_machine {
  sys_socket : nat → option errno;
  sys_fcntl : nat → option errno;
  sys_setsockopt : nat → option errno;
  sys_bind : nat → Z → option errno;
  sys_connect : nat → Z → option errno;
  sys_poll : nat → Z → poll_answer;
  sys_getsockopt : nat → sock_state;
  getaddrinfo : nat → family → option (list Z) → option (list Z) → Z + list Z
}.

(** The open descriptors, with [O_NONBLOCK]; [errno]; the number of calls; the
    descriptors that were closed although they were not open. *)
Record os := mk_os { o_open : gmap Z bool; o_errno : errno; o_time : nat; o_bad : list Z }.

Definition tick (o : os) : os := mk_os (o_open o) (o_errno o) (S (o_time o)) (o_bad o).

(** A call: whether it failed. *)
Definition syscall (r : option errno) (o : os) : bool * os :=
  match r with
  | None => (false, tick o)
  | Some e => (true, mk_os (o_open o) e (S (o_time o)) (o_bad o))
  end.

Definition new_fd (m : gmap Z bool) : Z := default 0 (head (filter (λ i, m !! i = None) (seqZ 0 (Z.of_nat (base.size m) + 1)))).

(** [close(fd)] *)
Definition sys_close (fd : Z) (o : os) : os :=
  match o_open o !! fd with
  | Some _ => mk_os (delete fd (o_open o)) (o_errno o) (S (o_time o)) (o_bad o)
  | None => mk_os (o_open o) E_other (S (o_time o)) (o_bad o ++ [fd])
  end.

(** ** A connection *)

Inductive conn_type := CONN_TCP | CONN_UNIX.

(** [redisContext]; [timeout] has seconds and microseconds. *)
Record conn := mk_conn {
  cl : client;
  fd : Z;
  connected : bool;
  reuseaddr : bool;
  connection_type : conn_type;
  timeout : option (Z * Z);
  host : option (list Z);
  source_addr : option (list Z);
  port : Z;
  upath : option (list Z)
}.

Record net := mk_net { nc : conn; no : os }.

Definition with_cl c x := mk_conn c (fd x) (connected x) (reuseaddr x) (connection_type x) (timeout x) (host x) (source_addr x) (port x) (upath x).
Definition with_fd d x := mk_conn (cl x) d (connected x) (reuseaddr x) (connection_type x) (timeout x) (host x) (source_addr x) (port x) (upath x).
Definition mark_connected x := mk_conn (cl x) (fd x) true (reuseaddr x) (connection_type x) (timeout x) (host x) (source_addr x) (port x) (upath x).
Definition set_reuseaddr x := mk_conn (cl x) (fd x) (connected x) true (connection_type x) (timeout x) (host x) (source_addr x) (port x) (upath x).
Definition set_tcp h p x := mk_conn (cl x) (fd x) (connected x) (reuseaddr x) CONN_TCP (timeout x) h (source_addr x) p (upath x).
Definition set_unix p x := mk_conn (cl x) (fd x) (connected x) (reuseaddr x) CONN_UNIX (timeout x) (host x) (source_addr x) (port x) p.
Definition set_timeout t x := mk_conn (cl x) (fd x) (connected x) (reuseaddr x) (connection_type x) t (host x) (source_addr x) (port x) (upath x).
Definition set_source s x := mk_conn (cl x) (fd x) (connected x) (reuseaddr x) (connection_type x) (timeout x) (host x) s (port x) (upath x).

Definition on_conn (f : conn → conn) (n : net) : net := mk_net (f (nc n)) (no n).
Definition on_os (f : os → os) (n : net) : net := mk_net (nc n) (f (no n)).

(** The context's error. *)
Definition net_error (type : Z) (s : list Z) (n : net) : net :=
  on_conn (λ x, with_cl (with_ctx (set_error type s (ctx (cl x))) (cl x)) x) n.

Definition c_blocking (n : net) : bool := c_block (ctx (cl (nc n))).

(** [redisContextTimeoutMsec]: [long] is 64 bits. *)
Definition MAX_MSEC : Z := Z.quot (2 ^ 63 - 1 - 999) 1000.

Definition redisContextTimeoutMsec (t : option (Z * Z)) : option (Z * Z) :=
  match t with
  | None => Some (REDIS_OK, -1)
  | Some (tv_sec, tv_usec) =>
    if (tv_usec >? 1000000) || (tv_sec >? MAX_MSEC) then Some (REDIS_ERR, -1)
    else
      let s := tv_sec * 1000 in
      let u := tv_usec + 999 in
      let msec := s + Z.quot u 1000 in
      if bool_decide (in_int64 s) && bool_decide (in_int64 u) && bool_decide (in_int64 msec) then
        Some (REDIS_OK, if (msec <? 0) || (msec >? INT_MAX) then INT_MAX else msec)
      else None
  end.

Section net.
Context (strerror : errno → list Z) (gai_strerror : Z → list Z).

(** [static void __redisSetErrorFromErrno(redisContext *c, int type, const char *prefix)]:
    the text, in a buffer of 128 bytes. *)
Definition errno_text (prefix : option (list Z)) (e : errno) : list Z :=
  take 127 (match prefix with Some p => p ++ chars ": " | None => [] end ++ strerror e).
Definition redisSetErrorFromErrno (type : Z) (prefix : option (list Z)) (n : net) : net :=
  net_error type (errno_text prefix (o_errno (no n))) n.

(** [static void redisContextCloseFd(redisContext *c)] *)
Definition redisContextCloseFd (n : net) : net :=
  if fd (nc n) >=? 0 then mk_net (with_fd (-1) (nc n)) (sys_close (fd (nc n)) (no n)) else n.

(** The three steps of most failures. *)
Definition io_failure (prefix : option (list Z)) (n : net) : Z * net :=
  (REDIS_ERR, redisContextCloseFd (redisSetErrorFromErrno REDIS_ERR_IO prefix n)).

(** [int redisCheckSocketError(redisContext *c)] on what [getsockopt] says. *)
Definition redisCheckSocketError (s : sock_state) (x : client) : Z * client :=
  match s with
  | S_ok => (REDIS_OK, x)
  | S_error e => (REDIS_ERR, with_ctx (set_error REDIS_ERR_IO (errno_text None e) (ctx x)) x)
  | S_failed e => (REDIS_ERR, with_ctx (set_error REDIS_ERR_IO (errno_text (Some (chars "getsockopt(SO_ERROR)")) e) (ctx x)) x)
  end.

(** [errno] after it. *)
Definition sock_errno (s : sock_state) : option errno := match s with S_ok => None | S_error e | S_failed e => Some e end.

Section machine.
Context (m : machine).

(** [static int redisSetReuseAddr(redisContext *c)] *)
Definition redisSetReuseAddr (n : net) : Z * net :=
  let '(failed, o) := syscall (sys_setsockopt m (o_time (no n))) (no n) in
  let n := mk_net (nc n) o in
  if failed : bool then io_failure None n else (REDIS_OK, n).

(** [socket(...)]: a new descriptor. *)
Definition sys_new_socket (n : net) : option Z * net :=
  let '(failed, o) := syscall (sys_socket m (o_time (no n))) (no n) in
  if failed : bool then (None, mk_net (nc n) o)
  else
    let s := new_fd (o_open o) in
    (Some s, mk_net (nc n) (mk_os (<[s := false]> (o_open o)) (o_errno o) (o_time o) (o_bad o))).

(** [static int redisCreateSocket(redisContext *c, int type)] *)
Definition redisCreateSocket (type : family) (n : net) : Z * net :=
  match sys_new_socket n with
  | (None, n) => (REDIS_ERR, redisSetErrorFromErrno REDIS_ERR_IO None n)
  | (Some s, n) =>
    let n := on_conn (with_fd s) n in
    match type with AF_INET => redisSetReuseAddr n | _ => (REDIS_OK, n) end
  end.

(** [static int redisSetBlocking(redisContext *c, int blocking)] *)
Definition redisSetBlocking (blocking : bool) (n : net) : Z * net :=
  let '(failed, o) := syscall (sys_fcntl m (o_time (no n))) (no n) in
  let n := mk_net (nc n) o in
  if failed : bool then io_failure (Some (chars "fcntl(F_GETFL)")) n
  else
    let '(failed, o) := syscall (sys_fcntl m (o_time (no n))) (no n) in
    let n := mk_net (nc n) o in
    if failed : bool then io_failure (Some (chars "fcntl(F_SETFL)")) n
    else
      (REDIS_OK, on_os (λ o, mk_os (alter (λ _, negb blocking) (fd (nc n)) (o_open o)) (o_errno o) (o_time o) (o_bad o)) n).

(** The calls of [redisKeepAlive], which set one option each. *)
Fixpoint set_options (k : nat) (n : net) : Z * net :=
  match k with
  | O => (REDIS_OK, n)
  | S k' =>
    let '(failed, o) := syscall (sys_setsockopt m (o_time (no n))) (no n) in
    let n := mk_net (nc n) o in
    if failed : bool then (REDIS_ERR, net_error REDIS_ERR_OTHER (strerror (o_errno o)) n) else set_options k' n
  end.

(** [int redisKeepAlive(redisContext *c, int interval)], with the three options of
    glibc. *)
Definition redisKeepAlive (n : net) : Z * net := set_options 4 n.

(** [static int redisSetTcpNoDelay(redisContext *c)] *)
Definition redisSetTcpNoDelay (n : net) : Z * net :=
  let '(failed, o) := syscall (sys_setsockopt m (o_time (no n))) (no n) in
  let n := mk_net (nc n) o in
  if failed : bool then io_failure (Some (chars "setsockopt(TCP_NODELAY)")) n else (REDIS_OK, n).

(** [redisCheckSocketError] of a connection. *)
Definition check_socket (n : net) : Z * net :=
  let s := sys_getsockopt m (o_time (no n)) in
  let '(r, x) := redisCheckSocketError s (cl (nc n)) in
  (r, mk_net (with_cl x (nc n)) (syscall (sock_errno s) (no n)).2).

(** [static int redisContextWaitReady(redisContext *c, long msec)] *)
Definition redisContextWaitReady (msec : Z) (n : net) : Z * net :=
  if decide (o_errno (no n) = EINPROGRESS) then
    match sys_poll m (o_time (no n)) msec with
    | P_failed e => io_failure (Some (chars "poll(2)")) (on_os (λ o, (syscall (Some e) o).2) n)
    | P_timeout => io_failure None (on_os (λ o, mk_os (o_open o) ETIMEDOUT (S (o_time o)) (o_bad o)) n)
    | P_ready =>
      let '(r, n) := check_socket (on_os tick n) in
      if negb (r =? REDIS_OK) then (REDIS_ERR, n) else (REDIS_OK, n)
    end
  else io_failure None n.

(** [int redisContextSetTimeout(redisContext *c, const struct timeval tv)] *)
Definition redisContextSetTimeout (n : net) : Z * net :=
  let '(failed, o) := syscall (sys_setsockopt m (o_time (no n))) (no n) in
  let n := mk_net (nc n) o in
  if failed : bool then (REDIS_ERR, redisSetErrorFromErrno REDIS_ERR_IO (Some (chars "setsockopt(SO_RCVTIMEO)")) n)
  else
    let '(failed, o) := syscall (sys_setsockopt m (o_time (no n))) (no n) in
    let n := mk_net (nc n) o in
    if failed : bool then (REDIS_ERR, redisSetErrorFromErrno REDIS_ERR_IO (Some (chars "setsockopt(SO_SNDTIMEO)")) n)
    else (REDIS_OK, n).

(** ** Connecting by TCP *)

(** What becomes of an address: the next one, the same one again, the label
    [error], or the end. *)
Inductive attempt := A_next | A_retry | A_error | A_done.

Definition REDIS_CONNECT_RETRIES : Z := 10.

(** [snprintf] into a buffer of 128 bytes, and [__redisSetError]. *)
Definition other_error (s : list Z) (n : net) : net := net_error REDIS_ERR_OTHER (take 127 s) n.

Fixpoint bind_loop (bs : list Z) (n : net) : bool * net :=
  match bs with
  | [] => (false, n)
  | b :: r =>
    let '(failed, o) := syscall (sys_bind m (o_time (no n)) b) (no n) in
    let n := mk_net (nc n) o in
    if failed : bool then bind_loop r n else (true, n)
  end.

(** The source address of the connection; false is the label [error]. *)
Definition bind_source (fam : family) (reuse : bool) (n : net) : bool * net :=
  match source_addr (nc n) with
  | None => (true, n)
  | Some src =>
    let found := getaddrinfo m (o_time (no n)) fam (Some src) None in
    let n := on_os tick n in
    match found with
    | inl rv => (false, other_error (chars "Can't get addr: " ++ gai_strerror rv) n)
    | inr bs =>
      let '(failed, o) := if reuse then syscall (sys_setsockopt m (o_time (no n))) (no n) else (false, no n) in
      let n := mk_net (nc n) o in
      if failed : bool then (false, n)
      else
        let '(bound, n) := bind_loop bs n in
        if negb bound then (false, other_error (chars "Can't bind socket: " ++ strerror (o_errno (no n))) n) else (true, n)
    end
  end.

(** What follows a connection. *)
Definition finish_connect (blocking : bool) (n : net) : attempt * net :=
  let '(r, n) := if blocking then redisSetBlocking true n else (REDIS_OK, n) in
  if negb (r =? REDIS_OK) then (A_error, n)
  else
    let '(r, n) := redisSetTcpNoDelay n in
    if negb (r =? REDIS_OK) then (A_error, n) else (A_done, on_conn mark_connected n).

(** One socket for one address; [reuses] counts the retries. *)
Definition try_address (blocking reuse : bool) (fam : family) (msec : Z) (p : Z) (reuses : Z) (n : net) : attempt * Z * net :=
  match sys_new_socket n with
  | (None, n) => (A_next, reuses, n)
  | (Some s, n) =>
    let n := on_conn (with_fd s) n in
    let '(r, n) := redisSetBlocking false n in
    if negb (r =? REDIS_OK) then (A_error, reuses, n)
    else
      let '(bound, n) := bind_source fam reuse n in
      if negb bound then (A_error, reuses, n)
      else
        let '(failed, o) := syscall (sys_connect m (o_time (no n)) p) (no n) in
        let n := mk_net (nc n) o in
        let go n := let '(a, n) := finish_connect blocking n in (a, reuses, n) in
        if negb failed then go n
        else if decide (o_errno o = EHOSTUNREACH) then (A_next, reuses, redisContextCloseFd n)
        else if bool_decide (o_errno o = EINPROGRESS) && negb blocking then go n
        else if bool_decide (o_errno o = EADDRNOTAVAIL) && reuse then
          if reuses + 1 >=? REDIS_CONNECT_RETRIES then (A_error, reuses + 1, n)
          else (A_retry, reuses + 1, redisContextCloseFd n)
        else
          let '(r, n) := redisContextWaitReady msec n in
          if negb (r =? REDIS_OK) then (A_error, reuses, n) else go n
  end.

(** The label [addrretry]. *)
Fixpoint retry_loop (fuel : nat) (blocking reuse : bool) (fam : family) (msec : Z) (p : Z) (reuses : Z) (n : net) : option (attempt * Z * net) :=
  match fuel with
  | O => None
  | S fuel' =>
    match try_address blocking reuse fam msec p reuses n with
    | (A_retry, reuses, n) => retry_loop fuel' blocking reuse fam msec p reuses n
    | out => Some out
    end
  end.

Fixpoint address_loop (blocking reuse : bool) (fam : family) (msec : Z) (ps : list Z) (reuses : Z) (n : net) : option (Z * net) :=
  match ps with
  | [] => Some (REDIS_ERR, other_error (chars "Can't create socket: " ++ strerror (o_errno (no n))) n)
  | p :: r =>
    '(out, reuses, n) ← retry_loop (Z.to_nat REDIS_CONNECT_RETRIES) blocking reuse fam msec p reuses n;
    match out with
    | A_done => Some (REDIS_OK, n)
    | A_error => Some (REDIS_ERR, n)
    | _ => address_loop blocking reuse fam msec r reuses n
    end
  end.

(** [static int _redisContextConnectTcp(redisContext *c, const char *addr, int port, const struct timeval *timeout, const char *source_addr)];
    what is handed over is copied unless it is the context's own. *)
Definition redisContextConnectTcp_ (addr : option (list Z)) (p : Z) (t : option (Z * Z)) (src : option (list Z)) (n : net) : option (Z * net) :=
  let blocking := c_blocking n in
  let reuse := reuseaddr (nc n) in
  let n := on_conn (λ x, set_timeout t (set_tcp addr p x)) n in
  '(r, msec) ← redisContextTimeoutMsec t;
  if negb (r =? REDIS_OK) then Some (REDIS_ERR, net_error REDIS_ERR_IO (chars "Invalid timeout specified") n)
  else
    let n := on_conn (set_source src) n in
    let port := take 5 (decimal_of p) in
    let look (fam : family) (n : net) := (getaddrinfo m (o_time (no n)) fam addr (Some port), on_os tick n) in
    let run (fam : family) (ps : list Z) (n : net) := address_loop blocking reuse fam msec ps 0 n in
    match look AF_INET n with
    | (inr ps, n) => run AF_INET ps n
    | (inl _, n) =>
      match look AF_INET6 n with
      | (inr ps, n) => run AF_INET6 ps n
      | (inl rv, n) => Some (REDIS_ERR, net_error REDIS_ERR_OTHER (gai_strerror rv) n)
      end
    end.

Definition redisContextConnectTcp (addr : option (list Z)) (p : Z) (t : option (Z * Z)) := redisContextConnectTcp_ addr p t None.
Definition redisContextConnectBindTcp := redisContextConnectTcp_.

(** [int redisContextConnectUnix(redisContext *c, const char *path, const struct timeval *timeout)] *)
Definition redisContextConnectUnix (path : option (list Z)) (t : option (Z * Z)) (n : net) : option (Z * net) :=
  let blocking := c_blocking n in
  let '(r, n) := redisCreateSocket AF_UNIX n in
  if r <? 0 then Some (REDIS_ERR, n)
  else
    let '(r, n) := redisSetBlocking false n in
    if negb (r =? REDIS_OK) then Some (REDIS_ERR, n)
    else
      let n := on_conn (λ x, set_timeout t (set_unix path x)) n in
      '(r, msec) ← redisContextTimeoutMsec t;
      if negb (r =? REDIS_OK) then Some (REDIS_ERR, n)
      else
        let '(failed, o) := syscall (sys_connect m (o_time (no n)) 0) (no n) in
        let n := mk_net (nc n) o in
        let '(r, n) :=
          if negb failed then (REDIS_OK, n)
          else if bool_decide (o_errno o = EINPROGRESS) && negb blocking then (REDIS_OK, n)
          else redisContextWaitReady msec n in
        if negb (r =? REDIS_OK) then Some (REDIS_ERR, n)
        else
          let '(r, n) := if blocking then redisSetBlocking true n else (REDIS_OK, n) in
          if negb (r =? REDIS_OK) then Some (REDIS_ERR, n) else Some (REDIS_OK, on_conn mark_connected n).

(** ** hiredis.c: contexts *)

(** Uninitialised memory, and which allocations succeed; the heap of replies and
    the answers to [read] and [write]. *)
Context (junk : Z).

(** [redisContextInit()] and the flags, in zeroed memory. *)
Definition new_context (ok1 ok2 ok3 ok4 : bool) (block reuse : bool) (h : reply_heap) (k : kernel) : option (option conn) :=
  match redisContextInit junk ok1 ok2 ok3 ok4 block with
  | None => None
  | Some None => Some None
  | Some (Some c) => Some (Some (mk_conn (mk_client c h k) 0 false reuse CONN_TCP None None None 0 None))
  end.

(** The body of the functions below; the result of connecting is not looked
    at. *)
Definition connect_with (ok1 ok2 ok3 ok4 : bool) (block reuse : bool) (connect : net → option (Z * net)) (h : reply_heap) (k : kernel) (o : os)
  : option (option net) :=
  match new_context ok1 ok2 ok3 ok4 block reuse h k with
  | None => None
  | Some None => Some None
  | Some (Some c) => '(_, n) ← connect (mk_net c o); Some (Some n)
  end.

Section connect.
Context (ok1 ok2 ok3 ok4 : bool) (h : reply_heap) (k : kernel) (o : os).

Definition redisConnect (ip : list Z) (p : Z) :=
  connect_with ok1 ok2 ok3 ok4 true false (redisContextConnectTcp (Some ip) p None) h k o.
Definition redisConnectWithTimeout (ip : list Z) (p : Z) (tv : Z * Z) :=
  connect_with ok1 ok2 ok3 ok4 true false (redisContextConnectTcp (Some ip) p (Some tv)) h k o.
Definition redisConnectNonBlock (ip : list Z) (p : Z) :=
  connect_with ok1 ok2 ok3 ok4 false false (redisContextConnectTcp (Some ip) p None) h k o.
Definition redisConnectBindNonBlock (ip : list Z) (p : Z) (src : option (list Z)) :=
  connect_with ok1 ok2 ok3 ok4 false false (redisContextConnectBindTcp (Some ip) p None src) h k o.
Definition redisConnectBindNonBlockWithReuse (ip : list Z) (p : Z) (src : option (list Z)) :=
  connect_with ok1 ok2 ok3 ok4 false true (redisContextConnectBindTcp (Some ip) p None src) h k o.
Definition redisConnectUnix (path : list Z) :=
  connect_with ok1 ok2 ok3 ok4 true false (redisContextConnectUnix (Some path) None) h k o.
Definition redisConnectUnixWithTimeout (path : list Z) (tv : Z * Z) :=
  connect_with ok1 ok2 ok3 ok4 true false (redisContextConnectUnix (Some path) (Some tv)) h k o.
Definition redisConnectUnixNonBlock (path : list Z) :=
  connect_with ok1 ok2 ok3 ok4 false false (redisContextConnectUnix (Some path) None) h k o.
Definition redisConnectFd (d : Z) : option (option net) :=
  connect_with ok1 ok2 ok3 ok4 true false (λ n, Some (REDIS_OK, on_conn (λ x, mark_connected (with_fd d x)) n)) h k o.
End connect.

(** [void redisFree(redisContext *c)]: the descriptor; the rest is the client's. *)
Definition free_fd (n : net) : net := if fd (nc n) >? 0 then on_os (sys_close (fd (nc n))) n else n.
Definition net_free (n : net) : option net := x ← redisFree (cl (nc n)); Some (on_conn (with_cl x) (free_fd n)).

(** [int redisFreeKeepFd(redisContext *c)] *)
Definition redisFreeKeepFd (n : net) : option (Z * net) :=
  let d := fd (nc n) in n1 ← net_free (on_conn (with_fd (-1)) n); Some (d, n1).

(** [int redisReconnect(redisContext *c)]; a context whose new reader could not
    be allocated is [None]. *)
Definition redisReconnect (ok1 ok2 ok3 : bool) (n : net) : option (Z * net) :=
  let n := free_fd n in
  x ← redisFree (cl (nc n));
  b ← sdsempty junk ok1;
  r ← redisReaderCreateWithFunctions junk ok2 ok3 (Some defaultFunctions);
  r ← r;
  let n := on_conn (with_cl (with_ctx (mk_context 0 [] (c_block (ctx x)) b r) x)) n in
  let c := nc n in
  match connection_type c with
  | CONN_TCP => redisContextConnectBindTcp (host c) (port c) (timeout c) (source_addr c) n
  | CONN_UNIX => redisContextConnectUnix (upath c) (timeout c) n
  end.

(** [int redisSetTimeout(redisContext *c, const struct timeval tv)],
    [int redisEnableKeepAlive(redisContext *c)] *)
Definition redisSetTimeout (n : net) : Z * net := if c_blocking n then redisContextSetTimeout n else (REDIS_ERR, n).
Definition redisEnableKeepAlive (n : net) : Z * net :=
  let '(r, n) := redisKeepAlive n in if negb (r =? REDIS_OK) then (REDIS_ERR, n) else (REDIS_OK, n).
End machine.
End net.
