(* ===== verification/NetProps.v ===== *)
(** * Connecting keeps one descriptor

    In a process whose descriptor 0 is in use, for a context that makes its socket
    itself, with a timeout that is refused as too long or whose milliseconds do not
    overflow, and whatever the kernel answers: a connection that was made has one
    descriptor of its own, in the mode its user asked for, and no error; one that
    was not made has an error, but for the cases that are listed, and after
    [redisFree] the table of open descriptors is what it was.  Without these
    conditions it is not so: the examples at the end of the file
    ([descriptor_zero_leaks], [failed_reconnect_closes_twice]). *)

From Stdlib Require Ascii String.
From stdpp Require Import strings gmap.
From S2P Require Import Prelude Sds SdsProps Numbers Read Reply Resp ReplyTree ReadRefine ReadRun ReadProps Context ContextProps Net.
Local Open Scope Z_scope.

(** ** New descriptors *)

Lemma new_fd_free (m : gmap Z bool) : m !! new_fd m = None ∧ 0 <= new_fd m.
Proof.
  unfold new_fd. set (l := seqZ 0 (Z.of_nat (base.size m) + 1)). destruct (filter (λ i, m !! i = None) l) as [|i r] eqn:Hf.
  - exfalso. assert (Hall : ∀ i, i ∈ l → i ∈ dom m).
    { intros i Hi. apply elem_of_dom. destruct (m !! i) as [b|] eqn:E; [by eexists|].
      assert (Hin : i ∈ filter (λ i, m !! i = None) l) by (by apply list_elem_of_filter). rewrite Hf in Hin. by apply elem_of_nil in Hin. }
    assert (Hs : list_to_set (C := gset Z) l ⊆ dom m) by (intros i Hi; apply Hall; by apply elem_of_list_to_set in Hi).
    apply subseteq_size in Hs. rewrite size_list_to_set, size_dom in Hs by apply NoDup_seqZ. unfold l in Hs. rewrite length_seqZ in Hs. lia.
  - cbn. assert (Hi : i ∈ filter (λ i, m !! i = None) l) by (rewrite Hf; left). apply list_elem_of_filter in Hi as [Hi Hl].
    unfold l in Hl. apply elem_of_seqZ in Hl. split; [done|lia].
Qed.

Section props.
Context (strerror : errno → list Z) (gai_strerror : Z → list Z) (m : machine).

(** The descriptors of others, among them the standard input; whether the
    context may keep a descriptor that was closed, and whether it may fail
    without an error. *)
Context (others : gmap Z bool) (stdin : is_Some (others !! 0)) (stale silent : Prop).

(** The context has the open descriptor [fd] in the mode [nonblock]. *)
Record holds (nonblock : bool) (n : net) : Prop := {
  h_pos : 0 < fd (nc n);
  h_new : others !! fd (nc n) = None;
  h_open : o_open (no n) = <[fd (nc n) := nonblock]> others;
  h_bad : o_bad (no n) = []
}.

(** The context has none. *)
Record without (n : net) : Prop := {
  w_fd : fd (nc n) <= 0 ∨ stale;
  w_open : o_open (no n) = others;
  w_bad : o_bad (no n) = []
}.

(** In the course of connecting nothing but the descriptor changes. *)
Definition only_fd (x : conn) (n : net) : Prop := nc n = with_fd (fd (nc n)) x.

(** All but the error of the client is kept. *)
Definition kept (x : conn) (n : net) : Prop :=
  connected (nc n) = connected x ∧
  ∃ e s, cl (nc n) = with_ctx (mk_context e s (c_block (ctx (cl x))) (obuf (ctx (cl x))) (c_reader (ctx (cl x)))) (cl x).

Definition refused (x : conn) (n : net) : Prop :=
  ((∃ b, holds b n) ∨ without n) ∧ (c_err (ctx (cl (nc n))) ≠ 0 ∨ silent) ∧ kept x n.

Lemma only_fd_kept x n : only_fd x n → kept x n.
Proof.
  intros H. split; [by rewrite H|]. exists (c_err (ctx (cl x))), (c_errstr (ctx (cl x))). rewrite H. cbn. by destruct (cl x) as [[] ? ?].
Qed.

Lemma kept_error x type s n : kept x n → kept x (net_error type s n).
Proof. intros (Hc & e & t & He). split; [done|]. cbn. rewrite He. by eexists _, _. Qed.

Lemma kept_same x n n' : kept x n → cl (nc n') = cl (nc n) → connected (nc n') = connected (nc n) → kept x n'.
Proof. intros (Hc & Hk) H1 H2. unfold kept. by rewrite H1, H2. Qed.

Lemma only_fd_trans x n n' : only_fd x n → only_fd (nc n) n' → only_fd x n'.
Proof. unfold only_fd. intros H1 H2. rewrite H1 in H2. by rewrite H2. Qed.

Lemma syscall_open r o : o_open (syscall r o).2 = o_open o ∧ o_bad (syscall r o).2 = o_bad o.
Proof. by destruct r. Qed.

Lemma holds_same b n n' : holds b n → fd (nc n') = fd (nc n) → o_open (no n') = o_open (no n) → o_bad (no n') = o_bad (no n) → holds b n'.
Proof. intros [H1 H2 H3 H4] Hf Ho Hb. split; rewrite ?Hf; congruence. Qed.

Lemma holds_os b n o : holds b n → o_open o = o_open (no n) → o_bad o = o_bad (no n) → holds b (mk_net (nc n) o).
Proof. intros [H1 H2 H3 H4] Ho Hb. split; cbn [nc no]; congruence. Qed.

Lemma without_os n o : without n → o_open o = o_open (no n) → o_bad o = o_bad (no n) → without (mk_net (nc n) o).
Proof. intros [H1 H2 H3] Ho Hb. split; cbn [nc no]; [done|congruence..]. Qed.

Lemma holds_call b n r : holds b n → holds b (mk_net (nc n) (syscall r (no n)).2).
Proof. intros H. destruct (syscall_open r (no n)). by apply holds_os. Qed.

(** Setting an error. *)
Lemma holds_conn b n c : holds b n → holds b (on_conn (with_cl c) n).
Proof. by intros [H1 H2 H3 H4]. Qed.
Lemma without_conn n c : without n → without (on_conn (with_cl c) n).
Proof. by intros [H1 H2 H3]. Qed.

Lemma net_error_refused x b type s n : holds b n → kept x n → type ≠ 0 → refused x (net_error type s n).
Proof. intros H Hk Ht. split; [left; exists b; by destruct H|]. split; [by left|by apply kept_error]. Qed.

Lemma close_holds b n : holds b n → without (redisContextCloseFd n) ∧ nc (redisContextCloseFd n) = with_fd (-1) (nc n).
Proof.
  intros [H1 H2 H3 H4]. unfold redisContextCloseFd. destruct (Z.geb_spec (fd (nc n)) 0); [|lia]. split; [|done].
  unfold sys_close. rewrite H3, lookup_insert_eq. split; cbn; [left; lia| |done]. by rewrite delete_insert_eq, delete_id.
Qed.

Lemma io_failure_refused x b prefix n : holds b n → kept x n → (io_failure strerror prefix n).1 = REDIS_ERR ∧ refused x (io_failure strerror prefix n).2.
Proof.
  intros H Hk. split; [done|]. unfold io_failure. cbn [snd]. set (n1 := redisSetErrorFromErrno _ _ _ _).
  assert (H1 : holds b n1) by (by destruct H). destruct (close_holds b n1 H1) as [Hw Hc]. split; [by right|].
  assert (Hk1 : kept x n1) by (by apply kept_error). split; [left; by rewrite Hc|]. apply (kept_same x n1); [done|by rewrite Hc..].
Qed.

Lemma without_refused x type s n : without n → kept x n → type ≠ 0 → refused x (net_error type s n).
Proof. intros H Hk Ht. split; [right; by destruct H|]. split; [by left|by apply kept_error]. Qed.

(** A step that goes on, or fails. *)
Definition steps_to (x : conn) (b : bool) (out : Z * net) : Prop :=
  out.1 = REDIS_OK ∧ holds b out.2 ∧ only_fd x out.2 ∨ out.1 = REDIS_ERR ∧ refused x out.2.

Lemma failed_step x b b' prefix n : holds b n → only_fd x n → steps_to x b' (io_failure strerror prefix n).
Proof. intros H Hx. right. apply (io_failure_refused x b); [done|by apply only_fd_kept]. Qed.

Lemma set_blocking_step x b blocking n : holds b n → only_fd x n → steps_to x (negb blocking) (redisSetBlocking strerror m blocking n).
Proof.
  intros H Hx. unfold redisSetBlocking. pose proof (holds_call b n (sys_fcntl m (o_time (no n))) H) as H1.
  destruct (syscall _ _) as [[] o1]; cbn [snd] in H1; [by apply (failed_step x b)|].
  pose proof (holds_call b _ (sys_fcntl m (o_time (no (mk_net (nc n) o1)))) H1) as H2.
  destruct (syscall _ _) as [[] o2]; cbn [snd] in H2; [by apply (failed_step x b)|]. left. split; [done|]. split; [|exact Hx].
  destruct H2 as [P1 P2 P3 P4]. split; cbn in *; [done|done| |done]. by rewrite P3, alter_insert_eq.
Qed.

Lemma tcp_no_delay_step x b n : holds b n → only_fd x n → steps_to x b (redisSetTcpNoDelay strerror m n).
Proof.
  intros H Hx. unfold redisSetTcpNoDelay. pose proof (holds_call b n (sys_setsockopt m (o_time (no n))) H) as H1.
  destruct (syscall _ _) as [[] o1]; cbn [snd] in H1; [by apply (failed_step x b)|]. left. by split_and!.
Qed.

Lemma check_socket_step x b n : holds b n → only_fd x n → steps_to x b (check_socket strerror m n).
Proof.
  intros H Hx. unfold check_socket. set (s := sys_getsockopt m (o_time (no n))).
  destruct (syscall_open (sock_errno s) (no n)) as [Ho Hb]. destruct s as [|err|err]; cbn [redisCheckSocketError].
  - left. split; [done|]. split; [by apply (holds_same b n)|]. unfold only_fd in *. cbn. rewrite Hx. by destruct x.
  - right. split; [done|]. apply (net_error_refused x b REDIS_ERR_IO _ (mk_net (nc n) (syscall (Some err) (no n)).2)); [by apply holds_os|by apply only_fd_kept|done].
  - right. split; [done|]. apply (net_error_refused x b REDIS_ERR_IO _ (mk_net (nc n) (syscall (Some err) (no n)).2)); [by apply holds_os|by apply only_fd_kept|done].
Qed.

Lemma wait_ready_step x b msec n : holds b n → only_fd x n → steps_to x b (redisContextWaitReady strerror m msec n).
Proof.
  intros H Hx. unfold redisContextWaitReady. destruct (decide _); [|by apply (failed_step x b)].
  destruct (sys_poll m (o_time (no n)) msec) as [err| |].
  - apply (failed_step x b); [exact (holds_call b n (Some err) H)|exact Hx].
  - apply (failed_step x b); [by destruct H|exact Hx].
  - assert (H1 : holds b (on_os tick n)) by (by destruct H).
    destruct (check_socket_step x b (on_os tick n) H1 Hx) as [(Hr & Hh & Hc)|[Hr Hf]]; destruct (check_socket _ _ _) as [r n1]; cbn [fst snd] in *; subst r.
    + by left.
    + by right.
Qed.

Lemma bind_loop_step x b bs : ∀ n, holds b n → only_fd x n → holds b (bind_loop m bs n).2 ∧ only_fd x (bind_loop m bs n).2.
Proof.
  induction bs as [|a bs IH]; intros n H Hx; [done|]. cbn [bind_loop]. pose proof (holds_call b n (sys_bind m (o_time (no n)) a) H) as H1.
  destruct (syscall _ _) as [[] o1]; cbn [snd] in H1; [by apply IH|done].
Qed.

Lemma other_error_refused x b s n : holds b n → only_fd x n → refused x (other_error s n).
Proof. intros H Hx. by apply (net_error_refused x b); [|apply only_fd_kept|]. Qed.

Lemma bind_source_step x b fam reuse n : holds b n → only_fd x n → (reuse = true → silent) →
  let out := bind_source strerror gai_strerror m fam reuse n in
  out.1 = true ∧ holds b out.2 ∧ only_fd x out.2 ∨ out.1 = false ∧ refused x out.2.
Proof.
  intros H Hx Hs. unfold bind_source. destruct (source_addr (nc n)) as [src|]; [|by left].
  assert (H1 : holds b (on_os tick n)) by (by destruct H). set (n1 := on_os tick n) in *. assert (Hx1 : only_fd x n1) by exact Hx. clearbody n1.
  destruct (getaddrinfo _ _ _ _ _) as [rv|bs]; [right; split; [done|by apply (other_error_refused x b)]|].
  assert (H2 : holds b (mk_net (nc n1) (if reuse then syscall (sys_setsockopt m (o_time (no n1))) (no n1) else (false, no n1)).2)).
  { destruct reuse; [by apply holds_call|by destruct n1]. }
  destruct (if reuse then _ else _) as [failed o] eqn:Ho; cbn [snd] in H2. destruct failed.
  { right. split; [done|]. destruct reuse; [|done]. split; [left; by exists b|]. split; [right; by apply Hs|by apply only_fd_kept]. }
  destruct (bind_loop_step x b bs (mk_net (nc n1) o) H2 Hx1) as [H3 Hx3]. destruct (bind_loop _ _ _) as [[] n3]; cbn [snd negb] in *; [by left|].
  right. split; [done|]. by apply (other_error_refused x b).
Qed.

(** The context is connected, and the mode is right. *)
Definition made (x : conn) (blocking : bool) (n : net) : Prop :=
  holds (negb blocking) n ∧ nc n = mark_connected (with_fd (fd (nc n)) x).

Lemma finish_step x blocking n : holds true n → only_fd x n →
  let out := finish_connect strerror m blocking n in out.1 = A_done ∧ made x blocking out.2 ∨ out.1 = A_error ∧ refused x out.2.
Proof.
  intros H Hx. unfold finish_connect.
  assert (Hb : steps_to x (negb blocking) (if blocking then redisSetBlocking strerror m true n else (REDIS_OK, n))).
  { destruct blocking; [by apply (set_blocking_step x true)|by left]. }
  destruct Hb as [(Hr & Hh & Hc)|[Hr Hf]]; destruct (if blocking then _ else _) as [r n1]; cbn [fst snd] in *; subst r; [|by right].
  change (negb (REDIS_OK =? REDIS_OK)) with false. cbn iota.
  destruct (tcp_no_delay_step x (negb blocking) n1 Hh Hc) as [(Hr & Hh2 & Hc2)|[Hr Hf]]; destruct (redisSetTcpNoDelay _ _ _) as [r n2]; cbn [fst snd] in *; subst r; [|by right].
  left. split; [done|]. split; [by destruct Hh2|]. unfold only_fd in Hc2. cbn. by rewrite Hc2.
Qed.

(** What one socket may come to. *)
Definition tried (x : conn) (blocking : bool) (out : attempt * net) : Prop :=
  match out.1 with
  | A_done => made x blocking out.2
  | A_error => refused x out.2
  | A_next | A_retry => without out.2 ∧ only_fd x out.2
  end.

Lemma new_socket_step n : without n →
  match sys_new_socket m n with
  | (None, n') => without n' ∧ nc n' = nc n
  | (Some s, n') => holds false (on_conn (with_fd s) n') ∧ nc n' = nc n
  end.
Proof.
  intros [H1 H2 H3]. unfold sys_new_socket. destruct (syscall_open (sys_socket m (o_time (no n))) (no n)) as [Ho Hb].
  destruct (syscall _ _) as [[] o]; cbn [snd] in *.
  - split; [|done]. split; cbn; [done|congruence..].
  - rewrite H2 in Ho. rewrite H3 in Hb. destruct (new_fd_free (o_open o)) as [Hf Hp]. rewrite Ho in *. split; [|done]. split; cbn; [|done| |done].
    + destruct (decide (new_fd others = 0)) as [E|]; [|lia]. rewrite E in Hf. destruct stdin as [? Hs]. congruence.
    + done.
Qed.

Lemma try_step x blocking reuse fam msec p reuses n : without n → only_fd x n → (reuse = true → silent) →
  let out := try_address strerror gai_strerror m blocking reuse fam msec p reuses n in tried x blocking (out.1.1, out.2).
Proof.
  intros Hw Hx Hs. unfold try_address. pose proof (new_socket_step n Hw) as Hn. destruct (sys_new_socket m n) as [[s|] n0]; destruct Hn as [Hn Hc].
  2:{ cbn. split; [done|]. unfold only_fd in *. by rewrite Hc. }
  assert (Hx0 : only_fd x (on_conn (with_fd s) n0)) by (unfold only_fd in *; cbn; rewrite Hc, Hx; done).
  set (n1 := on_conn (with_fd s) n0) in *. clearbody n1.
  destruct (set_blocking_step x false false n1 Hn Hx0) as [(Hr & H2 & Hx2)|[Hr Hf]]; destruct (redisSetBlocking _ _ _ _) as [r n2]; cbn [fst snd] in *; subst r; [|exact Hf].
  change (negb (REDIS_OK =? REDIS_OK)) with false. cbn iota.
  destruct (bind_source_step x true fam reuse n2 H2 Hx2 Hs) as [(Hb & H3 & Hx3)|[Hb Hf]]; destruct (bind_source _ _ _ _ _ _) as [bound n3]; cbn [fst snd] in *; subst bound; [|exact Hf].
  cbn [negb]. pose proof (holds_call true n3 (sys_connect m (o_time (no n3)) p) H3) as H4.
  destruct (syscall _ _) as [failed o]; cbn [snd] in H4. set (n4 := mk_net (nc n3) o) in *. assert (Hx4 : only_fd x n4) by exact Hx3. clearbody n4.
  assert (Hgo : ∀ n5 (H5 : holds true n5) (Hx5 : only_fd x n5),
    tried x blocking ((let '(a, n) := finish_connect strerror m blocking n5 in (a, reuses, n)).1.1, (let '(a, n) := finish_connect strerror m blocking n5 in (a, reuses, n)).2)).
  { intros. destruct (finish_step x blocking n5 H5 Hx5) as [[Ha Hm]|[Ha Hf]]; destruct (finish_connect _ _ _ _) as [a n6]; cbn [fst snd] in *; subst a; done. }
  assert (Hcl : without (redisContextCloseFd n4) ∧ only_fd x (redisContextCloseFd n4)).
  { destruct (close_holds true n4 H4) as [Hcw Hcc]. split; [done|]. unfold only_fd in *. rewrite Hcc. cbn. by rewrite Hx4. }
  destruct failed; cbn [negb]; [|by apply Hgo]. destruct (decide (o_errno o = EHOSTUNREACH)); [exact Hcl|].
  destruct (_ && negb blocking); [by apply Hgo|]. destruct (_ && reuse) eqn:Er.
  - apply andb_true_iff in Er as [_ Er]. destruct (_ >=? _); [|exact Hcl]. cbn. split; [left; by exists true|]. split; [right; by apply Hs|by apply only_fd_kept].
  - destruct (wait_ready_step x true msec n4 H4 Hx4) as [(Hr & H6 & Hx6)|[Hr Hf]]; destruct (redisContextWaitReady _ _ _ _) as [r n6]; cbn [fst snd] in *; subst r; [|exact Hf].
    change (negb (REDIS_OK =? REDIS_OK)) with false. cbn iota. by apply Hgo.
Qed.

(** Retries are counted, so ten rounds are enough. *)
Lemma try_reuses blocking reuse fam msec p reuses n n' r' :
  try_address strerror gai_strerror m blocking reuse fam msec p reuses n = (A_retry, r', n') → r' = reuses + 1 ∧ r' < REDIS_CONNECT_RETRIES.
Proof.
  assert (Hgo : ∀ n1, (let '(a, n2) := finish_connect strerror m blocking n1 in (a, reuses, n2)) = (A_retry, r', n') → False).
  { intros n1. unfold finish_connect. repeat case_match; congruence. }
  unfold try_address. destruct (sys_new_socket m n) as [[s|] n0]; [|done].
  destruct (redisSetBlocking _ _ _ _) as [r n2]. case_if; [done|]. destruct (bind_source _ _ _ _ _ _) as [[] n3]; cbn [negb]; [|done].
  destruct (syscall _ _) as [[] o]; cbn [negb]; [|by intros H%Hgo]. destruct (decide _); [done|]. case_if; [by intros H%Hgo|]. case_if.
  - destruct (Z.geb_spec (reuses + 1) REDIS_CONNECT_RETRIES); [done|]. intros [= <- _]. lia.
  - destruct (redisContextWaitReady _ _ _ _) as [r2 n5]. case_if; [done|by intros H%Hgo].
Qed.

Lemma try_mono blocking reuse fam msec p reuses n : reuses <= (try_address strerror gai_strerror m blocking reuse fam msec p reuses n).1.2.
Proof.
  assert (Hgo : ∀ n1, reuses <= (let '(a, n2) := finish_connect strerror m blocking n1 in (a, reuses, n2)).1.2).
  { intros n1. by destruct (finish_connect _ _ _ _). }
  unfold try_address. destruct (sys_new_socket m n) as [[s|] n0]; [|done].
  destruct (redisSetBlocking _ _ _ _) as [r n2]. case_if; [done|]. destruct (bind_source _ _ _ _ _ _) as [[] n3]; cbn [negb]; [|done].
  destruct (syscall _ _) as [[] o]; cbn [negb]; [|apply Hgo]. destruct (decide _); [done|]. case_if; [apply Hgo|]. case_if.
  - destruct (_ >=? _); cbn; lia.
  - destruct (redisContextWaitReady _ _ _ _) as [r2 n5]. case_if; [done|apply Hgo].
Qed.

Lemma retry_step x blocking reuse fam msec p fuel : (reuse = true → silent) → ∀ reuses n,
  without n → only_fd x n → (0 < fuel)%nat → REDIS_CONNECT_RETRIES - reuses <= Z.of_nat fuel →
  ∃ a r n', retry_loop strerror gai_strerror m fuel blocking reuse fam msec p reuses n = Some (a, r, n') ∧
    a ≠ A_retry ∧ reuses <= r ∧ tried x blocking (a, n').
Proof.
  intros Hs. induction fuel as [|fuel IH]; intros reuses n Hw Hx Hpos Hf; [lia|]. cbn [retry_loop].
  pose proof (try_step x blocking reuse fam msec p reuses n Hw Hx Hs) as Ht. pose proof (try_mono blocking reuse fam msec p reuses n) as Hm.
  pose proof (try_reuses blocking reuse fam msec p reuses n) as Hr. destruct (try_address _ _ _ _ _ _ _ _ _ _) as [[a r] n1]. cbn [fst snd] in *.
  destruct a; [by do 3 eexists| |by do 3 eexists|by do 3 eexists]. destruct (Hr _ _ eq_refl) as [-> Hlt]. destruct Ht as [Hw1 Hx1]. cbn [snd] in *.
  destruct (IH (reuses + 1) n1 Hw1 Hx1) as (a & r & n2 & -> & Ha & Hle & Ht); [unfold REDIS_CONNECT_RETRIES in *; lia|lia|]. do 3 eexists. split_and!; [done|done|lia|done].
Qed.

(** The outcome of connecting; [x] is what the context is to become. *)
Definition connect_outcome (x : conn) (blocking : bool) (out : option (Z * net)) : Prop :=
  ∃ r n, out = Some (r, n) ∧ (r = REDIS_OK ∧ made x blocking n ∨ r = REDIS_ERR ∧ refused x n).

Lemma address_step x blocking reuse fam msec ps : (reuse = true → silent) → ∀ reuses n,
  without n → only_fd x n → 0 <= reuses →
  connect_outcome x blocking (address_loop strerror gai_strerror m blocking reuse fam msec ps reuses n).
Proof.
  intros Hs. induction ps as [|p ps IH]; intros reuses n Hw Hx Hr; cbn [address_loop].
  - do 2 eexists. split; [done|]. right. split; [done|]. by apply without_refused; [|apply only_fd_kept|].
  - destruct (retry_step x blocking reuse fam msec p (Z.to_nat REDIS_CONNECT_RETRIES) Hs reuses n Hw Hx) as (a & r & n1 & -> & Ha & Hle & Ht);
      [unfold REDIS_CONNECT_RETRIES; lia..|]. cbn [mbind option_bind]. destruct a; [|done| |].
    + destruct Ht as [Hw1 Hx1]. apply IH; [done|done|lia].
    + do 2 eexists. split; [done|]. by right.
    + do 2 eexists. split; [done|]. by left.
Qed.

(** A timeout a [long] can hold in microseconds and milliseconds. *)
Definition holdable (t : option (Z * Z)) : Prop :=
  match t with Some (s, u) => in_int64 (s * 1000) ∧ in_int64 (u + 999) ∧ in_int64 (s * 1000 + Z.quot (u + 999) 1000) | None => True end.

Definition overlong (t : option (Z * Z)) : Prop := match t with Some (s, u) => 1000000 < u ∨ MAX_MSEC < s | None => False end.

Lemma timeout_cases t : (overlong t ∧ redisContextTimeoutMsec t = Some (REDIS_ERR, -1)) ∨
  (¬ overlong t ∧ (holdable t → ∃ msec, redisContextTimeoutMsec t = Some (REDIS_OK, msec))).
Proof.
  destruct t as [[s u]|]; cbn; [|right; split; [tauto|by eexists]]. rewrite !Z.gtb_ltb.
  destruct (Z.ltb_spec 1000000 u); [left; cbn; auto|]. destruct (Z.ltb_spec MAX_MSEC s); [left; cbn; auto|]. right. split; [lia|].
  intros (H1 & H2 & H3). cbn. rewrite !bool_decide_eq_true_2 by done. by eexists.
Qed.

Definition tcp_target (addr : option (list Z)) (p : Z) (t : option (Z * Z)) (src : option (list Z)) (x : conn) : conn :=
  set_source src (set_timeout t (set_tcp addr p x)).

Lemma connect_tcp_outcome addr p t src n : without n → (overlong t ∨ holdable t) → (reuseaddr (nc n) = true → silent) →
  connect_outcome (tcp_target addr p t src (nc n)) (c_blocking n) (redisContextConnectTcp_ strerror gai_strerror m addr p t src n).
Proof.
  intros Hw Ht Hs. unfold redisContextConnectTcp_.
  destruct (timeout_cases t) as [[Ho ->]|[Ho He]].
  { cbn [mbind option_bind]. change (negb (REDIS_ERR =? REDIS_OK)) with true. do 2 eexists. split; [done|]. right. split; [done|].
    apply without_refused; [by destruct Hw| |done]. split; [done|]. exists (c_err (ctx (cl (nc n)))), (c_errstr (ctx (cl (nc n)))). cbn. by destruct (cl (nc n)) as [[] ? ?]. }
  destruct He as (msec & ->); [tauto|]. cbn [mbind option_bind]. change (negb (REDIS_OK =? REDIS_OK)) with false. cbn iota.
  set (n1 := on_conn (set_source src) _). assert (Hx : nc n1 = tcp_target addr p t src (nc n)) by done. assert (Hw1 : without n1) by (by destruct Hw). clearbody n1.
  assert (Hrun : ∀ fam ps n2, without n2 → nc n2 = nc n1 →
    connect_outcome (tcp_target addr p t src (nc n)) (c_blocking n) (address_loop strerror gai_strerror m (c_blocking n) (reuseaddr (nc n)) fam msec ps 0 n2)).
  { intros fam ps n2 Hw2 Hx2. apply address_step; [done|done| |done]. unfold only_fd. rewrite Hx2, Hx. by destruct (nc n). }
  destruct (getaddrinfo _ _ _ _ _) as [rv|ps]; [|apply Hrun; [by destruct Hw1|done]].
  destruct (getaddrinfo _ _ _ _ _) as [rv2|ps]; [|apply Hrun; [by destruct Hw1|done]].
  do 2 eexists. split; [done|]. right. split; [done|]. apply without_refused; [by destruct Hw1| |done]. apply only_fd_kept.
  unfold only_fd. cbn. rewrite Hx. by destruct (nc n).
Qed.

Lemma connect_unix_outcome path t n : without n → (overlong t ∨ holdable t) → (overlong t → silent) →
  connect_outcome (set_timeout t (set_unix path (nc n))) (c_blocking n) (redisContextConnectUnix strerror m path t n).
Proof.
  intros Hw Ht Hs. unfold redisContextConnectUnix, redisCreateSocket. pose proof (new_socket_step n Hw) as Hn.
  destruct (sys_new_socket m n) as [[s|] n0]; destruct Hn as [Hn Hc]; cbn iota.
  2:{ change (REDIS_ERR <? 0) with true. do 2 eexists. split; [done|]. right. split; [done|]. apply without_refused; [done| |done].
    rewrite <- Hc. split; [done|]. exists (c_err (ctx (cl (nc n0)))), (c_errstr (ctx (cl (nc n0)))). cbn. by destruct (cl (nc n0)) as [[] ? ?]. }
  change (REDIS_OK <? 0) with false. cbn iota. set (n1 := on_conn (with_fd s) n0) in *. assert (Hx1 : only_fd (nc n) n1) by (unfold only_fd; cbn; by rewrite Hc). clearbody n1.
  destruct (set_blocking_step (nc n) false false n1 Hn Hx1) as [(Hr & H2 & Hx2)|[Hr Hf]]; destruct (redisSetBlocking _ _ _ _) as [r n2]; cbn [fst snd] in *; subst r.
  2:{ change (negb (REDIS_ERR =? REDIS_OK)) with true. do 2 eexists. split; [done|]. by right. }
  change (negb (REDIS_OK =? REDIS_OK)) with false. cbn iota. set (x := set_timeout t (set_unix path (nc n))).
  set (n3 := on_conn _ n2). assert (Hx3 : only_fd x n3) by (unfold only_fd in *; cbn; by rewrite Hx2). assert (H3 : holds true n3) by (by destruct H2). clearbody n3.
  destruct (timeout_cases t) as [[Ho ->]|[Ho He]].
  { cbn [mbind option_bind]. change (negb (REDIS_ERR =? REDIS_OK)) with true. do 2 eexists. split; [done|]. right. split; [done|].
    split; [left; by exists true|]. split; [right; by apply Hs|by apply only_fd_kept]. }
  destruct He as (msec & ->); [tauto|]. cbn [mbind option_bind]. change (negb (REDIS_OK =? REDIS_OK)) with false. cbn iota.
  pose proof (holds_call true n3 (sys_connect m (o_time (no n3)) 0) H3) as H4. destruct (syscall _ _) as [failed o]; cbn [snd] in H4.
  set (n4 := mk_net (nc n3) o) in *. assert (Hx4 : only_fd x n4) by exact Hx3. clearbody n4.
  assert (Hw4 : steps_to x true (if negb failed then (REDIS_OK, n4) else if bool_decide (o_errno o = EINPROGRESS) && negb (c_blocking n) then (REDIS_OK, n4)
                                 else redisContextWaitReady strerror m msec n4)).
  { destruct (negb failed); [by left|]. destruct (_ && _); [by left|by apply wait_ready_step]. }
  destruct Hw4 as [(Hr & H5 & Hx5)|[Hr Hf]]; destruct (if negb failed then _ else _) as [r n5]; cbn [fst snd] in *; subst r.
  2:{ change (negb (REDIS_ERR =? REDIS_OK)) with true. do 2 eexists. split; [done|]. by right. }
  change (negb (REDIS_OK =? REDIS_OK)) with false. cbn iota.
  assert (Hb : steps_to x (negb (c_blocking n)) (if c_blocking n then redisSetBlocking strerror m true n5 else (REDIS_OK, n5))).
  { destruct (c_blocking n); [by apply (set_blocking_step x true)|by left]. }
  destruct Hb as [(Hr & H6 & Hx6)|[Hr Hf]]; destruct (if c_blocking n then _ else _) as [r n6]; cbn [fst snd] in *; subst r.
  - do 2 eexists. split; [done|]. left. split; [done|]. split; [by destruct H6|]. unfold only_fd in Hx6. cbn. by rewrite Hx6.
  - do 2 eexists. split; [done|]. by right.
Qed.
End props.

(** ** The ways to connect *)

Inductive way :=
| by_tcp (ip : list Z) (p : Z)
| by_tcp_timeout (ip : list Z) (p : Z) (tv : Z * Z)
| by_tcp_nonblock (ip : list Z) (p : Z)
| by_bind_nonblock (ip : list Z) (p : Z) (src : option (list Z))
| by_bind_reuse (ip : list Z) (p : Z) (src : option (list Z))
| by_unix (path : list Z)
| by_unix_timeout (path : list Z) (tv : Z * Z)
| by_unix_nonblock (path : list Z).

Definition blocks (w : way) : bool := match w with by_tcp _ _ | by_tcp_timeout _ _ _ | by_unix _ | by_unix_timeout _ _ => true | _ => false end.

Definition way_timeout (w : way) : option (Z * Z) := match w with by_tcp_timeout _ _ tv | by_unix_timeout _ tv => Some tv | _ => None end.

(** The ways that may fail without an error in the context. *)
Definition may_be_silent (w : way) : Prop :=
  match w with by_bind_reuse _ _ _ => True | by_unix_timeout _ tv => overlong (Some tv) | _ => False end.

Section ways.
Context (strerror : errno → list Z) (gai_strerror : Z → list Z) (m : machine) (junk : Z).

Definition connect_by (w : way) (h : reply_heap) (k : kernel) (o : os) : option (option net) :=
  match w with
  | by_tcp ip p => redisConnect strerror gai_strerror m junk true true true true h k o ip p
  | by_tcp_timeout ip p tv => redisConnectWithTimeout strerror gai_strerror m junk true true true true h k o ip p tv
  | by_tcp_nonblock ip p => redisConnectNonBlock strerror gai_strerror m junk true true true true h k o ip p
  | by_bind_nonblock ip p src => redisConnectBindNonBlock strerror gai_strerror m junk true true true true h k o ip p src
  | by_bind_reuse ip p src => redisConnectBindNonBlockWithReuse strerror gai_strerror m junk true true true true h k o ip p src
  | by_unix path => redisConnectUnix strerror m junk true true true true h k o path
  | by_unix_timeout path tv => redisConnectUnixWithTimeout strerror m junk true true true true h k o path tv
  | by_unix_nonblock path => redisConnectUnixNonBlock strerror m junk true true true true h k o path
  end.

(** A connection that can be used: its own descriptor in the mode [negb blk],
    nothing sent or read yet. *)
Definition ready (blk : bool) (others : gmap Z bool) (p : nat) (replies : gmap nat redisReply) (n : net) : Prop :=
  connected (nc n) = true ∧ holds others (negb blk) n ∧ conn_rel blk p replies (pstart []) [] (cl (nc n)).

Lemma free_net others stale p replies st n : (∃ b, holds others b n) ∨ without others stale n → (stale → fd (nc n) <= 0) →
  ready_rel p replies st (c_reader (ctx (cl (nc n)))) (hp (cl (nc n))) →
  ∃ n', net_free n = Some n' ∧ o_open (no n') = others ∧ o_bad (no n') = [] ∧ objs (hp (cl (nc n'))) = replies.
Proof.
  intros H Hst Hr. unfold net_free. destruct (redis_free_ok _ _ _ _ Hr) as (x' & -> & _ & _ & Ho & _). cbn [mbind option_bind].
  assert (Hfd : o_open (no (free_fd n)) = others ∧ o_bad (no (free_fd n)) = []).
  { unfold free_fd. destruct H as [(b & [H1 H2 H3 H4])|[H1 H2 H3]].
    - destruct (Z.gtb_spec (fd (nc n)) 0); [|lia]. cbn [no on_os]. unfold sys_close. rewrite H3, lookup_insert_eq. cbn [o_open o_bad].
      split; [|done]. by rewrite delete_insert_eq, delete_id.
    - destruct (Z.gtb_spec (fd (nc n)) 0) as [Hpos|]; [|done]. destruct H1 as [|Hs]; [lia|]. specialize (Hst Hs). lia. }
  eexists. split; [done|]. cbn [nc no on_conn cl with_cl]. destruct Hfd. by split_and!.
Qed.

(** What connecting comes to, told of the context the function returns. *)
Lemma outcome_ready others stale silent x blk p replies out :
  connect_outcome others stale silent x blk out → connected x = false → (stale → False) → conn_rel blk p replies (pstart []) [] (cl x) →
  ∃ r n, out = Some (r, n) ∧ (ready blk others p replies n ∨ connected (nc n) = false ∧ (c_err (ctx (cl (nc n))) ≠ 0 ∨ silent)) ∧
    ∃ n', net_free n = Some n' ∧ o_open (no n') = others ∧ o_bad (no n') = [] ∧ objs (hp (cl (nc n'))) = replies.
Proof.
  intros (r & n & -> & H) Hx Hst Hcl. exists r, n. split; [done|]. destruct H as [[_ [Hh Hn]]|[_ (Ho & He & Hc & e & s & Hk)]].
  - assert (Hcn : cl (nc n) = cl x) by (by rewrite Hn). split; [left; split_and!; [by rewrite Hn|done|by rewrite Hcn]|].
    apply (free_net others stale p replies (pstart [])); [left; by eexists|tauto|]. rewrite Hcn. apply Hcl.
  - split; [right; split; [congruence|done]|]. apply (free_net others stale p replies (pstart [])); [done|tauto|]. rewrite Hk. apply Hcl.
Qed.

Definition usable (others : gmap Z bool) (blk : bool) (silent : Prop) (p : nat) (replies : gmap nat redisReply) (n : net) : Prop :=
  (ready blk others p replies n ∨ connected (nc n) = false ∧ (c_err (ctx (cl (nc n))) ≠ 0 ∨ silent)) ∧
  ∃ n', net_free n = Some n' ∧ o_open (no n') = others ∧ o_bad (no n') = [] ∧ objs (hp (cl (nc n'))) = replies.

Lemma connect_with_usable silent blk reuse connect tgt p replies k o :
  below p replies → o_bad o = [] → (∀ x, connected (tgt x) = connected x ∧ cl (tgt x) = cl x) →
  (∀ n, without (o_open o) False n → reuseaddr (nc n) = reuse → c_blocking n = blk → connect_outcome (o_open o) False silent (tgt (nc n)) blk (connect n)) →
  ∃ n, connect_with junk true true true true blk reuse connect (mk_heap replies p []) k o = Some (Some n) ∧ usable (o_open o) blk silent p replies n.
Proof.
  intros Hb Hbad Htgt Hcon. unfold connect_with, new_context.
  destruct (context_init_ok junk p replies k blk Hb) as (c & -> & Hbl & He & Hob & Hr).
  set (n0 := mk_net _ o). destruct (Htgt (nc n0)) as [Hc1 Hc2].
  destruct (outcome_ready (o_open o) False silent (tgt (nc n0)) blk p replies (connect n0)) as (r & n & -> & Hn).
  - apply Hcon; [|done|done]. split; [left; cbn; lia|done|done].
  - by rewrite Hc1.
  - done.
  - rewrite Hc2. by split.
  - exists n. split; [done|exact Hn].
Qed.

(** C16: connecting in one of the eight ways in which the library makes the socket
    itself (over TCP, with a timeout, non-blocking, bound to an address, bound with
    address reuse, and over a Unix socket, with a timeout and non-blocking; not
    [redisConnectFd], which takes the descriptor of its caller) returns a context,
    whatever the kernel answers, provided that descriptor 0 is in use (if the
    kernel gives it out, it is never closed: [descriptor_zero_leaks]), that the
    timeout is too long and refused or short enough for its milliseconds not to
    overflow, that no descriptor was closed wrongly before, and that the
    allocations succeed.  Either the context is connected, has one descriptor of
    its own in the mode the caller asked for, and is ready for the protocol; or it
    is not connected and says why, but for the listed cases; and freeing it leaves
    the table of open descriptors and the heap as they were, with no descriptor
    closed twice. *)
Theorem connecting_keeps_one_descriptor w p replies k o :
  (overlong (way_timeout w) ∨ holdable (way_timeout w)) → below p replies → is_Some (o_open o !! 0) → o_bad o = [] →
  ∃ n, connect_by w (mk_heap replies p []) k o = Some (Some n) ∧ usable (o_open o) (blocks w) (may_be_silent w) p replies n.
Proof.
  intros Ht Hb H0 Hbad.
  assert (Htcp : ∀ addr q t src reuse blk silent, (overlong t ∨ holdable t) → (reuse = true → silent) →
    ∃ n, connect_with junk true true true true blk reuse (redisContextConnectTcp_ strerror gai_strerror m addr q t src) (mk_heap replies p []) k o = Some (Some n) ∧
      usable (o_open o) blk silent p replies n).
  { intros addr q t src reuse blk silent Hto Hs. apply (connect_with_usable silent blk reuse _ (tcp_target addr q t src)); [done|done|done|].
    intros n Hw Hr <-. apply connect_tcp_outcome; [done|done|done|]. by rewrite Hr. }
  assert (Hunix : ∀ path t blk (silent : Prop), (overlong t ∨ holdable t) → (overlong t → silent) →
    ∃ n, connect_with junk true true true true blk false (redisContextConnectUnix strerror m path t) (mk_heap replies p []) k o = Some (Some n) ∧
      usable (o_open o) blk silent p replies n).
  { intros path t blk silent Hto Hs. apply (connect_with_usable silent blk false _ (λ x, set_timeout t (set_unix path x))); [done|done|done|].
    intros n Hw Hr <-. by apply connect_unix_outcome. }
  destruct w; first [by apply Htcp | by apply Hunix].
Qed.

(** What a context connects to. *)
Definition goal_of (x : conn) : conn_type * option (list Z) * Z * option (list Z) * option (list Z) * option (Z * Z) :=
  (connection_type x, host x, port x, source_addr x, upath x, timeout x).

Definition reconnect_may_be_silent (x : conn) : Prop :=
  match connection_type x with CONN_TCP => reuseaddr x = true | CONN_UNIX => overlong (timeout x) end.

Lemma free_fd_without others n b : holds others b n ∨ without others False n → without others True (free_fd n) ∧ nc (free_fd n) = nc n.
Proof.
  unfold free_fd. intros [[H1 H2 H3 H4]|[H1 H2 H3]].
  - destruct (Z.gtb_spec (fd (nc n)) 0); [|lia]. split; [|done]. split; [by right| |]; cbn; unfold sys_close; rewrite H3, lookup_insert_eq; [|done].
    cbn. by rewrite delete_insert_eq, delete_id.
  - destruct (Z.gtb_spec (fd (nc n)) 0); [destruct H1; [lia|done]|]. split; [|done]. split; [by right|done|done].
Qed.

Lemma outcome_again others silent blk x p replies g out :
  connect_outcome others True silent x blk out → goal_of x = g → conn_rel blk p replies (pstart []) [] (cl x) →
  ∃ r n', out = Some (r, n') ∧
    (r = REDIS_OK ∧ ready blk others p replies n' ∧ goal_of (nc n') = g ∨ r = REDIS_ERR ∧ (c_err (ctx (cl (nc n'))) ≠ 0 ∨ silent)).
Proof.
  intros (r & n' & -> & H) <- Hc. exists r, n'. split; [done|]. destruct H as [[-> [Hh Hmade]]|[-> (_ & He & _)]]; [left|right; done].
  split; [done|]. split; [|by rewrite Hmade]. split_and!; [by rewrite Hmade|done|]. rewrite Hmade. exact Hc.
Qed.

(** C17: a successful [redisReconnect] starts over.  The context holds an open
    descriptor of its own or has none (this excludes the number of a descriptor it
    has already closed, which a reconnection that failed leaves in it: the next one
    closes that number again, [failed_reconnect_closes_twice]), it can be freed,
    descriptor 0 is in use, its timeout is too long and refused or does not
    overflow, and the allocations succeed.  Then, whatever was in its buffers,
    whatever its error was and however far a reply had been read, and whatever the
    kernel answers: after a success it has a new descriptor as its only one, no
    error, empty buffers, no unfinished reply, and the target it had; a
    reconnection that fails has an error, but for the listed cases. *)
Theorem reconnect_starts_over others b n replies x' :
  holds others b n ∨ without others False n → is_Some (others !! 0) → (overlong (timeout (nc n)) ∨ holdable (timeout (nc n))) →
  redisFree (cl (nc n)) = Some x' → objs (hp x') = replies → below (next (hp x')) replies → mem (hp x') = [] →
  ∃ r n', redisReconnect strerror gai_strerror m junk true true true n = Some (r, n') ∧
    (r = REDIS_OK ∧ ready (c_blocking n) others (next (hp x')) replies n' ∧ goal_of (nc n') = goal_of (nc n)
     ∨ r = REDIS_ERR ∧ (c_err (ctx (cl (nc n'))) ≠ 0 ∨ reconnect_may_be_silent (nc n))).
Proof.
  intros Hn H0 Ht Hx' Hobj Hb Hmem. destruct (free_fd_without others n b Hn) as [Hw Hnc]. unfold redisReconnect.
  set (n1 := free_fd n) in *. clearbody n1. rewrite Hnc, Hx'. cbn [mbind option_bind].
  assert (Hctx : ctx x' = ctx (cl (nc n))) by (unfold redisFree in Hx'; destruct (redisReaderFree _ _) as [h'|]; [by injection Hx' as <-|done]).
  destruct (sdsnewlen_ok junk [] 0) as (s & Hs & Hok & Hcs & _); [done|done|]. unfold sdsempty. rewrite Hs. rewrite take_nil in Hcs. cbn [mbind option_bind].
  destruct (create_reader_ok junk (next (hp x')) replies Hb) as (r & -> & Hr). cbn [mbind option_bind].
  assert (Hr' : ready_rel (next (hp x')) replies (pstart []) r (hp x')) by (destruct (hp x') as [mo ne me]; cbn in *; by subst).
  set (n2 := on_conn _ n1). assert (Hw2 : without others True n2) by (by destruct Hw). assert (Hg2 : goal_of (nc n2) = goal_of (nc n)) by (unfold goal_of; cbn; by rewrite Hnc).
  assert (Hcl : conn_rel (c_blocking n) (next (hp x')) replies (pstart []) [] (cl (nc n2))).
  { split; [done|cbn; by rewrite Hctx|by exists s|exact Hr']. }
  assert (Hreu : reuseaddr (nc n2) = reuseaddr (nc n)) by (cbn; by rewrite Hnc). assert (Hblk : c_blocking n2 = c_blocking n) by (unfold c_blocking; cbn; by rewrite Hctx).
  clearbody n2. clear Hnc Hw n1. injection Hg2 as E1 E2 E3 E4 E5 E6.
  unfold reconnect_may_be_silent. rewrite <- E1. rewrite <- E6 in Ht. destruct (connection_type (nc n2)) eqn:Hct.
  - apply (outcome_again others _ _ (tcp_target (host (nc n2)) (port (nc n2)) (timeout (nc n2)) (source_addr (nc n2)) (nc n2)));
      [|unfold goal_of; cbn; congruence|done]. rewrite <- Hblk. apply connect_tcp_outcome; [done|done|done|]. by rewrite Hreu.
  - apply (outcome_again others _ _ (set_timeout (timeout (nc n2)) (set_unix (upath (nc n2)) (nc n2)))); [|unfold goal_of; cbn; congruence|done].
    rewrite <- Hblk. apply (connect_unix_outcome strerror gai_strerror); [done|done|done|by rewrite E6].
Qed.
End ways.

(** ** Timeouts *)

(** A timeout is waited for in milliseconds, rounded up, and at most the largest
    [int]. *)
Lemma timeout_rounds_up s u : 0 <= s <= MAX_MSEC → 0 <= u <= 1000000 →
  redisContextTimeoutMsec (Some (s, u)) = Some (REDIS_OK, Z.min INT_MAX ((s * 1000000 + u + 999) / 1000)).
Proof.
  intros Hs Hu. unfold MAX_MSEC in Hs. change (Z.quot (2 ^ 63 - 1 - 999) 1000) with 9223372036854774 in Hs. unfold redisContextTimeoutMsec. cbn beta iota zeta.
  change MAX_MSEC with 9223372036854774. rewrite !Z.gtb_ltb.
  destruct (Z.ltb_spec 1000000 u); [lia|]. destruct (Z.ltb_spec 9223372036854774 s); [lia|]. cbn [orb].
  rewrite Z.quot_div_nonneg by lia. assert (Hd : 0 <= (u + 999) / 1000 < 1001) by (split; [apply Z.div_pos; lia|apply Z.div_lt_upper_bound; lia]).
  rewrite !bool_decide_eq_true_2 by (unfold in_int64, int64_max; lia). cbn [andb].
  replace (s * 1000000 + u + 999) with ((s * 1000) * 1000 + (u + 999)) by lia. rewrite Z.div_add_l by lia.
  do 2 f_equal. destruct (Z.ltb_spec (s * 1000 + (u + 999) / 1000) 0); [lia|]. cbn [orb].
  destruct (Z.ltb_spec INT_MAX (s * 1000 + (u + 999) / 1000)); lia.
Qed.

(** ** Examples *)

(** A kernel with two addresses, the first of which cannot be reached; the
    connection to the second takes a while. *)
Definition good_calls (n : nat) : option errno := None.
Definition example_machine : machine :=
  mk_machine good_calls good_calls good_calls (λ _ _, None) (λ _ p, Some (if p =? 1 then EHOSTUNREACH else EINPROGRESS)) (λ _ _, P_ready) (λ _, S_ok)
    (λ _ _ _ _, inr [1; 2]).

Definition example_os : os := mk_os {[ 0 := false ]} E_other 0 [].
Definition no_kernel : kernel := mk_kernel [] [] [].

Lemma example_timeout : holdable (Some (1, 500000)).
Proof. unfold holdable, in_int64, int64_max. change (Z.quot (500000 + 999) 1000) with 500. lia. Qed.

Lemma empty_heap_below p : below p ∅.
Proof. intros a [x Ha]. by rewrite lookup_empty in Ha. Qed.

Lemma connecting_keeps_one_descriptor_witness :
  ∃ n, connect_by (λ _, []) (λ _, []) example_machine 170 (by_tcp_timeout (chars "redis") 6379 (1, 500000)) (mk_heap ∅ 0 []) no_kernel example_os = Some (Some n) ∧
    usable {[ 0 := false ]} true False 0 ∅ n.
Proof.
  apply (connecting_keeps_one_descriptor (λ _, []) (λ _, []) example_machine 170 (by_tcp_timeout (chars "redis") 6379 (1, 500000)) 0 ∅ no_kernel example_os).
  - right. exact example_timeout.
  - apply empty_heap_below.
  - by vm_compute; eexists.
  - reflexivity.
Defined.

(** A connected context with the descriptor 3. *)
Definition example_conn (x : client) : net :=
  mk_net (mk_conn x 3 true false CONN_TCP None (Some (chars "redis")) None 6379 None) (mk_os {[ 0 := false; 3 := false ]} E_other 0 []).

Lemma reconnect_starts_over_witness :
  ∃ x r n', fresh_client true no_kernel = Some x ∧
    redisReconnect (λ _, []) (λ _, []) example_machine 170 true true true (example_conn x) = Some (r, n') ∧
    (r = REDIS_OK ∧ ready true {[ 0 := false ]} 0 ∅ n' ∧ goal_of (nc n') = goal_of (nc (example_conn x))
     ∨ r = REDIS_ERR ∧ (c_err (ctx (cl (nc n'))) ≠ 0 ∨ False)).
Proof.
  unfold fresh_client. destruct (context_init_ok 170 0 ∅ no_kernel true (empty_heap_below 0)) as (c & Hc & Hbl & He & Hob & Hr).
  rewrite Hc. set (x := mk_client c (mk_heap ∅ 0 []) no_kernel).
  destruct (redis_free_ok 0 ∅ (pstart []) x Hr) as (x' & Hx' & _ & _ & Ho & _ & Hm).
  assert (Hn' : next (hp x') = O).
  { revert Hx'. unfold redisFree, redisReaderFree. destruct Hr as [[[[_ _ _ Hst (_ & Hn & _) Hre _] _]|(l & _ & Hid)] _].
    - cbn [pstart frames] in Hre. unfold x. cbn [ctx c_reader hp]. rewrite Hre. by intros [= <-].
    - unfold x. cbn [ctx c_reader hp]. rewrite (id_reply _ _ _ _ _ Hid). by intros [= <-]. }
  destruct (reconnect_starts_over (λ _, []) (λ _, []) example_machine 170 {[ 0 := false ]} false (example_conn x) ∅ x') as (r & n' & Hrec & Hres).
  - left. split; [done|done|by vm_compute|reflexivity].
  - by vm_compute; eexists.
  - right. exact I.
  - exact Hx'.
  - exact Ho.
  - rewrite Hn'. apply empty_heap_below.
  - exact Hm.
  - exists x, r, n'. split; [reflexivity|]. split; [exact Hrec|]. destruct Hres as [(H1 & H2 & H3)|(H1 & [H2|H2])].
    + left. rewrite Hn' in H2. unfold c_blocking in H2. cbn [nc example_conn cl x ctx] in H2. rewrite Hbl in H2. split_and!; assumption.
    + right. split; [exact H1|]. left. exact H2.
    + discriminate H2.
Defined.

(** What a caller sees of a context: whether it is connected, its error and its
    descriptor. *)
Definition seen (n : option (option net)) : option (bool * Z * Z) :=
  match n with Some (Some n) => Some (connected (nc n), c_err (ctx (cl (nc n))), fd (nc n)) | _ => None end.

Definition connect_example (m : machine) (w : way) (o : os) : option (option net) :=
  connect_by (λ _, []) (λ _, []) m 170 w (mk_heap ∅ 0 []) no_kernel o.

(** Without permission to reuse the address, or when every local address is
    taken, the context is not connected and has no error. *)
Lemma reuse_fails_without_error :
  let deny := mk_machine good_calls good_calls (λ _, Some E_other) (λ _ _, None) (λ _ _, None) (λ _ _, P_ready) (λ _, S_ok) (λ _ _ _ _, inr [1]) in
  let taken := mk_machine good_calls good_calls good_calls (λ _ _, None) (λ _ _, Some EADDRNOTAVAIL) (λ _ _, P_ready) (λ _, S_ok) (λ _ _ _ _, inr [1]) in
  seen (connect_example deny (by_bind_reuse (chars "redis") 6379 (Some (chars "me"))) example_os) = Some (false, 0, 1) ∧
  seen (connect_example taken (by_bind_reuse (chars "redis") 6379 (Some (chars "me"))) example_os) = Some (false, 0, 1).
Proof. by vm_compute. Qed.

(** A timeout that is too long fails a connection to a Unix socket without an
    error. *)
Lemma unix_timeout_fails_without_error :
  seen (connect_example example_machine (by_unix_timeout (chars "/tmp/redis") (1, 2000000)) example_os) = Some (false, 0, 1).
Proof. by vm_compute. Qed.

(** When a reconnection fails before there is a new socket, the context keeps
    the number of the descriptor it has closed, and [redisFree] closes it
    again. *)
Lemma failed_reconnect_closes_twice :
  let m := mk_machine good_calls good_calls good_calls (λ _ _, None) (λ _ _, None) (λ _ _, P_ready) (λ _, S_ok) (λ _ _ _ _, inl 5) in
  (o_bad ∘ no <$> (fresh_client true no_kernel ≫= λ x, redisReconnect (λ _, []) (λ _, []) m 170 true true true (example_conn x) ≫= λ out, net_free out.2)) =
  Some [3].
Proof. by vm_compute. Qed.

(** A connection that gets the descriptor 0 is never closed. *)
Lemma descriptor_zero_leaks :
  (connect_example example_machine (by_tcp_nonblock (chars "redis") 6379) (mk_os ∅ E_other 0 []) ≫= λ n, n ≫= λ n, o_open ∘ no <$> net_free n) =
  Some {[ 0 := true ]}.
Proof. by vm_compute. Qed.

(** A port of more than five digits is cut. *)
Lemma long_port_is_cut :
  let m := mk_machine good_calls good_calls good_calls (λ _ _, None) (λ _ _, None) (λ _ _, P_ready) (λ _, S_ok)
    (λ _ _ _ service, if decide (service = Some (chars "12345")) then inr [1] else inl 1) in
  seen (connect_example m (by_tcp (chars "redis") 123456) example_os) = Some (true, 0, 1).
Proof. by vm_compute. Qed.
