(* ===== verification/Async.v ===== *)
(** * vendors/hiredis/async.c: the callback interface

    An asynchronous context is a connection that does not block, with a queue of
    callbacks for the replies to come, tables of callbacks for channels and
    patterns, and flags.  The event loop calls the handlers for reading and
    writing.  What a callback does with the context is an argument, a list of
    calls; what becomes visible outside is a list of events.  [None] is a failed
    [assert], an access to something that is not there, or the use of a context
    that was freed. *)

From Stdlib Require Ascii String.
From stdpp Require Import strings.
From S2P Require Import Prelude Dict Sds SdsProps Numbers SdsFmt SdsText SdsTextProps SdsArgs Read Reply Resp ReplyTree ReadProps Command FormatCommand Context Net.
Local Open Scope Z_scope.

(** ** Data *)

(** [redisCallback]; a function is a number. *)
Record redisCallback := mk_callback { cb_fn : option Z; pending_subs : Z; privdata : Z }.
#[global] Instance redisCallback_eq_dec : EqDecision redisCallback.
Proof. solve_decision. Defined.

(** The functions of the event library, and what can be seen from outside. *)
Inductive io := addRead | delRead | addWrite | delWrite | cleanup.
Inductive event :=
| E_callback (cb : redisCallback) (reply : option tree)
| E_queued (cb : redisCallback) (* a command that awaits a reply is accepted *)
| E_connect (status : Z)
| E_disconnect (status : Z)
| E_io (f : io).

Record flags := mk_flags {
  CONNECTED : bool; DISCONNECTING : bool; FREEING : bool; IN_CALLBACK : bool; SUBSCRIBED : bool; MONITORING : bool
}.
Definition set_connected f := mk_flags true (DISCONNECTING f) (FREEING f) (IN_CALLBACK f) (SUBSCRIBED f) (MONITORING f).
Definition set_disconnecting f := mk_flags (CONNECTED f) true (FREEING f) (IN_CALLBACK f) (SUBSCRIBED f) (MONITORING f).
Definition set_freeing f := mk_flags (CONNECTED f) (DISCONNECTING f) true (IN_CALLBACK f) (SUBSCRIBED f) (MONITORING f).
Definition set_in_callback b f := mk_flags (CONNECTED f) (DISCONNECTING f) (FREEING f) b (SUBSCRIBED f) (MONITORING f).
Definition set_subscribed b f := mk_flags (CONNECTED f) (DISCONNECTING f) (FREEING f) (IN_CALLBACK f) b (MONITORING f).
Definition set_monitoring f := mk_flags (CONNECTED f) (DISCONNECTING f) (FREEING f) (IN_CALLBACK f) (SUBSCRIBED f) true.

(** The names in the tables are sds strings, here their content. *)
Abbreviation callbacks := (dict (list Z) redisCallback).

(** [redisAsyncContext].  [ev] says which functions of the event library are
    set, [next_entry] is the address of the next entry of a table; [alive] is
    false when the context was freed. *)
Record redisAsyncContext := mk_async {
  ac_c : client;
  ac_err : Z;
  ac_flags : flags;
  ev : io → bool;
  onConnect : bool;
  onDisconnect : bool;
  replies : list redisCallback;
  invalid : list redisCallback;
  channels : callbacks;
  patterns : callbacks;
  next_entry : nat;
  events : list event;
  alive : bool
}.

Definition with_client c a := mk_async c (ac_err a) (ac_flags a) (ev a) (onConnect a) (onDisconnect a) (replies a) (invalid a) (channels a) (patterns a) (next_entry a) (events a) (alive a).
Definition with_err e a := mk_async (ac_c a) e (ac_flags a) (ev a) (onConnect a) (onDisconnect a) (replies a) (invalid a) (channels a) (patterns a) (next_entry a) (events a) (alive a).
Definition with_flags f a := mk_async (ac_c a) (ac_err a) f (ev a) (onConnect a) (onDisconnect a) (replies a) (invalid a) (channels a) (patterns a) (next_entry a) (events a) (alive a).
Definition with_handlers b1 b2 a := mk_async (ac_c a) (ac_err a) (ac_flags a) (ev a) b1 b2 (replies a) (invalid a) (channels a) (patterns a) (next_entry a) (events a) (alive a).
Definition with_replies l a := mk_async (ac_c a) (ac_err a) (ac_flags a) (ev a) (onConnect a) (onDisconnect a) l (invalid a) (channels a) (patterns a) (next_entry a) (events a) (alive a).
Definition with_invalid l a := mk_async (ac_c a) (ac_err a) (ac_flags a) (ev a) (onConnect a) (onDisconnect a) (replies a) l (channels a) (patterns a) (next_entry a) (events a) (alive a).
Definition with_subs ch pt n a := mk_async (ac_c a) (ac_err a) (ac_flags a) (ev a) (onConnect a) (onDisconnect a) (replies a) (invalid a) ch pt n (events a) (alive a).
Definition emit e a := mk_async (ac_c a) (ac_err a) (ac_flags a) (ev a) (onConnect a) (onDisconnect a) (replies a) (invalid a) (channels a) (patterns a) (next_entry a) (events a ++ [e]) (alive a).
Definition dead a := mk_async (ac_c a) (ac_err a) (ac_flags a) (ev a) (onConnect a) (onDisconnect a) (replies a) (invalid a) (channels a) (patterns a) (next_entry a) (events a) false.

Definition flag (f : flags → flags) (a : redisAsyncContext) : redisAsyncContext := with_flags (f (ac_flags a)) a.

(** [_EL_ADD_READ] and the like. *)
Definition call_ev (f : io) (a : redisAsyncContext) : redisAsyncContext := if ev a f then emit (E_io f) a else a.

(** ** The tables *)

(** [callbackHash], [callbackKeyCompare] and [callbackDict]; the length of a name
    is an [int]. *)
Definition int_prefix (k : list Z) : list Z := take (Z.to_nat (to_int (Z.of_nat (length k)))) k.
Definition callbackHash (k : list Z) : Z := dictGenHashFunction (int_prefix k).
Definition callbackKeyCompare (k1 k2 : list Z) : bool :=
  if negb (to_int (Z.of_nat (length k1)) =? to_int (Z.of_nat (length k2))) then false else memcmp (int_prefix k1) (int_prefix k2) =? 0.
Definition callbackDict : dictType (list Z) redisCallback :=
  mk_dictType callbackHash None (Some id) (Some callbackKeyCompare) true true.

(** [static redisAsyncContext *redisAsyncInitialize(redisContext *c)] *)
Definition redisAsyncInitialize (c : client) : redisAsyncContext :=
  mk_async c 0 (mk_flags false false false false false false) (λ _, false) false false [] []
    (dictCreate callbackDict) (dictCreate callbackDict) 0 [] true.

(** [static void __redisAsyncCopyError(redisAsyncContext *ac)]; the text is
    shared. *)
Definition copyError (a : redisAsyncContext) : redisAsyncContext := with_err (c_err (ctx (ac_c a))) a.

(** [int redisAsyncSetConnectCallback(...)], [int redisAsyncSetDisconnectCallback(...)] *)
Definition redisAsyncSetConnectCallback (a : redisAsyncContext) : Z * redisAsyncContext :=
  if negb (onConnect a) then (REDIS_OK, call_ev addWrite (with_handlers true (onDisconnect a) a)) else (REDIS_ERR, a).
Definition redisAsyncSetDisconnectCallback (a : redisAsyncContext) : Z * redisAsyncContext :=
  if negb (onDisconnect a) then (REDIS_OK, with_handlers (onConnect a) true a) else (REDIS_ERR, a).

(** ** Queues *)

(** [static int __redisPushCallback(redisCallbackList *list, redisCallback *source)] *)
Definition pushCallback (ok : bool) (l : list redisCallback) (source : redisCallback) : Z * list redisCallback :=
  if ok then (REDIS_OK, l ++ [source]) else (REDIS_ERR_OOM, l).

(** [static int __redisShiftCallback(redisCallbackList *list, redisCallback *target)] *)
Definition shiftCallback (l : list redisCallback) : Z * option redisCallback * list redisCallback :=
  match l with
  | cb :: r => (REDIS_OK, Some cb, r)
  | [] => (REDIS_ERR, None, [])
  end.

(** ** Commands *)

(** [strtol(p, NULL, 10)] *)
Fixpoint digits_at (p : list Z) (acc : Z) : Z :=
  match p with
  | c :: r => if isdigit c then digits_at r (acc * 10 + (c - 48)) else acc
  | [] => acc
  end.
Definition strtol (p : list Z) : Z :=
  let p := match skip isspace p with Some q => q | None => p end in
  let clamp (v : Z) := Z.max (- 2 ^ 63) (Z.min (2 ^ 63 - 1) v) in
  match p with
  | 45 :: r => clamp (- digits_at r 0)
  | 43 :: r => clamp (digits_at r 0)
  | _ => clamp (digits_at p 0)
  end.

(** [strchr(p, c)]: the memory from the first [c] on, or null; [None] if it runs
    over the end of the memory. *)
Fixpoint find_char (p : list Z) (c : Z) : option (option (list Z)) :=
  match p with
  | [] => None
  | x :: r => if x =? c then Some (Some p) else if x =? 0 then Some None else find_char r c
  end.

(** [strncasecmp(p, s, n) == 0]; [s] has [n] characters. *)
Fixpoint begins_with (p s : list Z) {struct s} : option bool :=
  match s with
  | [] => Some true
  | y :: s' =>
    match p with
    | [] => None
    | x :: p' => if tolower x =? tolower y then begins_with p' s' else Some false
    end
  end.

(** [static const char *nextArgument(const char *start, const char **str, size_t *len)]:
    the argument's memory, its length, and what is behind it. *)
Definition nextArgument (start : list Z) : option (option (list Z * Z * list Z)) :=
  match find_char start 36 with
  | None => None
  | Some None => Some None
  | Some (Some p) =>
    let len := to_size_t (to_int (strtol (tail p))) in
    match find_char p 13 with
    | Some (Some q) =>
      let str := drop 2 q in
      if len + 2 <=? Z.of_nat (length str) then Some (Some (str, len, drop (Z.to_nat (len + 2)) str)) else None
    | _ => None
    end
  end.

(** One channel of a subscription. *)
Definition subscribe_one (pvariant : bool) (sname : list Z) (cb : redisCallback) (a : redisAsyncContext) : option (redisCallback * redisAsyncContext) :=
  let cbdict := if pvariant then patterns a else channels a in
  match dictFind cbdict sname with
  | None => None
  | Some de =>
    let cb := match de with Some e => mk_callback (cb_fn cb) (to_int (pending_subs (e_val e) + 1)) (privdata cb) | None => cb end in
    match dictReplace (next_entry a) cbdict sname cb with
    | None => None
    | Some (_, d, _) =>
      Some (cb, if pvariant then with_subs (channels a) d (S (next_entry a)) a else with_subs d (patterns a) (S (next_entry a)) a)
    end
  end.

(** The loop over the channels; every argument takes bytes. *)
Fixpoint subscribe_loop (fuel : nat) (pvariant : bool) (p : list Z) (cb : redisCallback) (a : redisAsyncContext) : option redisAsyncContext :=
  match fuel with
  | O => None
  | S fuel' =>
    match nextArgument p with
    | None => None
    | Some None => Some a
    | Some (Some (astr, alen, p1)) =>
      match subscribe_one pvariant (take (Z.to_nat alen) astr) cb a with
      | None => None
      | Some (cb1, a1) => subscribe_loop fuel' pvariant p1 cb1 a1
      end
    end
  end.

Section async.
(** Uninitialised memory; whether the allocations of a callback, of a table's
    entry and of the buffer succeed; the texts of [strerror_r]; and what the
    user's callbacks do. *)
Context (junk : Z) (strerror : errno → list Z).

(** [static int __redisAsyncCommand(redisAsyncContext *ac, redisCallbackFn *fn, void *privdata, const char *cmd, size_t len)];
    [cmd] is the memory of the command.  The results of [__redisPushCallback] and
    [__redisAppendCommand] are not looked at. *)
Definition redisAsyncCommand_ (ok1 ok2 : bool) (fn : option Z) (priv : Z) (cmd : list Z) (len : Z) (a : redisAsyncContext)
  : option (Z * redisAsyncContext) :=
  let append (a : redisAsyncContext) :=
    bs ← read_at 0 len cmd;
    '(_, c1) ← redisAppendCommand_ junk strerror ok2 bs (ac_c a);
    Some (REDIS_OK, call_ev addWrite (with_client c1 a)) in
  if DISCONNECTING (ac_flags a) || FREEING (ac_flags a) then Some (REDIS_ERR, a)
  else
    let cb := mk_callback fn 1 priv in
    match nextArgument cmd with
    | Some (Some (cstr, clen, p)) =>
      match p, cstr with
      | p0 :: _, c0 :: _ =>
        let hasnext := p0 =? 36 in
        let pvariant := tolower c0 =? 112 in
        let cstr := if pvariant then tail cstr else cstr in
        is_subscribe ← (if hasnext then begins_with cstr (chars "subscribe" ++ CRLF) else Some false);
        if is_subscribe : bool then
          a1 ← subscribe_loop (S (length p)) pvariant p cb (flag (set_subscribed true) a);
          append a1
        else
          is_unsubscribe ← begins_with cstr (chars "unsubscribe" ++ CRLF);
          if is_unsubscribe : bool then
            if negb (SUBSCRIBED (ac_flags a)) then Some (REDIS_ERR, a) else append a
          else
            is_monitor ← begins_with cstr (chars "monitor" ++ CRLF);
            if is_monitor : bool then
              let a1 := flag set_monitoring a in
              append (emit (E_queued cb) (with_replies (pushCallback ok1 (replies a1) cb).2 a1))
            else if SUBSCRIBED (ac_flags a) then append (with_invalid (pushCallback ok1 (invalid a) cb).2 a)
            else append (emit (E_queued cb) (with_replies (pushCallback ok1 (replies a) cb).2 a))
      | _, _ => None
      end
    | _ => None
    end.

(** [int redisAsyncCommandArgv(redisAsyncContext *ac, redisCallbackFn *fn, void *privdata, int argc, const char **argv, const size_t *argvlen)] *)
Definition redisAsyncCommandArgv (ok1 ok2 : bool) (fn : option Z) (priv : Z) (argv : list (list Z)) (a : redisAsyncContext)
  : option (Z * redisAsyncContext) :=
  '(len, cmd) ← redisFormatSdsCommandArgv junk true true true argv;
  if len <? 0 then Some (REDIS_ERR, a)
  else s ← cmd; redisAsyncCommand_ ok1 ok2 fn priv (s_buf s) len a.

(** [int redisvAsyncCommand(redisAsyncContext *ac, redisCallbackFn *fn, void *privdata, const char *format, va_list ap)] *)
Definition redisvAsyncCommand (al : allocs) (ok1 ok2 : bool) (fn : option Z) (priv : Z) (printf : list Z → list vararg → list Z)
    (format : list Z) (ap : list vararg) (a : redisAsyncContext) : option (Z * redisAsyncContext) :=
  '(len, cmd) ← redisvFormatCommand junk al printf format ap;
  if len <? 0 then Some (REDIS_ERR, a)
  else cmd ← cmd; redisAsyncCommand_ ok1 ok2 fn priv cmd len a.

(** [int redisAsyncCommand(redisAsyncContext *ac, redisCallbackFn *fn, void *privdata, const char *format, ...)] *)
Definition redisAsyncCommand := redisvAsyncCommand.

(** [int redisAsyncFormattedCommand(redisAsyncContext *ac, redisCallbackFn *fn, void *privdata, const char *cmd, size_t len)] *)
Definition redisAsyncFormattedCommand := redisAsyncCommand_.

(** ** Callbacks *)

(** What a callback can do with its context.  In a callback the flag keeps
    [redisAsyncDisconnect] and [redisAsyncFree] from doing more than set their
    flags. *)
Inductive action :=
| A_command (fn : option Z) (priv : Z) (argv : list (list Z))
| A_disconnect
| A_free.

Context (user : redisCallback → option tree → list action).

(** One call; [now] and [now_free] are what the functions do if they do not
    wait. *)
Definition redisAsyncDisconnect_with (now : redisAsyncContext → option redisAsyncContext) (a : redisAsyncContext) : option redisAsyncContext :=
  let a1 := flag set_disconnecting a in
  if negb (IN_CALLBACK (ac_flags a1)) && bool_decide (replies a1 = []) then now a1 else Some a1.
Definition redisAsyncFree_with (now_free : redisAsyncContext → option redisAsyncContext) (a : redisAsyncContext) : option redisAsyncContext :=
  let a1 := flag set_freeing a in
  if negb (IN_CALLBACK (ac_flags a1)) then now_free a1 else Some a1.

Definition act_with (now now_free : redisAsyncContext → option redisAsyncContext) (x : action) (a : redisAsyncContext) : option redisAsyncContext :=
  match x with
  | A_command fn priv argv => '(_, a1) ← redisAsyncCommandArgv true true fn priv argv a; Some a1
  | A_disconnect => redisAsyncDisconnect_with now a
  | A_free => redisAsyncFree_with now_free a
  end.

Fixpoint in_callback (xs : list action) (a : redisAsyncContext) : option redisAsyncContext :=
  match xs with
  | [] => Some a
  | x :: r => a1 ← act_with (λ _, None) (λ _, None) x a; in_callback r a1
  end.

(** [static void __redisRunCallback(redisAsyncContext *ac, redisCallback *cb, redisReply *reply)] *)
Definition runCallback (cb : redisCallback) (reply : option nat) (a : redisAsyncContext) : option redisAsyncContext :=
  match cb_fn cb with
  | None => Some a
  | Some _ =>
    let t := reply ≫= tree_at (S (base.size (objs (hp (ac_c a))))) (objs (hp (ac_c a))) in
    let a1 := emit (E_callback cb t) (flag (set_in_callback true) a) in
    a2 ← in_callback (user cb t) a1;
    Some (flag (set_in_callback false) a2)
  end.

(** ** The end of a context *)

(** The loops of [__redisAsyncFree] over the queues, and over a table. *)
Fixpoint drain_replies (fuel : nat) (a : redisAsyncContext) : option redisAsyncContext :=
  match fuel with
  | O => None
  | S fuel' =>
    match shiftCallback (replies a) with
    | (_, Some cb, r) => a1 ← runCallback cb None (with_replies r a); drain_replies fuel' a1
    | _ => Some a
    end
  end.

Fixpoint drain_invalid (fuel : nat) (a : redisAsyncContext) : option redisAsyncContext :=
  match fuel with
  | O => None
  | S fuel' =>
    match shiftCallback (invalid a) with
    | (_, Some cb, r) => a1 ← runCallback cb None (with_invalid r a); drain_invalid fuel' a1
    | _ => Some a
    end
  end.

Definition entry_val (d : callbacks) (x : nat) : option redisCallback :=
  e_val <$> find (λ e, (e_addr e =? x)%nat) (concat (table d)).

Fixpoint drain_table (fuel : nat) (sel : redisAsyncContext → callbacks) (it : dictIterator) (a : redisAsyncContext) : option redisAsyncContext :=
  match fuel with
  | O => None
  | S fuel' =>
    '(de, it1) ← dictNext (sel a) it;
    match de with
    | None => Some a
    | Some e => cb ← entry_val (sel a) e; a1 ← runCallback cb None a; drain_table fuel' sel it1 a1
    end
  end.

(** [static void __redisAsyncFree(redisAsyncContext *ac)] *)
Definition asyncFree (a : redisAsyncContext) : option redisAsyncContext :=
  a1 ← drain_replies (S (length (replies a))) a;
  a2 ← drain_invalid (S (length (invalid a1))) a1;
  a3 ← drain_table (S (length (concat (table (channels a2))))) channels dictGetIterator a2;
  _ ← dictRelease (channels a3);
  a4 ← drain_table (S (length (concat (table (patterns a3))))) patterns dictGetIterator a3;
  _ ← dictRelease (patterns a4);
  let a5 := call_ev cleanup a4 in
  let a6 :=
    if onDisconnect a5 && CONNECTED (ac_flags a5) then
      if FREEING (ac_flags a5) then emit (E_disconnect REDIS_OK) a5
      else emit (E_disconnect (if ac_err a5 =? 0 then REDIS_OK else REDIS_ERR)) a5
    else a5 in
  c1 ← redisFree (ac_c a6);
  Some (dead (with_client c1 a6)).

(** [void redisAsyncFree(redisAsyncContext *ac)] *)
Definition redisAsyncFree : redisAsyncContext → option redisAsyncContext := redisAsyncFree_with asyncFree.

(** [static void __redisAsyncDisconnect(redisAsyncContext *ac)] *)
Definition asyncDisconnect (a : redisAsyncContext) : option redisAsyncContext :=
  let a1 := copyError a in
  if ac_err a1 =? 0 then
    (* assert(ret == REDIS_ERR) *)
    if (shiftCallback (replies a1)).1.1 =? REDIS_ERR then asyncFree a1 else None
  else asyncFree (flag set_disconnecting a1).

(** [void redisAsyncDisconnect(redisAsyncContext *ac)] *)
Definition redisAsyncDisconnect : redisAsyncContext → option redisAsyncContext := redisAsyncDisconnect_with asyncDisconnect.

(** ** Replies *)

Definition reply_at (a : redisAsyncContext) (p : nat) : option redisReply := objs (hp (ac_c a)) !! p.

(** [reply->element[i]], and a string of it as a C string. *)
Definition reply_elem (a : redisAsyncContext) (r : redisReply) (i : nat) : option redisReply := q ← element r; p ← q !! i; x ← p; reply_at a x.

(** [strcasecmp(s, w) == 0] of two C strings. *)
Definition same_word (s w : list Z) : bool := bool_decide (tolower <$> until_zero s = tolower <$> w).

(** [static int __redisGetSubscribeCallback(redisAsyncContext *ac, redisReply *reply, redisCallback *dstcb)];
    the callback it stores. *)
Definition getSubscribeCallback (p : nat) (dstcb : redisCallback) (a : redisAsyncContext) : option (redisCallback * redisAsyncContext) :=
  reply ← reply_at a p;
  if r_type reply =? REDIS_REPLY_ARRAY then
    (* the assertions on the reply *)
    if r_elements reply <? 2 then None
    else
      e0 ← reply_elem a reply 0;
      if negb (r_type e0 =? REDIS_REPLY_STRING) then None
      else
        stype ← str e0;
        let pvariant := tolower (default 0 (head stype)) =? 112 in
        let callbacks := if pvariant then patterns a else channels a in
        e1 ← reply_elem a reply 1;
        if negb (r_type e1 =? REDIS_REPLY_STRING) then None
        else
          sname ← str e1;
          let word := if pvariant then tail stype else stype in
          de ← dictFind callbacks sname;
          match de with
          | None => Some (dstcb, a)
          | Some e =>
            let cb0 := e_val e in
            let cb := if same_word word (chars "subscribe") then mk_callback (cb_fn cb0) (to_int (pending_subs cb0 - 1)) (privdata cb0) else cb0 in
            let d1 := mk_dict (store_val (e_addr e) cb (table callbacks)) (d_type callbacks) (Dict.size callbacks) (sizemask callbacks) (used callbacks) in
            let put (d : dict (list Z) redisCallback) a := if pvariant then with_subs (channels a) d (next_entry a) a else with_subs d (patterns a) (next_entry a) a in
            if same_word word (chars "unsubscribe") then
              d2 ← (if pending_subs cb =? 0 then '(_, d2, _) ← dictDelete d1 sname; Some d2 else Some d1);
              let a1 := put d2 a in
              e2 ← reply_elem a reply 2;
              if negb (r_type e2 =? REDIS_REPLY_INTEGER) then None
              else
                let a2 :=
                  if (integer e2 =? 0) && (used (channels a1) =? 0) && (used (patterns a1) =? 0)
                  then flag (set_subscribed false) a1 else a1 in
                Some (cb, a2)
            else Some (cb, put d1 a)
          end
  else
    match shiftCallback (invalid a) with
    | (_, Some cb, r) => Some (cb, with_invalid r a)
    | _ => Some (dstcb, a)
    end.

(** [c->reader->fn->freeObject(reply)] *)
Definition freeObject_of (p : nat) (a : redisAsyncContext) : option redisAsyncContext :=
  f ← fn (c_reader (ctx (ac_c a))); g ← freeObject f; h ← g p (hp (ac_c a));
  Some (with_client (mk_client (ctx (ac_c a)) h (kern (ac_c a))) a).

(** The loop of [redisProcessCallbacks]; [cb] keeps its value from one round to
    the next. *)
Fixpoint process_loop (fuel : nat) (cb : redisCallback) (a : redisAsyncContext) : option redisAsyncContext :=
  let deliver (fuel' : nat) (r : nat) (cb : redisCallback) (a : redisAsyncContext)
      (again : redisCallback → redisAsyncContext → option redisAsyncContext) :=
    match cb_fn cb with
    | Some _ =>
      a1 ← runCallback cb (Some r) a;
      a2 ← freeObject_of r a1;
      if FREEING (ac_flags a2) then asyncFree a2 else again cb a2
    | None => a1 ← freeObject_of r a; again cb a1
    end in
  match fuel with
  | O => None
  | S fuel' =>
    '(status, reply, c1) ← redisGetReply junk strerror (ac_c a);
    let a := with_client c1 a in
    if negb (status =? REDIS_OK) then asyncDisconnect a
    else
      match reply with
      | None =>
        b ← obuf (ctx (ac_c a));
        if DISCONNECTING (ac_flags a) && (sdslen b =? 0) && bool_decide (replies a = []) then asyncDisconnect a
        else if MONITORING (ac_flags a) then Some (with_replies (pushCallback true (replies a) cb).2 a)
        else Some a
      | Some r =>
        match shiftCallback (replies a) with
        | (_, Some cb1, rest) => deliver fuel' r cb1 (with_replies rest a) (process_loop fuel')
        | _ =>
          o ← reply_at a r;
          if r_type o =? REDIS_REPLY_ERROR then
            s ← str o;
            a1 ← freeObject_of r a;
            let c := ctx (ac_c a1) in
            let c1 := mk_context REDIS_ERR_OTHER (take 127 (until_zero s)) (c_block c) (obuf c) (c_reader c) in
            asyncDisconnect (with_client (with_ctx c1 (ac_c a1)) a1)
          else if negb (SUBSCRIBED (ac_flags a) || MONITORING (ac_flags a)) then None
          else
            '(cb1, a1) ← (if SUBSCRIBED (ac_flags a) then getSubscribeCallback r cb a else Some (cb, a));
            deliver fuel' r cb1 a1 (process_loop fuel')
        end
      end
  end.

Definition no_callback : redisCallback := mk_callback None 0 0.

(** [void redisProcessCallbacks(redisAsyncContext *ac)]; every reply takes a byte
    of the reader's buffer. *)
Definition redisProcessCallbacks (a : redisAsyncContext) : option redisAsyncContext :=
  b ← buf (c_reader (ctx (ac_c a)));
  process_loop (Z.to_nat (sdslen b) + 2) no_callback a.

(** ** The handlers of the event loop *)

(** [static int __redisAsyncHandleConnect(redisAsyncContext *ac)] *)
Definition handleConnect (s : sock_state) (a : redisAsyncContext) : option (Z * redisAsyncContext) :=
  let '(r, c1) := redisCheckSocketError strerror s (ac_c a) in
  let a := with_client c1 a in
  if r =? REDIS_ERR then
    if decide (sock_errno s = Some EINPROGRESS) then Some (REDIS_OK, a)
    else
      a1 ← asyncDisconnect (if onConnect a then emit (E_connect REDIS_ERR) a else a);
      Some (REDIS_ERR, a1)
  else
    let a1 := flag set_connected a in
    Some (REDIS_OK, if onConnect a1 then emit (E_connect REDIS_OK) a1 else a1).

(** The beginning of both handlers: whether they go on. *)
Definition when_connected (s : sock_state) (a : redisAsyncContext) (go : redisAsyncContext → option redisAsyncContext) : option redisAsyncContext :=
  if negb (CONNECTED (ac_flags a)) then
    '(r, a1) ← handleConnect s a;
    if negb (r =? REDIS_OK) then Some a1
    else if negb (CONNECTED (ac_flags a1)) then Some a1
    else go a1
  else go a.

(** [void redisAsyncHandleRead(redisAsyncContext *ac)] *)
Definition redisAsyncHandleRead (s : sock_state) (a : redisAsyncContext) : option redisAsyncContext :=
  when_connected s a (λ a,
    '(r, c1) ← redisBufferRead junk strerror (ac_c a);
    let a := with_client c1 a in
    if r =? REDIS_ERR then asyncDisconnect a else redisProcessCallbacks (call_ev addRead a)).

(** [void redisAsyncHandleWrite(redisAsyncContext *ac)] *)
Definition redisAsyncHandleWrite (s : sock_state) (a : redisAsyncContext) : option redisAsyncContext :=
  when_connected s a (λ a,
    '(r, done, c1) ← redisBufferWrite junk strerror (ac_c a);
    let a := with_client c1 a in
    if r =? REDIS_ERR then asyncDisconnect a
    else Some (call_ev addRead (call_ev (if negb (default false done) then addWrite else delWrite) a))).

(** ** New contexts *)

(** [redisAsyncInitialize] and [__redisAsyncCopyError] of what a connection
    function returns; without memory the first of the functions below return a
    null pointer, [redisAsyncConnectBind] and [redisAsyncConnectBindWithReuse] go
    on with it. *)
Definition async_of (n : net) : redisAsyncContext * net :=
  let a := copyError (redisAsyncInitialize (cl (nc n))) in
  let x := nc n in
  (a, mk_net (mk_conn (cl x) (fd x) false (reuseaddr x) (connection_type x) (timeout x) (host x) (source_addr x) (port x) (upath x)) (no n)).
Definition async_new (n : option (option net)) : option (option (redisAsyncContext * net)) :=
  match n with None => None | Some None => Some None | Some (Some n) => Some (Some (async_of n)) end.
Definition async_new_unchecked (n : option (option net)) : option (redisAsyncContext * net) :=
  match n with Some (Some n) => Some (async_of n) | _ => None end.

Section connect.
Context (gai_strerror : Z → list Z) (m : machine) (ok1 ok2 ok3 ok4 : bool) (h : reply_heap) (k : kernel) (o : os).

Definition redisAsyncConnect (ip : list Z) (p : Z) :=
  async_new (redisConnectNonBlock strerror gai_strerror m junk ok1 ok2 ok3 ok4 h k o ip p).
Definition redisAsyncConnectBind (ip : list Z) (p : Z) (src : option (list Z)) :=
  async_new_unchecked (redisConnectBindNonBlock strerror gai_strerror m junk ok1 ok2 ok3 ok4 h k o ip p src).
Definition redisAsyncConnectBindWithReuse (ip : list Z) (p : Z) (src : option (list Z)) :=
  async_new_unchecked (redisConnectBindNonBlockWithReuse strerror gai_strerror m junk ok1 ok2 ok3 ok4 h k o ip p src).
Definition redisAsyncConnectUnix (path : list Z) :=
  async_new (redisConnectUnixNonBlock strerror m junk ok1 ok2 ok3 ok4 h k o path).
End connect.
End async.
