(* ===== verification/AsyncProps.v ===== *)
(** * Properties of the asynchronous contexts

    For commands with one reply each (no subscriptions, no MONITOR), callbacks
    are called in the order of their commands, each exactly once, with the replies
    in the order in which they come; freeing a context ends and calls what is left
    with null replies. *)

From Stdlib Require Ascii String.
From stdpp Require Import strings.
From S2P Require Import Prelude Dict Sds SdsProps Numbers SdsFmt SdsText SdsTextProps SdsArgs Read Reply Resp ReplyTree ReadRefine ReadRun ReadProps Command FormatCommand Context ContextProps Net Async.
Local Open Scope Z_scope.

(** ** Finding out which command it is *)

(** The command without the [p] it may begin with. *)
Definition word_of (c0 : list Z) : list Z :=
  match c0 with c :: r => if tolower c =? 112 then r else c0 | [] => [] end.

(** The line of the command begins with [w]. *)
Definition line_is (x w : list Z) : bool := bool_decide (tolower <$> (w ++ CRLF) `prefix_of` tolower <$> (x ++ CRLF)).

(** Commands with one reply each. *)
Definition plain (argv : list (list Z)) : Prop :=
  match argv with
  | [] => False
  | c0 :: _ =>
    line_is (word_of c0) (chars "subscribe") = false ∧ line_is (word_of c0) (chars "unsubscribe") = false ∧
    line_is (word_of c0) (chars "monitor") = false
  end.

Lemma begins_line w : Forall (λ c, tolower c ≠ 13) w → ∀ x r, begins_with (x ++ CRLF ++ r) (w ++ CRLF) = Some (line_is x w).
Proof.
  unfold line_is. induction 1 as [|y w Hy _ IH]; intros x r.
  - destruct x as [|c [|d x]]; cbn [app begins_with CRLF fmap list_fmap].
    + rewrite bool_decide_eq_true_2; done.
    + change (tolower char_CR) with 13. change (tolower char_LF) with 10. destruct (Z.eqb_spec (tolower c) 13) as [E|E].
      * symmetry. f_equal. apply bool_decide_eq_false. intros H%prefix_cons_inv_2. by apply prefix_cons_inv_1 in H.
      * symmetry. f_equal. apply bool_decide_eq_false. intros H%prefix_cons_inv_1. done.
    + change (tolower char_CR) with 13. change (tolower char_LF) with 10. destruct (Z.eqb_spec (tolower c) 13) as [E|E].
      * destruct (Z.eqb_spec (tolower d) 10) as [E2|E2]; symmetry; f_equal.
        -- apply bool_decide_eq_true. rewrite E, E2. apply prefix_cons, prefix_cons, prefix_nil.
        -- apply bool_decide_eq_false. intros H%prefix_cons_inv_2. by apply prefix_cons_inv_1 in H.
      * symmetry. f_equal. apply bool_decide_eq_false. intros H%prefix_cons_inv_1. done.
  - destruct x as [|c x]; cbn [app begins_with fmap list_fmap].
    + cbn [app CRLF begins_with fmap list_fmap]. change (tolower char_CR) with 13. destruct (Z.eqb_spec 13 (tolower y)) as [E|E]; [by symmetry in E|]. 
      symmetry. f_equal. apply bool_decide_eq_false. intros H%prefix_cons_inv_1. done.
    + destruct (Z.eqb_spec (tolower c) (tolower y)) as [E|E].
      * rewrite (IH x r). f_equal. apply bool_decide_ext. rewrite E. split; [apply prefix_cons|apply prefix_cons_inv_2].
      * symmetry. f_equal. apply bool_decide_eq_false. intros H%prefix_cons_inv_1. done.
Qed.

Lemma find_char_at l c r : Forall (λ x, x ≠ c ∧ x ≠ 0) l → find_char (l ++ c :: r) c = Some (Some (c :: r)).
Proof.
  induction 1 as [|x l [Hc H0] _ IH]; cbn [app find_char]; [by rewrite Z.eqb_refl|]. apply Z.eqb_neq in Hc, H0. by rewrite Hc, H0.
Qed.

(** ** The arguments of an encoded command *)

Lemma decimal_digits v : 0 <= v <= int64_max →
  ∃ c p, decimal_of v = c :: p ∧ Forall (λ x, is_digit x = true) (c :: p) ∧ value 0 (c :: p) = v.
Proof.
  intros Hv. unfold decimal_of. destruct (sdsll2str_spec v) as (l & -> & Hd & _); [unfold in_int64, int64_max in *; lia|].
  destruct (Z.ltb_spec v 0); [lia|]. cbn [default from_option id]. rewrite Z.abs_eq in Hd by lia.
  destruct (decide (v = 0)) as [->|Hne].
  - inversion Hd as [d Hd0 E|a d l' Ha Hd0 Hl E]; [|lia]. subst. exists 48, []. split_and!; [done|by repeat constructor|done].
  - destruct (digits_value v l Hd) as (c & p & -> & Hc & Hp & Hval); [lia|]. exists c, p. split_and!; [done| |].
    + constructor; [|done]. unfold is_digit, char_0, char_1, char_9 in *. apply andb_true_iff. rewrite !Z.leb_le. lia.
    + unfold value in *. cbn [foldl]. done.
Qed.

Lemma digits_at_value p c r : Forall (λ x, is_digit x = true) p → isdigit c = false → ∀ acc, digits_at (p ++ c :: r) acc = value acc p.
Proof.
  intros Hp Hc. induction Hp as [|x p Hx _ IH]; intros acc; cbn [app digits_at value foldl]; [by rewrite Hc|].
  change (isdigit x) with (is_digit x). rewrite Hx. apply IH.
Qed.

Lemma strtol_decimal v r : 0 <= v <= int64_max → strtol (decimal_of v ++ char_CR :: r) = v.
Proof.
  intros Hv. destruct (decimal_digits v Hv) as (c & p & -> & Hp & Hval). pose proof Hp as Hc. apply Forall_cons in Hc as [Hc _].
  assert (Hr : 48 <= c <= 57) by (unfold is_digit, char_0, char_9 in Hc; bool_to_prop; lia).
  unfold strtol. cbn [app]. assert (skip isspace (c :: p ++ char_CR :: r) = Some (c :: p ++ char_CR :: r)) as ->.
  { cbn [skip]. replace (isspace c) with false; [by rewrite andb_false_r|]. unfold isspace. symmetry.
    apply orb_false_intro; [apply Z.eqb_neq; lia|]. apply andb_false_intro2. apply Z.leb_gt. lia. }
  assert (Hm : Z.max (- 2 ^ 63) (Z.min (2 ^ 63 - 1) (digits_at (c :: p ++ char_CR :: r) 0)) = v).
  { change (c :: p ++ char_CR :: r) with ((c :: p) ++ char_CR :: r). rewrite (digits_at_value (c :: p)), Hval by done. unfold int64_max in Hv. lia. }
  destruct c as [|c|c]; [lia| |lia]. clear -Hr Hm.
  do 6 (destruct c as [c|c|]; try lia; try exact Hm).
Qed.

Lemma decimal_bytes v : 0 <= v <= int64_max → Forall (λ x, 48 <= x <= 57) (decimal_of v).
Proof.
  intros Hv. destruct (decimal_digits v Hv) as (c & p & -> & Hp & _). eapply Forall_impl; [exact Hp|].
  intros x Hx. cbn in Hx. unfold is_digit, char_0, char_9 in Hx. bool_to_prop. lia.
Qed.

(** What is behind a dollar sign. *)
Lemma next_bulk pre a r : Forall (λ x, x ≠ 36 ∧ x ≠ 0) pre → Z.of_nat (length a) <= INT_MAX →
  nextArgument (pre ++ bulk a ++ r) = Some (Some (a ++ CRLF ++ r, Z.of_nat (length a), r)).
Proof.
  intros Hpre Ha. unfold INT_MAX in *. set (d := decimal_of (Z.of_nat (length a))) in *.
  assert (pre ++ bulk a ++ r = pre ++ 36 :: d ++ char_CR :: char_LF :: a ++ CRLF ++ r) as -> by (unfold bulk; fold d; by rewrite <- !app_assoc).
  unfold nextArgument. rewrite find_char_at by done. cbn [tail]. unfold d.
  rewrite strtol_decimal by (unfold int64_max; lia). rewrite to_int_id, to_size_t_id by (unfold in_int, INT_MIN, INT_MAX; lia).
  rewrite app_comm_cons.
  change 13 with char_CR. rewrite find_char_at.
  2:{ constructor; [done|]. eapply Forall_impl; [apply decimal_bytes; unfold int64_max; lia|]. cbn. unfold char_CR. lia. }
  change (drop 2 (char_CR :: char_LF :: ?l)) with l. rewrite length_app. destruct (Z.leb_spec (Z.of_nat (length a) + 2) (Z.of_nat (length a + length (CRLF ++ r)))) as [|Hlt];
    [|rewrite length_app in Hlt; cbn [length CRLF] in Hlt; lia].
  do 3 f_equal. replace (Z.to_nat (Z.of_nat (length a) + 2)) with (length (a ++ CRLF)) by (rewrite length_app; cbn [length CRLF]; lia).
  rewrite app_assoc. apply drop_app_length.
Qed.

Lemma next_of_command c0 argv r : Z.of_nat (length (encode (command (c0 :: argv)))) < INT_MAX →
  nextArgument (encode (command (c0 :: argv)) ++ r) =
    Some (Some (c0 ++ CRLF ++ concat (bulk <$> argv) ++ r, Z.of_nat (length c0), concat (bulk <$> argv) ++ r)).
Proof.
  intros Hm. rewrite encode_command in *. rewrite bulks_cons in *. rewrite !length_app in Hm. pose proof (bulk_longer c0). pose proof (bulks_length argv).
  rewrite <- !app_assoc. apply next_bulk; [|lia]. unfold header. apply Forall_app. split; [by constructor|]. apply Forall_app. split.
  - eapply Forall_impl; [apply decimal_bytes; unfold int64_max, INT_MAX in *; cbn [length] in *; lia|]. cbn. lia.
  - by repeat constructor.
Qed.

Lemma sds_memory s : sds_ok s → ∃ more, s_buf s = content s ++ 0 :: more.
Proof.
  intros Hs. pose proof (so_len _ Hs). pose proof (so_block _ Hs). exists (drop (S (Z.to_nat (s_len s))) (s_buf s)).
  unfold content. symmetry. apply take_drop_middle. apply Hs.
Qed.

(** The line a command is recognised by. *)
Lemma word_line c0 r : ∃ x, (if tolower (hd 13 (c0 ++ CRLF)) =? 112 then tail (c0 ++ CRLF ++ r) else c0 ++ CRLF ++ r) = word_of c0 ++ CRLF ++ r ∧
  c0 ++ CRLF ++ r = x :: tail (c0 ++ CRLF ++ r) ∧ x = hd 13 (c0 ++ CRLF).
Proof. destruct c0 as [|c c0]; [by exists 13|]. exists c. cbn [app hd word_of tail]. by destruct (tolower c =? 112). Qed.

Section props.
Context (junk : Z) (strerror : errno → list Z) (user : redisCallback → option tree → list action).

(** A command with one reply: unless the context is about to be closed it is
    written, and its callback waits at the end of the queue. *)
Definition accepted (fn : option Z) (priv : Z) (argv : list (list Z)) (a : redisAsyncContext) : option redisAsyncContext :=
  '(_, c1) ← redisAppendCommand_ junk strerror true (encode (command argv)) (ac_c a);
  Some (call_ev addWrite (with_client c1 (emit (E_queued (mk_callback fn 1 priv)) (with_replies (replies a ++ [mk_callback fn 1 priv]) a)))).

Definition refusing (a : redisAsyncContext) : bool := DISCONNECTING (ac_flags a) || FREEING (ac_flags a).

Lemma async_command_eq fn priv argv a :
  plain argv → Z.of_nat (length (encode (command argv))) < INT_MAX → SUBSCRIBED (ac_flags a) = false →
  redisAsyncCommandArgv junk strerror true true fn priv argv a =
    if refusing a then Some (REDIS_ERR, a) else a1 ← accepted fn priv argv a; Some (REDIS_OK, a1).
Proof.
  intros Hp Hm Hsub. unfold redisAsyncCommandArgv. destruct (format_sds_ok junk argv Hm) as (s & -> & Hs & Hc). cbn [mbind option_bind].
  destruct (Z.ltb_spec (Z.of_nat (length (encode (command argv)))) 0); [lia|]. unfold redisAsyncCommand_, refusing.
  destruct (DISCONNECTING (ac_flags a) || FREEING (ac_flags a)); [done|]. destruct argv as [|c0 argv]; [done|]. destruct Hp as (H1 & H2 & H3).
  destruct (sds_memory s Hs) as (more & Hbuf). rewrite Hc in Hbuf. rewrite Hbuf, next_of_command by done.
  destruct (word_line c0 (concat (bulk <$> argv) ++ 0 :: more)) as (x & Hw & Hx & Hxe). rewrite Hx. rewrite <- Hx, Hxe, Hw.
  assert (∃ y l, concat (bulk <$> argv) ++ 0 :: more = y :: l) as (y & l & Hy) by (destruct (concat _); by eexists _, _). rewrite Hy at 1.
  assert (Hbegin : ∀ w, Forall (λ c, tolower c ≠ 13) w → begins_with (word_of c0 ++ CRLF ++ concat (bulk <$> argv) ++ 0 :: more) (w ++ CRLF) = Some (line_is (word_of c0) w))
    by (intros w Hf; by apply begins_line).
  rewrite !Hbegin by (by repeat constructor). rewrite H1, H2, H3.
  assert (Happ : read_at 0 (Z.of_nat (length (encode (command (c0 :: argv))))) (encode (command (c0 :: argv)) ++ 0 :: more) = Some (encode (command (c0 :: argv)))).
  { rewrite read_at_Some by (rewrite ?length_app; lia). by rewrite Nat2Z.id, drop_0, take_app_length. }
  destruct (y =? 36); cbn [mbind option_bind]; rewrite Hsub, Happ; unfold accepted; cbn [mbind option_bind]; by destruct (redisAppendCommand_ _ _ _ _ _) as [[? ?]|].
Qed.

(** ** Callbacks *)

Definition call_of (e : event) : option (redisCallback * option tree) := match e with E_callback cb t => Some (cb, t) | _ => None end.
Definition queued_of (e : event) : option redisCallback := match e with E_queued cb => Some cb | _ => None end.

(** The calls of callbacks so far, and the callbacks of the commands accepted so
    far. *)
Definition calls (a : redisAsyncContext) : list (redisCallback * option tree) := omap call_of (events a).
Definition queued (a : redisAsyncContext) : list redisCallback := omap queued_of (events a).

Definition has_fn (cb : redisCallback) : Prop := is_Some (cb_fn cb).

(** No subscriptions, no monitor. *)
Record plain_ctx (a : redisAsyncContext) : Prop := {
  pc_subscribed : SUBSCRIBED (ac_flags a) = false;
  pc_monitoring : MONITORING (ac_flags a) = false;
  pc_invalid : invalid a = [];
  pc_channels : channels a = dictCreate callbackDict;
  pc_patterns : patterns a = dictCreate callbackDict
}.

Definition action_ok (x : action) : Prop :=
  match x with
  | A_command _ _ argv => plain argv ∧ Z.of_nat (length (encode (command argv))) < INT_MAX
  | _ => True
  end.
Context (user_ok : ∀ cb t, Forall action_ok (user cb t)).

(** What a part of the code does to a context: it calls callbacks, and it puts
    some into the queue. *)
Record moved (cs : list (redisCallback * option tree)) (new : list redisCallback) (a a' : redisAsyncContext) : Prop := {
  mv_plain : plain_ctx a';
  mv_calls : calls a' = calls a ++ cs;
  mv_queued : queued a' = queued a ++ new;
  mv_replies : replies a' = replies a ++ new;
  mv_alive : alive a' = alive a;
  mv_refusing : refusing a = true → refusing a' = true ∧ new = [];
  mv_flags : IN_CALLBACK (ac_flags a') = IN_CALLBACK (ac_flags a) ∧ CONNECTED (ac_flags a') = CONNECTED (ac_flags a)
}.

Lemma moved_refl a : plain_ctx a → moved [] [] a a.
Proof. intros Hp. split; rewrite ?app_nil_r; try done. Qed.

Lemma moved_trans cs1 cs2 new1 new2 a1 a2 a3 : moved cs1 new1 a1 a2 → moved cs2 new2 a2 a3 → moved (cs1 ++ cs2) (new1 ++ new2) a1 a3.
Proof.
  intros [P1 C1 Q1 R1 A1 F1 [I1 N1]] [P2 C2 Q2 R2 A2 F2 [I2 N2]]. split; [done| | | |congruence| |split; congruence].
  - by rewrite C2, C1, app_assoc.
  - by rewrite Q2, Q1, app_assoc.
  - by rewrite R2, R1, app_assoc.
  - intros Hr. destruct (F1 Hr) as [Hr2 ->]. destruct (F2 Hr2) as [Hr3 ->]. done.
Qed.

Lemma plain_call_ev f a : plain_ctx a → plain_ctx (call_ev f a).
Proof. intros Hp. unfold call_ev. destruct (ev a f); [|done]. by destruct Hp. Qed.

Lemma calls_emit e a : calls (emit e a) = calls a ++ match call_of e with Some c => [c] | None => [] end.
Proof. unfold calls. cbn [events emit]. rewrite omap_app. cbn. by destruct (call_of e). Qed.

Lemma queued_emit e a : queued (emit e a) = queued a ++ match queued_of e with Some c => [c] | None => [] end.
Proof. unfold queued. cbn [events emit]. rewrite omap_app. cbn. by destruct (queued_of e). Qed.

Lemma calls_call_ev f a : calls (call_ev f a) = calls a.
Proof. unfold call_ev. destruct (ev a f); [|done]. rewrite calls_emit. cbn. by rewrite app_nil_r. Qed.

Lemma queued_call_ev f a : queued (call_ev f a) = queued a.
Proof. unfold call_ev. destruct (ev a f); [|done]. rewrite queued_emit. cbn. by rewrite app_nil_r. Qed.

Lemma call_ev_same f a :
  replies (call_ev f a) = replies a ∧ alive (call_ev f a) = alive a ∧ ac_flags (call_ev f a) = ac_flags a ∧ ac_c (call_ev f a) = ac_c a ∧
  ac_err (call_ev f a) = ac_err a.
Proof. unfold call_ev. by destruct (ev a f). Qed.

Lemma moved_call_ev f a : plain_ctx a → moved [] [] a (call_ev f a).
Proof.
  intros Hp. pose proof (call_ev_same f a) as (Hr & Ha & Hf & Hc & _).
  split; rewrite ?calls_call_ev, ?queued_call_ev, ?Hr, ?Hf, ?app_nil_r; try done; [by apply plain_call_ev|].
  unfold refusing. by rewrite Hf.
Qed.

Lemma moved_client c a : plain_ctx a → moved [] [] a (with_client c a).
Proof. intros Hp. split; rewrite ?app_nil_r; try done. by destruct Hp. Qed.

Lemma accepted_moved fn priv argv a a' : accepted fn priv argv a = Some a' → plain_ctx a → refusing a = false → moved [] [mk_callback fn 1 priv] a a'.
Proof.
  intros Ha Hp Hr. unfold accepted in Ha. apply bind_Some in Ha as ([e c1] & _ & [= <-]). set (cb := mk_callback fn 1 priv).
  pose proof (call_ev_same addWrite (with_client c1 (emit (E_queued cb) (with_replies (replies a ++ [cb]) a)))) as (Hre & Hal & Hf & _).
  split.
  - apply plain_call_ev. by destruct Hp.
  - rewrite calls_call_ev. exact (calls_emit (E_queued cb) a).
  - rewrite queued_call_ev. exact (queued_emit (E_queued cb) a).
  - by rewrite Hre.
  - by rewrite Hal.
  - congruence.
  - by rewrite Hf.
Qed.

Lemma act_moved x a a' : act_with junk strerror (λ _, None) (λ _, None) x a = Some a' → action_ok x → plain_ctx a → IN_CALLBACK (ac_flags a) = true →
  ∃ new, moved [] new a a'.
Proof.
  intros Ha Hx Hp Hi. destruct x as [fn priv argv| |]; cbn [act_with action_ok] in *.
  - destruct Hx as [Hpl Hm]. rewrite async_command_eq in Ha by (done || apply Hp). destruct (refusing a) eqn:Hr; cbn [mbind option_bind] in Ha.
    + injection Ha as <-. exists []. by apply moved_refl.
    + destruct (accepted fn priv argv a) as [a1|] eqn:Hacc; [|done]. cbn [mbind option_bind] in Ha. injection Ha as <-. eexists. by eapply accepted_moved.
  - unfold redisAsyncDisconnect_with in Ha. cbn [ac_flags flag with_flags set_disconnecting IN_CALLBACK] in Ha. rewrite Hi in Ha. cbn in Ha. injection Ha as <-.
    exists []. split; rewrite ?app_nil_r; try done. by destruct Hp.
  - unfold redisAsyncFree_with in Ha. cbn [ac_flags flag with_flags set_freeing IN_CALLBACK] in Ha. rewrite Hi in Ha. cbn in Ha. injection Ha as <-.
    exists []. split; rewrite ?app_nil_r; try done; [by destruct Hp|]. intros _. split; [|done]. unfold refusing. cbn. by rewrite orb_true_r.
Qed.

Lemma in_callback_moved xs : ∀ a a', in_callback junk strerror xs a = Some a' → Forall action_ok xs → plain_ctx a → IN_CALLBACK (ac_flags a) = true →
  ∃ new, moved [] new a a'.
Proof.
  induction xs as [|x xs IH]; intros a a' Ha Hx Hp Hi; cbn [in_callback] in Ha; [injection Ha as <-; exists []; by apply moved_refl|].
  apply Forall_cons in Hx as [Hx Hxs]. apply bind_Some in Ha as (a1 & Ha1 & Ha). destruct (act_moved x a a1 Ha1 Hx Hp Hi) as (new1 & H1).
  destruct (IH a1 a' Ha Hxs) as (new2 & H2); [apply H1|by rewrite (proj1 (mv_flags _ _ _ _ H1))|].
  exists (new1 ++ new2). exact (moved_trans [] [] _ _ _ _ _ H1 H2).
Qed.

Definition called_once (cb : redisCallback) (t : option tree) : list (redisCallback * option tree) :=
  match cb_fn cb with Some _ => [(cb, t)] | None => [] end.

(** The tree a callback is given. *)
Definition tree_of (reply : option nat) (a : redisAsyncContext) : option tree :=
  reply ≫= tree_at (S (base.size (objs (hp (ac_c a))))) (objs (hp (ac_c a))).

Lemma run_moved cb reply a a' : runCallback junk strerror user cb reply a = Some a' → plain_ctx a → IN_CALLBACK (ac_flags a) = false →
  ∃ new, moved (called_once cb (tree_of reply a)) new a a'.
Proof.
  intros Ha Hp Hi. unfold runCallback, called_once, tree_of in *. destruct (cb_fn cb); [|injection Ha as <-; exists []; by apply moved_refl].
  set (t := reply ≫= _) in *. apply bind_Some in Ha as (a2 & Ha2 & [= <-]). set (a1 := emit _ _) in *.
  destruct (in_callback_moved (user cb t) a1 a2 Ha2 (user_ok cb t)) as (new & H); [by destruct Hp|done|].
  exists new. assert (Hc1 : calls a1 = calls a ++ [(cb, t)]) by exact (calls_emit (E_callback cb t) a).
  assert (Hq1 : queued a1 = queued a) by (etransitivity; [exact (queued_emit (E_callback cb t) a)|apply app_nil_r]).
  destruct H as [P C Q R A F [I N]]. split.
  - by destruct P.
  - rewrite app_nil_r in C. by rewrite <- Hc1, <- C.
  - rewrite <- Hq1. exact Q.
  - exact R.
  - exact A.
  - exact F.
  - split; [by rewrite Hi|exact N].
Qed.

(** ** The end of a context *)

Definition null_calls (l : list redisCallback) : list (redisCallback * option tree) := l ≫= λ cb, called_once cb None.

Lemma plain_with_replies l a : plain_ctx a → plain_ctx (with_replies l a).
Proof. by destruct 1. Qed.

(** Every callback that waits is called, with a null reply. *)
Record drained (a a' : redisAsyncContext) : Prop := {
  dr_plain : plain_ctx a';
  dr_replies : replies a' = [];
  dr_calls : ∃ new, calls a' = calls a ++ null_calls (replies a ++ new) ∧ queued a' = queued a ++ new ∧ (refusing a = true → new = []);
  dr_flags : IN_CALLBACK (ac_flags a') = IN_CALLBACK (ac_flags a) ∧ CONNECTED (ac_flags a') = CONNECTED (ac_flags a);
  dr_refusing : refusing a = true → refusing a' = true
}.

Lemma drain_moved fuel : ∀ a a', drain_replies junk strerror user fuel a = Some a' → plain_ctx a → IN_CALLBACK (ac_flags a) = false → drained a a'.
Proof.
  induction fuel as [|fuel IH]; intros a a' Ha Hp Hi; [done|]. cbn [drain_replies] in Ha. destruct (replies a) as [|cb r] eqn:Hr; cbn [shiftCallback] in Ha.
  - injection Ha as <-. split; try done. exists []. by rewrite Hr, !app_nil_r.
  - apply bind_Some in Ha as (a1 & H1 & Ha). destruct (run_moved cb None _ a1 H1 (plain_with_replies r a Hp) Hi) as (new & [P C Q R A F [I N]]).
    change (tree_of None (with_replies r a)) with (@None tree) in C.
    destruct (IH a1 a' Ha P) as [P2 R2 (new2 & C2 & Q2 & F2) [I2 N2] F3]; [by rewrite I|]. split; [done|done| |split; [by rewrite I2, I|by rewrite N2, N]|].
    + exists (new ++ new2). split_and!.
      * rewrite C2, C, R, Hr. change (calls (with_replies r a)) with (calls a). cbn [replies with_replies].
        change (null_calls ((cb :: r) ++ new ++ new2)) with (called_once cb None ++ null_calls (r ++ new ++ new2)). by rewrite <- !app_assoc.
      * rewrite Q2, Q. by rewrite <- app_assoc.
      * intros Hf. destruct (F Hf) as [Hf1 ->]. by rewrite F2.
    + intros Hf. apply F3. by apply F.
Qed.

Lemma drain_table_empty sel a : sel a = dictCreate callbackDict → drain_table junk strerror user 1 sel dictGetIterator a = Some a.
Proof. intros Hs. cbn [drain_table]. by rewrite Hs. Qed.

(** [__redisAsyncFree] without subscriptions. *)
Lemma async_free_eq a : 
  (∀ a1, drain_replies junk strerror user (S (length (replies a))) a = Some a1 → plain_ctx a1) →
  asyncFree junk strerror user a =
    (a1 ← drain_replies junk strerror user (S (length (replies a))) a;
     let a5 := call_ev cleanup a1 in
     let a6 :=
       if onDisconnect a5 && CONNECTED (ac_flags a5) then
         if FREEING (ac_flags a5) then emit (E_disconnect REDIS_OK) a5
         else emit (E_disconnect (if ac_err a5 =? 0 then REDIS_OK else REDIS_ERR)) a5
       else a5 in
     c1 ← redisFree (ac_c a6); Some (dead (with_client c1 a6))).
Proof.
  intros Hp. unfold asyncFree. destruct (drain_replies _ _ _ _ a) as [a1|]; [|done]. cbn [mbind option_bind]. destruct (Hp a1 eq_refl) as [_ _ H1 H2 H3].
  rewrite H1. cbn [length drain_invalid]. rewrite H1. cbn [shiftCallback mbind option_bind]. rewrite H2 at 1. cbn [table dictCreate concat length].
  rewrite drain_table_empty by done. cbn [mbind option_bind]. rewrite H2.
  change (dictRelease (dictCreate callbackDict)) with (Some (@nil (released (list Z) redisCallback))). cbn [mbind option_bind].
  rewrite H3. cbn [table dictCreate concat length]. rewrite drain_table_empty by done. cbn [mbind option_bind]. rewrite H3. done.
Qed.

Definition finished (a a' : redisAsyncContext) : Prop :=
  alive a' = false ∧ replies a' = [] ∧ plain_ctx a' ∧
  ∃ new, calls a' = calls a ++ null_calls (replies a ++ new) ∧ queued a' = queued a ++ new ∧ (refusing a = true → new = []).

Lemma finish_context a1 a (c1 : client) b : drained a a1 →
  finished a (dead (with_client c1 (if b : bool then
         if FREEING (ac_flags (call_ev cleanup a1)) then emit (E_disconnect REDIS_OK) (call_ev cleanup a1)
         else emit (E_disconnect (if ac_err (call_ev cleanup a1) =? 0 then REDIS_OK else REDIS_ERR)) (call_ev cleanup a1)
       else call_ev cleanup a1))).
Proof.
  intros [P R (new & C & Q & F) _ _]. pose proof (call_ev_same cleanup a1) as (Hre & _). pose proof (plain_call_ev cleanup a1 P) as P1.
  set (a5 := call_ev cleanup a1) in *. assert (Hc5 : calls a5 = calls a1) by apply calls_call_ev. assert (Hq5 : queued a5 = queued a1) by apply queued_call_ev.
  clearbody a5. assert (∀ e, call_of e = None → queued_of e = None → calls (emit e a5) = calls a1 ∧ queued (emit e a5) = queued a1) as He.
  { intros e H1 H2. rewrite calls_emit, queued_emit, H1, H2, !app_nil_r. done. }
  split_and!; [done|destruct b; [case_if|]; exact (eq_trans Hre R)|by destruct b; [case_if|]; destruct P1|].
  exists new. rewrite <- C, <- Q. split_and!; [| |done]; (destruct b; [case_if|]); first [exact Hc5 | exact Hq5 | by apply He].
Qed.

Lemma free_finished a a' : asyncFree junk strerror user a = Some a' → plain_ctx a → IN_CALLBACK (ac_flags a) = false → finished a a'.
Proof.
  intros Ha Hp Hi. rewrite async_free_eq in Ha by (intros a1 H1; by destruct (drain_moved _ a a1 H1 Hp Hi)).
  apply bind_Some in Ha as (a1 & H1 & Ha). pose proof (drain_moved _ a a1 H1 Hp Hi) as Hd. apply bind_Some in Ha as (c1 & _ & [= <-]). by apply finish_context.
Qed.

Lemma disconnect_finished a a' : asyncDisconnect junk strerror user a = Some a' → plain_ctx a → IN_CALLBACK (ac_flags a) = false → finished a a'.
Proof.
  intros Ha Hp Hi. unfold asyncDisconnect in Ha. set (a1 := copyError a) in *. assert (Hp1 : plain_ctx a1) by (by destruct Hp).
  destruct (ac_err a1 =? 0).
  - destruct ((shiftCallback (replies a1)).1.1 =? REDIS_ERR) eqn:Hs; [|done]. exact (free_finished a1 a' Ha Hp1 Hi).
  - destruct (free_finished _ a' Ha) as (H1 & H2 & H3 & new & H4 & H5 & H6); [by destruct Hp1|done|].
    split_and!; try done. exists new. split_and!; [done|done|]. intros Hr. apply H6. done.
Qed.

(** ** The count of the callbacks *)

#[local] Instance has_fn_dec cb : Decision (has_fn cb).
Proof. unfold has_fn. apply _. Defined.

(** The callbacks called and those that wait are those of the commands. *)
Definition counted (a : redisAsyncContext) : Prop :=
  plain_ctx a ∧ (calls a).*1 ++ filter has_fn (replies a) = filter has_fn (queued a).
Definition live (a : redisAsyncContext) : Prop := counted a ∧ IN_CALLBACK (ac_flags a) = false ∧ alive a = true.
Definition over (a : redisAsyncContext) : Prop := counted a ∧ alive a = false ∧ replies a = [].

Lemma called_once_fst cb t : (called_once cb t).*1 = filter has_fn [cb].
Proof. unfold called_once. rewrite filter_cons. destruct (cb_fn cb) eqn:E; case_decide as H; unfold has_fn in H; rewrite E in H; [done|by destruct H|by destruct H|done]. Qed.

Lemma null_calls_fst l : (null_calls l).*1 = filter has_fn l.
Proof.
  induction l as [|cb l IH]; [done|]. change (null_calls (cb :: l)) with (called_once cb None ++ null_calls l).
  by rewrite fmap_app, IH, called_once_fst, <- filter_app.
Qed.

Lemma finished_over a a' : finished a a' → counted a → over a'.
Proof.
  intros (Hal & Hr & Hp & new & Hc & Hq & _) [_ He]. split_and!; [split|done|done]; [done|].
  rewrite Hr, Hc, Hq, fmap_app, null_calls_fst, !filter_app. cbn. by rewrite app_nil_r, app_assoc, He.
Qed.

(** Shifting a callback and calling it. *)
Lemma shifted_live cb r t new a a' : replies a = cb :: r → live a → moved (called_once cb t) new (with_replies r a) a' → live a'.
Proof.
  intros Hr [[Hp He] [Hi Hal]] [P C Q R A _ [I _]]. split_and!; [split; [done|]|by rewrite I|by rewrite A].
  rewrite C, Q, R, fmap_app, called_once_fst, !filter_app. change (calls (with_replies r a)) with (calls a). change (queued (with_replies r a)) with (queued a).
  cbn [replies with_replies]. rewrite <- He, Hr. rewrite !app_assoc. f_equal. rewrite <- !app_assoc. f_equal. by rewrite <- filter_app.
Qed.

Lemma live_client c a : live a → live (with_client c a).
Proof. intros [[Hp He] H]. split; [split; [by destruct Hp|exact He]|exact H]. Qed.

Lemma live_call_ev f a : live a → live (call_ev f a).
Proof.
  intros [[Hp He] [Hi Ha]]. pose proof (call_ev_same f a) as (Hr & Hal & Hf & _). split_and!; [split|by rewrite Hf|by rewrite Hal].
  - by apply plain_call_ev.
  - by rewrite calls_call_ev, queued_call_ev, Hr.
Qed.

Lemma free_object_live p a a' : freeObject_of p a = Some a' → ∃ c, a' = with_client c a.
Proof.
  unfold freeObject_of. intros Ha. apply bind_Some in Ha as (f & _ & Ha). apply bind_Some in Ha as (g & _ & Ha). apply bind_Some in Ha as (h & _ & [= <-]).
  by eexists.
Qed.

Lemma deliver_live cb r t a (again : redisCallback → redisAsyncContext → option redisAsyncContext) p a' :
  (∀ cb a1 a2, again cb a1 = Some a2 → live a1 → live a2 ∨ over a2) → replies a = cb :: r → live a → t = tree_of (Some p) (with_replies r a) →
  match cb_fn cb with
  | Some _ =>
    a1 ← runCallback junk strerror user cb (Some p) (with_replies r a);
    a2 ← freeObject_of p a1;
    if FREEING (ac_flags a2) then asyncFree junk strerror user a2 else again cb a2
  | None => a1 ← freeObject_of p (with_replies r a); again cb a1
  end = Some a' → live a' ∨ over a'.
Proof.
  intros Hag Hr Hl -> Ha. assert (Hp : plain_ctx (with_replies r a)) by (apply plain_with_replies, Hl).
  destruct (cb_fn cb) as [f|] eqn:Hf.
  - apply bind_Some in Ha as (a1 & H1 & Ha). destruct (run_moved cb (Some p) _ a1 H1 Hp) as (new & Hm); [apply Hl|].
    pose proof (shifted_live _ _ _ _ _ _ Hr Hl Hm) as Hl1. apply bind_Some in Ha as (a2 & H2 & Ha). apply free_object_live in H2 as (c2 & ->).
    pose proof (live_client c2 _ Hl1) as Hl2. destruct (FREEING _); [|by eapply Hag]. right.
    eapply finished_over; [eapply free_finished; [exact Ha|apply Hl2..]|apply Hl2].
  - apply bind_Some in Ha as (a1 & H1 & Ha). apply free_object_live in H1 as (c2 & ->). eapply Hag; [exact Ha|]. apply live_client.
    assert (Hm : moved (called_once cb None) [] (with_replies r a) (with_replies r a)) by (unfold called_once; rewrite Hf; by apply moved_refl).
    exact (shifted_live _ _ _ _ _ _ Hr Hl Hm).
Qed.

Lemma process_live fuel : ∀ cb a a', process_loop junk strerror user fuel cb a = Some a' → live a → live a' ∨ over a'.
Proof.
  induction fuel as [|fuel IH]; intros cb a a' Ha Hl; [done|]. cbn [process_loop] in Ha. apply bind_Some in Ha as ([[status reply] c1] & _ & Ha).
  pose proof (live_client c1 a Hl) as Hl1. set (a1 := with_client c1 a) in *. clearbody a1.
  assert (Hdis : ∀ a1, asyncDisconnect junk strerror user a1 = Some a' → live a1 → over a').
  { intros x Hx Hlx. eapply finished_over; [eapply disconnect_finished; [exact Hx|apply Hlx..]|apply Hlx]. }
  destruct (negb (status =? REDIS_OK)); [right; by eapply Hdis|]. destruct reply as [r|].
  - destruct (replies a1) as [|cb1 rest] eqn:Hr; cbn [shiftCallback] in Ha.
    + apply bind_Some in Ha as (o & _ & Ha). destruct (r_type o =? REDIS_REPLY_ERROR).
      * apply bind_Some in Ha as (s & _ & Ha). apply bind_Some in Ha as (a2 & H2 & Ha). apply free_object_live in H2 as (c2 & ->).
        right. eapply Hdis; [exact Ha|]. by repeat apply live_client.
      * destruct Hl1 as [[[H1 H2 _ _ _] _] _]. by rewrite H1, H2 in Ha.
    + by eapply (deliver_live cb1 rest _ a1 (process_loop junk strerror user fuel)).
  - apply bind_Some in Ha as (b & _ & Ha). destruct (_ && _ && _); [right; by eapply Hdis|].
    destruct Hl1 as [[[H1 H2 H3 H4 H5] He] H6]. rewrite H2 in Ha. injection Ha as <-. left. split; [split; [by split|exact He]|exact H6].
Qed.

(** ** Steps *)

(** What the user and the event loop do with a context; [k] is what the kernel
    will answer. *)
Inductive async_op :=
| O_command (fn : option Z) (priv : Z) (argv : list (list Z))
| O_disconnect
| O_free
| O_connect_callback
| O_disconnect_callback
| O_read (s : sock_state) (k : kernel)
| O_write (s : sock_state) (k : kernel).

Definition with_answers (k : kernel) (a : redisAsyncContext) : redisAsyncContext := with_client (with_kernel k (ac_c a)) a.

Definition async_step (o : async_op) (a : redisAsyncContext) : option redisAsyncContext :=
  if negb (alive a) then None
  else
    match o with
    | O_command fn priv argv => '(_, a1) ← redisAsyncCommandArgv junk strerror true true fn priv argv a; Some a1
    | O_disconnect => redisAsyncDisconnect junk strerror user a
    | O_free => redisAsyncFree junk strerror user a
    | O_connect_callback => Some (redisAsyncSetConnectCallback a).2
    | O_disconnect_callback => Some (redisAsyncSetDisconnectCallback a).2
    | O_read s k => redisAsyncHandleRead junk strerror user s (with_answers k a)
    | O_write s k => redisAsyncHandleWrite junk strerror user s (with_answers k a)
    end.

Definition op_ok (o : async_op) : Prop := match o with O_command fn priv argv => action_ok (A_command fn priv argv) | _ => True end.

Fixpoint async_run (os : list async_op) (a : redisAsyncContext) : option redisAsyncContext :=
  match os with
  | [] => Some a
  | o :: r => a1 ← async_step o a; async_run r a1
  end.

Lemma live_flag f a : (SUBSCRIBED (f (ac_flags a)), MONITORING (f (ac_flags a)), IN_CALLBACK (f (ac_flags a))) =
    (SUBSCRIBED (ac_flags a), MONITORING (ac_flags a), IN_CALLBACK (ac_flags a)) → live a → live (flag f a).
Proof. intros [= H1 H2 H3] [[[P1 P2 P3 P4 P5] He] [Hi Ha]]. split; [split; [|exact He]|split]; [split|..]; cbn; congruence. Qed.

Lemma live_emit e a : call_of e = None → queued_of e = None → live a → live (emit e a).
Proof.
  intros H1 H2 [[Hp He] H]. split; [split; [by destruct Hp|]|exact H]. by rewrite calls_emit, queued_emit, H1, H2, !app_nil_r.
Qed.

Lemma disconnect_over a a' : asyncDisconnect junk strerror user a = Some a' → live a → over a'.
Proof. intros Ha Hl. eapply finished_over; [eapply disconnect_finished; [exact Ha|apply Hl..]|apply Hl]. Qed.

Lemma when_connected_live s a go a' : when_connected junk strerror user s a go = Some a' → live a →
  (∀ a1 a2, go a1 = Some a2 → live a1 → live a2 ∨ over a2) → live a' ∨ over a'.
Proof.
  intros Ha Hl Hgo. unfold when_connected in Ha. destruct (negb (CONNECTED (ac_flags a))); [|by eapply Hgo].
  apply bind_Some in Ha as ([r a1] & Hh & Ha). unfold handleConnect in Hh. destruct (redisCheckSocketError strerror s (ac_c a)) as [r0 c1].
  pose proof (live_client c1 a Hl) as Hl1. set (b := with_client c1 a) in *. clearbody b. destruct (r0 =? REDIS_ERR).
  - assert (Hdis : ∀ b1, (b2 ← asyncDisconnect junk strerror user b1; Some (REDIS_ERR, b2)) = Some (r, a1) → live b1 → live a' ∨ over a').
    { intros b1 Hb1 Hlb. apply bind_Some in Hb1 as (b2 & Hb2 & [= <- <-]). change (negb (REDIS_ERR =? REDIS_OK)) with true in Ha. injection Ha as <-.
      right. by eapply disconnect_over. }
    destruct (decide (sock_errno s = Some EINPROGRESS)).
    + injection Hh as <- <-. change (negb (REDIS_OK =? REDIS_OK)) with false in Ha. cbn iota in Ha.
      destruct (negb (CONNECTED (ac_flags b))); [injection Ha as <-; by left|by eapply Hgo].
    + eapply Hdis; [exact Hh|]. destruct (onConnect b); [by apply live_emit|done].
  - injection Hh as <- <-. change (negb (REDIS_OK =? REDIS_OK)) with false in Ha. cbn iota in Ha.
    assert (Hl2 : live (if onConnect (flag set_connected b) then emit (E_connect REDIS_OK) (flag set_connected b) else flag set_connected b)).
    { pose proof (live_flag set_connected b eq_refl Hl1) as Hl2. destruct (onConnect _); [by apply live_emit|done]. }
    destruct (negb _) in Ha; [injection Ha as <-; by left|by eapply Hgo].
Qed.

Lemma step_live o a a' : async_step o a = Some a' → op_ok o → live a → live a' ∨ over a'.
Proof.
  intros Ha Ho Hl. unfold async_step in Ha. rewrite (proj2 (proj2 Hl)) in Ha. cbn [negb] in Ha. destruct o as [fn priv argv| | | | |s k|s k].
  - left. destruct Ho as [Hpl Hm]. rewrite async_command_eq in Ha by (done || apply Hl). destruct (refusing a) eqn:Hr; cbn [mbind option_bind] in Ha; [by injection Ha as <-|].
    destruct (accepted fn priv argv a) as [a1|] eqn:Hacc; [|done]. cbn [mbind option_bind] in Ha. injection Ha as <-.
    destruct (accepted_moved _ _ _ _ _ Hacc) as [P C Q R A _ [I _]]; [apply Hl|done|]. destruct Hl as [[Hp He] [Hi Hal]].
    split; [split; [done|]|split; congruence]. by rewrite C, Q, R, app_nil_r, !filter_app, app_assoc, He.
  - unfold redisAsyncDisconnect, redisAsyncDisconnect_with in Ha. pose proof (live_flag set_disconnecting a eq_refl Hl) as Hl1.
    destruct (_ && _); [right; by eapply disconnect_over|injection Ha as <-; by left].
  - unfold redisAsyncFree, redisAsyncFree_with in Ha. pose proof (live_flag set_freeing a eq_refl Hl) as Hl1.
    destruct (negb _); [|injection Ha as <-; by left]. right. eapply finished_over; [eapply free_finished; [exact Ha|apply Hl1..]|apply Hl1].
  - injection Ha as <-. left. unfold redisAsyncSetConnectCallback. destruct (negb (onConnect a)); [|done]. apply live_call_ev.
    destruct Hl as [[[H1 H2 H3 H4 H5] He] H6]. split; [split; [by split|exact He]|exact H6].
  - injection Ha as <-. left. unfold redisAsyncSetDisconnectCallback. destruct (negb (onDisconnect a)); [|done].
    destruct Hl as [[[H1 H2 H3 H4 H5] He] H6]. split; [split; [by split|exact He]|exact H6].
  - unfold redisAsyncHandleRead in Ha. eapply when_connected_live; [exact Ha|by apply live_client|]. clear -user_ok. intros a a' Ha Hl.
    apply bind_Some in Ha as ([r c1] & _ & Ha). pose proof (live_client c1 a Hl) as Hl1. destruct (r =? REDIS_ERR); [right; by eapply disconnect_over|].
    unfold redisProcessCallbacks in Ha. apply bind_Some in Ha as (b & _ & Ha). eapply process_live; [exact Ha|by apply live_call_ev].
  - unfold redisAsyncHandleWrite in Ha. eapply when_connected_live; [exact Ha|by apply live_client|]. clear -user_ok. intros a a' Ha Hl.
    apply bind_Some in Ha as ([[r d] c1] & _ & Ha). pose proof (live_client c1 a Hl) as Hl1. destruct (r =? REDIS_ERR); [right; by eapply disconnect_over|].
    injection Ha as <-. left. by repeat apply live_call_ev.
Qed.

Lemma run_live os : ∀ a a', async_run os a = Some a' → Forall op_ok os → live a → live a' ∨ over a'.
Proof.
  induction os as [|o os IH]; intros a a' Ha Ho Hl; cbn [async_run] in Ha; [injection Ha as <-; by left|].
  apply Forall_cons in Ho as [Ho Hos]. apply bind_Some in Ha as (a1 & H1 & Ha). destruct (step_live o a a1 H1 Ho Hl) as [Hl1|Hov]; [by eapply IH|].
  destruct os as [|o2 os]; cbn [async_run] in Ha; [injection Ha as <-; by right|]. unfold async_step in Ha. rewrite (proj1 (proj2 Hov)) in Ha. done.
Qed.

(** C15: the callbacks of commands with one reply each are called exactly once, in
    the order of the commands.  As long as the user gives no SUBSCRIBE,
    UNSUBSCRIBE, PSUBSCRIBE, PUNSUBSCRIBE or MONITOR, neither directly nor from
    within a callback, and no command of INT_MAX bytes or more ([op_ok],
    [user_ok]), but may disconnect and free the context at any time; whatever the
    server sends and whether the connection fails: while the context lives, the
    callbacks that have been called and those that still wait are, in this order,
    those of the commands that were accepted; when the context is gone they all
    have been called.  With the commands that are excluded it does not hold: a
    callback of MONITOR or of a subscription is called many times or for another
    name ([monitor_loses_messages], [unknown_name_calls_last_callback] in
    AsyncRun.v). *)
Theorem callbacks_called_once os c a :
  Forall op_ok os → async_run os (redisAsyncInitialize c) = Some a →
  (calls a).*1 ++ filter has_fn (replies a) = filter has_fn (queued a) ∧ (alive a = false → (calls a).*1 = filter has_fn (queued a)).
Proof.
  intros Ho Hr. assert (Hl : live (redisAsyncInitialize c)) by (by repeat split).
  destruct (run_live os _ a Hr Ho Hl) as [[[_ He] [_ Hal]]|[[_ He] [_ Hre]]]; (split; [exact He|intros Hd]); [congruence|].
  rewrite Hre in He. by rewrite <- He, app_nil_r.
Qed.

(** ** The heap *)

(** A reader at the beginning of a reply does not care what else is on the
    heap. *)
Lemma ready_other_heap p M m l r h h' : ready_rel p M (pstart l) r h → objs h' = m → next h' = next h → mem h' = mem h → below p m →
  ready_rel p m (pstart l) r h'.
Proof.
  intros [Hr Hpos] Ho Hn Hm Hb. split; [|done]. destruct Hr as [[[H1 H2 H3 H4 H5 H6 H7] Hty]|(l' & [= <-] & [I1 I2 I3 I4 I5 I6 I7])].
  - left. split; [|done]. split; try done. destruct H5 as (E1 & E2 & E3 & E4). split_and!; [|congruence|congruence|done].
    rewrite Ho. symmetry. apply map_empty_union.
  - right. exists l. split; [done|]. split; try done. destruct I7 as (E1 & E2 & E3 & E4). split_and!; congruence || done.
Qed.

Lemma below_mono p q m : below p m → (p <= q)%nat → below q m.
Proof. intros Hb Hq a Ha. specialize (Hb a Ha). lia. Qed.
End props.
