(* ===== verification/AsyncRun.v ===== *)
(** * An asynchronous context serves its callbacks

    A context is specified by an abstract machine: the parser of Resp.v, a queue
    of callbacks and the bytes to be written.  It knows only commands with one
    reply each; SUBSCRIBE, UNSUBSCRIBE, their pattern forms and MONITOR are
    outside of it (they are the matter of PubSub.v, and of the examples at the end
    of this file, where the code does otherwise).  However such commands, the
    pieces of the server's answers and the writes are interleaved, the context
    does what the machine does: the calls of callbacks with their replies, the
    bytes on the wire, and the heap. *)

From Stdlib Require Ascii String.
From stdpp Require Import strings.
From S2P Require Import Prelude Dict Sds SdsProps Numbers SdsFmt Read Reply Resp ReplyTree ReadRefine ReadRun ReadProps Command FormatCommand Context ContextProps Net Async AsyncProps.
Local Open Scope Z_scope.

(** ** The machine *)

Record serving := mk_serving {
  v_st : pstate;
  v_queue : list redisCallback;
  v_out : list Z;
  v_wire : list Z;
  v_calls : list (redisCallback * option tree)
}.

Section machine.
Context (user : redisCallback → option tree → list action).

Definition serve_command (fn : option Z) (priv : Z) (argv : list (list Z)) (v : serving) : option serving :=
  if Z.of_nat (length (v_out v ++ encode (command argv))) <? INT_MAX then
    Some (mk_serving (v_st v) (v_queue v ++ [mk_callback fn 1 priv]) (v_out v ++ encode (command argv)) (v_wire v) (v_calls v))
  else None.

Fixpoint serve_actions (xs : list action) (v : serving) : option serving :=
  match xs with
  | [] => Some v
  | A_command fn priv argv :: r => v1 ← serve_command fn priv argv v; serve_actions r v1
  | _ => None
  end.

(** The callback [cb] gets the reply [t]. *)
Definition serve_call (cb : redisCallback) (t : tree) (v : serving) : option serving :=
  match cb_fn cb with
  | None => Some v
  | Some _ => serve_actions (user cb (Some t)) (mk_serving (v_st v) (v_queue v) (v_out v) (v_wire v) (v_calls v ++ [(cb, Some t)]))
  end.

(** All replies that are complete. *)
Fixpoint serve (fuel : nat) (v : serving) : option serving :=
  match fuel with
  | O => None
  | S fuel' =>
    match parse (v_st v) with
    | Some (R_more st) => Some (mk_serving st (v_queue v) (v_out v) (v_wire v) (v_calls v))
    | Some (R_reply t l) =>
      match v_queue v with
      | [] => None
      | cb :: q => v1 ← serve_call cb t (mk_serving (pstart l) q (v_out v) (v_wire v) (v_calls v)); serve fuel' v1
      end
    | _ => None
    end
  end.

Inductive serve_op := V_command (fn : option Z) (priv : Z) (argv : list (list Z)) | V_read (l : list Z) | V_write (n : nat).

Definition serve_step (o : serve_op) (v : serving) : option serving :=
  match o with
  | V_command fn priv argv => serve_command fn priv argv v
  | V_read l =>
    if bool_decide (l ≠ [] ∧ (length l <= Z.to_nat (1024 * 16))%nat) && (1024 + Z.of_nat (length (rest (v_st v) ++ l)) <=? INT_MAX) then
      serve (S (length (rest (v_st v) ++ l))) (mk_serving (feed l (v_st v)) (v_queue v) (v_out v) (v_wire v) (v_calls v))
    else None
  | V_write n => Some (mk_serving (v_st v) (v_queue v) (drop n (v_out v)) (v_wire v ++ take n (v_out v)) (v_calls v))
  end.

Fixpoint serve_run (os : list serve_op) (v : serving) : option serving :=
  match os with
  | [] => Some v
  | o :: r => v1 ← serve_step o v; serve_run r v1
  end.
End machine.

Definition serving_new : serving := mk_serving (pstart []) [] [] [] [].

(** ** The context *)

(** The handlers are called with the kernel ready to take or to give bytes. *)
Definition op_of (o : serve_op) (a : redisAsyncContext) : async_op :=
  match o with
  | V_command fn priv argv => O_command fn priv argv
  | V_read l => O_read S_ok (mk_kernel [] [R_data l] (sent (kern (ac_c a))))
  | V_write n => O_write S_ok (mk_kernel [W_took (Z.of_nat n)] [] (sent (kern (ac_c a))))
  end.

Fixpoint play (junk : Z) (strerror : errno → list Z) (user : redisCallback → option tree → list action) (os : list serve_op)
    (a : redisAsyncContext) : option redisAsyncContext :=
  match os with
  | [] => Some a
  | o :: r => a1 ← async_step junk strerror user (op_of o a) a; play junk strerror user r a1
  end.

Section run.
Context (junk : Z) (strerror : errno → list Z) (user : redisCallback → option tree → list action).
Context (user_ok : ∀ cb t, Forall action_ok (user cb t)).

Record async_rel (inside : bool) (p : nat) (m : gmap nat redisReply) (v : serving) (a : redisAsyncContext) : Prop := {
  ar_conn : conn_rel false p m (v_st v) (v_out v) (ac_c a);
  ar_plain : plain_ctx a;
  ar_inside : IN_CALLBACK (ac_flags a) = inside;
  ar_open : refusing a = false;
  ar_alive : alive a = true;
  ar_queue : replies a = v_queue v;
  ar_calls : calls a = v_calls v;
  ar_wire : sent (kern (ac_c a)) = v_wire v;
  ar_out : Z.of_nat (length (v_out v)) < INT_MAX
}.

Lemma rel_call_ev b p m v f a : async_rel b p m v a → async_rel b p m v (call_ev f a).
Proof.
  intros [H1 H2 H3 H4 H5 H6 H7 H8 H9]. pose proof (call_ev_same f a) as (E1 & E2 & E3 & E4 & _).
  split; rewrite ?E1, ?E2, ?E3, ?E4, ?calls_call_ev; try done; [by apply plain_call_ev|]. unfold refusing. by rewrite E3.
Qed.

Lemma append_conn blk p m st bytes x cmd : conn_rel blk p m st bytes x → Z.of_nat (length (bytes ++ cmd)) < INT_MAX →
  ∃ x', redisAppendCommand_ junk strerror true cmd x = Some (REDIS_OK, x') ∧ conn_rel blk p m st (bytes ++ cmd) x' ∧ kern x' = kern x ∧ hp x' = hp x.
Proof.
  intros [He Hbl (b & Hob & Hb & Hc) Hr] Hm. unfold redisAppendCommand_. rewrite Hob. pose proof (content_length b Hb) as Hlb. rewrite Hc in Hlb.
  rewrite length_app in Hm. unfold INT_MAX in Hm. destruct (sdscatlen_ok junk b cmd Hb) as (b' & -> & Hb' & Hc'); [lia|].
  eexists. split; [done|]. split_and!; [|done|done]. split; try done. exists b'. by rewrite <- Hc.
Qed.

Lemma command_rel b p m v v' a fn priv argv : serve_command fn priv argv v = Some v' → plain argv → async_rel b p m v a →
  ∃ a', redisAsyncCommandArgv junk strerror true true fn priv argv a = Some (REDIS_OK, a') ∧ async_rel b p m v' a'.
Proof.
  intros Hv Hpl [H1 H2 H3 H4 H5 H6 H7 H8 H9]. unfold serve_command in Hv. destruct (Z.ltb_spec (Z.of_nat (length (v_out v ++ encode (command argv)))) INT_MAX); [|done].
  injection Hv as <-. rewrite async_command_eq; [|done|rewrite length_app in *; lia|apply H2]. rewrite H4. unfold accepted.
  destruct (append_conn false p m _ _ (ac_c a) (encode (command argv)) H1) as (x' & -> & Hx & Hk & _); [done|]. cbn [mbind option_bind].
  eexists. split; [done|]. apply rel_call_ev. split; cbn [v_st v_queue v_out v_wire v_calls]; try done.
  - by destruct H2.
  - cbn. by rewrite H6.
  - change (calls (with_client ?c (emit ?e ?x))) with (calls (emit e x)). rewrite calls_emit. cbn. rewrite app_nil_r. exact H7.
  - cbn. by rewrite Hk.
Qed.

Lemma actions_rel xs p m : ∀ v v' a, serve_actions xs v = Some v' → Forall action_ok xs → async_rel true p m v a →
  ∃ a', in_callback junk strerror xs a = Some a' ∧ async_rel true p m v' a'.
Proof.
  induction xs as [|x xs IH]; intros v v' a Hv Hx Ha; cbn [serve_actions in_callback] in *; [injection Hv as <-; by exists a|].
  apply Forall_cons in Hx as [Hx Hxs]. destruct x as [fn priv argv| |]; [|done|done]. apply bind_Some in Hv as (v1 & Hv1 & Hv).
  destruct (command_rel true p m v v1 a fn priv argv Hv1) as (a1 & Ha1 & Hr1); [apply Hx|done|]. cbn [act_with]. rewrite Ha1. cbn [mbind option_bind].
  by eapply IH.
Qed.

(** A callback is called with a reply that lies on the heap. *)
Lemma call_rel cb r t p m v v' a : serve_call user cb t v = Some v' → async_rel false p m v a → tree_of (Some r) a = Some t →
  ∃ a', runCallback junk strerror user cb (Some r) a = Some a' ∧ async_rel false p m v' a'.
Proof.
  intros Hv Ha Ht. unfold serve_call, runCallback in *. unfold tree_of in Ht. destruct (cb_fn cb); [|injection Hv as <-; by exists a].
  rewrite Ht. destruct Ha as [H1 H2 H3 H4 H5 H6 H7 H8 H9].
  destruct (actions_rel (user cb (Some t)) p m _ v' (emit (E_callback cb (Some t)) (flag (set_in_callback true) a)) Hv (user_ok _ _)) as (a' & -> & Hr).
  - split; cbn [v_st v_queue v_out v_wire v_calls]; try done; [by destruct H2|]. rewrite calls_emit. cbn. f_equal. exact H7.
  - cbn [mbind option_bind]. eexists. split; [done|]. destruct Hr as [P1 P2 P3 P4 P5 P6 P7 P8 P9]. split; try done. by destruct P2.
Qed.

(** Without blocking, a reply comes from what has been read. *)
Lemma async_get_reply_eq p m st bytes x : conn_rel false p m st bytes x →
  match parse st with
  | Some (R_error _ _) => True
  | _ => redisGetReply junk strerror x = redisGetReplyFromReader strerror x
  end.
Proof.
  intros Hc. pose proof (from_reader_ok strerror p m st bytes x Hc) as Hg. unfold redisGetReply. destruct (parse st) as [[st'|t l|e msg]|]; [| |done|done].
  - destruct Hg as (x' & -> & Hc' & _). change (REDIS_OK =? REDIS_ERR) with false. cbn iota. by rewrite (cl_block _ _ _ _ _ Hc').
  - by destruct Hg as (x' & -> & _).
Qed.

Lemma conn_below blk p m st bytes x : conn_rel blk p m st bytes x → below p m ∧ fn (c_reader (ctx x)) = Some defaultFunctions.
Proof.
  intros [_ _ _ [[[Hir _]|(l & _ & Hid)] _]]; [destruct (ir_heap _ _ _ _ _ _ _ Hir) as (_ & _ & _ & ?)|destruct (id_heap _ _ _ _ _ Hid) as (_ & _ & _ & ?)];
    (split; [done|]); [apply Hir|apply Hid].
Qed.

(** The reply is freed when its callback is done with it. *)
Lemma freed_rel p m t v a l : async_rel false (p + tsize t) (heap_map p (flat p t) m) v a → v_st v = pstart l → fits t → below p m →
  objs (hp (ac_c a)) = heap_map p (flat p t) m →
  ∃ a', freeObject_of p a = Some a' ∧ async_rel false (p + tsize t) m v a' ∧ FREEING (ac_flags a') = false.
Proof.
  intros [H1 H2 H3 H4 H5 H6 H7 H8 H9] Hst Hfit Hb Ho. destruct (free_reply t p m (hp (ac_c a)) Hfit Hb Ho) as (h' & Hh & Ho' & Hn & Hm).
  destruct (conn_below _ _ _ _ _ _ H1) as [_ Hfn]. unfold freeObject_of. rewrite Hfn. cbn [mbind option_bind defaultFunctions freeObject]. rewrite Hh. cbn [mbind option_bind].
  eexists. split; [done|]. split; [|unfold refusing in H4; by apply orb_false_elim in H4 as [_ H4]]. split; try done; [|by destruct H2].
  destruct H1 as [E1 E2 E3 E4]. split; try done. rewrite Hst in *. eapply ready_other_heap; [exact E4|done|done|done|]. eapply below_mono; [exact Hb|lia].
Qed.

Lemma serve_actions_st xs : ∀ v v', serve_actions xs v = Some v' → v_st v' = v_st v.
Proof.
  induction xs as [|x xs IH]; intros v v' Hv; cbn [serve_actions] in Hv; [by injection Hv as <-|]. destruct x; [|done|done].
  apply bind_Some in Hv as (v1 & H1 & Hv). rewrite (IH _ _ Hv). unfold serve_command in H1. case_match; [|done]. by injection H1 as <-.
Qed.

Lemma serve_call_st cb t v v' : serve_call user cb t v = Some v' → v_st v' = v_st v.
Proof. unfold serve_call. intros Hv. destruct (cb_fn cb); [|by injection Hv as <-]. by apply serve_actions_st in Hv. Qed.

Lemma no_callback_call cb t v v' : serve_call user cb t v = Some v' → cb_fn cb = None → v' = v.
Proof. unfold serve_call. intros Hv Hf. rewrite Hf in Hv. by injection Hv. Qed.

(** The objects of a reply are still there when its callback has run. *)
Lemma idle_objs b p m v a l : async_rel b p m v a → v_st v = pstart l → objs (hp (ac_c a)) = m.
Proof.
  intros Ha Hst. pose proof (cl_reader _ _ _ _ _ (ar_conn _ _ _ _ _ Ha)) as Hr. rewrite Hst in Hr. destruct Hr as [[[Hir _]|(l' & _ & Hid)] _].
  - destruct (ir_heap _ _ _ _ _ _ _ Hir) as (-> & _). apply map_empty_union.
  - apply (id_heap _ _ _ _ _ Hid).
Qed.

Lemma process_rel fuel : ∀ fuelv p m v v' a cb, serve user fuelv v = Some v' → async_rel false p m v a → (length (rest (v_st v)) + 1 < fuel)%nat →
  ∃ a' p', process_loop junk strerror user fuel cb a = Some a' ∧ async_rel false p' m v' a'.
Proof.
  induction fuel as [|fuel IH]; intros fuelv p m v v' a cb Hv Ha Hf; [lia|]. destruct fuelv as [|fuelv]; [done|]. cbn [serve process_loop] in *.
  pose proof Ha as [H1 H2 H3 H4 H5 H6 H7 H8 H9]. pose proof (async_get_reply_eq _ _ _ _ _ H1) as Hge. pose proof (from_reader_ok strerror _ _ _ _ _ H1) as Hg.
  pose proof (parse_rest (v_st v)) as Hpr. destruct (conn_below _ _ _ _ _ _ H1) as [Hbl _].
  unfold refusing in H4. pose proof H4 as [Hdis Hfr]%orb_false_elim.
  destruct (parse (v_st v)) as [[st|t l|e msg]|]; [| |done|done]; rewrite Hge.
  - injection Hv as <-. destruct Hg as (x' & -> & Hx & Hk). cbn [mbind option_bind]. change (negb (REDIS_OK =? REDIS_OK)) with false. cbn iota.
    destruct (cl_obuf _ _ _ _ _ Hx) as (b & Hob & _). cbn [ac_c with_client]. rewrite Hob. cbn [mbind option_bind ac_flags with_client]. rewrite Hdis.
    destruct H2 as [P1 P2 P3 P4 P5]. rewrite P2. cbn [andb]. exists (with_client x' a), p. split; [done|]. split; try done. cbn. by rewrite Hk.
  - destruct Hg as (x' & -> & Ho & Hfit & Hx & Hk). cbn [mbind option_bind]. change (negb (REDIS_OK =? REDIS_OK)) with false. cbn iota.
    destruct (v_queue v) as [|cb1 q] eqn:Hq; [done|]. cbn [replies with_client]. rewrite H6. cbn [shiftCallback].
    apply bind_Some in Hv as (v1 & Hv1 & Hv). set (a1 := with_replies q (with_client x' a)).
    assert (Hr1 : async_rel false (p + tsize t) (heap_map p (flat p t) m) (mk_serving (pstart l) q (v_out v) (v_wire v) (v_calls v)) a1).
    { split; try done; [by destruct H2|]. cbn. by rewrite Hk. }
    assert (Htree : tree_of (Some p) a1 = Some t).
    { unfold tree_of. cbn [mbind option_bind]. change (ac_c a1) with x'. rewrite Ho. pose proof (heap_map_size p t m). apply read_tree; [done|lia|].
      intros i o Hi. rewrite heap_map_lookup; [done|by eapply lookup_lt_Some]. }
    pose proof (serve_call_st _ _ _ _ Hv1) as Hst1. cbn [v_st] in Hst1. destruct (cb_fn cb1) as [f|] eqn:Hfn.
    + destruct (call_rel cb1 p t _ _ _ v1 a1 Hv1 Hr1 Htree) as (a2 & -> & Hr2). cbn [mbind option_bind].
      destruct (freed_rel p m t v1 a2 l Hr2 Hst1 Hfit Hbl) as (a3 & -> & Hr3 & Hf3); [by eapply idle_objs|]. cbn [mbind option_bind]. rewrite Hf3.
      eapply IH; [exact Hv|exact Hr3|]. rewrite Hst1. cbn [pstart rest]. lia.
    + rewrite (no_callback_call _ _ _ _ Hv1 Hfn) in *. destruct (freed_rel p m t _ a1 l Hr1 Hst1 Hfit Hbl) as (a3 & -> & Hr3 & Hf3); [by eapply idle_objs|].
      cbn [mbind option_bind]. eapply IH; [exact Hv|exact Hr3|]. cbn [v_st pstart rest]. lia.
Qed.

(** ** The handlers *)

Lemma rel_answers b p m v a k : async_rel b p m v a → sent k = v_wire v → async_rel b p m v (with_answers k a).
Proof. intros [H1 H2 H3 H4 H5 H6 H7 H8 H9] Hk. split; try done; [by destruct H1|by destruct H2]. Qed.

Lemma connected_rel p m v a go : async_rel false p m v a →
  ∃ a1, when_connected junk strerror user S_ok a go = go a1 ∧ async_rel false p m v a1 ∧ ac_c a1 = ac_c a.
Proof.
  intros Ha. unfold when_connected. destruct (CONNECTED (ac_flags a)) eqn:Hc; cbn [negb]; [by exists a|].
  unfold handleConnect. cbn [redisCheckSocketError mbind option_bind]. change (REDIS_OK =? REDIS_ERR) with false. cbn iota.
  change (negb (REDIS_OK =? REDIS_OK)) with false. cbn iota. set (a1 := flag set_connected (with_client (ac_c a) a)).
  assert (Hr : async_rel false p m v a1) by (destruct Ha as [H1 H2 H3 H4 H5 H6 H7 H8 H9]; split; try done; by destruct H2).
  destruct (onConnect a1).
  - exists (emit (E_connect REDIS_OK) a1). split; [done|]. split; [|done]. destruct Hr as [H1 H2 H3 H4 H5 H6 H7 H8 H9].
    split; try done; [by destruct H2|]. rewrite calls_emit. cbn [call_of]. by rewrite app_nil_r.
  - by exists a1.
Qed.

(** A piece that fits the buffer of [redisBufferRead]. *)
Lemma read_piece blk p m st bytes x l : conn_rel blk p m st bytes x → l ≠ [] → (length l <= Z.to_nat (1024 * 16))%nat →
  1024 + Z.of_nat (length (rest st ++ l)) <= INT_MAX → reads (kern x) = [R_data l] →
  ∃ x', redisBufferRead junk strerror x = Some (REDIS_OK, x') ∧ conn_rel blk p m (feed l st) bytes x' ∧ sent (kern x') = sent (kern x).
Proof.
  intros Hx Hl Hlen Hm Hk. destruct Hx as [He Hbl Hob Hr]. unfold redisBufferRead. rewrite He. cbn [negb Z.eqb]. unfold sys_read. rewrite Hk.
  rewrite take_ge, drop_ge by lia. rewrite length_app in Hm. destruct (feed_ok junk p m st _ _ l Hr) as (r' & Hfeed & Hr'); [lia|].
  destruct l as [|c l]; [done|]. rewrite Hfeed. change (negb (REDIS_OK =? REDIS_OK)) with false. cbn iota. eexists. split; [done|]. split; [by split|done].
Qed.

(** The fuel of the loop is enough. *)
Lemma process_callbacks_rel fuelv p m v v' a : serve user fuelv v = Some v' → async_rel false p m v a →
  ∃ a' p', redisProcessCallbacks junk strerror user a = Some a' ∧ async_rel false p' m v' a'.
Proof.
  intros Hv Ha. unfold redisProcessCallbacks. pose proof (cl_reader _ _ _ _ _ (ar_conn _ _ _ _ _ Ha)) as Hr.
  destruct (ready_buffer _ _ _ _ _ Hr) as (b & Hb & Hok & Hlen & Hpos & _ & Hrest). rewrite Hb. cbn [mbind option_bind].
  eapply process_rel; [exact Hv|exact Ha|]. rewrite Hrest, length_drop. pose proof (content_length b Hok). pose proof (so_len _ Hok).
  unfold sdslen. enough (length (content b) <= Z.to_nat (s_len b))%nat by lia. lia.
Qed.

Lemma read_rel p m v v' a l : serve_step user (V_read l) v = Some v' → async_rel false p m v a →
  ∃ a' p', async_step junk strerror user (op_of (V_read l) a) a = Some a' ∧ async_rel false p' m v' a'.
Proof.
  intros Hv Ha. cbn [serve_step] in Hv. destruct (bool_decide _ && _) eqn:Hg; [|done]. apply andb_prop in Hg as [[Hl Hlen]%bool_decide_eq_true Hm%Z.leb_le].
  unfold async_step. rewrite (ar_alive _ _ _ _ _ Ha). cbn [negb op_of]. set (k := mk_kernel _ _ _).
  pose proof (rel_answers _ _ _ _ _ k Ha (ar_wire _ _ _ _ _ Ha)) as Ha1. unfold redisAsyncHandleRead.
  edestruct (connected_rel p m v (with_answers k a)) as (a1 & -> & Ha2 & Hc2); [done|].
  destruct (read_piece false p m _ _ (ac_c a1) l (ar_conn _ _ _ _ _ Ha2) Hl Hlen Hm) as (x' & -> & Hx & Hs); [by rewrite Hc2|].
  cbn [mbind option_bind]. change (REDIS_OK =? REDIS_ERR) with false. cbn iota. eapply process_callbacks_rel; [exact Hv|]. apply rel_call_ev.
  destruct Ha2 as [H1 H2 H3 H4 H5 H6 H7 H8 H9]. split; try done; [by destruct H2|]. cbn. by rewrite Hs.
Qed.

Lemma write_rel p m v v' a n : serve_step user (V_write n) v = Some v' → async_rel false p m v a →
  ∃ a', async_step junk strerror user (op_of (V_write n) a) a = Some a' ∧ async_rel false p m v' a'.
Proof.
  intros [= <-] Ha. unfold async_step. rewrite (ar_alive _ _ _ _ _ Ha). cbn [negb op_of]. set (k := mk_kernel _ _ _).
  pose proof (rel_answers _ _ _ _ _ k Ha (ar_wire _ _ _ _ _ Ha)) as Ha1. unfold redisAsyncHandleWrite.
  edestruct (connected_rel p m v (with_answers k a)) as (a1 & -> & Ha2 & Hc2); [done|]. destruct Ha2 as [H1 H2 H3 H4 H5 H6 H7 H8 H9].
  assert (∃ d x', redisBufferWrite junk strerror (ac_c a1) = Some (REDIS_OK, d, x') ∧ conn_rel false p m (v_st v) (drop n (v_out v)) x' ∧
    sent (kern x') = v_wire v ++ take n (v_out v)) as (d & x' & -> & Hx & Hs).
  { destruct (decide (v_out v = [])) as [E|E].
    - rewrite E in *. rewrite (write_nothing junk strerror p m (v_st v) _ H1). eexists _, _. split; [done|]. rewrite drop_nil, take_nil, app_nil_r. done.
    - pose proof (write_some junk strerror p m _ _ _ (W_took (Z.of_nat n)) [] H1 E) as Hw. destruct Hw as (x' & Hw & Hx & Hk); [lia|by rewrite Hc2|].
      rewrite Nat2Z.id in Hx, Hk. eexists _, _. split; [done|]. split; [done|]. rewrite Hk. cbn [sent]. by rewrite H8. }
  cbn [mbind option_bind]. change (REDIS_OK =? REDIS_ERR) with false. cbn iota. eexists. split; [done|]. apply rel_call_ev, rel_call_ev.
  split; try done; [by destruct H2|]. cbn [v_out]. rewrite length_drop. lia.
Qed.

Definition serve_op_ok (o : serve_op) : Prop := match o with V_command _ _ argv => plain argv | _ => True end.

Lemma play_rel os : ∀ p m v v' a, serve_run user os v = Some v' → Forall serve_op_ok os → async_rel false p m v a →
  ∃ a' p', play junk strerror user os a = Some a' ∧ async_rel false p' m v' a'.
Proof.
  induction os as [|o os IH]; intros p m v v' a Hv Ho Ha; cbn [serve_run play] in *; [injection Hv as <-; by exists a, p|].
  apply Forall_cons in Ho as [Ho Hos]. apply bind_Some in Hv as (v1 & Hv1 & Hv).
  assert (∃ a1 p1, async_step junk strerror user (op_of o a) a = Some a1 ∧ async_rel false p1 m v1 a1) as (a1 & p1 & -> & H1).
  { destruct o as [fn priv argv|l|n].
    - destruct (command_rel false p m v v1 a fn priv argv Hv1 Ho Ha) as (a1 & Hc & H1). exists a1, p. split; [|done].
      unfold async_step. rewrite (ar_alive _ _ _ _ _ Ha). cbn [negb op_of]. by rewrite Hc.
    - by eapply read_rel.
    - destruct (write_rel p m v v1 a n Hv1 Ha) as (a1 & H1 & H2). by exists a1, p. }
  cbn [mbind option_bind]. by eapply IH.
Qed.

(** ** The end *)

(** A context that is about to be closed refuses commands; its callbacks do
    nothing to the connection. *)
Lemma in_callback_refusing xs : ∀ a, Forall action_ok xs → plain_ctx a → IN_CALLBACK (ac_flags a) = true → refusing a = true →
  ∃ a', in_callback junk strerror xs a = Some a' ∧ ac_c a' = ac_c a.
Proof.
  induction xs as [|x xs IH]; intros a Hx Hp Hi Hr; cbn [in_callback]; [by exists a|]. apply Forall_cons in Hx as [Hx Hxs].
  assert (∃ a1, act_with junk strerror (λ _, None) (λ _, None) x a = Some a1 ∧ ac_c a1 = ac_c a) as (a1 & H1 & Hc1).
  { destruct x as [fn priv argv| |]; cbn [act_with].
    - destruct Hx. rewrite async_command_eq, Hr by (done || apply Hp). by exists a.
    - unfold redisAsyncDisconnect_with. cbn [ac_flags flag with_flags set_disconnecting IN_CALLBACK]. rewrite Hi. by eexists.
    - unfold redisAsyncFree_with. cbn [ac_flags flag with_flags set_freeing IN_CALLBACK]. rewrite Hi. by eexists. }
  destruct (act_moved junk strerror x a a1 H1 Hx Hp Hi) as (new & Hm). rewrite H1. cbn [mbind option_bind]. rewrite <- Hc1.
  apply IH; [done|apply Hm|by rewrite (proj1 (mv_flags _ _ _ _ Hm))|]. by apply (mv_refusing _ _ _ _ Hm).
Qed.

Lemma run_refusing cb a : plain_ctx a → IN_CALLBACK (ac_flags a) = false → refusing a = true →
  ∃ a', runCallback junk strerror user cb None a = Some a' ∧ ac_c a' = ac_c a.
Proof.
  intros Hp Hi Hr. unfold runCallback. destruct (cb_fn cb); [|by exists a].
  destruct (in_callback_refusing (user cb None) (emit (E_callback cb None) (flag (set_in_callback true) a)) (user_ok _ _)) as (a' & Ha & Hc);
    [by destruct Hp|done|done|]. cbn [mbind option_bind]. rewrite Ha. by eexists.
Qed.

Lemma drain_refusing fuel : ∀ a, plain_ctx a → IN_CALLBACK (ac_flags a) = false → refusing a = true → (length (replies a) < fuel)%nat →
  ∃ a', drain_replies junk strerror user fuel a = Some a' ∧ ac_c a' = ac_c a.
Proof.
  induction fuel as [|fuel IH]; intros a Hp Hi Hr Hf; [lia|]. cbn [drain_replies]. destruct (replies a) as [|cb q] eqn:Hq; cbn [shiftCallback]; [by exists a|].
  destruct (run_refusing cb (with_replies q a)) as (a1 & H1 & Hc1); [by apply plain_with_replies|done|done|].
  destruct (run_moved junk strerror user user_ok cb None _ a1 H1) as (new & [P C Q R A F [I N]]); [by apply plain_with_replies|done|].
  destruct (F Hr) as [Hr1 ->]. rewrite H1. cbn [mbind option_bind]. change (ac_c a) with (ac_c (with_replies q a)). rewrite <- Hc1.
  apply IH; [done|by rewrite I|done|]. rewrite R, app_nil_r. cbn [replies with_replies length] in *. lia.
Qed.

Lemma free_ok p m v a : async_rel false p m v a →
  ∃ a', redisAsyncFree junk strerror user a = Some a' ∧ alive a' = false ∧ replies a' = [] ∧
    calls a' = calls a ++ null_calls (replies a) ∧ objs (hp (ac_c a')) = m.
Proof.
  intros [H1 H2 H3 H4 H5 H6 H7 H8 H9].
  replace (redisAsyncFree junk strerror user a) with (asyncFree junk strerror user (flag set_freeing a))
    by (unfold redisAsyncFree, redisAsyncFree_with; cbn [ac_flags flag with_flags set_freeing IN_CALLBACK]; by rewrite H3).
  set (a1 := flag set_freeing a). assert (Hp1 : plain_ctx a1) by (by destruct H2). assert (Hr1 : refusing a1 = true) by (unfold refusing; cbn; apply orb_true_r).
  destruct (drain_refusing (S (length (replies a1))) a1 Hp1 H3 Hr1) as (a2 & Hd & Hc2); [lia|].
  pose proof (drain_moved junk strerror user user_ok _ a1 a2 Hd Hp1 H3) as Hdr.
  assert (∃ a', asyncFree junk strerror user a1 = Some a' ∧ objs (hp (ac_c a')) = m) as (a' & Ha & Ho).
  { rewrite async_free_eq by (intros a3 H; rewrite Hd in H; injection H as <-; apply Hdr). rewrite Hd. cbn [mbind option_bind]. set (a6 := if _ && _ then _ else _).
    assert (ac_c a6 = ac_c a) as ->.
    { pose proof (call_ev_same cleanup a2) as (_ & _ & _ & Hcc & _). transitivity (ac_c (call_ev cleanup a2)); [unfold a6; repeat case_if; done|]. rewrite Hcc. exact Hc2. }
    destruct (redis_free_ok _ _ _ _ (cl_reader _ _ _ _ _ H1)) as (x' & -> & _ & _ & Ho & _). cbn [mbind option_bind]. by eexists. }
  exists a'. destruct (free_finished junk strerror user user_ok a1 a' Ha Hp1 H3) as (E1 & E2 & E3 & new & E4 & E5 & E6).
  rewrite (E6 Hr1), app_nil_r in E4. split_and!; try done.
Qed.

(** C14: a context that is given only commands with one reply each serves its
    callbacks.  No command, given by the user or from within a callback, is a
    SUBSCRIBE, UNSUBSCRIBE, PSUBSCRIBE, PUNSUBSCRIBE or MONITOR; each command, and
    what waits to be written, stays below INT_MAX bytes; the allocations succeed.
    For every interleaving of such commands, of pieces of what the server sends
    and of writes that the machine goes through, the context goes through it, too:
    the callbacks are called with the replies in the order in which they come,
    each with the reply at its place, the others wait, and the bytes the server
    gets are those of the commands.  Freeing the context then ends: what waits is
    called with null replies, and nothing is left on the heap.  For the commands
    that are excluded it does not hold: [monitor_loses_messages],
    [unknown_name_calls_last_callback]. *)
Theorem context_serves_callbacks os v p m :
  below p m → Forall serve_op_ok os → serve_run user os serving_new = Some v →
  ∃ c a a', redisContextInit junk true true true true false = Some (Some c) ∧
    play junk strerror user os (redisAsyncInitialize (mk_client c (mk_heap m p []) (mk_kernel [] [] []))) = Some a ∧
    calls a = v_calls v ∧ replies a = v_queue v ∧ sent (kern (ac_c a)) = v_wire v ∧
    redisAsyncFree junk strerror user a = Some a' ∧ alive a' = false ∧ calls a' = v_calls v ++ null_calls (v_queue v) ∧ objs (hp (ac_c a')) = m.
Proof.
  intros Hb Ho Hv. destruct (context_init_ok junk p m (mk_kernel [] [] []) false Hb) as (c & Hc & Hbl & He & Hob & Hr).
  assert (Ha : async_rel false p m serving_new (redisAsyncInitialize (mk_client c (mk_heap m p []) (mk_kernel [] [] []))))
    by (split; [split; [exact He|exact Hbl|exact Hob|exact Hr]|by split|done..]).
  destruct (play_rel os p m _ v _ Hv Ho Ha) as (a & p' & Hp & Hrel). destruct (free_ok p' m v a Hrel) as (a' & Hf & Hal & _ & Hca & Hom).
  exists c, a, a'. destruct Hrel as [H1 H2 H3 H4 H5 H6 H7 H8 H9]. rewrite <- H6, <- H7. by split_and!.
Qed.
End run.

(** ** At concrete inputs, and where it fails *)

Definition strings (l : list (list Z)) : tree := T_array (length l) (T_string REDIS_REPLY_STRING <$> l).
Definition piece_of (l : list Z) : kernel := mk_kernel [] [R_data l] [].

(** The first callback asks for something else. *)
Definition example_user (cb : redisCallback) (t : option tree) : list action :=
  match cb_fn cb with
  | Some 1 => [A_command (Some 3) 30 [chars "GET"; chars "again"]]
  | Some 2 => [A_free; A_command (Some 4) 40 [chars "GET"; chars "late"]]
  | _ => []
  end.

Lemma example_user_ok cb t : Forall action_ok (example_user cb t).
Proof.
  unfold example_user. destruct (cb_fn cb) as [f|]; [|by constructor]. destruct f as [|[p|[p|p|]|]|p]; try (by apply Forall_nil);
    repeat (apply Forall_cons; split; [first [exact I | split; [split_and!; by vm_compute|by vm_compute]]|]); by apply Forall_nil.
Qed.

Definition example_ops : list serve_op :=
  [V_command (Some 1) 10 [chars "GET"; chars "k"]; V_command None 11 [chars "SET"; chars "k"; chars "v"]; V_write 100;
   V_read (chars "$1" ++ CRLF ++ chars "v"); V_read (CRLF ++ chars "+OK"); V_command (Some 5) 50 [chars "PING"]; V_read CRLF; V_write 10].

Lemma context_serves_callbacks_witness :
  ∃ c a, redisContextInit 170 true true true true false = Some (Some c) ∧
    play 170 (λ _, []) example_user example_ops (redisAsyncInitialize (mk_client c (mk_heap ∅ 0 []) (mk_kernel [] [] []))) = Some a ∧
    calls a = [(mk_callback (Some 1) 1 10, Some (T_string REDIS_REPLY_STRING (chars "v")))] ∧
    replies a = [mk_callback (Some 3) 1 30; mk_callback (Some 5) 1 50].
Proof.
  assert (Hops : Forall serve_op_ok example_ops) by (repeat constructor; by vm_compute).
  destruct (serve_run example_user example_ops serving_new) as [v|] eqn:Hv; [|by vm_compute in Hv].
  destruct (context_serves_callbacks 170 (λ _, []) example_user example_user_ok example_ops v 0 ∅ empty_below Hops Hv)
    as (c & a & a' & Hc & Hp & H1 & H2 & _). exists c, a. vm_compute in Hv. injection Hv as <-. split_and!; [exact Hc|exact Hp|exact H1|exact H2].
Defined.

Definition example_steps : list async_op :=
  [O_command (Some 1) 10 [chars "GET"; chars "k"]; O_command None 11 [chars "SET"; chars "k"; chars "v"]; O_command (Some 2) 12 [chars "PING"];
   O_command (Some 5) 50 [chars "PING"]; O_read S_ok (piece_of (encode T_nil ++ chars "+OK" ++ CRLF ++ chars "+P")); O_disconnect;
   O_read S_ok (piece_of (chars "ONG" ++ CRLF))].

(** The context after the steps. *)
Definition outcome_of (user : redisCallback → option tree → list action) (os : list async_op) : option redisAsyncContext :=
  c ← fresh_client false (mk_kernel [] [] []); async_run 170 (λ _, []) user os (redisAsyncInitialize c).

Lemma outcome_run user os a : outcome_of user os = Some a → ∃ c, async_run 170 (λ _, []) user os (redisAsyncInitialize c) = Some a.
Proof. unfold outcome_of. intros Ha. apply bind_Some in Ha as (c & _ & Ha). by exists c. Qed.

Lemma callbacks_called_once_witness :
  ∃ a, outcome_of example_user example_steps = Some a ∧ (calls a).*1 = filter has_fn (queued a) ∧ length (calls a) = 4%nat.
Proof.
  assert (Hs : match outcome_of example_user example_steps with Some a => alive a = false ∧ length (calls a) = 4%nat | None => False end) by (by vm_compute).
  destruct (outcome_of example_user example_steps) as [a|] eqn:Ha; [|contradiction]. destruct (outcome_run _ _ _ Ha) as (c & Hr).
  destruct Hs as [Hal Hlen]. exists a. split_and!; [reflexivity| |exact Hlen].
  apply (callbacks_called_once 170 (λ _, []) example_user example_user_ok example_steps c a); [|exact Hr|exact Hal].
  repeat (apply Forall_cons; split; [first [exact I | split; [split_and!; by vm_compute|by vm_compute]]|]). by apply Forall_nil.
Defined.

Definition quiet (cb : redisCallback) (t : option tree) : list action := [].

(** A message for a name that is in no table is given to the callback of the
    message before it, here that of the channel [a]: the variable keeps its
    value from one round of the loop to the next. *)
Lemma unknown_name_calls_last_callback :
  (calls <$> outcome_of quiet
     [O_command (Some 1) 0 [chars "SUBSCRIBE"; chars "a"]; O_command None 0 [chars "UNSUBSCRIBE"; chars "z"];
      O_read S_ok (piece_of (encode (T_array 3 [T_string REDIS_REPLY_STRING (chars "subscribe"); T_string REDIS_REPLY_STRING (chars "a"); T_integer 1]) ++
                             encode (T_array 3 [T_string REDIS_REPLY_STRING (chars "unsubscribe"); T_string REDIS_REPLY_STRING (chars "z"); T_integer 1])))]) =
  Some [(mk_callback (Some 1) 0 0, Some (T_array 3 [T_string REDIS_REPLY_STRING (chars "subscribe"); T_string REDIS_REPLY_STRING (chars "a"); T_integer 1]));
        (mk_callback (Some 1) 0 0, Some (T_array 3 [T_string REDIS_REPLY_STRING (chars "unsubscribe"); T_string REDIS_REPLY_STRING (chars "z"); T_integer 1]))].
Proof. by vm_compute. Qed.

(** After a read that ends within a message the monitor's queue has an empty
    callback, and from then on every other message is lost. *)
Lemma monitor_loses_messages :
  ((λ a, snd <$> calls a) <$> outcome_of quiet
     ([O_command (Some 1) 0 [chars "MONITOR"]; O_read S_ok (piece_of (chars "+OK" ++ CRLF)); O_read S_ok (piece_of (chars "+on"))] ++
      ((λ l, O_read S_ok (piece_of (l ++ CRLF))) <$> [chars "e"; chars "+two"; chars "+three"; chars "+four"]))) =
  Some [Some (T_string REDIS_REPLY_STATUS (chars "OK")); Some (T_string REDIS_REPLY_STATUS (chars "one"));
        Some (T_string REDIS_REPLY_STATUS (chars "three"))].
Proof. by vm_compute. Qed.

Definition sub_message (w name : list Z) (n : Z) : list Z :=
  encode (T_array 3 [T_string REDIS_REPLY_STRING w; T_string REDIS_REPLY_STRING name; T_integer n]).

(** The counter of pending subscriptions of one channel goes over to the next
    ones of the same command: the channel [b] is not forgotten when its
    subscription ends, and the context stays in the subscribed mode although the
    server has left it. *)
Lemma subscribed_mode_stays :
  ((λ a, (SUBSCRIBED (ac_flags a), used (channels a))) <$> outcome_of quiet
     [O_command (Some 1) 0 [chars "SUBSCRIBE"; chars "a"]; O_command (Some 1) 0 [chars "SUBSCRIBE"; chars "a"; chars "b"];
      O_command None 0 [chars "UNSUBSCRIBE"];
      O_read S_ok (piece_of (sub_message (chars "subscribe") (chars "a") 1 ++ sub_message (chars "subscribe") (chars "a") 1 ++
        sub_message (chars "subscribe") (chars "b") 2 ++ sub_message (chars "unsubscribe") (chars "b") 1 ++
        sub_message (chars "unsubscribe") (chars "a") 0))]) = Some (true, 1).
Proof. by vm_compute. Qed.

(** An event while the connection is still being made leaves its error in the
    context: when it is made later, the next event ends it. *)
Lemma connection_in_progress_fails :
  (events <$> outcome_of quiet
     [O_connect_callback; O_disconnect_callback; O_command (Some 1) 7 [chars "PING"]; O_write (S_error EINPROGRESS) (mk_kernel [] [] []);
      O_write S_ok (mk_kernel [W_took 100] [] [])]) =
  Some [E_queued (mk_callback (Some 1) 1 7); E_connect REDIS_OK; E_callback (mk_callback (Some 1) 1 7) None; E_disconnect REDIS_ERR].
Proof. by vm_compute. Qed.
