(* ===== verification/PubSub.v ===== *)
(** * Subscriptions

    The tables of an asynchronous context are finite maps from names to callbacks
    (DictProps.v, through its interface).  A subscription enters its callback
    with a count, which is meant to be the number of confirmations that are
    missing ([counted]) and is not for an unknown name behind a known one; a
    message is given to the callback of its name; the end of a subscription
    removes it when the count is zero. *)

From Stdlib Require Ascii String.
From stdpp Require Import strings.
From S2P Require Import Prelude Dict DictProps Sds SdsProps Numbers SdsFmt SdsText SdsTextProps SdsArgs Read Reply Resp ReplyTree ReadProps Command FormatCommand Context ContextProps Async AsyncProps.
Local Open Scope Z_scope.

(** What the callbacks of the table see of a name: for a name of less than 2 GiB
    its length and all of it. *)
Definition canon (k : list Z) : Z * list Z := (to_int (Z.of_nat (length k)), int_prefix k).

Lemma canon_short k1 k2 : Z.of_nat (length k1) <= INT_MAX → Z.of_nat (length k2) <= INT_MAX → canon k1 = canon k2 ↔ k1 = k2.
Proof.
  intros H1 H2. split; [|by intros ->]. unfold canon, int_prefix. rewrite !to_int_id by (unfold in_int, INT_MIN, INT_MAX in *; lia).
  rewrite !Nat2Z.id, !take_ge by lia. by intros [= _ ->].
Qed.

Lemma prefix_length k1 k2 : to_int (Z.of_nat (length k1)) = to_int (Z.of_nat (length k2)) → length (int_prefix k1) = length (int_prefix k2).
Proof.
  intros E. unfold int_prefix. rewrite !length_take, E.
  assert (Hle : ∀ n : Z, 0 <= n → to_int n <= n).
  { intros n Hn. unfold to_int. pose proof (Z.mod_le (n + 2 ^ 31) (2 ^ 32)). lia. }
  pose proof (Hle (Z.of_nat (length k1))). pose proof (Hle (Z.of_nat (length k2))). lia.
Qed.

#[export] Instance callbackDict_laws : dict_laws callbackDict canon.
Proof.
  split.
  - intros k1 k2 [= H1 H2]. cbn. unfold callbackHash. by rewrite H2.
  - intros k1 k2. unfold dictCompareHashKeys. cbn [keyCompare callbackDict]. unfold callbackKeyCompare, canon.
    destruct (Z.eqb_spec (to_int (Z.of_nat (length k1))) (to_int (Z.of_nat (length k2)))) as [E|E]; cbn [negb]; [|split; [done|by intros [= ? _]]].
    rewrite Z.eqb_eq, memcmp_eq by (by apply prefix_length). split; [by intros ->; rewrite E|by intros [= _ ->]].
  - done.
Qed.

(** ** The abstract tables *)

Definition names : Type := gmap (Z * list Z) redisCallback.

Record subscriptions := mk_subscriptions { s_channels : names; s_patterns : names; s_active : bool }.

Definition s_table (pv : bool) (s : subscriptions) : names := if pv then s_patterns s else s_channels s.
Definition s_put (pv : bool) (m : names) (s : subscriptions) : subscriptions :=
  if pv then mk_subscriptions (s_channels s) m (s_active s) else mk_subscriptions m (s_patterns s) (s_active s).
Definition s_set_active (b : bool) (s : subscriptions) : subscriptions := mk_subscriptions (s_channels s) (s_patterns s) b.

(** What the loop of the code does to the table: a name that is in it has one
    confirmation more to wait for.  The count is stored in the callback that is
    entered for the names behind it, too (async.c 642), so that an unknown name
    gets the count of the last known one before it instead of 1: a defect of the
    code, described here as it is.  What the counts should be is [counted]. *)
Fixpoint enter (pv : bool) (ns : list (list Z)) (cb : redisCallback) (s : subscriptions) : subscriptions :=
  match ns with
  | [] => s
  | n :: r =>
    let cb1 := match s_table pv s !! canon n with Some e => mk_callback (cb_fn cb) (to_int (pending_subs e + 1)) (privdata cb) | None => cb end in
    enter pv r cb1 (s_put pv (<[canon n := cb1]> (s_table pv s)) s)
  end.

(** What a subscription should enter, whatever the loop does: the confirmations
    [k] waits for, how often it is in the command, and that every name of the
    command has the callback, with as many confirmations more as it is there. *)
Definition waits (pv : bool) (s : subscriptions) (k : Z * list Z) : Z :=
  match s_table pv s !! k with Some e => pending_subs e | None => 0 end.

Definition times (k : Z * list Z) (ns : list (list Z)) : nat := length (filter (λ n, canon n = k) ns).

Definition counted (pv : bool) (ns : list (list Z)) (fn : option Z) (priv : Z) (s s' : subscriptions) : Prop :=
  ∀ k, s_table pv s' !! k =
    if bool_decide (times k ns = 0%nat) then s_table pv s !! k
    else Some (mk_callback fn (to_int (waits pv s k + Z.of_nat (times k ns))) priv).

(** The names not yet in the table come first, each of them once or, further
    on, again as a known one. *)
Definition known (pv : bool) (s : subscriptions) (n : list Z) : Prop := is_Some (s_table pv s !! canon n).

Definition unknown_first (pv : bool) (s : subscriptions) (ns : list (list Z)) : Prop :=
  ∃ fresh old, ns = fresh ++ old ∧ NoDup (canon <$> fresh) ∧ Forall (λ n, ¬ known pv s n) fresh ∧
    Forall (λ n, known pv s n ∨ canon n ∈ canon <$> fresh) old.

(** Every name of the command has its callback; the other names, the other table
    and the mode are kept. *)
Definition entered (pv : bool) (ns : list (list Z)) (fn : option Z) (priv : Z) (s s' : subscriptions) : Prop :=
  s_active s' = s_active s ∧ s_table (negb pv) s' = s_table (negb pv) s ∧
  (∀ n, n ∈ ns → ∃ c, s_table pv s' !! canon n = Some (mk_callback fn c priv)) ∧
  (∀ k, k ∉ canon <$> ns → s_table pv s' !! k = s_table pv s !! k).

Definition confirmed (cb : redisCallback) : redisCallback := mk_callback (cb_fn cb) (to_int (pending_subs cb - 1)) (privdata cb).

(** A message: whose callback is called, [last] if the name is unknown, and what
    becomes of the tables; [count] is the third element of the end of a
    subscription. *)
Definition route (pv : bool) (word name : list Z) (count : Z) (last : redisCallback) (s : subscriptions) : redisCallback * subscriptions :=
  match s_table pv s !! canon name with
  | None => (last, s)
  | Some cb0 =>
    if same_word word (chars "subscribe") then (confirmed cb0, s_put pv (<[canon name := confirmed cb0]> (s_table pv s)) s)
    else if same_word word (chars "unsubscribe") then
      let s1 := if pending_subs cb0 =? 0 then s_put pv (delete (canon name) (s_table pv s)) s else s in
      (cb0, if (count =? 0) && bool_decide (s_channels s1 = ∅) && bool_decide (s_patterns s1 = ∅) then s_set_active false s1 else s1)
    else (cb0, s)
  end.

(** ** The counts *)

Lemma to_int_add_l x y : to_int (to_int x + y) = to_int (x + y).
Proof.
  unfold to_int. f_equal. replace ((x + 2 ^ 31) `mod` 2 ^ 32 - 2 ^ 31 + y + 2 ^ 31) with ((x + 2 ^ 31) `mod` 2 ^ 32 + y) by lia.
  rewrite Zplus_mod_idemp_l. f_equal. lia.
Qed.

Lemma table_put pv m s : s_table pv (s_put pv m s) = m.
Proof. by destruct pv. Qed.
Lemma other_table_put pv m s : s_table (negb pv) (s_put pv m s) = s_table (negb pv) s ∧ s_active (s_put pv m s) = s_active s.
Proof. by destruct pv. Qed.

Lemma times_cons k n ns : times k (n :: ns) = ((if bool_decide (canon n = k) then 1 else 0) + times k ns)%nat.
Proof. unfold times. rewrite filter_cons. case_bool_decide as H; [by rewrite decide_True|by rewrite decide_False]. Qed.

(** [lookup_insert] at the type of the tables. *)
Lemma put_eq (m : names) k cb : <[k := cb]> m !! k = Some cb.
Proof. apply lookup_insert_eq. Qed.
Lemma put_ne (m : names) j k cb : j ≠ k → <[j := cb]> m !! k = m !! k.
Proof. apply lookup_insert_ne. Qed.

Lemma enter_entered pv ns : ∀ cb s, entered pv ns (cb_fn cb) (privdata cb) s (enter pv ns cb s).
Proof.
  induction ns as [|n ns IH]; intros cb s; cbn [enter]; [split_and!; [done|done|intros ? []%elem_of_nil|done]|].
  set (cb1 := match s_table pv s !! canon n with Some e => _ | None => _ end).
  assert (cb_fn cb1 = cb_fn cb ∧ privdata cb1 = privdata cb) as [Hf Hp] by (unfold cb1; by case_match).
  destruct (IH cb1 (s_put pv (<[canon n := cb1]> (s_table pv s)) s)) as (H1 & H2 & H3 & H4). rewrite Hf, Hp in *.
  destruct (other_table_put pv (<[canon n := cb1]> (s_table pv s)) s) as [E1 E2]. rewrite table_put in H4. split_and!; [congruence|congruence| |].
  - intros x [->|Hx]%elem_of_cons; [|by apply H3]. destruct (decide (canon n ∈ canon <$> ns)) as [(y & E & Hy)%list_elem_of_fmap|Hn]; [pose proof (H3 y Hy) as Hc; by rewrite <- E in Hc|].
    exists (pending_subs cb1). rewrite H4 by done. rewrite put_eq. rewrite <- Hf, <- Hp. by destruct cb1.
  - intros k [Hk Hks]%not_elem_of_cons. rewrite H4 by done. by apply put_ne.
Qed.

(** The first of the names, entered with the right count. *)
Lemma counted_cons pv n ns fn priv s s' :
  counted pv ns fn priv (s_put pv (<[canon n := mk_callback fn (to_int (waits pv s (canon n) + 1)) priv]> (s_table pv s)) s) s' →
  counted pv (n :: ns) fn priv s s'.
Proof.
  intros H k. rewrite (H k), times_cons. unfold waits. rewrite table_put. destruct (decide (canon n = k)) as [<-|Hne].
  - rewrite put_eq. rewrite (bool_decide_eq_true_2 (canon n = canon n)) by done. rewrite (bool_decide_eq_false_2 ((1 + _)%nat = 0%nat)) by lia.
    case_bool_decide as E; [by rewrite E|]. cbn [pending_subs]. rewrite to_int_add_l, Nat2Z.inj_add, Z.add_assoc. done.
  - rewrite put_ne by done. by rewrite (bool_decide_eq_false_2 (canon n = k)) by done.
Qed.

Lemma enter_known pv ns : ∀ cb s, Forall (known pv s) ns → counted pv ns (cb_fn cb) (privdata cb) s (enter pv ns cb s).
Proof.
  induction ns as [|n ns IH]; intros cb s Hk; [done|]. apply Forall_cons in Hk as [[e He] Hk]. cbn [enter]. apply counted_cons.
  unfold waits. rewrite He. set (cb1 := mk_callback _ _ _). apply (IH cb1). eapply Forall_impl; [exact Hk|].
  intros x Hx. unfold known. rewrite table_put. destruct (decide (canon n = canon x)) as [->|Hne]; [rewrite put_eq|rewrite put_ne by done]; done.
Qed.

Lemma enter_unknown_first pv ns fn priv s : unknown_first pv s ns → counted pv ns fn priv s (enter pv ns (mk_callback fn 1 priv) s).
Proof.
  intros (fresh & old & -> & Hnd & Hf & Ho). revert s Hf Ho. induction fresh as [|n fresh IH]; intros s Hf Ho; cbn [app enter].
  - apply (enter_known pv old (mk_callback fn 1 priv)). eapply Forall_impl; [exact Ho|]. intros x [Hx|Hx]; [done|]. by apply elem_of_nil in Hx.
  - apply NoDup_cons in Hnd as [Hn Hnd]. apply Forall_cons in Hf as [Hnew Hf]. unfold known in Hnew. apply eq_None_not_Some in Hnew.
    rewrite Hnew. apply counted_cons. unfold waits. rewrite Hnew. change (to_int (0 + 1)) with 1. apply IH; [done| |].
    + apply Forall_forall. intros x Hx. rewrite Forall_forall in Hf. unfold known. rewrite table_put, put_ne; [by apply (Hf x)|].
      intros E. apply Hn. rewrite E. by apply list_elem_of_fmap_2.
    + eapply Forall_impl; [exact Ho|]. intros x [Hx|[E|Hx]%elem_of_cons]; [left|left|by right]; unfold known; rewrite table_put.
      * destruct (decide (canon n = canon x)) as [->|Hne]; [by rewrite put_eq|by rewrite put_ne].
      * by rewrite E, put_eq.
Qed.

(** ** The tables of a context *)

Definition cb_table (pv : bool) (a : redisAsyncContext) : callbacks := if pv then patterns a else channels a.

Record table_ok (n : nat) (d : callbacks) : Prop := {
  to_ok : dict_ok canon d;
  to_type : d_type d = callbackDict;
  to_addrs : addrs_below n d
}.

Record subs_rel (s : subscriptions) (a : redisAsyncContext) : Prop := {
  sr_ok pv : table_ok (next_entry a) (cb_table pv a);
  sr_map pv : dict_map canon (cb_table pv a) = s_table pv s;
  sr_active : SUBSCRIBED (ac_flags a) = s_active s
}.

Lemma table_ok_mono n d : table_ok n d → table_ok (S n) d.
Proof. intros [H1 H2 H3]. split; [done|done|]. intros x Hx. specialize (H3 x Hx). lia. Qed.

Lemma find_rel pv s a k : subs_rel s a →
  ∃ r, dictFind (cb_table pv a) k = Some r ∧ e_val <$> r = s_table pv s !! canon k ∧
    ∀ e, r = Some e → e ∈ entries (cb_table pv a) ∧ canon (e_key e) = canon k.
Proof.
  intros Hs. destruct (sr_ok _ _ Hs pv) as [H1 H2 _]. destruct (find_spec canon callbackDict (cb_table pv a) k H1 H2) as (r & H & Hv & Hr).
  exists r. by rewrite <- (sr_map _ _ Hs pv).
Qed.

(** ** Subscribing *)

Lemma subscribe_one_rel pv name cb s a : subs_rel s a → Z.of_nat (next_entry a) < 2 ^ 31 →
  let cb1 := match s_table pv s !! canon name with Some e => mk_callback (cb_fn cb) (to_int (pending_subs e + 1)) (privdata cb) | None => cb end in
  ∃ a1, subscribe_one pv name cb a = Some (cb1, a1) ∧ subs_rel (s_put pv (<[canon name := cb1]> (s_table pv s)) s) a1 ∧
    next_entry a1 = S (next_entry a) ∧ a1 = with_subs (channels a1) (patterns a1) (next_entry a1) a.
Proof.
  intros Hs Hn cb1. unfold subscribe_one. fold (cb_table pv a).
  destruct (find_rel pv s a name Hs) as (r & -> & Hv & _).
  assert ((match r with Some e => mk_callback (cb_fn cb) (to_int (pending_subs (e_val e) + 1)) (privdata cb) | None => cb end) = cb1) as ->
    by (unfold cb1; rewrite <- Hv; by destruct r).
  destruct (sr_ok _ _ Hs pv) as [H1 H2 H3]. pose proof (used_bound canon _ _ H1 H3).
  destruct (replace_ok canon callbackDict (next_entry a) (cb_table pv a) name cb1 H1 H2) as (x & d & l & -> & Hd & Ht & Hm & Hsub & _);
    [lia|intros Hin; specialize (H3 _ Hin); lia|].
  rewrite (sr_map _ _ Hs pv) in Hm. change (dictSetHashVal callbackDict cb1) with cb1 in Hm.
  assert (Hd' : table_ok (S (next_entry a)) d).
  { split; [done|done|]. intros y Hy. specialize (Hsub y Hy). apply elem_of_cons in Hsub as [->|Hy']; [lia|]. specialize (H3 y Hy'). lia. }
  eexists. split; [done|]. split_and!.
  - pose proof (table_ok_mono _ _ (sr_ok _ _ Hs (negb pv))) as Ho. pose proof (sr_map _ _ Hs (negb pv)) as Hom.
    destruct pv; (split; [intros []|intros []|exact (sr_active _ _ Hs)]); assumption.
  - by destruct pv.
  - by destruct pv, a.
Qed.

(** The loop over encoded names ends at the zero behind the command. *)
Lemma subscribe_loop_rel fuel pv more : ∀ ns cb s a, subs_rel s a → (length ns < fuel)%nat →
  Forall (λ n, Z.of_nat (length n) <= INT_MAX) ns → Z.of_nat (next_entry a + length ns) <= 2 ^ 31 →
  ∃ a1, subscribe_loop fuel pv (concat (bulk <$> ns) ++ 0 :: more) cb a = Some a1 ∧ subs_rel (enter pv ns cb s) a1 ∧
    a1 = with_subs (channels a1) (patterns a1) (next_entry a1) a ∧ next_entry a1 = (next_entry a + length ns)%nat.
Proof.
  induction fuel as [|fuel IH]; intros ns cb s a Hs Hf Hlen Hn; [lia|]. cbn [subscribe_loop].
  destruct ns as [|n ns]; cbn [length] in *.
  - exists a. split_and!; [done|done|by destruct a|cbn; lia].
  - apply Forall_cons in Hlen as [Hl Hlen]. rewrite fmap_cons. cbn [concat]. rewrite <- app_assoc.
    pose proof (next_bulk [] n (concat (bulk <$> ns) ++ 0 :: more)) as Hnext. cbn [app] in Hnext. rewrite Hnext by done. rewrite Nat2Z.id, take_app_length.
    destruct (subscribe_one_rel pv n cb s a Hs) as (a1 & -> & Hs1 & Hn1 & Ha1); [lia|].
    match goal with |- context [subscribe_loop fuel pv _ ?cb1 a1] => destruct (IH ns cb1 _ a1 Hs1) as (a2 & -> & Hs2 & Ha2 & Hn2) end;
      [lia|done|rewrite Hn1; lia|].
    exists a2. split_and!; [done|exact Hs2|rewrite Ha2, Ha1; by destruct a|lia].
Qed.

Lemma subs_client c s a : subs_rel s a → subs_rel s (with_client c a).
Proof. intros [H1 H2 H3]. by split. Qed.

Lemma subs_call_ev f s a : subs_rel s a → subs_rel s (call_ev f a).
Proof. intros [H1 H2 H3]. unfold call_ev. destruct (ev a f); by split. Qed.

(** Whether a command or a message is about patterns. *)
Definition for_patterns (w : list Z) : bool := match w with c :: _ => tolower c =? 112 | [] => false end.

Lemma pattern_byte c0 : (tolower (hd 13 (c0 ++ CRLF)) =? 112) = for_patterns c0.
Proof. by destruct c0. Qed.

Lemma names_short c0 ns : Z.of_nat (length (encode (command (c0 :: ns)))) < INT_MAX → Forall (λ n, Z.of_nat (length n) <= INT_MAX) ns.
Proof.
  rewrite encode_command, bulks_cons, !length_app. intros Hm. apply Forall_forall. intros n Hn. apply list_elem_of_In, in_split in Hn as (l1 & l2 & ->).
  rewrite fmap_app, concat_app, bulks_cons, !length_app in Hm. pose proof (bulk_longer n). lia.
Qed.

Section pubsub.
Context (junk : Z) (strerror : errno → list Z).

Lemma subscribe_command_eq fn priv c0 n ns a : let argv := c0 :: n :: ns in
  line_is (word_of c0) (chars "subscribe") = true → Z.of_nat (length (encode (command argv))) < INT_MAX → refusing a = false →
  ∃ more, redisAsyncCommandArgv junk strerror true true fn priv argv a =
    a1 ← subscribe_loop (S (length (concat (bulk <$> n :: ns) ++ 0 :: more))) (for_patterns c0) (concat (bulk <$> n :: ns) ++ 0 :: more)
           (mk_callback fn 1 priv) (flag (set_subscribed true) a);
    '(_, c1) ← redisAppendCommand_ junk strerror true (encode (command argv)) (ac_c a1);
    Some (REDIS_OK, call_ev addWrite (with_client c1 a1)).
Proof.
  intros argv Hw Hm Href. unfold redisAsyncCommandArgv. destruct (format_sds_ok junk argv Hm) as (b & -> & Hb & Hc). cbn [mbind option_bind].
  destruct (Z.ltb_spec (Z.of_nat (length (encode (command argv)))) 0); [lia|]. unfold redisAsyncCommand_. unfold refusing in Href. rewrite Href.
  destruct (sds_memory b Hb) as (more & Hbuf). rewrite Hc in Hbuf. exists more. unfold argv in *. rewrite Hbuf, next_of_command by done.
  destruct (word_line c0 (concat (bulk <$> n :: ns) ++ 0 :: more)) as (x & Hword & Hx & Hxe). rewrite Hx. rewrite <- Hx, Hxe, Hword, pattern_byte.
  assert (Hd : ∃ l, concat (bulk <$> n :: ns) ++ 0 :: more = 36 :: l) by (eexists; rewrite bulks_cons; unfold bulk; cbn [app]; reflexivity).
  destruct Hd as (l & Hl). rewrite Hl at 1. change (36 =? 36) with true. cbn iota.
  rewrite (begins_line (chars "subscribe")) by (by repeat constructor). rewrite Hw. cbn [mbind option_bind].
  destruct (subscribe_loop _ _ _ _ _) as [a1|]; [|done]. cbn [mbind option_bind].
  rewrite read_at_Some by (rewrite ?length_app; lia). by rewrite Nat2Z.id, drop_0, take_app_length.
Qed.

(** C19: subscribing enters the names.  When the arguments are sent as a SUBSCRIBE
    or PSUBSCRIBE command of a context that takes commands, every name is in the
    table of the context with the callback of the command; the other names and
    the other table are as they were, the context is in the subscribed mode, and
    no callback is queued or called.  If no unknown name comes behind a known one
    ([unknown_first]; among others when all names are new and different, and for a
    command with one name), each name waits for as many confirmations more as it
    is in the command, a new one for none before.  Otherwise the counts are those
    the loop carries over from name to name ([enter]), which are wrong for such an
    unknown name: [subscribed_mode_stays].  The condition on [next_entry] bounds
    the names ever entered by 2^31. *)
Theorem subscribe_enters_names fn priv c0 n ns s a e c1 : let argv := c0 :: n :: ns in let pv := for_patterns c0 in
  line_is (word_of c0) (chars "subscribe") = true → Z.of_nat (length (encode (command argv))) < INT_MAX →
  refusing a = false → subs_rel s a → Z.of_nat (next_entry a + S (length ns)) <= 2 ^ 31 →
  redisAppendCommand_ junk strerror true (encode (command argv)) (ac_c a) = Some (e, c1) →
  ∃ s' a', redisAsyncCommandArgv junk strerror true true fn priv argv a = Some (REDIS_OK, a') ∧
    subs_rel s' a' ∧ entered pv (n :: ns) fn priv (s_set_active true s) s' ∧
    (unknown_first pv s (n :: ns) → counted pv (n :: ns) fn priv s s') ∧
    s' = enter pv (n :: ns) (mk_callback fn 1 priv) (s_set_active true s) ∧
    ac_c a' = c1 ∧ replies a' = replies a ∧ calls a' = calls a.
Proof.
  intros argv pv Hw Hm Href Hs Hn Happ. subst argv pv. destruct (subscribe_command_eq fn priv c0 n ns a Hw Hm Href) as (more & ->).
  assert (Hs0 : subs_rel (s_set_active true s) (flag (set_subscribed true) a)).
  { destruct Hs as [H1 H2 _]. split; [intros pv; specialize (H1 pv); by destruct pv|intros pv; specialize (H2 pv); by destruct pv|done]. }
  destruct (subscribe_loop_rel (S (length (concat (bulk <$> n :: ns) ++ 0 :: more))) (for_patterns c0) more (n :: ns) (mk_callback fn 1 priv) _ _ Hs0) as (a1 & -> & Hs1 & Ha1 & _);
    [pose proof (bulks_length (n :: ns)); rewrite length_app; cbn [length] in *; lia|by eapply names_short|exact Hn|].
  cbn [mbind option_bind]. assert (ac_c a1 = ac_c a) as -> by (by rewrite Ha1). rewrite Happ. cbn [mbind option_bind]. do 2 eexists. split; [done|].
  pose proof (call_ev_same addWrite (with_client c1 a1)) as (Hr & _ & _ & Hc & _). split_and!.
  - by apply subs_call_ev, subs_client.
  - exact (enter_entered (for_patterns c0) (n :: ns) (mk_callback fn 1 priv) (s_set_active true s)).
  - intros Hu. pose proof (enter_unknown_first (for_patterns c0) (n :: ns) fn priv (s_set_active true s)) as Hcount.
    destruct (for_patterns c0); exact (Hcount Hu).
  - done.
  - done.
  - rewrite Hr. by rewrite Ha1.
  - rewrite calls_call_ev. by rewrite Ha1.
Qed.

(** ** Messages *)

(** A message on the heap, and what the code reads of it. *)
Definition message (kind name : list Z) (third : tree) (rest : list tree) : tree :=
  T_array (3 + length rest) (T_string REDIS_REPLY_STRING kind :: T_string REDIS_REPLY_STRING name :: third :: rest).

Definition message_at (p : nat) (t : tree) (a : redisAsyncContext) : Prop := placed p (flat p t) (objs (hp (ac_c a))).

Lemma message_read p kind name third rest a : message_at p (message kind name third rest) a →
  ∃ r, reply_at a p = Some r ∧ r_type r = REDIS_REPLY_ARRAY ∧ r_elements r = Z.of_nat (3 + length rest) ∧
    reply_elem a r 0 = Some (string_object REDIS_REPLY_STRING kind) ∧ reply_elem a r 1 = Some (string_object REDIS_REPLY_STRING name) ∧
    ∀ v, third = T_integer v → reply_elem a r 2 = Some (mk_reply REDIS_REPLY_INTEGER v 0 None 0 None).
Proof.
  intros Hp. unfold message_at, message in Hp. rewrite flat_array in Hp. eexists. split.
  { pose proof (Hp O _ eq_refl) as H0. rewrite Nat.add_0_r in H0. exact H0. }
  split_and!; [done|done| | |].
  - unfold reply_elem, array_object. cbn. rewrite <- (Nat.add_1_r p). exact (Hp 1%nat _ eq_refl).
  - unfold reply_elem, array_object. cbn. replace (S (p + 1)) with (p + 2)%nat by lia. exact (Hp 2%nat _ eq_refl).
  - intros v ->. unfold reply_elem, array_object. cbn. replace (S (p + 1 + 1)) with (p + 3)%nat by lia. exact (Hp 3%nat _ eq_refl).
Qed.

Lemma used_empty pv s a : subs_rel s a → (used (cb_table pv a) =? 0) = bool_decide (s_table pv s = ∅).
Proof.
  intros Hs. destruct (sr_ok _ _ Hs pv) as [H1 _ _]. rewrite <- (sr_map _ _ Hs pv), (ok_used _ _ H1). unfold dict_map.
  destruct (entries (cb_table pv a)) as [|e l]; [by rewrite bool_decide_eq_true_2|]. rewrite bool_decide_eq_false_2; [|by apply insert_non_empty].
  apply Z.eqb_neq. cbn [length]. lia.
Qed.

(** One table of a context replaced. *)
Definition put_table (pv : bool) (d : callbacks) (a : redisAsyncContext) : redisAsyncContext :=
  if pv then with_subs (channels a) d (next_entry a) a else with_subs d (patterns a) (next_entry a) a.

Lemma put_rel pv d m s a : subs_rel s a → table_ok (next_entry a) d → dict_map canon d = m → subs_rel (s_put pv m s) (put_table pv d a).
Proof.
  intros Hs Hd Hm. pose proof (sr_ok _ _ Hs (negb pv)) as H1. pose proof (sr_map _ _ Hs (negb pv)) as H2.
  destruct pv; (split; [intros []|intros []|exact (sr_active _ _ Hs)]); assumption.
Qed.

(** A new value in the entry that was found. *)
Definition stored_at (d : callbacks) (e : dictEntry (list Z) redisCallback) (cb : redisCallback) : callbacks :=
  mk_dict (store_val (e_addr e) cb (table d)) (d_type d) (Dict.size d) (sizemask d) (used d).

Lemma store_rel pv s a e k cb : subs_rel s a → e ∈ entries (cb_table pv a) → canon (e_key e) = canon k →
  table_ok (next_entry a) (stored_at (cb_table pv a) e cb) ∧
  dict_map canon (stored_at (cb_table pv a) e cb) = <[canon k := cb]> (s_table pv s).
Proof.
  intros Hs He Hk. destruct (sr_ok _ _ Hs pv) as [H1 H2 H3]. apply list_elem_of_split in He as (l1 & l2 & He).
  assert (Hp : entries (cb_table pv a) ≡ₚ e :: l1 ++ l2) by (rewrite He; solve_Permutation).
  unfold stored_at. rewrite H2. destruct (store_val_ok canon callbackDict (e_addr e) cb e (l1 ++ l2) _ H1 H2 Hp eq_refl) as [Hok Hc]. split.
  - split; [done|done|]. intros x Hx. apply H3. unfold entries in Hx. cbn [table] in Hx. rewrite Hc in Hx. rewrite Hp. exact Hx.
  - rewrite <- (sr_map _ _ Hs pv). unfold dict_map, entries at 1. cbn [table]. rewrite (emap_perm canon _ _ Hc (ok_keys _ _ Hok)), emap_cons. cbn [e_key e_val].
    rewrite (emap_perm canon _ _ Hp (ok_keys _ _ H1)), emap_cons, Hk.
    symmetry. apply insert_insert_eq.
Qed.

Lemma delete_rel n d k v : table_ok n d → dict_map canon d !! canon k = Some v → Z.of_nat n <= 2 ^ 31 →
  ∃ r d' l, dictDelete d k = Some (r, d', l) ∧ table_ok n d' ∧ dict_map canon d' = delete (canon k) (dict_map canon d).
Proof.
  intros [H1 H2 H3] Hv Hn. pose proof (used_bound canon _ _ H1 H3).
  destruct (delete_ok canon callbackDict d k H1 H2) as (r & d' & l & -> & Hok & Ht & _ & Hres); [lia|].
  rewrite Hv in Hres. destruct Hres as (_ & e & Hp & Hk & _). do 3 eexists. split; [done|]. split.
  - split; [done|done|]. intros x Hx. apply H3. rewrite Hp. by right.
  - unfold dict_map at 2. rewrite (emap_perm canon _ _ Hp (ok_keys _ _ H1)), emap_cons, Hk, delete_insert_eq, delete_id; [done|].
    apply emap_None. intros e' He' Hk'. pose proof (ok_keys _ _ H1) as Hnd. rewrite (keys_perm canon _ _ Hp) in Hnd.
    apply NoDup_cons in Hnd as [Hnd _]. apply Hnd. rewrite Hk, <- Hk'. apply list_elem_of_fmap. by exists e'.
Qed.

Lemma word_not_both w : same_word w (chars "subscribe") = true → same_word w (chars "unsubscribe") = false.
Proof. unfold same_word. rewrite bool_decide_eq_true, bool_decide_eq_false. intros ->. done. Qed.

Lemma word_tail kind : (if for_patterns kind then tail kind else kind) = word_of kind.
Proof. destruct kind as [|c r]; [done|]. cbn. by case_if. Qed.

Lemma s_put_id pv s : s_put pv (s_table pv s) s = s.
Proof. by destruct pv, s. Qed.

(** The context leaves the subscribed mode when both tables are empty. *)
Lemma leave_rel (c : bool) s a : subs_rel s a →
  subs_rel (if c && bool_decide (s_channels s = ∅) && bool_decide (s_patterns s = ∅) then s_set_active false s else s)
    (if c && (used (channels a) =? 0) && (used (patterns a) =? 0) then flag (set_subscribed false) a else a).
Proof.
  intros Hs. change (s_channels s) with (s_table false s). change (s_patterns s) with (s_table true s). rewrite <- (used_empty false s a Hs), <- (used_empty true s a Hs). cbn [cb_table]. case_if; [|done].
  destruct Hs as [H1 H2 _]. split; [intros pv; specialize (H1 pv); by destruct pv|intros pv; specialize (H2 pv); by destruct pv|done].
Qed.

(** C18: a message of the server, as it lies on the heap, is routed by the map: it
    goes to the callback of its name; the confirmation of a subscription takes one
    from the callback's count; the end of a subscription removes the name if its
    count is zero; and with no name left in either table, and none left at the
    server, the context leaves the subscribed mode.  A message for a name that is
    in no table goes to the callback that was last at hand ([last]), which is not
    what a user expects: [unknown_name_calls_last_callback] in AsyncRun.v.  The
    names ever entered are at most 2^31. *)
Theorem messages_are_routed p kind name third rest count last s a :
  subs_rel s a → message_at p (message kind name third rest) a → Z.of_nat (next_entry a) <= 2 ^ 31 →
  (same_word (word_of kind) (chars "unsubscribe") = true → third = T_integer count) →
  let out := route (for_patterns kind) (word_of kind) name count last s in
  ∃ a', getSubscribeCallback p last a = Some (out.1, a') ∧ subs_rel out.2 a' ∧
    ac_c a' = ac_c a ∧ replies a' = replies a ∧ invalid a' = invalid a ∧ calls a' = calls a.
Proof.
  intros Hs Hp Hn Hthird out. destruct (message_read _ _ _ _ _ _ Hp) as (r & Hr & Hty & Hel & H0 & H1 & H2).
  unfold getSubscribeCallback. rewrite Hr. cbn [mbind option_bind]. rewrite Hty, Hel, H0, H1. change (REDIS_REPLY_ARRAY =? REDIS_REPLY_ARRAY) with true. cbn iota.
  destruct (Z.ltb_spec (Z.of_nat (3 + length rest)) 2); [lia|]. cbn [mbind option_bind r_type str string_object].
  change (REDIS_REPLY_STRING =? REDIS_REPLY_STRING) with true. cbn [negb mbind option_bind].
  assert ((tolower (default 0 (head kind)) =? 112) = for_patterns kind) as -> by (by destruct kind).
  rewrite word_tail. set (pv := for_patterns kind) in *. set (w := word_of kind) in *. fold (cb_table pv a).
  destruct (find_rel pv s a name Hs) as (f & -> & Hv & He). cbn [mbind option_bind].
  unfold out, route. rewrite <- Hv. destruct f as [e|]; cbn [fmap option_fmap option_map]; [|by exists a].
  destruct (He e eq_refl) as [Hin Hk]. cbn [fmap option_fmap option_map] in Hv. symmetry in Hv.
  change (to_int (pending_subs (e_val e) - 1)) with (pending_subs (confirmed (e_val e))).
  change (mk_callback (cb_fn (e_val e)) (pending_subs (confirmed (e_val e))) (privdata (e_val e))) with (confirmed (e_val e)).
  destruct (store_rel pv s a e name (confirmed (e_val e)) Hs Hin Hk) as [T1 M1].
  destruct (store_rel pv s a e name (e_val e) Hs Hin Hk) as [T2 M2]. rewrite (insert_id _ _ _ Hv) in M2.
  destruct (same_word w (chars "subscribe")) eqn:Ew.
  { rewrite (word_not_both _ Ew). exists (put_table pv (stored_at (cb_table pv a) e (confirmed (e_val e))) a).
    split; [done|]. split; [by apply put_rel|]. by destruct pv. }
  assert (Hs2 : subs_rel s (put_table pv (stored_at (cb_table pv a) e (e_val e)) a)).
  { rewrite <- (s_put_id pv s). by apply put_rel. }
  fold (stored_at (cb_table pv a) e (e_val e)). destruct (same_word w (chars "unsubscribe")) eqn:Eu.
  2:{ exists (put_table pv (stored_at (cb_table pv a) e (e_val e)) a). split; [done|]. split; [done|]. by destruct pv. }
  rewrite (H2 _ (Hthird eq_refl)). 
  set (s1 := if pending_subs (e_val e) =? 0 then _ else s).
  assert (Hd : ∃ d2, (if pending_subs (e_val e) =? 0 then '(_, d2, _) ← dictDelete (stored_at (cb_table pv a) e (e_val e)) name; Some d2
                      else Some (stored_at (cb_table pv a) e (e_val e))) = Some d2 ∧ subs_rel s1 (put_table pv d2 a)).
  { unfold s1. destruct (Z.eqb_spec (pending_subs (e_val e)) 0); [|by eexists].
    destruct (delete_rel _ _ name (e_val e) T2) as (r' & d2 & l' & -> & T3 & M3); [by rewrite M2|done|].
    exists d2. split; [done|]. apply put_rel; [done|done|by rewrite M3, M2]. }
  destruct Hd as (d2 & -> & Hs3). cbn [mbind option_bind r_type integer]. change (REDIS_REPLY_INTEGER =? REDIS_REPLY_INTEGER) with true. cbn [negb].
  eexists. split; [done|]. split; [exact (leave_rel (count =? 0) s1 _ Hs3)|]. by destruct pv; case_if.
Qed.
End pubsub.

(** ** Examples *)

Definition no_subscriptions : subscriptions := mk_subscriptions ∅ ∅ false.

Lemma initial_rel c : subs_rel no_subscriptions (redisAsyncInitialize c).
Proof.
  destruct (create_ok canon callbackDict) as [H1 H2].
  split; [|by intros []|done]. intros pv. assert (cb_table pv (redisAsyncInitialize c) = dictCreate callbackDict) as -> by (by destruct pv).
  split; [done|done|]. intros x Hx. by apply elem_of_nil in Hx.
Qed.

(** Two new names, the first of them twice: it waits for two confirmations. *)
Lemma subscribe_enters_names_witness :
  ∃ x s' a', fresh_client false (mk_kernel [] [] []) = Some x ∧
    redisAsyncCommandArgv 170 (λ _, []) true true (Some 1) 7 [chars "psubscribe"; chars "news.*"; chars "log"; chars "news.*"] (redisAsyncInitialize x) = Some (REDIS_OK, a') ∧
    subs_rel s' a' ∧ s_channels s' = ∅ ∧ s_active s' = true ∧
    s_patterns s' !! canon (chars "news.*") = Some (mk_callback (Some 1) 2 7) ∧ s_patterns s' !! canon (chars "log") = Some (mk_callback (Some 1) 1 7).
Proof.
  set (ns := [chars "log"; chars "news.*"]). set (cmd := encode (command (chars "psubscribe" :: chars "news.*" :: ns))).
  assert (Hx : match fresh_client false (mk_kernel [] [] []) with
               | Some x => is_Some (redisAppendCommand_ 170 (λ _, []) true cmd x) | None => False end) by (vm_compute; by eexists).
  destruct (fresh_client _ _) as [x|]; [|contradiction]. destruct Hx as [[e c1] Hx]. exists x.
  destruct (subscribe_enters_names 170 (λ _, []) (Some 1) 7 (chars "psubscribe") (chars "news.*") ns no_subscriptions (redisAsyncInitialize x) e c1)
    as (s' & a' & Ha & Hs & (E1 & E2 & _) & Hc & _); [by vm_compute|by vm_compute|reflexivity|apply initial_rel|by vm_compute|exact Hx|].
  assert (Hu : unknown_first (for_patterns (chars "psubscribe")) no_subscriptions (chars "news.*" :: ns)).
  { exists [chars "news.*"; chars "log"], [chars "news.*"]. split_and!; [done|by apply (bool_decide_unpack _); vm_compute| |].
    - repeat constructor; intros [y Hy]; by vm_compute in Hy.
    - apply Forall_singleton. right. by left. }
  specialize (Hc Hu). exists s', a'. split_and!; [reflexivity|exact Ha|exact Hs|exact E2|exact E1|exact (Hc (canon (chars "news.*")))|exact (Hc (canon (chars "log")))].
Defined.

(** A message of the server in the heap of a context that awaits it. *)
Lemma messages_are_routed_witness :
  let t := message (chars "subscribe") (chars "news") (T_integer 1) [] in
  ∃ a a', subs_rel (enter false [chars "news"] (mk_callback (Some 1) 1 7) no_subscriptions) a ∧ message_at 5 t a ∧
    getSubscribeCallback 5 no_callback a = Some (mk_callback (Some 1) 0 7, a') ∧
    subs_rel (mk_subscriptions {[ canon (chars "news") := mk_callback (Some 1) 0 7 ]} ∅ false) a'.
Proof.
  intros t. assert (Hx : is_Some (fresh_client false (mk_kernel [] [] []))) by (vm_compute; by eexists). destruct Hx as [x _].
  destruct (subscribe_loop_rel 2 false [] [chars "news"] (mk_callback (Some 1) 1 7) no_subscriptions
              (redisAsyncInitialize (mk_client (ctx x) (mk_heap (heap_map 5 (flat 5 t) ∅) 9 []) (kern x))))
    as (a & _ & Hs & Ha & Hne); [apply initial_rel|cbn; lia|repeat constructor; by vm_compute|by vm_compute|].
  assert (Hp : message_at 5 t a).
  { unfold message_at. assert (objs (hp (ac_c a)) = heap_map 5 (flat 5 t) ∅) as -> by (by rewrite Ha).
    intros i o Hi. rewrite heap_map_lookup; [exact Hi|]. by eapply lookup_lt_Some. }
  assert (Hn : Z.of_nat (next_entry a) <= 2 ^ 31).
  { rewrite Hne. cbn. lia. }
  destruct (messages_are_routed 5 (chars "subscribe") (chars "news") (T_integer 1) [] 1 no_callback _ a Hs Hp) as (a' & Hg & Hs' & _);
    [exact Hn|reflexivity|].
  exists a, a'. split; [exact Hs|]. split; [exact Hp|]. split; [exact Hg|exact Hs'].
Defined.
